(* ===== verification/_CoqProject ===== *)
-Q . S2P
Prelude.v
LruCache.v
Ranges.v
RaCache.v
MemPiece.v
Shield.v
Float64.v
PieceCache.v
DiskWarmup.v
Torrshash.v
Guards.v
InodeMap.v
Scheduler.v
Settings.v
Regex.v
Streaming.v
Quality.v
MovieSync.v
NativeReader.v
Pump.v
ReadPath.v
PumpLife.v
TVTitles.v
TVSync.v
HealthCheck.v
SyncCache.v
FuseTree.v
Deletion.v
Watchlist.v
Playback.v
Cleanup.v
TorrServer.v
Requests.v
Bencode.v
BencodeTyped.v
PeerProtocol.v
MetaInfo.v
EngineSettings.v
IPList.v
AllocLimiter.v
