(* ===== verification/Prelude.v ===== *)
(** * GoStream: a verification library

    GoStream shows torrents as files: a FUSE file system whose files are
    streamed, on demand, from a BitTorrent engine inside the same process, and a
    syncer that fills the library. This library models the parts of the program
    that keep state or take decisions, in Gallina, and proves what makes each of
    them correct. File names below are those of the repository.

    ** The parts and where they are

    - Serving bytes. The read-ahead cache of the FUSE reads (main.go,
      [ReadAheadCache]) is in RaCache.v; the metadata cache (lrucache.go) in
      LruCache.v; the warm-up cache on disk (disk_warmup.go) in DiskWarmup.v.
      Streams of the engine and the random access over them (stream.go,
      native_bridge.go) are in NativeReader.v, the background pump that fills
      the caches through it (main.go, [nativePump]) in Pump.v, and the read of a
      file handle over all of them (main.go, [MkvHandle.Read]) in ReadPath.v.
      Which handles share a pump, and the slots that limit pumps, are in
      PumpLife.v.
      Under them is the storage of the torrent engine
      (internal/gostorm/torr/storage/torrstor): piece buffers (mempiece.go,
      piece.go) in MemPiece.v, the adaptive shield against corrupt pieces
      (piece.go) in Shield.v, ranges of pieces (ranges.go) in Ranges.v, and the
      cache with its readers, priorities and eviction (cache.go, reader.go) in
      PieceCache.v, which uses MemPiece.v, Ranges.v and Float64.v.
    - Identity and order. The inode map with its two persistence formats
      (inodemap.go, internal/metadb/inodes.go) is in InodeMap.v; the per-file
      locks, the rate limiter and the table of open handles (locks.go,
      ratelimit.go, internal/opentracker) are the modules of Guards.v. The nodes
      of the file system, which look up and list over the inode map and the
      metadata cache (main.go, metadata.go, dircache.go), are in FuseTree.v;
      deleting a file, with its torrent, the blacklist and the episode registry
      (main.go, autoremove.go, registry.go, internal/metadb/episodes.go), is in
      Deletion.v. The playback registry and the webhook of the media server
      (main.go, [handlePlexWebhook]) are in Playback.v, the periodic clean-up of
      caches, inodes and registry (cleanup.go, peerpreload.go) in Cleanup.v, and
      scan detection, the jobs of the on-demand sync and the error numbers
      (scandetector.go, demand_handler.go, errors.go) in Requests.v.
    - The torrent server. The life of torrents between the client, the table and
      the database (internal/gostorm/torr: torrent.go, btserver.go, apihelper.go,
      dbwrapper.go) is in TorrServer.v.
    - The torrent library (internal/anacrolix-torrent-v1.55), as far as it is
      modelled. The encoding of torrent files and messages (package bencode) is in
      Bencode.v, untyped values and the shared decoder, and BencodeTyped.v,
      decoding and encoding by the type of a Go value. The messages between peers
      and their handshake (peer_protocol) are in PeerProtocol.v. Torrent files,
      their pieces, segments and requests (metainfo, segments, misc.go) are in
      MetaInfo.v, over BencodeTyped.v. The lists of blocked addresses of the client
      and of the web server (iplist, internal/gostorm/web/blocker,
      torr/utils/blockedIP.go) are in IPList.v, the limiter of the memory for
      requests (internal/alloclim) in AllocLimiter.v.
    - Tokens. The textual torrent tokens (internal/gostorm/torrshash) are in
      Torrshash.v.
    - Settings. The layered key-value store of the engine
      (internal/gostorm/settings: JSON files, router, read cache, torrent list)
      is in Settings.v, layer over layer through the class [KVStore]; the settings
      kept in it, the migrations between the stores and the start (btsets.go,
      migrate.go, settings.go) are in EngineSettings.v.
    - The syncer. The scheduler (internal/syncer/scheduler) is in Scheduler.v.
      The ranking of releases (internal/syncer/quality/streaming_policy.go) is
      in Streaming.v, the quality profiles and their merge with the
      configuration (the rest of internal/syncer/quality,
      internal/config/quality.go) in Quality.v, and the movie engine that uses
      both (internal/syncer/engines/movie_go.go, gostorm.go) in MovieSync.v. The
      TV engine (internal/syncer/engines/tv_go.go) is in TVTitles.v, what titles
      say and names are made of, and TVSync.v, discovery, packs, registry and
      clean-up; the watchlist engine (watchlist_go.go) is in Watchlist.v. The table of alternative releases and the checker of their
      health (internal/metadb/alternatives.go, internal/syncer/health) are in
      HealthCheck.v, the sync caches (synccache.go, internal/metadb/caches.go)
      in SyncCache.v.
    - Shared ground. Prelude.v (this file) has the machine integers, sums over
      maps and lists, sorting, iteration over maps, comparisons and strings;
      Float64.v has IEEE 754 doubles with the rounding lemmas the syncer needs;
      Regex.v models Go's package regexp.

    ** How the code is modelled

    Each component's state is a record with the fields of the struct, each
    operation a function on it, with the code's guards and early returns; an
    index out of range or a nil dereference is [None]. Integers are [Z], with
    [wrap_s] and [wrap_u] where they can overflow, floats are [spec_float],
    strings are byte strings. Where identity matters (list elements, recycled
    buffers, reader objects, lock entries, inodes, databases behind routes)
    objects live in a store and are named by number, so that aliasing shows.

    Time is an argument. Components whose operations hold one lock run one
    operation at a time; where the code releases its locks in between (RaCache,
    MemPiece, Shield, Guards, Scheduler, NativeReader, ReadPath, PumpLife,
    AllocLimiter, and the waiting of TorrServer) the operations are cut at the lock
    boundaries and the theorems are about all interleavings, as reachability in a
    step relation.

    Code outside the repository is an argument: xxhash, zlib ([Torrshash.Zlib]),
    the JSON encoder ([Settings.Json], [EngineSettings.SetsJson]), bbolt
    ([Settings.KVStore]), SHA-1 ([MetaInfo.Sha1]), the torrent engine's reader, and for the sync engines the services and the clock
    ([MovieSync.World], [TVSync.TVWorld], [Watchlist.WatchWorld]). [SliceSort] and [MapRange] stand for [sort.Slice] and
    for the order of iteration over a map: the theorems hold for every sort that
    meets the contract and every order. The file system does not fail unless a
    component says so.

    ** What the theorems show

    - Refinement: the metadata cache is a map that may forget
      ([lru_refines_forgetful_map]); the settings stack is one map
      ([settings_stack_is_a_map]); a piece buffer returns what was written
      ([ReadAt_returns_written]); the table of open handles counts them.
    - Served bytes: whatever the interleaving, the read-ahead cache serves bytes
      of the file it was asked for ([Get_serves_file_bytes]), and so does the
      warm-up cache when chunks are written without gaps. The native reader
      returns bytes of the file, interrupted or not ([native_ReadAt_true]), the
      pump keeps the caches truthful and comes to its end
      ([pump_keeps_caches_true], [pump_reaches_end]), and together a read of a
      handle returns bytes of the file or an error ([Read_serves_file_bytes]).
    - Accounting and ownership invariants of every cache; mutual exclusion of
      the per-file locks; the rate limit per window; slots and sharing of pumps
      ([pumps_within_slots]); which goroutines the scheduler's books are right
      about.
    - Evictions remove exactly what they should, oldest first; merging and
      searching ranges agree with membership; priorities are on record.
    - Round trips: torrent tokens, the inode map through JSON and through
      SQLite, torrents through the store, torrent files ([Load_Write]).
    - Bencode: the decoder accepts exactly what the encoder writes
      ([Unmarshal_iff_Marshal]), Go values survive by their type
      ([Marshal_Unmarshal]), and decoding always returns ([Decode_returns]).
    - Peers: a stream of messages is decoded message by message
      ([stream_roundtrip]) and its framing is not lost ([Decode_keeps_framing]);
      both sides of a handshake agree ([Handshake_agrees]).
    - Torrent data: valid metadata cut the data into pieces without gaps
      ([valid_info_pieces_tile]), hashing makes valid metadata
      ([generated_pieces_valid]), the segment index covers what is asked for
      ([Locate_covers]), a request holds its offset
      ([offset_request_holds_offset]).
    - Block lists: the search finds exactly what the list covers
      ([blocklist_exact]), halving and scanning agree
      ([halving_search_is_scan]), the packed form gives the same answers
      ([packed_list_same_answers]), a prefix covers its addresses
      ([cidr_range_exact]), the web server decides as its lists say
      ([Blocker_decides]). The memory granted to requests keeps within its limit
      and no wake-up is lost ([allocations_within_limit]).
    - Engine settings: what was saved last is in use after any restarts, within
      its limits ([saved_settings_survive_restarts]); the engine simulates an
      abstract state of two places ([sim]).
    - The scheduler's next run is the least one, and jobs start at their slot.
    - Ranking keeps what the policy allows, best first, whatever the order of
      the answers; the active profile takes every configured setting; a film's
      processing touches only its own file, is not repeated within a day, and
      its polling ends. A pack of a show touches only its own episodes
      ([pack_touches_only_its_episodes]), episodes are only replaced by better
      ones ([episodes_only_improve]), and after a run the library, the registry
      and the torrents agree ([run_leaves_library_registered],
      [orphans_removed_exactly]). The watchlist only adds films that are missing
      ([watchlist_only_adds]). The health checker keeps within its bounds
      ([cycle_within_bounds]), and the sync caches survive a restart
      ([caches_survive_restart]).
    - The file system: what a lookup finds is well typed ([nodes_well_typed]), a
      listing is the directory ([Readdir_lists_directory]), and the inode of a
      file stays, through clean-ups as well ([inode_survives_cleanup]). Deleting a file cleans up behind it
      ([unlink_cleans_up]), what was deleted is not taken again by the engines
      ([deleted_not_taken_again]), and the registry is checked alike with and
      without a database ([registry_check_exact]).
    - Playback: a message of the media server acts on the one file that fits
      best ([webhook_acts_on_one_file]), and a torrent that nobody plays loses
      its priority ([quiet_torrent_loses_priority]).
    - The torrent server: table and client agree and nothing panics
      ([table_and_client_agree]), and a torrent that expires comes back as it was
      ([expired_torrent_comes_back]).
    - Some theorems state where the code falls short of its intent, with the
      state in which it shows: a copy without a lock ([ReadAt_unlocked_copy...]),
      an error page cached as file data ([pump_caches_error_page]), a sequential
      read detected by its length ([isSeq_ignores_position]), slots and counts
      of pumps that are lost ([pump_books_drift]), two score scales
      ([library_never_good_enough]), damaged settings files, the torrent of an
      installed pack removed ([installed_pack_loses_torrent]), shows passed over
      for one complete season ([complete_season_skips_show]) or taken for one
      another ([show_name_matching]), a health checker that never finds anything
      to check ([checker_never_acts]), packs forgotten at a restart
      ([packs_forgotten_without_db]), deleted files that are still found
      ([deleted_file_found]), the wrong episode stopped
      ([stop_hits_other_episode]), priorities that are never taken back
      ([day_long_playback_keeps_priority]), inodes pruned without a mount
      ([lost_mount_prunes]), and torrents that lose their entry or panic when they
      are added and removed at the same time ([stale_waiting_takes_entry],
      [late_register_panics]); settings that come back after a move
      ([switched_storage_reverts]) or are moved in read-only mode
      ([read_only_start_moves]), old torrents lost for one bad record
      ([incomplete_record_loses_all]), a block list that refuses everyone
      ([zero_range_refuses_all]) or misses for want of order
      ([unsorted_list_misses]), IPv6 clients on every list
      ([bracketed_client_on_every_list]), a queue that stands still
      ([oversized_blocks_queue]), lists that do not decode
      ([slice_of_interfaces_fails]), digits left over ([stale_digits_join]), and
      a message that asks for 4 GiB ([short_extended_allocates]).

    ** Bounds and fuel

    Loops that are not structural have fuel that is shown to be enough: decoding
    takes at most one step per byte, a regular expression's repetition one step
    per character, base 62 one digit per factor, polling one second per attempt
    ([GetTorrentInfo_terminates]), runs of spaces one turn per character, bencode
    two calls per byte without types and four with them ([Unmarshal_iff_Marshal],
    [Decode_returns]), a binary search one turn per element, choosing a piece
    length 64 doublings. The endless loop of the pump is a run over the list of
    what its turns meet. Other loops recurse on the data.

    ** Not modelled

    The client of the torrent library with its connections, trackers, storage
    backends and web seeds; the HTTP interfaces, clients of external services and
    the collection of system figures, which are input and output; the text of SQL
    statements and of JSON; the bbolt store (db.go), a layer over a third-party
    database. Open, in this order: preloading and connecting with new settings
    (torr/preload.go, apihelper.go); the clients of the catalogue and the indexers;
    the request strategy and the peer connections of the torrent library. *)

From Stdlib Require Export ZArith Sorting.Sorted.
From stdpp Require Export prelude gmap strings list fin_maps sorting pretty.
#[global] Open Scope Z_scope.

(** ** Notations of the development *)

Declare Scope gostream_scope.
Delimit Scope gostream_scope with go.

Abbreviation KiB := 1024 (only parsing).
Abbreviation MiB := 1048576 (only parsing).
Notation "a '/t' b" := (Z.quot a b) (at level 40, left associativity) : gostream_scope.
#[global] Open Scope gostream_scope.

Create HintDb gostream.
Create Rewrite HintDb gostream.

(** ** Machine integers *)

(** [wrap_u n z] and [wrap_s n z] are Go's conversions of an integer to an
    unsigned and to a signed type of [n] bits: the value modulo [2 ^ n], read
    as two's complement in the signed case. *)
Definition wrap_u (n z : Z) : Z := z mod 2 ^ n.
Definition wrap_s (n z : Z) : Z := (z + 2 ^ (n - 1)) mod 2 ^ n - 2 ^ (n - 1).
#[global] Arguments wrap_u : simpl never.
#[global] Arguments wrap_s : simpl never.

Abbreviation uint64 := (wrap_u 64).
Abbreviation int64 := (wrap_s 64).
Abbreviation int32 := (wrap_s 32).

Definition fits_s (n z : Z) : Prop := - 2 ^ (n - 1) ≤ z < 2 ^ (n - 1).
Definition fits_u (n z : Z) : Prop := 0 ≤ z < 2 ^ n.

Lemma wrap_s_id n z : 0 < n → fits_s n z → wrap_s n z = z.
Proof.
  intros Hn [Hlo Hhi]. unfold wrap_s.
  assert (2 ^ n = 2 * 2 ^ (n - 1)) as Hp.
  { rewrite <- Z.pow_succ_r by lia. f_equal. lia. }
  rewrite Z.mod_small; lia.
Qed.

Lemma wrap_u_id n z : fits_u n z → wrap_u n z = z.
Proof. intros [? ?]. unfold wrap_u. by rewrite Z.mod_small. Qed.

Lemma wrap_u_fits n z : 0 ≤ n → fits_u n (wrap_u n z).
Proof. intros. unfold fits_u, wrap_u. apply Z.mod_pos_bound. lia. Qed.

(** A 64-bit value survives the trip through the signed type, as the inode
    numbers do when SQLite stores them. *)
Lemma wrap_u_wrap_s n z : 0 < n → fits_u n z → wrap_u n (wrap_s n z) = z.
Proof.
  intros Hn [? ?]. unfold wrap_u, wrap_s.
  rewrite Zminus_mod_idemp_l.
  replace (z + 2 ^ (n - 1) - 2 ^ (n - 1)) with z by lia.
  by apply Z.mod_small.
Qed.

#[export] Hint Resolve wrap_u_fits : gostream.

(** ** Tactics *)

(** [case_if] splits on the first boolean or decidable test in the goal and
    keeps the equation. *)
Ltac case_if :=
  match goal with
  | |- context [if ?b then _ else _] =>
      lazymatch b with
      | context [if _ then _ else _] => fail
      | _ => let H := fresh "Hif" in destruct b eqn:H
      end
  end.

Ltac case_if_in H :=
  match type of H with
  | context [if ?b then _ else _] =>
      lazymatch b with
      | context [if _ then _ else _] => fail
      | _ => let E := fresh "Hif" in destruct b eqn:E
      end
  end.

(** [split_match] splits on the scrutinees of the goal, innermost first. *)
Ltac split_match :=
  match goal with
  | |- context [match ?x with _ => _ end] =>
      lazymatch x with
      | context [match _ with _ => _ end] => fail
      | _ => let H := fresh "Hm" in destruct x eqn:H
      end
  end.

(** [zbool] turns boolean comparisons on [Z] in the context into propositions. *)
Ltac zbool :=
  repeat match goal with
  | H : andb _ _ = true |- _ => apply andb_true_iff in H as [? ?]
  | H : orb _ _ = false |- _ => apply orb_false_iff in H as [? ?]
  | H : negb _ = true |- _ => apply negb_true_iff in H
  | H : negb _ = false |- _ => apply negb_false_iff in H
  | H : (_ <? _) = true |- _ => apply Z.ltb_lt in H
  | H : (_ <? _) = false |- _ => apply Z.ltb_ge in H
  | H : (_ <=? _) = true |- _ => apply Z.leb_le in H
  | H : (_ <=? _) = false |- _ => apply Z.leb_gt in H
  | H : (_ =? _) = true |- _ => apply Z.eqb_eq in H
  | H : (_ =? _) = false |- _ => apply Z.eqb_neq in H
  | H : bool_decide _ = true |- _ => apply bool_decide_eq_true in H
  | H : bool_decide _ = false |- _ => apply bool_decide_eq_false in H
  end.

(** ** Sums *)

Definition Zsum (l : list Z) : Z := foldr Z.add 0 l.

Lemma Zsum_nil : Zsum [] = 0.
Proof. done. Qed.

Lemma Zsum_cons x l : Zsum (x :: l) = x + Zsum l.
Proof. done. Qed.

Lemma Zsum_app l1 l2 : Zsum (l1 ++ l2) = Zsum l1 + Zsum l2.
Proof. induction l1; simpl; [done|]. rewrite IHl1. lia. Qed.


#[export] Hint Rewrite Zsum_nil Zsum_cons Zsum_app : gostream.

#[export] Instance Zsum_perm : Proper ((≡ₚ) ==> eq) Zsum.
Proof.
  intros l1 l2 Hp. induction Hp; simpl; lia.
Qed.

Lemma Zsum_nonneg l : Forall (λ x, 0 ≤ x) l → 0 ≤ Zsum l.
Proof. induction 1; simpl; lia. Qed.

(** The sum of [f] over the values of a map. *)
Definition map_sum {K A} `{Countable K} (f : A → Z) (m : gmap K A) : Z :=
  Zsum ((λ kv, f kv.2) <$> map_to_list m).

Section map_sum.
Context {K A : Type} `{Countable K}.
Implicit Types (f : A → Z) (m : gmap K A).

Lemma map_sum_empty f : map_sum f (∅ : gmap K A) = 0.
Proof. unfold map_sum. by rewrite map_to_list_empty. Qed.

Lemma map_sum_insert_new f m k x :
  m !! k = None → map_sum f (<[k:=x]> m) = f x + map_sum f m.
Proof. intros. unfold map_sum. by rewrite map_to_list_insert. Qed.

Lemma map_sum_delete f m k x :
  m !! k = Some x → map_sum f (delete k m) = map_sum f m - f x.
Proof.
  intros Hk. rewrite <- (insert_delete_id m k x Hk) at 2.
  rewrite map_sum_insert_new by apply lookup_delete_eq. lia.
Qed.

Lemma map_sum_insert_old f m k x y :
  m !! k = Some y → map_sum f (<[k:=x]> m) = map_sum f m - f y + f x.
Proof.
  intros Hk. rewrite <- insert_delete_eq.
  rewrite map_sum_insert_new by apply lookup_delete_eq.
  rewrite (map_sum_delete _ _ _ y) by done. lia.
Qed.

Lemma map_sum_ext f g m : (∀ k x, m !! k = Some x → f x = g x) → map_sum f m = map_sum g m.
Proof.
  intros Hfg. unfold map_sum. f_equal. apply list_fmap_ext. intros i [k x] Hi.
  apply (Hfg k). apply elem_of_map_to_list. by eapply list_elem_of_lookup_2.
Qed.

Lemma map_sum_split f (P : K * A → Prop) `{∀ x, Decision (P x)} m :
  map_sum f m = map_sum f (filter P m) + map_sum f (filter (λ x, ¬ P x) m).
Proof.
  induction m as [|k x m Hk IH] using map_ind; [by rewrite !map_filter_empty|].
  assert (∀ Q `{∀ x, Decision (Q x)}, filter Q m !! k = None) as Hn.
  { intros Q HQ. apply map_lookup_filter_None. by left. }
  rewrite map_sum_insert_new by done. destruct (decide (P (k, x))) as [HP|HP].
  - rewrite map_filter_insert_True by done. rewrite map_filter_insert_False by auto.
    rewrite delete_id, map_sum_insert_new by auto. lia.
  - rewrite map_filter_insert_False by done. rewrite map_filter_insert_True by done.
    rewrite delete_id, map_sum_insert_new by auto. lia.
Qed.

Lemma map_sum_nonneg f m : (∀ k x, m !! k = Some x → 0 ≤ f x) → 0 ≤ map_sum f m.
Proof.
  intros Hf. apply Zsum_nonneg, Forall_forall. intros z.
  rewrite list_elem_of_fmap. intros ([k x] & -> & Hin).
  apply elem_of_map_to_list in Hin. eauto.
Qed.
End map_sum.

Lemma Zsum_fmap_insert {A} (f : A → Z) (l : list A) i x y :
  l !! i = Some x → Zsum (f <$> <[i := y]> l) = Zsum (f <$> l) - f x + f y.
Proof.
  revert i. induction l as [|z l IH]; intros [|i] Hi; simplify_eq/=; [lia|].
  rewrite (IH i Hi). lia.
Qed.

Lemma Zsum_fmap_zero {A} (f : A → Z) (l : list A) :
  (∀ x, x ∈ l → f x = 0) → Zsum (f <$> l) = 0.
Proof. induction l as [|x l IH]; intros Hf; [done|].
  rewrite fmap_cons, Zsum_cons, (Hf x), IH; set_solver.
Qed.

Lemma map_sum_zero {K A} `{Countable K} (f : A → Z) (m : gmap K A) :
  (∀ k x, m !! k = Some x → f x = 0) → map_sum f m = 0.
Proof.
  intros Hf. apply Zsum_fmap_zero. intros [k x] Hin. apply elem_of_map_to_list in Hin. eauto.
Qed.

(** A map whose keys carry the index of the part they belong to. *)
Lemma map_sum_parts {K A} `{Countable K} (f : A → Z) (L : gmap (nat * K) A) (ms : list (gmap K A)) :
  (∀ i k, is_Some (L !! (i, k)) → (i < length ms)%nat) →
  (∀ i m, ms !! i = Some m → ∀ k, m !! k = L !! (i, k)) →
  map_sum f L = Zsum (map_sum f <$> ms).
Proof.
  revert ms. induction L as [|[i k] x L Hx IH] using map_ind; intros ms Hdom Hms.
  - rewrite map_sum_empty. symmetry. apply Zsum_fmap_zero. intros m [i Hi]%list_elem_of_lookup.
    assert (m = ∅) as ->; [|apply map_sum_empty]. apply map_eq. intros k.
    by rewrite (Hms i m Hi), !lookup_empty.
  - destruct (lookup_lt_is_Some_2 ms i) as [m Hm].
    { apply (Hdom i k). rewrite lookup_insert_eq. by eexists. }
    pose proof (Hms i m Hm k) as Hk. rewrite lookup_insert_eq in Hk.
    rewrite map_sum_insert_new by done. rewrite (IH (<[i := delete k m]> ms)).
    + rewrite (Zsum_fmap_insert _ _ _ m), (map_sum_delete _ _ _ x) by done. lia.
    + intros j k' Hj. rewrite length_insert. apply (Hdom j k').
      rewrite lookup_insert_is_Some'. by right.
    + intros j m' Hj k'. apply list_lookup_insert_Some in Hj as [(-> & <- & _)|[Hne Hj]].
      * rewrite lookup_delete. case_decide as Hkk; [by subst|].
        rewrite (Hms j m Hm), lookup_insert_ne; congruence.
      * rewrite (Hms j m' Hj), lookup_insert_ne; congruence.
Qed.

(** ** Lists *)

(** What holds at the start of a loop and is kept by its body holds at the end. *)
Lemma foldl_inv {A B} (P : A → Prop) (f : A → B → A) (l : list B) (a : A) :
  P a → (∀ a x, P a → x ∈ l → P (f a x)) → P (foldl f a l).
Proof.
  revert a. induction l as [|x l IH]; intros a Ha Hf; simpl; [done|].
  apply IH; [apply Hf; [done|by left]|]. intros a' y Ha' Hy. apply Hf; [done|by right].
Qed.

(** What some iteration establishes and all keep holds at the end. *)
Lemma foldl_reach {A B} (P : A → Prop) (f : A → B → A) (l : list B) (a : A) (x : B) :
  x ∈ l → (∀ a, P (f a x)) → (∀ a y, P a → y ∈ l → P (f a y)) → P (foldl f a l).
Proof.
  revert a. induction l as [|y l IH]; intros a Hx Hf Hk; [by apply not_elem_of_nil in Hx|]. simpl.
  apply elem_of_cons in Hx as [->|Hx].
  - apply foldl_inv; [done|]. intros a' z ? ?. apply Hk; [done|by right].
  - apply IH; [done|done|]. intros a' z ? ?. apply Hk; [done|by right].
Qed.

(** Copying a map into another one, entry by entry. *)
Lemma foldl_insert_map {K A} `{Countable K} (acc m : gmap K A) (l : list (K * A)) :
  l ≡ₚ map_to_list m → foldl (λ acc kv, <[kv.1 := kv.2]> acc) acc l = m ∪ acc.
Proof.
  intros Hl. assert (NoDup l.*1) as Hnd by (rewrite Hl; apply NoDup_fst_map_to_list).
  replace m with (list_to_map l : gmap K A); cycle 1.
  { rewrite <- (list_to_map_to_list m). by apply list_to_map_proper. }
  clear Hl m. revert acc. induction l as [|[k v] l IH]; intros acc; simpl; [by rewrite map_empty_union|].
  apply NoDup_cons in Hnd as [Hk Hnd]. rewrite IH by done. apply not_elem_of_list_to_map_1 in Hk.
  rewrite <- insert_union_r by done. by rewrite insert_union_l.
Qed.

Lemma filter_all_id {A} (P : A → Prop) `{∀ x, Decision (P x)} (l : list A) :
  Forall P l → filter P l = l.
Proof.
  induction 1; [done|]. rewrite filter_cons_True by done. by f_equal.
Qed.

Lemma filter_ext_in {A} (P Q : A → Prop) `{∀ x, Decision (P x)} `{∀ x, Decision (Q x)}
    (l : list A) :
  (∀ x, x ∈ l → P x ↔ Q x) → filter P l = filter Q l.
Proof.
  induction l as [|x l IH]; intros Hext; [done|].
  rewrite !filter_cons, IH by set_solver.
  assert (P x ↔ Q x) as Hx by set_solver.
  destruct (decide (P x)), (decide (Q x)); tauto.
Qed.

Lemma filter_neq_perm {A} `{EqDecision A} (x : A) (l : list A) :
  NoDup l → x ∈ l → l ≡ₚ x :: filter (λ y, y ≠ x) l.
Proof.
  intros Hnd Hin. induction Hnd as [|y l Hy Hnd IH]; [by apply not_elem_of_nil in Hin|].
  destruct (decide (y = x)) as [->|Hne].
  - rewrite filter_cons_False by tauto.
    rewrite filter_all_id; [done|]. apply Forall_forall. set_solver.
  - rewrite filter_cons_True by done. apply elem_of_cons in Hin as [->|Hin]; [done|].
    rewrite (IH Hin) at 1. apply perm_swap.
Qed.

Lemma last_app_cons {A} (l : list A) (x : A) : last (l ++ [x]) = Some x.
Proof. apply last_snoc. Qed.

Lemma last_Some_split {A} (l : list A) (x : A) :
  last l = Some x → l = removelast l ++ [x].
Proof.
  intros Hl. assert (l ≠ []) as Hne by (intros ->; done).
  rewrite (app_removelast_last x Hne) at 1. do 2 f_equal.
  destruct (exists_last Hne) as (l' & y & ->).
  rewrite last_snoc in Hl. simplify_eq. by rewrite List.last_last.
Qed.

(** ** Sorting *)

(** A comparison [less] in the sense of Go's package sort: a strict weak order. *)
Class StrictWeakOrder {A} (less : A → A → bool) : Prop := {
  swo_irrefl x : less x x = false;
  swo_trans x y z : less x y = true → less y z = true → less x z = true;
  swo_incomp x y z : less x y = false → less y z = false → less x z = false;
}.

Lemma swo_asym {A} (less : A → A → bool) `{!StrictWeakOrder less} x y :
  less x y = true → less y x = false.
Proof.
  intros Hxy. destruct (less y x) eqn:Hyx; [|done].
  pose proof (swo_trans _ _ _ Hxy Hyx). by rewrite swo_irrefl in *.
Qed.

Definition sorted_by {A} (less : A → A → bool) : list A → Prop :=
  StronglySorted (λ x y, less y x = false).

(** [sort.Slice] guarantees a permutation of the slice that is ordered by
    [less]; it is not stable, so the model is parametric in the sort and the
    theorems hold for every one that meets this contract. *)
Class SliceSort := {
  sort_slice : ∀ {A : Type}, (A → A → bool) → list A → list A;
  sort_slice_perm : ∀ {A : Type} (less : A → A → bool) (l : list A), sort_slice less l ≡ₚ l;
  sort_slice_sorted : ∀ {A : Type} (less : A → A → bool) (l : list A),
    StrictWeakOrder less → sorted_by less (sort_slice less l);
}.

(** Go iterates over a map in no particular order, a new one each time: a loop
    over a map runs over its entries as ordered by [range_order], which may
    depend on the moment. *)
Class MapRange := {
  range_order : ∀ {A : Type}, Z → list A → list A;
  range_order_perm : ∀ {A : Type} (moment : Z) (l : list A), range_order moment l ≡ₚ l;
}.

#[export] Instance MapRange_id : MapRange := {|
  range_order := λ A _ l, l;
  range_order_perm := λ A _ l, Permutation_refl l;
|}.

(** [sort.SliceStable] has a unique result for a strict weak order: the one of
    insertion sort. *)
Fixpoint insert_sorted {A} (less : A → A → bool) (x : A) (l : list A) : list A :=
  match l with
  | [] => [x]
  | y :: l' => if less y x then y :: insert_sorted less x l' else x :: l
  end.

Definition sort_stable {A} (less : A → A → bool) (l : list A) : list A :=
  foldr (insert_sorted less) [] l.

Section sort_stable.
Context {A : Type} (less : A → A → bool).

Lemma insert_sorted_perm x l : insert_sorted less x l ≡ₚ x :: l.
Proof.
  induction l as [|y l IH]; simpl; [done|]. case_if; [|done].
  rewrite IH. apply perm_swap.
Qed.

Lemma sort_stable_perm l : sort_stable less l ≡ₚ l.
Proof. induction l; simpl; [done|]. by rewrite insert_sorted_perm, IHl. Qed.

Lemma insert_sorted_sorted `{!StrictWeakOrder less} x l :
  sorted_by less l → sorted_by less (insert_sorted less x l).
Proof.
  induction 1 as [|y l Hs IH Hall]; simpl; [repeat constructor|]. case_if.
  - constructor; [done|]. rewrite insert_sorted_perm.
    constructor; [by apply swo_asym|done].
  - constructor; [by constructor|]. constructor; [done|].
    eapply Forall_impl; [exact Hall|]. intros z Hz. exact (swo_incomp _ _ _ Hz Hif).
Qed.

Lemma sort_stable_sorted `{!StrictWeakOrder less} l : sorted_by less (sort_stable less l).
Proof. induction l; simpl; [constructor|]. by apply insert_sorted_sorted. Qed.
End sort_stable.

Lemma insert_sorted_ext {A} (less less' : A → A → bool) x l :
  (∀ y, y ∈ l → less y x = less' y x) → insert_sorted less x l = insert_sorted less' x l.
Proof.
  induction l as [|y l IH]; intros H; simpl; [done|]. rewrite (H y) by by left.
  rewrite IH; [done|]. intros z Hz. apply H. by right.
Qed.

(** The result of a sort depends only on how the elements of the list compare. *)
Lemma sort_stable_ext {A} (less less' : A → A → bool) l :
  (∀ x y, x ∈ l → y ∈ l → less x y = less' x y) → sort_stable less l = sort_stable less' l.
Proof.
  induction l as [|x l IH]; intros H; [done|]. unfold sort_stable in *. simpl.
  rewrite IH by (intros; apply H; by right). apply insert_sorted_ext. intros y Hy. apply H; [|by left].
  right. by rewrite (sort_stable_perm less' l) in Hy.
Qed.

(** ** Three-way comparisons *)

(** A total preorder, given by its comparison function. *)
Class TotalCmp {A} (cmp : A → A → comparison) : Prop := {
  cmp_opp x y : cmp y x = CompOpp (cmp x y);
  cmp_trans x y z : cmp x y = Lt → cmp y z = Lt → cmp x z = Lt;
  cmp_eq x y z : cmp x y = Eq → cmp x z = cmp y z;
}.

Definition cmp_lt {A} (cmp : A → A → comparison) (x y : A) : bool := match cmp x y with Lt => true | _ => false end.

(** First one comparison, then the other. *)
Definition cmp_lex {A} (c1 c2 : A → A → comparison) (x y : A) : comparison :=
  match c1 x y with Eq => c2 x y | o => o end.

Definition cmp_on {A B} (f : A → B) (cmp : B → B → comparison) (x y : A) : comparison := cmp (f x) (f y).
Definition cmp_flip {A} (cmp : A → A → comparison) (x y : A) : comparison := cmp y x.

#[global] Typeclasses Opaque cmp_lt cmp_lex cmp_on cmp_flip.

#[export] Instance cmp_lt_swo {A} (cmp : A → A → comparison) `{!TotalCmp cmp} : StrictWeakOrder (cmp_lt cmp).
Proof.
  assert (∀ x, cmp x x = Eq) as Hr. { intros x. pose proof (cmp_opp x x). by destruct (cmp x x). }
  unfold cmp_lt. split.
  - intros x. by rewrite Hr.
  - intros x y z. destruct (cmp x y) eqn:H1, (cmp y z) eqn:H2; try done. by rewrite (cmp_trans x y z).
  - intros x y z. destruct (cmp x y) eqn:H1; [rewrite (cmp_eq x y z H1); done|done|].
    destruct (cmp y z) eqn:H2; [|done|].
    + intros _ _. pose proof (cmp_opp y z) as H. rewrite H2 in H. pose proof (cmp_eq z y x H) as H'.
      rewrite (cmp_opp z x), H', <- (cmp_opp y x), H1. done.
    + intros _ _. pose proof (cmp_opp x y) as Hx. pose proof (cmp_opp y z) as Hz. rewrite H1 in Hx. rewrite H2 in Hz.
      simpl in *. rewrite (cmp_opp z x), (cmp_trans z y x); done.
Qed.

#[export] Instance Zcmp_total : TotalCmp Z.compare.
Proof.
  split.
  - intros x y. apply Z.compare_antisym.
  - intros x y z. rewrite !Z.compare_lt_iff. lia.
  - intros x y z ->%Z.compare_eq_iff. done.
Qed.

#[export] Instance cmp_on_total {A B} (f : A → B) cmp `{!TotalCmp cmp} : TotalCmp (cmp_on f cmp).
Proof. split; unfold cmp_on; intros; [apply cmp_opp|by eapply cmp_trans|by apply cmp_eq]. Qed.

#[export] Instance cmp_flip_total {A} (cmp : A → A → comparison) `{!TotalCmp cmp} : TotalCmp (cmp_flip cmp).
Proof.
  split; unfold cmp_flip; intros x y; [apply cmp_opp|intros z Hx Hy; by apply (cmp_trans z y x)|].
  intros z H. rewrite (cmp_opp x z), (cmp_opp y z). f_equal. apply cmp_eq.
  pose proof (cmp_opp y x) as H'. by rewrite H in H'.
Qed.

#[export] Instance cmp_lex_total {A} (c1 c2 : A → A → comparison) `{!TotalCmp c1, !TotalCmp c2} : TotalCmp (cmp_lex c1 c2).
Proof.
  assert (∀ x y z, c1 x y = Lt → c1 y z = Eq → c1 x z = Lt) as Hle.
  { intros x y z Hx Hy. rewrite (cmp_opp z x), <- (cmp_eq y z x Hy), <- (cmp_opp y x). done. }
  split; unfold cmp_lex.
  - intros x y. rewrite (cmp_opp (cmp := c1) x y). destruct (c1 x y); [apply cmp_opp|done..].
  - intros x y z. destruct (c1 x y) eqn:H1; intros Hx; try done.
    + rewrite (cmp_eq x y z H1). destruct (c1 y z) eqn:H2; intros Hy; try done. by eapply cmp_trans.
    + destruct (c1 y z) eqn:H2; intros Hy; try done; [by rewrite (Hle x y z)|by rewrite (cmp_trans x y z)].
  - intros x y z. destruct (c1 x y) eqn:H1; try done. intros H2.
    rewrite (cmp_eq x y z H1), (cmp_eq x y z H2). done.
Qed.

#[export] Instance String_cmp_total : TotalCmp String.compare.
Proof.
  split.
  - intros x y. apply String.compare_antisym.
  - induction x as [|a x IH]; intros [|b y] [|c z]; simpl; try done. unfold Ascii.compare.
    destruct (N.compare_spec (Ascii.N_of_ascii a) (Ascii.N_of_ascii b)) as [Hab|Hab|Hab],
             (N.compare_spec (Ascii.N_of_ascii b) (Ascii.N_of_ascii c)) as [Hbc|Hbc|Hbc]; try done; intros H1 H2;
      destruct (N.compare_spec (Ascii.N_of_ascii a) (Ascii.N_of_ascii c)) as [Hac|Hac|Hac]; try done; try lia.
    by eapply IH.
  - intros x y z ->%String.compare_eq_iff. done.
Qed.

#[export] Instance SliceSort_stable : SliceSort := {|
  sort_slice := @sort_stable;
  sort_slice_perm := @sort_stable_perm;
  sort_slice_sorted := λ A less l H, @sort_stable_sorted A less H l;
|}.

(** ** Strings *)

(** The decimal form of an integer has no colon, so a key of the form
    ["path:n"] determines both parts. *)
Fixpoint has_char (c : Ascii.ascii) (s : string) : bool :=
  match s with
  | EmptyString => false
  | String c' s' => bool_decide (c = c') || has_char c s'
  end.

Abbreviation colon := (Ascii.Ascii false true false true true true false false).

Lemma has_char_app c s1 s2 : has_char c (s1 +:+ s2) = has_char c s1 || has_char c s2.
Proof. induction s1; simpl; [done|]. by rewrite IHs1, orb_assoc. Qed.

Lemma pretty_N_go_no_colon x s :
  has_char colon s = false → has_char colon (pretty_N_go x s) = false.
Proof.
  revert s. induction (N.lt_wf_0 x) as [x _ IH]; intros s Hs.
  destruct (decide (x = 0)%N) as [->|Hne]; [done|].
  rewrite pretty_N_go_step by lia. apply IH; [by apply N.div_lt; lia|].
  simpl. rewrite Hs, orb_false_r. apply bool_decide_eq_false.
  unfold pretty_N_char. by repeat case_match.
Qed.

Lemma pretty_N_no_colon (x : N) : has_char colon (pretty x) = false.
Proof.
  unfold pretty, pretty_N. case_decide; [done|]. by apply pretty_N_go_no_colon.
Qed.

Lemma pretty_Z_no_colon (z : Z) : has_char colon (pretty z) = false.
Proof.
  destruct z as [|p|p]; [done|apply pretty_N_no_colon|].
  unfold pretty, pretty_Z. rewrite has_char_app. simpl. apply pretty_N_no_colon.
Qed.

Lemma colon_split_inj s1 s2 t1 t2 :
  has_char colon t1 = false → has_char colon t2 = false →
  s1 +:+ ":" +:+ t1 = s2 +:+ ":" +:+ t2 → s1 = s2 ∧ t1 = t2.
Proof.
  intros H1 H2. revert s2. induction s1 as [|c s1 IH]; intros [|c2 s2] Heq; simplify_eq/=.
  - done.
  - change ("" +:+ t1) with t1 in *. subst t1. rewrite has_char_app in H1.
    simpl in H1. by rewrite orb_true_r in H1.
  - change ("" +:+ t2) with t2 in *. subst t2. rewrite has_char_app in H2.
    simpl in H2. by rewrite orb_true_r in H2.
  - by destruct (IH s2) as [-> ->].
Qed.

Lemma colon_key_inj s1 s2 (z1 z2 : Z) :
  s1 +:+ ":" +:+ pretty z1 = s2 +:+ ":" +:+ pretty z2 → s1 = s2 ∧ z1 = z2.
Proof.
  intros Heq. apply colon_split_inj in Heq as [-> Hz]; [|apply pretty_Z_no_colon..].
  split; [done|]. by apply (inj pretty).
Qed.

Definition ord (c : Ascii.ascii) : Z := Z.of_nat (Ascii.nat_of_ascii c).

(** [strings.ToLower] on ASCII text. *)
Definition lower_char (c : Ascii.ascii) : Ascii.ascii :=
  if (65 <=? ord c) && (ord c <=? 90) then Ascii.ascii_of_nat (Z.to_nat (ord c + 32)) else c.

Fixpoint ToLower (s : string) : string :=
  match s with
  | EmptyString => EmptyString
  | String c s' => String (lower_char c) (ToLower s')
  end.

(** [strings.TrimSpace] on ASCII text. *)
Definition is_space (c : Ascii.ascii) : bool := (ord c =? 32) || ((9 <=? ord c) && (ord c <=? 13)).

Fixpoint trim_left (s : string) : string :=
  match s with
  | String c s' => if is_space c then trim_left s' else s
  | EmptyString => EmptyString
  end.

Fixpoint trim_right (s : string) : string :=
  match s with
  | EmptyString => EmptyString
  | String c s' => match trim_right s' with
                   | EmptyString => if is_space c then EmptyString else String c EmptyString
                   | t => String c t
                   end
  end.

Definition TrimSpace (s : string) : string := trim_right (trim_left s).

(** What follows a prefix, if the string has it ([strings.HasPrefix] with
    [strings.TrimPrefix]). *)
Fixpoint strip_prefix (p s : string) : option string :=
  match p, s with
  | EmptyString, _ => Some s
  | String c p', String c' s' => if bool_decide (c = c') then strip_prefix p' s' else None
  | String _ _, EmptyString => None
  end.

Lemma string_cons_app c (a b : string) : String c a +:+ b = String c (a +:+ b).
Proof. done. Qed.

Lemma string_nil_app (b : string) : "" +:+ b = b.
Proof. done. Qed.

Lemma string_assoc (a b c : string) : a +:+ (b +:+ c) = (a +:+ b) +:+ c.
Proof. induction a as [|x a IH]; [done|]. by rewrite !string_cons_app, IH. Qed.

Lemma string_nil_r (a : string) : a +:+ "" = a.
Proof. induction a as [|x a IH]; [done|]. by rewrite string_cons_app, IH. Qed.

Lemma length_app_string (a b : string) : String.length (a +:+ b) = (String.length a + String.length b)%nat.
Proof. induction a as [|c a IH]; [done|]. rewrite string_cons_app. simpl. by rewrite IH. Qed.

Lemma string_app_inj (a b c : string) : a +:+ b = a +:+ c → b = c.
Proof. induction a as [|x a IH]; [done|]. intros E. apply IH. by injection E. Qed.

Lemma prefix_app s1 s2 : String.prefix s1 (s1 +:+ s2) = true.
Proof.
  induction s1 as [|c s1 IH]; simpl; [by destruct s2|].
  destruct (Ascii.ascii_dec c c); [done|congruence].
Qed.

(** [strings.Contains]. *)
Fixpoint Contains (s sub : string) : bool :=
  String.prefix sub s || match s with String _ s' => Contains s' sub | EmptyString => false end.

(** [strings.Split] at a character. *)
Fixpoint split_on (c : Ascii.ascii) (s : string) : list string :=
  match s with
  | EmptyString => [EmptyString]
  | String a s' =>
      if bool_decide (a = c) then EmptyString :: split_on c s'
      else match split_on c s' with x :: l => String a x :: l | [] => [String a EmptyString] end
  end.

(** ** Go slices of bytes *)

Abbreviation byte := Byte.byte.

(** The slice expression [bs[lo:hi]] panics when out of range: [None]. *)
Definition slice (lo hi : Z) (bs : list byte) : option (list byte) :=
  if (0 <=? lo) && (lo <=? hi) && (hi <=? Z.of_nat (length bs))
  then Some (take (Z.to_nat (hi - lo)) (drop (Z.to_nat lo) bs)) else None.

(** [copy(dst, src)] at an offset of [dst]: the number of bytes copied and the
    new contents. *)
Definition copy_at (at_ : nat) (src dst : list byte) : nat * list byte :=
  let n := (length src `min` (length dst - at_))%nat in
  (n, take at_ dst ++ take n src ++ drop (at_ + n) dst).

Lemma copy_at_length at_ src dst : (at_ ≤ length dst)%nat → length (copy_at at_ src dst).2 = length dst.
Proof. intros. unfold copy_at. simpl. rewrite !length_app, !length_take, length_drop. lia. Qed.

Lemma copy_at_lookup at_ src dst j :
  (at_ ≤ length dst)%nat →
  (copy_at at_ src dst).2 !! j =
  if decide (at_ ≤ j < at_ + (copy_at at_ src dst).1)%nat then src !! (j - at_)%nat else dst !! j.
Proof.
  intros Hat. unfold copy_at. simpl. set (n := (length src `min` (length dst - at_))%nat).
  assert (length (take at_ dst) = at_) as Hl by (rewrite length_take; lia).
  assert (length (take n src) = n) as Hn by (rewrite length_take; lia).
  destruct (decide (j < at_)%nat).
  - rewrite lookup_app_l by lia. rewrite lookup_take_lt by lia. by rewrite decide_False by lia.
  - rewrite lookup_app_r by lia. rewrite Hl. destruct (decide (j < at_ + n)%nat).
    + rewrite lookup_app_l by lia. rewrite lookup_take_lt by lia. by rewrite decide_True by lia.
    + rewrite lookup_app_r by lia. rewrite Hn, lookup_drop, decide_False by lia. f_equal. lia.
Qed.

Lemma slice_Some lo hi bs r :
  slice lo hi bs = Some r →
  0 ≤ lo ≤ hi ∧ hi ≤ Z.of_nat (length bs) ∧ Z.of_nat (length r) = hi - lo ∧
  ∀ j, (j < length r)%nat → r !! j = bs !! (Z.to_nat lo + j)%nat.
Proof.
  unfold slice. case_if; [|done]. zbool. intros [= <-].
  rewrite length_take, length_drop. split_and!; try lia.
  intros j Hj. rewrite lookup_take_lt by lia. by rewrite lookup_drop.
Qed.

Lemma slice_total lo hi bs :
  0 ≤ lo → lo ≤ hi → hi ≤ Z.of_nat (length bs) → is_Some (slice lo hi bs).
Proof.
  intros. unfold slice.
  assert ((0 <=? lo) && (lo <=? hi) && (hi <=? Z.of_nat (length bs)) = true) as -> by lia. by eexists.
Qed.

(** ** sort.Search *)

(** The loop of [sort.Search] on [lo, hi): each turn at least halves the
    interval, so [hi - lo] is enough fuel. *)
Fixpoint search_loop (fuel : nat) (f : nat → bool) (lo hi : nat) : nat :=
  match fuel with
  | O => lo
  | S fuel' =>
      if (lo <? hi)%nat then
        let h := ((lo + hi) / 2)%nat in
        if f h then search_loop fuel' f lo h else search_loop fuel' f (S h) hi
      else lo
  end.

Definition sort_search (n : nat) (f : nat → bool) : nat := search_loop n f 0 n.

Lemma search_loop_spec fuel f lo hi n :
  (lo ≤ hi ≤ n)%nat → (hi - lo ≤ fuel)%nat →
  (∀ i, (i < lo)%nat → f i = false) → ((hi < n)%nat → f hi = true) →
  (∀ i j, (i ≤ j < n)%nat → f i = true → f j = true) →
  let r := search_loop fuel f lo hi in
  (lo ≤ r ≤ hi)%nat ∧ (∀ i, (i < r)%nat → f i = false) ∧ ((r < n)%nat → f r = true).
Proof.
  revert lo hi. induction fuel as [|fuel IH]; intros lo hi Hle Hf Hlo Hhi Hmono; cbn [search_loop].
  { assert (lo = hi) as -> by lia. split_and!; auto. }
  destruct (Nat.ltb_spec lo hi) as [Hlt|Hge]; cycle 1.
  { assert (lo = hi) as -> by lia. split_and!; auto. }
  set (h := ((lo + hi) / 2)%nat).
  assert (lo ≤ h < hi)%nat as Hh.
  { unfold h. pose proof (Nat.div_mod_eq (lo + hi) 2).
    pose proof (Nat.mod_upper_bound (lo + hi) 2). lia. }
  destruct (f h) eqn:Efh.
  - destruct (IH lo h ltac:(lia) ltac:(lia) Hlo (λ _, Efh) Hmono) as (? & ? & ?).
    split; [lia|done].
  - destruct (IH (S h) hi ltac:(lia) ltac:(lia)) as (? & ? & ?); [|done|done|split; [lia|done]].
    intros i Hi. destruct (f i) eqn:Efi; [|done].
    rewrite (Hmono i h) in Efh; [done|lia|done].
Qed.

(** [sort.Search] finds the least index that satisfies a monotone predicate. *)
Lemma sort_search_spec n f :
  (∀ i j, (i ≤ j < n)%nat → f i = true → f j = true) →
  let r := sort_search n f in
  (r ≤ n)%nat ∧ (∀ i, (i < r)%nat → f i = false) ∧ ((r < n)%nat → f r = true).
Proof.
  intros Hmono. destruct (search_loop_spec n f 0 n n) as (? & ? & ?);
    [lia|lia|lia|lia|done|]. unfold sort_search. split; [lia|done].
Qed.
