(* ===== verification/LruCache.v ===== *)
(** * The metadata cache (lrucache.go)

    [LRUCache] splits the metadata of the virtual files over 32 shards, each a
    [simpleLRUCache]: a Go map from keys to elements of a [container/list], and
    that list in order of use. The elements are shared between the map and the
    list, so the model keeps them in a store addressed by element identity: the
    map and the list hold identities, and an entry that is updated through the
    map is seen through the list.

    The clock is an argument: [now] is the instant at which an operation runs
    (an operation holds the shard's mutex throughout). Durations and instants
    are nanoseconds; byte counts are the code's int64 counters. *)

From S2P Require Import Prelude.

Section lru.
Context {V : Type}.

(** ** Data *)

Definition elem_id := nat.

Record cacheEntry := CacheEntry {
  e_key : string;
  e_value : V;
  e_size : Z;
  e_expiresAt : Z;
  e_lastPromoted : Z;
}.

Record simpleLRUCache := SimpleLRU {
  capacity : Z;
  currentSize : Z;
  ttl : Z;
  items : gmap string elem_id;
  order : list elem_id;             (* front of the list first *)
  heap : gmap elem_id cacheEntry;   (* the elements' values *)
  next_id : elem_id;
}.

Record CacheStats := MkCacheStats {
  Size : Z;
  Capacity : Z;
  Entries : Z;
}.

Definition default_capacity : Z := 500 * MiB.
Definition default_ttl : Z := 24 * 3600 * 1000000000.

Definition newSimpleLRUCache (cap dur : Z) : simpleLRUCache :=
  SimpleLRU (if cap =? 0 then default_capacity else cap) 0
            (if dur =? 0 then default_ttl else dur) ∅ [] ∅ 0%nat.

(** ** Field updates *)

Definition set_order (o : list elem_id) (c : simpleLRUCache) : simpleLRUCache :=
  SimpleLRU (capacity c) (currentSize c) (ttl c) (items c) o (heap c) (next_id c).
Definition set_items (m : gmap string elem_id) (c : simpleLRUCache) : simpleLRUCache :=
  SimpleLRU (capacity c) (currentSize c) (ttl c) m (order c) (heap c) (next_id c).
Definition set_heap (h : gmap elem_id cacheEntry) (c : simpleLRUCache) : simpleLRUCache :=
  SimpleLRU (capacity c) (currentSize c) (ttl c) (items c) (order c) h (next_id c).
Definition set_size (s : Z) (c : simpleLRUCache) : simpleLRUCache :=
  SimpleLRU (capacity c) s (ttl c) (items c) (order c) (heap c) (next_id c).

(** ** container/list *)

(** [list.MoveToFront] and [list.Remove] do nothing for an element that is not
    in the list. *)
Definition list_remove (e : elem_id) (o : list elem_id) : list elem_id :=
  filter (λ x, x ≠ e) o.

Definition move_to_front (e : elem_id) (o : list elem_id) : list elem_id :=
  if decide (e ∈ o) then e :: list_remove e o else o.

(** ** Operations of a shard *)

Definition removeElement (e : elem_id) (c : simpleLRUCache) : simpleLRUCache :=
  match heap c !! e with
  | None => c
  | Some entry =>
      set_size (currentSize c - e_size entry)
        (set_order (list_remove e (order c))
           (set_items (delete (e_key entry) (items c)) c))
  end.

Definition Get (key : string) (now : Z) (c : simpleLRUCache) : option V * simpleLRUCache :=
  match items c !! key with
  | None => (None, c)
  | Some e =>
      match heap c !! e with
      | None => (None, c)
      | Some entry =>
          if e_expiresAt entry <? now then (None, removeElement e c)
          else
            (Some (e_value entry),
             set_heap (<[e := CacheEntry (e_key entry) (e_value entry) (e_size entry)
                                (e_expiresAt entry) now]> (heap c))
               (set_order (move_to_front e (order c)) c))
      end
  end.

(** The eviction loop of [Put]; every turn takes the back element out, so the
    length of the list is enough fuel ([evict_loop_done]). *)
Fixpoint evict_loop (fuel : nat) (size : Z) (c : simpleLRUCache) : simpleLRUCache :=
  match fuel with
  | O => c
  | S fuel' =>
      if (capacity c <? currentSize c + size) && negb (bool_decide (order c = []))
      then evict_loop fuel' size
             (match last (order c) with
              | Some oldest => removeElement oldest c
              | None => c
              end)
      else c
  end.

Definition push_front (entry : cacheEntry) (c : simpleLRUCache) : simpleLRUCache :=
  SimpleLRU (capacity c) (currentSize c + e_size entry) (ttl c)
            (<[e_key entry := next_id c]> (items c))
            (next_id c :: order c) (<[next_id c := entry]> (heap c)) (S (next_id c)).

Definition Put (key : string) (value : V) (size : Z) (now : Z) (c : simpleLRUCache)
    : simpleLRUCache :=
  match items c !! key with
  | Some e =>
      match heap c !! e with
      | None => c
      | Some entry =>
          set_order (move_to_front e (order c))
            (set_heap (<[e := CacheEntry (e_key entry) value size (now + ttl c) now]> (heap c))
               (set_size (currentSize c - e_size entry + size) c))
      end
  | None =>
      push_front (CacheEntry key value size (now + ttl c) now)
        (evict_loop (length (order c)) size c)
  end.

Definition expired (now : Z) (c : simpleLRUCache) (e : elem_id) : bool :=
  match heap c !! e with
  | Some entry => e_expiresAt entry <? now
  | None => false
  end.

Definition CleanupExpired (now : Z) (c : simpleLRUCache) : Z * simpleLRUCache :=
  let toRemove := filter (λ e, expired now c e = true) (order c) in
  (Z.of_nat (length toRemove), foldl (λ c e, removeElement e c) c toRemove).

Definition Len (c : simpleLRUCache) : Z := Z.of_nat (length (order c)).

Definition Stats (c : simpleLRUCache) : CacheStats :=
  MkCacheStats (currentSize c) (capacity c) (Len c).

Definition Delete (key : string) (c : simpleLRUCache) : simpleLRUCache :=
  match items c !! key with
  | Some e => removeElement e c
  | None => c
  end.

Definition Clear (c : simpleLRUCache) : simpleLRUCache :=
  SimpleLRU (capacity c) 0 (ttl c) ∅ [] (heap c) (next_id c).

(** ** The shard invariant *)

Definition size_of (h : gmap elem_id cacheEntry) (e : elem_id) : Z :=
  match h !! e with Some entry => e_size entry | None => 0 end.

Definition total_size (h : gmap elem_id cacheEntry) (o : list elem_id) : Z :=
  Zsum (size_of h <$> o).

(** The map and the list describe the same elements, every key once, and
    [currentSize] is the sum of the sizes of the entries in the list. *)
Record wf (c : simpleLRUCache) : Prop := {
  wf_nodup : NoDup (order c);
  wf_heap e : e ∈ order c → is_Some (heap c !! e);
  wf_items k e : items c !! k = Some e ↔
    e ∈ order c ∧ ∃ entry, heap c !! e = Some entry ∧ e_key entry = k;
  wf_next e : is_Some (heap c !! e) → (e < next_id c)%nat;
  wf_size : currentSize c = total_size (heap c) (order c);
}.

(** The entry the shard serves for a key. *)
Definition entry_at (c : simpleLRUCache) (k : string) : option cacheEntry :=
  e ← items c !! k; heap c !! e.

Lemma elem_of_list_remove x e o : x ∈ list_remove e o ↔ x ∈ o ∧ x ≠ e.
Proof. unfold list_remove. rewrite list_elem_of_filter. tauto. Qed.

Lemma list_remove_nodup e o : NoDup o → NoDup (list_remove e o).
Proof. apply NoDup_filter. Qed.

Lemma total_size_remove h e o :
  NoDup o → e ∈ o → total_size h o = size_of h e + total_size h (list_remove e o).
Proof.
  intros Hnd Hin. unfold total_size. rewrite (filter_neq_perm e o) at 1 by done. done.
Qed.

Lemma move_to_front_perm e o : NoDup o → move_to_front e o ≡ₚ o.
Proof.
  intros Hnd. unfold move_to_front. case_decide; [|done].
  symmetry. by apply filter_neq_perm.
Qed.

Lemma total_size_cons h e o : total_size h (e :: o) = size_of h e + total_size h o.
Proof. done. Qed.

Lemma total_size_ext h h' o :
  (∀ e, e ∈ o → h !! e = h' !! e) → total_size h o = total_size h' o.
Proof.
  intros Heq. unfold total_size. f_equal. apply list_fmap_ext.
  intros i e Hi. unfold size_of. rewrite (Heq e); [done|]. by eapply list_elem_of_lookup_2.
Qed.

Lemma wf_elem c e :
  wf c → e ∈ order c → ∃ entry, heap c !! e = Some entry ∧ items c !! e_key entry = Some e.
Proof.
  intros Hwf Hin. destruct (wf_heap _ Hwf e Hin) as [entry Hh].
  exists entry. split; [done|]. apply (wf_items _ Hwf). eauto.
Qed.

Lemma wf_item c k e :
  wf c → items c !! k = Some e →
  e ∈ order c ∧ ∃ entry, heap c !! e = Some entry ∧ e_key entry = k.
Proof. intros Hwf. by rewrite (wf_items _ Hwf). Qed.

Lemma entry_at_items c k entry :
  wf c → entry_at c k = Some entry →
  ∃ e, items c !! k = Some e ∧ heap c !! e = Some entry ∧ e ∈ order c ∧ e_key entry = k.
Proof.
  intros Hwf. unfold entry_at. destruct (items c !! k) as [e|] eqn:Hi; simpl; [|done].
  intros Hh. destruct (wf_item _ _ _ Hwf Hi) as [Hin (en & Hh' & Hk)]. simplify_eq. eauto 6.
Qed.

Lemma new_wf cap dur : wf (newSimpleLRUCache cap dur).
Proof.
  constructor; simpl; [constructor|set_solver| |by intros e [? ?]|done].
  intros k e. rewrite lookup_empty. split; [done|]. by intros [?%not_elem_of_nil _].
Qed.

(** *** Removing an element *)

Lemma removeElement_eq c e entry :
  heap c !! e = Some entry →
  removeElement e c =
    SimpleLRU (capacity c) (currentSize c - e_size entry) (ttl c)
      (delete (e_key entry) (items c)) (list_remove e (order c)) (heap c) (next_id c).
Proof. intros Hh. unfold removeElement. by rewrite Hh. Qed.

Lemma removeElement_wf c e : wf c → e ∈ order c → wf (removeElement e c).
Proof.
  intros Hwf Hin. destruct (wf_elem c e Hwf Hin) as (entry & Hh & Hi).
  rewrite (removeElement_eq _ _ _ Hh). constructor; simpl.
  - by apply list_remove_nodup, Hwf.
  - intros e'. rewrite elem_of_list_remove. intros [? _]. by apply (wf_heap _ Hwf).
  - intros k e'. rewrite lookup_delete_Some, (wf_items _ Hwf), elem_of_list_remove.
    split.
    + intros (Hne & Hin' & en & Hh' & Hk). split; [|eauto].
      split; [done|]. intros ->. simplify_eq.
    + intros ((Hin' & Hne) & en & Hh' & Hk). split; [|eauto].
      intros Heq. assert (items c !! k = Some e') by (apply (wf_items _ Hwf); eauto).
      congruence.
  - apply (wf_next _ Hwf).
  - rewrite (wf_size _ Hwf), (total_size_remove _ e) by (done || apply Hwf).
    unfold size_of. rewrite Hh. lia.
Qed.

Lemma removeElement_entry_at c e k entry :
  wf c → e ∈ order c → heap c !! e = Some entry →
  entry_at (removeElement e c) k = if decide (k = e_key entry) then None else entry_at c k.
Proof.
  intros Hwf Hin Hh. rewrite (removeElement_eq _ _ _ Hh). unfold entry_at. simpl.
  rewrite lookup_delete. case_decide; case_decide; simplify_eq; try done.
Qed.

Lemma removeElement_order c e :
  wf c → e ∈ order c → order (removeElement e c) = list_remove e (order c).
Proof.
  intros Hwf Hin. destruct (wf_heap _ Hwf e Hin) as [entry Hh].
  by rewrite (removeElement_eq _ _ _ Hh).
Qed.

Lemma removeElement_frame c e :
  heap (removeElement e c) = heap c ∧ capacity (removeElement e c) = capacity c ∧
  ttl (removeElement e c) = ttl c ∧ next_id (removeElement e c) = next_id c.
Proof. unfold removeElement. by destruct (heap c !! e). Qed.

(** *** Rewriting an entry and moving it to the front *)

Lemma touch_wf c e entry entry' cs :
  wf c → e ∈ order c → heap c !! e = Some entry → e_key entry' = e_key entry →
  cs = currentSize c - e_size entry + e_size entry' →
  wf (SimpleLRU (capacity c) cs (ttl c) (items c) (move_to_front e (order c))
        (<[e := entry']> (heap c)) (next_id c)).
Proof.
  intros Hwf Hin Hh Hk ->.
  pose proof (move_to_front_perm e (order c) (wf_nodup _ Hwf)) as Hperm.
  constructor; simpl.
  - rewrite Hperm. apply Hwf.
  - intros e'. rewrite Hperm. intros Hin'. rewrite lookup_insert.
    case_decide; [by eexists|]. by apply (wf_heap _ Hwf).
  - intros k e'. rewrite (wf_items _ Hwf), Hperm, lookup_insert.
    apply and_iff_compat_l. case_decide; [|done]. subst. rewrite Hh.
    split; intros (en & [= <-] & <-); eauto.
  - intros e'. rewrite lookup_insert. case_decide as He; [|apply (wf_next _ Hwf)].
    subst. intros _. apply (wf_next _ Hwf). by eexists.
  - unfold total_size. rewrite Hperm. fold (total_size (<[e:=entry']> (heap c)) (order c)).
    rewrite (wf_size _ Hwf).
    rewrite !(total_size_remove _ e (order c)) by (done || apply Hwf).
    rewrite (total_size_ext (<[e:=entry']> (heap c)) (heap c)).
    + unfold size_of. rewrite Hh, lookup_insert_eq. lia.
    + intros e'. rewrite elem_of_list_remove. intros [_ Hne]. by rewrite lookup_insert_ne.
Qed.

Lemma touch_entry_at c e entry entry' k o cs :
  wf c → items c !! e_key entry = Some e → heap c !! e = Some entry →
  entry_at (SimpleLRU (capacity c) cs (ttl c) (items c) o
              (<[e := entry']> (heap c)) (next_id c)) k =
  if decide (k = e_key entry) then Some entry' else entry_at c k.
Proof.
  intros Hwf Hi Hh. unfold entry_at. simpl. case_decide as Hk.
  - subst. rewrite Hi. simpl. by rewrite lookup_insert_eq.
  - destruct (items c !! k) as [e'|] eqn:Hk'; simpl; [|done].
    destruct (wf_item _ _ _ Hwf Hk') as [_ (en & Hen & Heq)].
    rewrite lookup_insert_ne; [done|]. intros ->. simplify_eq.
Qed.
(** *** Eviction *)

Lemma list_remove_last e o : NoDup (o ++ [e]) → list_remove e (o ++ [e]) = o.
Proof.
  intros Hnd. unfold list_remove. rewrite filter_app, filter_cons_False, filter_nil by tauto.
  rewrite app_nil_r. apply filter_all_id. apply Forall_forall. intros x Hx ->.
  apply NoDup_app in Hnd as (_ & Hd & _). apply (Hd e Hx). set_solver.
Qed.

(** What the loop leaves: a prefix of the list of use (the most recent
    elements), cut at the first point where the new entry fits, or nothing. *)
Record evicted (size : Z) (c c' : simpleLRUCache) (gone : list elem_id) : Prop := {
  ev_wf : wf c';
  ev_order : order c = order c' ++ gone;
  ev_heap : heap c' = heap c;
  ev_next : next_id c' = next_id c;
  ev_ttl : ttl c' = ttl c;
  ev_cap : capacity c' = capacity c;
  ev_entry k : entry_at c' k = None ∨ entry_at c' k = entry_at c k;
  ev_items k : items c !! k = None → items c' !! k = None;
  ev_fits : order c' = [] ∨ currentSize c' + size ≤ capacity c;
  ev_needed : ∀ e rest, gone = e :: rest →
    capacity c < total_size (heap c) (order c' ++ [e]) + size;
}.

Lemma evict_loop_done fuel size c :
  wf c → (length (order c) ≤ fuel)%nat →
  ∃ gone, evicted size c (evict_loop fuel size c) gone.
Proof.
  revert c. induction fuel as [|fuel IH]; intros c Hwf Hlen; simpl.
  { exists []. assert (order c = []) by (apply nil_length_inv; lia).
    split; rewrite ?app_nil_r; eauto; by intros. }
  case_if; zbool; cycle 1.
  { exists []. split; rewrite ?app_nil_r; auto; [|by intros].
    apply andb_false_iff in Hif as [Hif|Hif]; zbool; [right; lia|by left]. }
  destruct (last (order c)) as [e|] eqn:Hlast; [|by apply last_None in Hlast].
  apply last_Some_split in Hlast as Hsplit. set (o := removelast (order c)) in *.
  assert (e ∈ order c) as Hin by (rewrite Hsplit; set_solver).
  pose proof (removeElement_wf c e Hwf Hin) as Hwf1.
  assert (order (removeElement e c) = o) as Ho.
  { rewrite removeElement_order, Hsplit by done. apply list_remove_last.
    rewrite <- Hsplit. apply Hwf. }
  destruct (removeElement_frame c e) as (Hh & Hc & Ht & Hn).
  destruct (IH (removeElement e c) Hwf1) as [gone Hev].
  { rewrite Ho. rewrite Hsplit, length_app in Hlen. simpl in Hlen. lia. }
  destruct (wf_heap _ Hwf e Hin) as [en Hen].
  exists (gone ++ [e]). destruct Hev as [? Hord ? ? ? ? Hent Hit Hfit Hneed]. split; try congruence.
  - rewrite Hsplit, <- Ho, Hord. by rewrite app_assoc.
  - intros k. destruct (Hent k) as [-> | ->]; [by left|].
    rewrite (removeElement_entry_at _ _ _ en) by done. case_decide; auto.
  - intros k Hk. apply Hit. rewrite (removeElement_eq _ _ _ Hen). simpl.
    apply lookup_delete_None. by right.
  - intros e' rest Hg. destruct gone as [|g gone']; simpl in Hg; simplify_eq.
    + rewrite app_nil_r in Hord. rewrite <- Hord, Ho, <- Hsplit, <- (wf_size _ Hwf). done.
    + rewrite Hc in Hneed. rewrite <- Hh. by eapply Hneed.
Qed.

Lemma push_front_wf entry c :
  wf c → items c !! e_key entry = None → wf (push_front entry c).
Proof.
  intros Hwf Hnew.
  assert (heap c !! next_id c = None) as Hfresh.
  { apply eq_None_not_Some. intros ?%(wf_next _ Hwf). lia. }
  assert (next_id c ∉ order c) as Hno.
  { intros [en Hen]%(wf_heap _ Hwf). congruence. }
  constructor; simpl.
  - constructor; [done|apply Hwf].
  - intros e. rewrite elem_of_cons, lookup_insert. case_decide; [by eexists|].
    intros [?|?]; [done|]. by apply (wf_heap _ Hwf).
  - intros k e. rewrite elem_of_cons, !lookup_insert.
    destruct (decide (next_id c = e)) as [<-|Hne]; case_decide as Hk.
    + subst. naive_solver.
    + rewrite (wf_items _ Hwf). naive_solver.
    + subst. split; [congruence|]. intros [[?|?] (en & Hen & Heq)]; [congruence|].
      assert (items c !! e_key entry = Some e) by (apply (wf_items _ Hwf); eauto).
      congruence.
    + rewrite (wf_items _ Hwf). naive_solver.
  - intros e. rewrite lookup_insert. case_decide; [lia|]. intros ?%(wf_next _ Hwf). lia.
  - rewrite total_size_cons, (wf_size _ Hwf). unfold size_of. rewrite lookup_insert_eq.
    rewrite (total_size_ext (<[next_id c := entry]> (heap c)) (heap c)); [lia|].
    intros e He. rewrite lookup_insert_ne; [done|]. congruence.
Qed.

Lemma push_front_entry_at entry c k :
  wf c → items c !! e_key entry = None →
  entry_at (push_front entry c) k = if decide (k = e_key entry) then Some entry else entry_at c k.
Proof.
  intros Hwf Hnew. unfold entry_at. simpl. rewrite lookup_insert.
  case_decide; case_decide; simplify_eq; simpl; [by rewrite lookup_insert_eq|].
  destruct (items c !! k) as [e|] eqn:Hk; simpl; [|done].
  destruct (wf_item _ _ _ Hwf Hk) as [Hin _].
  pose proof (wf_next _ Hwf e (wf_heap _ Hwf e Hin)).
  rewrite lookup_insert_ne by lia. done.
Qed.

(** *** Every operation keeps the invariant and its effect on the entries *)

Lemma Get_spec k now c :
  wf c →
  wf (Get k now c).2 ∧
  ttl (Get k now c).2 = ttl c ∧ capacity (Get k now c).2 = capacity c ∧
  match entry_at c k with
  | Some en => if e_expiresAt en <? now
               then (Get k now c).1 = None ∧
                    ∀ k', entry_at (Get k now c).2 k' = if decide (k' = k) then None else entry_at c k'
               else (Get k now c).1 = Some (e_value en) ∧
                    ∀ k', entry_at (Get k now c).2 k' =
                      if decide (k' = k)
                      then Some (CacheEntry (e_key en) (e_value en) (e_size en) (e_expiresAt en) now)
                      else entry_at c k'
  | None => Get k now c = (None, c)
  end.
Proof.
  intros Hwf. unfold Get. destruct (entry_at c k) as [en|] eqn:Hent.
  - destruct (entry_at_items _ _ _ Hwf Hent) as (e & Hi & Hh & Hin & <-).
    rewrite Hi, Hh. destruct (removeElement_frame c e) as (? & ? & ? & ?). case_if; simpl.
    + split_and!; [by apply removeElement_wf|done..|].
      intros k'. by apply removeElement_entry_at.
    + split; [apply (touch_wf c e en); simpl; auto with lia|]. split_and!; [done..|]. intros k'.
      by apply (touch_entry_at c e en).
  - unfold entry_at in Hent. destruct (items c !! k) as [e|] eqn:Hi; simpl in *; [|done].
    by rewrite Hent.
Qed.

Lemma Put_spec k v size now c :
  wf c →
  wf (Put k v size now c) ∧
  ttl (Put k v size now c) = ttl c ∧ capacity (Put k v size now c) = capacity c ∧
  entry_at (Put k v size now c) k = Some (CacheEntry k v size (now + ttl c) now) ∧
  ∀ k', k' ≠ k → entry_at (Put k v size now c) k' = None ∨
                 entry_at (Put k v size now c) k' = entry_at c k'.
Proof.
  intros Hwf. unfold Put. destruct (items c !! k) as [e|] eqn:Hi.
  - destruct (wf_item _ _ _ Hwf Hi) as [Hin (en & Hh & <-)]. rewrite Hh.
    split; [apply (touch_wf c e en); simpl; auto|]. split; [done|]. split; [done|].
    assert (∀ k', entry_at (set_order (move_to_front e (order c))
        (set_heap (<[e:=CacheEntry (e_key en) v size (now + ttl c) now]> (heap c))
          (set_size (currentSize c - e_size en + size) c))) k' =
        if decide (k' = e_key en) then Some (CacheEntry (e_key en) v size (now + ttl c) now)
        else entry_at c k') as Hent by (intros; by apply (touch_entry_at c e en)).
    split; [|intros k' Hk'; right]; rewrite Hent; by case_decide.
  - destruct (evict_loop_done (length (order c)) size c Hwf) as [gone []]; [done|].
    set (c1 := evict_loop _ _ _) in *. simpl.
    set (en := CacheEntry k v size (now + ttl c) now).
    assert (items c1 !! e_key en = None) as Hn by (by apply ev_items0).
    split; [by apply push_front_wf|]. split; [done|]. split; [done|].
    rewrite push_front_entry_at by done. split; [by case_decide|].
    intros k' Hk'. rewrite push_front_entry_at by done. case_decide; [done|]. apply ev_entry0.
Qed.

Lemma Delete_spec k c :
  wf c → wf (Delete k c) ∧ ttl (Delete k c) = ttl c ∧ capacity (Delete k c) = capacity c ∧
  ∀ k', entry_at (Delete k c) k' = if decide (k' = k) then None else entry_at c k'.
Proof.
  intros Hwf. unfold Delete. destruct (items c !! k) as [e|] eqn:Hi.
  - destruct (wf_item _ _ _ Hwf Hi) as [Hin (en & Hh & <-)].
    destruct (removeElement_frame c e) as (_ & ? & ? & _).
    split_and!; [by apply removeElement_wf|done|done|].
    intros. by apply removeElement_entry_at.
  - split_and!; [done..|]. intros k'. case_decide; [|done].
    subst. unfold entry_at. by rewrite Hi.
Qed.

Lemma Clear_spec c :
  wf c → wf (Clear c) ∧ ttl (Clear c) = ttl c ∧ capacity (Clear c) = capacity c ∧
  ∀ k, entry_at (Clear c) k = None.
Proof.
  intros Hwf. split_and!; try done. split; simpl; try done.
  - constructor.
  - by intros e ?%not_elem_of_nil.
  - intros k e. rewrite lookup_empty. split; [done|]. by intros [?%not_elem_of_nil _].
  - apply Hwf.
Qed.

(** *** CleanupExpired *)

Lemma remove_all_spec l c :
  wf c → NoDup l → (∀ e, e ∈ l → e ∈ order c) →
  let c' := foldl (λ c e, removeElement e c) c l in
  wf c' ∧ heap c' = heap c ∧ ttl c' = ttl c ∧ capacity c' = capacity c ∧
  order c' = filter (λ e, e ∉ l) (order c) ∧
  ∀ k, entry_at c' k = None ∨ entry_at c' k = entry_at c k.
Proof.
  revert c. induction l as [|e l IH]; intros c Hwf Hnd Hsub; simpl.
  { split_and!; try done; [|auto]. symmetry. apply filter_all_id, Forall_forall. set_solver. }
  apply NoDup_cons in Hnd as [Hel Hnd].
  assert (e ∈ order c) as Hin by (apply Hsub; set_solver).
  destruct (wf_heap _ Hwf e Hin) as [en Hen].
  destruct (removeElement_frame c e) as (Hh & Hc & Ht & Hn).
  destruct (IH (removeElement e c)) as (? & ? & ? & ? & Ho & Hent).
  { by apply removeElement_wf. } { done. }
  { intros e' He'. rewrite removeElement_order, elem_of_list_remove by done. set_solver. }
  split_and!; try congruence.
  - rewrite Ho, removeElement_order by done. unfold list_remove.
    rewrite list_filter_filter. apply list_filter_iff. set_solver.
  - intros k. destruct (Hent k) as [-> | ->]; [by left|].
    rewrite (removeElement_entry_at _ _ _ en) by done. case_decide; auto.
Qed.

Lemma CleanupExpired_spec now c :
  wf c →
  let c' := (CleanupExpired now c).2 in
  wf c' ∧ ttl c' = ttl c ∧ capacity c' = capacity c ∧
  order c' = filter (λ e, expired now c e = false) (order c) ∧
  ∀ k, entry_at c' k = None ∨ entry_at c' k = entry_at c k.
Proof.
  intros Hwf. unfold CleanupExpired. simpl.
  destruct (remove_all_spec (filter (λ e, expired now c e = true) (order c)) c Hwf)
    as (? & ? & ? & ? & Ho & ?).
  { apply NoDup_filter, Hwf. } { intros e [_ ?]%list_elem_of_filter. done. }
  split_and!; try done. rewrite Ho. clear.
  apply filter_ext_in. intros e He.
  rewrite list_elem_of_filter. destruct (expired now c e); naive_solver.
Qed.

(** ** The sharded cache *)

(** [xxhash.Sum64String] is a third-party hash: the model takes it as an
    argument and needs nothing of it, because the mask keeps the index in range. *)
Context (sum64 : string → Z).

Record LRUCache := MkLRU {
  shards : list simpleLRUCache;
  shardMask : Z;
}.

Definition numShards : Z := 32.

Definition NewLRUCache (cap dur : Z) : LRUCache :=
  let shardCap := cap /t numShards in
  let shardCap := if shardCap =? 0 then MiB else shardCap in
  MkLRU (replicate (Z.to_nat numShards) (newSimpleLRUCache shardCap dur)) (numShards - 1).

Definition getShard (key : string) (c : LRUCache) : nat :=
  Z.to_nat (Z.land (sum64 key) (shardMask c)).

(** Run an operation on the shard of a key. [None] is the panic of an index
    out of range, which [LRUCache_runs] excludes. *)
Definition on_shard {R} (key : string) (f : simpleLRUCache → R * simpleLRUCache) (c : LRUCache)
    : option (R * LRUCache) :=
  s ← shards c !! getShard key c;
  let '(r, s') := f s in
  Some (r, MkLRU (<[getShard key c := s']> (shards c)) (shardMask c)).

Definition LRUCache_Get (key : string) (now : Z) (c : LRUCache) : option (option V * LRUCache) :=
  on_shard key (Get key now) c.

Definition LRUCache_Put (key : string) (value : V) (size now : Z) (c : LRUCache)
    : option (unit * LRUCache) :=
  on_shard key (λ s, (tt, Put key value size now s)) c.

Definition LRUCache_Delete (key : string) (c : LRUCache) : option (unit * LRUCache) :=
  on_shard key (λ s, (tt, Delete key s)) c.

Definition LRUCache_Len (c : LRUCache) : Z := Zsum (Len <$> shards c).

Definition LRUCache_Clear (c : LRUCache) : LRUCache :=
  MkLRU (Clear <$> shards c) (shardMask c).

Definition LRUCache_CleanupExpired (now : Z) (c : LRUCache) : Z * LRUCache :=
  let rs := CleanupExpired now <$> shards c in
  (Zsum (rs.*1), MkLRU (rs.*2) (shardMask c)).

Definition LRUCache_Stats (c : LRUCache) : CacheStats :=
  let sts := Stats <$> shards c in
  MkCacheStats (Zsum (Size <$> sts)) (Zsum (Capacity <$> sts)) (Zsum (Entries <$> sts)).

(** ** What the cache promises: a map that may forget *)

Inductive op :=
| OGet (k : string) (now : Z)
| OPut (k : string) (v : V) (size now : Z)
| ODelete (k : string)
| OClear
| OCleanup (now : Z).

(** The specification remembers every [Put]: the value and the instant until
    which it may be served. *)
Definition spec_step (dur : Z) (o : op) (m : gmap string (V * Z)) : gmap string (V * Z) :=
  match o with
  | OPut k v _ now => <[k := (v, now + dur)]> m
  | ODelete k => delete k m
  | OClear => ∅
  | OGet _ _ | OCleanup _ => m
  end.

(** A [Get] may miss; when it hits, it serves the last value put, not expired. *)
Definition answer_ok (o : op) (m : gmap string (V * Z)) (r : option V) : Prop :=
  match o, r with
  | OGet k now, Some v => ∃ until, m !! k = Some (v, until) ∧ now ≤ until
  | _, _ => True
  end.

Definition step (o : op) (c : LRUCache) : option (option V * LRUCache) :=
  match o with
  | OGet k now => LRUCache_Get k now c
  | OPut k v size now => r ← LRUCache_Put k v size now c; Some (None, r.2)
  | ODelete k => r ← LRUCache_Delete k c; Some (None, r.2)
  | OClear => Some (None, LRUCache_Clear c)
  | OCleanup now => Some (None, (LRUCache_CleanupExpired now c).2)
  end.

(** A run of the cache beside the specification: [None] if an operation panics,
    otherwise the final cache, the final specification map, and whether every
    answer was allowed. *)
Inductive runs (dur : Z) : list op → LRUCache → gmap string (V * Z) → LRUCache →
    gmap string (V * Z) → Prop :=
| runs_nil c m : runs dur [] c m c m
| runs_cons o os c c1 c2 m m2 r :
    step o c = Some (r, c1) → answer_ok o m r →
    runs dur os c1 (spec_step dur o m) c2 m2 → runs dur (o :: os) c m c2 m2.

Definition home (key : string) : nat := Z.to_nat (Z.land (sum64 key) (numShards - 1)).

(** What a shard holds is what the specification map holds for the keys of
    that shard. *)
Definition holds (m : gmap string (V * Z)) (i : nat) (s : simpleLRUCache) : Prop :=
  ∀ k en, entry_at s k = Some en → i = home k ∧ m !! k = Some (e_value en, e_expiresAt en).

Record refines (dur : Z) (c : LRUCache) (m : gmap string (V * Z)) : Prop := {
  rf_len : length (shards c) = Z.to_nat numShards;
  rf_mask : shardMask c = numShards - 1;
  rf_shards i s : shards c !! i = Some s → wf s ∧ ttl s = dur ∧ holds m i s;
}.

Lemma home_lookup dur c m key :
  refines dur c m → ∃ s, shards c !! home key = Some s.
Proof.
  intros Hr. apply lookup_lt_is_Some. rewrite (rf_len _ _ _ Hr). unfold home, numShards.
  change (32 - 1) with (Z.ones 5).
  rewrite Z.land_ones by lia. pose proof (Z.mod_pos_bound (sum64 key) (2 ^ 5)). lia.
Qed.

(** One shard changes: the relation is kept if the new shard is well formed and
    holds what the new specification map says, and the map changes at no key of
    another shard. *)
Lemma on_shard_refines {R} dur c m m' key (f : simpleLRUCache → R * simpleLRUCache) :
  refines dur c m →
  (∀ k, home k ≠ home key → m' !! k = m !! k) →
  (∀ s, wf s → ttl s = dur → holds m (home key) s →
     wf (f s).2 ∧ ttl (f s).2 = dur ∧ holds m' (home key) (f s).2) →
  ∃ s c', wf s ∧ holds m (home key) s ∧
    on_shard key f c = Some ((f s).1, c') ∧ refines dur c' m'.
Proof.
  intros Hr Hm Hf. destruct (home_lookup _ _ _ key Hr) as [s Hs].
  destruct (rf_shards _ _ _ Hr _ _ Hs) as (Hwf & Ht & Hh).
  destruct (Hf s Hwf Ht Hh) as (Hwf' & Ht' & Hh').
  assert (getShard key c = home key) as Hg by (unfold getShard; by rewrite (rf_mask _ _ _ Hr)).
  unfold on_shard. rewrite Hg, Hs. simpl.
  destruct (f s) as [r s'] eqn:Hfs. simpl in *.
  exists s. rewrite Hfs. eexists. split_and!; [done|done|reflexivity|]. split; simpl.
  - rewrite length_insert. apply Hr.
  - apply Hr.
  - intros i s0. rewrite list_lookup_insert_Some. intros [(<- & <- & _)|[Hne Hs0]]; [done|].
    destruct (rf_shards _ _ _ Hr _ _ Hs0) as (? & ? & Hold). split_and!; [done..|].
    intros k en Hen. destruct (Hold k en Hen) as [-> Hk]. split; [done|].
    by rewrite Hm by done.
Qed.

(** All shards change. *)
Lemma map_shards_refines dur c m m' (f : simpleLRUCache → simpleLRUCache) :
  refines dur c m →
  (∀ i s, wf s → ttl s = dur → holds m i s → wf (f s) ∧ ttl (f s) = dur ∧ holds m' i (f s)) →
  refines dur (MkLRU (f <$> shards c) (shardMask c)) m'.
Proof.
  intros Hr Hf. split; simpl.
  - rewrite length_fmap. apply Hr.
  - apply Hr.
  - intros i s. rewrite list_lookup_fmap, fmap_Some. intros (s0 & Hs0 & ->).
    destruct (rf_shards _ _ _ Hr _ _ Hs0) as (? & ? & ?). by apply Hf.
Qed.

Lemma Get_refines dur c m k now :
  refines dur c m →
  ∃ r c', LRUCache_Get k now c = Some (r, c') ∧ refines dur c' m ∧ answer_ok (OGet k now) m r.
Proof.
  intros Hr.
  destruct (on_shard_refines dur c m m k (Get k now) Hr) as (s & c' & Hwf & Hh & Hon & Hr'); [done| |].
  { intros s Hwf Ht Hh. destruct (Get_spec k now s Hwf) as (Hwf' & Ht' & _ & Hent).
    split_and!; [done|congruence|]. intros k' en Hen.
    destruct (entry_at s k) as [en0|] eqn:Hk; [|by rewrite Hent in Hen; apply Hh].
    case_if_in Hent; destruct Hent as [_ Hent]; rewrite Hent in Hen; case_decide; simplify_eq/=;
      [by apply Hh|eapply (Hh _ en0); eassumption|by apply Hh]. }
  eexists _, c'. split_and!; [exact Hon|done|].
  destruct (Get_spec k now s Hwf) as (_ & _ & _ & Hent).
  destruct (entry_at s k) as [en0|] eqn:Hk; [|by rewrite Hent].
  case_if_in Hent; destruct Hent as [-> _]; simpl; [done|]. zbool.
  destruct (Hh _ _ Hk) as [_ Hm]. eauto.
Qed.

Lemma Put_refines dur c m k v size now :
  refines dur c m →
  ∃ c', LRUCache_Put k v size now c = Some (tt, c') ∧
        refines dur c' (<[k := (v, now + dur)]> m).
Proof.
  intros Hr.
  destruct (on_shard_refines dur c m (<[k := (v, now + dur)]> m) k
              (λ s, (tt, Put k v size now s)) Hr) as (s & c' & _ & _ & Hon & Hr'); [| |eauto].
  { intros k' Hne. rewrite lookup_insert_ne; congruence. }
  intros s Hwf Ht Hh. simpl. destruct (Put_spec k v size now s Hwf) as (? & ? & _ & Hk & Hoth).
  split_and!; [done|congruence|]. intros k' en Hen. destruct (decide (k' = k)) as [->|Hne].
  - rewrite Hk in Hen. simplify_eq/=. by rewrite lookup_insert_eq.
  - rewrite lookup_insert_ne by done.
    destruct (Hoth k' Hne) as [Hn|Hn]; rewrite Hn in Hen; [done|]. by apply Hh.
Qed.

Lemma Delete_refines dur c m k :
  refines dur c m →
  ∃ c', LRUCache_Delete k c = Some (tt, c') ∧ refines dur c' (delete k m).
Proof.
  intros Hr.
  destruct (on_shard_refines dur c m (delete k m) k
              (λ s, (tt, Delete k s)) Hr) as (s & c' & _ & _ & Hon & Hr'); [| |eauto].
  { intros k' Hne. rewrite lookup_delete_ne; congruence. }
  intros s Hwf Ht Hh. simpl. destruct (Delete_spec k s Hwf) as (? & ? & _ & Hent).
  split_and!; [done|congruence|]. intros k' en. rewrite Hent. case_decide; [done|].
  rewrite lookup_delete_ne by done. apply Hh.
Qed.

Lemma Clear_refines dur c m : refines dur c m → refines dur (LRUCache_Clear c) ∅.
Proof.
  intros Hr. apply (map_shards_refines dur c m); [done|]. intros i s Hwf Ht Hh.
  destruct (Clear_spec s Hwf) as (? & ? & _ & Hent). split_and!; [done|congruence|].
  intros k en. by rewrite Hent.
Qed.

Lemma Cleanup_refines dur c m now :
  refines dur c m → refines dur (LRUCache_CleanupExpired now c).2 m.
Proof.
  intros Hr. unfold LRUCache_CleanupExpired. simpl. rewrite <- list_fmap_compose.
  apply (map_shards_refines dur c m); [done|]. intros i s Hwf Ht Hh.
  destruct (CleanupExpired_spec now s Hwf) as (? & ? & _ & _ & Hent).
  split_and!; [done|unfold compose; congruence|]. intros k en. unfold compose.
  destruct (Hent k) as [-> | ->]; [done|]. apply Hh.
Qed.

Lemma New_refines cap dur :
  refines (if dur =? 0 then default_ttl else dur) (NewLRUCache cap dur) ∅.
Proof.
  split; [apply length_replicate|done|]. intros i s Hs.
  apply lookup_replicate in Hs as [-> _].
  split; [apply new_wf|]. split; [done|]. intros k en. unfold entry_at. simpl.
  by rewrite lookup_empty.
Qed.

Lemma step_refines dur o c m :
  refines dur c m →
  ∃ r c1, step o c = Some (r, c1) ∧ answer_ok o m r ∧ refines dur c1 (spec_step dur o m).
Proof.
  intros Hr. destruct o as [k now|k v size now|k| |now]; simpl.
  - destruct (Get_refines dur c m k now Hr) as (r & c' & ? & ? & ?). eauto 6.
  - destruct (Put_refines dur c m k v size now Hr) as (c' & -> & ?). by exists None, c'.
  - destruct (Delete_refines dur c m k Hr) as (c' & -> & ?). by exists None, c'.
  - exists None, (LRUCache_Clear c). split_and!; [done..|]. by eapply Clear_refines.
  - exists None, (LRUCache_CleanupExpired now c).2. split_and!; [done..|].
    by eapply Cleanup_refines.
Qed.

Lemma refines_runs dur os c m :
  refines dur c m → ∃ c' m', runs dur os c m c' m'.
Proof.
  revert c m. induction os as [|o os IH]; intros c m Hr; [eauto using runs|].
  destruct (step_refines dur o c m Hr) as (r & c1 & Hst & Hok & Hr1).
  destruct (IH _ _ Hr1) as (c' & m' & ?). eauto using runs.
Qed.

Lemma runs_refines dur os c m c' m' :
  runs dur os c m c' m' → refines dur c m → refines dur c' m'.
Proof.
  induction 1 as [|o os c c1 c2 m m2 r Hst Hok Hruns IH]; [done|]. intros Hr. apply IH.
  destruct (step_refines dur o c m Hr) as (r' & c1' & ? & ? & ?). by simplify_eq.
Qed.

(** ** Theorems *)

(** C6: no sequence of operations makes the sharded cache panic, and every value
    a [Get] serves is the last one put under its key, not deleted or cleared
    since, and within its time to live: the cache refines a map that may
    forget. *)
Theorem lru_refines_forgetful_map (cap dur : Z) (os : list op) :
  ∃ c m, runs (if dur =? 0 then default_ttl else dur) os (NewLRUCache cap dur) ∅ c m.
Proof. apply refines_runs, New_refines. Qed.

(** in every reachable state each shard's map and list describe the same
    elements, no key twice, and the statistics are exact: the reported size is
    the sum of the sizes of the cached entries. *)
Theorem lru_reachable_accounting (cap dur : Z) (os : list op) c m :
  runs (if dur =? 0 then default_ttl else dur) os (NewLRUCache cap dur) ∅ c m →
  Forall wf (shards c) ∧
  Size (LRUCache_Stats c) = Zsum ((λ s, total_size (heap s) (order s)) <$> shards c).
Proof.
  intros Hruns. assert (Forall wf (shards c)) as Hwf.
  { apply Forall_lookup. intros i s Hs.
    eapply rf_shards; [eapply runs_refines; [done|apply New_refines]|done]. }
  split; [done|]. simpl. rewrite <- !list_fmap_compose. f_equal.
  apply list_fmap_ext. intros i s Hs. apply wf_size. by eapply Forall_lookup_1.
Qed.

(** storing a new key keeps a prefix of the list of use (the most recently
    used entries), drops the rest, puts the new entry in front, and stops
    evicting as soon as the entry fits; the cache ends within its capacity
    unless the new entry is alone. *)
Theorem lru_put_evicts_least_recent (k : string) (v : V) (size now : Z) c :
  wf c → items c !! k = None →
  let c' := Put k v size now c in
  ∃ kept gone,
    order c = kept ++ gone ∧ order c' = next_id c :: kept ∧
    (kept = [] ∨ currentSize c' ≤ capacity c) ∧
    (∀ e rest, gone = e :: rest → capacity c < total_size (heap c) (kept ++ [e]) + size).
Proof.
  intros Hwf Hnew. unfold Put. rewrite Hnew.
  destruct (evict_loop_done (length (order c)) size c Hwf) as [gone []]; [done|].
  exists (order (evict_loop (length (order c)) size c)), gone. simpl.
  rewrite ev_next0. split_and!; auto.
Qed.

End lru.

(** ** Witnesses *)

Definition lru_example : simpleLRUCache (V := Z) :=
  Put "b"%string 2 6 1 (Put "a"%string 1 5 0 (newSimpleLRUCache 12 100)).

Lemma lru_example_wf : wf lru_example.
Proof. do 2 apply Put_spec. apply new_wf. Qed.

Lemma lru_put_evicts_witness :
  wf lru_example ∧ items lru_example !! "c"%string = None ∧
  ∃ kept gone, order lru_example = kept ++ gone ∧
    order (Put "c"%string 3 4 2 lru_example) = next_id lru_example :: kept ∧
    (kept = [] ∨ currentSize (Put "c"%string 3 4 2 lru_example) ≤ capacity lru_example) ∧
    (∀ e rest, gone = e :: rest →
       capacity lru_example < total_size (heap lru_example) (kept ++ [e]) + 4).
Proof.
  split; [exact lru_example_wf|]. split; [reflexivity|].
  apply (lru_put_evicts_least_recent "c"%string 3 4 2 lru_example);
    [exact lru_example_wf|reflexivity].
Defined.

Lemma lru_reachable_witness :
  let os := [OPut "a"%string 1 5 0; OGet "a"%string 3; OPut "a"%string 2 7 4] in
  let c := (step (λ _, 7) (OPut "a"%string 2 7 4)
    (default (NewLRUCache 0 9) (snd <$> step (λ _, 7) (OGet "a"%string 3)
    (default (NewLRUCache 0 9) (snd <$> step (λ _, 7) (OPut "a"%string 1 5 0)
       (NewLRUCache 0 9)))))) in
  ∃ c', snd <$> c = Some c' ∧ Forall wf (shards c') ∧ Size (LRUCache_Stats c') = 7.
Proof.
  eexists. split; [reflexivity|].
  match goal with |- Forall wf (shards ?c0) ∧ _ =>
    destruct (lru_reachable_accounting (λ _, 7) 0 9
      [OPut "a"%string 1 5 0; OGet "a"%string 3; OPut "a"%string 2 7 4] c0
      (<["a"%string := (2, 13)]> (<["a"%string := (1, 9)]> ∅))) as [Hwf _]
  end.
  - eapply runs_cons; [reflexivity|exact I|].
    eapply runs_cons; [reflexivity| |].
    { exists 9. split; [reflexivity|lia]. }
    eapply runs_cons; [reflexivity|exact I|]. apply runs_nil.
  - split; [exact Hwf|reflexivity].
Defined.
