(* ===== verification/Ranges.v ===== *)
(** * Piece ranges (internal/gostorm/torr/storage/torrstor/ranges.go)

    The readers of a torrent protect ranges of pieces from eviction.
    [mergeRange] sorts the ranges and merges the overlapping ones in place;
    [inRanges] looks a piece up in the merged ranges by binary search
    ([sort_search] of the prelude). *)

From S2P Require Import Prelude.

(** A file of a torrent, as far as the piece cache looks at it: its offset in
    the torrent and its length ([torrent.File.Offset] and [Length]). *)
Record File := MkFile { f_Offset : Z; f_Length : Z }.

Record Range := MkRange { Start : Z; End_ : Z; rFile : File }.

#[export] Instance File_eq_dec : EqDecision File.
Proof. solve_decision. Defined.
#[export] Instance Range_eq_dec : EqDecision Range.
Proof. solve_decision. Defined.

#[export] Instance Range_elem_of : ElemOf Z Range := λ x r, Start r ≤ x ≤ End_ r.
#[export] Instance Range_inhabited : Inhabited Range := populate (MkRange 0 0 (MkFile 0 0)).

(** ** inRanges *)

Definition inRanges (ranges : list Range) (ind : Z) : bool :=
  let i := sort_search (length ranges)
             (λ i, match ranges !! i with Some r => ind <=? End_ r | None => false end) in
  match ranges !! i with
  | Some r => Start r <=? ind
  | None => false
  end.

(** ** mergeRange *)

Definition range_less (a b : Range) : bool :=
  if Start a <? Start b then true
  else if (Start a =? Start b) && (End_ a <? End_ b) then true else false.

Definition set_End (e : Z) (r : Range) : Range := MkRange (Start r) e (rFile r).

(** The body of the loop at index [i], with the write position [j]. *)
Definition merge_step (merged : list Range) (i j : nat) : list Range * nat :=
  match merged !! j, merged !! i with
  | Some rj, Some ri =>
      if Start ri <=? End_ rj then
        (if End_ rj <? End_ ri then <[j := set_End (End_ ri) rj]> merged else merged, j)
      else (<[S j := ri]> merged, S j)
  | _, _ => (merged, j)
  end.

Fixpoint merge_loop (n i j : nat) (merged : list Range) : list Range * nat :=
  match n with
  | O => (merged, j)
  | S n' => let '(merged', j') := merge_step merged i j in merge_loop n' (S i) j' merged'
  end.

Definition mergeRange `{!SliceSort} (ranges : list Range) : list Range :=
  if (length ranges <=? 1)%nat then ranges
  else
    let merged := sort_slice range_less ranges in
    let '(merged, j) := merge_loop (length merged - 1) 1 0 merged in
    take (S j) merged.

(** ** A reference definition of the merge *)

Fixpoint merge_ref (cur : Range) (rest : list Range) : list Range :=
  match rest with
  | [] => [cur]
  | r :: rest' =>
      if Start r <=? End_ cur
      then merge_ref (if End_ cur <? End_ r then set_End (End_ r) cur else cur) rest'
      else cur :: merge_ref r rest'
  end.

(** The in-place loop computes the reference merge of the current range with
    what is still to be read. *)
Lemma merge_loop_ref n i j merged cur :
  (j < i)%nat → (i + n = length merged)%nat → merged !! j = Some cur →
  let '(m, k) := merge_loop n i j merged in
  take (S k) m = take j merged ++ merge_ref cur (drop i merged).
Proof.
  revert i j merged cur. induction n as [|n IH]; intros i j merged cur Hji Hlen Hj; simpl.
  { rewrite drop_ge by lia. simpl. by apply take_S_r. }
  destruct (lookup_lt_is_Some_2 merged i) as [ri Hi]; [lia|].
  rewrite (drop_S _ _ _ Hi). simpl. unfold merge_step. rewrite Hj, Hi.
  destruct (Start ri <=? End_ cur) eqn:Hov; [destruct (End_ cur <? End_ ri) eqn:Hext|].
  - specialize (IH (S i) j (<[j := set_End (End_ ri) cur]> merged) (set_End (End_ ri) cur)).
    destruct (merge_loop _ _ _ _) as [m k]. rewrite IH.
    + rewrite take_insert_ge, drop_insert_lt by lia. done.
    + lia.
    + rewrite length_insert. lia.
    + apply list_lookup_insert_eq. lia.
  - specialize (IH (S i) j merged cur). destruct (merge_loop _ _ _ _) as [m k].
    apply IH; [lia..|done].
  - specialize (IH (S i) (S j) (<[S j := ri]> merged) ri).
    destruct (merge_loop _ _ _ _) as [m k]. rewrite IH.
    + rewrite take_insert_ge, drop_insert_lt by lia.
      rewrite (take_S_r _ _ _ Hj), <- app_assoc. done.
    + lia.
    + rewrite length_insert. lia.
    + apply list_lookup_insert_eq. lia.
Qed.

(** ** Correctness *)

#[export] Instance range_less_swo : StrictWeakOrder range_less.
Proof.
  assert (∀ a b, range_less a b = true ↔
    Start a < Start b ∨ (Start a = Start b ∧ End_ a < End_ b)) as Hiff.
  { intros a b. unfold range_less. repeat case_if; zbool; try lia; split; try lia; try done. }
  split.
  - intros x. apply not_true_is_false. rewrite Hiff. lia.
  - intros x y z. rewrite !Hiff. lia.
  - intros x y z. rewrite <- !not_true_iff_false, !Hiff. lia.
Qed.

Definition valid (r : Range) : Prop := Start r ≤ End_ r.

(** Merged ranges: valid, in ascending order, with a gap between neighbours. *)
Definition separated : list Range → Prop :=
  StronglySorted (λ a b, End_ a < Start b).

Definition covers (rs : list Range) (x : Z) : Prop := ∃ r, r ∈ rs ∧ x ∈ r.

Lemma covers_cons r rs x : covers (r :: rs) x ↔ x ∈ r ∨ covers rs x.
Proof. unfold covers. set_solver. Qed.

Lemma covers_nil x : covers [] x ↔ False.
Proof. unfold covers. set_solver. Qed.

#[export] Instance covers_perm : Proper ((≡ₚ) ==> eq ==> iff) covers.
Proof. intros l1 l2 Hp x y ->. unfold covers. by setoid_rewrite Hp. Qed.

Lemma elem_of_range x r : x ∈ r ↔ Start r ≤ x ≤ End_ r.
Proof. done. Qed.

Lemma sorted_starts rs : sorted_by range_less rs → StronglySorted (λ a b, Start a ≤ Start b) rs.
Proof.
  induction 1 as [|r rs Hs IH Hall]; constructor; [done|].
  eapply Forall_impl; [exact Hall|]. intros r' Hr'. simpl in Hr'. unfold range_less in Hr'.
  case_if_in Hr'; [done|]. zbool. done.
Qed.

Lemma merge_ref_spec cur rest :
  valid cur → Forall valid rest →
  StronglySorted (λ a b, Start a ≤ Start b) (cur :: rest) →
  let out := merge_ref cur rest in
  Forall valid out ∧ separated out ∧
  Forall (λ r, Start cur ≤ Start r) out ∧
  ∀ x, covers out x ↔ covers (cur :: rest) x.
Proof.
  revert cur. induction rest as [|r rest IH]; intros cur Hv Hall Hs; simpl.
  { split_and!; [by constructor|repeat constructor|repeat constructor; lia|done]. }
  apply StronglySorted_inv in Hs as [Hs Hcur]. apply Forall_cons in Hcur as [Hcr Hcur].
  apply Forall_cons in Hall as [Hr Hall].
  destruct (Start r <=? End_ cur) eqn:Hov; zbool.
  - set (c := if End_ cur <? End_ r then set_End (End_ r) cur else cur).
    assert (Start c = Start cur ∧ End_ c = Z.max (End_ cur) (End_ r)) as [Hsc Hec].
    { unfold c. case_if; zbool; simpl; lia. }
    apply StronglySorted_inv in Hs as [Hs _].
    destruct (IH c) as (Hva & Hsep & Hst & Hcov).
    + unfold valid in *. lia.
    + done.
    + constructor; [done|]. by rewrite Hsc.
    + split_and!; [done..|by rewrite <- Hsc|]. intros x. rewrite Hcov, !covers_cons.
      assert (x ∈ c ↔ x ∈ cur ∨ x ∈ r); [|tauto].
      rewrite !elem_of_range, Hsc, Hec. unfold valid in Hv, Hr. lia.
  - destruct (IH r) as (Hva & Hsep & Hst & Hcov); [done..|].
    split_and!; [by constructor| | |].
    + constructor; [done|]. eapply Forall_impl; [exact Hst|]. simpl. intros. lia.
    + constructor; [lia|]. eapply Forall_impl; [exact Hst|]. simpl. intros. lia.
    + intros x. by rewrite !(covers_cons cur), Hcov.
Qed.

Lemma mergeRange_ref `{!SliceSort} ranges :
  (1 < length ranges)%nat →
  ∃ cur rest, sort_slice range_less ranges = cur :: rest ∧ mergeRange ranges = merge_ref cur rest.
Proof.
  intros Hlen. unfold mergeRange. destruct (Nat.leb_spec (length ranges) 1); [lia|].
  pose proof (Permutation_length (sort_slice_perm range_less ranges)) as Hl.
  destruct (sort_slice range_less ranges) as [|cur rest] eqn:Hsort; simpl in Hl; [lia|].
  exists cur, rest. split; [done|]. replace (length (cur :: rest) - 1)%nat with (length rest) by (simpl; lia).
  pose proof (merge_loop_ref (length rest) 1 0 (cur :: rest) cur) as Hm.
  destruct (merge_loop _ _ _ _) as [m k]. rewrite Hm; [done|lia|done|done].
Qed.

Lemma mergeRange_spec `{!SliceSort} ranges :
  Forall valid ranges →
  Forall valid (mergeRange ranges) ∧ separated (mergeRange ranges) ∧
  ∀ x, covers (mergeRange ranges) x ↔ covers ranges x.
Proof.
  intros Hv. destruct (decide (1 < length ranges)%nat) as [Hlen|Hlen].
  - destruct (mergeRange_ref ranges Hlen) as (cur & rest & Hsort & ->).
    pose proof (sort_slice_perm range_less ranges) as Hperm.
    pose proof (sort_slice_sorted range_less ranges _) as Hsorted. rewrite Hsort in *.
    rewrite <- Hperm in Hv. apply Forall_cons in Hv as [Hc Hr].
    destruct (merge_ref_spec cur rest Hc Hr (sorted_starts _ Hsorted)) as (? & ? & _ & Hcov).
    split_and!; [done..|]. intros x. by rewrite Hcov, Hperm.
  - unfold mergeRange. destruct (Nat.leb_spec (length ranges) 1); [|lia]. split_and!; [done| |done].
    destruct ranges as [|r [|]]; simpl in *; [constructor|repeat constructor|lia].
Qed.

(** A merged range keeps the file of one of the ranges it was made from, and no
    range is lost when there is one. *)
Lemma merge_ref_files cur rest r :
  r ∈ merge_ref cur rest → ∃ r', r' ∈ cur :: rest ∧ rFile r' = rFile r.
Proof.
  revert cur. induction rest as [|x rest IH]; intros cur; simpl.
  { intros ->%list_elem_of_singleton. exists cur. set_solver. }
  case_if.
  - intros (r' & Hin & Hf)%IH. apply elem_of_cons in Hin as [->|Hin].
    + exists cur. rewrite <- Hf. split; [set_solver|]. by case_if.
    + exists r'. set_solver.
  - intros [->|Hin]%elem_of_cons; [exists cur; set_solver|].
    destruct (IH x Hin) as (r' & ? & ?). exists r'. set_solver.
Qed.

Lemma mergeRange_files `{!SliceSort} ranges r :
  r ∈ mergeRange ranges → ∃ r', r' ∈ ranges ∧ rFile r' = rFile r.
Proof.
  destruct (decide (1 < length ranges)%nat) as [Hlen|Hlen].
  - destruct (mergeRange_ref ranges Hlen) as (cur & rest & Hsort & ->).
    intros (r' & Hin & Hf)%merge_ref_files. exists r'. split; [|done].
    by rewrite <- (sort_slice_perm range_less ranges), Hsort.
  - unfold mergeRange. destruct (Nat.leb_spec (length ranges) 1); [|lia]. eauto.
Qed.

Lemma mergeRange_nonempty `{!SliceSort} ranges : ranges ≠ [] → mergeRange ranges ≠ [].
Proof.
  destruct (decide (1 < length ranges)%nat) as [Hlen|Hlen].
  - destruct (mergeRange_ref ranges Hlen) as (cur & rest & _ & ->). intros _.
    destruct (merge_ref cur rest) eqn:Hm; [|done]. exfalso. revert cur Hm.
    induction rest as [|x rest IH]; intros cur; simpl; [done|]. case_if; [apply IH|done].
  - unfold mergeRange. destruct (Nat.leb_spec (length ranges) 1); [done|lia].
Qed.

Lemma separated_lookup rs i j a b :
  separated rs → (i < j)%nat → rs !! i = Some a → rs !! j = Some b → End_ a < Start b.
Proof.
  intros Hs. revert i j. induction Hs as [|r rs Hs IH Hall]; intros i j Hij Hi Hj; [done|].
  destruct i as [|i], j as [|j]; simplify_eq/=; [lia| |lia|].
  - by eapply (Forall_lookup_1 _ _ _ _ Hall).
  - eapply (IH i j); [lia|done..].
Qed.

Lemma inRanges_spec rs x :
  Forall valid rs → separated rs → inRanges rs x = true ↔ covers rs x.
Proof.
  intros Hv Hs. unfold inRanges.
  set (f := λ i : nat, match rs !! i with Some r => x <=? End_ r | None => false end).
  destruct (sort_search_spec (length rs) f) as (Hle & Hlow & Hhit).
  { intros i j Hij. unfold f. destruct (lookup_lt_is_Some_2 rs j) as [b Hb]; [lia|].
    destruct (lookup_lt_is_Some_2 rs i) as [a Ha]; [lia|]. rewrite Ha, Hb.
    intros. zbool. apply Z.leb_le. destruct (decide (i = j)) as [->|]; [naive_solver|].
    assert (i < j)%nat as Hlt by lia. pose proof (separated_lookup _ _ _ _ _ Hs Hlt Ha Hb).
    pose proof (Forall_lookup_1 _ _ _ _ Hv Hb) as Hvb. unfold valid in Hvb. lia. }
  set (k := sort_search _ _) in *. split.
  - destruct (rs !! k) as [r|] eqn:Hk; [|done]. intros. zbool. exists r.
    split; [by eapply list_elem_of_lookup_2|]. apply elem_of_range.
    apply lookup_lt_Some in Hk as Hlt. specialize (Hhit Hlt). unfold f in Hhit. rewrite Hk in Hhit.
    zbool. lia.
  - intros (r & [i Hi]%list_elem_of_lookup_1 & [Hx1 Hx2]).
    assert (i = k ∨ (k < i)%nat) as Hki.
    { destruct (decide (i < k)%nat) as [Hlt|]; [|lia]. specialize (Hlow i Hlt).
      unfold f in Hlow. rewrite Hi in Hlow. zbool. lia. }
    apply lookup_lt_Some in Hi as Hlt. destruct (lookup_lt_is_Some_2 rs k) as [rk Hk]; [lia|].
    rewrite Hk. apply Z.leb_le. destruct Hki as [-> | Hki]; [simplify_eq; lia|].
    pose proof (separated_lookup _ _ _ _ _ Hs Hki Hk Hi).
    pose proof (Forall_lookup_1 _ _ _ _ Hv Hk) as Hvk. unfold valid in Hvk. lia.
Qed.

(** ** Theorems *)

(** The in-place merge of any list of valid ranges gives valid ranges in
    ascending order with a gap between neighbours, covering exactly the pieces
    the given ranges cover, whatever order the sort leaves equal ranges in. *)
Theorem mergeRange_separates_and_covers `{!SliceSort} (ranges : list Range) :
  Forall valid ranges →
  separated (mergeRange ranges) ∧ Forall valid (mergeRange ranges) ∧
  ∀ x, covers (mergeRange ranges) x ↔ covers ranges x.
Proof. intros Hv. by destruct (mergeRange_spec ranges Hv) as (? & ? & ?). Qed.

(** The binary search over merged ranges answers exactly whether a piece
    lies in one of the original ranges. *)
Theorem inRanges_merged_iff `{!SliceSort} (ranges : list Range) (ind : Z) :
  Forall valid ranges →
  inRanges (mergeRange ranges) ind = true ↔ ∃ r, r ∈ ranges ∧ Start r ≤ ind ≤ End_ r.
Proof.
  intros Hv. destruct (mergeRange_spec ranges Hv) as (Hv' & Hs & Hcov).
  rewrite (inRanges_spec _ _ Hv' Hs). apply Hcov.
Qed.

(** ** Witnesses *)

Definition ranges_example : list Range :=
  let f := MkFile 0 100 in [MkRange 8 9 f; MkRange 1 3 f; MkRange 2 5 f; MkRange 5 6 f].

Lemma ranges_example_valid : Forall valid ranges_example.
Proof. repeat constructor; unfold valid; simpl; lia. Qed.

Lemma mergeRange_witness :
  mergeRange ranges_example = [MkRange 1 6 (MkFile 0 100); MkRange 8 9 (MkFile 0 100)] ∧
  separated (mergeRange ranges_example) ∧ Forall valid (mergeRange ranges_example) ∧
  ∀ x, covers (mergeRange ranges_example) x ↔ covers ranges_example x.
Proof.
  split; [reflexivity|].
  apply (mergeRange_separates_and_covers ranges_example). exact ranges_example_valid.
Defined.

Lemma inRanges_witness :
  inRanges (mergeRange ranges_example) 4 = true ∧
  ∃ r, r ∈ ranges_example ∧ Start r ≤ 4 ≤ End_ r.
Proof.
  split; [reflexivity|].
  apply (inRanges_merged_iff ranges_example 4); [exact ranges_example_valid|reflexivity].
Defined.
