(* ===== verification/RaCache.v ===== *)
(** * The read-ahead cache (main.go, [ReadAheadCache])

    The FUSE reads are served from chunks that the pump and the prefetchers put
    into a cache of 32 shards. Chunk buffers are recycled: a buffer that leaves
    the cache goes to a pool, and the next [Put] may overwrite it. The model
    keeps the buffers in a store addressed by buffer identity, so that a
    recycled buffer and a cached one that shared their bytes would be seen as
    such.

    Each critical section of the code (a shard's mutex, the context's mutex) is
    one step, the update of the shared byte counter included; the eviction that
    runs in its own goroutine is a step per shard, with whatever path, session
    and clock it was started with. *)

From S2P Require Import Prelude.

Section racache.

(** ** Parameters *)

(** [xxhash.Sum64String] and the two configuration values the cache reads. *)
Context (sum64 : string → Z) (ReadAheadBase ReadAheadBudget : Z).

(** ** Data *)

Definition buf_id := nat.

Record RaBuffer := MkRaBuffer {
  b_start : Z;
  b_end : Z;
  b_data : buf_id;
  b_lastAccess : Z;
  b_sessionID : Z;
  b_responsiveOnly : bool;
}.

Record raShard := MkShard {
  buffers : gmap string RaBuffer;
  order : list string;
  total : Z;
}.

(** What the shards share: the byte counter, the pool channel, the buffers. *)
Record shared := MkShared {
  used : Z;
  pool : list buf_id;
  mem : gmap buf_id (list byte);
  next_buf : buf_id;
}.

Record ReadAheadCache := MkRaCache {
  shards : list raShard;
  sh : shared;
  activePath : string;
  currentSessionID : Z;
}.

Definition newReadAheadCache : ReadAheadCache :=
  MkRaCache (replicate 32 (MkShard ∅ [] 0)) (MkShared 0 [] ∅ 0%nat) "" 0.

(** ** Helpers *)

Definition shardMask : Z := 31.

Definition shard_of (path : string) : nat := Z.to_nat (Z.land (sum64 path) shardMask).

Definition chunkSize : Z := if 0 <? ReadAheadBase then ReadAheadBase else 16 * MiB.

Definition raChunkKey (path : string) (offset : Z) : string :=
  path +:+ ":" +:+ pretty (offset /t chunkSize).

Definition globalLimit : Z := if ReadAheadBudget <=? 0 then 256 * MiB else ReadAheadBudget.

Definition HasPrefix (s pre : string) : bool := String.prefix pre s.

Definition len_of (d : buf_id) (g : shared) : Z :=
  match mem g !! d with Some bs => Z.of_nat (length bs) | None => 0 end.

Definition set_used (u : Z) (g : shared) : shared := MkShared u (pool g) (mem g) (next_buf g).
Definition set_pool (p : list buf_id) (g : shared) : shared :=
  MkShared (used g) p (mem g) (next_buf g).
Definition set_mem (m : gmap buf_id (list byte)) (g : shared) : shared :=
  MkShared (used g) (pool g) m (next_buf g).

(** [recycle]: the pool is a channel of 32 places, written without blocking. *)
Definition recycle (d : buf_id) (g : shared) : shared :=
  if len_of d g =? chunkSize
  then if (length (pool g) <? 32)%nat then set_pool (pool g ++ [d]) g else g
  else g.

(** The buffer for a [Put]: the first one of the pool if its length is right
    (it is dropped otherwise), else a new one; [d] is copied into it. *)
Definition alloc (d : list byte) (g : shared) : buf_id * shared :=
  match pool g with
  | buf :: rest =>
      if len_of buf g =? Z.of_nat (length d)
      then (buf, set_mem (<[buf := d]> (mem g)) (set_pool rest g))
      else (next_buf g, MkShared (used g) rest (<[next_buf g := d]> (mem g)) (S (next_buf g)))
  | [] => (next_buf g, MkShared (used g) [] (<[next_buf g := d]> (mem g)) (S (next_buf g)))
  end.

(** ** Lookups *)

(** What a lookup does: miss, panic, or serve bytes from one buffer or two. *)
Inductive hit :=
| Miss
| Panic
| One (src : list byte)
| Two (src1 src2 : list byte).

Definition lookup_buf (s : raShard) (g : shared) (key : string) : option (RaBuffer * list byte) :=
  b ← buffers s !! key; bs ← mem g !! b_data b; Some (b, bs).

Definition touch (key : string) (now : Z) (s : raShard) : raShard :=
  MkShard (alter (λ b, MkRaBuffer (b_start b) (b_end b) (b_data b) now (b_sessionID b)
                         (b_responsiveOnly b)) key (buffers s)) (order s) (total s).

(** The tests shared by [Get] and [CopyTo], with the chunks whose access time
    is refreshed. *)
Definition find (p : string) (off end_ : Z) (s : raShard) (g : shared) : hit * list string :=
  let key := raChunkKey p off in
  match lookup_buf s g key with
  | Some (b, bs) =>
      if (b_start b <=? off) && (off <=? b_end b) then
        if end_ <=? b_end b then
          (match slice (off - b_start b) (end_ - b_start b + 1) bs with
           | Some src => One src
           | None => Panic
           end, [key])
        else
          match lookup_buf s g (raChunkKey p end_) with
          | Some (b2, bs2) =>
              if (b_start b2 =? b_end b + 1) && (end_ <=? b_end b2) then
                (match slice (off - b_start b) (Z.of_nat (length bs)) bs,
                       slice 0 (end_ - b_start b2 + 1) bs2 with
                 | Some s1, Some s2 => Two s1 s2
                 | _, _ => Panic
                 end, [key; raChunkKey p end_])
              else (Miss, [key])
          | None => (Miss, [key])
          end
      else (Miss, [])
  | None => (Miss, [])
  end.

(** The result of [Get]: [None] for a panic, [Some None] for nil. *)
Definition get_bytes (off end_ : Z) (h : hit) : option (option (list byte)) :=
  match h with
  | Miss => Some None
  | Panic => None
  | One src => Some (Some src)
  | Two s1 s2 =>
      let out := replicate (Z.to_nat (end_ - off + 1)) Byte.x00 in
      let '(n1, out) := copy_at 0 s1 out in
      let '(_, out) := copy_at n1 s2 out in
      Some (Some out)
  end.

Definition copy_bytes (dest : list byte) (h : hit) : option (Z * list byte) :=
  match h with
  | Miss => Some (0, dest)
  | Panic => None
  | One src => let '(n, dest') := copy_at 0 src dest in Some (Z.of_nat n, dest')
  | Two s1 s2 =>
      let '(n1, dest1) := copy_at 0 s1 dest in
      let '(n2, dest2) := copy_at n1 s2 dest1 in
      Some (Z.of_nat n1 + Z.of_nat n2, dest2)
  end.

Definition with_shard {R} (i : nat) (dflt : R) (f : raShard → shared → R * raShard * shared)
    (c : ReadAheadCache) : R * ReadAheadCache :=
  match shards c !! i with
  | Some s => let '(r, s', g') := f s (sh c) in
              (r, MkRaCache (<[i := s']> (shards c)) g' (activePath c) (currentSessionID c))
  | None => (dflt, c)
  end.

Definition touch_all (keys : list string) (now : Z) (s : raShard) : raShard :=
  foldl (λ s k, touch k now s) s keys.

Definition Get (p : string) (off end_ now : Z) (c : ReadAheadCache)
    : option (option (list byte)) * ReadAheadCache :=
  with_shard (shard_of p) None (λ s g,
    let '(h, keys) := find p off end_ s g in
    (get_bytes off end_ h, touch_all keys now s, g)) c.

Definition CopyTo (p : string) (off end_ now : Z) (dest : list byte) (c : ReadAheadCache)
    : option (Z * list byte) * ReadAheadCache :=
  with_shard (shard_of p) None (λ s g,
    let '(h, keys) := find p off end_ s g in
    (copy_bytes dest h, touch_all keys now s, g)) c.

Definition Exists (p : string) (off : Z) (c : ReadAheadCache) : bool :=
  match shards c !! shard_of p with
  | Some s => bool_decide (is_Some (buffers s !! raChunkKey p off))
  | None => false
  end.

Definition MaxCachedOffset (p : string) (c : ReadAheadCache) : Z :=
  match shards c !! shard_of p with
  | Some s => map_fold (λ key b maxEnd,
      if HasPrefix key (p +:+ ":") && (maxEnd <? b_end b) then b_end b else maxEnd) 0 (buffers s)
  | None => 0
  end.

(** ** Put *)

(** The session a [Put] is tagged with, read under the context's mutex. *)
Definition put_session (p : string) (c : ReadAheadCache) : Z :=
  if bool_decide (p = activePath c) then currentSessionID c else 0.

(** Forget a buffer: the counters and the pool. *)
Definition release (b : RaBuffer) (s : raShard) (g : shared) : raShard * shared :=
  let size := len_of (b_data b) g in
  (MkShard (buffers s) (order s) (total s - size), recycle (b_data b) (set_used (used g - size) g)).

Fixpoint remove_first (k : string) (l : list string) : list string :=
  match l with
  | [] => []
  | x :: l' => if bool_decide (x = k) then l' else x :: remove_first k l'
  end.

(** The eviction loop of [Put]: the front of the order goes while the cache is
    over budget, never the last chunk; each turn shortens the order. *)
Fixpoint put_evict (fuel : nat) (s : raShard) (g : shared) : raShard * shared :=
  match fuel with
  | O => (s, g)
  | S fuel' =>
      if (globalLimit <? used g) && (1 <? length (order s))%nat then
        match order s with
        | v :: rest =>
            match buffers s !! v with
            | Some old =>
                let '(s', g') := release old (MkShard (delete v (buffers s)) rest (total s)) g in
                put_evict fuel' s' g'
            | None => put_evict fuel' (MkShard (buffers s) rest (total s)) g
            end
        | [] => (s, g)
        end
      else (s, g)
  end.

Definition compact (s : raShard) : raShard :=
  if (100 <? length (order s))%nat && (size (buffers s) * 2 <? length (order s))%nat
  then MkShard (buffers s) (filter (λ k, is_Some (buffers s !! k)) (order s)) (total s)
  else s.

(** The shard's critical section of [Put]. The boolean result says whether a
    global eviction is started. *)
Definition put_locked (sessID : Z) (p : string) (start end_ : Z) (d : list byte) (now : Z)
    (responsive : bool) (s : raShard) (g : shared) : bool * raShard * shared :=
  let key := raChunkKey p start in
  let '(dataCopy, g) := alloc d g in
  let '(s, g) := match buffers s !! key with
    | Some old => let '(s, g) := release old s g in
                  (MkShard (buffers s) (remove_first key (order s)) (total s), g)
    | None => (s, g)
    end in
  let s := MkShard (<[key := MkRaBuffer start end_ dataCopy now sessID responsive]> (buffers s))
             (order s ++ [key]) (total s + Z.of_nat (length d)) in
  let g := set_used (used g + Z.of_nat (length d)) g in
  let '(s, g) := put_evict (length (order s)) s g in
  let trigger := (globalLimit <? used g) && (length (order s) <=? 1)%nat in
  (trigger, compact s, g).

Definition Put (p : string) (start end_ : Z) (d : list byte) (now : Z) (responsive : bool)
    (c : ReadAheadCache) : bool * ReadAheadCache :=
  with_shard (shard_of p) false
    (put_locked (put_session p c) p start end_ d now responsive) c.

(** ** Contexts, eviction, statistics *)

Definition SwitchContext (newPath : string) (c : ReadAheadCache) : bool * ReadAheadCache :=
  if bool_decide (newPath = activePath c) then (false, c)
  else (true, MkRaCache (shards c) (sh c) newPath (currentSessionID c + 1)).

(** [EvictPath] on one shard; the buffers are left to the garbage collector. *)
Definition evict_path_shard (path : string) (s : raShard) (g : shared) : unit * raShard * shared :=
  let gone := filter (λ kb : string * RaBuffer, HasPrefix kb.1 (path +:+ ":") = true) (buffers s) in
  let freed := map_sum (λ b, len_of (b_data b) g) gone in
  (tt, if bool_decide (gone = ∅) then s
       else MkShard (filter (λ kb : string * RaBuffer, HasPrefix kb.1 (path +:+ ":") = false) (buffers s))
              (filter (λ k, gone !! k = None) (order s)) (total s - freed),
   set_used (used g - freed) g).

Definition EvictPath (path : string) (c : ReadAheadCache) : ReadAheadCache :=
  foldl (λ c i, (with_shard i tt (evict_path_shard path) c).2) c (seq 0 32).

Definition staleThreshold : Z := 120 * 1000000000.
Definition activeThreshold : Z := 60 * 1000000000.

(** Whether the global eviction keeps a chunk. *)
Definition keeps (ap : string) (sid now : Z) (key : string) (b : RaBuffer) : bool :=
  let active := HasPrefix key (ap +:+ ":") in
  if negb (b_sessionID b =? sid) && negb active then false
  else negb ((if active then activeThreshold else staleThreshold) <? now - b_lastAccess b).

Fixpoint evict_keys (ap : string) (sid now : Z) (keys : list string) (s : raShard) (g : shared)
    : raShard * shared :=
  match keys with
  | [] => (s, g)
  | key :: rest =>
      match buffers s !! key with
      | Some b =>
          if keeps ap sid now key b
          then evict_keys ap sid now rest (MkShard (buffers s) (order s ++ [key]) (total s)) g
          else let '(s', g') := release b (MkShard (delete key (buffers s)) (order s) (total s)) g in
               evict_keys ap sid now rest s' g'
      | None => evict_keys ap sid now rest (MkShard (buffers s) (order s ++ [key]) (total s)) g
      end
  end.

Definition evictShard (ap : string) (sid now : Z) (s : raShard) (g : shared)
    : unit * raShard * shared :=
  let '(s', g') := evict_keys ap sid now (order s) (MkShard (buffers s) [] (total s)) g in
  (tt, s', g').

(** [isEvicting] is the flag found by the compare-and-swap. The shards whose
    lock is taken are skipped; when all are, the first one is waited for. *)
Definition triggerGlobalEviction (isEvicting : bool) (ap : string) (sid now : Z) (busy : nat → bool)
    (c : ReadAheadCache) : ReadAheadCache :=
  if isEvicting then c
  else if forallb busy (seq 0 32) then (with_shard 0 tt (evictShard ap sid now) c).2
  else foldl (λ c i, if busy i then c else (with_shard i tt (evictShard ap sid now) c).2)
         c (seq 0 32).

Definition Stats (now : Z) (c : ReadAheadCache) : Z * Z * Z :=
  (used (sh c),
   Zsum ((λ s, map_sum (λ b, if now - b_lastAccess b <? staleThreshold
                             then len_of (b_data b) (sh c) else 0) (buffers s)) <$> shards c),
   Zsum ((λ s, Z.of_nat (size (buffers s))) <$> shards c)).

(** ** The invariant *)

Lemma raChunkKey_inj p1 o1 p2 o2 :
  raChunkKey p1 o1 = raChunkKey p2 o2 → p1 = p2 ∧ o1 /t chunkSize = o2 /t chunkSize.
Proof. apply colon_key_inj. Qed.

(** The contents of the files, which every [Put] is supposed to carry. *)
Context (content : string → Z → byte).

Definition truthful (p : string) (start : Z) (bs : list byte) : Prop :=
  ∀ j x, bs !! j = Some x → x = content p (start + Z.of_nat j).

Definition bsize (b : RaBuffer) : Z := b_end b - b_start b + 1.

(** The cached chunks of all shards as one map. *)
Abbreviation live := (gmap (nat * string) RaBuffer).

(** A cached chunk lies under the key and in the shard of its path and holds
    that path's bytes. *)
Definition chunk_ok (g : shared) (x : nat * string) (b : RaBuffer) : Prop :=
  ∃ p bs, x = (shard_of p, raChunkKey p (b_start b)) ∧ mem g !! b_data b = Some bs ∧
          Z.of_nat (length bs) = bsize b ∧ truthful p (b_start b) bs.

Record inv (L : live) (g : shared) : Prop := {
  inv_used : used g = map_sum bsize L;
  inv_own x y b b' : L !! x = Some b → L !! y = Some b' → b_data b = b_data b' → x = y;
  inv_pool_nodup : NoDup (pool g);
  inv_pool x b : L !! x = Some b → b_data b ∉ pool g;
  inv_pool_mem d : d ∈ pool g → is_Some (mem g !! d);
  inv_fresh d : is_Some (mem g !! d) → (d < next_buf g)%nat;
  inv_chunk x b : L !! x = Some b → chunk_ok g x b;
}.

(** A buffer that belongs to the running operation only. *)
Definition held (d : buf_id) (L : live) (g : shared) : Prop :=
  d ∉ pool g ∧ ∀ x b, L !! x = Some b → b_data b ≠ d.

Lemma chunk_ok_len g x b : chunk_ok g x b → len_of (b_data b) g = bsize b.
Proof. intros (p & bs & _ & Hm & Hl & _). unfold len_of. by rewrite Hm. Qed.

(** *** Buffers: allocation, release, insertion *)

Lemma write_chunk_ok g d bs x b u pl nb :
  b_data b ≠ d → chunk_ok g x b → chunk_ok (MkShared u pl (<[d := bs]> (mem g)) nb) x b.
Proof.
  intros Hne (p & bs' & ? & Hm & ? & ?). exists p, bs'. simpl.
  by rewrite lookup_insert_ne.
Qed.

(** Overwriting a buffer that no chunk uses. *)
Lemma write_inv L g d bs pl nb :
  inv L g → (∀ x b, L !! x = Some b → b_data b ≠ d) →
  NoDup pl → (∀ d', d' ∈ pl → d' ∈ pool g) → (next_buf g ≤ nb)%nat → (d < nb)%nat →
  inv L (MkShared (used g) pl (<[d := bs]> (mem g)) nb).
Proof.
  intros [] Hd Hnd Hsub Hnb Hlt. split; simpl; auto.
  - intros x b Hx Hin. eapply inv_pool0; eauto.
  - intros d' Hin. rewrite lookup_insert. case_decide; [by eexists|]. by apply inv_pool_mem0, Hsub.
  - intros d'. rewrite lookup_insert. case_decide; [by subst|]. intros ?%inv_fresh0. lia.
  - intros x b Hx. apply write_chunk_ok; eauto.
Qed.

Lemma alloc_inv L g bs d g' :
  inv L g → alloc bs g = (d, g') →
  inv L g' ∧ held d L g' ∧ mem g' !! d = Some bs ∧ used g' = used g.
Proof.
  intros Hinv. unfold alloc.
  assert (∀ x b, L !! x = Some b → b_data b ≠ next_buf g) as Hnext.
  { intros x b Hx. destruct (inv_chunk _ _ Hinv _ _ Hx) as (? & bs' & _ & Hm & _).
    pose proof (inv_fresh _ _ Hinv (b_data b) ltac:(by eexists)). lia. }
  assert (next_buf g ∉ pool g) as Hnp.
  { intros Hin%(inv_pool_mem _ _ Hinv)%(inv_fresh _ _ Hinv). lia. }
  pose proof (inv_pool_nodup _ _ Hinv) as Hnd. destruct (pool g) as [|buf rest] eqn:Hpool.
  - intros [= <- <-]. simpl. split_and!; [|split; [simpl; set_solver|done]|by rewrite lookup_insert_eq|done].
    apply (write_inv L g); rewrite ?Hpool; auto.
  - apply NoDup_cons in Hnd as [Hnin Hnd]. case_if; intros [= <- <-]; simpl.
    + assert (∀ x b, L !! x = Some b → b_data b ≠ buf) as Hbuf.
      { intros x b Hx ->%symmetry. eapply (inv_pool _ _ Hinv); [done|]. rewrite Hpool. set_solver. }
      split_and!; [|by split|by rewrite lookup_insert_eq|done].
      apply (write_inv L g); rewrite ?Hpool; auto; [set_solver|].
      apply (inv_fresh _ _ Hinv), (inv_pool_mem _ _ Hinv). rewrite Hpool. set_solver.
    + split_and!; [|split; [simpl; set_solver|done]|by rewrite lookup_insert_eq|done].
      apply (write_inv L g); rewrite ?Hpool; auto. set_solver.
Qed.

Lemma recycle_frame d g :
  used (recycle d g) = used g ∧ mem (recycle d g) = mem g ∧ next_buf (recycle d g) = next_buf g ∧
  (pool (recycle d g) = pool g ∨ pool (recycle d g) = pool g ++ [d]).
Proof. unfold recycle. repeat case_if; simpl; auto. Qed.

Lemma release_inv L g x b s s' g' d :
  inv L g → L !! x = Some b → release b s g = (s', g') → held d L g →
  inv (delete x L) g' ∧ held d (delete x L) g' ∧ mem g' = mem g ∧
  buffers s' = buffers s ∧ order s' = order s ∧ total s' = total s - bsize b ∧
  used g' = used g - bsize b.
Proof.
  intros Hinv Hx Hrel [Hdp Hdl]. unfold release in Hrel.
  pose proof (inv_chunk _ _ Hinv _ _ Hx) as Hok. rewrite (chunk_ok_len _ _ _ Hok) in Hrel.
  simplify_eq/=. set (g1 := set_used _ g).
  destruct (recycle_frame (b_data b) g1) as (Hu & Hm & Hn & Hp).
  assert (∀ d', d' ∈ pool (recycle (b_data b) g1) → d' ∈ pool g ∨ d' = b_data b) as Hsub.
  { intros d'. destruct Hp as [-> | ->]; [by left|]. rewrite elem_of_app, list_elem_of_singleton. done. }
  split_and!; try done; [split|split].
  - rewrite Hu. simpl. rewrite (inv_used _ _ Hinv). by rewrite (map_sum_delete _ _ _ b).
  - intros y z by_ bz. rewrite !lookup_delete_Some. intros [_ ?] [_ ?]. by eapply (inv_own _ _ Hinv).
  - destruct Hp as [-> | ->]; [apply Hinv|]. apply NoDup_app.
    split_and!; [apply Hinv| |apply NoDup_singleton].
    intros d' Hd' ->%list_elem_of_singleton. by eapply (inv_pool _ _ Hinv).
  - intros y by_. rewrite lookup_delete_Some. intros [Hne Hy] [Hin|Heq]%Hsub.
    + by eapply (inv_pool _ _ Hinv).
    + apply Hne. symmetry. by eapply (inv_own _ _ Hinv).
  - intros d'. rewrite Hm. intros [Hin | ->]%Hsub; [by apply (inv_pool_mem _ _ Hinv)|].
    destruct Hok as (? & bs & _ & Hbs & _). by eexists.
  - intros d'. rewrite Hm, Hn. apply (inv_fresh _ _ Hinv).
  - intros y by_. rewrite lookup_delete_Some. intros [_ Hy].
    destruct (inv_chunk _ _ Hinv _ _ Hy) as (p & bs & ? & ? & ?). exists p, bs. by rewrite Hm.
  - intros [?|Heq]%Hsub; [done|]. by eapply Hdl.
  - intros y by_. rewrite lookup_delete_Some. intros [_ Hy]. by eapply Hdl.
Qed.

Lemma insert_inv L g x b bs p :
  inv L g → L !! x = None → held (b_data b) L g →
  mem g !! b_data b = Some bs → x = (shard_of p, raChunkKey p (b_start b)) →
  Z.of_nat (length bs) = bsize b → truthful p (b_start b) bs →
  inv (<[x := b]> L) (set_used (used g + bsize b) g).
Proof.
  intros Hinv Hx [Hhp Hhl] Hm Hkey Hlen Ht. split; simpl; try apply Hinv.
  - rewrite map_sum_insert_new by done. rewrite (inv_used _ _ Hinv). lia.
  - intros y z by_ bz. rewrite !lookup_insert.
    repeat case_decide; intros ?? Heq; simplify_eq; try done.
    + exfalso. by eapply (Hhl z bz).
    + exfalso. by eapply (Hhl y by_).
    + by eapply (inv_own _ _ Hinv).
  - intros y by_. rewrite lookup_insert. case_decide; intros; simplify_eq; [done|].
    by eapply (inv_pool _ _ Hinv).
  - intros y by_. rewrite lookup_insert. case_decide; intros; simplify_eq.
    + by exists p, bs.
    + by apply (inv_chunk _ _ Hinv).
Qed.

(** *** Shards *)

(** The order lists the keys of the map, each once, and the total is exact. *)
Record shard_wf (s : raShard) : Prop := {
  sw_nodup : NoDup (order s);
  sw_order k : k ∈ order s ↔ is_Some (buffers s !! k);
  sw_total : total s = map_sum bsize (buffers s);
}.

Definition shard_in (i : nat) (s : raShard) (L : live) : Prop :=
  ∀ k, buffers s !! k = L !! (i, k).

Definition same_elsewhere (i : nat) (L L' : live) : Prop :=
  ∀ j k, j ≠ i → L' !! (j, k) = L !! (j, k).

(** A critical section on shard [i] that keeps everything in order. *)
Definition section_ok (i : nat) (s s' : raShard) (g g' : shared) : Prop :=
  ∀ L, inv L g → shard_wf s → shard_in i s L →
  ∃ L', inv L' g' ∧ shard_wf s' ∧ shard_in i s' L' ∧ same_elsewhere i L L'.

Record ra_wf (c : ReadAheadCache) : Prop := {
  rw_len : length (shards c) = 32%nat;
  rw_live : ∃ L, inv L (sh c) ∧ (∀ i k, is_Some (L !! (i, k)) → (i < 32)%nat) ∧
    ∀ i s, shards c !! i = Some s → shard_wf s ∧ shard_in i s L;
}.

Lemma shard_in_delete i s L k o t :
  shard_in i s L → shard_in i (MkShard (delete k (buffers s)) o t) (delete (i, k) L).
Proof.
  intros Hin k'. simpl. rewrite !lookup_delete. repeat case_decide; simplify_eq; done || apply Hin.
Qed.

Lemma same_delete i L k : same_elsewhere i L (delete (i, k) L).
Proof. intros j k' Hj. rewrite lookup_delete_ne; congruence. Qed.

Lemma same_insert i L k b : same_elsewhere i L (<[(i, k) := b]> L).
Proof. intros j k' Hj. rewrite lookup_insert_ne; congruence. Qed.

Lemma same_trans i L1 L2 L3 :
  same_elsewhere i L1 L2 → same_elsewhere i L2 L3 → same_elsewhere i L1 L3.
Proof. intros H1 H2 j k Hj. by rewrite H2, H1. Qed.

Lemma same_refl i L : same_elsewhere i L L.
Proof. done. Qed.

Create HintDb racache.
Hint Resolve shard_in_delete same_delete same_insert same_trans same_refl : racache.

Lemma release_held_none L g x b s s' g' :
  inv L g → L !! x = Some b → release b s g = (s', g') →
  inv (delete x L) g' ∧ mem g' = mem g ∧
  buffers s' = buffers s ∧ order s' = order s ∧ total s' = total s - bsize b ∧
  used g' = used g - bsize b.
Proof.
  intros Hinv Hx Hrel.
  destruct (release_inv L g x b s s' g' (next_buf g) Hinv Hx Hrel) as (? & _ & ?); [|done].
  split.
  - intros Hin%(inv_pool_mem _ _ Hinv)%(inv_fresh _ _ Hinv). lia.
  - intros y by_ Hy Heq. destruct (inv_chunk _ _ Hinv _ _ Hy) as (? & bs & _ & Hm & _).
    pose proof (inv_fresh _ _ Hinv (b_data by_) ltac:(by eexists)). lia.
Qed.

(** The eviction loop: what leaves is a prefix of the order; it stops within
    budget or at the last chunk. *)
Lemma put_evict_spec fuel s g L i s' g' :
  (length (order s) ≤ fuel)%nat → inv L g → shard_wf s → shard_in i s L →
  put_evict fuel s g = (s', g') →
  ∃ L' gone, inv L' g' ∧ shard_wf s' ∧ shard_in i s' L' ∧ same_elsewhere i L L' ∧
    order s = gone ++ order s' ∧ (used g' ≤ globalLimit ∨ (length (order s') ≤ 1)%nat) ∧
    (∀ k, k ∈ order s' → buffers s' !! k = buffers s !! k) ∧ mem g' = mem g ∧
    (order s ≠ [] → order s' ≠ []).
Proof.
  revert s g L. induction fuel as [|fuel IH]; intros s g L Hlen Hinv Hwf Hin; cbn [put_evict].
  { intros [= <- <-]. exists L, []. split_and!; auto with racache lia. }
  case_if; cycle 1.
  { intros [= <- <-]. exists L, []. split_and!; auto with racache.
    apply andb_false_iff in Hif as [?|?%Nat.ltb_ge]; zbool; auto. }
  apply andb_true_iff in Hif as [Hov Hlt%Nat.ltb_lt]. zbool.
  destruct Hwf as [Hnd Hord Htot]. destruct (order s) as [|v rest] eqn:Ho; [simpl in Hlt; lia|].
  destruct (proj1 (Hord v)) as [old Hold]; [set_solver|]. rewrite Hold.
  apply NoDup_cons in Hnd as [Hv Hnd].
  destruct (release old _ g) as [s1 g1] eqn:Hrel. intros Hrec.
  rewrite Hin in Hold. destruct (release_held_none L g (i, v) old _ _ _ Hinv Hold Hrel)
    as (Hinv1 & Hm1 & Hb1 & Ho1 & Ht1 & Hu1). simpl in *.
  destruct (IH s1 g1 (delete (i, v) L)) as (L' & gone & ? & ? & ? & ? & Hgone & ? & Hk & ? & ?);
    [by rewrite Ho1; lia|done| | |done|].
  { split.
    - by rewrite Ho1.
    - intros k. rewrite Ho1, Hb1, lookup_delete_is_Some, <- Hord. set_solver.
    - rewrite Ht1, Hb1, Htot. rewrite <- Hin in Hold. by rewrite (map_sum_delete _ _ _ old). }
  { intros k. rewrite Hb1, !lookup_delete. repeat case_decide; simplify_eq; done || apply Hin. }
  exists L', (v :: gone). split_and!; eauto with racache.
  - rewrite Ho1 in Hgone. by rewrite Hgone.
  - intros k Hin'. rewrite Hk by done. rewrite Hb1. apply lookup_delete_ne. intros ->.
    apply Hv. rewrite Ho1 in Hgone. rewrite Hgone. set_solver.
  - congruence.
  - intros _. rewrite Ho1 in *. destruct rest; [simpl in Hlt; lia|]. auto.
Qed.

Lemma remove_first_spec k l :
  NoDup l → remove_first k l = filter (λ x, x ≠ k) l.
Proof.
  induction 1 as [|x l Hx Hnd IH]; simpl; [done|]. case_if; zbool.
  - subst. rewrite filter_cons_False by tauto. symmetry. apply filter_all_id, Forall_forall. set_solver.
  - rewrite filter_cons_True by done. by rewrite IH.
Qed.

Lemma compact_id s : shard_wf s → compact s = s.
Proof.
  intros Hwf. unfold compact. case_if; [|done]. zbool. destruct s as [bs o t]. simpl in *. f_equal.
  apply filter_all_id, Forall_forall. intros k Hk. by apply (sw_order _ Hwf).
Qed.

(** *** Put *)

(** After the shard's section of a [Put], the chunk is in the cache with its
    bytes, and the cache is within budget unless the shard holds nothing else. *)
Lemma put_locked_spec sess p start end_ d now resp s g L i tr s' g' :
  i = shard_of p → Z.of_nat (length d) = end_ - start + 1 → truthful p start d →
  inv L g → shard_wf s → shard_in i s L →
  put_locked sess p start end_ d now resp s g = (tr, s', g') →
  ∃ L', inv L' g' ∧ shard_wf s' ∧ shard_in i s' L' ∧ same_elsewhere i L L' ∧
    (∃ id, buffers s' !! raChunkKey p start = Some (MkRaBuffer start end_ id now sess resp) ∧
           mem g' !! id = Some d) ∧
    (used g' ≤ globalLimit ∨ order s' = [raChunkKey p start]) ∧
    tr = (globalLimit <? used g') && (length (order s') <=? 1)%nat.
Proof.
  intros -> Hlen Ht Hinv Hwf Hin. unfold put_locked.
  destruct (alloc d g) as [id g1] eqn:Halloc.
  destruct (alloc_inv L g d id g1 Hinv Halloc) as (Hinv1 & Hheld & Hmem & _).
  set (key := raChunkKey p start). set (b := MkRaBuffer start end_ id now sess resp).
  set (sg := match buffers s !! key with Some old => _ | None => _ end).
  assert (∃ L1, inv L1 sg.2 ∧ held id L1 sg.2 ∧ mem sg.2 !! id = Some d ∧
    L1 !! (shard_of p, key) = None ∧ same_elsewhere (shard_of p) L L1 ∧
    (∀ k, k ≠ key → buffers sg.1 !! k = L1 !! (shard_of p, k)) ∧
    NoDup (order sg.1) ∧ (∀ k, k ∈ order sg.1 ↔ k ≠ key ∧ is_Some (L1 !! (shard_of p, k))) ∧
    total sg.1 = map_sum bsize (delete key (buffers sg.1)))
    as (L1 & HinvA & HheldA & HmemA & HnoneA & HsameA & HbufA & HndA & HordA & HtotA).
  { unfold sg. destruct (buffers s !! key) as [old|] eqn:Hold.
    - destruct (release old s g1) as [s1 g2] eqn:Hrel. rewrite Hin in Hold.
      destruct (release_inv L g1 (shard_of p, key) old s s1 g2 id Hinv1 Hold Hrel Hheld)
        as (? & ? & Hm & Hb & Ho & Htt & _). simpl. exists (delete (shard_of p, key) L).
      rewrite Ho, remove_first_spec by apply Hwf.
      split_and!; auto with racache; try congruence.
      + apply lookup_delete_eq.
      + intros k Hk. rewrite Hb, lookup_delete_ne by congruence. apply Hin.
      + apply NoDup_filter, Hwf.
      + intros k. rewrite list_elem_of_filter, (sw_order _ Hwf), Hin, lookup_delete_is_Some.
        split; [intros [? ?]; split; [done|split; congruence]|tauto].
      + rewrite Htt, Hb, (sw_total _ Hwf), (map_sum_delete _ _ _ old); [done|]. by rewrite Hin.
    - simpl. exists L. rewrite Hin in Hold. split_and!; auto with racache.
      + apply Hwf.
      + intros k. rewrite (sw_order _ Hwf), Hin. split; [|tauto].
        intros Hk. split; [|done]. intros ->. rewrite Hold in Hk. by destruct Hk.
      + rewrite delete_id by (by rewrite Hin). apply Hwf. }
  destruct sg as [s1 g2]. simpl in *. clear Hinv1 Hheld Hmem Halloc.
  assert (bsize b = Z.of_nat (length d)) as Hbs by (unfold bsize; simpl; lia).
  pose proof (insert_inv L1 g2 (shard_of p, key) b d p HinvA HnoneA HheldA HmemA eq_refl
    (eq_sym Hbs) Ht) as HinvB. rewrite Hbs in HinvB.
  set (s2 := MkShard (<[key := b]> (buffers s1)) (order s1 ++ [key]) (total s1 + Z.of_nat (length d))).
  assert (shard_in (shard_of p) s2 (<[(shard_of p, key) := b]> L1)) as HinB.
  { intros k. simpl. rewrite !lookup_insert. repeat case_decide; simplify_eq; [done|]. by apply HbufA. }
  assert (shard_wf s2) as HwfB.
  { split.
    - simpl. apply NoDup_app. split_and!; [done| |apply NoDup_singleton].
      intros k Hk ->%list_elem_of_singleton. apply HordA in Hk. naive_solver.
    - intros k. rewrite HinB. simpl. rewrite elem_of_app, list_elem_of_singleton, HordA.
      destruct (decide (key = k)) as [<- | Hk].
      + rewrite lookup_insert_eq. split; [by eexists|by right].
      + rewrite lookup_insert_ne by congruence. split; [intros [[_ ?] | ->]; done|]. intros ?. by left.
    - simpl. rewrite HtotA, <- Hbs. rewrite <- (insert_delete_eq (buffers s1)).
      rewrite map_sum_insert_new by apply lookup_delete_eq. lia. }
  destruct (put_evict _ s2 _) as [s3 g3] eqn:Hev. intros [= <- <- <-].
  destruct (put_evict_spec _ s2 _ _ (shard_of p) s3 g3 ltac:(done) HinvB HwfB HinB Hev)
    as (L' & gone & ? & HwfC & ? & ? & Hord & Hbud & Hkeep & Hm & Hne).
  assert (key ∈ order s3 ∧ (used g3 ≤ globalLimit ∨ order s3 = [key])) as [Hkin Hk1].
  { assert (order s3 ≠ []) as [o [x Ho]]%exists_last by (apply Hne; simpl; by destruct (order s1)).
    rewrite Ho, app_assoc in Hord. simpl in Hord. apply app_inj_tail in Hord as [_ <-].
    rewrite Ho. split; [set_solver|]. destruct Hbud as [|Hl]; [by left|]. right.
    rewrite Ho, length_app in Hl. simpl in Hl. by destruct o; [|simpl in Hl; lia]. }
  rewrite compact_id by done. exists L'. split_and!; eauto with racache.
  exists id. rewrite Hkeep, Hm by done. simpl. by rewrite lookup_insert_eq.
Qed.

(** *** Touching, evicting *)

Lemma touch_ok i k now s g : section_ok i s (touch k now s) g g.
Proof.
  intros L Hinv Hwf Hin. destruct (buffers s !! k) as [b|] eqn:Hb; cycle 1.
  { exists L. assert (touch k now s = s) as ->; [|auto with racache].
    unfold touch. destruct s as [bs o t]. simpl in *. f_equal. apply map_eq. intros k'.
    rewrite lookup_alter. case_decide; [|done]. subst. by rewrite Hb. }
  set (b' := MkRaBuffer (b_start b) (b_end b) (b_data b) now (b_sessionID b) (b_responsiveOnly b)).
  exists (<[(i, k) := b']> L). pose proof Hb as HL. rewrite Hin in HL.
  assert (∀ k', buffers (touch k now s) !! k' = <[k := b']> (buffers s) !! k') as Hlk.
  { intros k'. simpl. rewrite lookup_alter, lookup_insert. case_decide; [|done]. subst. by rewrite Hb. }
  apply map_eq in Hlk. split_and!; [|split| |auto with racache]; simpl.
  - destruct Hinv. split; auto.
    + rewrite (map_sum_insert_old _ _ _ _ b) by done. rewrite inv_used0. unfold bsize. simpl. lia.
    + assert (∀ y by_, <[(i, k) := b']> L !! y = Some by_ → ∃ b0, L !! y = Some b0 ∧ b_data b0 = b_data by_) as Hd.
      { intros y by_. rewrite lookup_insert. case_decide; intros; simplify_eq; eauto. }
      intros x y b1 b2 (? & ? & ?)%Hd (? & ? & ?)%Hd ?. eapply inv_own0; eauto. congruence.
    + intros x b1. rewrite lookup_insert. case_decide; intros; simplify_eq; eauto.
      by apply (inv_pool0 (i, k) b).
    + intros x b1. rewrite lookup_insert. case_decide; intros; simplify_eq; eauto.
      destruct (inv_chunk0 _ _ HL) as (p & bs & ?). by exists p, bs.
  - apply Hwf.
  - intros k'. rewrite (sw_order _ Hwf). change (alter _ k (buffers s)) with (buffers (touch k now s)).
    rewrite Hlk, lookup_insert_is_Some. split; [|by intros [->|[_ ?]]; [by rewrite Hb|]].
    destruct (decide (k = k')); auto.
  - rewrite (sw_total _ Hwf). change (alter _ k (buffers s)) with (buffers (touch k now s)).
    rewrite Hlk, (map_sum_insert_old _ _ _ _ b) by done. unfold bsize. simpl. lia.
  - intros k'. change (buffers (touch k now s) !! k' = <[(i, k):=b']> L !! (i, k')).
    rewrite Hlk, !lookup_insert. repeat case_decide; simplify_eq; done || apply Hin.
Qed.

Lemma section_trans i s1 s2 s3 g1 g2 g3 :
  section_ok i s1 s2 g1 g2 → section_ok i s2 s3 g2 g3 → section_ok i s1 s3 g1 g3.
Proof.
  intros H1 H2 L Hinv Hwf Hin. destruct (H1 L) as (L1 & ? & ? & ? & ?); [done..|].
  destruct (H2 L1) as (L2 & ? & ? & ? & ?); [done..|]. exists L2. eauto with racache.
Qed.

Lemma touch_all_ok i keys now s g : section_ok i s (touch_all keys now s) g g.
Proof.
  unfold touch_all. revert s. induction keys as [|k keys IH]; intros s; simpl.
  - intros L ???. exists L. auto with racache.
  - eapply section_trans; [apply touch_ok|apply IH].
Qed.


(** Chunks that leave the cache without going to the pool. *)
Lemma forget_inv i (gone : gmap string RaBuffer) L g :
  inv L g → (∀ k b, gone !! k = Some b → L !! (i, k) = Some b) →
  ∃ L', inv L' (set_used (used g - map_sum bsize gone) g) ∧
    ∀ j k, L' !! (j, k) = if decide (j = i ∧ is_Some (gone !! k)) then None else L !! (j, k).
Proof.
  intros Hinv. induction gone as [|k b gone Hk IH] using map_ind; intros Hsub.
  - exists L. rewrite map_sum_empty, Z.sub_0_r. split; [by destruct g|].
    intros j k. rewrite decide_False; [done|]. intros [_ []]. set_solver.
  - destruct IH as (L1 & Hinv1 & HL1).
    { intros k' b' Hk'. apply Hsub. rewrite lookup_insert_ne; [done|]. congruence. }
    assert (L1 !! (i, k) = Some b) as Hb.
    { rewrite HL1, decide_False, (Hsub k b); [done|by apply lookup_insert_eq|].
      rewrite Hk. by intros [_ []]. }
    exists (delete (i, k) L1). split.
    + rewrite map_sum_insert_new by done. destruct Hinv1 as [Hu Hown ? Hp ? ? Hc]. split; simpl in *; auto.
      * rewrite (map_sum_delete _ _ _ b), <- Hu by done. lia.
      * intros x y b1 b2 [_ ?]%lookup_delete_Some [_ ?]%lookup_delete_Some. eauto.
      * intros x b1 [_ ?]%lookup_delete_Some. eauto.
      * intros x b1 [_ ?]%lookup_delete_Some. by apply Hc.
    + intros j k'. rewrite lookup_delete, HL1. repeat case_decide; try done; simplify_eq.
      * exfalso. rewrite lookup_insert_eq in *. naive_solver.
      * exfalso. rewrite lookup_insert_is_Some in *. naive_solver.
      * exfalso. rewrite lookup_insert_is_Some in *.
        destruct (decide (k = k')); naive_solver.
Qed.

Lemma evict_path_shard_ok i path s g s' g' u :
  evict_path_shard path s g = (u, s', g') → section_ok i s s' g g'.
Proof.
  intros Heq L Hinv Hwf Hin. unfold evict_path_shard in Heq.
  set (gone := filter (λ kb : string * RaBuffer, HasPrefix kb.1 (path +:+ ":") = true) (buffers s)) in *.
  destruct (forget_inv i gone L g Hinv) as (L' & Hinv' & HL').
  { intros k b [Hk _]%map_lookup_filter_Some. by rewrite <- Hin. }
  assert (map_sum (λ b, len_of (b_data b) g) gone = map_sum bsize gone) as Hfreed.
  { apply map_sum_ext. intros k b [Hk _]%map_lookup_filter_Some. rewrite Hin in Hk.
    eapply chunk_ok_len, (inv_chunk _ _ Hinv), Hk. }
  rewrite Hfreed in Heq. simplify_eq. exists L'. split; [done|].
  assert (∀ k, is_Some (gone !! k) → is_Some (buffers s !! k)) as Hsub.
  { intros k [b [Hk _]%map_lookup_filter_Some]. by eexists. }
  assert (same_elsewhere i L L') by (intros j k Hj; rewrite HL', decide_False; tauto).
  assert (∀ k, filter (λ kb : string * RaBuffer, HasPrefix kb.1 (path +:+ ":") = false) (buffers s) !! k
    = L' !! (i, k)) as Hbuf.
  { intros k. rewrite HL', map_lookup_filter, <- Hin.
    destruct (buffers s !! k) as [b|] eqn:Hb; simpl; [|by case_decide].
    destruct (HasPrefix k (path +:+ ":")) eqn:Hp.
    - rewrite option_guard_False by done. rewrite decide_True; [done|]. split; [done|].
      exists b. by apply map_lookup_filter_Some.
    - rewrite option_guard_True by done. rewrite decide_False; [done|].
      intros [_ [b' [_ ?]%map_lookup_filter_Some]]. simpl in *. congruence. }
  case_if; zbool.
  - split_and!; [done| |done]. intros k. rewrite HL', decide_False, Hin; [done|].
    rewrite Hif. intros [_ []]. set_solver.
  - split_and!; [|done|done]. split; simpl.
    + apply NoDup_filter, Hwf.
    + intros k. rewrite list_elem_of_filter, (sw_order _ Hwf).
      rewrite Hbuf, HL', Hin.
      split; [intros [Hn ?]; rewrite decide_False; [done|]; rewrite Hn; by intros [_ []]|].
      case_decide as Hd; [by intros []|]. split; [|done]. apply eq_None_not_Some. tauto.
    + rewrite (sw_total _ Hwf). rewrite (map_sum_split _ (λ kb : string * RaBuffer,
        HasPrefix kb.1 (path +:+ ":") = true) (buffers s)).
      fold gone. rewrite Z.add_simpl_l. f_equal. apply map_filter_ext.
      intros k b _. simpl. by destruct (HasPrefix _ _).
Qed.

(** The rebuilding of the order: the keys seen so far that are kept, then those
    that remain. *)
Lemma evict_keys_ok ap sid now keys done_ i bs t g L s' g' :
  inv L g → shard_wf (MkShard bs (done_ ++ keys) t) → shard_in i (MkShard bs [] t) L →
  evict_keys ap sid now keys (MkShard bs done_ t) g = (s', g') →
  ∃ L', inv L' g' ∧ shard_wf s' ∧ shard_in i s' L' ∧ same_elsewhere i L L'.
Proof.
  revert done_ bs t g L. induction keys as [|k keys IH]; intros done_ bs t g L Hinv Hwf Hin; cbn [evict_keys].
  { intros [= <- <-]. rewrite app_nil_r in Hwf. exists L. auto with racache. }
  destruct (proj1 (sw_order _ Hwf k)) as [b Hb]; [set_solver|].
  cbn [buffers order total] in *. rewrite Hb. case_if.
  { apply IH; [done| |done]. by rewrite <- app_assoc. }
  destruct (release b _ g) as [[bs1 o1 t1] g1] eqn:Hrel. intros Hrec.
  pose proof (Hin k) as Hk. cbn [buffers] in Hk. rewrite Hb in Hk. symmetry in Hk.
  destruct (release_held_none L g (i, k) b _ _ _ Hinv Hk Hrel) as (? & _ & Hb1 & Ho1 & Ht1 & _).
  simpl in Hb1, Ho1, Ht1. subst. destruct Hwf as [Hnd Hord Htot]. simpl in Hnd, Hord, Htot.
  edestruct IH with (L := delete (i, k) L) (4 := Hrec) as (L' & ? & ? & ? & ?).
  - done.
  - apply NoDup_app in Hnd as (? & Hdis & [Hnk ?]%NoDup_cons). split; simpl.
    + apply NoDup_app. split_and!; [done|set_solver|done].
    + intros k'. rewrite lookup_delete_is_Some, <- Hord. set_solver.
    + by rewrite Htot, (map_sum_delete _ _ _ b).
  - apply (shard_in_delete i (MkShard bs [] t)), Hin.
  - exists L'. eauto with racache.
Qed.

Lemma evictShard_ok i ap sid now s g s' g' u :
  evictShard ap sid now s g = (u, s', g') → section_ok i s s' g g'.
Proof.
  unfold evictShard. intros Heq L Hinv Hwf Hin. destruct (evict_keys _ _ _ _ _ _) as [s1 g1] eqn:Hev.
  simplify_eq. eapply (evict_keys_ok _ _ _ _ []); [done| | |done]; [|done].
  by destruct s.
Qed.

(** *** The whole cache *)

Lemma with_shard_wf {R} i (dflt : R) f c r c' :
  ra_wf c → (∀ s r s' g', shards c !! i = Some s → f s (sh c) = (r, s', g') →
    section_ok i s s' (sh c) g') →
  with_shard i dflt f c = (r, c') → ra_wf c'.
Proof.
  intros [Hlen (L & Hinv & Hdom & Hsh)] Hf. unfold with_shard.
  destruct (shards c !! i) as [s|] eqn:Hs; cycle 1.
  { intros [= _ <-]. split; [done|]. by exists L. }
  destruct (f s (sh c)) as [[r1 s'] g'] eqn:Hfs. intros [= _ <-].
  destruct (Hsh i s Hs) as [Hwf Hin].
  destruct (Hf s _ _ _ eq_refl Hfs L Hinv Hwf Hin) as (L' & Hinv' & Hwf' & Hin' & Hsame).
  pose proof (lookup_lt_Some _ _ _ Hs) as Hlt.
  split; simpl; [by rewrite length_insert|]. exists L'. split_and!; [done| |].
  - intros j k Hj. destruct (decide (j = i)) as [->|]; [lia|]. eapply Hdom. by rewrite <- Hsame.
  - intros j s1. destruct (decide (j = i)) as [->|Hj].
    + rewrite list_lookup_insert_eq by lia. by intros [= <-].
    + rewrite list_lookup_insert_ne by done. intros Hs1. destruct (Hsh j s1 Hs1) as [? Hin1].
      split; [done|]. intros k. by rewrite Hsame.
Qed.

(** The steps of the system: each critical section, by any goroutine. A [Put]
    carries the bytes of the file it is for; its session may be out of date. *)
Inductive ra_step : ReadAheadCache → ReadAheadCache → Prop :=
| step_Get p off end_ now c : ra_step c (Get p off end_ now c).2
| step_CopyTo p off end_ now dest c : ra_step c (CopyTo p off end_ now dest c).2
| step_Put sess p start end_ d now resp c :
    Z.of_nat (length d) = end_ - start + 1 → truthful p start d →
    ra_step c (with_shard (shard_of p) false (put_locked sess p start end_ d now resp) c).2
| step_Switch p c : ra_step c (SwitchContext p c).2
| step_EvictPath p i c : ra_step c (with_shard i tt (evict_path_shard p) c).2
| step_Evict ap sid now i c : ra_step c (with_shard i tt (evictShard ap sid now) c).2.

Definition reachable (c : ReadAheadCache) : Prop := rtc ra_step newReadAheadCache c.

Lemma newReadAheadCache_wf : ra_wf newReadAheadCache.
Proof.
  split; [done|]. exists ∅. split_and!.
  - split; simpl; try (intros; set_solver); [apply NoDup_nil_2|].
    intros d. rewrite lookup_empty. by intros [].
  - intros i k. rewrite lookup_empty. by intros [].
  - intros i s [-> _]%lookup_replicate. split; [|by intros k; rewrite !lookup_empty].
    split; simpl; [constructor| |by rewrite map_sum_empty].
    intros k. rewrite lookup_empty. split; [set_solver|by intros []].
Qed.

Lemma ra_step_wf c c' : ra_wf c → ra_step c c' → ra_wf c'.
Proof.
  intros Hwf Hstep. destruct Hstep as [p o e n c|p o e n d c|sess p st e d n re c Hl Ht|p c|p i c|ap sid n i c].
  - destruct (Get p o e n c) as [r c'] eqn:H. eapply with_shard_wf; [exact Hwf| |exact H].
    intros s ? s' g' _. cbv beta. destruct (find _ _ _ _ _). intros [= <- <- <-]. apply touch_all_ok.
  - destruct (CopyTo p o e n d c) as [r c'] eqn:H. eapply with_shard_wf; [exact Hwf| |exact H].
    intros s ? s' g' _. cbv beta. destruct (find _ _ _ _ _). intros [= <- <- <-]. apply touch_all_ok.
  - destruct (with_shard _ _ _ _) as [r c'] eqn:H. eapply with_shard_wf; [exact Hwf| |exact H].
    intros s r' s' g' _ Hput L Hinv Hswf Hin.
    destruct (put_locked_spec sess p st e d n re s (sh c) L _ _ s' g' eq_refl Hl Ht Hinv Hswf Hin Hput)
      as (L' & ? & ? & ? & ? & _). by exists L'.
  - unfold SwitchContext. case_if; [done|]. destruct Hwf as [Hl HL]. by split.
  - destruct (with_shard _ _ _ _) as [r c'] eqn:H. eapply with_shard_wf; [exact Hwf| |exact H].
    intros s r' s' g' _. apply evict_path_shard_ok.
  - destruct (with_shard _ _ _ _) as [r c'] eqn:H. eapply with_shard_wf; [exact Hwf| |exact H].
    intros s r' s' g' _. apply evictShard_ok.
Qed.

Lemma reachable_wf c : reachable c → ra_wf c.
Proof.
  revert c. apply (rtc_ind_r ra_wf); [apply newReadAheadCache_wf|]. intros c1 c2 _ Hs Hwf. by eapply ra_step_wf.
Qed.

(** *** What a lookup finds *)

Lemma slice_truthful p start lo hi bs :
  truthful p start bs → 0 ≤ lo → lo ≤ hi → hi ≤ Z.of_nat (length bs) →
  ∃ src, slice lo hi bs = Some src ∧ Z.of_nat (length src) = hi - lo ∧ truthful p (start + lo) src.
Proof.
  intros Ht Hlo Hlh Hhi. unfold slice.
  assert ((0 <=? lo) && (lo <=? hi) && (hi <=? Z.of_nat (length bs)) = true) as -> by lia.
  eexists. split; [done|]. rewrite length_take, length_drop. split; [lia|].
  intros j x [Hj _]%lookup_take_Some. rewrite lookup_drop in Hj. apply Ht in Hj. rewrite Hj. f_equal. lia.
Qed.

Lemma truthful_app p start s1 s2 :
  truthful p start s1 → truthful p (start + Z.of_nat (length s1)) s2 → truthful p start (s1 ++ s2).
Proof.
  intros H1 H2 j x [Hj|[Hl Hj]]%lookup_app_Some; [by apply H1|].
  apply H2 in Hj. rewrite Hj. f_equal. lia.
Qed.

(** The bytes of a hit, whether from one chunk or from two. *)
Definition hit_bytes (h : hit) : option (list byte) :=
  match h with One src => Some src | Two s1 s2 => Some (s1 ++ s2) | _ => None end.

Lemma lookup_buf_ok c s p off b bs :
  ra_wf c → shards c !! shard_of p = Some s →
  lookup_buf s (sh c) (raChunkKey p off) = Some (b, bs) →
  Z.of_nat (length bs) = bsize b ∧ truthful p (b_start b) bs.
Proof.
  intros [_ (L & Hinv & _ & Hsh)] Hs. destruct (Hsh _ _ Hs) as [_ Hin]. unfold lookup_buf.
  rewrite Hin. destruct (L !! _) as [b0|] eqn:Hb; simpl; [|done].
  destruct (inv_chunk _ _ Hinv _ _ Hb) as (p' & bs' & Hx & Hm & Hl & Ht). rewrite Hm. simpl.
  intros [= <- <-]. injection Hx as Hsh' Hk. by apply raChunkKey_inj in Hk as [-> _].
Qed.

Lemma find_ok c s p off end_ h keys :
  ra_wf c → shards c !! shard_of p = Some s → off ≤ end_ → find p off end_ s (sh c) = (h, keys) →
  h = Miss ∨ ∃ bs, hit_bytes h = Some bs ∧ Z.of_nat (length bs) = end_ - off + 1 ∧ truthful p off bs.
Proof.
  intros Hwf Hs Hle. unfold find. pose proof (λ o b bs, lookup_buf_ok c s p o b bs Hwf Hs) as Hlk.
  destruct (lookup_buf s (sh c) (raChunkKey p off)) as [[b bs]|] eqn:Hb; [|intros [= <- _]; by left].
  destruct (Hlk _ _ _ Hb) as [Hl Ht]. unfold bsize in Hl.
  case_if; [|intros [= <- _]; by left]. zbool. case_if; zbool.
  - destruct (slice_truthful p (b_start b) (off - b_start b) (end_ - b_start b + 1) bs)
      as (src & -> & Hls & Hts); [done|lia..|]. intros [= <- _]. right. exists src.
    split_and!; [done|lia|]. by replace off with (b_start b + (off - b_start b)) by lia.
  - destruct (lookup_buf s (sh c) (raChunkKey p end_)) as [[b2 bs2]|] eqn:Hb2; [|intros [= <- _]; by left].
    destruct (Hlk _ _ _ Hb2) as [Hl2 Ht2]. unfold bsize in Hl2.
    case_if; [|intros [= <- _]; by left]. zbool.
    destruct (slice_truthful p (b_start b) (off - b_start b) (Z.of_nat (length bs)) bs)
      as (s1 & -> & Hls & Hts); [done|lia..|].
    destruct (slice_truthful p (b_start b2) 0 (end_ - b_start b2 + 1) bs2)
      as (s2 & -> & Hls2 & Hts2); [done|lia..|].
    intros [= <- _]. right. exists (s1 ++ s2). rewrite length_app. split_and!; [done|lia|].
    apply truthful_app; [by replace off with (b_start b + (off - b_start b)) by lia|].
    by replace (off + Z.of_nat (length s1)) with (b_start b2 + 0) by lia.
Qed.

(** Copying two sources one after the other is copying their concatenation. *)
Lemma copy_two s1 s2 (dst : list byte) :
  let '(n1, d1) := copy_at 0 s1 dst in
  let '(n2, d2) := copy_at n1 s2 d1 in
  let n := (length (s1 ++ s2) `min` length dst)%nat in
  (n1 + n2)%nat = n ∧ d2 = take n (s1 ++ s2) ++ drop n dst.
Proof.
  unfold copy_at. simpl. rewrite Nat.sub_0_r, !length_app, length_take, length_drop.
  set (n1 := (length s1 `min` length dst)%nat).
  replace (n1 `min` length s1 + (length dst - n1))%nat with (length dst) by lia.
  split; [lia|]. rewrite take_app_le by (rewrite length_take; lia). rewrite take_take.
  rewrite drop_app, length_take, drop_drop.
  destruct (decide (length s1 ≤ length dst)%nat) as [Hle|Hgt].
  - replace n1 with (length s1) by lia. rewrite (take_ge s1) by lia.
    rewrite (drop_ge (take _ s1)) by (rewrite length_take; lia).
    rewrite take_app, (take_ge s1) by lia. simpl.
    rewrite <- app_assoc. f_equal. f_equal; f_equal; lia.
  - replace n1 with (length dst) by lia. rewrite Nat.sub_diag, Nat.min_0_r, take_0. simpl.
    rewrite take_app_le by lia. rewrite (drop_ge (take _ s1)) by (rewrite length_take; lia).
    f_equal; [f_equal; lia|]. simpl. f_equal. lia.
Qed.

Lemma get_bytes_hit off end_ h bs :
  hit_bytes h = Some bs → Z.of_nat (length bs) = end_ - off + 1 →
  get_bytes off end_ h = Some (Some bs).
Proof.
  destruct h as [| |src|s1 s2]; cbn [hit_bytes get_bytes copy_bytes]; intros [= <-] Hl; [done|].
  pose proof (copy_two s1 s2 (replicate (Z.to_nat (end_ - off + 1)) Byte.x00)) as Hc.
  destruct (copy_at 0 s1 _) as [n1 d1]. destruct (copy_at n1 s2 d1) as [n2 d2].
  destruct Hc as [_ ->]. rewrite length_replicate. do 2 f_equal.
  rewrite take_ge, drop_ge, app_nil_r; [done|rewrite ?length_replicate; lia..].
Qed.

Lemma copy_bytes_hit dest h bs :
  hit_bytes h = Some bs → let n := (length bs `min` length dest)%nat in
  copy_bytes dest h = Some (Z.of_nat n, take n bs ++ drop n dest).
Proof.
  destruct h as [| |src|s1 s2]; cbn [hit_bytes get_bytes copy_bytes]; intros [= <-].
  - unfold copy_at. by rewrite Nat.sub_0_r.
  - pose proof (copy_two s1 s2 dest) as Hc.
    destruct (copy_at 0 s1 dest) as [n1 d1]. destruct (copy_at n1 s2 d1) as [n2 d2].
    destruct Hc as [<- ->]. do 2 f_equal. lia.
Qed.

(** *** Sweeps over the shards *)

Definition lookup_chunk (p : string) (off : Z) (c : ReadAheadCache) : option RaBuffer :=
  s ← shards c !! shard_of p; buffers s !! raChunkKey p off.

Lemma shard_of_lt p : (shard_of p < 32)%nat.
Proof.
  unfold shard_of, shardMask. change 31 with (Z.ones 5). rewrite Z.land_ones by lia.
  pose proof (Z.mod_pos_bound (sum64 p) (2 ^ 5)). lia.
Qed.

Lemma with_shard_buffers {R} i (dflt : R) f c s j :
  shards c !! i = Some s →
  buffers <$> shards (with_shard i dflt f c).2 !! j =
  if decide (j = i) then Some (buffers (f s (sh c)).1.2) else buffers <$> shards c !! j.
Proof.
  intros Hs. unfold with_shard. rewrite Hs. destruct (f s (sh c)) as [[r s'] g']. simpl.
  pose proof (lookup_lt_Some _ _ _ Hs). case_decide; subst.
  - by rewrite list_lookup_insert_eq by done.
  - by rewrite list_lookup_insert_ne by done.
Qed.

Lemma with_shard_len {R} i (dflt : R) f c : length (shards (with_shard i dflt f c).2) = length (shards c).
Proof.
  unfold with_shard. destruct (shards c !! i) as [s|]; [|done].
  destruct (f s (sh c)) as [[r s'] g']. simpl. by rewrite length_insert.
Qed.

(** A sweep that acts on the map of each shard it visits by [F], in every state
    of a class [Q] that the visits preserve. *)
Lemma sweep_buffers (Q : ReadAheadCache → Prop) (f : raShard → shared → unit * raShard * shared)
    (F : gmap string RaBuffer → gmap string RaBuffer) (skip : nat → bool) (is_ : list nat) c :
  (∀ c i, Q c → Q (with_shard i tt f c).2) →
  (∀ c i s, Q c → shards c !! i = Some s → buffers (f s (sh c)).1.2 = F (buffers s)) →
  Q c → NoDup is_ → (∀ i, i ∈ is_ → (i < length (shards c))%nat) →
  ∀ j, buffers <$> shards (foldl (λ c i, if skip i then c else (with_shard i tt f c).2) c is_) !! j =
       if decide (j ∈ is_ ∧ skip j = false) then F <$> (buffers <$> shards c !! j)
       else buffers <$> shards c !! j.
Proof.
  intros HQ Hf. revert c. induction is_ as [|i is_ IH]; intros c Hc Hnd Hlt j; simpl.
  { done. }
  apply NoDup_cons in Hnd as [Hni Hnd].
  assert (∀ i', i' ∈ is_ → (i' < length (shards c))%nat) as Hlt' by (intros; apply Hlt; by right).
  assert (j ≠ i ∨ skip i = true →
    j ∈ is_ ∧ skip j = false ↔ j ∈ i :: is_ ∧ skip j = false) as Hext.
  { intros Hj. rewrite elem_of_cons. split; [tauto|]. intros [[->|?] ?]; [|tauto].
    destruct Hj; congruence. }
  destruct (skip i) eqn:Hsk.
  { rewrite IH by done. apply decide_ext, Hext. by right. }
  destruct (lookup_lt_is_Some_2 (shards c) i) as [s Hs]; [apply Hlt; by left|].
  rewrite IH; [|by apply HQ|done|by rewrite with_shard_len].
  rewrite !(with_shard_buffers _ _ _ _ s) by done. rewrite (Hf c i s) by done.
  destruct (decide (j = i)) as [->|Hne].
  - rewrite decide_False by tauto.
    rewrite (decide_True (P := i ∈ i :: is_ ∧ _)) by (split; [by left|done]). by rewrite Hs.
  - apply decide_ext, Hext. by left.
Qed.

Lemma evict_path_shard_buffers path s g :
  buffers (evict_path_shard path s g).1.2 =
  filter (λ kb : string * RaBuffer, HasPrefix kb.1 (path +:+ ":") = false) (buffers s).
Proof.
  unfold evict_path_shard. simpl. case_if; zbool; [|done].
  symmetry. apply map_filter_id. intros k b Hk. destruct (HasPrefix k (path +:+ ":")) eqn:Hp; [|done].
  assert (filter (λ kb : string * RaBuffer, HasPrefix kb.1 (path +:+ ":") = true) (buffers s) !! k = Some b)
    as Habs by by apply map_lookup_filter_Some.
  rewrite Hif in Habs. done.
Qed.

Lemma evict_keys_buffers ap sid now keys s g k :
  NoDup keys →
  buffers (evict_keys ap sid now keys s g).1 !! k =
  if decide (k ∈ keys) then (b ← buffers s !! k; if keeps ap sid now k b then Some b else None)
  else buffers s !! k.
Proof.
  revert s g. induction keys as [|k0 keys IH]; intros s g Hnd; [done|].
  apply NoDup_cons in Hnd as [Hk0 Hnd]. cbn [evict_keys].
  destruct (decide (k = k0)) as [->|Hne].
  - rewrite (decide_True (P := k0 ∈ k0 :: keys)) by set_solver.
    destruct (buffers s !! k0) as [b|] eqn:Hb; simpl;
      [destruct (keeps ap sid now k0 b)|]; rewrite IH, decide_False by done; simpl;
      rewrite ?Hb, ?lookup_delete_eq; done.
  - rewrite (decide_ext _ (k ∈ keys)) by (rewrite elem_of_cons; tauto).
    destruct (buffers s !! k0) as [b|] eqn:Hb; simpl; [destruct (keeps ap sid now k0 b)|];
      rewrite IH by done; simpl; rewrite ?lookup_delete_ne by done; done.
Qed.

Lemma evictShard_buffers ap sid now s g :
  shard_wf s →
  buffers (evictShard ap sid now s g).1.2 =
  filter (λ kb : string * RaBuffer, keeps ap sid now kb.1 kb.2 = true) (buffers s).
Proof.
  intros Hwf. unfold evictShard. destruct (evict_keys _ _ _ _ _ _) as [s' g'] eqn:Hev. simpl.
  apply map_eq. intros k. change s' with (s', g').1. rewrite <- Hev.
  rewrite evict_keys_buffers, map_lookup_filter by apply Hwf. simpl.
  rewrite (decide_ext _ (is_Some (buffers s !! k))) by apply Hwf.
  destruct (buffers s !! k) as [b|]; simpl; [|done].
  by destruct (keeps ap sid now k b).
Qed.

(** What [Get] and [CopyTo] answer in a well-formed cache. *)
Lemma Get_wf c p off end_ now :
  ra_wf c → off ≤ end_ →
  (Get p off end_ now c).1 = Some None ∨
  ∃ bs, (Get p off end_ now c).1 = Some (Some bs) ∧ Z.of_nat (length bs) = end_ - off + 1 ∧ truthful p off bs.
Proof.
  intros Hwf Hle. unfold Get, with_shard.
  destruct (lookup_lt_is_Some_2 (shards c) (shard_of p)) as [s Hs].
  { rewrite (rw_len _ Hwf). apply shard_of_lt. }
  rewrite Hs. destruct (find p off end_ s (sh c)) as [h keys] eqn:Hf. cbn [fst].
  destruct (find_ok _ _ _ _ _ _ _ Hwf Hs Hle Hf) as [->|(bs & Hh & Hl & Ht)]; [by left|].
  right. exists bs. by rewrite (get_bytes_hit _ _ _ bs).
Qed.

Lemma CopyTo_wf c p off end_ now dest :
  ra_wf c → off ≤ end_ →
  (CopyTo p off end_ now dest c).1 = Some (0, dest) ∨
  ∃ bs, let n := (length bs `min` length dest)%nat in
        (CopyTo p off end_ now dest c).1 = Some (Z.of_nat n, take n bs ++ drop n dest) ∧
        Z.of_nat (length bs) = end_ - off + 1 ∧ truthful p off bs.
Proof.
  intros Hwf Hle. unfold CopyTo, with_shard.
  destruct (lookup_lt_is_Some_2 (shards c) (shard_of p)) as [s Hs].
  { rewrite (rw_len _ Hwf). apply shard_of_lt. }
  rewrite Hs. destruct (find p off end_ s (sh c)) as [h keys] eqn:Hf. cbn [fst].
  destruct (find_ok _ _ _ _ _ _ _ Hwf Hs Hle Hf) as [->|(bs & Hh & Hl & Ht)]; [by left|].
  right. exists bs. by rewrite (copy_bytes_hit _ _ bs).
Qed.

(** *** Properties *)

(** C2: In every state the cache can reach, under any interleaving of the
    critical sections, [Get] never slices out of range and either misses or
    returns exactly the requested bytes of the file: recycling a buffer never
    corrupts a chunk that is still served. *)
Theorem Get_serves_file_bytes c p off end_ now :
  reachable c → off ≤ end_ →
  (Get p off end_ now c).1 = Some None ∨
  ∃ bs, (Get p off end_ now c).1 = Some (Some bs) ∧ Z.of_nat (length bs) = end_ - off + 1 ∧
        ∀ j x, bs !! j = Some x → x = content p (off + Z.of_nat j).
Proof. intros Hwf%reachable_wf Hle. by apply Get_wf. Qed.

(** [CopyTo] is [Get] without the allocation: on a miss it reports 0 and
    leaves the destination alone, on a hit it writes the first bytes that
    [Get] would return, as many as fit, keeps the rest of the destination, and
    both leave the cache in the same state. *)
Theorem CopyTo_agrees_with_Get c p off end_ now dest :
  reachable c → off ≤ end_ →
  (CopyTo p off end_ now dest c).2 = (Get p off end_ now c).2 ∧
  (CopyTo p off end_ now dest c).1 =
    match (Get p off end_ now c).1 with
    | Some (Some bs) => let n := (length bs `min` length dest)%nat in
                        Some (Z.of_nat n, take n bs ++ drop n dest)
    | Some None => Some (0, dest)
    | None => None
    end.
Proof.
  intros Hwf%reachable_wf Hle. unfold Get, CopyTo, with_shard.
  destruct (lookup_lt_is_Some_2 (shards c) (shard_of p)) as [s Hs].
  { rewrite (rw_len _ Hwf). apply shard_of_lt. }
  rewrite Hs. destruct (find p off end_ s (sh c)) as [h keys] eqn:Hf. cbn [fst snd].
  destruct (find_ok _ _ _ _ _ _ _ Hwf Hs Hle Hf) as [->|(bs & Hh & Hl & Ht)]; [done|].
  by rewrite (get_bytes_hit _ _ _ bs), (copy_bytes_hit _ _ bs).
Qed.

(** C13: In every reachable state the shared counter that the budget is compared
    with is the number of bytes of all cached chunks and the sum of the shards'
    totals, each shard's order lists its keys once, two cached chunks never
    share a buffer, and no cached buffer is in the pool of free ones. *)
Theorem ra_accounting_and_ownership c :
  reachable c →
  used (sh c) = Zsum ((λ s, map_sum (λ b, len_of (b_data b) (sh c)) (buffers s)) <$> shards c) ∧
  used (sh c) = Zsum (total <$> shards c) ∧
  (∀ i s, shards c !! i = Some s → NoDup (order s) ∧ ∀ k, k ∈ order s ↔ is_Some (buffers s !! k)) ∧
  (∀ i s k b, shards c !! i = Some s → buffers s !! k = Some b → b_data b ∉ pool (sh c) ∧
     ∀ j t k' b', shards c !! j = Some t → buffers t !! k' = Some b' → b_data b = b_data b' →
       i = j ∧ k = k').
Proof.
  intros [Hlen (L & Hinv & Hdom & Hsh)]%reachable_wf.
  assert (used (sh c) = Zsum (total <$> shards c)) as Htot.
  { rewrite (inv_used _ _ Hinv), (map_sum_parts bsize L (buffers <$> shards c)).
    - rewrite <- list_fmap_compose. f_equal. apply list_fmap_ext. intros i s Hs.
      symmetry. apply sw_total, (Hsh i s Hs).
    - intros i k Hi. rewrite length_fmap, Hlen. eauto.
    - intros i m Hm k. rewrite list_lookup_fmap_Some in Hm. destruct Hm as (s & -> & Hs).
      apply (Hsh i s Hs). }
  split_and!; [|done| |].
  - rewrite Htot. f_equal. apply list_fmap_ext. intros i s Hs. destruct (Hsh i s Hs) as [Hwf Hin].
    rewrite (sw_total _ Hwf). apply map_sum_ext. intros k b Hk. symmetry.
    rewrite Hin in Hk. eapply chunk_ok_len, (inv_chunk _ _ Hinv), Hk.
  - intros i s Hs. destruct (Hsh i s Hs) as [[] _]. done.
  - intros i s k b Hs Hk. destruct (Hsh i s Hs) as [_ Hin]. rewrite Hin in Hk.
    split; [by eapply (inv_pool _ _ Hinv)|]. intros j t k' b' Ht Hk' Hd.
    destruct (Hsh j t Ht) as [_ Hin']. rewrite Hin' in Hk'.
    by pose proof (inv_own _ _ Hinv _ _ _ _ Hk Hk' Hd) as [= -> ->].
Qed.

(** A chunk that [Put] stores is at once served by [Get] for every
    sub-range whose first byte lies in the chunk's slot, the cache is back
    within its budget unless the chunk is the only one left in its shard, and
    it is exactly in the latter case, over budget, that the global eviction is
    started. *)
Theorem Put_then_Get c p start end_ d now resp off e now' :
  reachable c → Z.of_nat (length d) = end_ - start + 1 →
  (∀ j x, d !! j = Some x → x = content p (start + Z.of_nat j)) →
  start ≤ off → off ≤ e → e ≤ end_ → off /t chunkSize = start /t chunkSize →
  let '(trigger, c') := Put p start end_ d now resp c in
  (Get p off e now' c').1 = Some (Some (take (Z.to_nat (e - off + 1)) (drop (Z.to_nat (off - start)) d))) ∧
  (used (sh c') ≤ globalLimit ∨
   order <$> shards c' !! shard_of p = Some [raChunkKey p start] ∧ trigger = true) ∧
  (trigger = true → globalLimit < used (sh c')).
Proof.
  intros Hwf%reachable_wf Hl Ht Hso Hoe Hee Hslot. unfold Put, Get, with_shard.
  destruct (lookup_lt_is_Some_2 (shards c) (shard_of p)) as [s Hs].
  { rewrite (rw_len _ Hwf). apply shard_of_lt. }
  pose proof (lookup_lt_Some _ _ _ Hs) as Hlt.
  rewrite Hs. destruct (put_locked _ _ _ _ _ _ _ _ _) as [[tr s'] g'] eqn:Hput. simpl.
  rewrite list_lookup_insert_eq by done. simpl.
  pose proof (rw_live _ Hwf) as (L & Hinv & _ & Hsh). destruct (Hsh _ _ Hs) as [Hswf Hin].
  destruct (put_locked_spec _ p start end_ d now resp s (sh c) L _ tr s' g' eq_refl Hl Ht Hinv Hswf Hin Hput)
    as (L' & _ & _ & _ & _ & (id & Hb & Hm) & Hbud & Htr).
  split_and!.
  - unfold find, lookup_buf. replace (raChunkKey p off) with (raChunkKey p start)
      by (unfold raChunkKey; by rewrite Hslot).
    rewrite Hb. simpl. rewrite Hm. simpl.
    assert ((start <=? off) && (off <=? end_) = true) as -> by lia.
    assert ((e <=? end_) = true) as -> by lia. unfold slice.
    assert ((0 <=? off - start) && (off - start <=? e - start + 1) &&
      (e - start + 1 <=? Z.of_nat (length d)) = true) as -> by lia.
    simpl. do 3 f_equal. lia.
  - rewrite Htr. destruct (Z.ltb_spec globalLimit (used g')); [right|left; lia].
    destruct Hbud as [|Ho]; [lia|]. by rewrite Ho.
  - rewrite Htr. intros ?. zbool. done.
Qed.

(** [EvictPath] removes from the cache exactly the chunks whose key begins
    with the path and a colon, in whichever shard they lie, and no other. *)
Theorem EvictPath_exact c path p off :
  length (shards c) = 32%nat →
  lookup_chunk p off (EvictPath path c) =
  if HasPrefix (raChunkKey p off) (path +:+ ":") then None else lookup_chunk p off c.
Proof.
  intros Hlen. unfold lookup_chunk, EvictPath.
  assert (∀ i, i ∈ seq 0 32 ↔ (i < 32)%nat) as Hseq by (intros; rewrite elem_of_seq; lia).
  pose proof (NoDup_seq 0 32) as Hnd. revert Hseq Hnd. generalize (seq 0 32). intros is_ Hseq Hnd.
  pose proof (sweep_buffers (λ c, True) (evict_path_shard path) _ (λ _, false) is_ c
    (λ _ _ _, I) (λ _ _ _ _ _, evict_path_shard_buffers path _ _) I Hnd) as Hsw.
  rewrite Hlen in Hsw. specialize (Hsw (λ i, proj1 (Hseq i)) (shard_of p)).
  rewrite decide_True in Hsw by (rewrite Hseq; pose proof (shard_of_lt p); auto).
  destruct (shards c !! shard_of p) as [s|] eqn:Hs; cbn [fmap option_fmap option_map] in Hsw.
  - apply fmap_Some in Hsw as (s' & Hs' & Hb). rewrite Hs'. cbn [mbind option_bind]. rewrite <- Hb, map_lookup_filter.
    destruct (buffers s !! _) as [b|]; simpl; [|by case_if].
    by destruct (HasPrefix _ _).
  - apply fmap_None in Hsw. rewrite Hsw. cbn [mbind option_bind]. by case_if.
Qed.

(** A global eviction does nothing while another one runs; otherwise it visits the shards whose lock is free (the first one
    when none is) and removes there exactly the chunks that are neither of the
    active path nor of the current session, and those not read within their
    time limit; a chunk of the file being played that was read in the last
    minute always stays. *)
Theorem triggerGlobalEviction_exact c isEvicting ap sid now busy p off :
  reachable c →
  lookup_chunk p off (triggerGlobalEviction isEvicting ap sid now busy c) =
  b ← lookup_chunk p off c;
  if negb isEvicting && (if forallb busy (seq 0 32) then (shard_of p =? 0)%nat else negb (busy (shard_of p)))
     && negb (keeps ap sid now (raChunkKey p off) b)
  then None else Some b.
Proof.
  intros Hwf%reachable_wf. unfold triggerGlobalEviction. destruct isEvicting.
  { simpl. by destruct (lookup_chunk p off c). }
  rewrite andb_true_l. unfold lookup_chunk.
  assert (∀ c i, ra_wf c → ra_wf (with_shard i tt (evictShard ap sid now) c).2) as HQ.
  { intros c0 i Hc0. eapply ra_step_wf; [done|]. apply step_Evict. }
  assert (∀ c i s, ra_wf c → shards c !! i = Some s → buffers (evictShard ap sid now s (sh c)).1.2 =
    filter (λ kb : string * RaBuffer, keeps ap sid now kb.1 kb.2 = true) (buffers s)) as HF.
  { intros c0 i s [_ (L & _ & _ & Hsh)] Hs. apply evictShard_buffers, (Hsh i s Hs). }
  set (all := forallb busy (seq 0 32)).
  assert (∃ (is_ : list nat) (skip : nat → bool), (if all then (with_shard 0 tt (evictShard ap sid now) c).2
    else foldl (λ c i, if busy i then c else (with_shard i tt (evictShard ap sid now) c).2) c (seq 0 32)) =
    foldl (λ c i, if skip i then c else (with_shard i tt (evictShard ap sid now) c).2) c is_ ∧
    NoDup is_ ∧ (∀ i, i ∈ is_ → (i < 32)%nat) ∧
    (shard_of p ∈ is_ ∧ skip (shard_of p) = false ↔
     (if all then (shard_of p =? 0)%nat else negb (busy (shard_of p))) = true))
    as (is_ & skip & -> & Hnd & Hlt & Hvis).
  { destruct all.
    - exists [0%nat], (λ _, false). split_and!; [done|apply NoDup_singleton|set_solver by lia|].
      rewrite list_elem_of_singleton, Nat.eqb_eq. tauto.
    - exists (seq 0 32), busy. split_and!; [done|apply NoDup_seq|intros i; rewrite elem_of_seq; lia|].
      rewrite elem_of_seq, negb_true_iff. pose proof (shard_of_lt p).
      split; [tauto|]. intros; split; [lia|done]. }
  pose proof (sweep_buffers ra_wf _ _ skip is_ c HQ HF Hwf Hnd) as Hsw.
  rewrite (rw_len _ Hwf) in Hsw. specialize (Hsw Hlt (shard_of p)).
  rewrite (decide_ext _ _ _ _ Hvis) in Hsw.
  destruct (shards c !! shard_of p) as [s|] eqn:Hs; cbn [fmap option_fmap option_map] in Hsw.
  - set (v := if all then _ else _) in *.
    assert (buffers <$> shards (foldl (λ c i, if skip i then c else
      (with_shard i tt (evictShard ap sid now) c).2) c is_) !! shard_of p = Some (if v then
        filter (λ kb : string * RaBuffer, keeps ap sid now kb.1 kb.2 = true) (buffers s) else buffers s))
      as (s' & Hs' & Hb)%fmap_Some by (rewrite Hsw; by destruct v).
    rewrite Hs'. cbn [mbind option_bind]. rewrite <- Hb. destruct v; simpl.
    + rewrite map_lookup_filter. destruct (buffers s !! _) as [b|]; simpl; [|done].
      by destruct (keeps _ _ _ _ _).
    + by destruct (buffers s !! _).
  - destruct (decide _); apply fmap_None in Hsw; by rewrite Hsw.
Qed.
End racache.





(** *** Witnesses *)

(** A run with chunks of four bytes and a budget of six: the second chunk
    evicts the first, whose buffer is recycled for the third. *)
Module Run.
Definition sum (s : string) : Z := Z.of_nat (String.length s).
Definition file (p : string) (o : Z) : byte := if Z.even o then Byte.x01 else Byte.x02.
Definition data : list byte := [Byte.x01; Byte.x02; Byte.x01; Byte.x02].
Definition put (start now : Z) (c : ReadAheadCache) : ReadAheadCache :=
  (with_shard (shard_of sum "a") false
    (put_locked 4 6 (put_session "a" c) "a" start (start + 3) data now false) c).2.
Definition c1 : ReadAheadCache := put 0 1 newReadAheadCache.
Definition c3 : ReadAheadCache := put 8 3 (put 4 2 c1).

Lemma data_truthful start : Z.even start = true → truthful file "a" start data.
Proof.
  intros He j x Hj. unfold file. rewrite Z.even_add, He.
  do 4 (destruct j as [|j]; [by injection Hj|]). done.
Qed.

Lemma reachable_put c start now :
  reachable sum 4 6 file c → Z.even start = true → reachable sum 4 6 file (put start now c).
Proof.
  intros Hr He. eapply rtc_r; [exact Hr|]. unfold put. apply step_Put; [simpl; lia|].
  by apply data_truthful.
Qed.

Lemma reachable_c1 : reachable sum 4 6 file c1.
Proof. apply reachable_put; [apply rtc_refl|done]. Qed.

Lemma reachable_c3 : reachable sum 4 6 file c3.
Proof. by apply reachable_put; [apply reachable_put; [apply reachable_c1|]|]. Qed.
End Run.

Lemma Get_serves_witness : ∃ bs, (Get Run.sum 4 "a" 9 10 5 Run.c3).1 = Some (Some bs).
Proof.
  destruct (Get_serves_file_bytes Run.sum 4 6 Run.file Run.c3 "a" 9 10 5 Run.reachable_c3)
    as [Habs|(bs & Hbs & _)]; [lia| |by exists bs].
  vm_compute in Habs. discriminate.
Defined.

Lemma CopyTo_agrees_witness :
  (CopyTo Run.sum 4 "a" 9 10 5 [Byte.x00] Run.c3).1 = Some (1, [Byte.x02]).
Proof.
  destruct (CopyTo_agrees_with_Get Run.sum 4 6 Run.file Run.c3 "a" 9 10 5 [Byte.x00] Run.reachable_c3)
    as [_ ->]; [lia|]. vm_compute. reflexivity.
Defined.

Lemma ra_accounting_witness : used (sh Run.c3) = Zsum (total <$> shards Run.c3).
Proof.
  destruct (ra_accounting_and_ownership Run.sum 4 6 Run.file Run.c3 Run.reachable_c3) as (_ & H & _).
  exact H.
Defined.

Lemma Put_then_Get_witness :
  (Get Run.sum 4 "a" 5 6 9 (Put Run.sum 4 6 "a" 4 7 Run.data 2 true Run.c1).2).1
  = Some (Some [Byte.x02; Byte.x01]).
Proof.
  pose proof (Put_then_Get Run.sum 4 6 Run.file Run.c1 "a" 4 7 Run.data 2 true 5 6 9
    Run.reachable_c1 eq_refl (Run.data_truthful 4 eq_refl)) as H.
  destruct (Put Run.sum 4 6 "a" 4 7 Run.data 2 true Run.c1) as [tr c'].
  destruct H as (H & _); [lia..|reflexivity|]. exact H.
Defined.

Lemma EvictPath_witness : lookup_chunk Run.sum 4 "a" 8 (EvictPath "a" Run.c3) = None.
Proof. rewrite (EvictPath_exact Run.sum 4 Run.c3 "a" "a" 8); reflexivity. Defined.

Lemma triggerGlobalEviction_witness :
  is_Some (lookup_chunk Run.sum 4 "a" 8 (triggerGlobalEviction 4 false "a" 1 5 (λ _, false) Run.c3)).
Proof.
  rewrite (triggerGlobalEviction_exact Run.sum 4 6 Run.file Run.c3 false "a" 1 5 (λ _, false) "a" 8
    Run.reachable_c3). vm_compute. eexists. reflexivity.
Defined.
