(* ===== verification/MemPiece.v ===== *)
(** * Piece buffers (torrstor/mempiece.go, torrstor/piece.go)

    The pieces of every torrent keep their bytes in buffers that come from one
    global [sync.Pool] and go back to it when a piece is released. As for the
    read-ahead cache, buffers have an identity, so that the model shows what
    happens when a buffer is handed on. [ReadAt] takes the piece's lock only to
    fetch the buffer and copies without it: it is two steps. *)

From S2P Require Import Prelude.

(** A piece is named by its cache and its number in it. *)
Abbreviation pid := (nat * Z)%type.

Abbreviation buf := nat.

Section mempiece.

(** The piece length of each torrent's cache. *)
Context (pieceLength : nat → Z).

(** ** Data *)

Record Piece := MkPiece {
  Size : Z;
  Complete : bool;
  Accessed : Z;
  buffer : option buf;
}.

Record MemState := MkMem {
  pieces : gmap pid Piece;
  memBufferPool : list buf;
  store : gmap buf (list byte);
  next_id : buf;
  cleanTrigger : gmap nat unit;
}.

Definition NewPiece : Piece := MkPiece 0 false 0 None.

Definition set_piece (id : pid) (p : Piece) (st : MemState) : MemState :=
  MkMem (<[id := p]> (pieces st)) (memBufferPool st) (store st) (next_id st) (cleanTrigger st).

(** The non-blocking send on the channel of one place. *)
Definition trigger (c : nat) (st : MemState) : MemState :=
  MkMem (pieces st) (memBufferPool st) (store st) (next_id st) (<[c := tt]> (cleanTrigger st)).

(** [sync.Pool.Get] returns any pooled item, or nil: [pick] says which. *)
Definition pool_get (pick : option nat) (st : MemState) : option buf * MemState :=
  match pick ≫= (λ i, memBufferPool st !! i) with
  | Some d => (Some d, MkMem (pieces st) (filter (λ x, x ≠ d) (memBufferPool st)) (store st)
                         (next_id st) (cleanTrigger st))
  | None => (None, st)
  end.

Definition make_buf (len : Z) (st : MemState) : buf * MemState :=
  (next_id st, MkMem (pieces st) (memBufferPool st)
     (<[next_id st := replicate (Z.to_nat len) Byte.x00]> (store st)) (S (next_id st)) (cleanTrigger st)).

Definition buf_len (d : buf) (st : MemState) : Z :=
  match store st !! d with Some bs => Z.of_nat (length bs) | None => 0 end.

(** The buffer of a piece that has none: from the pool when the length is that
    of the cache (dropped otherwise), else a new one. *)
Definition acquire (c : nat) (pick : option nat) (st : MemState) : buf * MemState :=
  let st := trigger c st in
  let '(pooled, st) := pool_get pick st in
  match pooled with
  | Some d => if buf_len d st =? pieceLength c then (d, st) else make_buf (pieceLength c) st
  | None => make_buf (pieceLength c) st
  end.

(** ** Operations *)

(** [WriteAt]: the number of bytes copied; [None] when [p.buffer[off:]] panics. *)
Definition WriteAt (id : pid) (b : list byte) (off now : Z) (pick : option nat) (st : MemState)
    : option (Z * MemState) :=
  p ← pieces st !! id;
  let '(d, st) := match buffer p with Some d => (d, st) | None => acquire id.1 pick st end in
  bs ← store st !! d;
  if (0 <=? off) && (off <=? Z.of_nat (length bs)) then
    let '(n, bs') := copy_at (Z.to_nat off) b bs in
    let size := Size p + Z.of_nat n in
    let size := if pieceLength id.1 <? size then pieceLength id.1 else size in
    Some (Z.of_nat n,
      MkMem (<[id := MkPiece size (Complete p) now (Some d)]> (pieces st)) (memBufferPool st)
        (<[d := bs']> (store st)) (next_id st) (cleanTrigger st))
  else None.

(** The first step of [ReadAt]: the buffer, under the lock. *)
Definition ReadAt_snapshot (id : pid) (st : MemState) : option (option buf) :=
  p ← pieces st !! id; Some (buffer p).

Definition mark_incomplete (id : pid) (st : MemState) : MemState :=
  match pieces st !! id with
  | Some p => set_piece id (MkPiece (Size p) false (Accessed p) (buffer p)) st
  | None => st
  end.

(** The result of a read: the count, whether the error is [io.EOF], and the
    destination. *)
Record ReadResult := MkRead { r_n : Z; r_eof : bool; r_dest : list byte }.

(** The second step, without the lock. *)
Definition ReadAt_copy (id : pid) (d : option buf) (dest : list byte) (off now : Z) (st : MemState)
    : option (ReadResult * MemState) :=
  p ← pieces st !! id;
  match d ≫= (λ d, store st !! d) with
  | None => Some (MkRead 0 true dest, mark_incomplete id st)
  | Some bs =>
      let len := Z.of_nat (length bs) in
      if len <=? off then Some (MkRead 0 true dest, mark_incomplete id st)
      else
        let size := Z.of_nat (length dest) in
        let size := if len <? size + off
                    then let s := len - off in if s <? 0 then 0 else s else size in
        if len <? off + size then Some (MkRead 0 true dest, mark_incomplete id st)
        else
          src ← slice off (off + size) bs;
          let '(n, dest') := copy_at 0 src dest in
          let st := set_piece id (MkPiece (Size p) (Complete p) now (buffer p)) st in
          let st := if Size p <=? Z.of_nat (length dest) + off then trigger id.1 st else st in
          if (n =? 0)%nat then Some (MkRead 0 true dest', mark_incomplete id st)
          else Some (MkRead (Z.of_nat n) false dest', st)
  end.

Definition ReadAt (id : pid) (dest : list byte) (off now : Z) (st : MemState)
    : option (ReadResult * MemState) :=
  d ← ReadAt_snapshot id st; ReadAt_copy id d dest off now st.

Definition Release (id : pid) (st : MemState) : MemState :=
  match pieces st !! id with
  | Some p =>
      let pool := match buffer p with
                  | Some d => memBufferPool st ++ [d]
                  | None => memBufferPool st
                  end in
      MkMem (<[id := MkPiece 0 false (Accessed p) None]> (pieces st)) pool (store st) (next_id st)
        (cleanTrigger st)
  | None => st
  end.

Definition MarkComplete (id : pid) (st : MemState) : MemState :=
  match pieces st !! id with
  | Some p => set_piece id (MkPiece (Size p) true (Accessed p) (buffer p)) st
  | None => st
  end.

Definition Completion (id : pid) (st : MemState) : option bool := Complete <$> pieces st !! id.

(** ** Specification: the bytes written to a piece since its last release *)

Definition written := pid → nat → option byte.

Definition spec_write (id : pid) (off n : nat) (b : list byte) (w : written) : written :=
  λ id' j, if decide (id' = id ∧ (off ≤ j < off + n)%nat) then b !! (j - off)%nat else w id' j.

Definition spec_release (id : pid) (w : written) : written :=
  λ id' j, if decide (id' = id) then None else w id' j.

(** The steps of the buffers and of their specification side by side. The copy
    of a read may use whatever buffer its snapshot gave; a cache that opens adds
    pieces, one that closes drops them. *)
Inductive mem_step : written * MemState → written * MemState → Prop :=
| step_Write id b off now pick w st n st' :
    WriteAt id b off now pick st = Some (n, st') →
    mem_step (w, st) (spec_write id (Z.to_nat off) (Z.to_nat n) b w, st')
| step_Copy id d dest off now w st r st' :
    ReadAt_copy id d dest off now st = Some (r, st') → mem_step (w, st) (w, st')
| step_Release id w st : mem_step (w, st) (spec_release id w, Release id st)
| step_MarkComplete id w st : mem_step (w, st) (w, MarkComplete id st)
| step_MarkNot id w st : mem_step (w, st) (w, mark_incomplete id st)
| step_Open id w st : pieces st !! id = None → mem_step (w, st) (w, set_piece id NewPiece st)
| step_Close id w st : mem_step (w, st) (spec_release id w,
    MkMem (delete id (pieces st)) (memBufferPool st) (store st) (next_id st) (cleanTrigger st)).

Definition mem_init : written * MemState := (λ _ _, None, MkMem ∅ [] ∅ 0%nat ∅).

Definition mem_reachable (ws : written * MemState) : Prop := rtc mem_step mem_init ws.

(** ** The invariant *)

Context (pieceLength_nonneg : ∀ c, 0 ≤ pieceLength c).

(** What holds of a piece: its buffer, if any, is in the store with the length
    of a piece, and the size is within it. *)
Definition piece_ok (id : pid) (p : Piece) (st : MemState) : Prop :=
  0 ≤ Size p ≤ pieceLength id.1 ∧
  match buffer p with
  | Some d => d ∉ memBufferPool st ∧
              ∃ bs, store st !! d = Some bs ∧ Z.of_nat (length bs) = pieceLength id.1
  | None => Size p = 0
  end.

Record mem_inv (w : written) (st : MemState) : Prop := {
  mi_pool : NoDup (memBufferPool st);
  mi_pool_store d : d ∈ memBufferPool st → is_Some (store st !! d);
  mi_fresh d : is_Some (store st !! d) → (d < next_id st)%nat;
  mi_piece id p : pieces st !! id = Some p → piece_ok id p st;
  mi_own id1 id2 p1 p2 d : pieces st !! id1 = Some p1 → pieces st !! id2 = Some p2 →
    buffer p1 = Some d → buffer p2 = Some d → id1 = id2;
  mi_written id j x : w id j = Some x →
    ∃ p d bs, pieces st !! id = Some p ∧ buffer p = Some d ∧ store st !! d = Some bs ∧ bs !! j = Some x;
}.

(** An update of one piece that leaves its buffer alone. *)
Lemma update_inv w st id p p' ct :
  mem_inv w st → pieces st !! id = Some p → buffer p' = buffer p → Size p' = Size p →
  mem_inv w (MkMem (<[id := p']> (pieces st)) (memBufferPool st) (store st) (next_id st) ct).
Proof.
  intros [] Hp Hb Hs.
  assert (∀ id' q, <[id := p']> (pieces st) !! id' = Some q →
    ∃ q0, pieces st !! id' = Some q0 ∧ buffer q = buffer q0 ∧ Size q = Size q0) as Hup.
  { intros id' q. rewrite lookup_insert. case_decide; intros; simplify_eq; eauto. }
  split; simpl; auto.
  - intros id' q (q0 & Hq & Hqb & Hqs)%Hup. specialize (mi_piece0 _ _ Hq). unfold piece_ok in *.
    by rewrite Hqb, Hqs.
  - intros i1 i2 q1 q2 d (r1 & ? & H1 & _)%Hup (r2 & ? & H2 & _)%Hup ??.
    apply (mi_own0 i1 i2 r1 r2 d); congruence.
  - intros id' j x (q & d & bs & Hq & Hqb & ? & ?)%mi_written0.
    destruct (decide (id = id')) as [<-|Hne].
    + exists p', d, bs. rewrite lookup_insert_eq. split_and!; auto; congruence.
    + exists q, d, bs. rewrite lookup_insert_ne by done. auto.
Qed.

Lemma trigger_inv w st c : mem_inv w st → mem_inv w (trigger c st).
Proof. intros []. by split. Qed.

(** The buffer a write uses belongs to nobody else, is in the store with the
    right length, and the other parts of the state keep the invariant. *)
Lemma make_buf_inv w st len d st' :
  mem_inv w st → make_buf len st = (d, st') →
  mem_inv w st' ∧ pieces st' = pieces st ∧ d ∉ memBufferPool st' ∧
  (∀ id p, pieces st !! id = Some p → buffer p ≠ Some d) ∧
  store st' !! d = Some (replicate (Z.to_nat len) Byte.x00).
Proof.
  intros Hinv [= <- <-]. destruct Hinv. simpl.
  assert (∀ d, is_Some (store st !! d) → d ≠ next_id st) as Hne
    by (intros d ?%mi_fresh0; lia).
  split_and!; [split; simpl; auto|done| | |apply lookup_insert_eq].
  - intros d Hd. rewrite lookup_insert_is_Some'. auto.
  - intros d. rewrite lookup_insert_is_Some'. intros [<-|?%mi_fresh0]; lia.
  - intros id p Hp. destruct (mi_piece0 id p Hp) as [Hs Hb]. split; [done|].
    destruct (buffer p) as [d|]; [|done]. destruct Hb as (? & bs & Hbs & ?). split; [done|].
    exists bs. simpl. rewrite lookup_insert_ne; [done|]. by apply not_eq_sym, Hne; eexists.
  - intros id j x (p & d & bs & ? & ? & Hbs & ?)%mi_written0. exists p, d, bs.
    rewrite lookup_insert_ne; [done|]. by apply not_eq_sym, Hne; eexists.
  - intros Hin%mi_pool_store0. by apply Hne in Hin.
  - intros id p Hp Hb. destruct (mi_piece0 id p Hp) as [_ H]. rewrite Hb in H.
    destruct H as (_ & bs & Hbs & _). by eapply Hne; [eexists|].
Qed.

Lemma pool_get_inv w st pick o st' :
  mem_inv w st → pool_get pick st = (o, st') →
  mem_inv w st' ∧ pieces st' = pieces st ∧ store st' = store st ∧
  ∀ d, o = Some d → d ∉ memBufferPool st' ∧ is_Some (store st !! d) ∧
    (∀ id p, pieces st !! id = Some p → buffer p ≠ Some d).
Proof.
  intros Hinv. unfold pool_get. destruct (pick ≫= _) as [d|] eqn:Hd; intros [= <- <-]; [|by split_and!].
  assert (d ∈ memBufferPool st) as Hin.
  { destruct pick; [|done]. simpl in Hd. by eapply list_elem_of_lookup_2. }
  destruct Hinv. split_and!; try done; [split; simpl; auto|].
  - by apply NoDup_filter.
  - intros d' [_ ?]%list_elem_of_filter. auto.
  - intros id p Hp. destruct (mi_piece0 id p Hp) as [Hs Hb]. split; [done|].
    destruct (buffer p); [|done]. destruct Hb as [? Hb]. split; [|done]. simpl.
    rewrite list_elem_of_filter. tauto.
  - intros d' [= <-]. simpl. split_and!; [|by apply mi_pool_store0|].
    + rewrite list_elem_of_filter. tauto.
    + intros id p Hp Hb. destruct (mi_piece0 id p Hp) as [_ H]. rewrite Hb in H. by destruct H.
Qed.

Lemma acquire_inv w st c pick d st' :
  mem_inv w st → acquire c pick st = (d, st') →
  mem_inv w st' ∧ pieces st' = pieces st ∧ d ∉ memBufferPool st' ∧
  (∀ id p, pieces st !! id = Some p → buffer p ≠ Some d) ∧
  ∃ bs, store st' !! d = Some bs ∧ Z.of_nat (length bs) = pieceLength c.
Proof.
  intros Hinv%(trigger_inv _ _ c). unfold acquire.
  destruct (pool_get pick (trigger c st)) as [o st1] eqn:Hg.
  destruct (pool_get_inv _ _ _ _ _ Hinv Hg) as (Hinv1 & Hp1 & Hs1 & Ho).
  assert (∀ d st', make_buf (pieceLength c) st1 = (d, st') →
    mem_inv w st' ∧ pieces st' = pieces st ∧ d ∉ memBufferPool st' ∧
    (∀ id p, pieces st !! id = Some p → buffer p ≠ Some d) ∧
    ∃ bs, store st' !! d = Some bs ∧ Z.of_nat (length bs) = pieceLength c) as Hmake.
  { intros d' st2 Hm. destruct (make_buf_inv _ _ _ _ _ Hinv1 Hm) as (? & Hp2 & ? & Hown & Hs2).
    rewrite Hp1 in Hp2, Hown. split_and!; auto. eexists. split; [exact Hs2|].
    rewrite length_replicate. specialize (pieceLength_nonneg c). lia. }
  destruct o as [d0|]; [|by apply Hmake]. case_if; [|by apply Hmake].
  intros [= <- <-]. destruct (Ho d0 eq_refl) as (? & [bs Hbs] & Hown). rewrite Hp1.
  split_and!; auto. exists bs. rewrite Hs1. split; [done|]. zbool. unfold buf_len in *.
  by rewrite Hs1, Hbs in *.
Qed.

(** Writing into the buffer that the piece owns or has just acquired. *)
Lemma write_buf_inv w st id p d bs b off n bs' sz now :
  mem_inv w st → pieces st !! id = Some p → (buffer p = None ∨ buffer p = Some d) →
  d ∉ memBufferPool st → (∀ id' p', pieces st !! id' = Some p' → buffer p' = Some d → id' = id) →
  store st !! d = Some bs → Z.of_nat (length bs) = pieceLength id.1 →
  (off ≤ length bs)%nat → copy_at off b bs = (n, bs') → 0 ≤ sz ≤ pieceLength id.1 →
  mem_inv (spec_write id off n b w)
    (MkMem (<[id := MkPiece sz (Complete p) now (Some d)]> (pieces st)) (memBufferPool st)
       (<[d := bs']> (store st)) (next_id st) (cleanTrigger st)).
Proof.
  intros Hinv Hp Hb Hpool Hown Hbs Hlen Hoff Hcp Hsz.
  pose proof (copy_at_length off b bs Hoff) as Hl'.
  pose proof (λ j, copy_at_lookup off b bs j Hoff) as Hlk. rewrite Hcp in Hl', Hlk. simpl in Hl', Hlk.
  destruct Hinv. split; simpl; auto.
  - intros d' Hd'. rewrite lookup_insert_is_Some'. auto.
  - intros d'. rewrite lookup_insert_is_Some'. intros [<-|?]; [|by apply mi_fresh0].
    apply mi_fresh0. by eexists.
  - intros id' p'. rewrite lookup_insert. case_decide as Hid; intros Hp'; simplify_eq.
    + split; [done|]. simpl. split; [done|]. exists bs'. rewrite lookup_insert_eq. split; [done|lia].
    + destruct (mi_piece0 _ _ Hp') as [? Hb']. split; [done|]. simpl.
      destruct (buffer p') as [d'|] eqn:Hd'; [|done]. destruct Hb' as (? & bs0 & ? & ?).
      split; [done|]. exists bs0. rewrite lookup_insert_ne; [done|]. intros ->.
      apply Hid. symmetry. by eapply Hown.
  - intros i1 i2 p1 p2 d'. rewrite !lookup_insert.
    repeat case_decide; intros; simplify_eq/=; auto.
    + symmetry. by eapply Hown.
    + by eapply Hown.
    + by eapply mi_own0.
  - intros id' j x. unfold spec_write. case_decide as Hj.
    + destruct Hj as [-> Hj]. intros Hx. exists (MkPiece sz (Complete p) now (Some d)), d, bs'.
      rewrite !lookup_insert_eq. split_and!; try done. rewrite Hlk. by rewrite decide_True.
    + intros (p0 & d0 & bs0 & Hp0 & Hd0 & Hs0 & Hx)%mi_written0.
      destruct (decide (id' = id)) as [->|Hne].
      * rewrite Hp in Hp0. simplify_eq. destruct Hb as [Hb|Hb]; [congruence|].
        assert (d0 = d) as -> by congruence. simplify_eq.
        eexists _, d, bs'. rewrite !lookup_insert_eq. split_and!; try done.
        rewrite Hlk, decide_False by tauto. done.
      * exists p0, d0, bs0. rewrite lookup_insert_ne by done. split_and!; try done.
        rewrite lookup_insert_ne; [done|]. intros ->. apply Hne. by eapply Hown.
Qed.

Lemma WriteAt_inv w st id b off now pick n st' :
  mem_inv w st → WriteAt id b off now pick st = Some (n, st') →
  mem_inv (spec_write id (Z.to_nat off) (Z.to_nat n) b w) st'.
Proof.
  intros Hinv. unfold WriteAt. destruct (pieces st !! id) as [p|] eqn:Hp; [|done]. cbn [mbind option_bind].
  destruct (match buffer p with Some d => (d, st) | None => _ end) as [d st1] eqn:Hacq.
  assert (mem_inv w st1 ∧ pieces st1 = pieces st ∧ (buffer p = None ∨ buffer p = Some d) ∧
    d ∉ memBufferPool st1 ∧ (∀ id' p', pieces st !! id' = Some p' → buffer p' = Some d → id' = id) ∧
    ∃ bs, store st1 !! d = Some bs ∧ Z.of_nat (length bs) = pieceLength id.1)
    as (Hinv1 & Hp1 & Hb & Hnp & Hown & bs & Hbs & Hl).
  { pose proof (mi_piece _ _ Hinv _ _ Hp) as Hok. destruct (buffer p) as [d0|] eqn:Hd0.
    - simplify_eq. destruct Hok as [_ Hok]. rewrite Hd0 in Hok. destruct Hok as [? ?].
      split_and!; auto. intros id' p' ??. by eapply (mi_own _ _ Hinv).
    - destruct (acquire_inv _ _ _ _ _ _ Hinv Hacq) as (? & ? & ? & Hno & ?).
      split_and!; auto. intros id' p' Hp' Hb'. by destruct (Hno _ _ Hp'). }
  rewrite Hbs. cbn [mbind option_bind]. case_if; [|done]. zbool.
  destruct (copy_at (Z.to_nat off) b bs) as [k bs'] eqn:Hcp. intros [= <- <-].
  rewrite Nat2Z.id, Hp1, <- Hp1. rewrite <- Hp1 in Hp, Hown.
  destruct (mi_piece _ _ Hinv1 _ _ Hp) as [? _].
  eapply write_buf_inv; eauto; [lia|]. case_if; zbool; lia.
Qed.

Lemma mark_incomplete_inv w st id : mem_inv w st → mem_inv w (mark_incomplete id st).
Proof.
  intros Hinv. unfold mark_incomplete. destruct (pieces st !! id) as [p|] eqn:Hp; [|done].
  by apply (update_inv w st id p).
Qed.

Lemma ReadAt_copy_inv w st id d dest off now r st' :
  mem_inv w st → ReadAt_copy id d dest off now st = Some (r, st') → mem_inv w st'.
Proof.
  intros Hinv. unfold ReadAt_copy. destruct (pieces st !! id) as [p|] eqn:Hp; [|done].
  pose proof (mark_incomplete_inv w st id Hinv) as Hmi.
  destruct (d ≫= (λ d, store st !! d)) as [bs|]; cbn [mbind option_bind]; [|by intros [= _ <-]].
  case_if; [by intros [= _ <-]|]. destruct (_ <? off + _); [by intros [= _ <-]|].
  destruct (slice _ _ _) as [src|]; [|done]. cbn [mbind option_bind].
  destruct (copy_at 0 src dest) as [n dest'].
  assert (∀ b : bool, mem_inv w (if b then trigger id.1 (set_piece id (MkPiece (Size p) (Complete p) now (buffer p)) st)
    else set_piece id (MkPiece (Size p) (Complete p) now (buffer p)) st)) as Hst.
  { intros []; [apply trigger_inv|]; by apply (update_inv w st id p). }
  destruct (n =? 0)%nat; intros [= _ <-]; [apply mark_incomplete_inv|]; apply Hst.
Qed.

(** Taking a piece's buffer away from it. *)
Lemma drop_buffer_inv w st id (o : option Piece) pool :
  mem_inv w st → (∀ p, o = Some p → buffer p = None ∧ Size p = 0) →
  NoDup pool → (∀ d, d ∈ pool → is_Some (store st !! d)) →
  (∀ d id' p', d ∈ pool → id' ≠ id → pieces st !! id' = Some p' → buffer p' ≠ Some d) →
  mem_inv (spec_release id w)
    (MkMem (partial_alter (λ _, o) id (pieces st)) pool (store st) (next_id st) (cleanTrigger st)).
Proof.
  intros Hinv Ho Hnd Hst Hpool.
  assert (∀ id' p', partial_alter (λ _, o) id (pieces st) !! id' = Some p' →
    (id' = id ∧ buffer p' = None ∧ Size p' = 0) ∨ (id' ≠ id ∧ pieces st !! id' = Some p')) as Hlk.
  { intros id' p'. destruct (decide (id' = id)) as [->|Hne].
    - rewrite lookup_partial_alter_eq. intros ?%Ho. auto.
    - rewrite lookup_partial_alter_ne by done. auto. }
  destruct Hinv. split; simpl; auto.
  - intros id' p' [(-> & Hb & Hs)|[Hne Hp']]%Hlk.
    + split; [rewrite Hs; specialize (pieceLength_nonneg id.1); lia|]. by rewrite Hb.
    + destruct (mi_piece0 _ _ Hp') as [? Hb]. split; [done|]. destruct (buffer p') eqn:?; [|done].
      destruct Hb as [_ ?]. split; [|done]. intros Hin. by eapply Hpool.
  - intros i1 i2 p1 p2 d [(? & ? & ?)|[? ?]]%Hlk [(? & ? & ?)|[? ?]]%Hlk ??; try congruence.
    by eapply mi_own0.
  - intros id' j x. unfold spec_release. case_decide as Hid; [done|].
    intros (p & d & bs & ? & ?)%mi_written0. exists p, d, bs. by rewrite lookup_partial_alter_ne.
Qed.

Lemma Release_inv w st id : mem_inv w st → mem_inv (spec_release id w) (Release id st).
Proof.
  intros Hinv. unfold Release. destruct (pieces st !! id) as [p|] eqn:Hp; cycle 1.
  { destruct Hinv. split; auto. intros id' j x. unfold spec_release. case_decide; [done|]. auto. }
  apply (drop_buffer_inv w st id (Some _)); [done|by intros ? [= <-]|..].
  - destruct (mi_piece _ _ Hinv _ _ Hp) as [_ H]. destruct (buffer p) as [d|]; [|apply Hinv].
    apply NoDup_app. split_and!; [apply Hinv| |apply NoDup_singleton].
    intros x Hx ->%list_elem_of_singleton. by destruct H.
  - intros d. destruct (mi_piece _ _ Hinv _ _ Hp) as [_ H]. destruct (buffer p) as [d0|]; [|apply Hinv].
    rewrite elem_of_app, list_elem_of_singleton. intros [?| ->]; [by apply Hinv|].
    destruct H as (_ & bs & ? & _). by eexists.
  - intros d id' p' Hd Hne Hp' Hb. destruct (mi_piece _ _ Hinv _ _ Hp') as [_ H]. rewrite Hb in H.
    destruct (buffer p) as [d0|] eqn:Hd0; [|by destruct H].
    apply elem_of_app in Hd as [Hd| ->%list_elem_of_singleton]; [by destruct H|].
    apply Hne. by eapply (mi_own _ _ Hinv).
Qed.

Lemma mem_step_inv ws ws' : mem_inv ws.1 ws.2 → mem_step ws ws' → mem_inv ws'.1 ws'.2.
Proof.
  intros Hinv Hstep. destruct Hstep as [id b off now pick w st n st' Hw|id d dest off now w st r st' Hc
    |id w st|id w st|id w st|id w st Hn|id w st]; simpl in *.
  - by eapply WriteAt_inv.
  - by eapply ReadAt_copy_inv.
  - by apply Release_inv.
  - unfold MarkComplete. destruct (pieces st !! id) as [p|] eqn:Hp; [|done]. by apply (update_inv w st id p).
  - by apply mark_incomplete_inv.
  - unfold set_piece. destruct Hinv. split; simpl; auto.
    + intros id' p'. rewrite lookup_insert. case_decide; intros; simplify_eq; [|by apply mi_piece0].
      split; simpl; [|done]. specialize (pieceLength_nonneg id'.1). lia.
    + intros i1 i2 p1 p2 d. rewrite !lookup_insert. repeat case_decide; intros; simplify_eq/=.
      by eapply mi_own0.
    + intros id' j x (p & d & bs & ? & ?)%mi_written0. exists p, d, bs.
      rewrite lookup_insert_ne; [done|]. congruence.
  - apply (drop_buffer_inv w st id None); [done|done|apply Hinv|apply Hinv|].
    intros d id' p' Hd _ Hp' Hb. destruct (mi_piece _ _ Hinv _ _ Hp') as [_ H]. rewrite Hb in H. by destruct H.
Qed.

Lemma mem_reachable_inv ws : mem_reachable ws → mem_inv ws.1 ws.2.
Proof.
  revert ws. apply (rtc_ind_r (λ ws, mem_inv ws.1 ws.2)).
  - split; simpl; try done; [apply NoDup_nil_2|set_solver|..]; intros *; rewrite ?lookup_empty; done || by intros [].
  - intros ws1 ws2 _ Hs Hi. by eapply mem_step_inv.
Qed.

(** ** Properties *)

(** In every reachable state, however reads, writes, releases, openings and
    closings of torrents interleave and whatever buffers the pool hands out,
    the size of a piece is within the piece length, its buffer has that length,
    no two pieces share a buffer and no piece's buffer is in the pool. *)
Theorem pieces_own_their_buffers w st id p :
  mem_reachable (w, st) → pieces st !! id = Some p →
  0 ≤ Size p ≤ pieceLength id.1 ∧
  (buffer p = None → Size p = 0) ∧
  ∀ d, buffer p = Some d →
    d ∉ memBufferPool st ∧ buf_len d st = pieceLength id.1 ∧
    ∀ id' p', pieces st !! id' = Some p' → buffer p' = Some d → id' = id.
Proof.
  intros Hinv%mem_reachable_inv Hp. simpl in Hinv. destruct (mi_piece _ _ Hinv _ _ Hp) as [Hs Hb].
  split_and!; [lia..| |].
  - intros Hn. by rewrite Hn in Hb.
  - intros d Hd. rewrite Hd in Hb. destruct Hb as (? & bs & Hbs & Hl). unfold buf_len. rewrite Hbs.
    split_and!; auto. intros id' p' ??. by eapply (mi_own _ _ Hinv).
Qed.

(** C7: A [ReadAt] that is not interrupted returns the bytes last written to
    the piece since its last release: it always returns; it reports [io.EOF]
    and marks the piece incomplete exactly when the piece has no buffer, the
    offset is past its end or nothing was asked for; otherwise it fills the
    destination up to the end of the piece, every position written since the
    last release with the last byte written there, and leaves the rest of the
    destination alone. *)
Theorem ReadAt_returns_written w st id p dest off now :
  mem_reachable (w, st) → pieces st !! id = Some p → 0 ≤ off →
  ∃ r st', ReadAt id dest off now st = Some (r, st') ∧
    if bool_decide (buffer p = None ∨ pieceLength id.1 ≤ off ∨ dest = []) then
      r = MkRead 0 true dest ∧ Completion id st' = Some false
    else
      r_eof r = false ∧ r_n r = Z.min (Z.of_nat (length dest)) (pieceLength id.1 - off) ∧
      length (r_dest r) = length dest ∧ Completion id st' = Some (Complete p) ∧
      ∀ j, if decide (Z.of_nat j < r_n r)
           then ∀ x, w id (Z.to_nat off + j)%nat = Some x → r_dest r !! j = Some x
           else r_dest r !! j = dest !! j.
Proof.
  intros Hinv%mem_reachable_inv Hp Hoff. simpl in Hinv.
  unfold ReadAt, ReadAt_snapshot, ReadAt_copy. rewrite Hp. cbn [mbind option_bind].
  assert (∀ st1 p1, pieces st1 !! id = Some p1 → Completion id (mark_incomplete id st1) = Some false) as Hmi.
  { intros st1 p1 H1. unfold Completion, mark_incomplete. rewrite H1. simpl. by rewrite lookup_insert_eq. }
  destruct (mi_piece _ _ Hinv _ _ Hp) as [_ Hb].
  destruct (buffer p) as [d|] eqn:Hd; cycle 1.
  { rewrite bool_decide_true by auto. eexists _, _. split; [done|]. split; [done|by eapply Hmi]. }
  destruct Hb as (_ & bs & Hbs & Hl). cbn [mbind option_bind]. rewrite Hbs, Hl. case_if; zbool.
  { rewrite bool_decide_true by (right; left; lia). eexists _, _.
    split; [done|]. split; [done|by eapply Hmi]. }
  set (size := if pieceLength id.1 <? Z.of_nat (length dest) + off
    then let s := pieceLength id.1 - off in if s <? 0 then 0 else s else Z.of_nat (length dest)).
  assert (size = Z.min (Z.of_nat (length dest)) (pieceLength id.1 - off)) as Hsize.
  { unfold size. destruct (Z.ltb_spec (pieceLength id.1) (Z.of_nat (length dest) + off)); [|lia].
    simpl. destruct (Z.ltb_spec (pieceLength id.1 - off) 0); lia. }
  clearbody size. assert ((pieceLength id.1 <? off + size) = false) as -> by lia.
  destruct (slice_total off (off + size) bs) as [src Hsrc]; [lia..|].
  rewrite Hsrc. cbn [mbind option_bind]. destruct (slice_Some _ _ _ _ Hsrc) as (_ & _ & Hls & Hlk).
  destruct (copy_at 0 src dest) as [n dest'] eqn:Hcp.
  pose proof (copy_at_length 0 src dest) as Hl'. pose proof (λ j, copy_at_lookup 0 src dest j) as Hc.
  rewrite Hcp in Hl', Hc. simpl in Hl', Hc.
  assert (Z.of_nat n = size) as Hn.
  { assert (n = (copy_at 0 src dest).1) as -> by by rewrite Hcp. unfold copy_at. simpl. lia. }
  assert (dest = [] ↔ n = 0%nat) as Hempty.
  { rewrite <- length_zero_iff_nil. lia. }
  set (st1 := if _ <=? _ then _ else _).
  assert (pieces st1 !! id = Some (MkPiece (Size p) (Complete p) now (Some d))) as Hp1.
  { unfold st1. case_if; simpl; by rewrite lookup_insert_eq. }
  clearbody st1. destruct (Nat.eqb_spec n 0) as [Hn0|Hn0].
  - rewrite bool_decide_true by (right; right; tauto). eexists _, _. split; [done|].
    split; [|by eapply Hmi]. f_equal. apply list_eq. intros j. rewrite Hc by lia.
    by rewrite decide_False by lia.
  - rewrite bool_decide_false by (intros [?|[?|?]]; [done|lia|tauto]).
    eexists _, _. split; [done|]. simpl. split_and!; [done|lia|apply Hl'; lia| |].
    + unfold Completion. by rewrite Hp1.
    + intros j. rewrite Hc, Nat.sub_0_r by lia. case_decide; [|by rewrite decide_False by lia].
      rewrite decide_True by lia. intros x (p0 & d0 & bs0 & Hp0 & Hd0 & Hs0 & Hx)%(mi_written _ _ Hinv).
      simplify_eq. rewrite Hlk by lia. done.
Qed.
End mempiece.

(** [ReadAt] copies from the buffer after it has given up the lock. When
    the piece is released in between and its buffer is handed to another piece,
    the read returns the bytes of that other piece and reports success: here a
    piece that only ever held the byte 1 is read as 2. *)
Theorem ReadAt_unlocked_copy_serves_other_piece :
  let len := λ _ : nat, 1 in
  let p : pid := (0%nat, 0) in let q : pid := (0%nat, 1) in
  ∃ st0 st1 st2 d r st3 w,
    mem_reachable len (w, st0) ∧ w p 0%nat = Some Byte.x01 ∧
    ReadAt_snapshot p st0 = Some d ∧
    st1 = Release p st0 ∧
    WriteAt len q [Byte.x02] 0 5 (Some 0%nat) st1 = Some (1, st2) ∧
    ReadAt_copy p d [Byte.x00] 0 6 st2 = Some (r, st3) ∧
    r = MkRead 1 false [Byte.x02].
Proof.
  intros len p q.
  set (s0 := set_piece q NewPiece (set_piece p NewPiece mem_init.2)).
  destruct (WriteAt len p [Byte.x01] 0 4 None s0) as [[n s1]|] eqn:Hw; [|vm_compute in Hw; discriminate].
  exists s1. vm_compute in Hw. injection Hw as <- <-.
  eexists _, _, _, _, _, (spec_write p 0 1 [Byte.x01] mem_init.1). split; cycle 1.
  { split_and!; vm_compute; reflexivity. }
  eapply rtc_l; [apply (step_Open len p (λ _ _, None)); reflexivity|].
  eapply rtc_l; [apply (step_Open len q); reflexivity|]. apply rtc_once.
  apply (step_Write len p [Byte.x01] 0 4 None _ s0 1). vm_compute. reflexivity.
Qed.

(** *** Witnesses *)

Module MemRun.
Definition len (_ : nat) : Z := 4.
Definition id : pid := (0%nat, 7).
Definition st1 : MemState := set_piece id NewPiece mem_init.2.
Definition st2 : MemState :=
  match WriteAt len id [Byte.x01; Byte.x02] 1 9 None st1 with Some (_, st) => st | None => st1 end.
Definition w2 : written := spec_write id 1 2 [Byte.x01; Byte.x02] mem_init.1.

Lemma reachable_st2 : mem_reachable len (w2, st2).
Proof.
  eapply rtc_l; [apply (step_Open len id (λ _ _, None)); reflexivity|]. apply rtc_once.
  apply (step_Write len id [Byte.x01; Byte.x02] 1 9 None _ st1 2). vm_compute. reflexivity.
Qed.

Lemma len_nonneg c : 0 ≤ len c.
Proof. unfold len. lia. Qed.
End MemRun.

Lemma pieces_own_witness : ∃ p, pieces MemRun.st2 !! MemRun.id = Some p ∧ 0 ≤ Size p ≤ MemRun.len 0.
Proof.
  exists (MkPiece 2 false 9 (Some 0%nat)). split; [reflexivity|].
  exact (proj1 (pieces_own_their_buffers MemRun.len MemRun.len_nonneg MemRun.w2 MemRun.st2 MemRun.id
    (MkPiece 2 false 9 (Some 0%nat)) MemRun.reachable_st2 eq_refl)).
Defined.

Lemma ReadAt_returns_witness :
  ∃ r st', ReadAt MemRun.id [Byte.x00; Byte.x00; Byte.x00; Byte.x00] 2 10 MemRun.st2 = Some (r, st') ∧
    r_n r = 2.
Proof.
  destruct (ReadAt_returns_written MemRun.len MemRun.len_nonneg MemRun.w2 MemRun.st2 MemRun.id
    (MkPiece 2 false 9 (Some 0%nat)) [Byte.x00; Byte.x00; Byte.x00; Byte.x00] 2 10
    MemRun.reachable_st2 eq_refl ltac:(lia)) as (r & st' & Hr & H).
  exists r, st'. split; [exact Hr|]. simpl in H. destruct H as (_ & H & _). exact H.
Defined.
