(* ===== verification/Shield.v ===== *)
(** * The adaptive shield (torrstor/piece.go)

    Five global atomics decide whether unverified pieces may be served. A
    corrupt piece ([MarkNotComplete]) counts towards STRICT mode and starts a
    watchdog goroutine that returns to FAST mode after a clean streak; stopping
    the playback resets everything. The code takes no lock, so the model has
    two levels: the operations run one after the other, and the goroutines
    interleaved at each atomic access. *)

From S2P Require Import Prelude.

(** ** State *)

Record Shield := MkShield {
  lastCorruptionUnix : Z;
  shieldActive : bool;
  isWatchdogRunning : bool;
  staticCorruptionCount : Z;
  strictCycleCount : Z;
}.

(** The two settings the code reads: [GetAdaptiveShield] and [GetResponsiveMode]. *)
Record Settings := MkSettings { adaptive : bool; responsive : bool }.

Definition Second : Z := 1000000000.

Definition set_last (v : Z) (s : Shield) : Shield :=
  MkShield v (shieldActive s) (isWatchdogRunning s) (staticCorruptionCount s) (strictCycleCount s).
Definition set_active (v : bool) (s : Shield) : Shield :=
  MkShield (lastCorruptionUnix s) v (isWatchdogRunning s) (staticCorruptionCount s) (strictCycleCount s).
Definition set_running (v : bool) (s : Shield) : Shield :=
  MkShield (lastCorruptionUnix s) (shieldActive s) v (staticCorruptionCount s) (strictCycleCount s).
Definition set_count (v : Z) (s : Shield) : Shield :=
  MkShield (lastCorruptionUnix s) (shieldActive s) (isWatchdogRunning s) v (strictCycleCount s).
Definition set_cycle (v : Z) (s : Shield) : Shield :=
  MkShield (lastCorruptionUnix s) (shieldActive s) (isWatchdogRunning s) (staticCorruptionCount s) v.

Definition IsResponsive (cfg : Settings) (s : Shield) : bool :=
  responsive cfg && negb (shieldActive s).

(** The clean streak, in nanoseconds; the product is one of [int32]. *)
Definition cleanNeeded (cycle : Z) : Z :=
  let d := int32 (30 * cycle) * Second in
  let d := if d <? 30 * Second then 30 * Second else d in
  if 120 * Second <? d then 120 * Second else d.

(** ** The goroutines, one atomic access per step *)

(** Where a [MarkNotComplete] is: before the store of the time, the test of the
    shield, the increment of the count, of the cycle, the activation, the test
    for the watchdog, the swap that starts it. *)
Inductive mark_pc := M_last | M_test | M_count | M_cycle | M_activate | M_watch | M_swap | M_done.

(** One access, at Unix time [now]; the boolean says that a watchdog starts. *)
Definition mark_step (cfg : Settings) (now : Z) (pc : mark_pc) (s : Shield)
    : mark_pc * Shield * bool :=
  match pc with
  | M_last => (M_test, set_last now s, false)
  | M_test => (if adaptive cfg && responsive cfg && negb (shieldActive s) then M_count else M_watch, s, false)
  | M_count => let c := int32 (staticCorruptionCount s + 1) in
               (if 1 <? c then M_cycle else M_watch, set_count c s, false)
  | M_cycle => (M_activate, set_cycle (int32 (strictCycleCount s + 1)) s, false)
  | M_activate => (M_watch, set_active true s, false)
  | M_watch => (if 1 <=? staticCorruptionCount s then M_swap else M_done, s, false)
  | M_swap => (M_done, set_running true s, negb (isWatchdogRunning s))
  | M_done => (M_done, s, false)
  end.

(** The watchdog: it has slept a second; it has computed the time elapsed; the
    streak was clean and it clears the shield, the count, its own flag. *)
Inductive dog_pc := W_sleep | W_elapsed (elapsed : Z) | W_clear | W_zero | W_stop | W_exit.

(** One access at the time [now] in nanoseconds. *)
Definition dog_step (now : Z) (pc : dog_pc) (s : Shield) : dog_pc * Shield :=
  match pc with
  | W_sleep => (W_elapsed (now - lastCorruptionUnix s * Second), s)
  | W_elapsed elapsed =>
      (if cleanNeeded (strictCycleCount s) <? elapsed then W_clear else W_sleep, s)
  | W_clear => (W_zero, set_active false s)
  | W_zero => (W_stop, set_count 0 s)
  | W_stop => (W_exit, set_running false s)
  | W_exit => (W_exit, s)
  end.

Inductive reset_pc := R_active | R_running | R_count | R_cycle | R_done.

Definition reset_step (pc : reset_pc) (s : Shield) : reset_pc * Shield :=
  match pc with
  | R_active => (R_running, set_active false s)
  | R_running => (R_count, set_running false s)
  | R_count => (R_cycle, set_count 0 s)
  | R_cycle => (R_done, set_cycle 0 s)
  | R_done => (R_done, s)
  end.

(** ** The operations, uninterrupted *)

Fixpoint run_mark (fuel : nat) (cfg : Settings) (now : Z) (pc : mark_pc) (s : Shield) : Shield * bool :=
  match fuel, pc with
  | O, _ | _, M_done => (s, false)
  | S fuel', _ => let '(pc', s', b) := mark_step cfg now pc s in
                  let '(s'', b') := run_mark fuel' cfg now pc' s' in (s'', b || b')
  end.

(** [MarkNotComplete] after the piece's own flag: a piece without a buffer was
    evicted, not corrupt. *)
Definition MarkNotComplete (cfg : Settings) (hasData : bool) (now : Z) (s : Shield) : Shield * bool :=
  if hasData then run_mark 7 cfg now M_last s else (s, false).

#[global] Arguments MarkNotComplete : simpl never.

Definition ResetShield (s : Shield) : Shield :=
  set_cycle 0 (set_count 0 (set_running false (set_active false s))).

(** One turn of the watchdog's loop; the boolean says that it returns. *)
Definition watchdog_turn (now : Z) (s : Shield) : Shield * bool :=
  if cleanNeeded (strictCycleCount s) <? now - lastCorruptionUnix s * Second
  then (set_running false (set_count 0 (set_active false s)), true)
  else (s, false).

Definition shield0 : Shield := MkShield 0 false false 0 0.

(** ** One operation after the other *)

(** The shield with the number of watchdogs that run. The settings may change
    between the operations. *)
Inductive seq_step : Shield * nat → Shield * nat → Prop :=
| seq_mark cfg hasData now s n s' b :
    MarkNotComplete cfg hasData now s = (s', b) →
    seq_step (s, n) (s', if b then S n else n)
| seq_turn now s n s' b :
    watchdog_turn now s = (s', b) → seq_step (s, S n) (s', if b then n else S n)
| seq_reset s n : seq_step (s, n) (ResetShield s, n).

Definition seq_reachable (sn : Shield * nat) : Prop := rtc seq_step (shield0, 0%nat) sn.

(** The count is 0, 1 (one corruption seen) or 2 (STRICT), and while it is not
    0 a watchdog runs. *)
Record seq_inv (s : Shield) (n : nat) : Prop := {
  si_count : staticCorruptionCount s = 0 ∨ staticCorruptionCount s = 1 ∨ staticCorruptionCount s = 2;
  si_active : shieldActive s = true ↔ staticCorruptionCount s = 2;
  si_running : 1 ≤ staticCorruptionCount s → isWatchdogRunning s = true;
  si_dogs : isWatchdogRunning s = true → (1 ≤ n)%nat;
}.

(** What an uninterrupted [MarkNotComplete] does, by the count it finds. *)
Lemma MarkNotComplete_cases cfg hasData now s n s' b :
  seq_inv s n → MarkNotComplete cfg hasData now s = (s', b) →
  let s1 := set_last now s in
  (s', b) =
    if negb hasData then (s, false)
    else if adaptive cfg && responsive cfg && negb (shieldActive s) then
      if staticCorruptionCount s =? 0
      then (set_running true (set_count 1 s1), negb (isWatchdogRunning s))
      else (set_active true (set_cycle (int32 (strictCycleCount s + 1)) (set_count 2 s1)), false)
    else (s1, false).
Proof.
  intros [Hc Ha Hr Hd]. unfold MarkNotComplete. destruct hasData; [|by intros <-].
  intros <-. destruct s as [last act run cnt cyc], cfg as [ad re].
  cbn [staticCorruptionCount shieldActive isWatchdogRunning] in *.
  destruct Hc as [->|[->| ->]]; [destruct act; [discriminate (proj1 Ha eq_refl)|]..|].
  - destruct ad, re, run; reflexivity.
  - rewrite Hr by lia. destruct ad, re; reflexivity.
  - rewrite (proj2 Ha eq_refl), Hr by lia. destruct ad, re; reflexivity.
Qed.

Lemma seq_step_inv sn sn' : seq_inv sn.1 sn.2 → seq_step sn sn' → seq_inv sn'.1 sn'.2.
Proof.
  intros Hinv Hstep. destruct Hstep as [cfg hd now s n s' b Hm|now s n s' b Ht|s n]; simpl in *.
  - pose proof (MarkNotComplete_cases _ _ _ _ _ _ _ Hinv Hm) as Heq. simpl in Heq.
    destruct Hinv as [Hc Ha Hr Hd]. destruct hd; simpl in Heq; [|by simplify_eq].
    destruct (adaptive cfg && responsive cfg) eqn:?, (shieldActive s) eqn:Hact; simpl in Heq;
      [by simplify_eq; split; simpl; rewrite ?Hact| |by simplify_eq; split; simpl; rewrite ?Hact..].
    destruct (Z.eqb_spec (staticCorruptionCount s) 0) as [Hz|Hz]; simplify_eq.
    + split; simpl; [lia|rewrite Hact; lia|done|]. intros _. destruct (isWatchdogRunning s) eqn:?; simpl; auto; lia.
    + split; simpl; [lia|lia|intros; apply Hr; lia|done].
  - unfold watchdog_turn in Ht. destruct (_ <? _); simplify_eq; [|done].
    split; simpl; [lia|split; lia || done|lia|done].
  - split; simpl; [lia|split; lia || done|lia|done].
Qed.

Lemma seq_reachable_inv sn : seq_reachable sn → seq_inv sn.1 sn.2.
Proof.
  revert sn. apply (rtc_ind_r (λ sn, seq_inv sn.1 sn.2)).
  - split; simpl; [lia|split; lia || done|lia|done].
  - intros sn1 sn2 _ Hs Hi. by eapply seq_step_inv.
Qed.

(** When the operations do not overlap, FAST mode survives a first corrupt
    piece and ends with the second one: in every reachable state, a corruption
    with the shield enabled keeps the count below 2 and starts a watchdog when
    none was pending, and activates the shield with the next cycle when one
    was; a piece whose buffer was evicted counts for nothing. *)
Theorem corruption_escalates s n cfg now :
  seq_reachable (s, n) → adaptive cfg = true → responsive cfg = true →
  MarkNotComplete cfg false now s = (s, false) ∧
  let s' := (MarkNotComplete cfg true now s).1 in
  lastCorruptionUnix s' = now ∧
  if IsResponsive cfg s then
    if staticCorruptionCount s =? 0
    then IsResponsive cfg s' = true ∧ staticCorruptionCount s' = 1 ∧ isWatchdogRunning s' = true ∧
         strictCycleCount s' = strictCycleCount s
    else IsResponsive cfg s' = false ∧ staticCorruptionCount s' = 2 ∧ isWatchdogRunning s' = true ∧
         strictCycleCount s' = int32 (strictCycleCount s + 1)
  else IsResponsive cfg s' = false ∧ strictCycleCount s' = strictCycleCount s.
Proof.
  intros Hinv%seq_reachable_inv Ha Hr. simpl in Hinv. split; [done|].
  destruct (MarkNotComplete cfg true now s) as [s' b] eqn:Hm.
  pose proof (MarkNotComplete_cases _ _ _ _ _ _ _ Hinv Hm) as Heq. simpl in Heq. simpl.
  rewrite Ha, Hr in Heq. unfold IsResponsive. rewrite Hr. simpl in *.
  destruct (shieldActive s) eqn:Hact; simpl in *; simplify_eq; simpl; [by rewrite Hact|].
  destruct (Z.eqb_spec (staticCorruptionCount s) 0); simplify_eq; simpl; rewrite ?Hact; [done|].
  split_and!; try done. apply (si_running _ _ Hinv). destruct (si_count _ _ Hinv); lia.
Qed.

Lemma cleanNeeded_value cycle :
  0 ≤ cycle ≤ 71582788 → cleanNeeded cycle = Z.min 120 (Z.max 30 (30 * cycle)) * Second.
Proof.
  intros Hc. unfold cleanNeeded, Second. rewrite wrap_s_id by (unfold fits_s; lia).
  repeat case_if; zbool; lia.
Qed.

Lemma cleanNeeded_bounds cycle : 30 * Second ≤ cleanNeeded cycle ≤ 120 * Second.
Proof. unfold cleanNeeded, Second. repeat case_if; zbool; lia. Qed.


(** ** The goroutines interleaved *)

Record Conf := MkConf {
  c_sh : Shield;
  marks : list mark_pc;
  dogs : list dog_pc;
  resets : list reset_pc;
}.

(** The scheduler's choices: a goroutine begins, or goroutine [i] makes one
    access. *)
Inductive action :=
| A_mark_begin
| A_mark (i : nat) (cfg : Settings) (now : Z)
| A_dog (i : nat) (now : Z)
| A_reset_begin
| A_reset (i : nat).

Definition act (a : action) (c : Conf) : option Conf :=
  match a with
  | A_mark_begin => Some (MkConf (c_sh c) (marks c ++ [M_last]) (dogs c) (resets c))
  | A_mark i cfg now =>
      pc ← marks c !! i;
      let '(pc', s', b) := mark_step cfg now pc (c_sh c) in
      Some (MkConf s' (<[i := pc']> (marks c)) (if b : bool then dogs c ++ [W_sleep] else dogs c) (resets c))
  | A_dog i now =>
      pc ← dogs c !! i;
      let '(pc', s') := dog_step now pc (c_sh c) in
      Some (MkConf s' (marks c) (<[i := pc']> (dogs c)) (resets c))
  | A_reset_begin => Some (MkConf (c_sh c) (marks c) (dogs c) (resets c ++ [R_active]))
  | A_reset i =>
      pc ← resets c !! i;
      let '(pc', s') := reset_step pc (c_sh c) in
      Some (MkConf s' (marks c) (dogs c) (<[i := pc']> (resets c)))
  end.

Definition is_reset (a : action) : bool :=
  match a with A_reset_begin | A_reset _ => true | _ => false end.

Definition il_step (c c' : Conf) : Prop := ∃ a, act a c = Some c'.
Definition calm_step (c c' : Conf) : Prop := ∃ a, is_reset a = false ∧ act a c = Some c'.

Fixpoint exec (l : list action) (c : Conf) : option Conf :=
  match l with [] => Some c | a :: l' => act a c ≫= exec l' end.

Lemma exec_rtc l c c' : exec l c = Some c' → rtc il_step c c'.
Proof.
  revert c. induction l as [|a l IH]; simpl; intros c H; [by simplify_eq|].
  destruct (act a c) as [c1|] eqn:Ha; [|done]. eapply rtc_l; [by exists a|]. by apply IH.
Qed.

Definition conf0 : Conf := MkConf shield0 [] [] [].

(** No goroutine is left that could clear the shield or count a corruption. *)
Definition stuck (c : Conf) : Prop :=
  shieldActive (c_sh c) = true ∧ staticCorruptionCount (c_sh c) = 0 ∧
  Forall (λ pc, pc = W_exit) (dogs c) ∧
  Forall (λ pc, pc = M_last ∨ pc = M_test ∨ pc = M_watch ∨ pc = M_done) (marks c).

Lemma stuck_step c c' : stuck c → calm_step c c' → stuck c'.
Proof.
  intros (Ha & Hc & Hd & Hm) (a & Hr & Hact). destruct a as [|i cfg now|i now| |]; try done; simpl in Hact.
  - simplify_eq. split_and!; try done. simpl. apply Forall_app. split; [done|]. apply Forall_singleton. auto.
  - destruct (marks c !! i) as [pc|] eqn:Hi; [|done]. simpl in Hact.
    pose proof (Forall_lookup_1 _ _ _ _ Hm Hi) as Hpc.
    destruct Hpc as [->|[->|[->| ->]]]; simpl in Hact;
      rewrite ?Ha, ?Hc, ?andb_false_r in Hact; simpl in Hact; simplify_eq;
      split_and!; simpl; auto; apply Forall_insert; auto.
  - destruct (dogs c !! i) as [pc|] eqn:Hi; [|done]. simpl in Hact.
    pose proof (Forall_lookup_1 _ _ _ _ Hd Hi) as ->. simpl in Hact. simplify_eq.
    split_and!; simpl; auto. by apply Forall_insert.
Qed.

Lemma stuck_forever c c' : stuck c → rtc calm_step c c' → stuck c'.
Proof. intros Hst Hr. induction Hr as [|c1 c2 c3 Hs _ IH]; [done|]. apply IH. by eapply stuck_step. Qed.

(** When a watchdog that has seen a clean streak and a new corruption
    overlap, the shield can be left active with the count at 0 and no watchdog:
    from then on no corruption and no amount of clean time brings FAST mode
    back, until the playback is stopped and [ResetShield] runs. *)
Theorem shield_can_stay_active_forever :
  ∃ c, rtc il_step conf0 c ∧ marks c = [M_done; M_done] ∧ dogs c = [W_exit] ∧
    ∀ c' cfg, rtc calm_step c c' → IsResponsive cfg (c_sh c') = false.
Proof.
  set (cfg := MkSettings true true).
  set (mk := λ i n now, replicate n (A_mark i cfg now)).
  set (trace := [A_mark_begin] ++ mk 0%nat 5%nat 100 ++
    [A_dog 0 (131 * Second); A_dog 0 (131 * Second)] ++ [A_mark_begin] ++ mk 1%nat 4%nat 131 ++
    [A_dog 0 (131 * Second)] ++ mk 1%nat 3%nat 131 ++ [A_dog 0 (131 * Second); A_dog 0 (131 * Second)]).
  destruct (exec trace conf0) as [c|] eqn:He; [|vm_compute in He; discriminate].
  exists c. split; [by eapply exec_rtc|]. vm_compute in He. injection He as <-.
  split_and!; [done..|]. intros c' cfg' Hr.
  apply stuck_forever in Hr as (Ha & _); [unfold IsResponsive; rewrite Ha; apply andb_false_r|].
  split_and!; [done..|by apply Forall_singleton|].
  apply Forall_cons. split; [auto|]. apply Forall_singleton. auto.
Qed.

(** *** Witnesses *)

Definition strict : Settings := MkSettings true true.

Lemma reachable_marks : seq_reachable
  ((MarkNotComplete strict true 9 (MarkNotComplete strict true 5 shield0).1).1, 1%nat).
Proof.
  eapply rtc_l.
  { apply (seq_mark strict true 5 shield0 0 (MarkNotComplete strict true 5 shield0).1 true). vm_compute. reflexivity. }
  apply rtc_once. eapply (seq_mark strict true 9 _ 1 _ false). vm_compute. reflexivity.
Qed.

Lemma corruption_escalates_witness :
  lastCorruptionUnix (MarkNotComplete strict true 7 shield0).1 = 7.
Proof.
  destruct (corruption_escalates shield0 0 strict 7 (rtc_refl _ _) eq_refl eq_refl) as [_ [H _]]. exact H.
Defined.

