(* ===== verification/Float64.v ===== *)
(** * Go's float64

    IEEE 754 binary64 through the Standard Library's executable specification:
    53 bits of precision, exponents up to 1024, round to nearest even. *)

From Stdlib Require Export SpecFloat.
From S2P Require Import Prelude.

Abbreviation float64 := spec_float.

Definition f64_of_Z (z : Z) : float64 := binary_normalize 53 1024 z 0 false.
Definition f64_add : float64 → float64 → float64 := SFadd 53 1024.
Definition f64_sub : float64 → float64 → float64 := SFsub 53 1024.
Definition f64_mul : float64 → float64 → float64 := SFmul 53 1024.
Definition f64_div : float64 → float64 → float64 := SFdiv 53 1024.
Definition f64_ltb : float64 → float64 → bool := SFltb.
Definition f64_leb : float64 → float64 → bool := SFleb.
Definition f64_eqb : float64 → float64 → bool := SFeqb.

(** The decimal literal [n / 10 ^ k]: the quotient of two integers below 2 ^ 53
    and powers of ten up to 22 is rounded correctly. *)
Definition f64_lit (n : Z) (k : Z) : float64 := f64_div (f64_of_Z n) (f64_of_Z (10 ^ k)).

(** The integer part; [None] for a value that is not a number. *)
Definition f64_trunc (x : float64) : option Z :=
  match x with
  | S754_zero _ => Some 0
  | S754_finite s m e =>
      let a := if 0 <=? e then Z.pos m * 2 ^ e else Z.pos m / 2 ^ (- e) in
      Some (if s then - a else a)
  | _ => None
  end.

(** The conversion to [int64]. Its result on a value out of range depends on
    the processor: [undef] stands for it. *)
Definition f64_to_int64 (undef : float64 → Z) (x : float64) : Z :=
  match f64_trunc x with
  | Some z => if (- 2 ^ 63 <=? z) && (z <? 2 ^ 63) then z else undef x
  | None => undef x
  end.

#[global] Arguments f64_of_Z : simpl never.
#[global] Arguments f64_add : simpl never.
#[global] Arguments f64_sub : simpl never.
#[global] Arguments f64_mul : simpl never.
#[global] Arguments f64_div : simpl never.
#[global] Arguments f64_lit : simpl never.
#[global] Arguments f64_to_int64 : simpl never.

Example f64_085 : f64_lit 85 2 = S754_finite false 7656119366529843 (-53).
Proof. reflexivity. Qed.

(** ** Rounding *)

Lemma digits2_bounds p : 2 ^ (Z.pos (digits2_pos p) - 1) ≤ Z.pos p < 2 ^ Z.pos (digits2_pos p).
Proof.
  induction p as [p IH|p IH|]; cbn [digits2_pos]; [..|done]; rewrite Pos2Z.inj_succ;
    rewrite Z.pow_succ_r by lia; replace (Z.succ (Z.pos (digits2_pos p)) - 1) with (Z.succ (Z.pos (digits2_pos p) - 1)) by lia;
    rewrite Z.pow_succ_r by lia; lia.
Qed.

Lemma digits2_le m n : 0 ≤ m → 0 ≤ n → m < 2 ^ n → Zdigits2 m ≤ n.
Proof.
  intros Hm Hn Hlt. destruct m as [|p|p]; cbn [Zdigits2]; [done| |lia].
  pose proof (digits2_bounds p) as [Hlo _]. destruct (Z.le_gt_cases (Z.pos (digits2_pos p)) n) as [|Hgt]; [done|].
  pose proof (Z.pow_le_mono_r 2 n (Z.pos (digits2_pos p) - 1)). lia.
Qed.

Lemma digits2_lt m : 0 ≤ m → m < 2 ^ Zdigits2 m.
Proof. destruct m as [|p|p]; cbn [Zdigits2]; [lia| |lia]. intros _. apply digits2_bounds. Qed.

Lemma digits2_nonneg m : 0 ≤ Zdigits2 m.
Proof. by destruct m. Qed.

Lemma shr_1_half mrs : 0 ≤ shr_m mrs → shr_m (shr_1 mrs) = shr_m mrs / 2.
Proof.
  destruct mrs as [m r s]. cbn [shr_m shr_1]. destruct m as [|[p|p|]|p]; cbn [shr_m]; try done; try lia; intros _;
    rewrite <- Z.div2_div; done.
Qed.

Lemma shr_iter p mrs : 0 ≤ shr_m mrs → shr_m (SpecFloat.iter_pos shr_1 p mrs) = shr_m mrs / 2 ^ Z.pos p.
Proof.
  revert mrs. induction p as [p IH|p IH|]; intros mrs H; cbn [SpecFloat.iter_pos].
  - assert (0 ≤ shr_m (shr_1 mrs)) by (rewrite shr_1_half by done; by apply Z.div_pos).
    assert (0 ≤ shr_m (SpecFloat.iter_pos shr_1 p (shr_1 mrs))) by (rewrite IH by done; apply Z.div_pos; lia).
    rewrite !IH, shr_1_half by done. rewrite !Z.div_div by lia. f_equal.
    replace (Z.pos p~1) with (1 + (Z.pos p + Z.pos p)) by lia. rewrite !Z.pow_add_r by lia. lia.
  - assert (0 ≤ shr_m (SpecFloat.iter_pos shr_1 p mrs)) by (rewrite IH by done; apply Z.div_pos; lia).
    rewrite !IH by done. rewrite Z.div_div by lia. f_equal.
    replace (Z.pos p~0) with (Z.pos p + Z.pos p) by lia. by rewrite Z.pow_add_r by lia.
  - by rewrite shr_1_half.
Qed.

Lemma shr_spec m l e n :
  0 ≤ m → shr_m (shr (shr_record_of_loc m l) e n).1 = m / 2 ^ Z.max 0 n ∧
  (shr (shr_record_of_loc m l) e n).2 = e + Z.max 0 n.
Proof.
  intros Hm. assert (shr_m (shr_record_of_loc m l) = m) as E by (by destruct l as [|[]]).
  destruct n as [|p|p]; cbn [shr fst snd].
  - rewrite E. change (Z.max 0 0) with 0. rewrite Z.div_1_r. lia.
  - rewrite Z.max_r by lia. split; [|lia]. rewrite shr_iter by (by rewrite E). by rewrite E.
  - rewrite E, Z.max_l by lia. rewrite Z.div_1_r. lia.
Qed.

Lemma shr_fexp_spec m e l :
  0 ≤ m →
  let k := Z.max 0 (fexp 53 1024 (Zdigits2 m + e) - e) in
  shr_m (shr_fexp 53 1024 m e l).1 = m / 2 ^ k ∧ (shr_fexp 53 1024 m e l).2 = e + k.
Proof. intros Hm. by apply shr_spec. Qed.

Lemma round_nearest_even_bounds m l : m ≤ round_nearest_even m l ≤ m + 1.
Proof. destruct l as [|[]]; cbn [round_nearest_even]; try lia. destruct (Z.even m); lia. Qed.

(** Rounding a value below [2 ^ 50] moves its integer part up by at most one. *)
Lemma binary_round_aux_trunc m e :
  0 ≤ m → e < 0 → Zdigits2 m + e ≤ 50 →
  ∃ z, f64_trunc (binary_round_aux 53 1024 false m e loc_Exact) = Some z ∧ 0 ≤ z ≤ m / 2 ^ (- e) + 1.
Proof.
  intros Hm He Hd. unfold binary_round_aux.
  destruct (shr_fexp_spec m e loc_Exact Hm) as [H1 H2].
  destruct (shr_fexp 53 1024 m e loc_Exact) as [mrs e1]. cbn [fst snd] in *.
  set (k := Z.max 0 (fexp 53 1024 (Zdigits2 m + e) - e)) in *.
  assert (0 ≤ k) as Hk by (unfold k; lia).
  assert (e1 < 0) as He1 by (unfold k, fexp, emin in H2; lia).
  set (m1 := round_nearest_even (shr_m mrs) (loc_of_shr_record mrs)).
  assert (m / 2 ^ k ≤ m1 ≤ m / 2 ^ k + 1) as Hm1 by (unfold m1; rewrite <- H1; apply round_nearest_even_bounds).
  assert (0 ≤ m / 2 ^ k) as H0 by (apply Z.div_pos; lia).
  assert (m1 ≤ 2 ^ (50 - e1)) as Hb.
  { assert (m / 2 ^ k < 2 ^ (50 - e1)); [|lia]. apply Z.div_lt_upper_bound; [lia|]. rewrite <- Z.pow_add_r by lia.
    pose proof (digits2_lt m Hm). pose proof (Z.pow_le_mono_r 2 (Zdigits2 m) (k + (50 - e1))). lia. }
  assert (Zdigits2 m1 ≤ 51 - e1) as Hd1.
  { apply digits2_le; [lia..|]. replace (51 - e1) with (Z.succ (50 - e1)) by lia. rewrite Z.pow_succ_r by lia. lia. }
  destruct (shr_fexp_spec m1 e1 loc_Exact) as [H3 H4]; [lia|].
  destruct (shr_fexp 53 1024 m1 e1 loc_Exact) as [mrs2 e2]. cbn [fst snd] in *.
  set (k2 := Z.max 0 (fexp 53 1024 (Zdigits2 m1 + e1) - e1)) in *.
  assert (0 ≤ k2) as Hk2 by (unfold k2; lia).
  assert (e2 < 0) as He2 by (unfold k2, fexp, emin in H4; lia).
  assert (m1 / 2 ^ (- e1) ≤ m / 2 ^ (- e) + 1) as Hfin.
  { transitivity ((m / 2 ^ k + 1) / 2 ^ (- e1)); [apply Z.div_le_mono; lia|].
    transitivity ((m / 2 ^ k + 1 * 2 ^ (- e1)) / 2 ^ (- e1)).
    { apply Z.div_le_mono; [lia|]. pose proof (Z.pow_pos_nonneg 2 (- e1)). lia. }
    rewrite Z.div_add by lia. rewrite Z.div_div by lia. rewrite <- Z.pow_add_r by lia.
    replace (k + - e1) with (- e) by lia. lia. }
  assert (shr_m mrs2 / 2 ^ (- e2) = m1 / 2 ^ (- e1)) as Heq.
  { rewrite H3, Z.div_div by lia. rewrite <- Z.pow_add_r by lia. f_equal. f_equal. lia. }
  assert (0 ≤ m1 / 2 ^ (- e1)) by (apply Z.div_pos; lia).
  assert (0 ≤ shr_m mrs2) by (rewrite H3; apply Z.div_pos; lia).
  destruct (shr_m mrs2) as [|p|p]; [|..|lia].
  - exists 0. split; [done|]. rewrite <- Heq in Hfin. rewrite Z.div_0_l in Hfin by lia. lia.
  - rewrite (proj2 (Z.leb_le e2 (1024 - 53))) by lia. cbn [f64_trunc].
    rewrite (proj2 (Z.leb_gt 0 e2)) by lia. eexists; split; [done|]. rewrite Heq. lia.
Qed.

(** Shifting left keeps the digits and moves the exponent. *)
Lemma iter_xO_digits p d : Z.pos (digits2_pos (Pos.iter xO p d)) = Z.pos (digits2_pos p) + Z.pos d.
Proof.
  induction d as [|d IH] using Pos.peano_ind; [cbn; lia|]. rewrite Pos.iter_succ. cbn [digits2_pos]. lia.
Qed.

(** A mantissa of 53 digits is not rounded. *)
Lemma binary_round_aux_exact p e :
  Z.pos (digits2_pos p) = 53 → -1074 ≤ e ≤ 971 →
  binary_round_aux 53 1024 false (Z.pos p) e loc_Exact = S754_finite false p e.
Proof.
  intros Hd He. assert (shr_fexp 53 1024 (Z.pos p) e loc_Exact = (Build_shr_record (Z.pos p) false false, e)) as E.
  { unfold shr_fexp. cbn [Zdigits2]. rewrite Hd. unfold fexp, emin.
    replace (Z.max (53 + e - 53) (3 - 1024 - 53) - e) with 0 by lia. done. }
  unfold binary_round_aux. rewrite E. cbn [shr_m loc_of_shr_record round_nearest_even]. rewrite E. cbn [shr_m].
  by rewrite (proj2 (Z.leb_le e (1024 - 53))) by lia.
Qed.

(** A positive integer below [2 ^ 53] is a float with all its digits. *)
Lemma f64_of_Z_digits z :
  0 < z < 2 ^ 53 → ∃ m, f64_of_Z z = S754_finite false m (Zdigits2 z - 53) ∧ Z.pos (digits2_pos m) = 53.
Proof.
  intros [Hz Hlt]. destruct z as [|p|p]; [lia| |lia]. cbn [Zdigits2]. unfold f64_of_Z, binary_normalize, binary_round, shl_align.
  assert (Z.pos (digits2_pos p) ≤ 53) as Hd by (apply (digits2_le (Z.pos p)); lia).
  assert (fexp 53 1024 (Z.pos (digits2_pos p) + 0) = Z.pos (digits2_pos p) - 53) as -> by (unfold fexp, emin; lia).
  rewrite Z.sub_0_r. destruct (Z.pos (digits2_pos p) - 53) as [|d|d] eqn:E; [|lia|].
  - exists p. split; [apply binary_round_aux_exact; lia|lia].
  - eexists. split; [apply binary_round_aux_exact|]; [rewrite iter_xO_digits; lia|lia|rewrite iter_xO_digits; lia].
Qed.

Lemma f64_of_Z_exp z :
  0 < z < 2 ^ 53 → ∃ m, f64_of_Z z = S754_finite false m (Zdigits2 z - 53).
Proof. intros Hz. destruct (f64_of_Z_digits z Hz) as (m & E & _). by exists m. Qed.

(** How two positive floats compare. *)
Lemma f64_leb_pos m e n f :
  f64_leb (S754_finite false m e) (S754_finite false n f) = true → e < f ∨ e = f ∧ Z.pos m ≤ Z.pos n.
Proof.
  unfold f64_leb, SFleb, SFcompare. destruct (Z.compare_spec e f) as [->|Hlt|]; [|by left|done].
  fold (Pos.compare m n). intros H. right. split; [done|]. destruct (Pos.compare_spec m n); [by subst|lia|done].
Qed.

Lemma f64_leb_intro m e n f :
  e < f ∨ e = f ∧ Z.pos m ≤ Z.pos n → f64_leb (S754_finite false m e) (S754_finite false n f) = true.
Proof.
  unfold f64_leb, SFleb, SFcompare. intros [H|[-> H]]; [by rewrite (proj2 (Z.compare_lt_iff e f) H)|].
  rewrite Z.compare_refl. fold (Pos.compare m n). destruct (Pos.compare_spec m n); [done|done|lia].
Qed.

(** Multiplication by a float between 1 and 2 does not make smaller. *)
Lemma f64_mul_grows p q e :
  Z.pos (digits2_pos p) = 53 → Z.pos (digits2_pos q) = 53 → -500 ≤ e ≤ 500 →
  f64_leb (S754_finite false p e) (f64_mul (S754_finite false p e) (S754_finite false q (-52))) = true.
Proof.
  intros Hp Hq He. change (f64_mul _ _) with (binary_round_aux 53 1024 false (Z.pos (p * q)) (e + -52) loc_Exact).
  pose proof (digits2_bounds p) as Bp. pose proof (digits2_bounds q) as Bq. rewrite Hp in Bp. rewrite Hq in Bq.
  change (53 - 1) with 52 in *. rewrite Pos2Z.inj_mul. set (M := Z.pos p * Z.pos q).
  assert (2 ^ 104 ≤ M < 2 ^ 106) as HM.
  { unfold M. change (2 ^ 104) with (2 ^ 52 * 2 ^ 52). change (2 ^ 106) with (2 ^ 53 * 2 ^ 53). split; [apply Z.mul_le_mono_nonneg; lia|].
    apply Z.mul_lt_mono_nonneg; lia. }
  set (D := Zdigits2 M). assert (D ≤ 106) as HD by (apply digits2_le; lia).
  assert (105 ≤ D) as HD'.
  { destruct (Z.le_gt_cases 105 D) as [|Hgt]; [done|]. pose proof (digits2_lt M ltac:(lia)). fold D in H.
    pose proof (Z.pow_le_mono_r 2 D 104). lia. }
  unfold binary_round_aux. destruct (shr_fexp_spec M (e + -52) loc_Exact) as [H1 H2]; [lia|].
  destruct (shr_fexp 53 1024 M (e + -52) loc_Exact) as [mrs e1]. cbn [fst snd] in *. fold D in H1, H2.
  replace (Z.max 0 (fexp 53 1024 (D + (e + -52)) - (e + -52))) with (D - 53) in H1, H2 by (unfold fexp, emin; lia).
  set (m1 := round_nearest_even (shr_m mrs) (loc_of_shr_record mrs)).
  assert (M / 2 ^ (D - 53) ≤ m1 ≤ M / 2 ^ (D - 53) + 1) as Hm1 by (unfold m1; rewrite <- H1; apply round_nearest_even_bounds).
  assert (D = 105 ∧ Z.pos p ≤ m1 ∨ D = 106 ∧ 2 ^ 51 ≤ m1) as Hlow.
  { destruct (Z.eq_dec D 105) as [E|E]; [left|right]; (split; [lia|]); (etransitivity; [|apply Hm1]).
    - rewrite E. change (105 - 53) with 52. apply Z.div_le_lower_bound; [lia|]. unfold M. rewrite Z.mul_comm. apply Z.mul_le_mono_nonneg_l; lia.
    - replace D with 106 by lia. change (106 - 53) with 53. apply Z.div_le_lower_bound; [lia|]. change (2 ^ 53 * 2 ^ 51) with (2 ^ 104). lia. }
  assert (m1 < 2 ^ 54) as Hup.
  { assert (M / 2 ^ (D - 53) < 2 ^ 53); [|change (2 ^ 54) with (2 * 2 ^ 53); lia]. apply Z.div_lt_upper_bound; [lia|].
    rewrite <- Z.pow_add_r by lia. replace (D - 53 + 53) with D by lia. apply digits2_lt. lia. }
  assert (Zdigits2 m1 ≤ 54) as Hd1 by (apply digits2_le; lia).
  destruct (shr_fexp_spec m1 e1 loc_Exact) as [H3 H4]; [lia|].
  destruct (shr_fexp 53 1024 m1 e1 loc_Exact) as [mrs2 e2]. cbn [fst snd] in *.
  set (k2 := Z.max 0 (fexp 53 1024 (Zdigits2 m1 + e1) - e1)) in *. assert (0 ≤ k2 ≤ 1) as Hk2 by (unfold k2, fexp, emin; lia).
  assert (0 < shr_m mrs2) as Hpos.
  { rewrite H3. apply Z.div_str_pos. split; [lia|]. transitivity (2 ^ 1); [apply Z.pow_le_mono_r; lia|lia]. }
  destruct (shr_m mrs2) as [|r|r]; [lia| |lia]. rewrite (proj2 (Z.leb_le e2 (1024 - 53))) by lia.
  apply f64_leb_intro. destruct Hlow as [[E Hl]|[E _]]; [|left; lia].
  destruct (Z.eq_dec k2 0) as [K|K]; [right|left; lia]. split; [lia|]. rewrite H3, K, Z.div_1_r. lia.
Qed.
