(* ===== verification/PieceCache.v ===== *)
(** * The torrent piece cache (torrstor/cache.go, torrstor/reader.go)

    A cache holds the pieces of one torrent in memory. Readers move through its
    files; the pieces around them get a download priority, and the pieces of
    files nobody reads are released, oldest first, when the cache is over its
    capacity. Reader objects outlive their registration in the cache, so they
    live in a heap ([objs]) beside the set of registered ones. The torrent
    engine is outside: [engPrio] records the priorities that the code has asked
    of it, and the engine's own reader is a parameter. *)

From S2P Require Import Prelude Float64 Ranges MemPiece.

(** [types.PiecePriority], in its order. *)
Definition PrioNone : Z := 0.
Definition PrioNormal : Z := 1.
Definition PrioHigh : Z := 2.
Definition PrioReadahead : Z := 3.
Definition PrioNext : Z := 4.
Definition PrioNow : Z := 5.

Definition SeekStart : Z := 0.
Definition SeekCurrent : Z := 1.
Definition SeekEnd : Z := 2.

Section piececache.

(** ** Parameters *)

(** The engine's reader: its state, [Seek] with the new position and whether it
    failed, [Read] of so many bytes, [SetReadahead]. *)
Context {TR : Type} (tr_Seek : TR → Z → Z → Z * bool * TR) (tr_Read : TR → Z → Z * bool * TR)
  (tr_SetReadahead : TR → Z → TR).

(** The settings the cache reads, and the processor's conversion of floats that
    are out of range. *)
Context (CacheSize ReaderReadAHead ConnectionsLimit : Z) (undef : float64 → Z).

Context {slice_sort : SliceSort} {map_range : MapRange}.

(** ** Data *)

Record Reader := MkReader {
  offset : Z;
  readahead : Z;
  file : File;
  r_isClosed : bool;
  lastAccess : Z;
  isUse : bool;
  tr : TR;
}.

(** A nil map is [None]. *)
Record Cache := MkCache {
  capacity : Z;
  filled : Z;
  pieceLength : Z;
  pieceCount : Z;
  pieces : option (gmap Z Piece);
  objs : gmap nat Reader;
  readers : option (gset nat);
  activeReaders : Z;
  isRemove : bool;
  isClosed : bool;
  IsAggressive : bool;
  MasterLimit : Z;
  lastClean : Z;
  hasTorrent : bool;
  localPriority : gmap Z Z;
  pieceInRange : list bool;
  engPrio : gmap Z Z;
}.

Definition set_objs (o : gmap nat Reader) (act : Z) (c : Cache) : Cache :=
  MkCache (capacity c) (filled c) (pieceLength c) (pieceCount c) (pieces c) o (readers c) act
    (isRemove c) (isClosed c) (IsAggressive c) (MasterLimit c) (lastClean c) (hasTorrent c)
    (localPriority c) (pieceInRange c) (engPrio c).
Definition set_readers (rs : option (gset nat)) (c : Cache) : Cache :=
  MkCache (capacity c) (filled c) (pieceLength c) (pieceCount c) (pieces c) (objs c) rs
    (activeReaders c) (isRemove c) (isClosed c) (IsAggressive c) (MasterLimit c) (lastClean c)
    (hasTorrent c) (localPriority c) (pieceInRange c) (engPrio c).
Definition set_prio (lp ep : gmap Z Z) (c : Cache) : Cache :=
  MkCache (capacity c) (filled c) (pieceLength c) (pieceCount c) (pieces c) (objs c) (readers c)
    (activeReaders c) (isRemove c) (isClosed c) (IsAggressive c) (MasterLimit c) (lastClean c)
    (hasTorrent c) lp (pieceInRange c) ep.
Definition set_pieces (ps : option (gmap Z Piece)) (c : Cache) : Cache :=
  MkCache (capacity c) (filled c) (pieceLength c) (pieceCount c) ps (objs c) (readers c)
    (activeReaders c) (isRemove c) (isClosed c) (IsAggressive c) (MasterLimit c) (lastClean c)
    (hasTorrent c) (localPriority c) (pieceInRange c) (engPrio c).
Definition set_scan (f : Z) (bm : list bool) (c : Cache) : Cache :=
  MkCache (capacity c) f (pieceLength c) (pieceCount c) (pieces c) (objs c) (readers c)
    (activeReaders c) (isRemove c) (isClosed c) (IsAggressive c) (MasterLimit c) (lastClean c)
    (hasTorrent c) (localPriority c) bm (engPrio c).
Definition set_clean (rm : bool) (t : Z) (c : Cache) : Cache :=
  MkCache (capacity c) (filled c) (pieceLength c) (pieceCount c) (pieces c) (objs c) (readers c)
    (activeReaders c) rm (isClosed c) (IsAggressive c) (MasterLimit c) t
    (hasTorrent c) (localPriority c) (pieceInRange c) (engPrio c).

Definition NewCache (cap : Z) : Cache :=
  MkCache cap 0 0 0 (Some ∅) ∅ (Some ∅) 0 false false false 0 0 false ∅ [] ∅.

Definition Init (infoPieceLength numPieces : Z) (c : Cache) : Cache :=
  MkCache (if capacity c =? 0 then infoPieceLength * 4 else capacity c) (filled c)
    infoPieceLength numPieces
    ((λ m, foldr (λ i m, <[Z.of_nat i := NewPiece]> m) m (seq 0 (Z.to_nat numPieces))) <$> pieces c)
    (objs c) (readers c) (activeReaders c) (isRemove c) (isClosed c) (IsAggressive c) (MasterLimit c)
    (lastClean c) (hasTorrent c) (localPriority c) (replicate (Z.to_nat numPieces) false) (engPrio c).

Definition SetTorrent (c : Cache) : Cache :=
  MkCache (capacity c) (filled c) (pieceLength c) (pieceCount c) (pieces c) (objs c) (readers c)
    (activeReaders c) (isRemove c) (isClosed c) (IsAggressive c) (MasterLimit c) (lastClean c)
    true (localPriority c) (pieceInRange c) (engPrio c).

Definition SetAggressive (enabled : bool) (masterLimit : Z) (c : Cache) : Cache :=
  MkCache (capacity c) (filled c) (pieceLength c) (pieceCount c) (pieces c) (objs c) (readers c)
    (activeReaders c) (isRemove c) (isClosed c) enabled
    (if 0 <? masterLimit then masterLimit else MasterLimit c) (lastClean c)
    (hasTorrent c) (localPriority c) (pieceInRange c) (engPrio c).

(** [Close] closes a channel: a second call panics. *)
Definition Close (c : Cache) : option Cache :=
  if isClosed c then None
  else Some (MkCache (capacity c) (filled c) (pieceLength c) (pieceCount c) None (objs c) None
    (activeReaders c) (isRemove c) true (IsAggressive c) (MasterLimit c) (lastClean c)
    (hasTorrent c) (localPriority c) (pieceInRange c) (engPrio c)).

Definition Readers (c : Cache) : nat := match readers c with Some rs => size rs | None => 0 end.
Definition GetUseReaders (c : Cache) : Z := activeReaders c.
Definition GetCapacity (c : Cache) : Z := capacity c.

(** ** Readers *)

Definition SetReadahead (len : Z) (r : Reader) : Reader :=
  MkReader (offset r) len (file r) (r_isClosed r) (lastAccess r) (isUse r)
    (if isUse r then tr_SetReadahead (tr r) len else tr r).

(** [readerOn] and [readerOff]: the reader and the change of [activeReaders]. *)
Definition readerOn (r : Reader) : Reader * Z :=
  if isUse r then (r, 0)
  else
    let '(pos, err, t) := tr_Seek (tr r) 0 SeekCurrent in
    let t := if negb err && (pos =? 0) then (tr_Seek t (offset r) SeekStart).2 else t in
    let r := MkReader (offset r) (readahead r) (file r) (r_isClosed r) (lastAccess r) (isUse r) t in
    let r := SetReadahead (readahead r) r in
    (MkReader (offset r) (readahead r) (file r) (r_isClosed r) (lastAccess r) true (tr r), 1).

Definition readerOff (r : Reader) : Reader * Z :=
  if isUse r then
    let r := SetReadahead 0 r in
    (MkReader (offset r) (readahead r) (file r) (r_isClosed r) (lastAccess r) false
       (if 0 <? offset r then (tr_Seek (tr r) 0 SeekStart).2 else tr r), -1)
  else (r, 0).

(** An operation of one reader, applied to the heap and the counter. *)
Definition on_reader (id : nat) (f : Reader → Reader * Z) (c : Cache) : Cache :=
  match objs c !! id with
  | Some r => let '(r', d) := f r in set_objs (<[id := r']> (objs c)) (activeReaders c + d) c
  | None => c
  end.

Definition checkReader (now : Z) (id : nat) (c : Cache) : Cache :=
  on_reader id (λ r, if (lastAccess r + 60 <? now) && (1 <? Readers c)%nat
                     then readerOff r else readerOn r) c.

(** [newReader]: the first [SetReadahead] finds no cache and does nothing. *)
Definition newReader (id : nat) (f : File) (t : TR) (c : Cache) : Cache :=
  let c := SetAggressive true 0 c in
  set_readers ((λ rs, rs ∪ {[id]}) <$> readers c)
    (set_objs (<[id := MkReader 0 0 f false 0 true t]> (objs c)) (activeReaders c + 1) c).

(** [Seek] returns the position and whether it failed. *)
Definition Seek (id : nat) (off whence now : Z) (c : Cache) : (Z * bool) * Cache :=
  match objs c !! id with
  | Some r =>
      if r_isClosed r then ((0, true), c)
      else
        let o := if whence =? SeekStart then off
                 else if whence =? SeekCurrent then offset r + off
                 else if whence =? SeekEnd then f_Length (file r) + off else offset r in
        let r := MkReader o (readahead r) (file r) (r_isClosed r) (lastAccess r) (isUse r) (tr r) in
        let '(r, d) := readerOn r in
        let '(n, err, t) := tr_Seek (tr r) off whence in
        ((n, err), set_objs (<[id := MkReader n (readahead r) (file r) (r_isClosed r) now (isUse r) t]>
           (objs c)) (activeReaders c + d) c)
  | None => ((0, true), c)
  end.

(** [Read] of [len] bytes; [info] says whether the torrent still has its info. *)
Definition Read (id : nat) (len now : Z) (info : bool) (c : Cache) : (Z * bool) * Cache :=
  match objs c !! id with
  | Some r =>
      if r_isClosed r then ((0, true), c)
      else if info then
        let '(r, d) := readerOn r in
        let '(n, err, t) := tr_Read (tr r) len in
        ((n, err), set_objs (<[id := MkReader (offset r + n) (readahead r) (file r) (r_isClosed r) now
           (isUse r) t]> (objs c)) (activeReaders c + d) c)
      else ((0, true), c)
  | None => ((0, true), c)
  end.

(** [Reader.Close]; the scan it starts in the background is a step of its own. *)
Definition Reader_Close (id : nat) (c : Cache) : Cache :=
  on_reader id (λ r, if r_isClosed r then (r, 0)
    else readerOff (MkReader (offset r) (readahead r) (file r) true (lastAccess r) (isUse r) (tr r))) c.

Definition CloseReader (id : nat) (c : Cache) : Cache :=
  match readers c with
  | Some rs => if isClosed c then c
               else let c := Reader_Close id c in set_readers (Some (rs ∖ {[id]})) c
  | None => c
  end.

Definition getPieceNum (c : Cache) (r : Reader) (off : Z) : Z :=
  (off + f_Offset (file r)) /t pieceLength c.

Definition getOffsetRange (c : Cache) (r : Reader) : Z * Z :=
  let prc := ReaderReadAHead in
  let readers := if activeReaders c =? 0 then 1 else activeReaders c in
  let part (p : Z) : Z :=
    f64_to_int64 undef (f64_div (f64_mul (f64_mul (f64_of_Z (capacity c /t readers)) (f64_lit 85 2))
      (f64_of_Z p)) (f64_of_Z 100)) in
  let beginOffset := offset r - part (100 - prc) in
  let endOffset := offset r + part prc in
  (if beginOffset <? 0 then 0 else beginOffset,
   if f_Length (file r) <? endOffset then f_Length (file r) else endOffset).

Definition getPiecesRange (c : Cache) (r : Reader) : Range :=
  let '(startOff, endOff) := getOffsetRange c r in
  MkRange (getPieceNum c r startOff) (getPieceNum c r endOff) (file r).

Definition getReaderPiece (c : Cache) (r : Reader) : Z := getPieceNum c r (offset r).
Definition getReaderRAHPiece (c : Cache) (r : Reader) : Z := getPieceNum c r (offset r + readahead r).

Definition AdjustRA (ra now : Z) (c : Cache) : Cache :=
  let c := if CacheSize =? 0
           then MkCache (ra * 3) (filled c) (pieceLength c) (pieceCount c) (pieces c) (objs c) (readers c)
             (activeReaders c) (isRemove c) (isClosed c) (IsAggressive c) (MasterLimit c) (lastClean c)
             (hasTorrent c) (localPriority c) (pieceInRange c) (engPrio c)
           else c in
  foldl (λ c id, on_reader id (λ r, (SetReadahead ra r, 0)) c) c
    (from_option (λ rs, range_order now (elements rs)) [] (readers c)).

(** ** Priorities *)

Definition registered (now : Z) (c : Cache) : list nat :=
  from_option (λ rs, range_order now (elements rs)) [] (readers c).

(** The ranges of the readers in use, in the order the loop visits them. *)
Definition use_ranges (ids : list nat) (c : Cache) : list Range :=
  omap (λ id, r ← objs c !! id; if isUse r then Some (getPiecesRange c r) else None) ids.

(** The loops that check each reader before they take its range. *)
Fixpoint check_ranges (now : Z) (ids : list nat) (c : Cache) : list Range * Cache :=
  match ids with
  | [] => ([], c)
  | id :: rest =>
      let c := checkReader now id c in
      let '(rs, c') := check_ranges now rest c in
      (use_ranges [id] c ++ rs, c')
  end.

Definition isIdInFileBE (c : Cache) (ranges : list Range) (id : Z) : bool :=
  let keep := if pieceLength c <? 8 * MiB then 8 * MiB else pieceLength c in
  existsb (λ rng,
    let o := f_Offset (rFile rng) in let l := f_Length (rFile rng) in
    let ss := o /t pieceLength c in
    let se := (o + keep) /t pieceLength c in
    let es := (o + l - keep) /t pieceLength c in
    let ee := (o + l) /t pieceLength c in
    ((ss <=? id) && (id <? se)) || ((es <? id) && (id <=? ee))) ranges.

Definition SetPriority (id p : Z) (ep : gmap Z Z) : gmap Z Z := <[id := p]> ep.
Definition SetPiecePriorities (batch ep : gmap Z Z) : gmap Z Z := batch ∪ ep.

(** The priority of piece [i] for a reader; 0 leaves it as it is. *)
Definition piece_prio (readerPos readerRAHPos highPriorityWindow i : Z) (local : Z) : Z :=
  if i =? readerPos then PrioNow
  else if i =? readerPos + 1 then PrioNext
  else if (readerPos <? i) && (i <=? readerRAHPos) then PrioReadahead
  else if (readerRAHPos <? i) && (i <=? readerRAHPos + highPriorityWindow) then
    if local =? PrioHigh then 0 else PrioHigh
  else if readerRAHPos + highPriorityWindow <? i then
    if local =? PrioNormal then 0 else PrioNormal
  else 0.

(** The loop over the pieces ahead of a reader, with the local record and the
    batch; [None] when a piece is missing. Each turn moves to the next piece. *)
Fixpoint prio_loop (fuel : nat) (ps : gmap Z Piece) (readerPos rah hpw i limit count : Z)
    (lp batch : gmap Z Z) : option (gmap Z Z * gmap Z Z) :=
  match fuel with
  | O => Some (lp, batch)
  | S fuel' =>
      if limit <? count then
        p ← ps !! i;
        if Complete p then prio_loop fuel' ps readerPos rah hpw (i + 1) limit count lp batch
        else
          let prio := piece_prio readerPos rah hpw i (default 0 (lp !! i)) in
          let '(lp, batch) := if prio =? 0 then (lp, batch) else (<[i := prio]> lp, <[i := prio]> batch) in
          prio_loop fuel' ps readerPos rah hpw (i + 1) (limit + 1) count lp batch
      else Some (lp, batch)
  end.

Definition download_count (c : Cache) (numReaders : Z) : Z :=
  let effectiveLimit := if 0 <? MasterLimit c then MasterLimit c else ConnectionsLimit in
  let count := effectiveLimit /t numReaders in
  let count := if IsAggressive c then
                 let n := if capacity c <? filled c then 1
                          else f64_to_int64 undef (f64_mul (f64_of_Z effectiveLimit) (f64_lit 8 1)) in
                 if n <? 1 then 1 else n
               else count in
  if count <? 1 then 1 else count.

(** The priorities for one reader. *)
Definition reader_priority (ranges : list Range) (hpw : Z) (id : nat) (c : Cache) : option Cache :=
  match objs c !! id with
  | Some r =>
      if negb (isUse r) || isIdInFileBE c ranges (getReaderPiece c r) then Some c
      else
        ps ← pieces c;
        let readerPos := getReaderPiece c r in
        let stop := Z.min (End_ (getPiecesRange c r)) (pieceCount c) in
        let numReaders := if (Readers c =? 0)%nat then 1 else Z.of_nat (Readers c) in
        '(lp, batch) ← prio_loop (Z.to_nat (stop - readerPos)) ps readerPos (getReaderRAHPiece c r) hpw
          readerPos 0 (download_count c numReaders) (localPriority c) ∅;
        Some (set_prio lp (SetPiecePriorities batch (engPrio c)) c)
  | None => Some c
  end.

Definition setLoadPriority (now : Z) (ranges : list Range) (c : Cache) : option Cache :=
  if negb (hasTorrent c) then Some c
  else
    let hpw := capacity c /t pieceLength c /t 10 in
    let hpw := if hpw <? 5 then 5 else hpw in
    foldl (λ oc id, c ← oc; reader_priority ranges hpw id c) (Some c) (registered now c).

Definition is_nil {A} (o : option A) : bool := match o with Some _ => false | None => true end.

Definition clearPriority (now : Z) (c : Cache) : Cache :=
  if negb (hasTorrent c) || isClosed c || is_nil (pieces c) || is_nil (readers c) then c
  else
    let '(ranges, c) := check_ranges now (registered now c) c in
    let ranges := mergeRange ranges in
    let drop (id : Z) : bool := bool_decide (ranges = []) || negb (inRanges ranges id) in
    set_prio (filter (λ kv : Z * Z, drop kv.1 = false) (localPriority c))
      (map_imap (λ id p, Some (if bool_decide (is_Some (localPriority c !! id)) && drop id
                               then PrioNone else p)) (engPrio c)) c.

Definition refreshPriorities (now : Z) (c : Cache) : option Cache :=
  if isClosed c || negb (hasTorrent c) || is_nil (pieces c) || is_nil (readers c) then Some c
  else setLoadPriority now (mergeRange (use_ranges (registered now c) c)) c.

(** ** Eviction *)

(** [for i := start; i <= end; i++ { pieceInRange[i] = true }] panics out of range. *)
Definition mark_range (first last : Z) (bm : list bool) : option (list bool) :=
  foldl (λ obm i, bm ← obm;
    let k := first + Z.of_nat i in
    if (0 <=? k) && (k <? Z.of_nat (length bm)) then Some (<[Z.to_nat k := true]> bm) else None)
    (Some bm) (seq 0 (Z.to_nat (last - first + 1))).

Definition file_pieces (c : Cache) (rng : Range) : Z * Z :=
  let first := f_Offset (rFile rng) /t pieceLength c in
  let last := (f_Offset (rFile rng) + f_Length (rFile rng)) /t pieceLength c in
  (first, if pieceCount c <=? last then pieceCount c - 1 else last).

Definition build_bitmap (c : Cache) (ranges : list Range) : option (list bool) :=
  foldl (λ obm rng, bm ← obm; let '(first, last) := file_pieces c rng in mark_range first last bm)
    (Some (replicate (length (pieceInRange c)) false)) ranges.

(** Whether a piece is a candidate; [None] when its number is not in the bitmap. *)
Definition removable (c : Cache) (ranges : list Range) (bm : list bool) (id : Z) (p : Piece) : option bool :=
  b ← (if id <? 0 then None else bm !! Z.to_nat id);
  Some (if b : bool then false else (0 <? Size p) && negb (isIdInFileBE c ranges id)).

Fixpoint scan_pieces (c : Cache) (ranges : list Range) (bm : list bool) (l : list (Z * Piece))
    : option (Z * list (Z * Piece)) :=
  match l with
  | [] => Some (0, [])
  | (id, p) :: rest =>
      b ← removable c ranges bm id p;
      '(fill, rem) ← scan_pieces c ranges bm rest;
      Some ((if 0 <? Size p then Size p + fill else fill), if b : bool then (id, p) :: rem else rem)
  end.

Definition older (a b : Z * Piece) : bool := Accessed a.2 <? Accessed b.2.

(** The candidates, oldest first, and the new state; [None] when the code
    panics. *)
Definition getRemPieces (now : Z) (c : Cache) : option (list (Z * Piece) * Cache) :=
  match pieces c, readers c with
  | Some ps, Some _ =>
      if isClosed c then Some ([], c)
      else
        let '(ranges, c) := check_ranges now (registered now c) c in
        let ranges := mergeRange ranges in
        bm ← build_bitmap c ranges;
        '(fill, rem) ← scan_pieces c ranges bm (range_order now (map_to_list ps));
        let c := clearPriority now (set_scan (filled c) bm c) in
        c ← setLoadPriority now ranges c;
        Some (sort_slice older rem, set_scan fill (pieceInRange c) c)
  | _, _ => Some ([], c)
  end.

Definition release_piece (p : Piece) : Piece := MkPiece 0 false (Accessed p) None.

Definition removePiece (id : Z) (c : Cache) : Cache :=
  if isClosed c then c
  else set_prio (localPriority c) (SetPriority id PrioNone (engPrio c))
         (set_pieces (alter release_piece id <$> pieces c) c).

Definition second_ns : Z := 1000000000.

(** [cleanPieces] at the time [now] (nanoseconds), with the outcome of the
    [TryLock]. *)
Definition cleanPieces (now : Z) (locked : bool) (c : Cache) : option Cache :=
  if isRemove c || isClosed c then Some c
  else
    c ← refreshPriorities now c;
    if (now - lastClean c <? second_ns) && (filled c <? capacity c * 9 /t 10) then Some c
    else if locked then Some c
    else
      let c := set_clean true now c in
      '(rem, c) ← getRemPieces (now /t second_ns) c;
      let c := if capacity c <? filled c then
                 let rems := (filled c - capacity c) /t pieceLength c + 1 in
                 foldl (λ c ip, removePiece ip.1 c) c (take (Z.to_nat rems) rem)
               else c in
      Some (set_clean false (lastClean c) c).

(** ** Readers: the invariant *)

Definition use (r : Reader) : Z := if isUse r then 1 else 0.

(** The engine's reader never reports a negative position or count. *)
Context (tr_Seek_nonneg : ∀ t o w, 0 ≤ (tr_Seek t o w).1.1)
        (tr_Read_nonneg : ∀ t n, 0 ≤ (tr_Read t n).1.1).

Definition reader_ok (r : Reader) : Prop :=
  0 ≤ offset r ∧ 0 ≤ f_Offset (file r) ∧ 0 ≤ f_Length (file r).

Record readers_inv (c : Cache) : Prop := {
  ri_active : activeReaders c = map_sum use (objs c);
  ri_objs rs id : readers c = Some rs → id ∈ rs → is_Some (objs c !! id);
  ri_ok id r : objs c !! id = Some r → reader_ok r;
}.

(** What the cache is apart from its readers. *)
Definition same_but_readers (c c' : Cache) : Prop :=
  ∃ o a, c' = set_objs o a c.

(** A change of one reader that accounts for its use. *)
Definition reader_change (f : Reader → Reader * Z) : Prop :=
  ∀ r, (f r).2 = use (f r).1 - use r ∧ (reader_ok r → reader_ok (f r).1) ∧ file (f r).1 = file r.

Lemma readerOn_change : reader_change readerOn.
Proof.
  intros r. unfold readerOn, use. destruct (isUse r) eqn:Hu; simpl.
  { rewrite Hu. auto with lia. }
  destruct (tr_Seek (tr r) 0 SeekCurrent) as [[pos err] t]. simpl. auto.
Qed.

Lemma readerOff_change : reader_change readerOff.
Proof. intros r. unfold readerOff, use. destruct (isUse r) eqn:Hu; simpl; rewrite ?Hu; auto with lia. Qed.

Lemma on_reader_inv id f c : reader_change f → readers_inv c → readers_inv (on_reader id f c).
Proof.
  intros Hf [Ha Ho Hok]. unfold on_reader. destruct (objs c !! id) as [r|] eqn:Hr; [|done].
  destruct (Hf r) as (Hd & Hk & _). destruct (f r) as [r' d]. simpl in *. subst d. split; simpl.
  - rewrite (map_sum_insert_old _ _ _ _ r) by done. lia.
  - intros rs id' Hrs Hin. rewrite lookup_insert_is_Some'. eauto.
  - intros id' r0. rewrite lookup_insert. case_decide; intros; simplify_eq; eauto.
Qed.

Lemma on_reader_same id f c : same_but_readers c (on_reader id f c).
Proof.
  unfold on_reader, same_but_readers. destruct (objs c !! id); [destruct (f _)|]; eauto.
  exists (objs c), (activeReaders c). by destruct c.
Qed.

Lemma same_but_refl c : same_but_readers c c.
Proof. exists (objs c), (activeReaders c). by destruct c. Qed.

Lemma same_but_trans c1 c2 c3 : same_but_readers c1 c2 → same_but_readers c2 c3 → same_but_readers c1 c3.
Proof. intros (o & a & ->) (o' & a' & ->). by exists o', a'. Qed.

Lemma check_change now c : reader_change (λ r, if (lastAccess r + 60 <? now) && (1 <? Readers c)%nat
                                               then readerOff r else readerOn r).
Proof. intros r. case_if; [apply readerOff_change|apply readerOn_change]. Qed.

Lemma checkReader_inv now id c : readers_inv c → readers_inv (checkReader now id c).
Proof. apply on_reader_inv, check_change. Qed.

Lemma check_ranges_ok now ids c ranges c' :
  check_ranges now ids c = (ranges, c') →
  (readers_inv c → readers_inv c') ∧ same_but_readers c c'.
Proof.
  revert c ranges c'. induction ids as [|id ids IH]; simpl; intros c ranges c' H.
  { simplify_eq. split; [done|apply same_but_refl]. }
  destruct (check_ranges now ids (checkReader now id c)) as [rs c1] eqn:Hc. simplify_eq.
  destruct (IH _ _ _ Hc) as [H1 H2]. split.
  - intros Hi. by apply H1, checkReader_inv.
  - eapply same_but_trans; [apply on_reader_same|done].
Qed.

(** The file of every range belongs to a registered reader. *)
Lemma check_ranges_files now ids c ranges c' rng :
  check_ranges now ids c = (ranges, c') → rng ∈ ranges →
  ∃ id r, id ∈ ids ∧ objs c !! id = Some r ∧ rFile rng = file r.
Proof.
  revert c ranges c'. induction ids as [|id ids IH]; simpl; intros c ranges c' H Hin.
  { simplify_eq. set_solver. }
  destruct (check_ranges now ids (checkReader now id c)) as [rs c1] eqn:Hc. simplify_eq.
  assert (∀ id' r', objs (checkReader now id c) !! id' = Some r' →
    ∃ r0, objs c !! id' = Some r0 ∧ file r' = file r0) as Hfile.
  { intros id' r'. unfold checkReader, on_reader. destruct (objs c !! id) as [r|] eqn:Hr; [|eauto].
    destruct (check_change now c r) as (_ & _ & Hf). cbv beta in Hf.
    destruct (if _ : bool then readerOff r else readerOn r) as [r1 d]. simpl in *.
    rewrite lookup_insert. case_decide; intros; simplify_eq; eauto. }
  apply elem_of_app in Hin as [Hin|Hin].
  - simpl in Hin. destruct (objs (checkReader now id c) !! id) as [r|] eqn:Hr; simpl in Hin; [|set_solver].
    destruct (Hfile _ _ Hr) as (r0 & Hr0 & Hf).
    destruct (isUse r); simpl in Hin; [|set_solver]. apply list_elem_of_singleton in Hin as ->.
    exists id, r0. split_and!; [set_solver|done|].
    unfold getPiecesRange. by destruct (getOffsetRange _ _).
  - destruct (IH _ _ _ Hc Hin) as (id' & r & ? & Hr & Hf). destruct (Hfile _ _ Hr) as (r0 & ? & ?).
    exists id', r0. split_and!; [set_solver|done|congruence].
Qed.

(** ** The bitmap *)

Lemma mark_range_spec first last bm :
  0 ≤ first → last < Z.of_nat (length bm) →
  ∃ bm', mark_range first last bm = Some bm' ∧ length bm' = length bm ∧
    ∀ i b, bm !! i = Some b → bm' !! i = Some (b || (first <=? Z.of_nat i) && (Z.of_nat i <=? last)).
Proof.
  intros Hf Hl. unfold mark_range.
  assert (∀ n, (Z.of_nat n ≤ Z.max 0 (last - first + 1)) →
    ∃ bm', foldl (λ obm i, bm ← obm; let k := first + Z.of_nat i in
      if (0 <=? k) && (k <? Z.of_nat (length bm)) then Some (<[Z.to_nat k := true]> bm) else None)
      (Some bm) (seq 0 n) = Some bm' ∧ length bm' = length bm ∧
    ∀ i b, bm !! i = Some b → bm' !! i = Some (b || (first <=? Z.of_nat i) && (Z.of_nat i <? first + Z.of_nat n)))
    as Hind.
  { induction n as [|n IH]; intros Hn.
    - exists bm. split_and!; [done..|]. intros i b Hi. rewrite Hi. f_equal.
      assert ((first <=? Z.of_nat i) && (Z.of_nat i <? first + Z.of_nat 0) = false) as ->
        by (apply andb_false_iff; rewrite Z.leb_gt, Z.ltb_ge; lia).
      by rewrite orb_false_r.
    - destruct IH as (bm1 & Heq & Hlen & Hbm); [lia|]. rewrite seq_S, foldl_app, Heq. simpl.
      assert ((0 <=? first + Z.of_nat n) && (first + Z.of_nat n <? Z.of_nat (length bm1)) = true) as -> by lia.
      eexists. split; [done|]. rewrite length_insert. split; [done|]. intros i b Hi.
      apply lookup_lt_Some in Hi as Hlt. specialize (Hbm i b Hi).
      destruct (decide (i = Z.to_nat (first + Z.of_nat n))) as [->|Hne].
      + rewrite list_lookup_insert_eq by lia. f_equal. symmetry. apply orb_true_iff. right.
        apply andb_true_iff. rewrite Z.leb_le, Z.ltb_lt. lia.
      + rewrite list_lookup_insert_ne by done. rewrite Hbm. do 3 f_equal.
        apply eq_bool_prop_intro. rewrite !Is_true_true, !Z.ltb_lt. lia. }
  destruct (Hind (Z.to_nat (last - first + 1))) as (bm' & Heq & Hlen & Hbm); [lia|].
  exists bm'. split_and!; [exact Heq|done|]. intros i b Hi. rewrite (Hbm i b Hi). f_equal. apply eq_bool_prop_intro.
  rewrite !orb_True, !andb_True, !Is_true_true, !Z.ltb_lt, !Z.leb_le.
  assert (Z.of_nat i < first + Z.of_nat (Z.to_nat (last - first + 1)) ↔
    Z.of_nat i < first ∨ Z.of_nat i ≤ last) by lia.
  assert (Z.of_nat i < first → ¬ first ≤ Z.of_nat i) by lia. tauto.
Qed.

(** A piece lies within the pieces of the range's file. *)
Definition in_file (c : Cache) (rng : Range) (id : Z) : bool :=
  let '(first, last) := file_pieces c rng in (first <=? id) && (id <=? last).

Record cache_wf (c : Cache) : Prop := {
  cw_len : 0 < pieceLength c;
  cw_count : 0 ≤ pieceCount c;
  cw_bitmap : Z.of_nat (length (pieceInRange c)) = pieceCount c;
  cw_pieces ps id : pieces c = Some ps → is_Some (ps !! id) ↔ 0 ≤ id < pieceCount c;
}.

Definition file_ok (rng : Range) : Prop := 0 ≤ f_Offset (rFile rng) ∧ 0 ≤ f_Length (rFile rng).

Lemma file_pieces_bounds c rng first last :
  cache_wf c → file_ok rng → file_pieces c rng = (first, last) → 0 ≤ first ∧ last < pieceCount c.
Proof.
  intros Hwf [Ho Hl] [= <- <-]. pose proof (cw_len _ Hwf). split; [apply Z.quot_pos; lia|].
  case_if; zbool; lia.
Qed.

Lemma build_bitmap_spec c ranges :
  cache_wf c → Forall file_ok ranges →
  ∃ bm, build_bitmap c ranges = Some bm ∧ Z.of_nat (length bm) = pieceCount c ∧
    ∀ id, 0 ≤ id < pieceCount c → bm !! Z.to_nat id = Some (existsb (λ rng, in_file c rng id) ranges).
Proof.
  intros Hwf Hok. unfold build_bitmap. set (bm0 := replicate _ false).
  assert (∀ bm, Z.of_nat (length bm) = pieceCount c →
    ∃ bm', foldl (λ obm rng, bm ← obm; let '(first, last) := file_pieces c rng in mark_range first last bm)
      (Some bm) ranges = Some bm' ∧ Z.of_nat (length bm') = pieceCount c ∧
    ∀ i b, bm !! i = Some b → bm' !! i = Some (b || existsb (λ rng, in_file c rng (Z.of_nat i)) ranges)) as Hind.
  { induction Hok as [|rng ranges Hr Hok IH]; intros bm Hl.
    - exists bm. split_and!; [done..|]. intros i b Hi. by rewrite orb_false_r.
    - cbn [foldl mbind option_bind existsb]. unfold in_file at 1.
      destruct (file_pieces c rng) as [first last] eqn:Hfp.
      destruct (file_pieces_bounds _ _ _ _ Hwf Hr Hfp) as [Hb1 Hb2].
      destruct (mark_range_spec first last bm) as (bm1 & -> & Hl1 & Hbm1); [lia..|].
      destruct (IH bm1) as (bm' & -> & Hl' & Hbm'); [lia|]. exists bm'. split_and!; [done..|].
      intros i b Hi. rewrite (Hbm' _ _ (Hbm1 _ _ Hi)). by rewrite orb_assoc. }
  destruct (Hind bm0) as (bm & Heq & Hl & Hbm).
  { unfold bm0. rewrite length_replicate. apply Hwf. }
  exists bm. split_and!; [done..|]. intros id Hid. rewrite (Hbm _ false).
  - rewrite Z2Nat.id by lia. done.
  - unfold bm0. apply lookup_replicate. split; [done|]. pose proof (cw_bitmap _ Hwf). lia.
Qed.

(** ** The scan *)

Definition candidate (c : Cache) (ranges : list Range) (id : Z) (p : Piece) : bool :=
  negb (existsb (λ rng, in_file c rng id) ranges) && (0 <? Size p) && negb (isIdInFileBE c ranges id).

Lemma scan_pieces_spec c ranges bm l :
  (∀ id p, (id, p) ∈ l → 0 ≤ id ∧ bm !! Z.to_nat id = Some (existsb (λ rng, in_file c rng id) ranges)) →
  scan_pieces c ranges bm l =
  Some (Zsum ((λ ip : Z * Piece, Z.max 0 (Size ip.2)) <$> l),
        filter (λ ip : Z * Piece, candidate c ranges ip.1 ip.2 = true) l).
Proof.
  induction l as [|[id p] l IH]; intros Hl; [done|]. cbn [scan_pieces].
  destruct (Hl id p) as [Hid Hbm]; [set_solver|]. unfold removable.
  assert ((id <? 0) = false) as -> by lia. rewrite Hbm. cbn [mbind option_bind].
  rewrite IH by set_solver. cbn [mbind option_bind].
  do 2 f_equal.
  { rewrite fmap_cons, Zsum_cons. cbn [snd]. destruct (Z.ltb_spec 0 (Size p)); lia. }
  rewrite filter_cons. cbn [fst snd]. unfold candidate.
  destruct (existsb _ ranges); simpl; [done|].
  destruct ((0 <? Size p) && negb (isIdInFileBE c ranges id)); done.
Qed.

(** ** The priorities *)

(** The priorities asked of the engine are all on record: a piece the engine
    wants is in [localPriority]. *)
Definition prio_inv (lp ep : gmap Z Z) : Prop :=
  ∀ id p, ep !! id = Some p → p ≠ PrioNone → is_Some (lp !! id).

Lemma prio_loop_spec fuel ps readerPos rah hpw i limit count lp batch :
  (∀ k, i ≤ k < i + Z.of_nat fuel → is_Some (ps !! k)) →
  (∀ k, is_Some (batch !! k) → is_Some (lp !! k)) →
  ∃ lp' batch', prio_loop fuel ps readerPos rah hpw i limit count lp batch = Some (lp', batch') ∧
    (∀ k, is_Some (batch' !! k) → is_Some (lp' !! k)) ∧ (∀ k, is_Some (lp !! k) → is_Some (lp' !! k)).
Proof.
  revert i limit lp batch. induction fuel as [|fuel IH]; intros i limit lp batch Hps Hb; cbn [prio_loop].
  { eauto 10. }
  case_if; [|eauto 10]. destruct (Hps i) as [p Hp]; [lia|]. rewrite Hp. cbn [mbind option_bind].
  assert (∀ k, i + 1 ≤ k < i + 1 + Z.of_nat fuel → is_Some (ps !! k)) as Hps' by (intros; apply Hps; lia).
  destruct (Complete p); [by apply IH|]. set (prio := piece_prio _ _ _ _ _).
  destruct (prio =? 0); [by apply IH|].
  destruct (IH (i + 1) (limit + 1) (<[i := prio]> lp) (<[i := prio]> batch)) as (lp' & b' & ? & ? & Hk); [done| |].
  { intros k. rewrite !lookup_insert_is_Some'. intros [?|?]; auto. }
  exists lp', b'. split_and!; [done..|]. intros k Hk'. apply Hk. rewrite lookup_insert_is_Some'. auto.
Qed.

(** Everything but the priorities. *)
Definition same_but_prio (c c' : Cache) : Prop := ∃ lp ep, c' = set_prio lp ep c.

Lemma same_prio_refl c : same_but_prio c c.
Proof. exists (localPriority c), (engPrio c). by destruct c. Qed.

Lemma same_prio_trans c1 c2 c3 : same_but_prio c1 c2 → same_but_prio c2 c3 → same_but_prio c1 c3.
Proof. intros (o & a & ->) (o' & a' & ->). by exists o', a'. Qed.

Lemma reader_priority_spec ranges hpw id c :
  cache_wf c → readers_inv c → (∃ ps, pieces c = Some ps) →
  prio_inv (localPriority c) (engPrio c) →
  ∃ c', reader_priority ranges hpw id c = Some c' ∧ same_but_prio c c' ∧
    prio_inv (localPriority c') (engPrio c').
Proof.
  intros Hwf Hri [ps Hps] Hpi. unfold reader_priority.
  destruct (objs c !! id) as [r|] eqn:Hr; [|eauto using same_prio_refl].
  case_if; [eauto using same_prio_refl|]. rewrite Hps. cbn [mbind option_bind].
  set (stop := Z.min _ _). set (pos := getReaderPiece c r).
  destruct (ri_ok _ Hri _ _ Hr) as (Ho & Hf & _).
  assert (0 ≤ pos) as Hpos.
  { unfold pos, getReaderPiece, getPieceNum. apply Z.quot_pos; [lia|apply Hwf]. }
  destruct (prio_loop_spec (Z.to_nat (stop - pos)) ps pos (getReaderRAHPiece c r) hpw pos 0
    (download_count c (if (Readers c =? 0)%nat then 1 else Z.of_nat (Readers c)))
    (localPriority c) ∅) as (lp' & b' & -> & Hb & Hlp).
  { intros k Hk. apply (cw_pieces _ Hwf ps); [done|]. lia. }
  { intros k. rewrite lookup_empty. by intros []. }
  cbn [mbind option_bind]. eexists. split; [done|]. split; [by eexists _, _|]. simpl.
  intros k p. unfold SetPiecePriorities. rewrite lookup_union_Some_raw.
  intros [Hk|[_ Hk]] Hne; [apply Hb; by eexists|]. apply Hlp. by eapply Hpi.
Qed.

Lemma setLoadPriority_spec now ranges c :
  cache_wf c → readers_inv c → (∃ ps, pieces c = Some ps) →
  prio_inv (localPriority c) (engPrio c) →
  ∃ c', setLoadPriority now ranges c = Some c' ∧ same_but_prio c c' ∧
    prio_inv (localPriority c') (engPrio c').
Proof.
  intros Hwf Hri Hps Hpi. unfold setLoadPriority. case_if; [eauto using same_prio_refl|].
  set (hpw := if _ : bool then 5 else _). clearbody hpw. generalize (registered now c). intros ids.
  revert c Hwf Hri Hps Hpi Hif. induction ids as [|id ids IH]; intros c Hwf Hri Hps Hpi Hif.
  { eauto using same_prio_refl. }
  cbn [foldl mbind option_bind].
  destruct (reader_priority_spec ranges hpw id c Hwf Hri Hps Hpi) as (c1 & -> & (lp & ep & ->) & Hpi1).
  destruct (IH (set_prio lp ep c)) as (c' & ? & ? & ?); [by destruct Hwf; split|by destruct Hri; split|done..|].
  exists c'. split_and!; [done| |done]. eapply same_prio_trans; [by eexists _, _|done].
Qed.

(** ** The whole cache *)

Record cache_inv (c : Cache) : Prop := {
  ci_wf : cache_wf c;
  ci_readers : readers_inv c;
  ci_prio : prio_inv (localPriority c) (engPrio c);
}.

Lemma inv_same_readers c c' : same_but_readers c c' → readers_inv c' → cache_inv c → cache_inv c'.
Proof. intros (o & a & ->) Hr [[] _ Hp]. by split; [split| |]. Qed.

Lemma inv_same_prio c c' :
  same_but_prio c c' → prio_inv (localPriority c') (engPrio c') → cache_inv c → cache_inv c'.
Proof. intros (lp & ep & ->) Hp [[] [] _]. by split; [split|split|]. Qed.

Lemma on_reader_cache_inv id f c : reader_change f → cache_inv c → cache_inv (on_reader id f c).
Proof.
  intros Hf Hi. eapply inv_same_readers; [apply on_reader_same| |done]. by apply on_reader_inv, Hi.
Qed.

Lemma clearPriority_inv now c : cache_inv c → cache_inv (clearPriority now c).
Proof.
  intros Hi. unfold clearPriority. case_if; [done|].
  destruct (check_ranges now (registered now c) c) as [ranges c1] eqn:Hc.
  destruct (check_ranges_ok _ _ _ _ _ Hc) as [Hr Hsame].
  assert (cache_inv c1) as Hi1 by (eapply inv_same_readers; [done|apply Hr, Hi|done]).
  eapply inv_same_prio; [by eexists _, _| |exact Hi1]. simpl. intros id p.
  rewrite map_lookup_imap. destruct (engPrio c1 !! id) as [p0|] eqn:Hp0; simpl; [|done].
  intros [= <-]. case_if; [done|]. intros Hne.
  destruct (ci_prio _ Hi1 _ _ Hp0 Hne) as [q Hq].
  rewrite bool_decide_true in Hif0 by by eexists. simpl in Hif0.
  exists q. apply map_lookup_filter_Some. done.
Qed.

Lemma clearPriority_same now c :
  ∃ o a lp ep, clearPriority now c = set_prio lp ep (set_objs o a c).
Proof.
  unfold clearPriority. case_if.
  { exists (objs c), (activeReaders c), (localPriority c), (engPrio c). by destruct c. }
  destruct (check_ranges now (registered now c) c) as [ranges c1] eqn:Hc.
  destruct (check_ranges_ok _ _ _ _ _ Hc) as [_ (o & a & ->)]. by eexists _, _, _, _.
Qed.

Lemma registered_objs now c id : readers_inv c → id ∈ registered now c → is_Some (objs c !! id).
Proof.
  intros Hri. unfold registered. destruct (readers c) as [rs|] eqn:Hrs; simpl; [|set_solver].
  rewrite range_order_perm, elem_of_elements. by apply (ri_objs _ Hri).
Qed.

(** The files of the merged ranges are those of registered readers. *)
Lemma merged_files now c ranges c1 rng :
  check_ranges now (registered now c) c = (ranges, c1) → rng ∈ mergeRange ranges →
  ∃ id r, id ∈ registered now c ∧ objs c !! id = Some r ∧ rFile rng = file r.
Proof.
  intros Hc (r' & Hin & <-)%mergeRange_files. by eapply check_ranges_files.
Qed.

(** What the scan of an open cache returns. *)
Lemma getRemPieces_spec now c ps rs :
  cache_inv c → isClosed c = false → pieces c = Some ps → readers c = Some rs →
  ∃ ranges0 c1 rem c',
    check_ranges now (registered now c) c = (ranges0, c1) ∧
    getRemPieces now c = Some (rem, c') ∧ cache_inv c' ∧
    rem ≡ₚ filter (λ ip : Z * Piece, candidate c (mergeRange ranges0) ip.1 ip.2 = true) (map_to_list ps) ∧
    sorted_by older rem ∧ filled c' = map_sum (λ p, Z.max 0 (Size p)) ps ∧
    pieces c' = Some ps ∧ isClosed c' = false ∧ capacity c' = capacity c ∧ pieceLength c' = pieceLength c.
Proof.
  intros Hi Hcl Hps Hrs. unfold getRemPieces. rewrite Hps, Hrs, Hcl.
  destruct (check_ranges now (registered now c) c) as [ranges0 c1] eqn:Hc.
  destruct (check_ranges_ok _ _ _ _ _ Hc) as [Hr Hsame].
  assert (cache_inv c1) as Hi1 by (eapply inv_same_readers; [done|apply Hr, Hi|done]).
  assert (Forall file_ok (mergeRange ranges0)) as Hfiles.
  { apply Forall_forall. intros rng (id & r & _ & Hr' & Hf)%(merged_files _ _ _ _ _ Hc).
    unfold file_ok. rewrite Hf. apply (ri_ok _ (ci_readers _ Hi) _ _ Hr'). }
  destruct (build_bitmap_spec c1 (mergeRange ranges0) (ci_wf _ Hi1) Hfiles) as (bm & -> & Hlen & Hbm).
  cbn [mbind option_bind]. destruct Hsame as (o & a & ->).
  rewrite (scan_pieces_spec (set_objs o a c) (mergeRange ranges0) bm).
  2:{ intros id p Hin. rewrite range_order_perm in Hin. apply elem_of_map_to_list in Hin.
      assert (0 ≤ id < pieceCount c) as Hid.
      { apply (cw_pieces _ (ci_wf _ Hi) ps); [done|by eexists]. }
      split; [lia|]. apply Hbm. done. }
  cbn [mbind option_bind]. set (c2 := set_scan _ bm _).
  assert (cache_inv c2) as Hi2.
  { destruct Hi1 as [[] [] ?]. by split; [split|split|]. }
  pose proof (clearPriority_inv now _ Hi2) as Hi3.
  destruct (clearPriority_same now c2) as (o3 & a3 & lp3 & ep3 & Hc3). rewrite Hc3 in *.
  destruct (setLoadPriority_spec now (mergeRange ranges0) _ (ci_wf _ Hi3) (ci_readers _ Hi3)
    (ex_intro _ ps Hps) (ci_prio _ Hi3)) as (c4 & -> & Hsame4 & Hp4).
  cbn [mbind option_bind]. pose proof (inv_same_prio _ _ Hsame4 Hp4 Hi3) as Hi4.
  destruct Hsame4 as (lp & ep & ->). eexists _, _, _, _. split_and!; [done|done| |..|done|done|done|done].
  - destruct Hi4 as [[] [] ?]. by split; [split|split|].
  - rewrite sort_slice_perm, range_order_perm. done.
  - apply sort_slice_sorted. split; unfold older; intros; zbool; try apply Z.ltb_irrefl;
      first [apply Z.ltb_lt|apply Z.ltb_ge]; lia.
  - simpl. unfold map_sum. by rewrite range_order_perm.
Qed.

(** Releasing a list of pieces. *)
Lemma remove_fold c ps (l : list (Z * Piece)) :
  isClosed c = false → pieces c = Some ps →
  ∃ ps' ep, foldl (λ c ip, removePiece ip.1 c) c l = set_prio (localPriority c) ep (set_pieces (Some ps') c) ∧
    (∀ id, ps' !! id = if decide (id ∈ l.*1) then release_piece <$> ps !! id else ps !! id) ∧
    (prio_inv (localPriority c) (engPrio c) → prio_inv (localPriority c) ep).
Proof.
  revert c ps. induction l as [|[id p] l IH]; intros c ps Hcl Hps.
  { exists ps, (engPrio c). split_and!; [by destruct c; simpl in *; subst|done|done]. }
  cbn [foldl fst]. unfold removePiece at 2. rewrite Hcl, Hps. cbn [fmap option_fmap option_map].
  destruct (IH (set_prio (localPriority c) (SetPriority id PrioNone (engPrio c))
    (set_pieces (Some (alter release_piece id ps)) c)) (alter release_piece id ps))
    as (ps' & ep & -> & Hlk & Hep); [done..|].
  exists ps', ep. split_and!; [done| |].
  - intros id'. rewrite Hlk, lookup_alter, fmap_cons. cbn [fst].
    destruct (decide (id = id')) as [<-|Hne].
    + rewrite (decide_True (P := id ∈ id :: _)) by by left.
      case_decide; [|done]. by destruct (ps !! id).
    + apply decide_ext. rewrite elem_of_cons. split; [auto|intros [?|?]; [congruence|done]].
  - intros Hp. apply Hep. simpl. intros id' p'. unfold SetPriority. rewrite lookup_insert.
    case_decide; [by intros [= <-]|]. apply Hp.
Qed.

Lemma pieces_inv c ps ps' :
  cache_inv c → pieces c = Some ps → (∀ id, is_Some (ps' !! id) ↔ is_Some (ps !! id)) →
  cache_inv (set_pieces (Some ps') c).
Proof.
  intros [[? ? ? Hp] [] ?] Hps Hdom. split; [split|split|]; simpl; auto.
  intros ps0 id [= <-]. rewrite Hdom. by apply Hp.
Qed.

Lemma refreshPriorities_spec now c :
  cache_inv c → ∃ c', refreshPriorities now c = Some c' ∧ same_but_prio c c' ∧ cache_inv c'.
Proof.
  intros Hi. unfold refreshPriorities. case_if; [eauto using same_prio_refl|].
  assert (∃ ps, pieces c = Some ps) as Hps.
  { apply orb_false_iff in Hif as [[_ H]%orb_false_iff _]. destruct (pieces c); [eauto|done]. }
  destruct (setLoadPriority_spec now (mergeRange (use_ranges (registered now c) c)) c (ci_wf _ Hi)
    (ci_readers _ Hi) Hps (ci_prio _ Hi)) as (c' & ? & ? & ?).
  eauto using inv_same_prio.
Qed.

(** The number of pieces a cleaning releases at most. *)
Definition victims (c : Cache) (rem : list (Z * Piece)) : list (Z * Piece) :=
  if capacity c <? filled c
  then take (Z.to_nat ((filled c - capacity c) /t pieceLength c + 1)) rem else [].

(** A cleaning that gets to scan the cache. *)
Lemma cleanPieces_scan now c c1 ps rs rem c2 :
  isRemove c = false → isClosed c = false → refreshPriorities now c = Some c1 →
  (now - lastClean c1 <? second_ns) && (filled c1 <? capacity c1 * 9 /t 10) = false →
  cache_inv c1 → pieces c1 = Some ps → readers c1 = Some rs →
  getRemPieces (now /t second_ns) (set_clean true now c1) = Some (rem, c2) →
  cache_inv c2 → pieces c2 = Some ps → isClosed c2 = false →
  ∃ c' ps', cleanPieces now false c = Some c' ∧ cache_inv c' ∧ pieces c' = Some ps' ∧
    ∀ id, ps' !! id = if decide (id ∈ (victims c2 rem).*1) then release_piece <$> ps !! id else ps !! id.
Proof.
  intros Hrm Hcl Href Hthr Hi1 Hps Hrs Hget Hi2 Hps2 Hcl2. unfold cleanPieces.
  rewrite Hrm, Hcl. cbn [orb]. rewrite Href. cbn [mbind option_bind]. rewrite Hthr, Hget.
  cbn [mbind option_bind]. set (l := victims c2 rem).
  assert ((if capacity c2 <? filled c2 then foldl (λ c ip, removePiece ip.1 c) c2
    (take (Z.to_nat ((filled c2 - capacity c2) /t pieceLength c2 + 1)) rem) else c2) =
    foldl (λ c ip, removePiece ip.1 c) c2 l) as -> by (unfold l, victims; by case_if).
  destruct (remove_fold c2 ps l Hcl2 Hps2) as (ps' & ep & -> & Hlk & Hep).
  eexists _, ps'. split_and!; [done| |done|done].
  assert (cache_inv (set_prio (localPriority c2) ep (set_pieces (Some ps') c2))) as Hi3.
  { eapply inv_same_prio; [by eexists _, _|simpl; apply Hep, Hi2|]. apply (pieces_inv _ ps); [done..|].
    intros id. rewrite Hlk. case_decide; [apply fmap_is_Some|done]. }
  destruct Hi3 as [[] [] ?]. by split; [split|split|].
Qed.

Lemma set_clean_inv b t c : cache_inv c → cache_inv (set_clean b t c).
Proof. intros [[] [] ?]. by split; [split|split|]. Qed.

Lemma cleanPieces_total now locked c :
  cache_inv c → ∃ c', cleanPieces now locked c = Some c' ∧ cache_inv c'.
Proof.
  intros Hi. destruct (isRemove c || isClosed c) eqn:Hg.
  { exists c. unfold cleanPieces. by rewrite Hg. }
  apply orb_false_iff in Hg as [Hrm Hcl].
  destruct (refreshPriorities_spec now c Hi) as (c1 & Href & Hsame & Hi1).
  destruct ((now - lastClean c1 <? second_ns) && (filled c1 <? capacity c1 * 9 /t 10)) eqn:Hthr.
  { exists c1. unfold cleanPieces. rewrite Hrm, Hcl, Href. cbn [orb mbind option_bind]. by rewrite Hthr. }
  destruct locked.
  { exists c1. unfold cleanPieces. rewrite Hrm, Hcl, Href. cbn [orb mbind option_bind]. by rewrite Hthr. }
  assert (isClosed c1 = false) as Hcl1 by by destruct Hsame as (? & ? & ->).
  destruct (pieces c1) as [ps|] eqn:Hps, (readers c1) as [rs|] eqn:Hrs.
  1: { destruct (getRemPieces_spec (now /t second_ns) (set_clean true now c1) ps rs
        (set_clean_inv _ _ _ Hi1) Hcl1 Hps Hrs) as (? & ? & rem & c2 & _ & Hget & Hi2 & _ & _ & _ & Hps2 & Hcl2 & _).
      edestruct cleanPieces_scan as (c' & ps' & ? & ? & _); [..|exact Hi2|exact Hps2|exact Hcl2|]; eauto. }
  all: exists (set_clean false now c1); split; [|by apply set_clean_inv];
    unfold cleanPieces; rewrite Hrm, Hcl, Href; cbn [orb mbind option_bind]; rewrite Hthr;
    unfold getRemPieces; simpl; rewrite Hps, ?Hrs; simpl; case_if; rewrite ?firstn_nil; reflexivity.
Qed.

(** ** Reachable caches *)

(** The operations, with the writes and completions of the engine; a reader is
    created once, for a file of the torrent. *)
Inductive pc_step : Cache → Cache → Prop :=
| pc_torrent c : pc_step c (SetTorrent c)
| pc_aggressive e m c : pc_step c (SetAggressive e m c)
| pc_newReader id f t c : objs c !! id = None → 0 ≤ f_Offset f → 0 ≤ f_Length f →
    pc_step c (newReader id f t c)
| pc_Seek id off w now c : pc_step c (Seek id off w now c).2
| pc_Read id len now info c : pc_step c (Read id len now info c).2
| pc_ReaderClose id c : pc_step c (Reader_Close id c)
| pc_CloseReader id c : pc_step c (CloseReader id c)
| pc_AdjustRA ra now c : pc_step c (AdjustRA ra now c)
| pc_clean now locked c c' : cleanPieces now locked c = Some c' → pc_step c c'
| pc_rem now c l c' : getRemPieces now c = Some (l, c') → pc_step c c'
| pc_clear now c : pc_step c (clearPriority now c)
| pc_Close c c' : Close c = Some c' → pc_step c c'
| pc_engine id p p' ps c : pieces c = Some ps → ps !! id = Some p → 0 ≤ Size p' ≤ pieceLength c →
    pc_step c (set_pieces (Some (<[id := p']> ps)) c).

Definition pc_reachable (c : Cache) : Prop :=
  ∃ cap pl n, 0 < pl ∧ 0 ≤ n ∧ rtc pc_step (Init pl n (NewCache cap)) c.

Lemma Init_inv cap pl n : 0 < pl → 0 ≤ n → cache_inv (Init pl n (NewCache cap)).
Proof.
  intros Hpl Hn. split; [split|split|]; simpl; try done.
  - rewrite length_replicate. lia.
  - intros ps id [= <-].
    assert (∀ k, is_Some (foldr (λ i m, <[Z.of_nat i := NewPiece]> m) (∅ : gmap Z Piece) (seq 0 k) !! id)
      ↔ 0 ≤ id < Z.of_nat k) as H; [|rewrite H; lia].
    assert (∀ l, is_Some (foldr (λ i m, <[Z.of_nat i := NewPiece]> m) (∅ : gmap Z Piece) l !! id) ↔
      ∃ i, i ∈ l ∧ id = Z.of_nat i) as Hl.
    { induction l as [|i l IH]; simpl.
      - rewrite lookup_empty. split; [by intros []|]. intros (i & Hi & _). set_solver.
      - rewrite lookup_insert_is_Some', IH. split.
        + intros [<-|(j & ? & ?)]; [exists i|exists j]; set_solver.
        + intros (j & [->|Hj]%elem_of_cons & ?); [by left|right; eauto]. }
    intros k. rewrite Hl. split.
    + intros (i & Hi%elem_of_seq & ->). lia.
    + intros Hid. exists (Z.to_nat id). rewrite elem_of_seq. lia.
  - intros rs id [= <-]. set_solver.
Qed.

Lemma newReader_inv id f t c :
  objs c !! id = None → 0 ≤ f_Offset f → 0 ≤ f_Length f → cache_inv c → cache_inv (newReader id f t c).
Proof.
  intros Hid Ho Hl [[] [Ha Hobj Hok] ?]. split; [split| |]; simpl; auto. split; simpl.
  - rewrite map_sum_insert_new by done. unfold use at 1. simpl. lia.
  - intros rs id' Hrs Hin. rewrite lookup_insert_is_Some'.
    destruct (readers c) as [rs0|] eqn:?; simplify_eq/=.
    apply elem_of_union in Hin as [Hin | ->%elem_of_singleton]; eauto.
  - intros id' r. rewrite lookup_insert. case_decide; intros; simplify_eq; [|eauto].
    unfold reader_ok. simpl. lia.
Qed.

(** A reader operation that moves to a position the engine reports. *)
Lemma move_inv id c r r' d :
  objs c !! id = Some r → d = use r' - use r → reader_ok r' → cache_inv c →
  cache_inv (set_objs (<[id := r']> (objs c)) (activeReaders c + d) c).
Proof.
  intros Hr Hd Hok' [[] [Ha Hobj Hok] ?]. split; [by split| |done]. split; simpl.
  - rewrite (map_sum_insert_old _ _ _ _ r) by done. lia.
  - intros rs id' Hrs Hin. rewrite lookup_insert_is_Some'. eauto.
  - intros id' r0. rewrite lookup_insert. case_decide; intros; simplify_eq; eauto.
Qed.

Lemma Seek_inv id off w now c : cache_inv c → cache_inv (Seek id off w now c).2.
Proof.
  intros Hi. unfold Seek. destruct (objs c !! id) as [r|] eqn:Hr; [|done]. case_if; [done|].
  set (o := if w =? SeekStart then _ else _). set (r1 := MkReader o _ _ _ _ _ _).
  destruct (readerOn_change r1) as (Hd & _ & Hf). destruct (readerOn r1) as [r2 d]. simpl in Hd, Hf.
  pose proof (tr_Seek_nonneg (tr r2) off w) as Hn. destruct (tr_Seek (tr r2) off w) as [[n err] t].
  simpl in *. apply (move_inv id c r); [done| |simpl|done].
  - subst d. unfold use. simpl. done.
  - destruct (ri_ok _ (ci_readers _ Hi) _ _ Hr) as (_ & ? & ?). unfold reader_ok. simpl. by rewrite Hf.
Qed.

Lemma Read_inv id len now info c : cache_inv c → cache_inv (Read id len now info c).2.
Proof.
  intros Hi. unfold Read. destruct (objs c !! id) as [r|] eqn:Hr; [|done].
  case_if; [done|]. case_if; [|done].
  destruct (readerOn_change r) as (Hd & Hok & _). destruct (readerOn r) as [r2 d]. simpl in *.
  pose proof (tr_Read_nonneg (tr r2) len) as Hn. destruct (tr_Read (tr r2) len) as [[n err] t].
  simpl in *. apply (move_inv id c r); [done| |simpl|done].
  - subst d. unfold use. simpl. done.
  - destruct (Hok (ri_ok _ (ci_readers _ Hi) _ _ Hr)) as (? & ? & ?). unfold reader_ok. simpl. lia.
Qed.

Lemma Reader_Close_inv id c : cache_inv c → cache_inv (Reader_Close id c).
Proof.
  apply on_reader_cache_inv. intros r. case_if; [simpl; split_and!; [lia|done..]|].
  exact (readerOff_change (MkReader (offset r) (readahead r) (file r) true (lastAccess r) (isUse r) (tr r))).
Qed.

Lemma SetReadahead_change ra : reader_change (λ r, (SetReadahead ra r, 0)).
Proof. intros r. unfold SetReadahead, use. simpl. split_and!; [lia|done..]. Qed.

Lemma AdjustRA_inv ra now c : cache_inv c → cache_inv (AdjustRA ra now c).
Proof.
  intros Hi. unfold AdjustRA. set (c0 := if CacheSize =? 0 then _ else c).
  assert (cache_inv c0) as Hi0.
  { unfold c0. case_if; [|done]. destruct Hi as [[] [] ?]. by split; [split|split|]. }
  generalize (from_option (λ rs, range_order now (elements rs)) [] (readers c0)). intros ids.
  clearbody c0. revert c0 Hi0. induction ids as [|id ids IH]; intros c0 Hi0; simpl; [done|].
  apply IH. by apply on_reader_cache_inv; [apply SetReadahead_change|].
Qed.

Lemma pc_step_inv c c' : cache_inv c → pc_step c c' → cache_inv c'.
Proof.
  intros Hi Hs. destruct Hs as [c|e m c|id f t c|id off w now c|id len now info c|id c|id c|ra now c
    |now locked c c' Hc|now c l c' Hg|now c|c c' Hc|id p p' ps c Hps Hp Hsz].
  - destruct Hi as [[] [] ?]. by split; [split|split|].
  - destruct Hi as [[] [] ?]. by split; [split|split|].
  - by apply newReader_inv.
  - by apply Seek_inv.
  - by apply Read_inv.
  - by apply Reader_Close_inv.
  - unfold CloseReader. destruct (readers c) as [rs|] eqn:Hrs; [|done]. case_if; [done|].
    pose proof (Reader_Close_inv id c Hi) as Hi'.
    assert (readers (Reader_Close id c) = Some rs) as Hrs'.
    { destruct (on_reader_same id (λ r, if r_isClosed r then (r, 0) else readerOff
        (MkReader (offset r) (readahead r) (file r) true (lastAccess r) (isUse r) (tr r))) c) as (o & a & Heq).
      unfold Reader_Close. by rewrite Heq. }
    destruct Hi' as [[] [? Hobj ?] ?]. split; [by split| |done]. split; simpl; auto.
    intros rs' id' [= <-] Hin. apply (Hobj rs); [done|]. set_solver.
  - by apply AdjustRA_inv.
  - destruct (cleanPieces_total now locked c Hi) as (c1 & Heq & ?). congruence.
  - destruct (pieces c) as [ps|] eqn:Hps, (readers c) as [rs|] eqn:Hrs, (isClosed c) eqn:Hcl;
      [|destruct (getRemPieces_spec now c ps rs Hi Hcl Hps Hrs) as (? & ? & ? & ? & _ & Heq & ? & _); congruence|..];
      unfold getRemPieces in Hg; rewrite Hps, ?Hrs, ?Hcl in Hg; by simplify_eq.
  - by apply clearPriority_inv.
  - unfold Close in Hc. case_if_in Hc; [done|]. simplify_eq. destruct Hi as [[] [] ?].
    by split; [split|split|].
  - apply (pieces_inv _ ps); [done..|]. intros id'. rewrite lookup_insert_is_Some'.
    split; [|auto]. by intros [<-|?]; [by eexists|].
Qed.

Lemma pc_reachable_inv c : pc_reachable c → cache_inv c.
Proof.
  intros (cap & pl & n & Hpl & Hn & Hr). revert c Hr. apply (rtc_ind_r cache_inv).
  - by apply Init_inv.
  - intros c1 c2 _ Hs Hi. by eapply pc_step_inv.
Qed.

(** ** Properties *)


(** The scans of a reachable cache never index out of range or follow a nil
    piece, and a cleaning that is not throttled releases exactly the first of
    the candidates, oldest access first, as many as the excess over the
    capacity amounts to in pieces plus one, and nothing when the pieces fit;
    a candidate holds data and lies outside the files of the merged reader
    ranges and outside their protected ends. *)
Theorem cleanPieces_releases_oldest c now ps rs :
  pc_reachable c → isRemove c = false → isClosed c = false → pieces c = Some ps → readers c = Some rs →
  second_ns ≤ now - lastClean c →
  ∃ ranges rem c' ps',
    Forall (λ rng, ∃ id r, id ∈ rs ∧ objs c !! id = Some r ∧ rFile rng = file r) ranges ∧
    rem ≡ₚ filter (λ ip : Z * Piece, candidate c ranges ip.1 ip.2 = true) (map_to_list ps) ∧
    sorted_by older rem ∧
    cleanPieces now false c = Some c' ∧ pieces c' = Some ps' ∧
    let total := map_sum (λ p, Z.max 0 (Size p)) ps in
    let n := if capacity c <? total
             then Z.to_nat ((total - capacity c) /t pieceLength c + 1) else 0%nat in
    ∀ id, ps' !! id = if decide (id ∈ (take n rem).*1) then release_piece <$> ps !! id else ps !! id.
Proof.
  intros Hi%pc_reachable_inv Hrm Hcl Hps Hrs Hthr.
  destruct (refreshPriorities_spec now c Hi) as (c1 & Href & (lp & ep & ->) & Hi1).
  destruct (getRemPieces_spec (now /t second_ns) (set_clean true now (set_prio lp ep c)) ps rs
    (set_clean_inv _ _ _ Hi1) Hcl Hps Hrs)
    as (ranges0 & c0 & rem & c2 & Hck & Hget & Hi2 & Hperm & Hsort & Hfill & Hps2 & Hcl2 & Hcap & Hpl).
  edestruct (cleanPieces_scan now c (set_prio lp ep c) ps rs rem c2) as (c' & ps' & ? & _ & ? & Hlk); eauto.
  { simpl. apply andb_false_iff. left. apply Z.ltb_ge. lia. }
  exists (mergeRange ranges0), rem, c', ps'. split_and!; auto.
  - apply Forall_forall. intros rng (id & r & Hin & Hr & Hf)%(merged_files _ _ _ _ _ Hck).
    exists id, r. split_and!; auto. unfold registered in Hin. simpl in Hin. rewrite Hrs in Hin. simpl in Hin.
    by rewrite range_order_perm, elem_of_elements in Hin.
  - intros total n id. rewrite Hlk. subst n total. unfold victims. rewrite Hcap, Hpl, Hfill. simpl.
    by destruct (capacity c <? _).
Qed.

(** One registered reader is kept in use, and its range is the only one. *)
Lemma check_single now id r c :
  objs c !! id = Some r → (Readers c ≤ 1)%nat →
  ∃ rng c1, check_ranges now [id] c = ([rng], c1) ∧ rFile rng = file r.
Proof.
  intros Hr Hn. cbn [check_ranges].
  assert (objs (checkReader now id c) !! id = Some (readerOn r).1) as Hobj.
  { unfold checkReader, on_reader. rewrite Hr.
    assert ((1 <? Readers c)%nat = false) as -> by (apply Nat.ltb_ge; lia).
    rewrite andb_false_r. destruct (readerOn r). simpl. by rewrite lookup_insert_eq. }
  assert (isUse (readerOn r).1 = true) as Hu.
  { unfold readerOn. destruct (isUse r) eqn:?; [done|]. by destruct (tr_Seek _ _ _) as [[??]?]. }
  assert (use_ranges [id] (checkReader now id c) = [getPiecesRange (checkReader now id c) (readerOn r).1]) as ->.
  { unfold use_ranges. cbn [omap list_omap]. rewrite Hobj. cbn [mbind option_bind]. by rewrite Hu. }
  eexists _, _. split; [reflexivity|]. unfold getPiecesRange. destruct (getOffsetRange _ _). simpl.
  apply readerOn_change.
Qed.

(** While a single reader is open on a file that spans the torrent, a
    cleaning releases no piece at all, however far the cache is over its
    capacity: the bitmap protects every piece of the file, not the range
    around the reader. *)
Theorem single_reader_blocks_eviction c id r now :
  pc_reachable c → readers c = Some {[id]} → objs c !! id = Some r →
  f_Offset (file r) = 0 → (pieceCount c - 1) * pieceLength c ≤ f_Length (file r) →
  ∃ c', cleanPieces now false c = Some c' ∧ pieces c' = pieces c.
Proof.
  intros Hi%pc_reachable_inv Hrs Hr Hoff Hlen.
  destruct (isRemove c || isClosed c) eqn:Hg.
  { exists c. unfold cleanPieces. by rewrite Hg. }
  apply orb_false_iff in Hg as [Hrm Hcl].
  destruct (refreshPriorities_spec now c Hi) as (c1 & Href & (lp & ep & ->) & Hi1).
  destruct ((now - lastClean c <? second_ns) && (filled c <? capacity c * 9 /t 10)) eqn:Hthr.
  { exists (set_prio lp ep c). unfold cleanPieces. rewrite Hrm, Hcl, Href. cbn [orb mbind option_bind].
    cbn [lastClean filled capacity set_prio]. by rewrite Hthr. }
  destruct (pieces c) as [ps|] eqn:Hps; cycle 1.
  { eexists. unfold cleanPieces. rewrite Hrm, Hcl, Href. cbn [orb mbind option_bind]. simpl. rewrite Hthr.
    unfold getRemPieces. simpl. rewrite Hps. simpl. split; [done|]. simpl. case_if; by rewrite ?firstn_nil. }
  set (cs := set_clean true now (set_prio lp ep c)).
  destruct (getRemPieces_spec (now /t second_ns) cs ps {[id]} (set_clean_inv _ _ _ Hi1) Hcl Hps Hrs)
    as (ranges0 & c0 & rem & c2 & Hck & Hget & Hi2 & Hperm & _ & _ & Hps2 & Hcl2 & _ & _).
  assert (registered (now /t second_ns) cs = [id]) as Hreg.
  { unfold registered. simpl. rewrite Hrs. simpl. rewrite elements_singleton.
    apply Permutation_singleton_r, range_order_perm. }
  destruct (check_single (now /t second_ns) id r cs Hr) as (rng & c3 & Hsingle & Hfile).
  { unfold Readers. simpl. rewrite Hrs. by rewrite size_singleton. }
  rewrite Hreg, Hsingle in Hck. injection Hck as <- <-.
  assert (rem = []) as ->.
  { destruct rem as [|[k p] rem]; [done|]. exfalso.
    assert ((k, p) ∈ (k, p) :: rem) as Hin by by left. rewrite Hperm in Hin.
    apply list_elem_of_filter in Hin as [Hcand Hin%elem_of_map_to_list].
    unfold candidate, mergeRange in Hcand. simpl in Hcand. rewrite orb_false_r in Hcand.
    assert (in_file cs rng k = true) as Habs; [|by rewrite Habs in Hcand].
    assert (0 ≤ k < pieceCount c) as Hk by (apply (cw_pieces _ (ci_wf _ Hi) ps); [done|by eexists]).
    pose proof (cw_len _ (ci_wf _ Hi)) as Hpl.
    unfold in_file, file_pieces. rewrite Hfile, Hoff, Z.add_0_l. simpl.
    assert (pieceCount c - 1 ≤ f_Length (file r) /t pieceLength c)
      by (apply Z.quot_le_lower_bound; lia).
    rewrite Z.quot_0_l by lia. rewrite andb_true_iff, !Z.leb_le. split; [lia|].
    destruct (Z.leb_spec (pieceCount c) (f_Length (file r) /t pieceLength c)); lia. }
  edestruct (cleanPieces_scan now c (set_prio lp ep c) ps {[id]} [] c2) as (c' & ps' & ? & _ & Hps' & Hlk); eauto.
  exists c'. split; [done|]. rewrite Hps'. f_equal. apply map_eq. intros k. rewrite Hlk. unfold victims.
  assert (∀ n : nat, take n [] = ([] : list (Z * Piece))) as Hnil by (intros []; done).
  case_if; rewrite ?Hnil; by rewrite decide_False by set_solver.
Qed.

(** A reader that was switched off for a minute of inactivity and comes
    back with a read has lost its readahead: [readerOff] overwrites the value
    that [readerOn] means to restore. *)
Theorem idle_reader_loses_readahead c id r now now' len c' :
  objs c !! id = Some r → isUse r = true → r_isClosed r = false →
  lastAccess r + 60 < now → (1 < Readers c)%nat →
  c' = (Read id len now' true (checkReader now id c)).2 →
  ∃ r', objs c' !! id = Some r' ∧ isUse r' = true ∧ readahead r' = 0.
Proof.
  intros Hr Hu Hcl Hidle Hn ->. unfold Read, checkReader, on_reader. rewrite Hr.
  assert ((lastAccess r + 60 <? now) && (1 <? Readers c)%nat = true) as ->.
  { apply andb_true_iff. rewrite Z.ltb_lt, Nat.ltb_lt. done. }
  unfold readerOff. rewrite Hu. simpl. rewrite lookup_insert_eq. simpl. rewrite Hcl.
  unfold readerOn. simpl. destruct (tr_Seek _ 0 SeekCurrent) as [[pos err] t]. simpl.
  destruct (tr_Read _ len) as [[n e] t']. simpl. rewrite lookup_insert_eq. eexists. split; [done|]. done.
Qed.

(** The loop as a choice: what it adds, on any batch. *)
Lemma prio_loop_chosen fuel ps pos rah hpw i limit count lp batch lp' batch' :
  (∀ k, i ≤ k < i + Z.of_nat fuel → is_Some (ps !! k)) → 0 ≤ limit →
  (∀ k, is_Some (batch !! k) → k < i) →
  prio_loop fuel ps pos rah hpw i limit count lp batch = Some (lp', batch') →
  let todo := filter (λ k, (Complete <$> ps !! k) = Some false) (seqZ i (Z.of_nat fuel)) in
  let prio k := piece_prio pos rah hpw k (default 0 (lp !! k)) in
  let hit k := k ∈ take (Z.to_nat (count - limit)) todo ∧ prio k ≠ 0 in
  ∀ k, batch' !! k = (if decide (hit k) then Some (prio k) else batch !! k) ∧
       lp' !! k = (if decide (hit k) then Some (prio k) else lp !! k).
Proof using.
  clear tr_Seek_nonneg tr_Read_nonneg.
  revert i limit lp batch. induction fuel as [|fuel IH]; intros i limit lp batch Hps Hl Hb; cbn [prio_loop].
  { intros [= <- <-] k. change (seqZ i (Z.of_nat 0)) with ([] : list Z).
    rewrite filter_nil, take_nil. rewrite !decide_False by set_solver. done. }
  replace (seqZ i (Z.of_nat (S fuel))) with (i :: seqZ (i + 1) (Z.of_nat fuel))
    by (rewrite (seqZ_cons i) by lia; unfold Z.succ; do 2 f_equal; lia).
  destruct (Hps i) as [p Hp]; [lia|].
  assert (∀ k, i + 1 ≤ k < i + 1 + Z.of_nat fuel → is_Some (ps !! k)) as Hps' by (intros; apply Hps; lia).
  case_if; zbool; cycle 1.
  { intros [= <- <-] k. replace (Z.to_nat (count - limit)) with 0%nat by lia.
    rewrite take_0. rewrite !decide_False by set_solver. done. }
  rewrite Hp. cbn [mbind option_bind]. destruct (Complete p) eqn:Hcomp.
  { rewrite filter_cons_False by (rewrite Hp; simpl; congruence). apply IH; auto.
    intros k Hk. specialize (Hb k Hk). lia. }
  rewrite filter_cons_True by (rewrite Hp; simpl; congruence).
  set (todo' := filter _ _). replace (Z.to_nat (count - limit)) with (S (Z.to_nat (count - (limit + 1)))) by lia.
  set (p0 := piece_prio pos rah hpw i (default 0 (lp !! i))).
  assert (∀ k, k ∈ todo' → i < k) as Hgt.
  { intros k Hk. unfold todo' in Hk. apply list_elem_of_filter in Hk as [_ Hk].
    apply elem_of_seqZ in Hk. lia. }
  assert (i ∉ take (Z.to_nat (count - (limit + 1))) todo') as Hni.
  { intros Hin. assert (i ∈ todo') as Habs%Hgt; [|lia].
    rewrite <- (take_drop (Z.to_nat (count - (limit + 1))) todo'). apply elem_of_app. by left. }
  destruct (Z.eqb_spec p0 0) as [Hp0|Hp0]; intros Heq k; cbn [take].
  - destruct (IH (i + 1) (limit + 1) lp batch) with (k := k) as [H1 H2]; [done|lia| |done|].
    { intros k' Hk'. specialize (Hb k' Hk'). lia. }
    rewrite H1, H2. fold todo'.
    split; apply decide_ext; rewrite elem_of_cons; split; [tauto| |tauto|]; intros [[->|?] ?]; tauto.
  - destruct (IH (i + 1) (limit + 1) (<[i := p0]> lp) (<[i := p0]> batch)) with (k := k) as [H1 H2];
      [done|lia| |done|].
    { intros k'. rewrite lookup_insert_is_Some'. intros [<-|Hk']; [lia|]. specialize (Hb k' Hk'). lia. }
    rewrite H1, H2. fold todo'.
    destruct (decide (k = i)) as [->|Hne].
    + rewrite !lookup_insert_eq. fold p0.
      rewrite !(decide_True (P := i ∈ i :: _ ∧ _)) by (split; [by left|done]).
      rewrite !decide_False by tauto. done.
    + rewrite !lookup_insert_ne by done.
      split; apply decide_ext; rewrite elem_of_cons; tauto.
Qed.

(** The pieces that a reader's turn puts into the batch are the first
    incomplete ones from the reader's position on, up to the end of its window
    and no more than the download count, each with the priority of its
    distance; a piece that already has the wanted High or Normal priority on
    record is counted but not asked for again. *)
Theorem prio_loop_exact fuel ps pos rah hpw i limit count lp lp' batch' :
  (∀ k, i ≤ k < i + Z.of_nat fuel → is_Some (ps !! k)) → 0 ≤ limit →
  prio_loop fuel ps pos rah hpw i limit count lp ∅ = Some (lp', batch') →
  let todo := filter (λ k, (Complete <$> ps !! k) = Some false) (seqZ i (Z.of_nat fuel)) in
  let chosen := take (Z.to_nat (count - limit)) todo in
  ∀ k, batch' !! k =
    (if decide (k ∈ chosen) then
       let p := piece_prio pos rah hpw k (default 0 (lp !! k)) in if p =? 0 then None else Some p
     else None) ∧
    lp' !! k = (if decide (is_Some (batch' !! k)) then batch' !! k else lp !! k).
Proof using.
  clear tr_Seek_nonneg tr_Read_nonneg.
  intros Hps Hl Heq todo chosen k.
  assert (∀ k, is_Some ((∅ : gmap Z Z) !! k) → k < i) as He.
  { intros k' []. by rewrite lookup_empty in *. }
  destruct (prio_loop_chosen _ _ _ _ _ _ _ _ _ _ _ _ Hps Hl He Heq k) as [-> ->].
  fold todo. fold chosen. set (p0 := piece_prio pos rah hpw k (default 0 (lp !! k))). rewrite lookup_empty.
  cbv zeta. fold p0. destruct (decide (k ∈ chosen)) as [Hk|Hk], (Z.eqb_spec p0 0) as [Hz|Hz].
  - by rewrite !decide_False by tauto.
  - by rewrite !decide_True by done.
  - by rewrite !decide_False by tauto.
  - by rewrite !decide_False by tauto.
Qed.
End piececache.

(** ** A run *)

(** The engine's reader moves where it is told; 2 GiB of cache, the default
    settings. The torrent has pieces of 8 MiB and two files: the first of ten
    pieces, the second of a hundred. *)
Module PieceRun.
Definition seek (t : unit) (o w : Z) : Z * bool * unit := (Z.max 0 o, o <? 0, t).
Definition read (t : unit) (n : Z) : Z * bool * unit := (Z.max 0 n, false, t).
Definition setra (t : unit) (_ : Z) : unit := t.
Definition undef0 (_ : float64) : Z := 0.
Definition P : Z := 8 * MiB.
Definition fileA : File := MkFile 0 (10 * P).
Definition fileB : File := MkFile (10 * P) (100 * P).

Abbreviation step := (pc_step seek read setra 64 95 25 undef0).
Abbreviation reach := (pc_reachable seek read setra 64 95 25 undef0).

Definition c0 : Cache (TR := unit) := Init P 110 (NewCache (2048 * MiB)).
Definition c1 : Cache := newReader 1 fileA tt c0.
Definition c2 : Cache := newReader 2 fileB tt c1.
Definition c3 : Cache := (Seek seek setra 1 (9 * P) SeekStart 100 c2).2.
Definition c4 : Cache := (Seek seek setra 2 (20 * MiB) SeekStart 100 c3).2.
Definition full : Piece := MkPiece P true 100 None.
Definition c5 : Cache := set_pieces (<[12 := full]> <$> pieces c4) c4.

Lemma seek_nonneg t o w : 0 ≤ (seek t o w).1.1.
Proof. simpl. lia. Qed.

Lemma read_nonneg t n : 0 ≤ (read t n).1.1.
Proof. simpl. lia. Qed.

Lemma reach_c1 : reach c1.
Proof.
  exists (2048 * MiB), P, 110. split_and!; [done..|]. apply rtc_once.
  apply (pc_newReader seek read setra 64 95 25 undef0 1 fileA tt c0); [reflexivity|done|done].
Qed.

Lemma reach_c5 : reach c5.
Proof.
  destruct reach_c1 as (cap & pl & n & ? & ? & Hr). exists cap, pl, n. split_and!; [done..|].
  etrans; [exact Hr|].
  eapply rtc_l; [apply (pc_newReader _ _ _ _ _ _ _ 2 fileB tt c1); [reflexivity|done|done]|].
  eapply rtc_l; [apply (pc_Seek _ _ _ _ _ _ _ 1 (9 * P) SeekStart 100 c2)|].
  eapply rtc_l; [apply (pc_Seek _ _ _ _ _ _ _ 2 (20 * MiB) SeekStart 100 c3)|].
  apply rtc_once. change c5 with (set_pieces (Some (<[12 := full]> (default ∅ (pieces c4)))) c4).
  apply (pc_engine _ _ _ _ _ _ _ 12 NewPiece full (default ∅ (pieces c4)) c4);
    [reflexivity|vm_compute; reflexivity|vm_compute; split; discriminate].
Qed.
End PieceRun.

(** Readers of two neighbouring files can make the eviction take the very
    piece one of them is reading: their ranges touch, the merge keeps the
    first file only, and the bitmap and the protected ends are computed from
    that file. *)
Theorem merged_ranges_expose_second_file :
  ∃ c rem c' r, PieceRun.reach c ∧
    getRemPieces PieceRun.seek PieceRun.setra 95 25 PieceRun.undef0 101 c = Some (rem, c') ∧
    objs c' !! 2%nat = Some r ∧ isUse r = true ∧
    getReaderPiece c' r ∈ rem.*1.
Proof.
  exists PieceRun.c5.
  destruct (getRemPieces PieceRun.seek PieceRun.setra 95 25 PieceRun.undef0 101 PieceRun.c5)
    as [[rem c']|] eqn:Hg; [|vm_compute in Hg; discriminate].
  exists rem, c'.
  assert (match objs c' !! 2%nat with
          | Some r => isUse r && bool_decide (getReaderPiece c' r ∈ rem.*1) | None => false end = true) as Hc.
  { assert (match getRemPieces PieceRun.seek PieceRun.setra 95 25 PieceRun.undef0 101 PieceRun.c5 with
      | Some (rem, c') => match objs c' !! 2%nat with
          | Some r => isUse r && bool_decide (getReaderPiece c' r ∈ rem.*1) | None => false end
      | None => false end = true) as H by (vm_compute; reflexivity). by rewrite Hg in H. }
  destruct (objs c' !! 2%nat) as [r|]; [|done]. zbool. exists r.
  split_and!; [apply PieceRun.reach_c5|done..].
Qed.

(** *** Witnesses *)


Lemma cleanPieces_releases_witness :
  ∃ c' ps', cleanPieces PieceRun.seek PieceRun.setra 95 25 PieceRun.undef0 (200 * second_ns) false PieceRun.c5
    = Some c' ∧ pieces c' = Some ps'.
Proof.
  destruct (cleanPieces_releases_oldest PieceRun.seek PieceRun.read PieceRun.setra 64 95 25
    PieceRun.undef0 PieceRun.seek_nonneg PieceRun.read_nonneg PieceRun.c5 (200 * second_ns)
    (default ∅ (pieces PieceRun.c5)) {[1%nat; 2%nat]} PieceRun.reach_c5) as (_ & _ & c' & ps' & _ & _ & _ & H1 & H2 & _);
    [reflexivity|reflexivity|reflexivity|vm_compute; reflexivity|vm_compute; discriminate|].
  exists c', ps'. split; [exact H1|exact H2].
Defined.

Definition one_file : Cache (TR := unit) := newReader 1 (MkFile 0 (110 * PieceRun.P)) tt PieceRun.c0.

Lemma single_reader_blocks_witness :
  ∃ c', cleanPieces PieceRun.seek PieceRun.setra 95 25 PieceRun.undef0 (200 * second_ns) false one_file
    = Some c' ∧ pieces c' = pieces one_file.
Proof.
  apply (single_reader_blocks_eviction PieceRun.seek PieceRun.read PieceRun.setra 64 95 25
    PieceRun.undef0 PieceRun.seek_nonneg PieceRun.read_nonneg one_file 1
    (MkReader 0 0 (MkFile 0 (110 * PieceRun.P)) false 0 true tt) (200 * second_ns)).
  - exists (2048 * MiB), PieceRun.P, 110. split_and!; [done..|]. apply rtc_once.
    apply (pc_newReader _ _ _ _ _ _ _ 1 (MkFile 0 (110 * PieceRun.P)) tt PieceRun.c0); [reflexivity|done|done].
  - vm_compute. reflexivity.
  - vm_compute. reflexivity.
  - reflexivity.
  - vm_compute. discriminate.
Defined.

Lemma idle_reader_witness :
  ∃ r, objs (Read PieceRun.seek PieceRun.read PieceRun.setra 1 10 300 true
    (checkReader PieceRun.seek PieceRun.setra 200 1 PieceRun.c5)).2 !! 1%nat = Some r ∧ readahead r = 0.
Proof.
  destruct (idle_reader_loses_readahead PieceRun.seek PieceRun.read PieceRun.setra PieceRun.c5 1
    (MkReader (9 * PieceRun.P) 0 PieceRun.fileA false 100 true tt) 200 300 10 _
    ltac:(vm_compute; reflexivity) eq_refl eq_refl ltac:(simpl; lia) ltac:(vm_compute; lia) eq_refl)
    as (r & H1 & _ & H2).
  exists r. split; [exact H1|exact H2].
Defined.

Lemma prio_loop_exact_witness :
  ∃ lp batch, prio_loop 2 {[3 := NewPiece; 4 := PieceRun.full]} 3 3 5 3 0 9 ∅ ∅ = Some (lp, batch) ∧
    batch !! 3 = Some PrioNow.
Proof.
  destruct (prio_loop 2 {[3 := NewPiece; 4 := PieceRun.full]} 3 3 5 3 0 9 ∅ ∅) as [[lp batch]|] eqn:H;
    [|vm_compute in H; discriminate].
  exists lp, batch. split; [reflexivity|].
  destruct (prio_loop_exact 2 {[3 := NewPiece; 4 := PieceRun.full]} 3 3 5 3 0 9 ∅ lp batch) with (k := 3)
    as [-> _]; [|lia|exact H|vm_compute; reflexivity].
  intros k Hk. assert (k = 3 ∨ k = 4) as [-> | ->] by lia; vm_compute; by eexists.
Defined.
