(* ===== verification/DiskWarmup.v ===== *)
(** * The disk warm-up cache (disk_warmup.go)

    The head (up to [warmupFileSize]) and the tail (16 MiB) of each streamed
    file are kept in files of one directory, within a quota. The file system is
    part of the model: names refer to inodes, an open handle keeps its inode
    after the name is removed, a write beyond the end of a file leaves a hole of
    zeros. It does not fail: the branches taken when a call of package os
    returns an error other than "does not exist" are left out. *)

From S2P Require Import Prelude.

(** ** Parameters of the configuration *)

Definition tailWarmupSize : Z := 16 * MiB.
Definition warmupQuota : Z := 32 * 1024 * MiB.
Definition warmupSuffix : string := ".warmup".
Definition tailSuffix : string := ".warmup-tail".
Definition handleIdleMax : Z := 30 * 1000000000.
Definition sizeTTL : Z := 10 * 1000000000.

Section diskwarmup.
Context (warmupFileSize DiskWarmupQuotaGB : Z) (dir : string).
Context {slice_sort : SliceSort}.

(** ** The file system *)

Abbreviation ino := nat.

Record Inode := MkInode { i_data : list byte; i_mtime : Z }.

Record FS := MkFS { names : gmap string ino; inodes : gmap ino Inode; next_ino : ino }.

Definition file_of (fs : FS) (path : string) : option Inode := names fs !! path ≫= λ i, inodes fs !! i.

(** [os.Stat(path).Size()]; [None] when the file does not exist. *)
Definition stat_size (fs : FS) (path : string) : option Z :=
  (λ f, Z.of_nat (length (i_data f))) <$> file_of fs path.

(** [O_CREATE|O_TRUNC] on a name that does not exist. *)
Definition create (path : string) (now : Z) (fs : FS) : ino * FS :=
  (next_ino fs, MkFS (<[path := next_ino fs]> (names fs))
     (<[next_ino fs := MkInode [] now]> (inodes fs)) (S (next_ino fs))).

Definition remove (path : string) (fs : FS) : FS := MkFS (delete path (names fs)) (inodes fs) (next_ino fs).

(** The contents after [WriteAt(data, off)]. *)
Definition write_bytes (data : list byte) (off : nat) (old : list byte) : list byte :=
  if (length data =? 0)%nat then old
  else take off old ++ replicate (off - length old) Byte.x00 ++ data ++ drop (off + length data) old.

Definition pwrite (i : ino) (data : list byte) (off now : Z) (fs : FS) : FS :=
  MkFS (names fs) (alter (λ f, MkInode (write_bytes data (Z.to_nat off) (i_data f)) now) i (inodes fs))
    (next_ino fs).

(** [ReadAt]: what is read into a buffer of [len] bytes. *)
Definition pread (i : ino) (len : nat) (off : Z) (fs : FS) : list byte :=
  from_option (λ f, take len (drop (Z.to_nat off) (i_data f))) [] (inodes fs !! i).

(** ** The cache *)

Record cachedHandle := MkHandle { h_ino : ino; lastUsedNano : Z; h_closed : bool }.
Record sizeEntry := MkSize { se_size : Z; updatedAt : Z }.

Record warmupWrite := MkWrite { w_hash : string; w_fileID : Z; w_data : list byte; w_off : Z }.

Record DiskWarmupCache := MkWarmup {
  fs : FS;
  totalSize : Z;
  missing : gset string;
  handles : gmap string cachedHandle;
  sizeCache : gmap string sizeEntry;
  tailCoverage : gmap string Z;
  writeCh : list warmupWrite;
}.

Definition set_fs (f : FS) (d : DiskWarmupCache) : DiskWarmupCache :=
  MkWarmup f (totalSize d) (missing d) (handles d) (sizeCache d) (tailCoverage d) (writeCh d).
Definition set_total (t : Z) (d : DiskWarmupCache) : DiskWarmupCache :=
  MkWarmup (fs d) t (missing d) (handles d) (sizeCache d) (tailCoverage d) (writeCh d).
Definition set_missing (m : gset string) (d : DiskWarmupCache) : DiskWarmupCache :=
  MkWarmup (fs d) (totalSize d) m (handles d) (sizeCache d) (tailCoverage d) (writeCh d).
Definition set_handles (h : gmap string cachedHandle) (d : DiskWarmupCache) : DiskWarmupCache :=
  MkWarmup (fs d) (totalSize d) (missing d) h (sizeCache d) (tailCoverage d) (writeCh d).
Definition set_sizes (s : gmap string sizeEntry) (d : DiskWarmupCache) : DiskWarmupCache :=
  MkWarmup (fs d) (totalSize d) (missing d) (handles d) s (tailCoverage d) (writeCh d).
Definition set_tails (t : gmap string Z) (d : DiskWarmupCache) : DiskWarmupCache :=
  MkWarmup (fs d) (totalSize d) (missing d) (handles d) (sizeCache d) t (writeCh d).
Definition set_ch (l : list warmupWrite) (d : DiskWarmupCache) : DiskWarmupCache :=
  MkWarmup (fs d) (totalSize d) (missing d) (handles d) (sizeCache d) (tailCoverage d) l.

Definition HasSuffix (s suf : string) : bool :=
  let n := String.length s in let k := String.length suf in
  (k <=? n)%nat && bool_decide (String.substring (n - k) k s = suf).

Definition is_warmup_name (name : string) : bool := HasSuffix name warmupSuffix || HasSuffix name tailSuffix.

(** [filepath.Join] of the cache's directory and a name. *)
Definition join (name : string) : string := dir +:+ "/" +:+ name.

Definition filePath (hash : string) (fileID : Z) : string :=
  join (hash +:+ "-" +:+ pretty fileID +:+ warmupSuffix).
Definition tailPath (hash : string) (fileID : Z) : string :=
  join (hash +:+ "-" +:+ pretty fileID +:+ tailSuffix).

(** The warm-up files of the directory with their sizes and times. *)
Definition warmup_files (f : FS) : list (string * Z * Z) :=
  omap (λ ni : string * ino, let '(path, i) := ni in
    nd ← inodes f !! i;
    if is_warmup_name path then Some (path, Z.of_nat (length (i_data nd)), i_mtime nd) else None)
    (map_to_list (names f)).

Definition wf_size (w : string * Z * Z) : Z := w.1.2.

(** [InitDiskWarmup] over a directory that has been read. *)
Definition InitDiskWarmup (f : FS) : DiskWarmupCache :=
  MkWarmup f (Zsum (wf_size <$> warmup_files f)) ∅ ∅ ∅ ∅ [].

(** The reaper closes the descriptor without setting the flag; the closed
    descriptor is dropped from the map. *)
Definition handleReaper (now : Z) (d : DiskWarmupCache) : DiskWarmupCache :=
  set_handles (filter (λ kh : string * cachedHandle, (handleIdleMax <? now - lastUsedNano kh.2) = false)
    (handles d)) d.

Definition getHandle (path : string) (now : Z) (d : DiskWarmupCache)
    : option cachedHandle * DiskWarmupCache :=
  match handles d !! path with
  | Some ch => let ch := MkHandle (h_ino ch) now (h_closed ch) in
               (Some ch, set_handles (<[path := ch]> (handles d)) d)
  | None =>
      match names (fs d) !! path with
      | Some i => let ch := MkHandle i now false in
                  (Some ch, set_handles (<[path := ch]> (handles d)) d)
      | None => (None, d)
      end
  end.

(** The flag is set on the handle that others may still hold; the map loses it. *)
Definition closeHandle (path : string) (d : DiskWarmupCache) : DiskWarmupCache :=
  set_handles (delete path (handles d)) d.

(** Forget a file: handle, sizes, coverage, name. *)
Definition drop_file (path : string) (d : DiskWarmupCache) : DiskWarmupCache :=
  let d := closeHandle path d in
  let d := set_sizes (delete path (sizeCache d)) d in
  let d := set_tails (delete path (tailCoverage d)) d in
  set_fs (remove path (fs d)) d.

Definition quota : Z := if 0 <? DiskWarmupQuotaGB then DiskWarmupQuotaGB * 1024 * MiB else warmupQuota.

Definition older_file (a b : string * Z * Z) : bool := a.2 <? b.2.

(** The loop that removes the oldest files until there is room. *)
Fixpoint evict_files (needed : Z) (files : list (string * Z * Z)) (diskTotal : Z) (d : DiskWarmupCache)
    : Z * DiskWarmupCache :=
  match files with
  | [] => (diskTotal, d)
  | w :: rest =>
      if diskTotal + needed <=? quota then (diskTotal, d)
      else evict_files needed rest (diskTotal - wf_size w) (drop_file w.1.1 d)
  end.

Definition enforceQuotaLocked (needed : Z) (d : DiskWarmupCache) : DiskWarmupCache :=
  if totalSize d + needed <=? quota then d
  else
    let files := warmup_files (fs d) in
    let diskTotal := Zsum (wf_size <$> files) in
    let d := set_total diskTotal d in
    if diskTotal + needed <=? quota then d
    else let '(diskTotal, d) := evict_files needed (sort_slice older_file files) diskTotal d in
         set_total diskTotal d.

(** [WriteChunk] queues a copy of the data unless the channel of 32 is full. *)
Definition WriteChunk (hash : string) (fileID : Z) (data : list byte) (off : Z) (d : DiskWarmupCache)
    : DiskWarmupCache :=
  if warmupFileSize <? off then d
  else if (length (writeCh d) <? 32)%nat
       then set_ch (writeCh d ++ [MkWrite hash fileID data off]) d else d.

(** The part of a chunk that belongs to the head. *)
Definition clip (data : list byte) (off : Z) : list byte :=
  if (off <? warmupFileSize) && (warmupFileSize <? off + Z.of_nat (length data))
  then take (Z.to_nat (warmupFileSize - off)) data else data.

(** The early return for a head that is complete. *)
Definition head_done (path : string) (now : Z) (d : DiskWarmupCache) : bool * DiskWarmupCache :=
  match sizeCache d !! path with
  | Some e => (warmupFileSize <? se_size e, d)
  | None =>
      match stat_size (fs d) path with
      | Some sz => if warmupFileSize <? sz
                   then (true, set_sizes (<[path := MkSize sz now]> (sizeCache d)) d) else (false, d)
      | None => (false, d)
      end
  end.

(** Create a file that does not exist and register its handle. *)
Definition start_file (path : string) (now : Z) (d : DiskWarmupCache) : DiskWarmupCache :=
  let d := set_missing (missing d ∖ {[path]}) d in
  let '(i, f) := create path now (fs d) in
  set_handles (<[path := MkHandle i now false]> (handles d)) (set_fs f d).

Definition processWrite (hash : string) (fileID : Z) (data : list byte) (off now : Z) (d : DiskWarmupCache)
    : DiskWarmupCache :=
  if warmupFileSize <? off then d
  else
    let data := clip data off in
    let path := filePath hash fileID in
    let '(done_, d) := head_done path now d in
    if done_ : bool then d
    else
      let d := match names (fs d) !! path with
               | Some _ => d
               | None => start_file path now (enforceQuotaLocked warmupFileSize d)
               end in
      let '(ch, d) := getHandle path now d in
      match ch with
      | None => d
      | Some ch =>
          if h_closed ch then d
          else
            let prevSize := match sizeCache d !! path with
              | Some e => se_size e
              | None => from_option (λ nd, Z.of_nat (length (i_data nd))) 0 (inodes (fs d) !! h_ino ch)
              end in
            let d := set_fs (pwrite (h_ino ch) data off now (fs d)) d in
            let currentSize := off + Z.of_nat (length data) in
            let d := if prevSize <? currentSize
                     then set_total (totalSize d + (currentSize - prevSize)) d else d in
            set_sizes (<[path := MkSize currentSize now]> (sizeCache d)) d
      end.

(** One turn of the worker. *)
Definition writeWorker (now : Z) (d : DiskWarmupCache) : DiskWarmupCache :=
  match writeCh d with
  | [] => d
  | w :: rest => processWrite (w_hash w) (w_fileID w) (w_data w) (w_off w) now (set_ch rest d)
  end.

Definition fresh_size (path : string) (now : Z) (d : DiskWarmupCache) : option Z :=
  e ← sizeCache d !! path; if now - updatedAt e <? sizeTTL then Some (se_size e) else None.

Definition GetAvailableRange (hash : string) (fileID : Z) (now : Z) (d : DiskWarmupCache)
    : Z * DiskWarmupCache :=
  let path := filePath hash fileID in
  if bool_decide (path ∈ missing d) then (0, d)
  else match fresh_size path now d with
  | Some sz => (sz, d)
  | None =>
      match stat_size (fs d) path with
      | None => (0, set_missing (missing d ∪ {[path]}) d)
      | Some sz =>
          if warmupFileSize + 16 * MiB <? sz then
            let d := closeHandle path d in
            let d := set_sizes (delete path (sizeCache d)) d in
            let d := set_fs (remove path (fs d)) d in
            (0, set_missing (missing d ∪ {[path]}) d)
          else (sz, set_sizes (<[path := MkSize sz now]> (sizeCache d)) d)
      end
  end.

(** What [ReadAt] copies into a buffer of [len] bytes; empty for a miss. *)
Definition ReadAt (hash : string) (fileID : Z) (len : nat) (off now : Z) (d : DiskWarmupCache)
    : list byte * DiskWarmupCache :=
  if warmupFileSize <? off then ([], d)
  else
    let path := filePath hash fileID in
    let '(ch, d) := getHandle path now d in
    match ch with
    | None => ([], d)
    | Some ch =>
        let '(availSize, d) := GetAvailableRange hash fileID now d in
        if availSize <=? off then ([], d)
        else
          let avail := availSize - off in
          let len := if avail <? Z.of_nat len then Z.to_nat avail else len in
          (pread (h_ino ch) len off (fs d), d)
    end.

(** ** The tail *)

Definition tailStart (fileSize : Z) : Z :=
  let s := fileSize - tailWarmupSize in if s <? 0 then 0 else s.

(** The part of a write that belongs to the tail; a negative bound would panic. *)
Definition clip_tail (data : list byte) (rel : Z) : option (list byte) :=
  if tailWarmupSize <? rel + Z.of_nat (length data)
  then slice 0 (tailWarmupSize - rel) data else Some data.

Definition tail_done (path : string) (d : DiskWarmupCache) : bool * DiskWarmupCache :=
  match tailCoverage d !! path with
  | Some hw => (tailWarmupSize <=? hw, d)
  | None =>
      match stat_size (fs d) path with
      | Some sz => if tailWarmupSize <=? sz
                   then (true, set_tails (<[path := sz]> (tailCoverage d)) d) else (false, d)
      | None => (false, d)
      end
  end.

Definition WriteTail (hash : string) (fileID : Z) (data : list byte) (absoluteOffset fileSize now : Z)
    (d : DiskWarmupCache) : option DiskWarmupCache :=
  let path := tailPath hash fileID in
  if absoluteOffset <? tailStart fileSize then Some d
  else
    let rel := absoluteOffset - tailStart fileSize in
    data ← clip_tail data rel;
    if (length data =? 0)%nat then Some d
    else
      let '(done_, d) := tail_done path d in
      if done_ : bool then Some d
      else
        let d := match names (fs d) !! path with Some _ => d | None => start_file path now d end in
        let '(ch, d) := getHandle path now d in
        match ch with
        | None => Some d
        | Some ch =>
            if h_closed ch then Some d
            else
              let d := set_fs (pwrite (h_ino ch) data rel now (fs d)) d in
              let endOff := rel + Z.of_nat (length data) in
              let d := set_sizes (<[path := MkSize endOff now]> (sizeCache d)) d in
              let hw := match tailCoverage d !! path with
                        | Some hw => if hw <? endOff then endOff else hw
                        | None => endOff
                        end in
              Some (set_tails (<[path := hw]> (tailCoverage d)) d)
        end.

Definition ReadTail (hash : string) (fileID : Z) (len : nat) (absoluteOffset fileSize now : Z)
    (d : DiskWarmupCache) : list byte * DiskWarmupCache :=
  if absoluteOffset <? tailStart fileSize then ([], d)
  else
    let rel := absoluteOffset - tailStart fileSize in
    let path := tailPath hash fileID in
    let readEnd := rel + Z.of_nat len in
    let too_short := match stat_size (fs d) path with Some sz => sz <? readEnd | None => true end in
    let '(miss, d) := match tailCoverage d !! path with
      | Some hw => ((hw <? readEnd) && too_short, d)
      | None => if too_short then (true, d)
                else (false, set_tails (<[path := default 0 (stat_size (fs d) path)]> (tailCoverage d)) d)
      end in
    if miss : bool then ([], d)
    else
      let '(ch, d) := getHandle path now d in
      match ch with
      | None => ([], d)
      | Some ch => (pread (h_ino ch) len rel (fs d), d)
      end.

Definition GetTailRange (hash : string) (fileID : Z) (now : Z) (d : DiskWarmupCache)
    : Z * DiskWarmupCache :=
  let path := tailPath hash fileID in
  if bool_decide (path ∈ missing d) then (0, d)
  else match fresh_size path now d with
  | Some sz => (sz, d)
  | None =>
      match stat_size (fs d) path with
      | None => (0, set_missing (missing d ∪ {[path]}) d)
      | Some sz => (sz, set_sizes (<[path := MkSize sz now]> (sizeCache d)) d)
      end
  end.

(** The names a glob [hash-*suffix] of the directory matches. *)
Definition glob (hash suffix : string) (d : DiskWarmupCache) : list string :=
  filter (λ path, String.prefix (join (hash +:+ "-")) path && HasSuffix path suffix = true)
    ((map_to_list (names (fs d))).*1).

Definition RemoveHash (hash : string) (d : DiskWarmupCache) : DiskWarmupCache :=
  foldl (λ d path,
    let d := match stat_size (fs d) path with Some sz => set_total (totalSize d - sz) d | None => d end in
    drop_file path d) d (glob hash warmupSuffix d ++ glob hash tailSuffix d).

(** ** Invariants *)

(** The true contents of each warm-up file. *)
Context (content : string → nat → byte).

Definition truthful_at (path : string) (off : nat) (data : list byte) : Prop :=
  ∀ j x, data !! j = Some x → x = content path (off + j).

Record warm_inv (d : DiskWarmupCache) : Prop := {
  wi_inode path i : names (fs d) !! path = Some i → is_Some (inodes (fs d) !! i);
  wi_inj p1 p2 i : names (fs d) !! p1 = Some i → names (fs d) !! p2 = Some i → p1 = p2;
  wi_fresh i : is_Some (inodes (fs d) !! i) → (i < next_ino (fs d))%nat;
  wi_handle path ch : handles d !! path = Some ch → names (fs d) !! path = Some (h_ino ch);
  wi_size path e : sizeCache d !! path = Some e →
    ∃ nd, file_of (fs d) path = Some nd ∧ se_size e ≤ Z.of_nat (length (i_data nd));
  wi_true path nd : file_of (fs d) path = Some nd → truthful_at path 0 (i_data nd);
}.

(** Where the file of a path ends; 0 when there is none. *)
Definition file_end (d : DiskWarmupCache) (path : string) : nat :=
  from_option (λ nd, length (i_data nd)) 0%nat (file_of (fs d) path).

Lemma write_bytes_length data off old :
  data ≠ [] → length (write_bytes data off old) = (length old `max` (off + length data))%nat.
Proof.
  intros Hne. unfold write_bytes. destruct (Nat.eqb_spec (length data) 0) as [H0|_].
  { by apply length_zero_iff_nil in H0. }
  rewrite !length_app, length_take, length_replicate, length_drop. lia.
Qed.

(** A write that leaves no hole keeps the contents true. *)
Lemma write_bytes_true path data off old :
  truthful_at path 0 old → truthful_at path off data → (off ≤ length old)%nat →
  truthful_at path 0 (write_bytes data off old).
Proof.
  intros Ho Hd Hoff. unfold write_bytes. case_if; [done|].
  replace (off - length old)%nat with 0%nat by lia. simpl. intros j x.
  rewrite lookup_app_Some, lookup_app_Some, length_take, Nat.min_l by lia. simpl.
  intros [Hj|[? [Hj|[? Hj]]]].
  - apply lookup_take_Some in Hj as [Hj _]. by apply Ho.
  - apply Hd in Hj. rewrite Hj. f_equal. lia.
  - rewrite lookup_drop in Hj. apply Ho in Hj. rewrite Hj. simpl. f_equal. lia.
Qed.

Lemma file_of_Some d path nd :
  file_of (fs d) path = Some nd ↔ ∃ i, names (fs d) !! path = Some i ∧ inodes (fs d) !! i = Some nd.
Proof. unfold file_of. rewrite bind_Some. done. Qed.

(** The bookkeeping that the invariant does not constrain. *)
Lemma warm_inv_frame d d' :
  fs d' = fs d → handles d' = handles d → sizeCache d' = sizeCache d → warm_inv d → warm_inv d'.
Proof. intros H1 H2 H3 []. split; rewrite ?H1, ?H2, ?H3; done. Qed.

Lemma set_sizes_inv d path e nd :
  warm_inv d → file_of (fs d) path = Some nd → se_size e ≤ Z.of_nat (length (i_data nd)) →
  warm_inv (set_sizes (<[path := e]> (sizeCache d)) d).
Proof.
  intros [] Hf Hle. split; simpl; auto. intros p e'. rewrite lookup_insert.
  case_decide; intros; simplify_eq; eauto.
Qed.

Lemma drop_file_inv path d : warm_inv d → warm_inv (drop_file path d).
Proof.
  intros []. unfold drop_file, closeHandle. split; simpl.
  - intros p i [_ ?]%lookup_delete_Some. eauto.
  - intros p1 p2 i [_ ?]%lookup_delete_Some [_ ?]%lookup_delete_Some. eauto.
  - done.
  - intros p ch [? ?]%lookup_delete_Some. rewrite lookup_delete_ne by done. eauto.
  - intros p e [? Hp]%lookup_delete_Some. destruct (wi_size0 _ _ Hp) as (nd & ? & ?).
    exists nd. split; [|done]. unfold file_of. simpl. by rewrite lookup_delete_ne.
  - intros p nd. unfold file_of. simpl. intros (i & [_ Hp]%lookup_delete_Some & ?)%bind_Some.
    apply wi_true0. unfold file_of. by rewrite Hp.
Qed.

Lemma getHandle_inv path now d ch d' :
  warm_inv d → getHandle path now d = (ch, d') →
  warm_inv d' ∧ fs d' = fs d ∧ sizeCache d' = sizeCache d ∧ totalSize d' = totalSize d ∧
  (∀ h, ch = Some h → names (fs d) !! path = Some (h_ino h)).
Proof.
  intros Hinv. unfold getHandle. pose proof (wi_handle _ Hinv path) as Hh.
  assert (∀ h, names (fs d) !! path = Some (h_ino h) →
    warm_inv (set_handles (<[path := h]> (handles d)) d)) as Hset.
  { intros h Hn. destruct Hinv. split; simpl; auto. intros p ch'. rewrite lookup_insert.
    case_decide; intros; simplify_eq; eauto. }
  destruct (handles d !! path) as [h|].
  - intros [= <- <-]. split_and!; auto; [apply Hset; simpl; auto|]. intros h' [= <-]. simpl. auto.
  - destruct (names (fs d) !! path) as [i|] eqn:Hn; intros [= <- <-]; [|by split_and!].
    split_and!; auto. by intros h' [= <-].
Qed.

Lemma start_file_inv path now d :
  warm_inv d → names (fs d) !! path = None → warm_inv (start_file path now d).
Proof.
  intros [] Hn. unfold start_file. simpl.
  assert (∀ i, is_Some (inodes (fs d) !! i) → i ≠ next_ino (fs d)) as Hne by (intros i ?%wi_fresh0; lia).
  assert (∀ p i, names (fs d) !! p = Some i → i ≠ next_ino (fs d)) as Hne2 by eauto.
  split; simpl.
  - intros p i. rewrite lookup_insert, lookup_insert_is_Some'. case_decide; intros; simplify_eq; eauto.
  - intros p1 p2 i. rewrite !lookup_insert. repeat case_decide; intros; simplify_eq; try done; eauto.
    + by destruct (Hne2 p2 (next_ino (fs d))).
    + by destruct (Hne2 p1 (next_ino (fs d))).
  - intros i. rewrite lookup_insert_is_Some'. intros [<-|?%wi_fresh0]; lia.
  - intros p ch. rewrite !lookup_insert. case_decide; intros; simplify_eq; eauto.
  - intros p e Hp. destruct (wi_size0 _ _ Hp) as (nd & Hnd & ?). exists nd. split; [|done].
    unfold file_of in *. simpl. apply bind_Some in Hnd as (i & Hi & Hnd).
    rewrite lookup_insert_ne by congruence. rewrite Hi. simpl.
    by rewrite lookup_insert_ne by (symmetry; eauto).
  - intros p nd. unfold file_of. simpl. rewrite lookup_insert. case_decide as Hp.
    + simpl. rewrite lookup_insert_eq. intros [= <-] j x. done.
    + intros (i & Hi & Hnd)%bind_Some. rewrite lookup_insert_ne in Hnd by (symmetry; eauto).
      apply wi_true0. unfold file_of. by rewrite Hi.
Qed.

Lemma pwrite_inv d path i data off now nd :
  warm_inv d → names (fs d) !! path = Some i → inodes (fs d) !! i = Some nd → 0 ≤ off →
  (Z.to_nat off ≤ length (i_data nd))%nat → truthful_at path (Z.to_nat off) data →
  warm_inv (set_fs (pwrite i data off now (fs d)) d) ∧
  file_of (pwrite i data off now (fs d)) path =
    Some (MkInode (write_bytes data (Z.to_nat off) (i_data nd)) now).
Proof.
  intros [] Hp Hi Hoff Hle Ht.
  set (nd' := MkInode (write_bytes data (Z.to_nat off) (i_data nd)) now).
  assert (∀ p, file_of (pwrite i data off now (fs d)) p =
    if decide (p = path) then Some nd' else file_of (fs d) p) as Hf.
  { intros p. unfold file_of, pwrite. simpl. destruct (names (fs d) !! p) as [i'|] eqn:Hp'; simpl.
    - rewrite lookup_alter. case_decide as Hii.
      + subst i'. assert (p = path) as -> by eauto. rewrite decide_True by done. by rewrite Hi.
      + rewrite decide_False by congruence. done.
    - rewrite decide_False by congruence. done. }
  split; [split; simpl; auto|by rewrite Hf, decide_True].
  - intros p i' Hp'. rewrite lookup_alter_is_Some. eauto.
  - intros i'. rewrite lookup_alter_is_Some. eauto.
  - intros p e He. destruct (wi_size0 _ _ He) as (nd0 & Hnd0 & Hs). rewrite Hf.
    case_decide as Hpp; [|eauto]. subst p. exists nd'. split; [done|].
    assert (nd0 = nd) as -> by (unfold file_of in Hnd0; rewrite Hp in Hnd0; simpl in Hnd0; congruence).
    simpl. destruct data as [|x data]; [done|]. rewrite write_bytes_length by done. lia.
  - intros p nd0. rewrite Hf. case_decide as Hpp; [|apply wi_true0]. intros [= <-]. subst p. simpl.
    apply write_bytes_true; auto. apply wi_true0. unfold file_of. by rewrite Hp.
Qed.

Lemma evict_files_inv needed files t d t' d' :
  warm_inv d → evict_files needed files t d = (t', d') → warm_inv d'.
Proof.
  revert t d. induction files as [|w files IH]; intros t d Hi; simpl; [by intros [= _ <-]|].
  case_if; [by intros [= _ <-]|]. apply IH. by apply drop_file_inv.
Qed.

Lemma enforceQuota_inv needed d : warm_inv d → warm_inv (enforceQuotaLocked needed d).
Proof.
  intros Hi. unfold enforceQuotaLocked. case_if; [done|]. simpl.
  assert (warm_inv (set_total (Zsum (wf_size <$> warmup_files (fs d))) d)) as Hi'
    by (by eapply warm_inv_frame; [..|exact Hi]).
  case_if; [done|]. destruct (evict_files _ _ _ _) as [t' d'] eqn:He.
  eapply warm_inv_frame; [..|eapply evict_files_inv; [exact Hi'|exact He]]; done.
Qed.

Lemma head_done_inv path now d b d' :
  warm_inv d → head_done path now d = (b, d') → warm_inv d' ∧ fs d' = fs d.
Proof.
  intros Hi. unfold head_done. destruct (sizeCache d !! path); [by intros [= _ <-]|].
  unfold stat_size. destruct (file_of (fs d) path) as [nd|] eqn:Hf; simpl; [|by intros [= _ <-]].
  case_if; intros [= _ <-]; [|done]. split; [|done]. by eapply set_sizes_inv.
Qed.

Lemma truthful_take path off n data : truthful_at path off data → truthful_at path off (take n data).
Proof. intros Ht j x [Hj _]%lookup_take_Some. by apply Ht. Qed.

Lemma clip_true path data off : truthful_at path (Z.to_nat off) data → truthful_at path (Z.to_nat off) (clip data off).
Proof. intros Ht. unfold clip. case_if; [by apply truthful_take|done]. Qed.

(** Writing at most at the end of a file, through its handle. *)
Lemma write_at_end d path now data off ch d1 e :
  warm_inv d → is_Some (names (fs d) !! path) → 0 ≤ off →
  (Z.to_nat off ≤ file_end d path)%nat → truthful_at path (Z.to_nat off) data →
  getHandle path now d = (Some ch, d1) → e ≤ off + Z.of_nat (length data) →
  let d2 := set_fs (pwrite (h_ino ch) data off now (fs d1)) d1 in
  warm_inv d2 ∧ warm_inv (set_sizes (<[path := MkSize e now]> (sizeCache d2)) d2).
Proof.
  intros Hi [i Hn] Hoff Hend Ht Hg He d2.
  destruct (getHandle_inv _ _ _ _ _ Hi Hg) as (Hi1 & Hfs & _ & _ & Hino).
  specialize (Hino ch eq_refl). rewrite <- Hfs in Hino.
  destruct (wi_inode _ Hi1 _ _ Hino) as [nd Hnd].
  assert (file_end d path = length (i_data nd)) as Hfe.
  { unfold file_end, file_of. rewrite <- Hfs, Hino. simpl. by rewrite Hnd. }
  destruct (pwrite_inv d1 path (h_ino ch) data off now nd Hi1 Hino Hnd) as [Hi2 Hf2]; [lia|lia|done|].
  split; [done|]. apply (set_sizes_inv _ _ _ _ Hi2 Hf2). simpl.
  destruct data as [|x data]; [simpl in *; unfold write_bytes; simpl; lia|].
  rewrite write_bytes_length by done. lia.
Qed.

Lemma enforceQuota_names needed d path :
  names (fs d) !! path = None → names (fs (enforceQuotaLocked needed d)) !! path = None.
Proof.
  intros Hn. unfold enforceQuotaLocked. case_if; [done|]. simpl. case_if; [done|].
  destruct (evict_files _ _ _ _) as [t' d'] eqn:He. simpl.
  assert (∀ files t d t' d', names (fs d) !! path = None → evict_files needed files t d = (t', d') →
    names (fs d') !! path = None) as Hev; [|by eapply Hev; [|exact He]].
  clear. induction files as [|w files IH]; intros t d t' d' Hn; simpl; [by intros [= _ <-]|].
  case_if; [by intros [= _ <-]|]. apply IH. simpl. rewrite lookup_delete. by case_decide.
Qed.

Lemma start_file_name path now d : is_Some (names (fs (start_file path now d)) !! path).
Proof. unfold start_file. simpl. rewrite lookup_insert_eq. by eexists. Qed.

Lemma processWrite_inv hash id data off now d :
  let path := filePath hash id in
  warm_inv d → 0 ≤ off → (Z.to_nat off ≤ file_end d path)%nat → truthful_at path (Z.to_nat off) data →
  warm_inv (processWrite hash id data off now d).
Proof.
  intros path Hi Hoff Hend Ht. unfold processWrite. case_if; [done|]. fold path.
  destruct (head_done path now d) as [b d0] eqn:Hh.
  destruct (head_done_inv _ _ _ _ _ Hi Hh) as [Hi0 Hfs0]. destruct b; [done|].
  set (d1 := match names (fs d0) !! path with Some _ => d0 | None => _ end).
  assert (warm_inv d1 ∧ is_Some (names (fs d1) !! path) ∧ (Z.to_nat off ≤ file_end d1 path)%nat)
    as (Hi1 & Hn1 & Hend1).
  { unfold d1. destruct (names (fs d0) !! path) as [i|] eqn:Hn.
    - split_and!; [done|by eexists|]. unfold file_end in *. by rewrite Hfs0.
    - split_and!; [|apply start_file_name|].
      + apply start_file_inv; [by apply enforceQuota_inv|by apply enforceQuota_names].
      + assert (file_end d path = 0%nat) as H0 by (unfold file_end, file_of; by rewrite <- Hfs0, Hn). lia. }
  clearbody d1. destruct (getHandle path now d1) as [[ch|] d2] eqn:Hg; cycle 1.
  { by destruct (getHandle_inv _ _ _ _ _ Hi1 Hg) as [? _]. }
  destruct (h_closed ch); [by destruct (getHandle_inv _ _ _ _ _ Hi1 Hg) as [? _]|].
  destruct (write_at_end d1 path now (clip data off) off ch d2 (off + Z.of_nat (length (clip data off)))
    Hi1 Hn1 Hoff Hend1 (clip_true _ _ _ Ht) Hg) as [_ Hi3]; [lia|].
  set (prev := match sizeCache d2 !! path with Some _ => _ | None => _ end). clearbody prev.
  case_if; (eapply warm_inv_frame; [..|exact Hi3]; done).
Qed.

Lemma WriteTail_inv hash id data abs_ size now d d' :
  let path := tailPath hash id in let rel := abs_ - tailStart size in
  warm_inv d → (Z.to_nat rel ≤ file_end d path)%nat → truthful_at path (Z.to_nat rel) data →
  WriteTail hash id data abs_ size now d = Some d' → warm_inv d'.
Proof.
  intros path rel Hi Hend Ht. unfold WriteTail. case_if; [by intros [= <-]|]. zbool. fold rel path.
  destruct (clip_tail data rel) as [data'|] eqn:Hclip; [|done]. cbn [mbind option_bind].
  assert (truthful_at path (Z.to_nat rel) data') as Ht'.
  { unfold clip_tail in Hclip. case_if_in Hclip; [|by simplify_eq]. unfold slice in Hclip.
    case_if_in Hclip; [|done]. simplify_eq. rewrite Z.sub_0_r. by apply truthful_take. }
  case_if; [by intros [= <-]|].
  destruct (tail_done path d) as [b d0] eqn:Htd.
  assert (warm_inv d0 ∧ fs d0 = fs d) as [Hi0 Hfs0].
  { unfold tail_done in Htd. destruct (tailCoverage d !! path); [by simplify_eq|].
    destruct (stat_size (fs d) path); [|by simplify_eq]. case_if_in Htd; simplify_eq; [|done].
    split; [|done]. by eapply warm_inv_frame; [..|exact Hi]. }
  destruct b; [by intros [= <-]|].
  set (d1 := match names (fs d0) !! path with Some _ => d0 | None => _ end).
  assert (warm_inv d1 ∧ is_Some (names (fs d1) !! path) ∧ (Z.to_nat rel ≤ file_end d1 path)%nat)
    as (Hi1 & Hn1 & Hend1).
  { unfold d1. destruct (names (fs d0) !! path) as [i|] eqn:Hn.
    - split_and!; [done|by eexists|]. unfold file_end in *. by rewrite Hfs0.
    - split_and!; [by apply start_file_inv|apply start_file_name|].
      assert (file_end d path = 0%nat) as H0 by (unfold file_end, file_of; by rewrite <- Hfs0, Hn). lia. }
  clearbody d1. destruct (getHandle path now d1) as [[ch|] d2] eqn:Hg; cycle 1.
  { intros [= <-]. by destruct (getHandle_inv _ _ _ _ _ Hi1 Hg) as [? _]. }
  destruct (h_closed ch); [intros [= <-]; by destruct (getHandle_inv _ _ _ _ _ Hi1 Hg) as [? _]|].
  destruct (write_at_end d1 path now data' rel ch d2 (rel + Z.of_nat (length data'))
    Hi1 Hn1) as [_ Hi3]; [lia|done..|].
  intros [= <-]. eapply warm_inv_frame; [..|exact Hi3]; done.
Qed.

Lemma GetAvailableRange_inv hash id now d sz d' :
  let path := filePath hash id in
  warm_inv d → GetAvailableRange hash id now d = (sz, d') →
  warm_inv d' ∧ (0 < sz → fs d' = fs d ∧ ∃ nd, file_of (fs d) path = Some nd ∧ sz ≤ Z.of_nat (length (i_data nd))).
Proof.
  intros path Hi. unfold GetAvailableRange. fold path. case_if; [intros [= <- <-]; split; [done|lia]|].
  unfold fresh_size. destruct (sizeCache d !! path) as [e|] eqn:He; simpl; [case_if|].
  - intros [= <- <-]. split; [done|]. intros _. split; [done|]. by apply (wi_size _ Hi).
  - unfold stat_size. destruct (file_of (fs d) path) as [nd|] eqn:Hf; simpl.
    + case_if; intros [= <- <-].
      * split; [|lia]. eapply warm_inv_frame; [..|apply (drop_file_inv path d Hi)]; done.
      * split; [by eapply set_sizes_inv|]. intros _. split; [done|]. by exists nd.
    + intros [= <- <-]. split; [|lia]. by eapply warm_inv_frame; [..|exact Hi].
  - unfold stat_size. destruct (file_of (fs d) path) as [nd|] eqn:Hf; simpl.
    + case_if; intros [= <- <-].
      * split; [|lia]. eapply warm_inv_frame; [..|apply (drop_file_inv path d Hi)]; done.
      * split; [by eapply set_sizes_inv|]. intros _. split; [done|]. by exists nd.
    + intros [= <- <-]. split; [|lia]. by eapply warm_inv_frame; [..|exact Hi].
Qed.

(** ** Runs without gaps *)

(** The operations, where a write carries the file's bytes and starts within or
    right at the end of what is already on disk. *)
Inductive warm_step : DiskWarmupCache → DiskWarmupCache → Prop :=
| ws_queue hash id data off d : warm_step d (WriteChunk hash id data off d)
| ws_write hash id data off now d :
    0 ≤ off → (Z.to_nat off ≤ file_end d (filePath hash id))%nat →
    truthful_at (filePath hash id) (Z.to_nat off) data →
    warm_step d (processWrite hash id data off now d)
| ws_tail hash id data abs_ size now d d' :
    (Z.to_nat (abs_ - tailStart size) ≤ file_end d (tailPath hash id))%nat →
    truthful_at (tailPath hash id) (Z.to_nat (abs_ - tailStart size)) data →
    WriteTail hash id data abs_ size now d = Some d' → warm_step d d'
| ws_avail hash id now d : warm_step d (GetAvailableRange hash id now d).2
| ws_read hash id len off now d : warm_step d (ReadAt hash id len off now d).2
| ws_remove hash d : warm_step d (RemoveHash hash d)
| ws_reap now d : warm_step d (handleReaper now d).

Definition warm_reachable (d : DiskWarmupCache) : Prop :=
  rtc warm_step (InitDiskWarmup (MkFS ∅ ∅ 0%nat)) d.

Lemma ReadAt_inv hash id len off now d : warm_inv d → warm_inv (ReadAt hash id len off now d).2.
Proof.
  intros Hi. unfold ReadAt. case_if; [done|].
  destruct (getHandle _ now d) as [[ch|] d1] eqn:Hg;
    destruct (getHandle_inv _ _ _ _ _ Hi Hg) as (Hi1 & _); [|done].
  destruct (GetAvailableRange hash id now d1) as [sz d2] eqn:Ha.
  destruct (GetAvailableRange_inv _ _ _ _ _ _ Hi1 Ha) as [Hi2 _]. by case_if.
Qed.

Lemma RemoveHash_inv hash d : warm_inv d → warm_inv (RemoveHash hash d).
Proof.
  unfold RemoveHash. generalize (glob hash warmupSuffix d ++ glob hash tailSuffix d). intros l. revert d.
  induction l as [|p l IH]; intros d Hi; simpl; [done|]. apply IH, drop_file_inv.
  destruct (stat_size _ _); [|done]. by eapply warm_inv_frame; [..|exact Hi].
Qed.

Lemma warm_step_inv d d' : warm_inv d → warm_step d d' → warm_inv d'.
Proof.
  intros Hi Hs. destruct Hs as [hash id data off d|hash id data off now d|hash id data ab size now d d' He Ht Hw
    |hash id now d|hash id len off now d|hash d|now d].
  - unfold WriteChunk. repeat case_if; [done| |done]. by eapply warm_inv_frame; [..|exact Hi].
  - by apply processWrite_inv.
  - by eapply WriteTail_inv.
  - destruct (GetAvailableRange hash id now d) as [sz d'] eqn:H.
    by destruct (GetAvailableRange_inv _ _ _ _ _ _ Hi H).
  - by apply ReadAt_inv.
  - by apply RemoveHash_inv.
  - destruct Hi. split; simpl; auto. intros p ch [Hp _]%map_lookup_filter_Some. by apply wi_handle0.
Qed.

Lemma warm_reachable_inv d : warm_reachable d → warm_inv d.
Proof.
  revert d. apply (rtc_ind_r warm_inv).
  - split; simpl; try done; intros *; rewrite ?lookup_empty; done || by intros [].
  - intros d1 d2 _ Hs Hi. by eapply warm_step_inv.
Qed.

(** What the two reads return. *)
Lemma ReadAt_true hash id len off now d :
  warm_inv d → 0 ≤ off →
  let bs := (ReadAt hash id len off now d).1 in
  (length bs ≤ len)%nat ∧ truthful_at (filePath hash id) (Z.to_nat off) bs.
Proof.
  intros Hi Hoff. unfold ReadAt. case_if; [by split; [simpl; lia|]|].
  destruct (getHandle _ now d) as [[ch|] d1] eqn:Hg; [|by split; [simpl; lia|]].
  destruct (getHandle_inv _ _ _ _ _ Hi Hg) as (Hi1 & Hfs & _ & _ & Hino). specialize (Hino ch eq_refl).
  destruct (GetAvailableRange hash id now d1) as [sz d2] eqn:Ha.
  destruct (GetAvailableRange_inv _ _ _ _ _ _ Hi1 Ha) as [Hi2 Hsz].
  case_if; [by split; [simpl; lia|]|]. zbool. cbn [fst].
  destruct Hsz as (Hfs2 & nd & Hnd & Hle); [lia|]. set (n := if _ <? _ then _ else _).
  assert (n ≤ len)%nat as Hn by (unfold n; case_if; zbool; lia). clearbody n.
  unfold pread. rewrite Hfs2, Hfs.
  assert (inodes (fs d) !! h_ino ch = Some nd) as ->.
  { unfold file_of in Hnd. rewrite Hfs in Hnd. by rewrite Hino in Hnd. }
  simpl. rewrite length_take. split; [lia|]. intros j x [Hj _]%lookup_take_Some. rewrite lookup_drop in Hj.
  rewrite Hfs in Hnd. by apply (wi_true _ Hi _ _ Hnd) in Hj.
Qed.

Lemma ReadTail_true hash id len abs_ size now d :
  warm_inv d →
  let bs := (ReadTail hash id len abs_ size now d).1 in
  (length bs ≤ len)%nat ∧ truthful_at (tailPath hash id) (Z.to_nat (abs_ - tailStart size)) bs ∧
  (bs ≠ [] → tailStart size ≤ abs_).
Proof.
  intros Hi. unfold ReadTail. destruct (Z.ltb_spec abs_ (tailStart size)); [by split_and!; [simpl; lia|..]|].
  set (m := match tailCoverage d !! _ with Some _ => _ | None => _ end). destruct m as [miss d0] eqn:Em.
  assert (warm_inv d0 ∧ fs d0 = fs d) as [Hi0 Hfs0].
  { unfold m in Em. destruct (tailCoverage d !! _); [by injection Em as _ <-|].
    case_match; injection Em as _ <-; [done|]. split; [|done]. by eapply warm_inv_frame; [..|exact Hi]. }
  clear Em m. destruct miss; [by split_and!; [simpl; lia|..]|].
  destruct (getHandle _ now d0) as [[ch|] d1] eqn:Hg; [|by split_and!; [simpl; lia|..]].
  destruct (getHandle_inv _ _ _ _ _ Hi0 Hg) as (Hi1 & Hfs & _ & _ & Hino). specialize (Hino ch eq_refl).
  cbn [fst]. unfold pread. destruct (inodes (fs d1) !! h_ino ch) as [nd|] eqn:En; [|by split_and!; [simpl; lia|..]].
  simpl. rewrite length_take. split_and!; [lia| |done]. intros j x [Hj _]%lookup_take_Some. rewrite lookup_drop in Hj.
  rewrite Hfs in En. assert (file_of (fs d0) (tailPath hash id) = Some nd) as Hnd by (unfold file_of; by rewrite Hino).
  by apply (wi_true _ Hi0 _ _ Hnd) in Hj.
Qed.

(** C16: As long as chunks reach the disk without gaps, every byte the warm-up
    cache serves is the byte of the file at that position, whatever files the
    quota, removals and the handle reaper took in between; a read returns
    nothing past what is available and no more than was asked for. *)
Theorem warmup_ReadAt_true d hash id len off now j x :
  warm_reachable d → 0 ≤ off →
  let bs := (ReadAt hash id len off now d).1 in
  (length bs ≤ len)%nat ∧ (bs !! j = Some x → x = content (filePath hash id) (Z.to_nat off + j)).
Proof.
  intros Hi%warm_reachable_inv Hoff. destruct (ReadAt_true hash id len off now d Hi Hoff) as [Hl Ht].
  split; [done|]. apply Ht.
Qed.

(** ** The quota *)

Lemma warmup_files_drop path d :
  NoDup ((warmup_files (fs d)).*1.*1) ∧
  (warmup_files (fs (drop_file path d)) ≡ₚ filter (λ w, w.1.1 ≠ path) (warmup_files (fs d))).
Proof.
  unfold warmup_files. simpl. set (sel := λ ni : string * ino, _).
  assert (∀ ni w, sel ni = Some w → w.1.1 = ni.1) as Hsel.
  { intros [p i] w. unfold sel. destruct (inodes (fs d) !! i); simpl; [|done].
    case_if; intros; by simplify_eq. }
  assert (∀ l, (omap sel l).*1.*1 ⊆+ l.*1) as Hsub.
  { induction l as [|[p i] l IH]; [done|]. cbn [omap list_omap].
    destruct (sel (p, i)) as [w|] eqn:Hw; [|by apply submseteq_cons].
    apply Hsel in Hw. rewrite !fmap_cons, Hw. by apply submseteq_skip. }
  split.
  - pose proof (NoDup_fst_map_to_list (names (fs d))) as Hnd.
    destruct (submseteq_Permutation _ _ (Hsub (map_to_list (names (fs d))))) as [k Hk].
    rewrite Hk in Hnd. by apply NoDup_app in Hnd as [? _].
  - assert (∀ l : list (string * ino), omap sel (filter (λ ni : string * ino, ni.1 ≠ path) l) =
      filter (λ w, w.1.1 ≠ path) (omap sel l)) as Hf.
    { induction l as [|[p i] l IH]; [done|]. rewrite filter_cons. cbn [omap list_omap fst].
      destruct (sel (p, i)) as [w|] eqn:Hw.
      - pose proof (Hsel _ _ Hw) as Hp. cbn [fst] in Hp. rewrite filter_cons. rewrite Hp.
        destruct (decide (p ≠ path)); cbn [omap list_omap]; [rewrite Hw|]; by rewrite IH.
      - destruct (decide (p ≠ path)); cbn [omap list_omap]; [rewrite Hw|]; by rewrite IH. }
    rewrite <- Hf. apply omap_Permutation.
    apply NoDup_Permutation; [apply NoDup_map_to_list|apply NoDup_filter, NoDup_map_to_list|].
    intros [p i]. rewrite list_elem_of_filter, !elem_of_map_to_list, lookup_delete_Some. simpl. naive_solver.
Qed.

Lemma evict_files_spec needed files t d t' d' :
  warmup_files (fs d) ≡ₚ files → NoDup (files.*1.*1) → t = Zsum (wf_size <$> files) →
  evict_files needed files t d = (t', d') →
  ∃ gone kept, files = gone ++ kept ∧ warmup_files (fs d') ≡ₚ kept ∧ t' = Zsum (wf_size <$> kept) ∧
    (kept = [] ∨ t' + needed ≤ quota).
Proof.
  revert t d. induction files as [|w files IH]; intros t d Hp Hnd Ht; simpl.
  { intros [= <- <-]. exists [], []. split_and!; auto. }
  case_if; zbool.
  { intros [= <- <-]. exists [], (w :: files). split_and!; auto. }
  rewrite !fmap_cons in Hnd. apply NoDup_cons in Hnd as [Hw Hnd]. intros Hev.
  edestruct IH with (4 := Hev) as (gone & kept & -> & ? & ? & ?); [|done| |].
  - rewrite (proj2 (warmup_files_drop w.1.1 d)), Hp. rewrite filter_cons_False by tauto.
    rewrite filter_all_id; [done|]. apply Forall_forall. intros w' Hin Heq. apply Hw.
    rewrite <- Heq. by do 2 apply list_elem_of_fmap_2.
  - rewrite Ht, fmap_cons, Zsum_cons. lia.
  - exists (w :: gone), kept. auto.
Qed.

(** When the tracked size leaves no room for what is needed, the quota is
    enforced on the sizes found on disk: the oldest files go first, one by
    one, until the rest and the new file fit or no warm-up file is left, and
    the tracked size is then exactly the size of the files that are left. *)
Theorem enforceQuota_exact needed d :
  let d' := enforceQuotaLocked needed d in
  if totalSize d + needed <=? quota then d' = d
  else
    totalSize d' = Zsum (wf_size <$> warmup_files (fs d')) ∧
    (totalSize d' + needed ≤ quota ∨ warmup_files (fs d') = []) ∧
    ∃ gone kept, warmup_files (fs d) ≡ₚ gone ++ kept ∧ warmup_files (fs d') ≡ₚ kept ∧
      ∀ a b, a ∈ gone → b ∈ kept → a.2 ≤ b.2.
Proof.
  simpl. unfold enforceQuotaLocked. case_if; [done|]. simpl. case_if; zbool.
  { split_and!; [done|by left|]. exists [], (warmup_files (fs d)). split_and!; [done..|]. set_solver. }
  set (d0 := set_total _ d). set (files := sort_slice older_file (warmup_files (fs d))).
  assert (files ≡ₚ warmup_files (fs d)) as Hp by apply sort_slice_perm.
  assert (sorted_by older_file files) as Hsort.
  { apply sort_slice_sorted. split; unfold older_file; intros; zbool; try apply Z.ltb_irrefl;
      first [apply Z.ltb_lt|apply Z.ltb_ge]; lia. }
  destruct (evict_files needed files _ d0) as [t' d'] eqn:Hev.
  edestruct evict_files_spec with (4 := Hev) as (gone & kept & Hgk & Hk & -> & Hq);
    [by symmetry| | |].
  - rewrite Hp. apply (proj1 (warmup_files_drop "" d)).
  - by rewrite Hp.
  - simpl. split_and!.
    + by rewrite Hk.
    + destruct Hq as [->|?]; [right|by left]. by apply Permutation_nil_r.
    + exists gone, kept. split_and!; [by rewrite <- Hgk, Hp|done|]. intros a b Ha Hb.
      rewrite Hgk in Hsort. clear -Hsort Ha Hb. induction gone as [|g gone IH]; [set_solver|].
      apply StronglySorted_inv in Hsort as [Hs Hall]. apply elem_of_cons in Ha as [->|Ha]; [|by apply IH].
      rewrite Forall_forall in Hall. specialize (Hall b). unfold older_file in Hall.
      rewrite elem_of_app in Hall. specialize (Hall (or_intror Hb)). zbool. done.
Qed.
End diskwarmup.

(** ** Runs *)

Module WarmRun.
Definition one : byte := Byte.x01.
Definition d0 : DiskWarmupCache := InitDiskWarmup (MkFS ∅ ∅ 0%nat).
Definition write (off : Z) (data : list byte) (now : Z) (d : DiskWarmupCache) : DiskWarmupCache :=
  processWrite 64 0 "/w" "h" 1 data off now d.
Definition tail (abs_ : Z) (data : list byte) (now : Z) (d : DiskWarmupCache) : option DiskWarmupCache :=
  WriteTail "/w" "h" 1 data abs_ 10 now d.
Definition ones (_ : string) (_ : nat) : byte := one.
Definition d1 : DiskWarmupCache := write 4 [one; one] 2 (write 0 [one; one; one; one] 1 d0).

Lemma reachable_d1 : warm_reachable 64 0 "/w" ones d1.
Proof.
  assert (∀ path off data, (∀ x, x ∈ data → x = one) → truthful_at ones path off data) as Ht.
  { intros path off data Hd j x Hj. apply Hd. by eapply list_elem_of_lookup_2. }
  unfold d1, write. eapply (rtc_l _ _ (processWrite 64 0 "/w" "h" 1 [one; one; one; one] 0 1 d0)).
  - apply ws_write; [lia|vm_compute; lia|apply Ht; set_solver].
  - apply rtc_once, ws_write; [lia|vm_compute; lia|apply Ht; set_solver].
Qed.
End WarmRun.

(** A chunk that did not reach the disk, because the queue was full or the
    handle had just been closed, leaves a hole that is served as data: after a
    write of one byte at offset 2 alone, the cache reports three bytes from
    the start of the file as available and reads zeros for the first two; and
    a tail whose first write is not at its start is served the same way,
    although its watermark is documented to count contiguous bytes. *)
Theorem warmup_holes_served_as_data :
  (let d := WarmRun.write 2 [WarmRun.one] 1 WarmRun.d0 in
   (GetAvailableRange 64 "/w" "h" 1 2 d).1 = 3 ∧
   (ReadAt 64 "/w" "h" 1 3 0 2 d).1 = [Byte.x00; Byte.x00; WarmRun.one]) ∧
  ∃ d, WarmRun.tail 2 [WarmRun.one] 1 WarmRun.d0 = Some d ∧
    (ReadTail "/w" "h" 1 2 0 10 2 d).1 = [Byte.x00; Byte.x00].
Proof.
  split; [split; vm_compute; reflexivity|].
  destruct (WarmRun.tail 2 [WarmRun.one] 1 WarmRun.d0) as [d|] eqn:H; [|vm_compute in H; discriminate].
  exists d. split; [reflexivity|]. vm_compute in H. injection H as <-. vm_compute. reflexivity.
Qed.

(** The tracked size, which decides when the quota is enforced, drifts away
    from the size on disk: tail files are subtracted when a torrent is removed
    but were never added, and writing a head again from its start counts its
    later chunks once more. *)
Theorem warmup_totalSize_drifts :
  (∃ d, WarmRun.tail 0 [WarmRun.one; WarmRun.one] 1 WarmRun.d0 = Some d ∧
     totalSize d = 0 ∧ wf_size <$> warmup_files (fs d) = [2] ∧
     totalSize (RemoveHash "/w" "h" d) = -2) ∧
  (let chunk off now := WarmRun.write off [WarmRun.one; WarmRun.one] now in
   let d := chunk 2 4 (chunk 0 3 (chunk 2 2 (chunk 0 1 WarmRun.d0))) in
   totalSize d = 6 ∧ wf_size <$> warmup_files (fs d) = [4]).
Proof.
  split; [|split; vm_compute; reflexivity].
  destruct (WarmRun.tail 0 [WarmRun.one; WarmRun.one] 1 WarmRun.d0) as [d|] eqn:H; [|vm_compute in H; discriminate].
  exists d. split; [reflexivity|]. vm_compute in H. injection H as <-.
  split_and!; vm_compute; reflexivity.
Qed.

(** *** Witness *)

Lemma warmup_ReadAt_witness :
  (length (ReadAt 64 "/w" "h" 1 3 2 3 WarmRun.d1).1 ≤ 3)%nat ∧
  WarmRun.one = WarmRun.ones (filePath "/w" "h" 1) 3.
Proof.
  destruct (warmup_ReadAt_true 64 0 "/w" WarmRun.ones WarmRun.d1 "h" 1 3 2 3 1 WarmRun.one
    WarmRun.reachable_d1 ltac:(lia)) as [H1 H2].
  split; [exact H1|]. apply H2. vm_compute. reflexivity.
Defined.
