(* ===== verification/Torrshash.v ===== *)
(** * Torrent tokens (internal/gostorm/torrshash)

    A torrent hash and a list of fields are written to a zlib stream and shown
    in base 62. Go strings are lists of bytes here. The compressor is an
    interface: what the code relies on is that decompression undoes it and that
    a stream begins with the zlib header byte. *)

From S2P Require Import Prelude.

(** ** Bytes and integers *)

#[export] Instance byte_decision : EqDecision byte.
Proof. exact Byte.byte_eq_dec. Defined.

Definition b2z (b : byte) : Z := Z.of_N (Byte.to_N b).
Definition z2b (z : Z) : byte := default Byte.x00 (Byte.of_N (Z.to_N (z mod 256))).

Definition str (s : string) : list byte := String.list_byte_of_string s.

(** Big-endian and little-endian values. *)
Definition be_val (l : list byte) : Z := foldl (λ acc b, acc * 256 + b2z b) 0 l.

Fixpoint le_bytes (n : nat) (z : Z) : list byte :=
  match n with O => [] | S n' => z2b z :: le_bytes n' (z / 256) end.
Fixpoint le_val (l : list byte) : Z :=
  match l with [] => 0 | b :: l' => b2z b + 256 * le_val l' end.

(** [big.Int.Bytes]: the big-endian digits of the absolute value, without
    leading zeros. *)
Fixpoint digits (base : Z) (fuel : nat) (x : Z) (acc : list Z) : list Z :=
  match fuel with
  | O => acc
  | S fuel' => if 0 <? x then digits base fuel' (x / base) (x mod base :: acc) else acc
  end.

(** Enough turns for any number: one per bit. *)
Definition bits (x : Z) : nat := S (Z.to_nat (Z.log2 x)).

Definition big_bytes (x : Z) : list byte := z2b <$> digits 256 (bits (Z.abs x)) (Z.abs x) [].

(** ** Base 62 (base62.go) *)

Definition base62Alphabet : list byte :=
  str "0123456789ABCDEFGHIJKLMNOPQRSTUVWXYZabcdefghijklmnopqrstuvwxyz".

(** The loop appends the digits from the last one on and then reverses them. *)
Definition Encode62 (b : list byte) : list byte :=
  (λ d, default Byte.x00 (base62Alphabet !! Z.to_nat d)) <$> digits 62 (bits (be_val b)) (be_val b) [].

(** [bytes.IndexByte]: -1 when there is none. *)
Fixpoint IndexByte (l : list byte) (c : byte) : Z :=
  match l with
  | [] => -1
  | x :: l' => if bool_decide (x = c) then 0
               else let i := IndexByte l' c in if i <? 0 then -1 else i + 1
  end.

(** On a string of ASCII characters, one turn per byte. *)
Definition Decode62 (s : list byte) : list byte :=
  big_bytes (foldl (λ res c, res * 62 + IndexByte base62Alphabet c) 0 s).

Definition is_alnum (b : byte) : bool :=
  let z := b2z b in
  ((97 <=? z) && (z <=? 122)) || ((65 <=? z) && (z <=? 90)) || ((48 <=? z) && (z <=? 57)).

(** ** White space *)

(** The encodings of the runes that [unicode.IsSpace] accepts. *)
Definition spaces : list (list byte) :=
  ((λ z, [z2b z]) <$> [9; 10; 11; 12; 13; 32]) ++
  (map z2b <$> ([[194; 133]; [194; 160]; [225; 154; 128]] ++ ((λ k, [226; 128; 128 + k]) <$> seqZ 0 11) ++
    [[226; 128; 168]; [226; 128; 169]; [226; 128; 175]; [226; 129; 159]; [227; 128; 128]])).

Definition strip (pre l : list byte) : option (list byte) :=
  if decide (take (length pre) l = pre) then Some (drop (length pre) l) else None.

Definition first_space (rev : bool) (l : list byte) : option (list byte) :=
  head (omap (λ sp, strip (if rev then reverse sp else sp) l) spaces).

Fixpoint trim_left (rev : bool) (fuel : nat) (l : list byte) : list byte :=
  match fuel with
  | O => l
  | S fuel' => match first_space rev l with Some l' => trim_left rev fuel' l' | None => l end
  end.

Definition TrimSpace (l : list byte) : list byte :=
  let l := trim_left false (length l) l in
  reverse (trim_left true (length l) (reverse l)).

Definition IsBase62 (s : list byte) : bool :=
  let s := TrimSpace s in negb (bool_decide (s = [])) && forallb is_alnum s.

(** ** Decimal and hexadecimal text *)

Definition digit_val (b : byte) : option Z :=
  let z := b2z b - 48 in if (0 <=? z) && (z <? 10) then Some z else None.

Fixpoint parse_digits (l : list byte) (acc : Z) : option Z :=
  match l with
  | [] => Some acc
  | b :: l' => d ← digit_val b; parse_digits l' (acc * 10 + d)
  end.

Definition split_sign (l : list byte) : bool * list byte :=
  match l with
  | c :: r => if b2z c =? 43 then (false, r) else if b2z c =? 45 then (true, r) else (false, l)
  | [] => (false, [])
  end.

(** [strconv.ParseInt(s, 10, 64)]. *)
Definition ParseInt (l : list byte) : option Z :=
  let '(neg, ds) := split_sign l in
  if bool_decide (ds = []) then None
  else v ← parse_digits ds 0;
       let v := if neg then - v else v in
       if (- 2 ^ 63 <=? v) && (v <? 2 ^ 63) then Some v else None.

Definition FormatInt (z : Z) : list byte := str (pretty z).

Definition hex_digit (z : Z) : byte := z2b (if z <? 10 then 48 + z else 87 + z).

Definition hex_val (b : byte) : option Z :=
  let z := b2z b in
  if (48 <=? z) && (z <=? 57) then Some (z - 48)
  else if (97 <=? z) && (z <=? 102) then Some (z - 87)
  else if (65 <=? z) && (z <=? 70) then Some (z - 55)
  else None.

Definition EncodeToString (l : list byte) : list byte :=
  b ← l; [hex_digit (b2z b / 16); hex_digit (b2z b mod 16)].

(** [hex.DecodeString] with its error ignored: the bytes before the first bad
    character. *)
Fixpoint DecodeString (l : list byte) : list byte :=
  match l with
  | a :: b :: l' =>
      match hex_val a, hex_val b with
      | Some x, Some y => z2b (x * 16 + y) :: DecodeString l'
      | _, _ => []
      end
  | _ => []
  end.

(** ** Fields (fields.go) *)

Definition TagTitle : Z := 0.
Definition TagPoster : Z := 1.
Definition TagTracker : Z := 2.
Definition TagCategory : Z := 3.
Definition TagSize : Z := 4.

Record Field := MkField { f_Tag : Z; f_Value : list byte }.

Definition Tag_String (t : Z) : string :=
  if t =? TagTitle then "Title" else if t =? TagPoster then "Poster"
  else if t =? TagTracker then "Tracker" else if t =? TagCategory then "Category"
  else if t =? TagSize then "Size" else "Unknown".

Definition isBinary (t : Z) : bool := t =? TagSize.

(** Errors: a short read, a number that does not parse. *)
Inductive err := ErrEOF | ErrUnexpectedEOF | ErrSyntax | ErrZlib.

(** [ReadField]: the field and the rest of the stream, [Ok None] at its end. *)
Definition ReadField (r : list byte) : err + option (Field * list byte) :=
  match r with
  | [] => inr None
  | tagb :: r =>
      let tag := b2z tagb in
      if isBinary tag then
        if (length r <? 8)%nat then inl (if bool_decide (r = []) then ErrEOF else ErrUnexpectedEOF)
        else inr (Some (MkField tag (FormatInt (int64 (le_val (take 8 r)))), drop 8 r))
      else
        if (length r <? 2)%nat then inl (if bool_decide (r = []) then ErrEOF else ErrUnexpectedEOF)
        else
          let length_ := Z.to_nat (le_val (take 2 r)) in
          let r := drop 2 r in
          if (length r <? length_)%nat
          then inl (if bool_decide (r = []) then ErrEOF else ErrUnexpectedEOF)
          else inr (Some (MkField tag (take length_ r), drop length_ r))
  end.

(** [Field.write]: the bytes written and the error. *)
Definition write (f : Field) : list byte * option err :=
  let value := TrimSpace (f_Value f) in
  if bool_decide (value = []) then ([], None)
  else if isBinary (f_Tag f) && bool_decide (value = str "0") then ([], None)
  else
    let tag := [z2b (f_Tag f)] in
    if isBinary (f_Tag f) then
      match ParseInt value with
      | None => (tag, Some ErrSyntax)
      | Some ii => if ii =? 0 then (tag, None) else (tag ++ le_bytes 8 (uint64 ii), None)
      end
    else (tag ++ le_bytes 2 (wrap_u 16 (Z.of_nat (length value))) ++ value, None).

(** ** Tokens (torrshash.go, pack.go) *)

Record TorrsHash := MkTorrsHash { Hash : list byte; Fields : list Field }.

Definition New (hash : list byte) : TorrsHash := MkTorrsHash hash [].

Definition AddField (tag : Z) (value : list byte) (t : TorrsHash) : TorrsHash :=
  MkTorrsHash (Hash t) (Fields t ++ [MkField tag value]).

Definition first_value (tag : Z) (t : TorrsHash) : list byte :=
  default [] (f_Value <$> head (filter (λ f, f_Tag f = tag) (Fields t))).

Definition Title : TorrsHash → list byte := first_value TagTitle.
Definition Poster : TorrsHash → list byte := first_value TagPoster.
Definition Category : TorrsHash → list byte := first_value TagCategory.
Definition Trackers (t : TorrsHash) : list (list byte) :=
  f_Value <$> filter (λ f, f_Tag f = TagTracker) (Fields t).

(** Package compress/zlib. *)
Class Zlib := {
  deflate : list byte → list byte;
  inflate : list byte → option (list byte);
  inflate_deflate l : inflate (deflate l) = Some l;
  deflate_header l : head (deflate l) = Some Byte.x78;
}.

Section tokens.
Context {zlib : Zlib}.

Fixpoint write_fields (l : list Field) : list byte + err :=
  match l with
  | [] => inl []
  | f :: l' =>
      match write f with
      | (_, Some e) => inr e
      | (bs, None) => match write_fields l' with inl rest => inl (bs ++ rest) | inr e => inr e end
      end
  end.

Definition pack (t : TorrsHash) : list byte + err :=
  match write_fields (Fields t) with
  | inl bs => inl (deflate (DecodeString (TrimSpace (Hash t)) ++ bs))
  | inr e => inr e
  end.

Definition Pack (t : TorrsHash) : list byte + err :=
  match pack t with inl d => inl (Encode62 d) | inr e => inr e end.

Definition PackBytes : TorrsHash → list byte + err := pack.

(** The loop of [unpack]; each field takes at least one byte of the stream. *)
Fixpoint read_fields (fuel : nat) (r : list byte) (acc : list Field) : list Field * option err :=
  match fuel with
  | O => (acc, None)
  | S fuel' =>
      match ReadField r with
      | inr None => (acc, None)
      | inr (Some (f, r')) => read_fields fuel' r' (acc ++ [f])
      | inl e => (acc, Some e)
      end
  end.

(** The token and the error: a damaged one gives the fields read so far. *)
Definition unpack (data : list byte) : option TorrsHash * option err :=
  match inflate data with
  | None => (None, Some ErrZlib)
  | Some r =>
      if (length r <? 20)%nat then (None, Some (if bool_decide (r = []) then ErrEOF else ErrUnexpectedEOF))
      else
        let '(fields, e) := read_fields (S (length r)) (drop 20 r) [] in
        (Some (MkTorrsHash (EncodeToString (take 20 r)) fields), e)
  end.

Definition UnpackBytes : list byte → option TorrsHash * option err := unpack.
Definition Unpack (token : list byte) : option TorrsHash * option err :=
  UnpackBytes (Decode62 (TrimSpace token)).
End tokens.

(** ** Bytes *)

Lemma b2z_bounds b : 0 ≤ b2z b < 256.
Proof. destruct b; unfold b2z; simpl; lia. Qed.

Lemma z2b_b2z b : z2b (b2z b) = b.
Proof. destruct b; reflexivity. Qed.

Lemma b2z_z2b z : b2z (z2b z) = z mod 256.
Proof.
  unfold b2z, z2b. pose proof (Z.mod_pos_bound z 256 ltac:(lia)) as Hb.
  destruct (Byte.of_N (Z.to_N (z mod 256))) as [b|] eqn:Hn; simpl.
  - apply Byte.to_of_N in Hn. rewrite Hn. lia.
  - apply Byte.of_N_None_iff in Hn. lia.
Qed.

Lemma le_bytes_length n z : length (le_bytes n z) = n.
Proof. revert z. induction n; intros z; simpl; [done|]. by rewrite IHn. Qed.

Lemma le_val_bytes n z : le_val (le_bytes n z) = z mod 256 ^ Z.of_nat n.
Proof.
  revert z. induction n as [|n IH]; intros z; cbn [le_bytes le_val].
  { by rewrite Z.mod_1_r. }
  rewrite IH, b2z_z2b, Nat2Z.inj_succ, Z.pow_succ_r by lia.
  rewrite Z.rem_mul_r by lia. lia.
Qed.

(** ** Positional notation *)

Definition val (base : Z) (l : list Z) : Z := foldl (λ a d, a * base + d) 0 l.

Lemma val_snoc base l d : val base (l ++ [d]) = val base l * base + d.
Proof. unfold val. by rewrite foldl_app. Qed.

Lemma val_nonneg base l : 0 ≤ base → Forall (λ d, 0 ≤ d) l → 0 ≤ val base l.
Proof.
  intros Hb. induction l as [|d l IH] using rev_ind; intros Hl; [done|].
  apply Forall_app in Hl as [Hl [Hd _]%Forall_cons]. rewrite val_snoc. specialize (IH Hl).
  pose proof (Z.mul_nonneg_nonneg _ _ IH Hb). simpl in Hd. lia.
Qed.

(** The digits of a number are the ones it was made of. *)
Lemma digits_val base fuel ds acc :
  2 ≤ base → Forall (λ d, 0 ≤ d < base) ds → (∀ d, head ds = Some d → d ≠ 0) →
  val base ds < 2 ^ Z.of_nat fuel →
  digits base fuel (val base ds) acc = ds ++ acc.
Proof.
  intros Hb. revert fuel acc. induction ds as [|d ds IH] using rev_ind; intros fuel acc Hds Hhd Hlt.
  { destruct fuel; reflexivity. }
  apply Forall_app in Hds as [Hds [Hd _]%Forall_cons]. rewrite val_snoc in *.
  assert (0 ≤ val base ds) as H0.
  { apply val_nonneg; [lia|]. eapply Forall_impl; [exact Hds|]. simpl. lia. }
  assert (∀ d', head ds = Some d' → d' ≠ 0) as Hhd'.
  { intros d' Hd'. apply Hhd. destruct ds; [done|]. done. }
  assert (ds ≠ [] → 0 < val base ds) as Hpos.
  { destruct ds as [|d0 ds] using rev_ind; [done|]. intros _. clear IHds.
    destruct (decide (val base (ds ++ [d0]) = 0)) as [Hz|]; [|lia]. exfalso.
    specialize (IH 0%nat [] Hds Hhd'). rewrite Hz in IH. specialize (IH ltac:(reflexivity)). simpl in IH.
    rewrite app_nil_r in IH. by destruct ds. }
  assert (0 < val base ds * base + d) as Hx.
  { destruct ds as [|d0 ds].
    - assert (d ≠ 0) by (by apply Hhd). unfold val. simpl. lia.
    - assert (0 < val base (d0 :: ds)) by (by apply Hpos). nia. }
  destruct fuel as [|fuel]; [simpl in Hlt; lia|]. cbn [digits].
  destruct (Z.ltb_spec 0 (val base ds * base + d)); [|lia].
  assert ((val base ds * base + d) / base = val base ds) as ->.
  { rewrite Z.div_add_l by lia. rewrite Z.div_small by lia. lia. }
  assert ((val base ds * base + d) mod base = d) as ->.
  { rewrite Z.add_comm, Z.mod_add by lia. apply Z.mod_small. lia. }
  rewrite IH; [by rewrite <- app_assoc|done..|].
  rewrite Nat2Z.inj_succ, Z.pow_succ_r in Hlt by lia. nia.
Qed.

(** The digits of a number make it up again. *)
Lemma digits_sound base fuel x acc :
  2 ≤ base → 0 ≤ x < 2 ^ Z.of_nat fuel →
  ∃ ds, digits base fuel x acc = ds ++ acc ∧ val base ds = x ∧ Forall (λ d, 0 ≤ d < base) ds.
Proof.
  intros Hb. revert x acc. induction fuel as [|fuel IH]; intros x acc Hx.
  { exists []. simpl in *. split_and!; [done|unfold val; simpl; lia|constructor]. }
  cbn [digits]. destruct (Z.ltb_spec 0 x); cycle 1.
  { exists []. split_and!; [done|unfold val; simpl; lia|constructor]. }
  rewrite Nat2Z.inj_succ, Z.pow_succ_r in Hx by lia.
  destruct (IH (x / base) (x mod base :: acc)) as (ds & -> & Hv & Hds).
  { split; [apply Z.div_pos; lia|]. apply Z.div_lt_upper_bound; [lia|]. nia. }
  pose proof (Z.mod_pos_bound x base ltac:(lia)).
  exists (ds ++ [x mod base]). rewrite <- app_assoc, val_snoc, Hv. split_and!; [done| |].
  - pose proof (Z.div_mod x base ltac:(lia)). lia.
  - apply Forall_app. split; [done|]. by apply Forall_singleton.
Qed.

Lemma bits_spec x : 0 ≤ x → x < 2 ^ Z.of_nat (bits x).
Proof.
  intros Hx. unfold bits. rewrite Nat2Z.inj_succ, Z2Nat.id by apply Z.log2_nonneg.
  destruct (decide (x = 0)) as [->|]; [reflexivity|]. apply Z.log2_spec. lia.
Qed.

Lemma be_val_fmap l : be_val l = val 256 (b2z <$> l).
Proof.
  unfold be_val, val. generalize 0. induction l as [|b l IH]; intros a; simpl; [done|]. apply IH.
Qed.

Lemma be_val_nonneg l : 0 ≤ be_val l.
Proof.
  rewrite be_val_fmap. apply val_nonneg; [lia|]. apply Forall_fmap, Forall_true.
  intros b. simpl. pose proof (b2z_bounds b). lia.
Qed.

Lemma big_bytes_be l : (∀ b, head l = Some b → b ≠ Byte.x00) → big_bytes (be_val l) = l.
Proof.
  intros Hh. unfold big_bytes. rewrite Z.abs_eq by apply be_val_nonneg.
  pose proof (bits_spec _ (be_val_nonneg l)) as Hb. rewrite be_val_fmap in *.
  rewrite digits_val, app_nil_r; [|lia| | |done].
  - rewrite <- list_fmap_compose. rewrite <- (list_fmap_id l) at 2. apply list_fmap_ext.
    intros i b _. apply z2b_b2z.
  - apply Forall_fmap, Forall_true. intros b. apply b2z_bounds.
  - intros d Hd. destruct l as [|b l]; [done|]. simpl in Hd. injection Hd as <-.
    intros Hz. apply (Hh b eq_refl). rewrite <- (z2b_b2z b), Hz. done.
Qed.

Definition digit62 (d : Z) : byte := default Byte.x00 (base62Alphabet !! Z.to_nat d).

Lemma IndexByte_digit d : 0 ≤ d < 62 → IndexByte base62Alphabet (digit62 d) = d.
Proof.
  intros Hd. apply Z.eqb_eq.
  assert (forallb (λ k, IndexByte base62Alphabet (digit62 k) =? k) (seqZ 0 62) = true) as Hall
    by (vm_compute; reflexivity).
  rewrite forallb_forall in Hall. apply Hall, list_elem_of_In, elem_of_seqZ. lia.
Qed.

Lemma digit62_alnum d : 0 ≤ d < 62 → is_alnum (digit62 d) = true.
Proof.
  intros Hd. assert (forallb (λ k, is_alnum (digit62 k)) (seqZ 0 62) = true) as Hall
    by (vm_compute; reflexivity).
  rewrite forallb_forall in Hall. apply Hall, list_elem_of_In, elem_of_seqZ. lia.
Qed.

Lemma Encode62_spec b :
  ∃ ds, Encode62 b = digit62 <$> ds ∧ val 62 ds = be_val b ∧ Forall (λ d, 0 ≤ d < 62) ds.
Proof.
  pose proof (be_val_nonneg b) as H0. pose proof (bits_spec _ H0).
  destruct (digits_sound 62 (bits (be_val b)) (be_val b) []) as (ds & Heq & ? & ?); [lia..|].
  exists ds. unfold Encode62. rewrite Heq, app_nil_r. done.
Qed.

Lemma Decode62_Encode62 b : Decode62 (Encode62 b) = big_bytes (be_val b).
Proof.
  destruct (Encode62_spec b) as (ds & -> & <- & Hds). unfold Decode62. f_equal. unfold val.
  generalize 0. induction Hds as [|d ds Hd _ IH]; intros a; [done|].
  rewrite fmap_cons. cbn [foldl]. rewrite IndexByte_digit by done. apply IH.
Qed.

(** ** Alphanumeric text is not trimmed *)

Lemma spaces_not_alnum (rev : bool) sp :
  sp ∈ spaces → ∃ c r, (if rev then reverse sp else sp) = c :: r ∧ is_alnum c = false.
Proof.
  intros Hin.
  assert (forallb (λ sp, match (if rev then reverse sp else sp) with
    | c :: _ => negb (is_alnum c) | [] => false end) spaces = true) as Hall
    by (destruct rev; vm_compute; reflexivity).
  rewrite forallb_forall in Hall. apply list_elem_of_In in Hin. specialize (Hall sp Hin).
  destruct (if rev then reverse sp else sp) as [|c r]; [done|]. exists c, r. split; [done|]. by zbool.
Qed.

Lemma trim_left_alnum rev fuel l : forallb is_alnum l = true → trim_left rev fuel l = l.
Proof.
  intros Hl. destruct fuel as [|fuel]; [done|]. cbn [trim_left].
  assert (first_space rev l = None) as ->; [|done]. unfold first_space.
  assert (∀ sps, (∀ sp, sp ∈ sps → sp ∈ spaces) →
    omap (λ sp, strip (if rev then reverse sp else sp) l) sps = []) as Hnil.
  { induction sps as [|sp sps IH]; intros Hs; [done|]. cbn [omap list_omap].
    destruct (spaces_not_alnum rev sp) as (c & r & -> & Hc); [apply Hs; by left|].
    assert (strip (c :: r) l = None) as ->.
    { unfold strip. rewrite decide_False; [done|]. destruct l as [|x l]; [done|]. cbn [length take].
      intros [= -> _]. simpl in Hl. by rewrite Hc in Hl. }
    apply IH. intros. apply Hs. by right. }
  rewrite Hnil; [done|auto].
Qed.

Lemma forallb_reverse {A} (f : A → bool) l : forallb f (reverse l) = forallb f l.
Proof.
  apply eq_bool_prop_intro. rewrite !Is_true_true, !forallb_forall.
  by setoid_rewrite <- list_elem_of_In; setoid_rewrite elem_of_reverse.
Qed.

Lemma TrimSpace_alnum l : forallb is_alnum l = true → TrimSpace l = l.
Proof.
  intros Hl. unfold TrimSpace. rewrite (trim_left_alnum false) by done.
  rewrite trim_left_alnum; [apply reverse_involutive|by rewrite forallb_reverse].
Qed.

Lemma Encode62_alnum b : forallb is_alnum (Encode62 b) = true.
Proof.
  destruct (Encode62_spec b) as (ds & -> & _ & Hds). apply forallb_forall.
  intros x (d & -> & Hd)%list_elem_of_In%list_elem_of_fmap. apply digit62_alnum.
  rewrite Forall_forall in Hds. by apply Hds.
Qed.

(** ** Hexadecimal text *)

Lemma hex_round z : 0 ≤ z < 16 → hex_val (hex_digit z) = Some z ∧ is_alnum (hex_digit z) = true.
Proof.
  intros Hz. unfold hex_val, is_alnum, hex_digit. rewrite !b2z_z2b.
  destruct (Z.ltb_spec z 10).
  - rewrite Z.mod_small by lia. assert ((48 <=? 48 + z) && (48 + z <=? 57) = true) as -> by lia.
    split; [f_equal; lia|]. by rewrite orb_true_r.
  - rewrite Z.mod_small by lia. assert ((48 <=? 87 + z) && (87 + z <=? 57) = false) as -> by lia.
    assert ((97 <=? 87 + z) && (87 + z <=? 102) = true) as -> by lia.
    split; [f_equal; lia|]. assert ((97 <=? 87 + z) && (87 + z <=? 122) = true) as -> by lia. done.
Qed.

Lemma Decode_Encode l : DecodeString (EncodeToString l) = l.
Proof.
  induction l as [|b l IH]; [done|]. unfold EncodeToString in *. rewrite bind_cons. cbn [app DecodeString].
  pose proof (b2z_bounds b) as Hb.
  rewrite (proj1 (hex_round (b2z b / 16) ltac:(split; [apply Z.div_pos; lia|apply Z.div_lt_upper_bound; lia]))).
  rewrite (proj1 (hex_round (b2z b mod 16) ltac:(apply Z.mod_pos_bound; lia))).
  f_equal; [|exact IH]. rewrite <- (z2b_b2z b) at 3. f_equal.
  pose proof (Z.div_mod (b2z b) 16 ltac:(lia)). lia.
Qed.

Lemma Encode_alnum l : forallb is_alnum (EncodeToString l) = true.
Proof.
  induction l as [|b l IH]; [done|]. unfold EncodeToString in *. rewrite bind_cons. cbn [app forallb].
  pose proof (b2z_bounds b) as Hb.
  rewrite (proj2 (hex_round (b2z b / 16) ltac:(split; [apply Z.div_pos; lia|apply Z.div_lt_upper_bound; lia]))).
  rewrite (proj2 (hex_round (b2z b mod 16) ltac:(apply Z.mod_pos_bound; lia))). exact IH.
Qed.

(** ** Fields *)

(** The fields that survive the trip: a text shorter than 64 KiB, a size that
    is blank, ["0"] or a non-zero integer. *)
Definition field_ok (f : Field) : Prop :=
  let value := TrimSpace (f_Value f) in
  0 ≤ f_Tag f < 256 ∧
  if isBinary (f_Tag f)
  then value = [] ∨ value = str "0" ∨ ∃ z, ParseInt value = Some z ∧ z ≠ 0
  else Z.of_nat (length value) < 65536.

(** What is read back: trimmed, blank and zero fields gone, sizes in their
    canonical form. *)
Definition normal (f : Field) : option Field :=
  let value := TrimSpace (f_Value f) in
  if bool_decide (value = []) then None
  else if isBinary (f_Tag f) then
    if bool_decide (value = str "0") then None
    else z ← ParseInt value; Some (MkField (f_Tag f) (FormatInt z))
  else Some (MkField (f_Tag f) value).

Lemma ParseInt_range l z : ParseInt l = Some z → - 2 ^ 63 ≤ z < 2 ^ 63.
Proof.
  unfold ParseInt. destruct (split_sign l) as [neg ds]. case_if; [done|].
  destruct (parse_digits _ _) as [v|]; cbn [mbind option_bind]; [|done].
  set (w := if neg then - v else v). destruct ((_ <=? w) && (w <? _)) eqn:Hr; [|done].
  intros [= <-]. apply andb_true_iff in Hr as [?%Z.leb_le ?%Z.ltb_lt]. lia.
Qed.

Lemma ReadField_text tag n value rest :
  isBinary (b2z tag) = false → Z.of_nat (length value) < 65536 → n = Z.of_nat (length value) →
  ReadField (tag :: le_bytes 2 (wrap_u 16 n) ++ value ++ rest) = inr (Some (MkField (b2z tag) value, rest)).
Proof.
  intros Hb Hl ->. cbn [ReadField]. rewrite Hb.
  assert (length (le_bytes 2 (wrap_u 16 (Z.of_nat (length value))) ++ value ++ rest) <? 2 = false)%nat as ->.
  { apply Nat.ltb_ge. rewrite length_app, le_bytes_length. lia. }
  rewrite take_app_length', drop_app_length' by (by rewrite le_bytes_length).
  rewrite le_val_bytes. unfold wrap_u. change (256 ^ Z.of_nat 2) with 65536. change (2 ^ 16) with 65536.
  rewrite Z.mod_mod, Z.mod_small, Nat2Z.id by lia.
  assert (length (value ++ rest) <? length value = false)%nat as ->.
  { apply Nat.ltb_ge. rewrite length_app. lia. }
  by rewrite take_app_length, drop_app_length.
Qed.

Lemma ReadField_size tag z rest :
  isBinary (b2z tag) = true → - 2 ^ 63 ≤ z < 2 ^ 63 →
  ReadField (tag :: le_bytes 8 (uint64 z) ++ rest) = inr (Some (MkField (b2z tag) (FormatInt z), rest)).
Proof.
  intros Hb Hz. cbn [ReadField]. rewrite Hb.
  assert (length (le_bytes 8 (uint64 z) ++ rest) <? 8 = false)%nat as ->.
  { apply Nat.ltb_ge. rewrite length_app, le_bytes_length. lia. }
  rewrite take_app_length', drop_app_length' by (by rewrite le_bytes_length).
  rewrite le_val_bytes. do 5 f_equal. change (256 ^ Z.of_nat 8) with (2 ^ 64).
  unfold wrap_u. rewrite Z.mod_mod by lia. unfold wrap_s.
  rewrite Zplus_mod_idemp_l. change (64 - 1) with 63. rewrite Z.mod_small; lia.
Qed.

(** A field that is written is read back, whatever follows it. *)
Lemma write_read f rest :
  field_ok f →
  ∃ bs, write f = (bs, None) ∧
    match normal f with
    | None => bs = []
    | Some f' => bs ≠ [] ∧ ReadField (bs ++ rest) = inr (Some (f', rest))
    end.
Proof.
  intros [Htag Hok]. unfold write, normal. set (value := TrimSpace (f_Value f)) in *. clearbody value.
  case_if; [by exists []|]. zbool.
  assert (b2z (z2b (f_Tag f)) = f_Tag f) as Hb by (rewrite b2z_z2b; apply Z.mod_small; lia).
  destruct (isBinary (f_Tag f)) eqn:Hbin; cbn [andb].
  - case_if; [by exists []|]. zbool. destruct Hok as [?|[?|(z & Hz & Hne)]]; [done..|].
    rewrite Hz. cbn [mbind option_bind]. destruct (Z.eqb_spec z 0); [done|].
    eexists. split; [done|]. split; [done|]. rewrite <- app_assoc. cbn [app].
    rewrite ReadField_size, Hb; [done|by rewrite Hb|by eapply ParseInt_range].
  - eexists. split; [done|]. split; [done|]. rewrite <- !app_assoc. cbn [app].
    rewrite ReadField_text, Hb; [done|by rewrite Hb|done|done].
Qed.

Lemma fields_round fs fuel acc bs :
  Forall field_ok fs → write_fields fs = inl bs → (length bs < fuel)%nat →
  read_fields fuel bs acc = (acc ++ omap normal fs, None).
Proof.
  intros Hok. revert fuel acc bs. induction Hok as [|f fs Hf Hok IH]; intros fuel acc bs; cbn [write_fields omap list_omap].
  - intros [= <-] Hfuel. destruct fuel; [simpl in *; lia|]. by rewrite app_nil_r.
  - destruct (write_fields fs) as [rest|] eqn:Hr.
    + destruct (write_read f rest Hf) as (b & -> & Hn). intros [= <-] Hfuel. rewrite length_app in Hfuel.
      destruct (normal f) as [f'|].
      * destruct Hn as [Hne Hread]. destruct fuel as [|fuel]; [lia|]. cbn [read_fields]. rewrite Hread.
        rewrite (IH fuel (acc ++ [f']) rest) by (done || (destruct b; [done|simpl in *; lia])).
        by rewrite <- app_assoc.
      * subst b. simpl in *. by apply IH.
    + destruct (write f) as [? []]; done.
Qed.

Lemma write_fields_ok fs : Forall field_ok fs → ∃ bs, write_fields fs = inl bs.
Proof.
  induction 1 as [|f fs Hf _ [bs IH]]; cbn [write_fields]; [by eexists|].
  destruct (write_read f [] Hf) as (b & -> & _). rewrite IH. by eexists.
Qed.

(** A token can be unpacked: for every 20-byte hash in hexadecimal and
    every list of fields with texts below 64 KiB and sizes that are blank, the
    digit zero or a non-zero 64-bit integer, packing succeeds, the token
    consists of letters and digits, and unpacking it gives back the hash and
    the fields in their order, trimmed, without the blank and zero ones, with
    the sizes in canonical form. *)
Theorem Unpack_Pack {zlib : Zlib} (h : list byte) (fs : list Field) :
  length h = 20%nat → Forall field_ok fs →
  ∃ tok, Pack (MkTorrsHash (EncodeToString h) fs) = inl tok ∧ IsBase62 tok = true ∧
    Unpack tok = (Some (MkTorrsHash (EncodeToString h) (omap normal fs)), None).
Proof.
  intros Hh Hok. destruct (write_fields_ok fs Hok) as [bs Hbs].
  unfold Pack, pack. cbn [Hash Fields]. rewrite Hbs, TrimSpace_alnum by apply Encode_alnum.
  rewrite Decode_Encode. eexists. split; [done|].
  pose proof (Encode62_alnum (deflate (h ++ bs))) as Hal. pose proof (deflate_header (h ++ bs)) as Hhd.
  split.
  - unfold IsBase62. rewrite TrimSpace_alnum, Hal, andb_true_r by done. rewrite bool_decide_false; [done|].
    destruct (Encode62_spec (deflate (h ++ bs))) as (ds & -> & Hv & _). intros ->%fmap_nil_inv.
    assert (big_bytes (be_val (deflate (h ++ bs))) = deflate (h ++ bs)) as Habs
      by (apply big_bytes_be; intros b; rewrite Hhd; by intros [= <-]).
    rewrite <- Hv in Habs. change (big_bytes (val 62 [])) with ([] : list byte) in Habs. by rewrite <- Habs in Hhd.
  - unfold Unpack, UnpackBytes, unpack. rewrite TrimSpace_alnum by done.
    rewrite Decode62_Encode62, big_bytes_be by (intros b; rewrite Hhd; by intros [= <-]).
    rewrite inflate_deflate.
    assert (length (h ++ bs) <? 20 = false)%nat as -> by (apply Nat.ltb_ge; rewrite length_app; lia).
    rewrite take_app_length', drop_app_length' by done.
    by rewrite (fields_round fs _ [] bs) by (done || (rewrite length_app; lia)).
Qed.

(** A zero size that is not spelled ["0"] spoils the token: [write] has
    already emitted the tag when it finds that the number is zero and leaves
    the value out, so the fields that follow are taken for the number. Here
    the title is lost and unpacking fails. *)
Theorem zero_size_spoils_token {zlib : Zlib} (h : list byte) :
  length h = 20%nat →
  ∃ data, pack (MkTorrsHash (EncodeToString h) [MkField TagSize (str "00"); MkField TagTitle (str "abcdef")]) = inl data ∧
    let '(t, e) := unpack data in
    e = Some ErrEOF ∧ (Title <$> t) = Some [].
Proof.
  intros Hh. unfold pack. cbn [Hash Fields].
  assert (write_fields [MkField TagSize (str "00"); MkField TagTitle (str "abcdef")] =
    inl (z2b 4 :: z2b 0 :: z2b 6 :: z2b 0 :: str "abcdef")) as -> by (vm_compute; reflexivity).
  rewrite TrimSpace_alnum, Decode_Encode by apply Encode_alnum. eexists. split; [done|].
  unfold unpack. rewrite inflate_deflate.
  set (bs := z2b 4 :: _). assert (length (h ++ bs) <? 20 = false)%nat as ->
    by (apply Nat.ltb_ge; rewrite length_app; lia).
  rewrite take_app_length', drop_app_length', length_app, Hh by done.
  destruct (read_fields (S (20 + length bs)) bs []) as [fields e] eqn:Hr.
  vm_compute in Hr. injection Hr as <- <-. split; reflexivity.
Qed.

(** *** Witnesses *)

(** A stored block: the bytes as they are behind a header. *)
#[local] Instance Zlib_stored : Zlib.
Proof.
  refine {| deflate := λ l, Byte.x78 :: l;
            inflate := λ l, match l with _ :: l' => Some l' | [] => None end |}; done.
Defined.

Definition hash_example : list byte := replicate 20 Byte.xab.

Lemma Unpack_Pack_witness :
  ∃ tok, Pack (MkTorrsHash (EncodeToString hash_example)
      [MkField TagTitle (str " a film "); MkField TagSize (str "+5"); MkField TagPoster []]) = inl tok ∧
    (Unpack tok).1 = Some (MkTorrsHash (EncodeToString hash_example)
      [MkField TagTitle (str "a film"); MkField TagSize (str "5")]).
Proof.
  destruct (Unpack_Pack hash_example
    [MkField TagTitle (str " a film "); MkField TagSize (str "+5"); MkField TagPoster []]) as (tok & H1 & _ & H2).
  - reflexivity.
  - repeat apply Forall_cons_2; [..|apply Forall_nil_2]; (split; [simpl; unfold TagTitle, TagSize, TagPoster; lia|]).
    + vm_compute. reflexivity.
    + right. right. exists 5. split; [vm_compute; reflexivity|lia].
    + vm_compute. reflexivity.
  - exists tok. split; [exact H1|]. rewrite H2. vm_compute. reflexivity.
Defined.

Lemma zero_size_witness :
  ∃ data, pack (MkTorrsHash (EncodeToString hash_example)
    [MkField TagSize (str "00"); MkField TagTitle (str "abcdef")]) = inl data.
Proof. destruct (zero_size_spoils_token hash_example eq_refl) as (data & H & _). exists data. exact H. Defined.
