(* ===== verification/Guards.v ===== *)
(** * Per-file locks, the rate limiter, the table of open handles
    (locks.go, ratelimit.go, internal/opentracker/open_tracker.go)

    Small components that many goroutines share. The lock manager is modelled
    step by step, with lock entries that have an identity, since its point is
    what happens when entries are created and dropped while goroutines hold
    pointers to them. *)

From S2P Require Import Prelude.

(** ** The lock manager *)

Module Locks.

Abbreviation entry_id := nat.
Abbreviation tid := nat.

Record lockEntry := MkEntry { e_locked : bool; refCount : Z }.

(** Where a goroutine is: it has registered and waits for the entry's mutex
    (or tries it once); it holds it; it has given it up, or failed to get it,
    and still has to drop its reference. *)
Inductive phase := Waiting (try_ : bool) | Holding | Leaving.

Record thread := MkThread { t_path : string; t_entry : entry_id; t_phase : phase }.

Record LockManager := MkLM {
  locks : gmap string entry_id;
  entries : gmap entry_id lockEntry;
  next_entry : entry_id;
  threads : gmap tid thread;
}.

Definition NewLockManager : LockManager := MkLM ∅ ∅ 0%nat ∅.

(** The first critical section of [Lock] and of [TryLock]. *)
Definition register (t : tid) (path : string) (try_ : bool) (lm : LockManager) : option LockManager :=
  match threads lm !! t with
  | Some _ => None
  | None =>
      match locks lm !! path with
      | Some e =>
          Some (MkLM (locks lm) (alter (λ en, MkEntry (e_locked en) (refCount en + 1)) e (entries lm))
            (next_entry lm) (<[t := MkThread path e (Waiting try_)]> (threads lm)))
      | None =>
          let e := next_entry lm in
          Some (MkLM (<[path := e]> (locks lm)) (<[e := MkEntry false 1]> (entries lm)) (S e)
            (<[t := MkThread path e (Waiting try_)]> (threads lm)))
      end
  end.

Definition set_phase (t : tid) (ph : phase) (lm : LockManager) : gmap tid thread :=
  alter (λ th, MkThread (t_path th) (t_entry th) ph) t (threads lm).

(** [entry.mu.Lock()] returns when the mutex is free; [entry.mu.TryLock()]
    fails when it is not. *)
Definition acquire (t : tid) (lm : LockManager) : option LockManager :=
  th ← threads lm !! t;
  en ← entries lm !! t_entry th;
  match t_phase th with
  | Waiting try_ =>
      if e_locked en then
        if try_ : bool then Some (MkLM (locks lm) (entries lm) (next_entry lm) (set_phase t Leaving lm)) else None
      else Some (MkLM (locks lm) (<[t_entry th := MkEntry true (refCount en)]> (entries lm))
                  (next_entry lm) (set_phase t Holding lm))
  | _ => None
  end.

(** [entry.mu.Unlock()]. *)
Definition unlock (t : tid) (lm : LockManager) : option LockManager :=
  th ← threads lm !! t;
  en ← entries lm !! t_entry th;
  match t_phase th with
  | Holding => Some (MkLM (locks lm) (<[t_entry th := MkEntry false (refCount en)]> (entries lm))
                      (next_entry lm) (set_phase t Leaving lm))
  | _ => None
  end.

(** The last critical section: drop the reference, and the entry with the last
    one. *)
Definition leave (t : tid) (lm : LockManager) : option LockManager :=
  th ← threads lm !! t;
  en ← entries lm !! t_entry th;
  match t_phase th with
  | Leaving =>
      let n := refCount en - 1 in
      Some (MkLM (if n <=? 0 then delete (t_path th) (locks lm) else locks lm)
        (<[t_entry th := MkEntry (e_locked en) n]> (entries lm)) (next_entry lm)
        (delete t (threads lm)))
  | _ => None
  end.

Definition Stats (lm : LockManager) : nat := size (locks lm).

Inductive lm_step (lm : LockManager) : LockManager → Prop :=
| lm_register t path try_ lm' : register t path try_ lm = Some lm' → lm_step lm lm'
| lm_acquire t lm' : acquire t lm = Some lm' → lm_step lm lm'
| lm_unlock t lm' : unlock t lm = Some lm' → lm_step lm lm'
| lm_leave t lm' : leave t lm = Some lm' → lm_step lm lm'.

Definition lm_reachable (lm : LockManager) : Prop := rtc lm_step NewLockManager lm.

(** References to an entry, and goroutines that hold it. *)
Definition refs (e : entry_id) (th : thread) : Z := if decide (t_entry th = e) then 1 else 0.
Definition holds (e : entry_id) (th : thread) : Z :=
  if decide (t_entry th = e) then match t_phase th with Holding => 1 | _ => 0 end else 0.

Record lm_inv (lm : LockManager) : Prop := {
  li_path t th : threads lm !! t = Some th → locks lm !! t_path th = Some (t_entry th);
  li_inj p q e : locks lm !! p = Some e → locks lm !! q = Some e → p = q;
  li_fresh p e : locks lm !! p = Some e → (e < next_entry lm)%nat;
  li_refs p e : locks lm !! p = Some e → ∃ en, entries lm !! e = Some en ∧
    refCount en = map_sum (refs e) (threads lm) ∧ 1 ≤ refCount en ∧
    map_sum (holds e) (threads lm) = (if e_locked en then 1 else 0);
}.

Lemma refs_nonneg e th : 0 ≤ refs e th.
Proof. unfold refs. case_decide; lia. Qed.

Lemma holds_nonneg e th : 0 ≤ holds e th.
Proof. unfold holds. case_decide; [|lia]. destruct (t_phase th); lia. Qed.

Lemma refs_set e th ph : refs e (MkThread (t_path th) (t_entry th) ph) = refs e th.
Proof. done. Qed.

(** A change of phase of one goroutine. *)
Lemma set_phase_inv lm t th ph en' b :
  lm_inv lm → threads lm !! t = Some th →
  (∀ en, entries lm !! t_entry th = Some en → en' = MkEntry b (refCount en) ∧
    holds (t_entry th) (MkThread (t_path th) (t_entry th) ph) - holds (t_entry th) th =
    (if b then 1 else 0) - (if e_locked en then 1 else 0)) →
  lm_inv (MkLM (locks lm) (<[t_entry th := en']> (entries lm)) (next_entry lm) (set_phase t ph lm)).
Proof.
  intros [Hp Hinj Hfr Hr] Ht Hen. set (th' := MkThread (t_path th) (t_entry th) ph).
  assert (set_phase t ph lm = <[t := th']> (threads lm)) as Hsp.
  { unfold set_phase. apply map_eq. intros t'. rewrite lookup_alter, lookup_insert.
    case_decide; [|done]. subst. by rewrite Ht. }
  split; simpl; rewrite ?Hsp; auto.
  - intros t' th0. rewrite lookup_insert. case_decide; intros; simplify_eq; [|by eapply Hp].
    simpl. by eapply Hp.
  - intros p e He. destruct (Hr p e He) as (en & Hlk & Hc & Hge & Hh).
    rewrite !(map_sum_insert_old _ _ _ _ th) by done.
    destruct (decide (e = t_entry th)) as [->|Hne].
    + destruct (Hen en Hlk) as [-> Hd]. rewrite lookup_insert_eq. eexists. split; [done|]. simpl.
      unfold th' in *. rewrite refs_set. split_and!; [lia|lia|]. rewrite Hh. lia.
    + exists en. rewrite lookup_insert_ne by done. split_and!; [done| |done|].
      * unfold refs at 2 3. simpl. rewrite !decide_False by congruence. lia.
      * unfold holds at 2 3. simpl. rewrite !decide_False by congruence. rewrite Hh. lia.
Qed.

Lemma register_inv lm t path try_ lm' :
  lm_inv lm → register t path try_ lm = Some lm' → lm_inv lm'.
Proof.
  intros [Hp Hinj Hfr Hr]. unfold register. destruct (threads lm !! t) eqn:Ht; [done|].
  destruct (locks lm !! path) as [e|] eqn:He; intros [= <-].
  - split; simpl; auto.
    + intros t' th. rewrite lookup_insert. case_decide; intros; simplify_eq; [done|by eapply Hp].
    + intros p e' He'. destruct (Hr p e' He') as (en & Hlk & Hc & Hge & Hh).
      rewrite !map_sum_insert_new by done. unfold holds at 1. unfold refs at 1. simpl.
      destruct (decide (e = e')) as [->|Hne].
      * rewrite lookup_alter_eq, Hlk. eexists. split; [done|]. simpl. rewrite Hh. split_and!; lia.
      * rewrite lookup_alter_ne by done. exists en. rewrite Hh. split_and!; auto; lia.
  - assert (∀ p, locks lm !! p ≠ Some (next_entry lm)) as Hnew.
    { intros p Hp'. apply Hfr in Hp'. lia. }
    assert (∀ t' th, threads lm !! t' = Some th → t_entry th ≠ next_entry lm ∧ t_path th ≠ path) as Hth.
    { intros t' th Hth. apply Hp in Hth. split; [intros Heq; rewrite Heq in Hth; by eapply Hnew|congruence]. }
    split; simpl.
    + intros t' th. destruct (decide (t = t')) as [<-|Hne].
      * rewrite lookup_insert_eq. intros [= <-]. by rewrite lookup_insert_eq.
      * rewrite lookup_insert_ne by done. intros Hth'. rewrite lookup_insert_ne; [by eapply Hp|].
        destruct (Hth _ _ Hth'). congruence.
    + intros p q e. rewrite !lookup_insert. repeat case_decide; intros; simplify_eq; auto.
      * by destruct (Hnew q).
      * by destruct (Hnew p).
      * eauto.
    + intros p e. rewrite lookup_insert. case_decide; intros; simplify_eq; [lia|].
      assert (e < next_entry lm)%nat by eauto. lia.
    + intros p e. rewrite lookup_insert. rewrite !map_sum_insert_new by done. case_decide; intros; simplify_eq.
      * eexists. rewrite lookup_insert_eq. split; [done|]. simpl.
        assert (map_sum (refs (next_entry lm)) (threads lm) = 0 ∧ map_sum (holds (next_entry lm)) (threads lm) = 0)
          as [-> ->].
        { split; apply map_sum_zero; intros t' th Hth'; destruct (Hth t' th Hth').
          - unfold refs. by rewrite decide_False.
          - unfold holds. by rewrite decide_False. }
        unfold refs, holds. simpl. rewrite !decide_True by done. split_and!; lia.
      * destruct (Hr p e) as (en & Hlk & Hc & Hge & Hh); [done|].
        assert (next_entry lm ≠ e) by (intros <-; by eapply Hnew).
        exists en. rewrite lookup_insert_ne by done. unfold refs at 1. unfold holds at 1. simpl.
        rewrite !decide_False by done. split_and!; auto; lia.
Qed.

Lemma leave_inv lm t lm' : lm_inv lm → leave t lm = Some lm' → lm_inv lm'.
Proof.
  intros [Hp Hinj Hfr Hr]. unfold leave. destruct (threads lm !! t) as [th|] eqn:Ht; [|done].
  cbn [mbind option_bind]. destruct (entries lm !! t_entry th) as [en|] eqn:Hen; [|done].
  cbn [mbind option_bind]. destruct (t_phase th) eqn:Hph; [done..|]. intros [= <-].
  destruct (Hr _ _ (Hp _ _ Ht)) as (en0 & Hlk & Hc & Hge & Hh).
  assert (en = en0) as -> by congruence.
  assert (∀ t' th', threads lm !! t' = Some th' → t' ≠ t → t_path th' = t_path th → 2 ≤ refCount en0) as Htwo.
  { intros t' th' Ht' Hne Hpath. rewrite Hc.
    assert (t_entry th' = t_entry th) as He.
    { apply Hp in Ht' as H1. pose proof (Hp _ _ Ht) as H2. rewrite Hpath in H1. congruence. }
    pose proof (map_sum_delete (refs (t_entry th)) (threads lm) t th Ht) as H1.
    pose proof (map_sum_delete (refs (t_entry th)) (delete t (threads lm)) t' th') as H2.
    rewrite lookup_delete_ne in H2 by congruence. specialize (H2 Ht').
    pose proof (map_sum_nonneg (refs (t_entry th)) (delete t' (delete t (threads lm)))
      (λ _ x _, refs_nonneg _ x)) as H3.
    unfold refs in H1 at 3. unfold refs in H2 at 3. rewrite decide_True in H1 by done.
    rewrite decide_True in H2 by done. lia. }
  set (lk := if refCount en0 - 1 <=? 0 then delete (t_path th) (locks lm) else locks lm).
  assert (∀ p e, lk !! p = Some e → locks lm !! p = Some e ∧ (p = t_path th → 2 ≤ refCount en0)) as Hlks.
  { intros p e. unfold lk. case_if; zbool; [|intros; split; [done|intros; lia]].
    rewrite lookup_delete_Some. intros [Hne ?]. split; [done|]. by intros ->. }
  split; simpl; fold lk.
  - intros t' th' [Hne Ht']%lookup_delete_Some. unfold lk. case_if; zbool; [|by eapply Hp].
    rewrite lookup_delete_ne; [by eapply Hp|]. intros Heq.
    assert (2 ≤ refCount en0) by (by eapply (Htwo t' th')). lia.
  - intros p q e [? _]%Hlks [? _]%Hlks. eauto.
  - intros p e [? _]%Hlks. eauto.
  - intros p e [He Hk]%Hlks. destruct (Hr p e He) as (en & Hlk' & Hc' & Hge' & Hh').
    rewrite !(map_sum_delete _ _ _ th) by done. destruct (decide (e = t_entry th)) as [->|Hne].
    + assert (p = t_path th) as -> by (eapply Hinj; [done|by eapply Hp]). simplify_eq.
      rewrite lookup_insert_eq. eexists. split; [done|]. simpl.
      unfold refs at 2. unfold holds at 2. rewrite !decide_True, Hph by done. specialize (Hk eq_refl).
      split_and!; lia.
    + exists en. rewrite lookup_insert_ne by done. unfold refs at 2. unfold holds at 2.
      rewrite !decide_False by congruence. split_and!; auto; lia.
Qed.

Lemma lm_step_inv lm lm' : lm_inv lm → lm_step lm lm' → lm_inv lm'.
Proof.
  intros Hi Hs. destruct Hs as [t path try_ lm' H|t lm' H|t lm' H|t lm' H].
  - by eapply register_inv.
  - unfold acquire in H. destruct (threads lm !! t) as [th|] eqn:Ht; [|done]. cbn [mbind option_bind] in H.
    destruct (entries lm !! t_entry th) as [en|] eqn:Hen; [|done]. cbn [mbind option_bind] in H.
    destruct (t_phase th) as [try_| |] eqn:Hph; [|done..]. destruct (e_locked en) eqn:Hl.
    + destruct try_; [|done]. simplify_eq. rewrite <- (insert_id (entries lm) (t_entry th) en Hen).
      apply (set_phase_inv lm t th Leaving en true Hi Ht).
      intros en' Hen'. assert (en' = en) as -> by congruence.
      split; [by destruct en; simpl in *; subst|].
      unfold holds. simpl. rewrite !decide_True, Hph, Hl by done. lia.
    + simplify_eq. apply (set_phase_inv lm t th Holding _ true Hi Ht).
      intros en' Hen'. assert (en' = en) as -> by congruence. split; [done|]. unfold holds. simpl.
      rewrite !decide_True, Hph, Hl by done. lia.
  - unfold unlock in H. destruct (threads lm !! t) as [th|] eqn:Ht; [|done]. cbn [mbind option_bind] in H.
    destruct (entries lm !! t_entry th) as [en|] eqn:Hen; [|done]. cbn [mbind option_bind] in H.
    destruct (t_phase th) eqn:Hph; [done| |done]. simplify_eq.
    apply (set_phase_inv lm t th Leaving _ false Hi Ht).
    intros en' Hen'. assert (en' = en) as -> by congruence. split; [done|]. unfold holds. simpl.
    rewrite !decide_True, Hph by done. destruct (li_refs _ Hi _ _ (li_path _ Hi _ _ Ht)) as (en0 & Hen0 & _ & _ & Hh).
    assert (en0 = en) as -> by congruence. destruct (e_locked en); [lia|]. exfalso.
    pose proof (map_sum_delete (holds (t_entry th)) (threads lm) t th Ht) as H1.
    pose proof (map_sum_nonneg (holds (t_entry th)) (delete t (threads lm)) (λ _ x _, holds_nonneg _ x)).
    unfold holds in H1 at 3. rewrite decide_True, Hph in H1 by done. lia.
  - by eapply leave_inv.
Qed.

Lemma lm_reachable_inv lm : lm_reachable lm → lm_inv lm.
Proof.
  revert lm. apply (rtc_ind_r lm_inv); [|intros; by eapply lm_step_inv].
  split; simpl; intros *; by rewrite lookup_empty.
Qed.

(** C12: The lock manager excludes: in every reachable state, however goroutines
    register, try, acquire, release and drop entries, at most one of them holds
    the lock of a path, and a path is in the table exactly while some goroutine
    refers to its entry. *)
Theorem locks_exclude lm t1 t2 th1 th2 :
  lm_reachable lm → threads lm !! t1 = Some th1 → threads lm !! t2 = Some th2 →
  (t_path th1 = t_path th2 → t_phase th1 = Holding → t_phase th2 = Holding → t1 = t2) ∧
  (∀ path, is_Some (locks lm !! path) ↔ ∃ t th, threads lm !! t = Some th ∧ t_path th = path).
Proof.
  intros Hi%lm_reachable_inv H1 H2. split.
  - intros Hpath Hh1 Hh2. destruct (decide (t1 = t2)) as [|Hne]; [done|exfalso].
    pose proof (li_path _ Hi _ _ H1) as Hl1. pose proof (li_path _ Hi _ _ H2) as Hl2.
    assert (t_entry th2 = t_entry th1) as He by (rewrite Hpath in Hl1; congruence).
    destruct (li_refs _ Hi _ _ Hl1) as (en & _ & _ & _ & Hsum).
    pose proof (map_sum_delete (holds (t_entry th1)) (threads lm) t1 th1 H1) as HA.
    pose proof (map_sum_delete (holds (t_entry th1)) (delete t1 (threads lm)) t2 th2) as HB.
    rewrite lookup_delete_ne in HB by congruence. specialize (HB H2).
    pose proof (map_sum_nonneg (holds (t_entry th1)) (delete t2 (delete t1 (threads lm)))
      (λ _ x _, holds_nonneg _ x)).
    unfold holds in HA at 3. unfold holds in HB at 3. rewrite decide_True, Hh1 in HA by done.
    rewrite decide_True, Hh2 in HB by done. destruct (e_locked en); lia.
  - intros path. split.
    + intros [e He]. destruct (li_refs _ Hi _ _ He) as (en & _ & Hc & Hge & _).
      destruct (decide (map_Exists (λ _ th, t_entry th = e) (threads lm))) as [(t & th & Ht & Hte)|Hno].
      * exists t, th. split; [done|]. pose proof (li_path _ Hi _ _ Ht) as Hp. rewrite Hte in Hp.
        by eapply (li_inj _ Hi).
      * exfalso. rewrite map_sum_zero in Hc; [lia|]. intros t th Ht. unfold refs.
        rewrite decide_False; [done|]. intros Hte. apply Hno. by exists t, th.
    + intros (t & th & Ht & <-). rewrite (li_path _ Hi _ _ Ht). by eexists.
Qed.
End Locks.

(** ** The rate limiter *)

Module RateLimit.

(** Where the reset goroutine is: waiting for the ticker, draining the channel,
    refilling it with [left] tokens to go. *)
Inductive reset_pc := Idle | Draining | Refilling (left : nat).

(** The channel as the number of tokens in it; [window] counts the requests
    let through since the last refill began. *)
Record RateLimiter := MkRL {
  sem : nat;
  capacity : nat;
  stopped : bool;
  pc : reset_pc;
  window : nat;
}.

Definition NewRateLimiter (cap : nat) : RateLimiter := MkRL cap cap false Idle 0.

(** [Acquire]: takes a token if there is one; with [cancelled] the context is
    done, and the select may take either branch when both are ready. *)
Inductive outcome := Acquired | Cancelled.

Inductive Acquire (rl : RateLimiter) : bool → outcome → RateLimiter → Prop :=
| acquire_token cancelled n :
    sem rl = S n →
    Acquire rl cancelled Acquired (MkRL n (capacity rl) (stopped rl) (pc rl) (S (window rl)))
| acquire_cancelled : Acquire rl true Cancelled rl.

(** One step of the reset goroutine; [None] where it waits. *)
Definition reset_step (rl : RateLimiter) : option RateLimiter :=
  match pc rl with
  | Idle => Some (MkRL (sem rl) (capacity rl) (stopped rl) (if stopped rl then Idle else Draining) (window rl))
  | Draining =>
      match sem rl with
      | S n => Some (MkRL n (capacity rl) (stopped rl) Draining (window rl))
      | O => Some (MkRL 0 (capacity rl) (stopped rl) (Refilling (capacity rl)) 0)
      end
  | Refilling O => Some (MkRL (sem rl) (capacity rl) (stopped rl) Idle (window rl))
  | Refilling (S k) =>
      if (sem rl <? capacity rl)%nat
      then Some (MkRL (S (sem rl)) (capacity rl) (stopped rl) (Refilling k) (window rl))
      else Some (MkRL (sem rl) (capacity rl) (stopped rl) Idle (window rl))
  end.

(** [Stop] takes the mutex, which a running reset holds. *)
Definition Stop (rl : RateLimiter) : option RateLimiter :=
  match pc rl with
  | Idle => Some (MkRL (sem rl) (capacity rl) true Idle (window rl))
  | _ => None
  end.

Inductive rl_step (rl : RateLimiter) : RateLimiter → Prop :=
| rl_acquire b o rl' : Acquire rl b o rl' → rl_step rl rl'
| rl_reset rl' : reset_step rl = Some rl' → rl_step rl rl'
| rl_stop rl' : Stop rl = Some rl' → rl_step rl rl'.

Definition left_to_refill (rl : RateLimiter) : nat := match pc rl with Refilling k => k | _ => 0 end.

Definition rl_inv (cap : nat) (rl : RateLimiter) : Prop :=
  capacity rl = cap ∧ (window rl + sem rl + left_to_refill rl ≤ cap)%nat.

Lemma rl_step_inv cap rl rl' : rl_inv cap rl → rl_step rl rl' → rl_inv cap rl'.
Proof.
  intros [Hc Hle] Hs. unfold rl_inv, left_to_refill in *. destruct Hs as [b o rl' Ha|rl' Hr|rl' Hst].
  - destruct Ha; simpl; split; auto; lia.
  - unfold reset_step in Hr. destruct (pc rl) as [| |[|k]] eqn:Hpc.
    + simplify_eq. simpl. split; [done|]. destruct (stopped rl); simpl; lia.
    + destruct (sem rl); simplify_eq; simpl; split; auto; lia.
    + simplify_eq. simpl. split; auto; lia.
    + case_if_in Hr; simplify_eq; simpl; split; auto; lia.
  - unfold Stop in Hst. destruct (pc rl); simplify_eq. simpl. split; auto; lia.
Qed.

(** However requests and the reset goroutine interleave, the channel never
    holds more tokens than the capacity and no more requests than the capacity
    pass between one refill and the next; requests that arrive while the
    channel is being drained or filled are no exception. *)
Theorem rate_limit_per_window cap rl :
  rtc rl_step (NewRateLimiter cap) rl → (window rl ≤ cap)%nat ∧ (sem rl ≤ cap)%nat.
Proof.
  intros Hr. assert (rl_inv cap rl) as [_ Hle].
  { revert rl Hr. apply (rtc_ind_r (rl_inv cap)); [by split; unfold left_to_refill; cbn; lia|]. intros; by eapply rl_step_inv. }
  lia.
Qed.
End RateLimit.

(** ** Open handles *)

Module OpenTracker.

Record OpenTracker := MkTracker { byHash : gmap string Z; byPath : gmap string Z }.

Definition New : OpenTracker := MkTracker ∅ ∅.

Definition inc_key (k : string) (m : gmap string Z) : gmap string Z :=
  if bool_decide (k = "") then m else <[k := int32 (default 0 (m !! k) + 1)]> m.

Definition dec_key (k : string) (m : gmap string Z) : gmap string Z :=
  if bool_decide (k = "") then m
  else if default 0 (m !! k) <=? 1 then delete k m
       else <[k := int32 (default 0 (m !! k) - 1)]> m.

Definition Inc (hash path : string) (t : OpenTracker) : OpenTracker :=
  MkTracker (inc_key hash (byHash t)) (inc_key path (byPath t)).
Definition Dec (hash path : string) (t : OpenTracker) : OpenTracker :=
  MkTracker (dec_key hash (byHash t)) (dec_key path (byPath t)).
Definition CountByHash (hash : string) (t : OpenTracker) : Z := default 0 (byHash t !! hash).
Definition CountByPath (path : string) (t : OpenTracker) : Z := default 0 (byPath t !! path).
Definition IsHashOpen (hash : string) (t : OpenTracker) : bool := 0 <? CountByHash hash t.
Definition IsPathOpen (path : string) (t : OpenTracker) : bool := 0 <? CountByPath path t.
(** The order is that of a map iteration; only the contents are stated. *)
Definition OpenPaths (t : OpenTracker) : list string := (map_to_list (byPath t)).*1.

(** The specification: the handles that are open, as (hash, path). A handle is
    released only if it is open. *)
Inductive ot_step : list (string * string) * OpenTracker → list (string * string) * OpenTracker → Prop :=
| ot_open h p l t : Z.of_nat (length l) < 2 ^ 31 - 1 → ot_step (l, t) ((h, p) :: l, Inc h p t)
| ot_close h p l1 l2 t : ot_step (l1 ++ (h, p) :: l2, t) (l1 ++ l2, Dec h p t).

Definition occ (k : string) (l : list string) : Z := Z.of_nat (length (filter (λ x, x = k) l)).

(** The table of one key: the counts of the non-empty keys, each positive. *)
Definition counts (l : list string) (m : gmap string Z) : Prop :=
  ∀ k, m !! k = if bool_decide (k = "") || (occ k l =? 0) then None else Some (occ k l).

Lemma occ_bound k l : 0 ≤ occ k l ≤ Z.of_nat (length l).
Proof. unfold occ. pose proof (length_filter (λ x, x = k) l). lia. Qed.

Lemma occ_cons k x l : occ k (x :: l) = occ k l + (if decide (x = k) then 1 else 0).
Proof. unfold occ. rewrite filter_cons. case_decide; simpl; lia. Qed.

Lemma occ_app k l1 l2 : occ k (l1 ++ l2) = occ k l1 + occ k l2.
Proof. unfold occ. rewrite filter_app, length_app. lia. Qed.

Lemma counts_default l m k : counts l m → k ≠ "" → default 0 (m !! k) = occ k l.
Proof.
  intros Hc Hk. rewrite Hc, bool_decide_false by done. simpl.
  destruct (Z.eqb_spec (occ k l) 0) as [->|]; done.
Qed.

Lemma inc_key_counts l m k :
  Z.of_nat (length l) < 2 ^ 31 - 1 → counts l m → counts (k :: l) (inc_key k m).
Proof.
  intros Hl Hc k'. pose proof (occ_bound k l) as Hb. pose proof (occ_bound k' l). rewrite occ_cons.
  unfold inc_key. destruct (bool_decide_reflect (k = "")) as [->|Hk].
  - rewrite Hc. destruct (bool_decide_reflect (k' = "")) as [->|Hk']; [done|]. simpl.
    rewrite decide_False by done. by rewrite Z.add_0_r.
  - rewrite lookup_insert. destruct (decide (k = k')) as [<-|Hne].
    + rewrite bool_decide_false by done. simpl. rewrite (counts_default l) by done.
      rewrite wrap_s_id by (unfold fits_s; lia). destruct (Z.eqb_spec (occ k l + 1) 0); [lia|done].
    + rewrite Hc. by rewrite Z.add_0_r.
Qed.

Lemma dec_key_counts l1 l2 m k :
  Z.of_nat (length (l1 ++ k :: l2)) < 2 ^ 31 → counts (l1 ++ k :: l2) m → counts (l1 ++ l2) (dec_key k m).
Proof.
  intros Hl Hc k'. pose proof (occ_bound k (l1 ++ k :: l2)) as Hb.
  assert (occ k' (l1 ++ k :: l2) = occ k' (l1 ++ l2) + (if decide (k = k') then 1 else 0)) as Ho.
  { rewrite !occ_app, occ_cons. lia. }
  pose proof (occ_bound k' (l1 ++ l2)) as Hb'.
  unfold dec_key. destruct (bool_decide_reflect (k = "")) as [->|Hk].
  - rewrite Hc, Ho. destruct (bool_decide_reflect (k' = "")) as [->|Hk']; [done|]. simpl.
    rewrite decide_False by done. by rewrite Z.add_0_r.
  - rewrite (counts_default _ _ _ Hc Hk).
    assert (occ k (l1 ++ k :: l2) = occ k (l1 ++ l2) + 1) as Hok.
    { rewrite !occ_app, occ_cons, decide_True by done. lia. }
    destruct (decide (k = k')) as [<-|Hne].
    + rewrite bool_decide_false by done. simpl. destruct (Z.leb_spec (occ k (l1 ++ k :: l2)) 1).
      * rewrite lookup_delete_eq. destruct (Z.eqb_spec (occ k (l1 ++ l2)) 0); [done|lia].
      * rewrite lookup_insert_eq. destruct (Z.eqb_spec (occ k (l1 ++ l2)) 0); [lia|].
        rewrite wrap_s_id by (unfold fits_s; lia). f_equal. lia.
    + case_if; [rewrite lookup_delete_ne by done|rewrite lookup_insert_ne by done];
        rewrite Hc, Ho, Z.add_0_r; done.
Qed.

Lemma ot_step_inv lt lt' :
  (counts lt.1.*1 (byHash lt.2) ∧ counts lt.1.*2 (byPath lt.2) ∧ Z.of_nat (length lt.1) < 2 ^ 31) →
  ot_step lt lt' →
  (counts lt'.1.*1 (byHash lt'.2) ∧ counts lt'.1.*2 (byPath lt'.2) ∧ Z.of_nat (length lt'.1) < 2 ^ 31).
Proof.
  intros (Hh & Hp & Hl) Hs. destruct Hs as [h p l t Hlen|h p l1 l2 t]; simpl in *.
  - split_and!; [apply inc_key_counts; [by rewrite length_fmap|done]..|lia].
  - rewrite !fmap_app, !fmap_cons in *. simpl in *. rewrite !length_app in *. simpl in *.
    split_and!; [apply dec_key_counts; [rewrite length_app; simpl; rewrite !length_fmap; lia|done]..|lia].
Qed.

(** The counters are exact: after any sequence of openings and releases of
    open handles, fewer than 2 ^ 31 at a time, a hash or path is reported open
    exactly when a handle with it is open, with the number of such handles,
    and the list of open paths has each of them once; empty keys are never
    counted. *)
Theorem tracker_counts_handles l t :
  rtc ot_step ([], New) (l, t) →
  (∀ h, CountByHash h t = if bool_decide (h = "") then 0 else occ h l.*1) ∧
  (∀ p, CountByPath p t = if bool_decide (p = "") then 0 else occ p l.*2) ∧
  (∀ h, IsHashOpen h t = true ↔ h ≠ "" ∧ h ∈ l.*1) ∧
  (∀ p, IsPathOpen p t = true ↔ p ≠ "" ∧ p ∈ l.*2) ∧
  NoDup (OpenPaths t) ∧ (∀ p, p ∈ OpenPaths t ↔ p ≠ "" ∧ p ∈ l.*2).
Proof.
  intros Hr. assert (counts l.*1 (byHash t) ∧ counts l.*2 (byPath t)) as [Hh Hp].
  { change (counts (l, t).1.*1 (byHash (l, t).2) ∧ counts (l, t).1.*2 (byPath (l, t).2)).
    assert (∀ lt, rtc ot_step ([], New) lt →
      counts lt.1.*1 (byHash lt.2) ∧ counts lt.1.*2 (byPath lt.2) ∧ Z.of_nat (length lt.1) < 2 ^ 31) as Hinv.
    { apply (rtc_ind_r (λ lt, _)); [|intros ? ? _ Hs Hi; by eapply ot_step_inv].
      split_and!; [..|simpl; lia]; intros k; simpl; rewrite lookup_empty; by rewrite orb_true_r. }
    destruct (Hinv _ Hr) as (? & ? & _). done. }
  assert (∀ k m l, counts l m → default 0 (m !! k) = if bool_decide (k = "") then 0 else occ k l) as Hd.
  { intros k m l0 Hc. case_if; zbool; [rewrite Hc; by rewrite Hif|by apply counts_default]. }
  assert (∀ k l, 0 < occ k l ↔ k ∈ l) as Hin.
  { intros k l0. unfold occ. split.
    - intros Ho. destruct (filter (λ x, x = k) l0) as [|x f] eqn:Hf; [simpl in Ho; lia|].
      assert (x ∈ filter (λ x, x = k) l0) as [-> ?]%list_elem_of_filter by (rewrite Hf; by left). done.
    - intros Hk. assert (k ∈ filter (λ x, x = k) l0) as Hk' by (by apply list_elem_of_filter).
      destruct (filter _ l0); [by apply not_elem_of_nil in Hk'|simpl; lia]. }
  split_and!.
  - intros h. by apply Hd.
  - intros p. by apply Hd.
  - intros h. unfold IsHashOpen, CountByHash. rewrite Z.ltb_lt, (Hd h _ _ Hh).
    case_if; zbool; [naive_solver lia|]. rewrite Hin. tauto.
  - intros p. unfold IsPathOpen, CountByPath. rewrite Z.ltb_lt, (Hd p _ _ Hp).
    case_if; zbool; [naive_solver lia|]. rewrite Hin. tauto.
  - apply NoDup_fst_map_to_list.
  - intros p. unfold OpenPaths. rewrite list_elem_of_fmap. split.
    + intros ([k v] & -> & Hk%elem_of_map_to_list). simpl. rewrite Hp in Hk.
      destruct (bool_decide_reflect (k = "")); [done|]. simpl in Hk.
      destruct (Z.eqb_spec (occ k l.*2) 0) as [|Hne]; [done|]. split; [done|].
      apply Hin. pose proof (occ_bound k l.*2). lia.
    + intros [Hne Hpin]. exists (p, occ p l.*2). split; [done|]. apply elem_of_map_to_list.
      rewrite Hp, bool_decide_false by done. simpl. apply Hin in Hpin.
      destruct (Z.eqb_spec (occ p l.*2) 0); [lia|done].
Qed.
End OpenTracker.

(** ** Witnesses *)

Definition two_waiting : option Locks.LockManager :=
  (Locks.register 1 "f" false Locks.NewLockManager ≫= Locks.acquire 1) ≫= Locks.register 2 "f" true.

Lemma locks_exclude_witness :
  ∃ lm th1 th2, two_waiting = Some lm ∧ Locks.threads lm !! 1%nat = Some th1 ∧
    Locks.threads lm !! 2%nat = Some th2 ∧
    (Locks.t_path th1 = Locks.t_path th2 → Locks.t_phase th1 = Locks.Holding →
     Locks.t_phase th2 = Locks.Holding → 1%nat = 2%nat).
Proof.
  unfold two_waiting.
  destruct (Locks.register 1 "f" false Locks.NewLockManager) as [lm1|] eqn:H1; [|discriminate].
  destruct (Locks.acquire 1 lm1) as [lm2|] eqn:H2; [|vm_compute in H1; injection H1 as <-; vm_compute in H2; discriminate].
  destruct (Locks.register 2 "f" true lm2) as [lm3|] eqn:H3;
    [|vm_compute in H1; injection H1 as <-; vm_compute in H2; injection H2 as <-; vm_compute in H3; discriminate].
  assert (Locks.lm_reachable lm3) as Hr.
  { eapply rtc_l; [by eapply Locks.lm_register|]. eapply rtc_l; [by eapply Locks.lm_acquire|].
    apply rtc_once. by eapply Locks.lm_register. }
  vm_compute in H1. injection H1 as <-. vm_compute in H2. injection H2 as <-. vm_compute in H3. injection H3 as <-.
  eexists _, (Locks.MkThread "f" 0 Locks.Holding), (Locks.MkThread "f" 0 (Locks.Waiting true)).
  split; [reflexivity|]. split; [reflexivity|]. split; [reflexivity|].
  exact (proj1 (Locks.locks_exclude _ 1 2 _ _ Hr eq_refl eq_refl)).
Defined.

Lemma rate_limit_witness : (RateLimit.window (RateLimit.MkRL 1 2 false RateLimit.Idle 1) ≤ 2)%nat.
Proof.
  apply (RateLimit.rate_limit_per_window 2 (RateLimit.MkRL 1 2 false RateLimit.Idle 1)).
  apply rtc_once. apply (RateLimit.rl_acquire _ false RateLimit.Acquired).
  apply (RateLimit.acquire_token (RateLimit.NewRateLimiter 2) false 1). reflexivity.
Defined.

Lemma tracker_witness :
  OpenTracker.CountByHash "h" (OpenTracker.Inc "h" "p" OpenTracker.New) = 1.
Proof.
  destruct (OpenTracker.tracker_counts_handles [("h", "p")] (OpenTracker.Inc "h" "p" OpenTracker.New)) as [H _].
  - apply rtc_once. apply OpenTracker.ot_open. simpl. lia.
  - rewrite (H "h"). reflexivity.
Defined.
