(* ===== verification/InodeMap.v ===== *)
(** * The inode map (inodemap.go, internal/metadb/inodes.go)

    The persistent table that gives every virtual file and directory its inode
    number: 32 shards of four maps, saved to SQLite or to a JSON file and loaded
    at start. Inodes are hashes of the content's identity, so that a media
    server sees the same file after a restart.

    A stored JSON document is modelled as its decoded value, with the values of
    its tables as JSON strings or numbers, and the SQLite table as the list of
    its rows with the UNIQUE constraints of the schema. Numbers in decimal,
    [filepath.Base], the two regular expressions and the splitting of keys are
    written out. Operations run one at a time. *)

From S2P Require Import Prelude.

Local Open Scope string_scope.
Local Open Scope Z_scope.

(** ** Text *)

Abbreviation slash := (Ascii.Ascii true true true true false true false false).

Definition is_digit (c : Ascii.ascii) : bool := (48 <=? ord c) && (ord c <=? 57).

Definition is_hex (c : Ascii.ascii) : bool :=
  is_digit c || ((97 <=? ord c) && (ord c <=? 102)) || ((65 <=? ord c) && (ord c <=? 70)).

(** Decimal numbers: the digits [s] after the number [acc]. *)
Fixpoint parse_dec (s : string) (acc : Z) : option Z :=
  match s with
  | EmptyString => Some acc
  | String c s' => if is_digit c then parse_dec s' (acc * 10 + (ord c - 48)) else None
  end.

(** [strconv.ParseUint(s, 10, 64)] and [strconv.FormatUint(v, 10)]. *)
Definition ParseUint (s : string) : option Z :=
  if bool_decide (s = "") then None
  else v ← parse_dec s 0; if v <? 2 ^ 64 then Some v else None.

Definition FormatUint (v : Z) : string := pretty v.

(** [strconv.Atoi] for a 64-bit int. *)
Definition Atoi (s : string) : option Z :=
  let '(neg, ds) := match s with
                    | String c r => if ord c =? 45 then (true, r) else if ord c =? 43 then (false, r) else (false, s)
                    | EmptyString => (false, s)
                    end in
  if bool_decide (ds = "") then None
  else v ← parse_dec ds 0;
       let v := if neg : bool then - v else v in
       if (- 2 ^ 63 <=? v) && (v <? 2 ^ 63) then Some v else None.

(** [fmt.Sprintf("%s:%d", hash, index)]. *)
Definition file_key (hash : string) (index : Z) : string := hash +:+ ":" +:+ pretty index.

(** [strings.SplitN(key, ":", 2)]: what is before the first colon, and what is
    after it if there is one. *)
Fixpoint split_colon (s : string) : string * option string :=
  match s with
  | EmptyString => (EmptyString, None)
  | String c r =>
      if bool_decide (c = colon) then (EmptyString, Some r)
      else let '(a, b) := split_colon r in (String c a, b)
  end.

(** The loop of [pathBase], from position [i - 1] down. *)
Fixpoint base_loop (i : nat) (p : string) : string :=
  match i with
  | O => p
  | S i' =>
      if bool_decide (String.get i' p = Some slash) then String.substring (S i') (String.length p) p
      else base_loop i' p
  end.

Definition pathBase (p : string) : string := base_loop (String.length p) p.

(** [filepath.Base]. *)
Fixpoint strip_slashes (n : nat) (p : string) : string :=
  match n with
  | O => p
  | S n' =>
      if bool_decide (String.get n' p = Some slash) then strip_slashes n' (String.substring 0 n' p) else p
  end.

Definition Base (p : string) : string :=
  if bool_decide (p = "") then "."
  else let b := pathBase (strip_slashes (String.length p) p) in
       if bool_decide (b = "") then "/" else b.

(** The leftmost match of a pattern that is anchored at its start. *)
Fixpoint find_match {A} (f : string → option A) (s : string) : option A :=
  match f s with
  | Some x => Some x
  | None => match s with EmptyString => None | String _ s' => find_match f s' end
  end.

Fixpoint take_hex (n : nat) (s : string) : option string :=
  match n, s with
  | O, _ => Some ""
  | S n', String c s' => if is_hex c then String c <$> take_hex n' s' else None
  | S _, EmptyString => None
  end.

Fixpoint take_digits (s : string) : string :=
  match s with
  | String c s' => if is_digit c then String c (take_digits s') else ""
  | EmptyString => ""
  end.

(** [link=([a-fA-F0-9]{40})] and [index=(\d+)]. *)
Definition hashPattern (s : string) : option string := strip_prefix "link=" s ≫= take_hex 40.
Definition indexPattern (s : string) : option string :=
  r ← strip_prefix "index=" s; let d := take_digits r in if bool_decide (d = "") then None else Some d.

Definition ExtractHashAndIndex (url : string) : string * Z :=
  let hash := match find_match hashPattern url with Some h => ToLower h | None => "" end in
  let index := match find_match indexPattern url with
               | Some d => match Atoi d with Some i => i | None => 0 end
               | None => 0
               end in
  (hash, index).

(** ** The table in SQLite *)

Inductive entry_type := TFile | TDir.
#[global] Instance entry_type_dec : EqDecision entry_type.
Proof. solve_decision. Defined.

(** A row of the table [inodes]; NULL is [None]. *)
Record inode_row := MkRow {
  r_type : entry_type;
  r_infohash : option string;
  r_file_idx : option Z;
  r_full_path : string;
  r_rel_path : option string;
  r_basename : option string;
  r_inode_value : Z;
}.

(** Two rows cannot both be in the table: [full_path] and [rel_path] are
    UNIQUE, and NULL differs from NULL. *)
Definition conflict (r r' : inode_row) : bool :=
  bool_decide (r_full_path r = r_full_path r') ||
  match r_rel_path r, r_rel_path r' with Some a, Some b => bool_decide (a = b) | _, _ => false end.

Definition insert_or_replace (r : inode_row) (t : list inode_row) : list inode_row :=
  filter (λ r', conflict r r' = false) t ++ [r].

Definition UpsertFile (fullPath infohash : string) (fileIdx inodeValue : Z) : list inode_row → list inode_row :=
  insert_or_replace (MkRow TFile (Some infohash) (Some fileIdx) fullPath None (Some (pathBase fullPath)) (int64 inodeValue)).

Definition UpsertDir (relPath : string) (inodeValue : Z) : list inode_row → list inode_row :=
  insert_or_replace (MkRow TDir None None relPath (Some relPath) (Some (pathBase relPath)) (int64 inodeValue)).

Record InodeEntry := MkInodeEntry {
  Type_ : entry_type;
  Infohash : string;
  FileIdx : Z;
  FullPath : string;
  RelPath : string;
  Basename : string;
  InodeValue : Z;
}.

Definition scan_row (r : inode_row) : InodeEntry :=
  MkInodeEntry (r_type r) (default "" (r_infohash r)) (default 0 (r_file_idx r)) (r_full_path r)
    (default "" (r_rel_path r)) (default "" (r_basename r)) (uint64 (r_inode_value r)).

(** A query without ORDER BY gives the rows in any order. *)
Definition LoadAll `{!MapRange} (now : Z) (t : list inode_row) : list InodeEntry :=
  scan_row <$> range_order now t.

Definition DB_PruneMissing (validFiles : gset string) (t : list inode_row) : nat * list inode_row :=
  if bool_decide (size validFiles = 0%nat) then (0%nat, t)
  else
    let t' := filter (λ r, ¬ (r_type r = TFile ∧ r_full_path r ∉ validFiles)) t in
    ((length t - length t')%nat, t').

(** ** The JSON file *)

Inductive jval := JStr (s : string) | JNum (z : Z).

Record json_doc := MkDoc {
  j_version : Z;
  j_files : gmap string jval;
  j_dirs : gmap string jval;
  j_names : gmap string string;
}.

(** What is at the save path: nothing, something that cannot be read, text
    that is not such a document, a document. *)
Inductive file_state := NoFile | Unreadable | Garbage | Doc (d : json_doc).

Record InodeMapData (V : Type) := MkData {
  Version : Z;
  Files : gmap string V;
  Dirs : gmap string V;
  FilenameIndex : gmap string string;
}.
Arguments MkData {V}.
Arguments Version {V}.
Arguments Files {V}.
Arguments Dirs {V}.
Arguments FilenameIndex {V}.

(** Decoding a table into a map of strings or of 64-bit numbers fails as a
    whole when one value has another type. *)
Definition as_str (v : jval) : option string := match v with JStr s => Some s | JNum _ => None end.
Definition as_u64 (v : jval) : option Z :=
  match v with JNum z => if (0 <=? z) && (z <? 2 ^ 64) then Some z else None | JStr _ => None end.

Definition decode_table {V} (f : jval → option V) (m : gmap string jval) : option (gmap string V) :=
  if forallb (λ kv, bool_decide (is_Some (f kv.2))) (map_to_list m) then Some (omap f m) else None.

Definition Unmarshal {V} (f : jval → option V) (d : json_doc) : option (InodeMapData V) :=
  fs ← decode_table f (j_files d); ds ← decode_table f (j_dirs d);
  Some (MkData (j_version d) fs ds (j_names d)).

Definition Marshal (d : InodeMapData string) : json_doc :=
  MkDoc (Version d) (JStr <$> Files d) (JStr <$> Dirs d) (FilenameIndex d).

(** ** The map *)

Record inodeShard := MkShard {
  fileMap : gmap string Z;
  dirMap : gmap string Z;
  nameMap : gmap string string;
  fastFileMap : gmap string Z;
}.

(** [saved] is the file at [savePath]; [db] the table once [SetDB] was called. *)
Record InodeMap := MkIM {
  shards : list inodeShard;
  saved : file_state;
  db : option (list inode_row);
  dirty : bool;
  hits : Z;
  misses : Z;
}.

Definition InodeFileMask : Z := 0x7FFFFFFFFFFFFFFF.
Definition InodeDirMask : Z := 0x8000000000000000.
Definition InodeRoot : Z := 1.
Definition shardMask : Z := 31.

Definition empty_shard : inodeShard := MkShard ∅ ∅ ∅ ∅.

Definition set_shards (f : list inodeShard → list inodeShard) (im : InodeMap) : InodeMap :=
  MkIM (f (shards im)) (saved im) (db im) (dirty im) (hits im) (misses im).
Definition setDirty (b : bool) (im : InodeMap) : InodeMap :=
  MkIM (shards im) (saved im) (db im) b (hits im) (misses im).
Definition IsDirty (im : InodeMap) : bool := dirty im.
Definition SetDB (t : list inode_row) (im : InodeMap) : InodeMap :=
  MkIM (shards im) (saved im) (Some t) (dirty im) (hits im) (misses im).
Definition set_saved (f : file_state) (im : InodeMap) : InodeMap :=
  MkIM (shards im) f (db im) (dirty im) (hits im) (misses im).
Definition count_hit (im : InodeMap) : InodeMap :=
  MkIM (shards im) (saved im) (db im) (dirty im) (int64 (hits im + 1)) (misses im).
Definition count_miss (im : InodeMap) : InodeMap :=
  MkIM (shards im) (saved im) (db im) (dirty im) (hits im) (int64 (misses im + 1)).

Definition put_file (k : string) (v : Z) (s : inodeShard) : inodeShard :=
  MkShard (<[k := v]> (fileMap s)) (dirMap s) (nameMap s) (fastFileMap s).
Definition put_dir (k : string) (v : Z) (s : inodeShard) : inodeShard :=
  MkShard (fileMap s) (<[k := v]> (dirMap s)) (nameMap s) (fastFileMap s).
Definition put_name (k v : string) (s : inodeShard) : inodeShard :=
  MkShard (fileMap s) (dirMap s) (<[k := v]> (nameMap s)) (fastFileMap s).
Definition put_fast (k : string) (v : Z) (s : inodeShard) : inodeShard :=
  MkShard (fileMap s) (dirMap s) (nameMap s) (<[k := v]> (fastFileMap s)).
Definition del_file (k : string) (s : inodeShard) : inodeShard :=
  MkShard (delete k (fileMap s)) (dirMap s) (nameMap s) (fastFileMap s).
Definition del_name (k : string) (s : inodeShard) : inodeShard :=
  MkShard (fileMap s) (dirMap s) (delete k (nameMap s)) (fastFileMap s).
Definition del_fast (k : string) (s : inodeShard) : inodeShard :=
  MkShard (fileMap s) (dirMap s) (nameMap s) (delete k (fastFileMap s)).

Definition NewInodeMap (f : file_state) : InodeMap :=
  MkIM (alter (put_dir "/" InodeRoot) 0%nat (replicate 32 empty_shard)) f None false 0 0.

(** [xxhash.Sum64String] is a 64-bit hash. *)
Class XXHash := {
  Sum64String : string → Z;
  Sum64String_range : ∀ s, fits_u 64 (Sum64String s);
}.

(** How a save ends: every step works; or one of them fails, which leaves the
    file or the table as it was (the temporary file is not renamed, the
    transaction is rolled back). *)
Inductive io_result := IOk | IFail.

Section inode_map.
Context `{HX : !XXHash} `{HM : !MapRange}.

Definition getShard (key : string) : nat := Z.to_nat (Z.land (Sum64String key) shardMask).
Definition shard_of (key : string) (im : InodeMap) : inodeShard := default empty_shard (shards im !! getShard key).
Definition on_shard (key : string) (f : inodeShard → inodeShard) : InodeMap → InodeMap :=
  set_shards (alter f (getShard key)).

Definition generateFileInode (infohash : string) (index : Z) : Z :=
  Z.land (Sum64String (file_key (ToLower infohash) index)) InodeFileMask.

Definition generateDirInode (relativePath : string) : Z :=
  if bool_decide (relativePath = "/") || bool_decide (relativePath = "") then InodeRoot
  else Z.lor (Sum64String relativePath) InodeDirMask.

(** *** Loading *)

Definition load_entry (im : InodeMap) (e : InodeEntry) : InodeMap :=
  match Type_ e with
  | TFile =>
      let key := file_key (Infohash e) (FileIdx e) in
      on_shard (Basename e) (put_fast (Basename e) (InodeValue e))
        (on_shard key (put_file key (InodeValue e))
          (on_shard (FullPath e) (put_name (FullPath e) key) im))
  | TDir => on_shard (RelPath e) (put_dir (RelPath e) (InodeValue e)) im
  end.

Definition loadFromDB (now : Z) (t : list inode_row) (im : InodeMap) : InodeMap :=
  foldl load_entry im (LoadAll now t).

Definition addLoadedFile (fullPath key : string) (inode : Z) (im : InodeMap) : InodeMap :=
  on_shard (Base fullPath) (put_fast (Base fullPath) inode)
    (on_shard key (put_file key inode)
      (on_shard fullPath (put_name fullPath key) im)).

Definition addLoadedDir (relPath : string) (inode : Z) (im : InodeMap) : InodeMap :=
  on_shard relPath (put_dir relPath inode) im.

(** The loops over the file names and over the directories of a document. *)
Definition load_names (now : Z) (names : gmap string string) (files : gmap string Z) (im : InodeMap) : InodeMap :=
  foldl (λ im pk, match files !! pk.2 with Some inode => addLoadedFile pk.1 pk.2 inode im | None => im end)
    im (range_order now (map_to_list names)).

Definition load_dirs (now : Z) (dirs : gmap string Z) (im : InodeMap) : InodeMap :=
  foldl (λ im kv, addLoadedDir kv.1 kv.2 im) im (range_order now (map_to_list dirs)).

(** [inl] is the error. *)
Definition loadFromJSON (now : Z) (im : InodeMap) : string + InodeMap :=
  match saved im with
  | NoFile => inr im
  | Unreadable => inl "read inode map"
  | Garbage => inl "unmarshal inode map (tried V2 and V1)"
  | Doc d =>
      let v1 :=
        match Unmarshal as_u64 d with
        | None => inl "unmarshal inode map (tried V2 and V1)"
        | Some d1 =>
            if Version d1 =? 1 then
              inr (setDirty true (load_dirs now (Dirs d1) (load_names now (FilenameIndex d1) (Files d1) im)))
            else inr im
        end in
      match Unmarshal as_str d with
      | Some d2 =>
          if Version d2 =? 2 then
            let tempFileMap := omap ParseUint (Files d2) in
            inr (load_dirs now (omap ParseUint (Dirs d2)) (load_names now (FilenameIndex d2) tempFileMap im))
          else v1
      | None => v1
      end
  end.

Definition LoadFromDisk (now : Z) (im : InodeMap) : string + InodeMap :=
  match db im with
  | Some t => inr (loadFromDB now t im)
  | None => loadFromJSON now im
  end.

(** *** Saving *)

(** One of the maps, merged from all shards. *)
Definition merged {A} (now : Z) (g : inodeShard → gmap string A) (ss : list inodeShard) : gmap string A :=
  foldl (λ acc s, foldl (λ acc kv, <[kv.1 := kv.2]> acc) acc (range_order now (map_to_list (g s)))) ∅ ss.

Definition key_to_path (now : Z) (names : gmap string string) : gmap string string :=
  foldl (λ acc pk, <[pk.2 := pk.1]> acc) ∅ (range_order now (map_to_list names)).

Definition save_file (keyToPath : gmap string string) (t : list inode_row) (kv : string * Z) : list inode_row :=
  let fullPath := default "" (keyToPath !! kv.1) in
  let '(a, rest) := split_colon kv.1 in
  let '(infohash, fileIdx) := match rest with
                              | Some r => (a, match Atoi r with Some idx => idx | None => 0 end)
                              | None => (kv.1, 0)
                              end in
  UpsertFile fullPath infohash fileIdx kv.2 t.

Definition save_dir (t : list inode_row) (kv : string * Z) : list inode_row := UpsertDir kv.1 kv.2 t.

Definition save_shard (now : Z) (keyToPath : gmap string string) (t : list inode_row) (s : inodeShard) : list inode_row :=
  foldl save_dir (foldl (save_file keyToPath) t (range_order now (map_to_list (fileMap s))))
    (range_order now (map_to_list (dirMap s))).

(** The rows of the transaction, which starts by deleting all rows. *)
Definition saved_rows (now : Z) (im : InodeMap) : list inode_row :=
  foldl (save_shard now (key_to_path now (merged now nameMap (shards im)))) [] (shards im).

Definition saveToDB (now : Z) (io : io_result) (im : InodeMap) : bool * InodeMap :=
  match io with
  | IFail => (false, im)
  | IOk => (true, setDirty false (SetDB (saved_rows now im) im))
  end.

Definition saveToJSON (now : Z) (io : io_result) (im : InodeMap) : bool * InodeMap :=
  match io with
  | IFail => (false, im)
  | IOk =>
      let mapData := MkData 2 (FormatUint <$> merged now fileMap (shards im))
                       (FormatUint <$> merged now dirMap (shards im)) (merged now nameMap (shards im)) in
      (true, setDirty false (set_saved (Doc (Marshal mapData)) im))
  end.

Definition SaveToDisk (now : Z) (io : io_result) (im : InodeMap) : bool * InodeMap :=
  match db im with
  | Some _ => saveToDB now io im
  | None => saveToJSON now io im
  end.

(** What the background saver does at each tick and when it is stopped, and
    what [Stop] does. *)
Definition save_if_dirty (now : Z) (io : io_result) (im : InodeMap) : InodeMap :=
  if IsDirty im then (SaveToDisk now io im).2 else im.

(** *** Operations *)

Definition AddFile (fullPath infohash : string) (index : Z) (im : InodeMap) : Z * InodeMap :=
  if bool_decide (infohash = "") then (0, im)
  else
    let key := file_key (ToLower infohash) index in
    let inode := generateFileInode infohash index in
    if bool_decide (nameMap (shard_of fullPath im) !! fullPath = Some key) then (inode, im)
    else
      let im := on_shard fullPath (put_name fullPath key) im in
      let im := on_shard key (put_file key inode) im in
      let im := on_shard (Base fullPath) (put_fast (Base fullPath) inode) im in
      (inode, setDirty true im).

Definition AddDir (relativePath : string) (im : InodeMap) : Z * InodeMap :=
  let inode := generateDirInode relativePath in
  match dirMap (shard_of relativePath im) !! relativePath with
  | Some _ => (inode, im)
  | None => (inode, setDirty true (on_shard relativePath (put_dir relativePath inode) im))
  end.

Definition GetFileInode (fullPath : string) (im : InodeMap) : Z * InodeMap :=
  match (key ← nameMap (shard_of fullPath im) !! fullPath; fileMap (shard_of key im) !! key) with
  | Some inode => (inode, count_hit im)
  | None => (0, count_miss im)
  end.

Definition GetFileInodeByName (filename : string) (im : InodeMap) : Z * InodeMap :=
  match fastFileMap (shard_of filename im) !! filename with
  | Some inode => (inode, count_hit im)
  | None => (0, count_miss im)
  end.

Definition GetDirInode (relativePath : string) (im : InodeMap) : Z * InodeMap :=
  if bool_decide (relativePath = "/") || bool_decide (relativePath = "") then (InodeRoot, im)
  else match dirMap (shard_of relativePath im) !! relativePath with
       | Some inode => (inode, im)
       | None => AddDir relativePath im
       end.

Definition RemoveFile (fullPath : string) (im : InodeMap) : InodeMap :=
  match nameMap (shard_of fullPath im) !! fullPath with
  | None => im
  | Some key =>
      let im := on_shard fullPath (del_name fullPath) im in
      let targetInode := default 0 (fileMap (shard_of key im) !! key) in
      let im := on_shard key (del_file key) im in
      let filename := Base fullPath in
      let im := if bool_decide (fastFileMap (shard_of filename im) !! filename = Some targetInode)
                then on_shard filename (del_fast filename) im else im in
      setDirty true im
  end.

Definition Stats (im : InodeMap) : Z * Z * Z * Z :=
  (foldl (λ n s, int64 (n + Z.of_nat (size (fileMap s)))) 0 (shards im),
   foldl (λ n s, int64 (n + Z.of_nat (size (dirMap s)))) 0 (shards im), hits im, misses im).

Definition missing (now : Z) (foundFiles : gset string) (im : InodeMap) : list string :=
  s ← shards im; filter (λ p, p ∉ foundFiles) (range_order now (map_to_list (nameMap s)).*1).

Definition PruneMissing (now : Z) (foundFiles : gset string) (im : InodeMap) : nat * InodeMap :=
  let toRemove := missing now foundFiles im in
  let im := foldl (λ im p, RemoveFile p im) im toRemove in
  let im := match db im with
            | Some t => if bool_decide (toRemove = []) then im else SetDB (DB_PruneMissing foundFiles t).2 im
            | None => im
            end in
  (length toRemove, if bool_decide (toRemove = []) then im else setDirty true im).

(** *** The global instance; [None] before it is initialised *)

Definition hashFilenameToInode (name : string) : Z := Sum64String name.

Definition getFileInodeFromMap (fullPath : string) (g : option InodeMap) : Z * option InodeMap :=
  let fallback := Z.land (hashFilenameToInode (Base fullPath)) InodeFileMask in
  match g with
  | None => (fallback, None)
  | Some im =>
      let '(inode, im) := GetFileInode fullPath im in
      if negb (inode =? 0) then (inode, Some im)
      else let '(inode, im) := GetFileInodeByName (Base fullPath) im in
           if negb (inode =? 0) then (inode, Some im) else (fallback, Some im)
  end.

Definition getDirInodeFromMap (relativePath : string) (g : option InodeMap) : Z * option InodeMap :=
  match g with
  | None => (generateDirInode relativePath, None)
  | Some im => let '(inode, im) := GetDirInode relativePath im in (inode, Some im)
  end.

Definition addFileToInodeMap (fullPath url : string) (g : option InodeMap) : Z * option InodeMap :=
  match g with
  | None => (0, None)
  | Some im =>
      let '(hash, index) := ExtractHashAndIndex url in
      if bool_decide (hash = "") then (0, Some im)
      else let '(inode, im) := AddFile fullPath hash index im in (inode, Some im)
  end.

(** A new process over the same file and table: the map is created and loaded
    from the JSON file, and, when the database is in use, loaded again. *)
Definition InitGlobalInodeMap (now : Z) (f : file_state) : string + InodeMap := LoadFromDisk now (NewInodeMap f).

Definition restart (now : Z) (im : InodeMap) : string + InodeMap :=
  match InitGlobalInodeMap now (saved im) with
  | inl e => inl e
  | inr im' => match db im with Some t => LoadFromDisk now (SetDB t im') | None => inr im' end
  end.

End inode_map.

(** ** Text: decimal numbers and keys *)

Lemma ord_digit (d : N) : (d < 10)%N → is_digit (pretty_N_char d) = true ∧ ord (pretty_N_char d) - 48 = Z.of_N d.
Proof.
  intros Hd. assert (d = 0 ∨ d = 1 ∨ d = 2 ∨ d = 3 ∨ d = 4 ∨ d = 5 ∨ d = 6 ∨ d = 7 ∨ d = 8 ∨ d = 9)%N as Hc by lia.
  repeat (destruct Hc as [->|Hc]; [done|]). by subst.
Qed.

Lemma parse_dec_pretty_go x s : parse_dec (pretty_N_go x s) 0 = parse_dec s (Z.of_N x).
Proof.
  revert s. induction (N.lt_wf_0 x) as [x _ IH]; intros s.
  destruct (decide (x = 0)%N) as [->|Hne]; [done|].
  rewrite pretty_N_go_step by lia. rewrite IH by (apply N.div_lt; lia).
  destruct (ord_digit (x `mod` 10)) as [Hd Hv]; [by apply N.mod_lt|].
  cbn [parse_dec]. rewrite Hd, Hv. f_equal. rewrite N2Z.inj_mod, N2Z.inj_div.
  rewrite (Z.div_mod (Z.of_N x) 10) at 3 by lia. lia.
Qed.

Lemma pretty_N_nonempty (x : N) : pretty x ≠ "".
Proof.
  assert (∀ y s, s ≠ "" → pretty_N_go y s ≠ "") as Hgo.
  { intros y. induction (N.lt_wf_0 y) as [y _ IH]; intros s Hs.
    destruct (decide (y = 0)%N) as [->|]; [done|]. rewrite pretty_N_go_step by lia.
    apply IH; [by apply N.div_lt; lia|done]. }
  unfold pretty, pretty_N. case_decide; [done|].
  rewrite pretty_N_go_step by lia. by apply Hgo.
Qed.

Lemma parse_dec_pretty_N (x : N) : parse_dec (pretty x) 0 = Some (Z.of_N x).
Proof.
  unfold pretty, pretty_N. case_decide as Hx; [by subst|]. by rewrite parse_dec_pretty_go.
Qed.

Lemma ParseUint_FormatUint v : fits_u 64 v → ParseUint (FormatUint v) = Some v.
Proof.
  intros [Hlo Hhi]. unfold ParseUint, FormatUint.
  assert (∃ x : N, v = Z.of_N x ∧ pretty v = pretty x) as (x & -> & ->).
  { exists (Z.to_N v). split; [lia|]. by destruct v as [|p|p]; [| |lia]. }
  rewrite bool_decide_false by apply pretty_N_nonempty. rewrite parse_dec_pretty_N. cbn [mbind option_bind].
  destruct (Z.ltb_spec (Z.of_N x) (2 ^ 64)); [done|lia].
Qed.

(** The decimal form of a natural number does not start with a sign. *)
Lemma pretty_N_digits (x : N) : ∃ c s, pretty x = String c s ∧ is_digit c = true.
Proof.
  assert (∀ y c s, is_digit c = true → ∃ c' s', pretty_N_go y (String c s) = String c' s' ∧ is_digit c' = true) as Hgo.
  { intros y. induction (N.lt_wf_0 y) as [y _ IH]; intros c s Hc.
    destruct (decide (y = 0)%N) as [->|]; [by exists c, s|]. rewrite pretty_N_go_step by lia.
    apply IH; [by apply N.div_lt; lia|]. apply ord_digit. by apply N.mod_lt. }
  unfold pretty, pretty_N. case_decide; [by eexists _, _|].
  rewrite pretty_N_go_step by lia. apply Hgo. apply ord_digit. by apply N.mod_lt.
Qed.

Lemma Atoi_pretty z : fits_s 64 z → Atoi (pretty z) = Some z.
Proof.
  intros [Hlo Hhi]. simpl in *. destruct (decide (0 ≤ z)) as [Hz|Hz].
  - assert (∃ x : N, z = Z.of_N x ∧ pretty z = pretty x) as (x & -> & ->).
    { exists (Z.to_N z). split; [lia|]. by destruct z as [|p|p]; [| |lia]. }
    pose proof (parse_dec_pretty_N x) as Hp.
    destruct (pretty_N_digits x) as (c & s & Heq & Hc). rewrite Heq in *. unfold Atoi.
    unfold is_digit in Hc. apply andb_true_iff in Hc as [Hc%Z.leb_le _].
    destruct (Z.eqb_spec (ord c) 45); [lia|]. destruct (Z.eqb_spec (ord c) 43); [lia|].
    rewrite bool_decide_false by done. rewrite Hp. cbn [mbind option_bind].
    rewrite (proj2 (Z.leb_le _ _)), (proj2 (Z.ltb_lt _ _)) by lia. done.
  - destruct z as [|p|p]; [lia..|]. change (pretty (Z.neg p)) with (String (Ascii.Ascii true false true true false true false false) (pretty (N.pos p))).
    unfold Atoi. change (ord _ =? 45) with true. cbn iota beta. rewrite bool_decide_false by apply pretty_N_nonempty.
    rewrite parse_dec_pretty_N. cbn [mbind option_bind].
    change (- Z.of_N (N.pos p)) with (Z.neg p).
    rewrite (proj2 (Z.leb_le _ _)), (proj2 (Z.ltb_lt _ _)) by lia. done.
Qed.

Lemma split_colon_key h s : has_char colon h = false → split_colon (h +:+ ":" +:+ s) = (h, Some s).
Proof.
  induction h as [|c h IH]; intros Hh; [done|]. simpl in Hh. apply orb_false_iff in Hh as [Hc Hh].
  apply bool_decide_eq_false in Hc. change (String c h +:+ ":" +:+ s) with (String c (h +:+ ":" +:+ s)).
  cbn [split_colon]. rewrite bool_decide_false by congruence. by rewrite IH.
Qed.

(** Keys as [AddFile] makes them from what [ExtractHashAndIndex] finds. *)
Definition canonical (k : string) : Prop :=
  ∃ h i, k = file_key h i ∧ has_char colon h = false ∧ fits_s 64 i.

Lemma take_hex_no_colon n s h : take_hex n s = Some h → has_char colon (ToLower h) = false.
Proof.
  revert s h. induction n as [|n IH]; intros s h; simpl; [by intros [= <-]|].
  destruct s as [|c s]; [done|]. destruct (is_hex c) eqn:Hc; [|done].
  destruct (take_hex n s) as [h'|] eqn:Ht; [|done]. intros [= <-]. simpl. rewrite (IH s h' Ht), orb_false_r.
  apply bool_decide_eq_false. intros He.
  destruct c as [[] [] [] [] [] [] [] []]; simpl in Hc; try discriminate; by vm_compute in He.
Qed.

Lemma find_match_Some {A} (f : string → option A) s x : find_match f s = Some x → ∃ s', f s' = Some x.
Proof.
  induction s as [|c s IH]; simpl.
  - destruct (f "") eqn:?; intros; simplify_eq; eauto.
  - destruct (f (String c s)) eqn:?; intros; simplify_eq; eauto.
Qed.

Lemma Atoi_fits s z : Atoi s = Some z → fits_s 64 z.
Proof.
  unfold Atoi. destruct (match s with EmptyString => _ | String _ _ => _ end) as [neg ds].
  destruct (bool_decide _); [done|]. destruct (parse_dec ds 0) as [v|]; [|done]. cbn [mbind option_bind].
  destruct (_ && _) eqn:Hb; [|done]. intros [= <-].
  apply andb_true_iff in Hb as [?%Z.leb_le ?%Z.ltb_lt]. by split.
Qed.

Lemma ExtractHashAndIndex_ok url h i :
  ExtractHashAndIndex url = (h, i) → has_char colon h = false ∧ fits_s 64 i.
Proof.
  unfold ExtractHashAndIndex. intros [= <- <-]. split.
  - destruct (find_match hashPattern url) as [h|] eqn:Hm; [|done].
    apply find_match_Some in Hm as [s Hs]. unfold hashPattern in Hs.
    destruct (strip_prefix "link=" s) as [r|]; [|done]. by eapply take_hex_no_colon.
  - destruct (find_match indexPattern url) as [d|]; [|by split].
    destruct (Atoi d) eqn:Ha; [by eapply Atoi_fits|by split].
Qed.

Lemma ToLower_no_colon h : has_char colon h = false → has_char colon (ToLower h) = false.
Proof.
  induction h as [|c h IH]; [done|]. simpl. intros [Hc Hh]%orb_false_iff. rewrite IH, orb_false_r by done.
  apply bool_decide_eq_false. apply bool_decide_eq_false in Hc. intros He.
  destruct c as [[] [] [] [] [] [] [] []]; vm_compute in He; congruence.
Qed.

(** ** The invariant *)

Section inode_map_inv.
Context `{HX : !XXHash} `{HM : !MapRange}.

Definition file_inode (k : string) : Z := Z.land (Sum64String k) InodeFileMask.

Lemma file_inode_fits k : 0 ≤ file_inode k < 2 ^ 63.
Proof.
  unfold file_inode. change InodeFileMask with (Z.ones 63).
  rewrite Z.land_ones by lia. apply Z.mod_pos_bound. lia.
Qed.

Lemma generateDirInode_fits d : fits_u 64 (generateDirInode d).
Proof.
  unfold generateDirInode. case_if; [by split|]. pose proof (Sum64String_range d) as [? ?].
  split; [apply Z.lor_nonneg; split; [lia|done]|].
  apply Z.log2_lt_cancel. rewrite Z.log2_lor by (done || lia).
  rewrite (Z.log2_pow2 64) by lia. change (Z.log2 InodeDirMask) with 63. apply Z.max_lub_lt; [|lia].
  destruct (decide (Sum64String d = 0)) as [->|]; [done|]. apply Z.log2_lt_pow2; lia.
Qed.

Record shard_ok (i : nat) (s : inodeShard) : Prop := {
  so_file k v : fileMap s !! k = Some v → getShard k = i ∧ canonical k ∧ v = file_inode k;
  so_name p k : nameMap s !! p = Some k → getShard p = i ∧ canonical k;
  so_fast b v : fastFileMap s !! b = Some v → getShard b = i ∧ ∃ k, canonical k ∧ v = file_inode k;
  so_dir d v : dirMap s !! d = Some v → (getShard d = i ∨ (d = "/" ∧ i = 0%nat)) ∧ v = generateDirInode d;
}.

(** Every entry is in the shard of its key, inodes are those of the contents. *)
Record im_ok (im : InodeMap) : Prop := {
  io_length : length (shards im) = 32%nat;
  io_shards i s : shards im !! i = Some s → shard_ok i s;
}.

(** A row as [saveToDB] writes it. *)
Definition row_ok (r : inode_row) : Prop :=
  r_basename r = Some (pathBase (r_full_path r)) ∧
  match r_type r with
  | TFile => ∃ h i, r_infohash r = Some h ∧ r_file_idx r = Some i ∧ r_rel_path r = None ∧
      has_char colon h = false ∧ fits_s 64 i ∧ r_inode_value r = int64 (file_inode (file_key h i))
  | TDir => r_rel_path r = Some (r_full_path r) ∧ r_inode_value r = int64 (generateDirInode (r_full_path r))
  end.

Definition files_ok (fs : gmap string Z) : Prop := ∀ k v, fs !! k = Some v → canonical k ∧ v = file_inode k.
Definition dirs_ok (ds : gmap string Z) : Prop := ∀ d v, ds !! d = Some v → v = generateDirInode d.
Definition names_ok (ns : gmap string string) : Prop := ∀ p k, ns !! p = Some k → canonical k.

Definition doc_of (fs ds : gmap string Z) (ns : gmap string string) : json_doc :=
  Marshal (MkData 2 (FormatUint <$> fs) (FormatUint <$> ds) ns).

Definition file_ok (f : file_state) : Prop :=
  match f with
  | NoFile => True
  | Doc d => ∃ fs ds ns, d = doc_of fs ds ns ∧ files_ok fs ∧ dirs_ok ds ∧ names_ok ns
  | _ => False
  end.

Definition table_ok (t : option (list inode_row)) : Prop := from_option (Forall row_ok) True t.

Definition im_inv (im : InodeMap) : Prop := im_ok im ∧ file_ok (saved im) ∧ table_ok (db im).

Lemma getShard_lt k : (getShard k < 32)%nat.
Proof.
  unfold getShard, shardMask. change 31 with (Z.ones 5). rewrite Z.land_ones by lia.
  pose proof (Z.mod_pos_bound (Sum64String k) (2 ^ 5)). lia.
Qed.

Lemma shard_of_lookup k im : im_ok im → shards im !! getShard k = Some (shard_of k im).
Proof.
  intros [Hl _]. unfold shard_of. destruct (shards im !! getShard k) eqn:He; [done|].
  apply lookup_ge_None in He. pose proof (getShard_lt k). lia.
Qed.

Lemma shard_of_ok k im : im_ok im → shard_ok (getShard k) (shard_of k im).
Proof. intros H. eapply io_shards; [done|by apply shard_of_lookup]. Qed.

Lemma on_shard_ok k f im :
  im_ok im → (∀ s, shard_ok (getShard k) s → shard_ok (getShard k) (f s)) → im_ok (on_shard k f im).
Proof.
  intros Hi Hf. split; simpl; [by rewrite length_alter, io_length|].
  intros i s Hs. destruct (decide (i = getShard k)) as [->|Hne].
  - rewrite list_lookup_alter_eq, shard_of_lookup in Hs by done. simplify_eq/=. by apply Hf, shard_of_ok.
  - rewrite list_lookup_alter_ne in Hs by done. by eapply io_shards.
Qed.

Lemma shard_of_on_shard k k' f im :
  im_ok im → shard_of k' (on_shard k f im) = if decide (getShard k' = getShard k) then f (shard_of k' im) else shard_of k' im.
Proof.
  intros Hi. unfold shard_of at 1. simpl. case_decide as He.
  - rewrite He, list_lookup_alter_eq. rewrite shard_of_lookup by done. simpl. f_equal.
    unfold shard_of. by rewrite He.
  - by rewrite list_lookup_alter_ne.
Qed.

Ltac solve_shard_ok :=
  intros [Hf Hn Hb Hd]; split; simpl; intros ? ?;
  rewrite ?lookup_insert_Some, ?lookup_delete_Some; naive_solver.

Lemma put_file_ok k s : canonical k → shard_ok (getShard k) s → shard_ok (getShard k) (put_file k (file_inode k) s).
Proof. intros Hk. solve_shard_ok. Qed.
Lemma put_name_ok p k s : canonical k → shard_ok (getShard p) s → shard_ok (getShard p) (put_name p k s).
Proof. intros Hk. solve_shard_ok. Qed.
Lemma put_fast_ok b k s : canonical k → shard_ok (getShard b) s → shard_ok (getShard b) (put_fast b (file_inode k) s).
Proof. intros Hk. solve_shard_ok. Qed.
Lemma put_dir_ok d s : shard_ok (getShard d) s → shard_ok (getShard d) (put_dir d (generateDirInode d) s).
Proof. solve_shard_ok. Qed.
Lemma del_file_ok i k s : shard_ok i s → shard_ok i (del_file k s).
Proof. solve_shard_ok. Qed.
Lemma del_name_ok i k s : shard_ok i s → shard_ok i (del_name k s).
Proof. solve_shard_ok. Qed.
Lemma del_fast_ok i k s : shard_ok i s → shard_ok i (del_fast k s).
Proof. solve_shard_ok. Qed.

#[local] Hint Resolve on_shard_ok put_file_ok put_name_ok put_fast_ok put_dir_ok
  del_file_ok del_name_ok del_fast_ok : inode.

Lemma im_ok_ext im im' : shards im = shards im' → im_ok im → im_ok im'.
Proof. intros He [Hl Hs]. split; [by rewrite <- He|]. intros i s. rewrite <- He. apply Hs. Qed.

Lemma NewInodeMap_shard f i s :
  shards (NewInodeMap f) !! i = Some s →
  s = put_dir "/" InodeRoot empty_shard ∧ i = 0%nat ∨ s = empty_shard.
Proof.
  unfold NewInodeMap. cbn [shards]. intros Hs. destruct (decide (i = 0%nat)) as [->|Hne]; [left; by simplify_eq/=|right].
  rewrite list_lookup_alter_ne in Hs by done. by apply lookup_replicate in Hs as [-> _].
Qed.

Lemma NewInodeMap_ok f : im_ok (NewInodeMap f).
Proof.
  split; [done|]. intros i s [[-> ->] | ->]%NewInodeMap_shard.
  - split; simpl; intros ? ?; rewrite ?lookup_empty; [done..|].
    rewrite lookup_insert_Some, lookup_empty. intros [[<- <-]|[_ ?]]; [|done]. auto.
  - split; simpl; intros ? ?; by rewrite ?lookup_empty.
Qed.

(** *** The maps as seen through their shards *)

Definition name_of (p : string) (im : InodeMap) : option string := nameMap (shard_of p im) !! p.
Definition inode_of (k : string) (im : InodeMap) : option Z := fileMap (shard_of k im) !! k.

Lemma name_of_keep p q f im :
  im_ok im → (∀ s, nameMap (f s) = nameMap s) → name_of p (on_shard q f im) = name_of p im.
Proof. intros Hi Hf. unfold name_of. rewrite shard_of_on_shard by done. case_decide; [by rewrite Hf|done]. Qed.

Lemma inode_of_keep k q f im :
  im_ok im → (∀ s, fileMap (f s) = fileMap s) → inode_of k (on_shard q f im) = inode_of k im.
Proof. intros Hi Hf. unfold inode_of. rewrite shard_of_on_shard by done. case_decide; [by rewrite Hf|done]. Qed.

Lemma name_of_put p q k im :
  im_ok im → name_of p (on_shard q (put_name q k) im) = if decide (p = q) then Some k else name_of p im.
Proof.
  intros Hi. unfold name_of. rewrite shard_of_on_shard by done. case_decide as He; simpl.
  - rewrite lookup_insert. repeat case_decide; congruence.
  - rewrite decide_False; [done|]. by intros ->.
Qed.

Lemma inode_of_put k q v im :
  im_ok im → inode_of k (on_shard q (put_file q v) im) = if decide (k = q) then Some v else inode_of k im.
Proof.
  intros Hi. unfold inode_of. rewrite shard_of_on_shard by done. case_decide as He; simpl.
  - rewrite lookup_insert. repeat case_decide; congruence.
  - rewrite decide_False; [done|]. by intros ->.
Qed.

Lemma name_of_del p q im :
  im_ok im → name_of p (on_shard q (del_name q) im) = if decide (p = q) then None else name_of p im.
Proof.
  intros Hi. unfold name_of. rewrite shard_of_on_shard by done. case_decide as He; simpl.
  - rewrite lookup_delete. repeat case_decide; congruence.
  - rewrite decide_False; [done|]. by intros ->.
Qed.

Lemma inode_of_del k q im :
  im_ok im → inode_of k (on_shard q (del_file q) im) = if decide (k = q) then None else inode_of k im.
Proof.
  intros Hi. unfold inode_of. rewrite shard_of_on_shard by done. case_decide as He; simpl.
  - rewrite lookup_delete. repeat case_decide; congruence.
  - rewrite decide_False; [done|]. by intros ->.
Qed.

Lemma name_of_canonical p k im : im_ok im → name_of p im = Some k → canonical k.
Proof. intros Hi Hn. by eapply so_name in Hn as [_ ?]; [|by apply shard_of_ok]. Qed.

Lemma inode_of_value k v im : im_ok im → inode_of k im = Some v → canonical k ∧ v = file_inode k.
Proof. intros Hi Hn. by eapply so_file in Hn as [_ ?]; [|by apply shard_of_ok]. Qed.

Lemma GetFileInode_views p im : (GetFileInode p im).1 = default 0 (name_of p im ≫= λ k, inode_of k im).
Proof. unfold GetFileInode, name_of, inode_of. by destruct (_ ≫= _). Qed.

(** *** Merging the shards *)

Lemma merged_union {A} now (g : inodeShard → gmap string A) ss :
  merged now g ss = foldl (λ acc s, g s ∪ acc) ∅ ss.
Proof.
  unfold merged. generalize (∅ : gmap string A). induction ss as [|s ss IH]; intros acc; simpl; [done|].
  rewrite (foldl_insert_map _ (g s)) by apply range_order_perm. apply IH.
Qed.

Lemma merged_Some {A} now (g : inodeShard → gmap string A) ss k v :
  merged now g ss !! k = Some v → ∃ s, s ∈ ss ∧ g s !! k = Some v.
Proof.
  rewrite merged_union. intros Hm.
  assert (∀ acc, foldl (λ acc s, g s ∪ acc) acc ss !! k = Some v →
    acc !! k = Some v ∨ ∃ s, s ∈ ss ∧ g s !! k = Some v) as Hgen.
  { clear. induction ss as [|s ss IH]; intros acc; simpl; [by left|].
    intros [Hu|(s' & ? & ?)]%IH; [|right; exists s'; split; [by right|done]].
    apply lookup_union_Some_raw in Hu as [?|[_ ?]]; [right; exists s; split; [by left|done]|by left]. }
  destruct (Hgen ∅ Hm) as [He|?]; [by rewrite lookup_empty in He|done].
Qed.

Lemma merged_is_Some {A} now (g : inodeShard → gmap string A) ss s k :
  s ∈ ss → is_Some (g s !! k) → is_Some (merged now g ss !! k).
Proof.
  rewrite merged_union. intros Hs Hk.
  assert (∀ acc, is_Some (acc !! k) ∨ s ∈ ss → is_Some (foldl (λ acc s, g s ∪ acc) acc ss !! k)) as Hgen; [|auto].
  clear Hs. induction ss as [|s' ss IH]; intros acc; simpl.
  { intros [?|[]%not_elem_of_nil]; done. }
  intros H. apply IH. rewrite elem_of_cons in H. rewrite lookup_union_is_Some. naive_solver.
Qed.

Lemma merged_names now im p : im_ok im → merged now nameMap (shards im) !! p = name_of p im.
Proof.
  intros Hi. destruct (name_of p im) as [k|] eqn:Hn.
  - destruct (merged_is_Some now nameMap (shards im) (shard_of p im) p) as [k' Hk'].
    { eapply list_elem_of_lookup_2. by apply shard_of_lookup. }
    { by eexists. }
    rewrite Hk'. apply merged_Some in Hk' as (s & [i Hs]%list_elem_of_lookup & Hk').
    destruct (so_name _ _ (io_shards _ Hi _ _ Hs) _ _ Hk') as [<- _].
    rewrite shard_of_lookup in Hs by done. unfold name_of in Hn. congruence.
  - destruct (merged now nameMap (shards im) !! p) as [k'|] eqn:Hk'; [|done].
    apply merged_Some in Hk' as (s & [i Hs]%list_elem_of_lookup & Hk').
    destruct (so_name _ _ (io_shards _ Hi _ _ Hs) _ _ Hk') as [<- _].
    rewrite shard_of_lookup in Hs by done. unfold name_of in Hn. congruence.
Qed.

Lemma merged_inodes now im k : im_ok im → merged now fileMap (shards im) !! k = inode_of k im.
Proof.
  intros Hi. destruct (inode_of k im) as [v|] eqn:Hn.
  - destruct (merged_is_Some now fileMap (shards im) (shard_of k im) k) as [v' Hv'].
    { eapply list_elem_of_lookup_2. by apply shard_of_lookup. }
    { by eexists. }
    rewrite Hv'. apply inode_of_value in Hn as [_ ->]; [|done].
    apply merged_Some in Hv' as (s & [i Hs]%list_elem_of_lookup & Hv').
    by destruct (so_file _ _ (io_shards _ Hi _ _ Hs) _ _ Hv') as (_ & _ & ->).
  - destruct (merged now fileMap (shards im) !! k) as [v'|] eqn:Hv'; [|done].
    apply merged_Some in Hv' as (s & [i Hs]%list_elem_of_lookup & Hv').
    destruct (so_file _ _ (io_shards _ Hi _ _ Hs) _ _ Hv') as [<- _].
    rewrite shard_of_lookup in Hs by done. unfold inode_of in Hn. congruence.
Qed.

Lemma merged_dirs_ok now im : im_ok im → dirs_ok (merged now dirMap (shards im)).
Proof.
  intros Hi d v (s & [i Hs]%list_elem_of_lookup & Hv)%merged_Some.
  by destruct (so_dir _ _ (io_shards _ Hi _ _ Hs) _ _ Hv) as [_ ->].
Qed.

Lemma merged_files_ok now im : im_ok im → files_ok (merged now fileMap (shards im)).
Proof. intros Hi k v. rewrite merged_inodes by done. by apply inode_of_value. Qed.

Lemma merged_names_ok now im : im_ok im → names_ok (merged now nameMap (shards im)).
Proof. intros Hi p k. rewrite merged_names by done. by apply name_of_canonical. Qed.

(** *** Documents *)

Lemma decode_table_str (m : gmap string string) : decode_table as_str (JStr <$> m) = Some m.
Proof.
  unfold decode_table. rewrite (proj2 (forallb_forall _ _)).
  - f_equal. apply map_eq. intros k. rewrite lookup_omap, lookup_fmap. by destruct (m !! k).
  - intros [k v] Hin%list_elem_of_In%elem_of_map_to_list. rewrite lookup_fmap in Hin.
    by destruct (m !! k); simplify_eq/=.
Qed.

Lemma Unmarshal_doc_of fs ds ns :
  Unmarshal as_str (doc_of fs ds ns) = Some (MkData 2 (FormatUint <$> fs) (FormatUint <$> ds) ns).
Proof. unfold Unmarshal, doc_of, Marshal. simpl. by rewrite !decode_table_str. Qed.

Lemma omap_ParseUint (m : gmap string Z) :
  (∀ k v, m !! k = Some v → fits_u 64 v) → omap ParseUint (FormatUint <$> m) = m.
Proof.
  intros Hm. apply map_eq. intros k. rewrite lookup_omap, lookup_fmap.
  destruct (m !! k) eqn:Hk; [|done]. simpl. apply ParseUint_FormatUint. eauto.
Qed.

Lemma loadFromJSON_doc now im fs ds ns :
  saved im = Doc (doc_of fs ds ns) → files_ok fs → dirs_ok ds →
  loadFromJSON now im = inr (load_dirs now ds (load_names now ns fs im)).
Proof.
  intros Hs Hf Hd. unfold loadFromJSON. rewrite Hs, Unmarshal_doc_of. simpl.
  rewrite !omap_ParseUint; [done| |].
  - intros k v [_ ->]%Hf. pose proof (file_inode_fits k). split; lia.
  - intros d v ->%Hd. apply generateDirInode_fits.
Qed.

(** *** Loading keeps the invariant *)

Definition same_disk (im im' : InodeMap) : Prop := saved im' = saved im ∧ db im' = db im.

Lemma addLoadedFile_ok p k im : canonical k → im_ok im → im_ok (addLoadedFile p k (file_inode k) im).
Proof. intros. unfold addLoadedFile. eauto 10 with inode. Qed.

Lemma load_names_ok now ns fs im :
  files_ok fs → im_ok im → im_ok (load_names now ns fs im) ∧ same_disk im (load_names now ns fs im).
Proof.
  intros Hf Hi. unfold load_names. apply (foldl_inv (λ im', im_ok im' ∧ same_disk im im')); [done|].
  intros im' [p k] [Hi' Hd] _. simpl. destruct (fs !! k) as [v|] eqn:Hk; [|done].
  apply Hf in Hk as [Hc ->]. split; [by apply addLoadedFile_ok|done].
Qed.

Lemma load_dirs_ok now ds im :
  dirs_ok ds → im_ok im → im_ok (load_dirs now ds im) ∧ same_disk im (load_dirs now ds im).
Proof.
  intros Hf Hi. unfold load_dirs. apply (foldl_inv (λ im', im_ok im' ∧ same_disk im im')); [done|].
  intros im' [d v] [Hi' Hd] Hin. rewrite range_order_perm in Hin. apply elem_of_map_to_list in Hin.
  apply Hf in Hin as ->. split; [|done]. unfold addLoadedDir. simpl. eauto with inode.
Qed.

(** The key and the inode a row stands for. *)
Lemma row_ok_file r :
  row_ok r → r_type r = TFile →
  ∃ k, canonical k ∧ file_key (Infohash (scan_row r)) (FileIdx (scan_row r)) = k ∧
       InodeValue (scan_row r) = file_inode k.
Proof.
  intros [_ Hr] Ht. rewrite Ht in Hr. destruct Hr as (h & i & Hh & Hi & _ & Hc & Hf & Hv).
  exists (file_key h i). simpl. rewrite Hh, Hi, Hv. split_and!; [by exists h, i|done|].
  apply wrap_u_wrap_s; [done|]. pose proof (file_inode_fits (file_key h i)). split; lia.
Qed.

Lemma load_entry_ok r im :
  row_ok r → im_ok im → im_ok (load_entry im (scan_row r)) ∧ same_disk im (load_entry im (scan_row r)).
Proof.
  intros Hr Hi. split; [|unfold load_entry; by destruct (Type_ _)].
  unfold load_entry. destruct (r_type r) eqn:Ht; simpl; rewrite Ht.
  - destruct (row_ok_file r Hr Ht) as (k & Hk & He & Hv). simpl in He, Hv. rewrite He, Hv. eauto 10 with inode.
  - destruct Hr as [_ Hr]. rewrite Ht in Hr. destruct Hr as [-> ->]. simpl.
    rewrite wrap_u_wrap_s by (done || apply generateDirInode_fits). eauto with inode.
Qed.

Lemma loadFromDB_ok now t im :
  Forall row_ok t → im_ok im → im_ok (loadFromDB now t im) ∧ same_disk im (loadFromDB now t im).
Proof.
  intros Ht Hi. unfold loadFromDB, LoadAll. apply (foldl_inv (λ im', im_ok im' ∧ same_disk im im')); [done|].
  intros im' e [Hi' Hd] (r & -> & Hr)%list_elem_of_fmap. rewrite range_order_perm in Hr.
  destruct (load_entry_ok r im') as [? [? ?]]; [by eapply Forall_forall in Ht|done|].
  split; [done|]. unfold same_disk in *. intuition congruence.
Qed.

Lemma loadFromJSON_ok now im :
  im_ok im → file_ok (saved im) →
  ∃ im', loadFromJSON now im = inr im' ∧ im_ok im' ∧ same_disk im im'.
Proof.
  intros Hi Hf. destruct (saved im) as [| | |d] eqn:Hs; [|done..|].
  { exists im. unfold loadFromJSON. by rewrite Hs. }
  destruct Hf as (fs & ds & ns & -> & Hfs & Hds & Hns). erewrite loadFromJSON_doc by done.
  destruct (load_names_ok now ns fs im Hfs Hi) as [Hi1 [? ?]].
  destruct (load_dirs_ok now ds _ Hds Hi1) as [Hi2 [? ?]].
  eexists. split_and!; [done|done|]. unfold same_disk. intuition congruence.
Qed.

Lemma restart_inv now im : im_inv im → ∃ im', restart now im = inr im' ∧ im_inv im'.
Proof.
  intros (Hi & Hf & Ht). unfold restart, InitGlobalInodeMap, LoadFromDisk. simpl.
  destruct (loadFromJSON_ok now (NewInodeMap (saved im)) (NewInodeMap_ok _)) as (im1 & -> & Hi1 & [Hs1 Hd1]); [done|].
  destruct (db im) as [t|]; simpl in *.
  - destruct (loadFromDB_ok now t (SetDB t im1) Ht) as [Hi2 [Hs2 Hd2]]; [by apply (im_ok_ext im1)|].
    eexists. split; [done|]. split; [done|]. rewrite Hs2, Hd2. simpl. by rewrite Hs1.
  - eexists. split; [done|]. split; [done|]. by rewrite Hs1, Hd1.
Qed.

(** *** Saving keeps the invariant *)

Lemma insert_or_replace_ok r t : row_ok r → Forall row_ok t → Forall row_ok (insert_or_replace r t).
Proof.
  intros Hr Ht. unfold insert_or_replace. apply Forall_app. split; [|by constructor].
  rewrite Forall_forall in *. intros r' [_ ?]%list_elem_of_filter. auto.
Qed.

(** The row [saveToDB] writes for a key. *)
Definition file_row (kp : gmap string string) (h : string) (i : Z) : inode_row :=
  let p := default "" (kp !! file_key h i) in
  MkRow TFile (Some h) (Some i) p None (Some (pathBase p)) (int64 (file_inode (file_key h i))).

Lemma save_file_row kp t h i :
  has_char colon h = false → fits_s 64 i →
  save_file kp t (file_key h i, file_inode (file_key h i)) = insert_or_replace (file_row kp h i) t.
Proof.
  intros Hh Hi. unfold save_file, file_key. cbn [fst snd]. rewrite split_colon_key by done. cbn iota beta.
  by rewrite Atoi_pretty.
Qed.

Lemma file_row_ok kp h i : has_char colon h = false → fits_s 64 i → row_ok (file_row kp h i).
Proof. intros. split; [done|]. by exists h, i. Qed.

Lemma save_shard_ok now kp t i s : shard_ok i s → Forall row_ok t → Forall row_ok (save_shard now kp t s).
Proof.
  intros Hs Ht. unfold save_shard. apply (foldl_inv (Forall row_ok)); [apply (foldl_inv (Forall row_ok)); [done|]|].
  - intros t' [k v] Ht' Hin. rewrite range_order_perm in Hin. apply elem_of_map_to_list in Hin.
    apply (so_file _ _ Hs) in Hin as (_ & (h & j & -> & ? & ?) & ->). rewrite save_file_row by done.
    apply insert_or_replace_ok; [by apply file_row_ok|done].
  - intros t' [d v] Ht' Hin. rewrite range_order_perm in Hin. apply elem_of_map_to_list in Hin.
    apply (so_dir _ _ Hs) in Hin as [_ ->]. by apply insert_or_replace_ok.
Qed.

Lemma saved_rows_ok now im : im_ok im → Forall row_ok (saved_rows now im).
Proof.
  intros Hi. unfold saved_rows. apply (foldl_inv (Forall row_ok)); [done|].
  intros t s Ht [i Hs]%list_elem_of_lookup. eapply save_shard_ok; [by eapply io_shards|done].
Qed.

Lemma SaveToDisk_inv now io im : im_inv im → im_inv (SaveToDisk now io im).2.
Proof.
  intros (Hi & Hf & Ht). unfold SaveToDisk, saveToDB, saveToJSON.
  destruct (db im) as [t|] eqn:Hd, io; simpl; try (split_and!; by rewrite ?Hd).
  - split_and!; [by apply (im_ok_ext im)|done|]. simpl. by apply saved_rows_ok.
  - split_and!; [by apply (im_ok_ext im)| |by simpl; rewrite Hd]. simpl.
    exists (merged now fileMap (shards im)), (merged now dirMap (shards im)), (merged now nameMap (shards im)).
    split_and!; [done|by apply merged_files_ok|by apply merged_dirs_ok|by apply merged_names_ok].
Qed.

(** *** The operations keep the invariant *)

Lemma setDirty_ok b im : im_ok im → im_ok (setDirty b im).
Proof. by apply im_ok_ext. Qed.
Lemma SetDB_ok t im : im_ok im → im_ok (SetDB t im).
Proof. by apply im_ok_ext. Qed.
Lemma count_hit_ok im : im_ok im → im_ok (count_hit im).
Proof. by apply im_ok_ext. Qed.
Lemma count_miss_ok im : im_ok im → im_ok (count_miss im).
Proof. by apply im_ok_ext. Qed.
#[local] Hint Resolve setDirty_ok SetDB_ok count_hit_ok count_miss_ok : inode.

Lemma im_inv_shards im im' :
  im_ok im' → same_disk im im' → im_inv im → im_inv im'.
Proof. intros Hi [Hs Hd] (_ & ? & ?). split_and!; [done|by rewrite Hs|by rewrite Hd]. Qed.

Lemma AddFile_ok p h i im :
  has_char colon h = false → fits_s 64 i → im_ok im → im_ok (AddFile p h i im).2.
Proof.
  intros Hh Hi Hok. unfold AddFile. destruct (bool_decide (h = "")); [done|].
  destruct (bool_decide (_ = Some _)); [done|]. cbn [snd].
  assert (canonical (file_key (ToLower h) i)) by (eexists _, _; by split_and!; [|apply ToLower_no_colon|]).
  change (generateFileInode h i) with (file_inode (file_key (ToLower h) i)). eauto 10 with inode.
Qed.

Lemma AddDir_ok d im : im_ok im → im_ok (AddDir d im).2 ∧ (AddDir d im).1 = generateDirInode d.
Proof.
  intros Hi. unfold AddDir. destruct (dirMap _ !! d); [done|]. cbn [fst snd]. split; [|done].
  eauto with inode.
Qed.

Lemma RemoveFile_ok p im : im_ok im → im_ok (RemoveFile p im).
Proof.
  intros Hi. unfold RemoveFile. destruct (nameMap _ !! p) as [k|]; [|done].
  destruct (bool_decide _); eauto 10 with inode.
Qed.

Lemma RemoveFile_disk p im : same_disk im (RemoveFile p im).
Proof. unfold RemoveFile. destruct (nameMap _ !! p); [|done]. by destruct (bool_decide _). Qed.

Lemma RemoveFiles_ok l im :
  im_ok im → im_ok (foldl (λ im p, RemoveFile p im) im l) ∧ same_disk im (foldl (λ im p, RemoveFile p im) im l).
Proof.
  intros Hi. apply (foldl_inv (λ im', im_ok im' ∧ same_disk im im')); [done|].
  intros im' p [Hi' [? ?]] _. destruct (RemoveFile_disk p im'). split; [by apply RemoveFile_ok|].
  unfold same_disk. intuition congruence.
Qed.

Lemma PruneMissing_inv now found im : im_inv im → im_inv (PruneMissing now found im).2.
Proof.
  intros Hinv. destruct Hinv as (Hi & Hf & Ht) eqn:Heq. clear Heq. unfold PruneMissing.
  destruct (RemoveFiles_ok (missing now found im) im Hi) as [Hi' Hd].
  pose proof (im_inv_shards _ _ Hi' Hd (conj Hi (conj Hf Ht))) as Hinv'. destruct Hd as [_ Hd].
  destruct (bool_decide (missing now found im = [])); cbn [snd].
  - by destruct (db (foldl _ _ _)).
  - destruct (db (foldl _ _ _)) as [t|] eqn:Hdb; cbn [snd].
    + destruct Hinv' as (_ & Hf' & Ht'). split_and!; [by eauto with inode|done|].
      simpl. unfold DB_PruneMissing. rewrite Hdb in Ht'. simpl in Ht'. destruct (bool_decide _); [done|]. simpl.
      rewrite Forall_forall in *. intros r [_ ?]%list_elem_of_filter. auto.
    + destruct Hinv' as (_ & Hf' & Ht'). split_and!; [by eauto with inode|done|done].
Qed.

Lemma addFileToInodeMap_inv p url v im im' :
  im_inv im → addFileToInodeMap p url (Some im) = (v, Some im') → im_inv im'.
Proof.
  intros Hinv. unfold addFileToInodeMap. destruct (ExtractHashAndIndex url) as [h i] eqn:He.
  destruct (bool_decide (h = "")); [by intros; simplify_eq|].
  destruct (AddFile p h i im) as [w im1] eqn:Ha. intros; simplify_eq.
  apply ExtractHashAndIndex_ok in He as [Hh Hi]. pose proof (AddFile_ok p h i im Hh Hi (proj1 Hinv)) as Hok.
  rewrite Ha in Hok. eapply im_inv_shards; [exact Hok| |done].
  revert Ha. unfold AddFile. repeat case_if; intros; simplify_eq; done.
Qed.

(** What the process does with the map, restarts included. *)
Inductive im_step (im : InodeMap) : InodeMap → Prop :=
| st_add p url v im' : addFileToInodeMap p url (Some im) = (v, Some im') → im_step im im'
| st_add_dir d : im_step im (AddDir d im).2
| st_get_dir d : im_step im (GetDirInode d im).2
| st_get_file p : im_step im (GetFileInode p im).2
| st_get_name p : im_step im (GetFileInodeByName p im).2
| st_remove p : im_step im (RemoveFile p im)
| st_prune now found : im_step im (PruneMissing now found im).2
| st_save now io : im_step im (SaveToDisk now io im).2
| st_saver now io : im_step im (save_if_dirty now io im)
| st_enable_db : db im = None → im_step im (SetDB [] im)
| st_restart now im' : restart now im = inr im' → im_step im im'.

Definition im_reachable (im : InodeMap) : Prop := rtc im_step (NewInodeMap NoFile) im.

Lemma GetDirInode_value d im : im_ok im → im_ok (GetDirInode d im).2 ∧ (GetDirInode d im).1 = generateDirInode d.
Proof.
  intros Hi. unfold GetDirInode, generateDirInode. destruct (bool_decide (d = "/") || bool_decide (d = "")) eqn:Hr; [done|].
  destruct (dirMap (shard_of d im) !! d) as [v|] eqn:Hd.
  - apply (so_dir _ _ (shard_of_ok d im Hi)) in Hd as [_ ->]. unfold generateDirInode. by rewrite Hr.
  - destruct (AddDir_ok d im Hi) as [? ->]. unfold generateDirInode. by rewrite Hr.
Qed.

Lemma im_step_inv im im' : im_inv im → im_step im im' → im_inv im'.
Proof.
  intros Hinv Hs. pose proof (proj1 Hinv) as Hi. destruct Hs as [p url v im' Ha|d|d|p|p|p|now found|now io|now io|Hdb|now im' Hr].
  - by eapply addFileToInodeMap_inv.
  - eapply im_inv_shards; [by apply AddDir_ok| |done]. unfold AddDir. by destruct (dirMap _ !! d).
  - eapply im_inv_shards; [by apply GetDirInode_value| |done]. unfold GetDirInode, AddDir.
    case_if; [done|]. by destruct (dirMap _ !! d).
  - unfold GetFileInode. destruct (_ ≫= _); cbn [snd]; (apply (im_inv_shards im); [by eauto with inode|done|done]).
  - unfold GetFileInodeByName. destruct (_ !! _); cbn [snd]; (apply (im_inv_shards im); [by eauto with inode|done|done]).
  - eapply im_inv_shards; [by apply RemoveFile_ok|apply RemoveFile_disk|done].
  - by apply PruneMissing_inv.
  - by apply SaveToDisk_inv.
  - unfold save_if_dirty. destruct (IsDirty im); [by apply SaveToDisk_inv|done].
  - destruct Hinv as (_ & Hf & _). split_and!; [by eauto with inode|done|by constructor].
  - destruct (restart_inv now im Hinv) as (im1 & Hr1 & ?). congruence.
Qed.

Lemma im_reachable_inv im : im_reachable im → im_inv im.
Proof.
  revert im. apply (rtc_ind_r im_inv); [|intros; by eapply im_step_inv].
  split_and!; [apply NewInodeMap_ok|done|done].
Qed.

(** Inodes are stable. Whatever files and directories were added, removed,
    pruned, saved (successfully or not) and reloaded before, a path that
    resolves has the inode of its content, the hash of its key without the top
    bit, every directory has the inode of its path, and a restart finds a file
    or a table it can load. *)
Theorem inodes_determined_by_content im :
  im_reachable im →
  (∀ p, (GetFileInode p im).1 = 0 ∨
        ∃ h i, name_of p im = Some (file_key h i) ∧
               (GetFileInode p im).1 = Z.land (Sum64String (file_key h i)) InodeFileMask ∧
               0 ≤ (GetFileInode p im).1 < 2 ^ 63) ∧
  (∀ d, (GetDirInode d im).1 = generateDirInode d) ∧
  (∀ now, ∃ im', restart now im = inr im').
Proof.
  intros Hinv%im_reachable_inv. pose proof (proj1 Hinv) as Hi. split_and!.
  - intros p. rewrite GetFileInode_views. destruct (name_of p im) as [k|] eqn:Hn; [|by left]. simpl.
    destruct (inode_of k im) as [v|] eqn:Hv; [right|by left].
    apply inode_of_value in Hv as [(h & i & -> & _) ->]; [|done]. exists h, i.
    pose proof (file_inode_fits (file_key h i)). simpl. split_and!; first [done | lia].
  - intros d. by apply GetDirInode_value.
  - intros now. destruct (restart_inv now im Hinv) as (im' & ? & _). eauto.
Qed.

(** *** What a load finds *)

(** A loading loop: each of its items adds one name with its key and inode, or
    touches neither the names nor the inodes. *)
Section load_loop.
Context {X : Type} (f : InodeMap → X → InodeMap) (good : X → Prop) (act : X → option (string * string)).

Hypothesis load_ok : ∀ im x, good x → im_ok im → im_ok (f im x).
Hypothesis load_name_of : ∀ im x q, good x → im_ok im →
  name_of q (f im x) = match act x with Some (p, k) => if decide (q = p) then Some k else name_of q im | None => name_of q im end.
Hypothesis load_inode_of : ∀ im x q, good x → im_ok im →
  inode_of q (f im x) =
    match act x with Some (p, k) => if decide (q = k) then Some (file_inode k) else inode_of q im | None => inode_of q im end.

Lemma loop_other l im p :
  Forall good l → im_ok im → (∀ x k, x ∈ l → act x ≠ Some (p, k)) → name_of p (foldl f im l) = name_of p im.
Proof using load_ok load_name_of.
  intros Hg. revert im. induction Hg as [|x l Hx Hg IH]; intros im Hi Hp; simpl; [done|].
  rewrite IH; [|by apply load_ok|intros y k ?; apply Hp; by right].
  rewrite load_name_of by done. destruct (act x) as [[q k]|] eqn:Ha; [|done].
  rewrite decide_False; [done|]. intros ->. by destruct (Hp x k); [left|].
Qed.

Lemma loop_keeps l im k :
  Forall good l → im_ok im → inode_of k im = Some (file_inode k) → inode_of k (foldl f im l) = Some (file_inode k).
Proof using load_ok load_inode_of.
  intros Hg. revert im. induction Hg as [|x l Hx Hg IH]; intros im Hi Hk; simpl; [done|].
  apply IH; [by apply load_ok|]. rewrite load_inode_of by done.
  destruct (act x) as [[q k']|]; [|done]. case_decide; [by subst|done].
Qed.

Lemma loop_found l im x p k :
  Forall good l → im_ok im → x ∈ l → act x = Some (p, k) →
  (∀ y k', y ∈ l → act y = Some (p, k') → k' = k) →
  name_of p (foldl f im l) = Some k ∧ inode_of k (foldl f im l) = Some (file_inode k).
Proof using load_ok load_name_of load_inode_of.
  intros Hg. revert im x. induction Hg as [|y l Hy Hg IH]; intros im x Hi Hin Ha Hu; [by apply not_elem_of_nil in Hin|].
  simpl. assert (∀ z k', z ∈ l → act z = Some (p, k') → k' = k) as Hu' by (intros z k' ?; apply Hu; by right).
  destruct (decide (Exists (λ z, act z = Some (p, k)) l)) as [(z & Hz & Hp)%Exists_exists|Hne].
  { apply (IH _ z); [by apply load_ok|done..]. }
  assert (∀ z k', z ∈ l → act z ≠ Some (p, k')) as Hno.
  { intros z k' Hz Hz'. destruct Hne. apply Exists_exists. exists z.
    assert (k' = k) as -> by eauto. done. }
  apply elem_of_cons in Hin as [->|Hin]; [|by destruct (Hno x k)].
  rewrite loop_other by (done || by apply load_ok). rewrite load_name_of, Ha, decide_True by done. split; [done|].
  apply loop_keeps; [done|by apply load_ok|]. by rewrite load_inode_of, Ha, decide_True.
Qed.
End load_loop.

(** Names of a document: only those with an inode are added. *)
Definition load_name (fs : gmap string Z) (im : InodeMap) (pk : string * string) : InodeMap :=
  match fs !! pk.2 with Some inode => addLoadedFile pk.1 pk.2 inode im | None => im end.
Definition name_act (fs : gmap string Z) (pk : string * string) : option (string * string) :=
  match fs !! pk.2 with Some _ => Some pk | None => None end.

Lemma add_loaded_views b p k q k' im :
  im_ok im → canonical k →
  let im' := on_shard b (put_fast b (file_inode k)) (on_shard k (put_file k (file_inode k)) (on_shard p (put_name p k) im)) in
  name_of q im' = (if decide (q = p) then Some k else name_of q im) ∧
  inode_of k' im' = (if decide (k' = k) then Some (file_inode k) else inode_of k' im).
Proof.
  intros Hi Hk. cbv zeta.
  rewrite !name_of_keep, name_of_put by eauto 10 with inode.
  rewrite inode_of_keep, inode_of_put, inode_of_keep by eauto 10 with inode. done.
Qed.

Lemma load_name_ok fs im pk : files_ok fs → im_ok im → im_ok (load_name fs im pk).
Proof.
  intros Hf Hi. unfold load_name. destruct (fs !! pk.2) eqn:Hk; [|done].
  apply Hf in Hk as [? ->]. by apply addLoadedFile_ok.
Qed.

Lemma load_name_views fs im pk q k' :
  files_ok fs → im_ok im →
  name_of q (load_name fs im pk) =
    match name_act fs pk with Some (p, k) => if decide (q = p) then Some k else name_of q im | None => name_of q im end ∧
  inode_of k' (load_name fs im pk) =
    match name_act fs pk with Some (p, k) => if decide (k' = k) then Some (file_inode k) else inode_of k' im | None => inode_of k' im end.
Proof.
  intros Hf Hi. destruct pk as [p k]. unfold load_name, name_act. simpl. destruct (fs !! k) eqn:Hk; [|done].
  apply Hf in Hk as [Hc ->]. by apply add_loaded_views.
Qed.

Lemma load_dirs_views now ds im p k :
  dirs_ok ds → im_ok im →
  name_of p (load_dirs now ds im) = name_of p im ∧ inode_of k (load_dirs now ds im) = inode_of k im.
Proof.
  intros Hd Hi.
  apply (foldl_inv (λ im', im_ok im' ∧ name_of p im' = name_of p im ∧ inode_of k im' = inode_of k im)); [done|].
  intros im' [d v] (Hi' & Hn & Hk) Hin. rewrite range_order_perm in Hin. apply elem_of_map_to_list in Hin.
  apply Hd in Hin as ->. unfold addLoadedDir. simpl.
  rewrite name_of_keep, inode_of_keep by done. eauto with inode.
Qed.

Lemma NewInodeMap_views f p k : name_of p (NewInodeMap f) = None ∧ inode_of k (NewInodeMap f) = None.
Proof.
  pose proof (NewInodeMap_shard f _ _ (shard_of_lookup p _ (NewInodeMap_ok f))) as Hp.
  pose proof (NewInodeMap_shard f _ _ (shard_of_lookup k _ (NewInodeMap_ok f))) as Hk.
  unfold name_of, inode_of. split; [destruct Hp as [[-> _] | ->]|destruct Hk as [[-> _] | ->]]; apply lookup_empty.
Qed.

(** The names and inodes of a document, as a fresh map finds them. *)
Lemma load_doc_views now fs ds ns f :
  files_ok fs → dirs_ok ds →
  ∀ p, (GetFileInode p (load_dirs now ds (load_names now ns fs (NewInodeMap f)))).1 =
       default 0 (ns !! p ≫= λ k, fs !! k).
Proof.
  intros Hf Hd p. destruct (load_names_ok now ns fs _ Hf (NewInodeMap_ok f)) as [Hi _].
  rewrite GetFileInode_views. rewrite (proj1 (load_dirs_views now ds _ p "" Hd Hi)).
  set (l := range_order now (map_to_list ns)).
  change (load_names now ns fs (NewInodeMap f)) with (foldl (load_name fs) (NewInodeMap f) l) in *.
  assert (∀ k, (p, k) ∈ l ↔ ns !! p = Some k) as Hl.
  { intros k. unfold l. rewrite range_order_perm. apply elem_of_map_to_list. }
  assert (Forall (λ _, True) l) as Hg by (by apply Forall_forall).
  assert (∀ im pk, True → im_ok im → im_ok (load_name fs im pk)) as Hok by (intros; by apply load_name_ok).
  destruct (ns !! p ≫= λ k, fs !! k) as [v|] eqn:Hv; simpl.
  - destruct (ns !! p) as [k|] eqn:Hp; [|done]. simpl in Hv. destruct (Hf _ _ Hv) as [_ ->].
    destruct (loop_found (load_name fs) (λ _, True) (name_act fs) Hok) with l (NewInodeMap f) (p, k) p k as [-> Hk];
      [intros; by apply load_name_views..|done|apply NewInodeMap_ok|by apply Hl|unfold name_act; simpl; by rewrite Hv| |].
    { intros [p' k'] k'' Hin. unfold name_act. simpl. destruct (fs !! k'); [|done].
      intros [= -> ->]. apply Hl in Hin. congruence. }
    simpl. by rewrite (proj2 (load_dirs_views now ds _ "" k Hd Hi)), Hk.
  - rewrite (loop_other (load_name fs) (λ _, True) (name_act fs));
      [by rewrite (proj1 (NewInodeMap_views f p ""))|done|intros; by apply (load_name_views _ _ _ _ "")|done|apply NewInodeMap_ok|].
    intros [p' k'] k'' Hin. unfold name_act. simpl. destruct (fs !! k') eqn:Hk; [|done].
    intros [= -> ->]. apply Hl in Hin. by rewrite Hin in Hv; simpl in Hv; rewrite Hk in Hv.
Qed.


(** *** What the table holds after a save *)

Definition row_key (r : inode_row) : string := file_key (default "" (r_infohash r)) (default 0 (r_file_idx r)).
Definition row_act (r : inode_row) : option (string * string) :=
  match r_type r with TFile => Some (r_full_path r, row_key r) | TDir => None end.
Definition load_row (im : InodeMap) (r : inode_row) : InodeMap := load_entry im (scan_row r).

Lemma load_row_views im r q k' :
  row_ok r → im_ok im →
  name_of q (load_row im r) =
    match row_act r with Some (p, k) => if decide (q = p) then Some k else name_of q im | None => name_of q im end ∧
  inode_of k' (load_row im r) =
    match row_act r with Some (p, k) => if decide (k' = k) then Some (file_inode k) else inode_of k' im | None => inode_of k' im end.
Proof.
  intros Hr Hi. unfold load_row, load_entry, row_act. destruct (r_type r) eqn:Ht; simpl; rewrite Ht.
  - destruct (row_ok_file r Hr Ht) as (k & Hk & He & Hv). simpl in He, Hv.
    change (file_key _ _) with (row_key r) in He. rewrite Hv.
    change (file_key _ _) with (row_key r). rewrite He. by apply add_loaded_views.
  - by rewrite name_of_keep, inode_of_keep.
Qed.

Lemma loadFromDB_rows now t im : loadFromDB now t im = foldl load_row im (range_order now t).
Proof.
  unfold loadFromDB, LoadAll. generalize (range_order now t). intros l. revert im.
  induction l as [|r l IH]; intros im; simpl; [done|]. apply IH.
Qed.

Lemma key_to_path_sound now ns k p : key_to_path now ns !! k = Some p → ns !! p = Some k.
Proof.
  revert k p. unfold key_to_path. apply (foldl_inv (λ acc : gmap string string, ∀ k p, acc !! k = Some p → ns !! p = Some k)).
  - intros k p. by rewrite lookup_empty.
  - intros acc [p k] IH Hin k' p'. rewrite range_order_perm in Hin. apply elem_of_map_to_list in Hin.
    simpl. rewrite lookup_insert_Some. naive_solver.
Qed.

Lemma key_to_path_complete now ns k p : ns !! p = Some k → is_Some (key_to_path now ns !! k).
Proof.
  intros Hp. unfold key_to_path.
  apply (foldl_reach (λ acc : gmap string string, is_Some (acc !! k)) _ _ _ (p, k)).
  - rewrite range_order_perm. by apply elem_of_map_to_list.
  - intros acc. simpl. rewrite lookup_insert_eq. by eexists.
  - intros acc [p' k'] ? _. simpl. rewrite lookup_insert_is_Some'. by right.
Qed.

(** Full paths are unique in the table. *)
Definition paths_unique (t : list inode_row) : Prop :=
  ∀ r r', r ∈ t → r' ∈ t → r_full_path r = r_full_path r' → r = r'.

Lemma elem_of_insert_or_replace r r' t :
  r' ∈ insert_or_replace r t ↔ r' = r ∨ (r' ∈ t ∧ conflict r r' = false).
Proof. unfold insert_or_replace. rewrite elem_of_app, list_elem_of_filter, list_elem_of_singleton. tauto. Qed.

Lemma conflict_path r r' : conflict r r' = false → r_full_path r ≠ r_full_path r'.
Proof. unfold conflict. intros [H _]%orb_false_iff. by apply bool_decide_eq_false in H. Qed.

Lemma insert_or_replace_unique r t : paths_unique t → paths_unique (insert_or_replace r t).
Proof.
  intros Hu r1 r2 [->|[H1 Hc1]]%elem_of_insert_or_replace [->|[H2 Hc2]]%elem_of_insert_or_replace Hp; [done| | |by apply Hu].
  - by apply conflict_path in Hc2.
  - by apply conflict_path in Hc1.
Qed.

(** The rows come from the maps: a file row is the one of a key with an inode. *)
Definition rows_from (kp : gmap string string) (im : InodeMap) (t : list inode_row) : Prop :=
  paths_unique t ∧
  ∀ r, r ∈ t → r_type r = TFile → ∃ h i, r = file_row kp h i ∧ is_Some (inode_of (file_key h i) im).

Lemma insert_from kp im r t :
  (r_type r = TFile → ∃ h i, r = file_row kp h i ∧ is_Some (inode_of (file_key h i) im)) →
  rows_from kp im t → rows_from kp im (insert_or_replace r t).
Proof.
  intros Hr [Hu Hf]. split; [by apply insert_or_replace_unique|].
  intros r' [->|[Hin _]]%elem_of_insert_or_replace; auto.
Qed.

Lemma in_shard_inode im i s k v :
  im_ok im → shards im !! i = Some s → fileMap s !! k = Some v → inode_of k im = Some v ∧ canonical k ∧ v = file_inode k.
Proof.
  intros Hi Hs Hk. destruct (so_file _ _ (io_shards _ Hi _ _ Hs) _ _ Hk) as (<- & Hc & Hv).
  rewrite shard_of_lookup in Hs by done. simplify_eq. done.
Qed.

Lemma saved_rows_from now im :
  im_ok im → rows_from (key_to_path now (merged now nameMap (shards im))) im (saved_rows now im).
Proof.
  intros Hi. unfold saved_rows. set (kp := key_to_path _ _).
  apply (foldl_inv (rows_from kp im)); [split; [|]; intros r; set_solver|].
  intros t s Ht [i Hs]%list_elem_of_lookup. unfold save_shard.
  apply (foldl_inv (rows_from kp im)); [apply (foldl_inv (rows_from kp im)); [done|]|].
  - intros t' [k v] Ht' Hin. rewrite range_order_perm in Hin. apply elem_of_map_to_list in Hin.
    destruct (in_shard_inode im i s k v Hi Hs Hin) as (Hk & (h & j & -> & ? & ?) & ->).
    rewrite save_file_row by done. apply insert_from; [|done]. intros _. exists h, j. by rewrite Hk.
  - intros t' [d v] Ht' _. by apply insert_from.
Qed.

(** The row of a key survives when no other row has its path. *)
Lemma saved_rows_complete now im h i p :
  let kp := key_to_path now (merged now nameMap (shards im)) in
  im_ok im → has_char colon h = false → fits_s 64 i → p ≠ "" →
  is_Some (inode_of (file_key h i) im) → kp !! file_key h i = Some p →
  (∀ s, s ∈ shards im → dirMap s !! p = None) → file_row kp h i ∈ saved_rows now im.
Proof.
  intros kp Hi Hh Hr Hp [v Hv] Hkp Hdir. unfold saved_rows. fold kp.
  assert (r_full_path (file_row kp h i) = p) as Hpath by (simpl; by rewrite Hkp).
  assert (∀ i' s t kv, shards im !! i' = Some s → kv ∈ range_order now (map_to_list (fileMap s)) →
    file_row kp h i ∈ t ∨ kv.1 = file_key h i → file_row kp h i ∈ save_file kp t kv) as Hfile.
  { intros i' s t [k v'] Hs Hin Ht. rewrite range_order_perm in Hin. apply elem_of_map_to_list in Hin.
    destruct (in_shard_inode im i' s k v' Hi Hs Hin) as (Hk & (h' & j & -> & ? & ?) & ->).
    rewrite save_file_row by done. apply elem_of_insert_or_replace.
    destruct (decide (file_key h' j = file_key h i)) as [[-> ->]%colon_key_inj|Hne]; [by left|].
    destruct Ht as [Ht|Ht]; [right; split; [done|]|done]. unfold conflict. rewrite Hpath.
    simpl. rewrite orb_false_r. apply bool_decide_eq_false. intros Heq.
    destruct (kp !! file_key h' j) as [p'|] eqn:Hkp'; [simpl in Heq; subst p'|done].
    apply key_to_path_sound in Hkp, Hkp'. congruence. }
  assert (∀ s t, s ∈ shards im → file_row kp h i ∈ t → file_row kp h i ∈
    foldl save_dir t (range_order now (map_to_list (dirMap s)))) as Hdirs.
  { intros s t Hs Ht. apply (foldl_inv (λ t, file_row kp h i ∈ t)); [done|].
    intros t' [d v'] Ht' Hin. rewrite range_order_perm in Hin. apply elem_of_map_to_list in Hin.
    apply elem_of_insert_or_replace. right. split; [done|]. unfold conflict. rewrite Hpath. simpl.
    rewrite orb_false_r. apply bool_decide_eq_false. intros ->. specialize (Hdir s Hs). congruence. }
  apply (foldl_reach (λ t, file_row kp h i ∈ t) _ _ _ (shard_of (file_key h i) im)).
  - eapply list_elem_of_lookup_2. by apply shard_of_lookup.
  - intros t. apply Hdirs; [eapply list_elem_of_lookup_2; by apply shard_of_lookup|].
    apply (foldl_reach (λ t, file_row kp h i ∈ t) _ _ _ (file_key h i, v)).
    + rewrite range_order_perm. by apply elem_of_map_to_list.
    + intros t'. eapply Hfile; [by apply shard_of_lookup| |by right]. rewrite range_order_perm. by apply elem_of_map_to_list.
    + intros t' kv Ht' Hin. eapply Hfile; [by apply shard_of_lookup|done|by left].
  - intros t s Ht Hs. apply Hdirs; [done|]. apply list_elem_of_lookup in Hs as [i' Hs].
    apply (foldl_inv (λ t, file_row kp h i ∈ t)); [done|]. intros t' kv Ht' Hin. eapply Hfile; [done|done|by left].
Qed.

(** A fresh map that loads a table resolves exactly the paths of its file rows. *)
Lemma load_table_views now t im p :
  Forall row_ok t → paths_unique t → im_ok im → (∀ q, name_of q im = None) →
  (∀ r, r ∈ t → r_type r = TFile → r_full_path r = p →
    name_of p (loadFromDB now t im) = Some (row_key r) ∧
    inode_of (row_key r) (loadFromDB now t im) = Some (file_inode (row_key r))) ∧
  (∀ k, name_of p (loadFromDB now t im) = Some k → ∃ r, r ∈ t ∧ r_type r = TFile ∧ r_full_path r = p ∧ row_key r = k).
Proof.
  intros Ht Hu Hi Hnew. rewrite loadFromDB_rows. set (l := range_order now t).
  assert (∀ r, r ∈ l ↔ r ∈ t) as Hl by (intros r; unfold l; by rewrite range_order_perm).
  assert (Forall row_ok l) as Hg by (unfold l; by rewrite range_order_perm).
  assert (∀ im r, row_ok r → im_ok im → im_ok (load_row im r)) as Hok by (intros; by apply load_entry_ok).
  assert (∀ r, r ∈ t → r_type r = TFile → r_full_path r = p →
    name_of p (foldl load_row im l) = Some (row_key r) ∧
    inode_of (row_key r) (foldl load_row im l) = Some (file_inode (row_key r))) as Hfound.
  { intros r Hr Hty Hp. apply (loop_found load_row row_ok row_act) with r;
      [done|intros; by apply (load_row_views _ _ _ "")|intros; by apply (load_row_views _ _ "")|done|done|by apply Hl| |].
    - unfold row_act. by rewrite Hty, Hp.
    - intros r' k' Hr'%Hl. unfold row_act. destruct (r_type r'); [|done]. intros [= Hp' <-].
      by rewrite (Hu r' r) by congruence. }
  split; [done|]. intros k Hk.
  destruct (decide (Exists (λ r, r_type r = TFile ∧ r_full_path r = p) t)) as [(r & Hr & Hty & Hp)%Exists_exists|Hno].
  - exists r. destruct (Hfound r Hr Hty Hp) as [Hn _]. split_and!; [done..|]. congruence.
  - rewrite (loop_other load_row row_ok row_act) in Hk; [by rewrite Hnew in Hk|done|intros; by apply (load_row_views _ _ _ "")|done|done|].
    intros r k' Hr%Hl. unfold row_act. destruct (r_type r) eqn:Hty; [|done]. intros [= Hp _].
    apply Hno, Exists_exists. by exists r.
Qed.

(** Saved to SQLite and loaded by a new process, the map invents nothing: a
    path that resolves has the key and inode it had; of the paths of one key
    exactly one survives at most, whichever the iteration met last, and a path
    that is the only one of its key resolves as before unless a directory has
    its name. *)
Theorem db_save_load now now' im t :
  im_reachable im → db im = Some t → saved im = NoFile →
  ∃ im', restart now' (SaveToDisk now IOk im).2 = inr im' ∧
    (∀ p k, p ≠ "" → name_of p im' = Some k →
       name_of p im = Some k ∧ (GetFileInode p im').1 = (GetFileInode p im).1) ∧
    (∀ p q k, p ≠ "" → q ≠ "" → name_of p im' = Some k → name_of q im' = Some k → p = q) ∧
    (∀ p k, p ≠ "" → name_of p im = Some k → is_Some (inode_of k im) →
       (∀ q, name_of q im = Some k → q = p) → (∀ s, s ∈ shards im → dirMap s !! p = None) →
       name_of p im' = Some k ∧ (GetFileInode p im').1 = (GetFileInode p im).1) ∧
    (∀ d, (GetDirInode d im').1 = (GetDirInode d im).1).
Proof.
  intros Hinv%im_reachable_inv Hdb Hsv. pose proof (proj1 Hinv) as Hi.
  pose proof (restart_inv now' _ (SaveToDisk_inv now IOk im Hinv)) as (im' & Hr & Hinv').
  exists im'. split; [done|]. revert Hr. unfold restart, InitGlobalInodeMap, LoadFromDisk, SaveToDisk. rewrite Hdb. simpl.
  rewrite Hsv. cbn [loadFromJSON saved NewInodeMap db SetDB]. intros [= <-].
  set (kp := key_to_path now (merged now nameMap (shards im))). set (t' := saved_rows now im) in *.
  destruct (saved_rows_from now im Hi) as [Hu Hrows]. fold kp t' in Hu, Hrows.
  pose proof (saved_rows_ok now im Hi) as Hrok. fold t' in Hrok.
  pose proof (λ p, load_table_views now' t' (SetDB t' (NewInodeMap NoFile)) p Hrok Hu
    (SetDB_ok _ _ (NewInodeMap_ok _)) (λ q, proj1 (NewInodeMap_views NoFile q ""))) as Hload.
  set (im' := loadFromDB now' t' (SetDB t' (NewInodeMap NoFile))) in *.
  assert (∀ p k, p ≠ "" → name_of p im' = Some k →
    kp !! k = Some p ∧ is_Some (inode_of k im) ∧ inode_of k im' = Some (file_inode k)) as Hback.
  { intros p k Hp Hk. destruct (Hload p) as [Hfound Hsrc]. destruct (Hsrc k Hk) as (r & Hr & Hty & Hpath & <-).
    destruct (Hfound r Hr Hty Hpath) as [_ Hk'].
    destruct (Hrows r Hr Hty) as (h & i & -> & Hin). simpl in Hpath. change (row_key (file_row kp h i)) with (file_key h i) in Hk', Hk |- *.
    split_and!; [|done|done]. destruct (kp !! file_key h i); simpl in Hpath; congruence. }
  assert (∀ p k, name_of p im = Some k → is_Some (inode_of k im) → name_of p im' = Some k →
    inode_of k im' = Some (file_inode k) → (GetFileInode p im').1 = (GetFileInode p im).1) as Hsame.
  { intros p k Hn [v Hv] Hn' Hv'. rewrite !GetFileInode_views, Hn, Hn'. simpl. rewrite Hv, Hv'. simpl.
    by apply inode_of_value in Hv as [_ ->]. }
  assert (∀ k p, kp !! k = Some p → name_of p im = Some k) as Hkp.
  { intros k p Hk%key_to_path_sound. by rewrite merged_names in Hk. }
  split_and!.
  - intros p k Hp Hk. destruct (Hback p k Hp Hk) as (? & ? & ?). split; [by apply Hkp|]. by eapply Hsame; eauto.
  - intros p q k Hp Hq Hkp' Hkq. destruct (Hback p k Hp Hkp') as [? _]. destruct (Hback q k Hq Hkq) as [? _]. congruence.
  - intros p k Hp Hk Hin Honly Hdir. destruct (name_of_canonical _ _ _ Hi Hk) as (h & i & -> & Hh & Hfit).
    destruct (key_to_path_complete now (merged now nameMap (shards im)) (file_key h i) p) as [q Hq]; [by rewrite merged_names|].
    fold kp in Hq. assert (q = p) as -> by (by apply Honly, Hkp).
    pose proof (saved_rows_complete now im h i p Hi Hh Hfit Hp Hin Hq Hdir) as Hrow.
    destruct (Hload p) as [Hfound _]. destruct (Hfound _ Hrow) as [Hn Hv]; [done|simpl; fold kp; by rewrite Hq|].
    split; [done|]. by eapply Hsame.
  - intros d. rewrite (proj2 (GetDirInode_value d im Hi)). apply GetDirInode_value. by apply Hinv'.
Qed.

(** *** Removal *)

Lemma RemoveFile_views p q k' im :
  im_ok im →
  name_of q (RemoveFile p im) = (if decide (q = p) then None else name_of q im) ∧
  inode_of k' (RemoveFile p im) = (if decide (name_of p im = Some k') then None else inode_of k' im).
Proof.
  intros Hi. unfold RemoveFile. change (nameMap (shard_of p im) !! p) with (name_of p im).
  destruct (name_of p im) as [k|] eqn:Hp.
  - assert (∀ b im1, name_of q (setDirty b im1) = name_of q im1) as -> by done.
    assert (∀ b im1, inode_of k' (setDirty b im1) = inode_of k' im1) as -> by done.
    destruct (bool_decide (fastFileMap _ !! _ = _)).
    + rewrite !name_of_keep, name_of_del by eauto 10 with inode.
      rewrite inode_of_keep, inode_of_del, inode_of_keep by eauto 10 with inode.
      split; [done|]. repeat case_decide; congruence.
    + rewrite name_of_keep, name_of_del by eauto 10 with inode.
      rewrite inode_of_del, inode_of_keep by eauto 10 with inode.
      split; [done|]. repeat case_decide; congruence.
  - split; [|done]. case_decide; [by subst|done].
Qed.

Lemma RemoveFiles_names l im p :
  im_ok im → name_of p (foldl (λ im p, RemoveFile p im) im l) = if decide (p ∈ l) then None else name_of p im.
Proof.
  revert im. induction l as [|q l IH]; intros im Hi; cbn [foldl]; [by rewrite decide_False by set_solver|].
  rewrite IH by (by apply RemoveFile_ok). rewrite (proj1 (RemoveFile_views q p "" im Hi)).
  repeat case_decide; set_solver.
Qed.

Lemma RemoveFiles_inodes l im k :
  im_ok im → (∀ p, p ∈ l → name_of p im ≠ Some k) →
  inode_of k (foldl (λ im p, RemoveFile p im) im l) = inode_of k im.
Proof.
  revert im. induction l as [|q l IH]; intros im Hi Hl; simpl; [done|].
  rewrite IH; [|by apply RemoveFile_ok|].
  - rewrite (proj2 (RemoveFile_views q "" k im Hi)). rewrite decide_False; [done|]. apply Hl. by left.
  - intros p Hp. rewrite (proj1 (RemoveFile_views q p "" im Hi)). case_decide; [done|]. apply Hl. by right.
Qed.

Lemma elem_of_missing now found im p : im_ok im → p ∈ missing now found im ↔ p ∉ found ∧ is_Some (name_of p im).
Proof.
  intros Hi. unfold missing. rewrite list_elem_of_bind. setoid_rewrite list_elem_of_filter.
  setoid_rewrite range_order_perm. split.
  - intros (s & [Hp Hin] & [i Hs]%list_elem_of_lookup). split; [done|].
    apply list_elem_of_fmap in Hin as ([p' k] & -> & Hk%elem_of_map_to_list). simpl in *.
    destruct (so_name _ _ (io_shards _ Hi _ _ Hs) _ _ Hk) as [<- _].
    rewrite shard_of_lookup in Hs by done. simplify_eq. by eexists.
  - intros [Hp [k Hk]]. exists (shard_of p im). split; [split; [done|]|].
    + apply list_elem_of_fmap. exists (p, k). split; [done|]. by apply elem_of_map_to_list.
    + eapply list_elem_of_lookup_2. by apply shard_of_lookup.
Qed.

Lemma PruneMissing_views now found im :
  im_ok im →
  (∀ p, name_of p (PruneMissing now found im).2 = if decide (p ∈ found) then name_of p im else None) ∧
  (∀ k, (∀ q, name_of q im = Some k → q ∈ found) → inode_of k (PruneMissing now found im).2 = inode_of k im).
Proof.
  intros Hi. set (im1 := foldl (λ im p, RemoveFile p im) im (missing now found im)).
  assert (shards (PruneMissing now found im).2 = shards im1) as Hsh.
  { unfold PruneMissing. fold im1. cbn [snd]. destruct (bool_decide _); by destruct (db im1). }
  assert (∀ p, name_of p (PruneMissing now found im).2 = name_of p im1) as Hn
    by (intros p; unfold name_of, shard_of; by rewrite Hsh).
  assert (∀ k, inode_of k (PruneMissing now found im).2 = inode_of k im1) as Hk
    by (intros k; unfold inode_of, shard_of; by rewrite Hsh).
  split.
  - intros p. rewrite Hn. unfold im1. rewrite RemoveFiles_names by done. destruct (name_of p im) as [k|] eqn:Hp.
    + pose proof (elem_of_missing now found im p Hi) as Hm. rewrite Hp in Hm.
      assert (is_Some (Some k)) by by eexists. repeat case_decide; tauto.
    + by repeat case_decide.
  - intros k Hall. rewrite Hk. apply RemoveFiles_inodes; [done|]. intros q Hq Hqk. apply elem_of_missing in Hq as [Hq _]; [|done].
    by apply Hq, Hall.
Qed.

(** Pruning removes the names of exactly the paths that were not found, and
    a found path keeps its inode if every path with its content was found. *)
Theorem PruneMissing_exact now found im :
  im_reachable im →
  (∀ p, name_of p (PruneMissing now found im).2 = if decide (p ∈ found) then name_of p im else None) ∧
  (∀ p, p ∈ found → (∀ q k, name_of p im = Some k → name_of q im = Some k → q ∈ found) →
     (GetFileInode p (PruneMissing now found im).2).1 = (GetFileInode p im).1).
Proof.
  intros [Hi _]%im_reachable_inv. destruct (PruneMissing_views now found im Hi) as [Hn Hk]. split; [done|].
  intros p Hp Hall. rewrite !GetFileInode_views, Hn, decide_True by done. destruct (name_of p im) as [k|] eqn:Hpk; [|done].
  cbn. rewrite Hk; [done|]. intros q Hq. by eapply Hall.
Qed.

(** Two paths with the same content share one inode entry, and removing one
    of the files takes it away: the other path no longer resolves, and adding
    it again, which reports its inode, leaves the map as it is. *)
Theorem twin_loses_inode p q h i im :
  im_reachable im → p ≠ q → h ≠ "" →
  name_of p im = Some (file_key (ToLower h) i) → name_of q im = Some (file_key (ToLower h) i) →
  (GetFileInode q (RemoveFile p im)).1 = 0 ∧
  AddFile q h i (RemoveFile p im) = (generateFileInode h i, RemoveFile p im).
Proof.
  intros [Hi _]%im_reachable_inv Hne Hh Hp Hq.
  assert (name_of q (RemoveFile p im) = Some (file_key (ToLower h) i)) as Hq'.
  { by rewrite (proj1 (RemoveFile_views p q "" im Hi)), decide_False. }
  split.
  - rewrite GetFileInode_views, Hq'. simpl.
    by rewrite (proj2 (RemoveFile_views p q _ im Hi)), decide_True.
  - unfold AddFile. rewrite bool_decide_false by done.
    change (nameMap (shard_of q ?x) !! q) with (name_of q x). by rewrite bool_decide_true.
Qed.
End inode_map_inv.

(** ** Witnesses *)

(** A 64-bit hash of strings. *)
Fixpoint poly_hash (s : string) (acc : Z) : Z :=
  match s with
  | EmptyString => acc
  | String c s' => poly_hash s' (uint64 (acc * 31 + ord c))
  end.

Lemma poly_hash_range s acc : fits_u 64 acc → fits_u 64 (poly_hash s acc).
Proof. revert acc. induction s; intros acc; simpl; [done|]. intros _. apply IHs. by apply wrap_u_fits. Qed.

#[local] Instance poly_XXHash : XXHash := {|
  Sum64String := λ s, poly_hash s 7;
  Sum64String_range := λ s, poly_hash_range s 7 ltac:(by split);
|}.

Definition sample_url : string :=
  "http://localhost/stream?link=0123456789abcdef0123456789ABCDEF01234567&index=3&play".
Definition sample_hash : string := "0123456789abcdef0123456789abcdef01234567".

Definition add (p : string) (im : InodeMap) : InodeMap := default im (addFileToInodeMap p sample_url (Some im)).2.

Lemma add_step p im : im_step im (add p im).
Proof.
  destruct (addFileToInodeMap p sample_url (Some im)) as [v g] eqn:Ha.
  destruct g as [im'|].
  - apply st_add with p sample_url v. unfold add. rewrite Ha. done.
  - exfalso. unfold addFileToInodeMap in Ha. destruct (ExtractHashAndIndex sample_url) as [h i].
    destruct (bool_decide (h = "")); [done|]. by destruct (AddFile p h i im).
Qed.

(** A map with two paths of one file. *)
Definition twins : InodeMap := add "/b/film.mkv" (add "/a/film.mkv" (NewInodeMap NoFile)).

Lemma twins_reachable : im_reachable twins.
Proof. eapply rtc_l; [apply add_step|]. apply rtc_once. apply add_step. Qed.

Lemma inodes_determined_witness :
  (GetFileInode "/b/film.mkv" twins).1 = Z.land (Sum64String (file_key sample_hash 3)) InodeFileMask ∧
  ∃ im', restart 0 twins = inr im'.
Proof.
  split; [vm_compute; reflexivity|].
  exact (proj2 (proj2 (inodes_determined_by_content twins twins_reachable)) 0).
Defined.


(** The same with a database, and one path. *)
Definition with_db : InodeMap := add "/a/film.mkv" (SetDB [] (NewInodeMap NoFile)).

Lemma with_db_reachable : im_reachable with_db.
Proof. eapply rtc_l; [apply st_enable_db; reflexivity|]. apply rtc_once. apply add_step. Qed.

Lemma db_save_load_witness :
  ∃ im', restart 0 (SaveToDisk 0 IOk with_db).2 = inr im' ∧
    ∀ d, (GetDirInode d im').1 = (GetDirInode d with_db).1.
Proof.
  destruct (db_save_load 0 0 with_db [] with_db_reachable eq_refl eq_refl) as (im' & Hr & _ & _ & _ & Hd).
  exists im'. split; [exact Hr|exact Hd].
Defined.

Lemma PruneMissing_exact_witness :
  name_of "/a/film.mkv" (PruneMissing 0 {["/b/film.mkv"]} twins).2 = None.
Proof. exact (proj1 (PruneMissing_exact 0 {["/b/film.mkv"]} twins twins_reachable) "/a/film.mkv"). Defined.

Lemma twin_loses_inode_witness :
  (GetFileInode "/b/film.mkv" twins).1 ≠ 0 ∧ (GetFileInode "/b/film.mkv" (RemoveFile "/a/film.mkv" twins)).1 = 0.
Proof.
  split; [vm_compute; discriminate|].
  refine (proj1 (twin_loses_inode "/a/film.mkv" "/b/film.mkv" sample_hash 3 twins twins_reachable _ _ _ _));
    [discriminate|discriminate|vm_compute; reflexivity|vm_compute; reflexivity].
Defined.
