(* ===== verification/Scheduler.v ===== *)
(** * The sync scheduler (internal/syncer/scheduler/scheduler.go)

    Jobs run daily at a time of the day on some weekdays, or at an interval;
    a tick every minute starts those that are due, and a web request may start
    or stop one. The first part models the decisions: times with their time
    zones, [shouldRun], [nextRunTime], the tick. The second part models the
    runs as goroutines, step by step, with the trackers and the table of
    cancel functions they share.

    A calendar date is modelled by its day number, the number of days since
    January 1, year 1, which is what Go's [Date], [AddDate] and [Weekday]
    compute with. The offsets of a time zone are a parameter. *)

From S2P Require Import Prelude.

Local Open Scope string_scope.
Local Open Scope Z_scope.

(** ** Times *)

(** Seconds east of UTC at a moment, in seconds since year 1. *)
Record Location := MkLoc { zone_offset : Z → Z }.

(** Nanoseconds since January 1, year 1, UTC, which is Go's zero time. *)
Record Time := MkTime { ns : Z; loc : Location }.

Definition Second : Z := 1000000000.
Definition Hour : Z := 3600 * Second.

Definition UTC : Location := MkLoc (λ _, 0).
Definition zero_time : Time := MkTime 0 UTC.
Definition IsZero (t : Time) : bool := ns t =? 0.
Definition Before (a b : Time) : bool := ns a <? ns b.
Definition After (a b : Time) : bool := ns b <? ns a.
Definition Equal (a b : Time) : bool := ns a =? ns b.

(** The clock on the wall, in seconds. *)
Definition wall (t : Time) : Z := ns t / Second + zone_offset (loc t) (ns t / Second).
Definition day (t : Time) : Z := wall t / 86400.
Definition clock (t : Time) : Z := wall t mod 86400.

(** Sunday is 0; January 1, year 1 was a Monday. *)
Definition Weekday (t : Time) : Z := (day t + 1) mod 7.

(** [time.Date] for a day number and a second of the day: the offset is looked
    up as if the clock showed UTC, and once more at the time this gives. *)
Definition Date (d clk nsec : Z) (l : Location) : Time :=
  let u := d * 86400 + clk in
  let o := zone_offset l u in
  MkTime ((if o =? 0 then u else u - zone_offset l (u - o)) * Second + nsec) l.

#[global] Arguments Date : simpl never.

(** [t.AddDate(0, 0, n)]. *)
Definition AddDate (n : Z) (t : Time) : Time := Date (day t + n) (clock t) (ns t mod Second) (loc t).

(** [t.Sub(u)] saturates; [t.Add(d)]. *)
Definition Sub (a b : Time) : Z :=
  let d := ns a - ns b in
  if d <? - 2 ^ 63 then - 2 ^ 63 else if 2 ^ 63 - 1 <? d then 2 ^ 63 - 1 else d.
Definition Add (t : Time) (d : Z) : Time := MkTime (ns t + d) (loc t).

(** ** Jobs and their state *)

Record JobState := MkJob {
  LastRun : Time;
  NextRun : Time;
  Running : bool;
  LastError : string;
  LastStatus : string;
}.

Definition new_job : JobState := MkJob zero_time zero_time false "" "".

Record DailyJobConfig := MkDaily { Enabled : bool; DaysOfWeek : list Z; HourOfDay : Z; Minute : Z }.
Record WatchlistSyncConfig := MkWatch { WEnabled : bool; IntervalHours : Z }.
Record TVChannelSchedule := MkChannel { ChName : string; ChSchedule : DailyJobConfig }.
Record SchedulerConfig := MkConfig {
  MoviesSync : DailyJobConfig;
  TVSync : DailyJobConfig;
  WatchlistSync : WatchlistSyncConfig;
  TVChannels : list TVChannelSchedule;
}.

Definition SetRunning (b : bool) (j : JobState) : JobState :=
  MkJob (LastRun j) (NextRun j) b (LastError j) (LastStatus j).
Definition SetStatus (now : Time) (status errMsg : string) (j : JobState) : JobState :=
  MkJob now (NextRun j) (Running j) errMsg status.
Definition SetNextRun (next : Time) (j : JobState) : JobState :=
  MkJob (LastRun j) next (Running j) (LastError j) (LastStatus j).

(** ** What is due *)

Definition daySet (days : list Z) (wd : Z) : bool := existsb (Z.eqb wd) days.

Definition shouldRunDaily (now : Time) (state : JobState) (c : DailyJobConfig) : bool :=
  if negb (Enabled c) then false
  else if negb (IsZero (NextRun state)) && Before now (NextRun state) then false
  else
    let today := Date (day now) (HourOfDay c * 3600 + Minute c * 60) 0 (loc now) in
    if negb (daySet (DaysOfWeek c) (Weekday today)) then false
    else if Before now today then false
    else if negb (IsZero (LastRun state)) then
      let lastDay := Date (day (LastRun state)) 0 0 (loc now) in
      let todayStart := Date (day now) 0 0 (loc now) in
      if negb (Before lastDay todayStart) then false else true
    else true.

Definition shouldRunInterval (now : Time) (state : JobState) (c : WatchlistSyncConfig) : bool :=
  if negb (WEnabled c) || (IntervalHours c <=? 0) then false
  else if IsZero (LastRun state) then true
  else int64 (IntervalHours c * Hour) <=? Sub now (LastRun state).

(** The schedule of a channel: the first one of the list with its name. *)
Definition channel_schedule (name : string) (chs : list TVChannelSchedule) : option DailyJobConfig :=
  ChSchedule <$> head (filter (λ ch, ChName ch = name) chs).

Definition shouldRun (cfg : SchedulerConfig) (now : Time) (name : string) (state : JobState) : bool :=
  if Running state then false
  else if bool_decide (name = "movies") then shouldRunDaily now state (MoviesSync cfg)
  else if bool_decide (name = "tv") then shouldRunDaily now state (TVSync cfg)
  else if bool_decide (name = "watchlist") then shouldRunInterval now state (WatchlistSync cfg)
  else match strip_prefix "tv:" name with
       | Some channelName =>
           match channel_schedule channelName (TVChannels cfg) with
           | Some c => shouldRunDaily now state c
           | None => shouldRunDaily now state (TVSync cfg)
           end
       | None => false
       end.

(** The loop of [nextRunTime], from [offset], with [n] iterations left. *)
Fixpoint next_loop (now : Time) (c : DailyJobConfig) (offset : Z) (n : nat) : Time :=
  match n with
  | O => zero_time
  | S n' =>
      let candidate := AddDate offset (Date (day now) (HourOfDay c * 3600 + Minute c * 60) 0 (loc now)) in
      if (if offset =? 0 then After candidate now && daySet (DaysOfWeek c) (Weekday candidate)
          else daySet (DaysOfWeek c) (Weekday candidate))
      then candidate
      else next_loop now c (offset + 1) n'
  end.

Definition nextRunTime (now : Time) (c : DailyJobConfig) : Time :=
  if negb (Enabled c) then zero_time else next_loop now c 0 8.

(** The next run of a job, as [updateNextRuns] sets it. *)
Definition next_of (cfg : SchedulerConfig) (now : Time) (name : string) (state : JobState) : Time :=
  if bool_decide (name = "movies") then nextRunTime now (MoviesSync cfg)
  else if bool_decide (name = "tv") then nextRunTime now (TVSync cfg)
  else if bool_decide (name = "watchlist") then
    if WEnabled (WatchlistSync cfg) && (0 <? IntervalHours (WatchlistSync cfg))
    then Add (LastRun state) (int64 (IntervalHours (WatchlistSync cfg) * Hour)) else zero_time
  else match strip_prefix "tv:" name with
       | Some channelName =>
           match channel_schedule channelName (TVChannels cfg) with
           | Some c => nextRunTime now c
           | None => zero_time
           end
       | None => zero_time
       end.

Definition update_next (cfg : SchedulerConfig) (now : Time) (name : string) (state : JobState) : JobState :=
  let next := next_of cfg now name state in
  if negb (Equal next (NextRun state)) then SetNextRun next state else state.

(** ** The scheduler *)

(** Where the goroutine of a run is: [runJob] was called; the tracker says
    running; the cancel function is on record and the engine runs; the engine
    returned, with an error or by a panic; the tracker says not running; the
    status is set. *)
Inductive outcome := Completed | Failed (err : string) | Panicked (msg : string).
Inductive run_pc := Spawned | Marked | Executing | Returned (o : outcome) | Unmarked (o : outcome) | Reported.

(** A run: the key of its job, its engine's name, and whether its context was
    cancelled. *)
Record run := MkRun { r_job : string; r_name : string; r_pc : run_pc; r_cancelled : bool }.

(** [jobs] gives the name of the engine of a job; [trackers] is the state store
    and [saved] its file. *)
Record Scheduler := MkSched {
  cfg : SchedulerConfig;
  jobs : gmap string string;
  trackers : gmap string JobState;
  saved : gmap string JobState;
  cancels : gmap string nat;
  runs : gmap nat run;
  next_id : nat;
}.

Definition set_trackers (f : gmap string JobState → gmap string JobState) (s : Scheduler) : Scheduler :=
  MkSched (cfg s) (jobs s) (f (trackers s)) (saved s) (cancels s) (runs s) (next_id s).
Definition set_cancels (f : gmap string nat → gmap string nat) (s : Scheduler) : Scheduler :=
  MkSched (cfg s) (jobs s) (trackers s) (saved s) (f (cancels s)) (runs s) (next_id s).
Definition set_run (r : nat) (x : run) (s : Scheduler) : Scheduler :=
  MkSched (cfg s) (jobs s) (trackers s) (saved s) (cancels s) (<[r := x]> (runs s)) (next_id s).

(** [Tracker]: the state of a job, a new one if there is none. *)
Definition Tracker (name : string) (s : Scheduler) : JobState := default new_job (trackers s !! name).
Definition on_tracker (name : string) (f : JobState → JobState) (s : Scheduler) : Scheduler :=
  set_trackers (<[name := f (Tracker name s)]>) s.

(** [Save] writes all states; the file is replaced by a rename. *)
Definition Save (s : Scheduler) : Scheduler :=
  MkSched (cfg s) (jobs s) (trackers s) (trackers s) (cancels s) (runs s) (next_id s).

Definition updateNextRuns (now : string → Time) (s : Scheduler) : Scheduler :=
  set_trackers (λ m, map_imap (λ name _, Some (update_next (cfg s) (now name) name (Tracker name s))) (jobs s) ∪ m) s.

(** [New]: the states of the file, with the stale [Running] of every job reset. *)
Definition New (c : SchedulerConfig) (js : gmap string string) (file : gmap string JobState) (now : string → Time) : Scheduler :=
  let reset := map_imap (λ name _, Some (SetRunning false (default new_job (file !! name)))) js ∪ file in
  updateNextRuns now (MkSched c js reset file ∅ ∅ 0%nat).

(** [go s.runJob(syncer, jt)]. *)
Definition spawn (name : string) (s : Scheduler) : Scheduler :=
  MkSched (cfg s) (jobs s) (trackers s) (saved s) (cancels s)
    (<[next_id s := MkRun name (default "" (jobs s !! name)) Spawned false]> (runs s)) (S (next_id s)).

Inductive trigger_result := TOk | TUnknown | TAlreadyRunning.

Definition TriggerRun (name : string) (s : Scheduler) : trigger_result * Scheduler :=
  match jobs s !! name with
  | None => (TUnknown, s)
  | Some _ =>
      if Running (Tracker name s) then (TAlreadyRunning, on_tracker name id s)
      else (TOk, spawn name (on_tracker name id s))
  end.

(** [StopJob]: [false] is [ErrNotRunning]. *)
Definition StopJob (name : string) (s : Scheduler) : bool * Scheduler :=
  match cancels s !! name with
  | None => (false, s)
  | Some r =>
      (true, match runs s !! r with
             | Some x => set_run r (MkRun (r_job x) (r_name x) (r_pc x) true) s
             | None => s
             end)
  end.

Definition Status (s : Scheduler) : gmap string JobState := trackers s.

Definition UpdateTVChannels (chs : list TVChannelSchedule) (s : Scheduler) : Scheduler :=
  MkSched (MkConfig (MoviesSync (cfg s)) (TVSync (cfg s)) (WatchlistSync (cfg s)) chs)
    (jobs s) (trackers s) (saved s) (cancels s) (runs s) (next_id s).

(** The jobs that are due, in the order of the iteration. *)
Definition due `{!MapRange} (moment : Z) (now : string → Time) (s : Scheduler) : list string :=
  filter (λ name, shouldRun (cfg s) (now name) name (Tracker name s) = true)
    (range_order moment (map_to_list (jobs s)).*1).

(** One tick; [now] and [later] are the readings of the clock by [shouldRun] and
    by [updateNextRuns] for each job. *)
Definition tick `{!MapRange} (moment : Z) (now later : string → Time) (s : Scheduler) : Scheduler :=
  Save (updateNextRuns later (foldl (λ s name, spawn name s) s (due moment now s))).

(** One step of the goroutine of run [r], at time [now]; [o] is what the engine
    ends with when it is executing. *)
Definition run_step (r : nat) (now : Time) (o : outcome) (s : Scheduler) : option Scheduler :=
  x ← runs s !! r;
  let goto pc := set_run r (MkRun (r_job x) (r_name x) pc (r_cancelled x)) in
  match r_pc x with
  | Spawned => Some (goto Marked (Save (on_tracker (r_job x) (SetRunning true) s)))
  | Marked => Some (goto Executing (set_cancels (<[r_name x := r]>) s))
  | Executing => Some (goto (Returned o) s)
  | Returned o' => Some (goto (Unmarked o') (on_tracker (r_job x) (SetRunning false) s))
  | Unmarked o' =>
      let '(status, msg) := match o' with
                            | Panicked m => ("failed", "panic: " +:+ m)
                            | Failed e => if r_cancelled x then ("stopped", "") else ("failed", e)
                            | Completed => if r_cancelled x then ("stopped", "") else ("ok", "")
                            end in
      Some (goto Reported (Save (on_tracker (r_job x) (SetStatus now status msg) s)))
  | Reported =>
      Some (MkSched (cfg s) (jobs s) (trackers s) (saved s) (delete (r_name x) (cancels s)) (delete r (runs s)) (next_id s))
  end.

(** ** Schedules in a zone with a constant offset *)

Section schedule.
Context (l : Location) (o : Z) (Hzone : ∀ u, zone_offset l u = o).

Definition valid_daily (c : DailyJobConfig) : Prop := 0 ≤ HourOfDay c < 24 ∧ 0 ≤ Minute c < 60.
Definition second_of_day (c : DailyJobConfig) : Z := HourOfDay c * 3600 + Minute c * 60.

(** The scheduled moment of day [d]. *)
Definition slot (c : DailyJobConfig) (d : Z) : Time := Date d (second_of_day c) 0 l.
#[global] Arguments slot : simpl never.

Lemma Date_ns d clk n : ns (Date d clk n l) = (d * 86400 + clk - o) * Second + n.
Proof.
  unfold Date. cbn [ns]. rewrite !Hzone. destruct (Z.eqb_spec o 0) as [->|]; f_equal; f_equal; lia.
Qed.

Lemma wall_fixed t : loc t = l → wall t = ns t / Second + o.
Proof. intros Hl. unfold wall. by rewrite Hl, Hzone. Qed.

Lemma wall_Date d clk : wall (Date d clk 0 l) = d * 86400 + clk.
Proof. rewrite wall_fixed by done. rewrite Date_ns, Z.add_0_r, Z.div_mul by done. lia. Qed.

Lemma day_Date d clk : 0 ≤ clk < 86400 → day (Date d clk 0 l) = d ∧ clock (Date d clk 0 l) = clk.
Proof.
  intros. unfold day, clock. rewrite wall_Date, Z.div_add_l, Z.div_small by lia.
  rewrite (Z.add_comm (d * 86400)), Z.mod_add, Z.mod_small by lia. lia.
Qed.

Lemma AddDate_Date d clk k : 0 ≤ clk < 86400 → AddDate k (Date d clk 0 l) = Date (d + k) clk 0 l.
Proof.
  intros Hc. unfold AddDate. destruct (day_Date d clk Hc) as [-> ->].
  rewrite Date_ns, Z.add_0_r, Z.mod_mul by done. done.
Qed.

(** A moment is in its day. *)
Lemma day_bounds t : loc t = l → (day t * 86400 - o) * Second ≤ ns t < ((day t + 1) * 86400 - o) * Second.
Proof.
  intros Hl. unfold day. rewrite wall_fixed by done. unfold Second.
  pose proof (Z.div_mod (ns t) 1000000000). pose proof (Z.mod_pos_bound (ns t) 1000000000).
  pose proof (Z.div_mod (ns t / 1000000000 + o) 86400). pose proof (Z.mod_pos_bound (ns t / 1000000000 + o) 86400). lia.
Qed.

Lemma day_unique t d : loc t = l → (d * 86400 - o) * Second ≤ ns t < ((d + 1) * 86400 - o) * Second → day t = d.
Proof. intros Hl Hb. pose proof (day_bounds t Hl). unfold Second in *. lia. Qed.

Lemma second_of_day_bounds c : valid_daily c → 0 ≤ second_of_day c ≤ 86340.
Proof. intros [? ?]. unfold second_of_day. lia. Qed.

Lemma slot_ns c d : ns (slot c d) = (d * 86400 + second_of_day c - o) * Second.
Proof. unfold slot. by rewrite Date_ns, Z.add_0_r. Qed.

Lemma slot_day c d : valid_daily c → day (slot c d) = d.
Proof. intros Hv. apply day_Date. pose proof (second_of_day_bounds c Hv). lia. Qed.

Definition scheduled (c : DailyJobConfig) (d : Z) : bool := daySet (DaysOfWeek c) ((d + 1) mod 7).

Lemma slot_weekday c d : valid_daily c → daySet (DaysOfWeek c) (Weekday (slot c d)) = scheduled c d.
Proof. intros Hv. unfold Weekday. by rewrite slot_day. Qed.

(** The slots after a moment are those of later days, and of its day if the
    time of the day is still to come. *)
Lemma slot_after c t d :
  valid_daily c → loc t = l →
  ns t < ns (slot c d) ↔ day t < d ∨ (d = day t ∧ ns t < ns (slot c d)).
Proof.
  intros Hv Hl. pose proof (day_bounds t Hl). pose proof (second_of_day_bounds c Hv).
  rewrite slot_ns in *. unfold Second in *. nia.
Qed.

(** Whether iteration [k] of the loop returns. *)
Definition hit (now : Time) (c : DailyJobConfig) (k : Z) : bool :=
  (if k =? 0 then After (slot c (day now)) now else true) && scheduled c (day now + k).

Lemma next_loop_spec now c k n :
  valid_daily c → loc now = l → 0 ≤ k →
  (∃ j, k ≤ j < k + Z.of_nat n ∧ hit now c j = true ∧ (∀ i, k ≤ i < j → hit now c i = false) ∧
        next_loop now c k n = slot c (day now + j)) ∨
  ((∀ i, k ≤ i < k + Z.of_nat n → hit now c i = false) ∧ next_loop now c k n = zero_time).
Proof.
  intros Hv Hl. revert k. induction n as [|n IH]; intros k Hk.
  { right. split; [lia|done]. }
  cbn [next_loop]. rewrite Hl. change (HourOfDay c * 3600 + Minute c * 60) with (second_of_day c).
  pose proof (second_of_day_bounds c Hv).
  rewrite AddDate_Date by lia. change (Date (day now + k) (second_of_day c) 0 l) with (slot c (day now + k)).
  assert ((if k =? 0 then After (slot c (day now + k)) now && daySet (DaysOfWeek c) (Weekday (slot c (day now + k)))
           else daySet (DaysOfWeek c) (Weekday (slot c (day now + k)))) = hit now c k) as ->.
  { rewrite slot_weekday by done. unfold hit. destruct (Z.eqb_spec k 0) as [->|]; [|done]. by rewrite Z.add_0_r. }
  destruct (hit now c k) eqn:Hh.
  - left. exists k. split_and!; [lia..|done|intros; lia|done].
  - destruct (IH (k + 1) ltac:(lia)) as [(j & Hj & Hhit & Hno & Heq)|[Hno Heq]]; [left; exists j|right].
    + split_and!; [lia..|done| |done]. intros i Hi. destruct (decide (i = k)) as [->|]; [done|]. apply Hno. lia.
    + split; [|done]. intros i Hi. destruct (decide (i = k)) as [->|]; [done|]. apply Hno. lia.
Qed.

Lemma daySet_elem ds w : daySet ds w = true ↔ w ∈ ds.
Proof.
  unfold daySet. rewrite existsb_exists. setoid_rewrite Z.eqb_eq. setoid_rewrite <- list_elem_of_In.
  split; [by intros (x & ? & ->)|eauto].
Qed.

(** Every weekday comes within the next seven days. *)
Lemma weekday_within d w : 0 ≤ w < 7 → ∃ k, 1 ≤ k ≤ 7 ∧ (d + k + 1) mod 7 = w.
Proof.
  intros Hw. exists ((w - d - 2) mod 7 + 1). pose proof (Z.mod_pos_bound (w - d - 2) 7).
  split; [lia|]. replace (d + ((w - d - 2) mod 7 + 1) + 1) with ((w - d - 2) mod 7 + (d + 2)) by lia.
  rewrite Zplus_mod_idemp_l. replace (w - d - 2 + (d + 2)) with w by lia. by apply Z.mod_small.
Qed.

(** The result is the first scheduled slot after [now]. *)
Definition is_next (c : DailyJobConfig) (now : Time) (d : Z) : Prop :=
  scheduled c d = true ∧ ns now < ns (slot c d) ∧
  ∀ d', scheduled c d' = true → ns now < ns (slot c d') → d ≤ d'.

Lemma nextRunTime_cases now c :
  valid_daily c → loc now = l → Enabled c = true →
  (∃ d, nextRunTime now c = slot c d ∧ is_next c now d) ∨
  ((∀ d, scheduled c d = false) ∧ nextRunTime now c = zero_time).
Proof.
  intros Hv Hl He. unfold nextRunTime. rewrite He. simpl negb. cbn iota.
  assert (∀ k, 0 ≤ k → hit now c k = true ↔ scheduled c (day now + k) = true ∧ ns now < ns (slot c (day now + k))) as Hhit.
  { intros k Hk. unfold hit. rewrite andb_true_iff, (slot_after c now _ Hv Hl).
    destruct (Z.eqb_spec k 0) as [->|]; [|intuition lia]. rewrite Z.add_0_r. unfold After. rewrite Z.ltb_lt. intuition lia. }
  destruct (next_loop_spec now c 0 8 Hv Hl ltac:(lia)) as [(j & Hj & Hh & Hno & ->)|[Hno ->]]; [left|right].
  - exists (day now + j). split; [done|]. apply Hhit in Hh as [? ?]; [|lia]. split_and!; [done..|].
    intros d' Hs Ha. assert (day now ≤ d') by (apply (slot_after c now d' Hv Hl) in Ha; lia).
    destruct (decide (day now + j ≤ d')) as [|Hlt]; [done|exfalso].
    assert (hit now c (d' - day now) = true) as Hc.
    { apply Hhit; [lia|]. by replace (day now + (d' - day now)) with d' by lia. }
    rewrite Hno in Hc; [done|lia].
  - split; [|done]. intros d. destruct (scheduled c d) eqn:Hs; [exfalso|done].
    destruct (weekday_within (day now) ((d + 1) mod 7)) as (k & Hk & Hw); [by apply Z.mod_pos_bound|].
    assert (hit now c k = true) as Hc; [|rewrite Hno in Hc; [done|lia]].
    apply Hhit; [lia|]. split; [unfold scheduled in *; by rewrite Hw|].
    apply (slot_after c now _ Hv Hl). lia.
Qed.
End schedule.

(** ** A job through its ticks *)

(** The daily schedule that both [shouldRun] and [updateNextRuns] use for a job. *)
Definition daily_of (cfg : SchedulerConfig) (name : string) : option DailyJobConfig :=
  if bool_decide (name = "movies") then Some (MoviesSync cfg)
  else if bool_decide (name = "tv") then Some (TVSync cfg)
  else if bool_decide (name = "watchlist") then None
  else channelName ← strip_prefix "tv:" name; channel_schedule channelName (TVChannels cfg).

Lemma daily_of_spec cfg name c now js :
  daily_of cfg name = Some c → Running js = false →
  shouldRun cfg now name js = shouldRunDaily now js c ∧ next_of cfg now name js = nextRunTime now c.
Proof.
  unfold daily_of, shouldRun, next_of. intros Hd ->.
  destruct (bool_decide (name = "movies")); [by simplify_eq|]. destruct (bool_decide (name = "tv")); [by simplify_eq|].
  destruct (bool_decide (name = "watchlist")); [done|].
  destruct (strip_prefix "tv:" name) as [ch|]; simplify_eq/=. by rewrite Hd.
Qed.

(** What one tick does with a job: whether it starts it, and its new state. *)
Definition tick_job (cfg : SchedulerConfig) (name : string) (js : JobState) (t : Time * Time) : bool * JobState :=
  (shouldRun cfg t.1 name js, update_next cfg t.2 name js).

Fixpoint job_ticks (cfg : SchedulerConfig) (name : string) (js : JobState) (ts : list (Time * Time)) : list bool * JobState :=
  match ts with
  | [] => ([], js)
  | t :: ts' =>
      let '(b, js') := tick_job cfg name js t in
      let '(bs, js'') := job_ticks cfg name js' ts' in (b :: bs, js'')
  end.

Section daily.
Context (l : Location) (o : Z) (Hzone : ∀ u, zone_offset l u = o).

Lemma shouldRunDaily_spec now js c :
  valid_daily c → loc now = l →
  shouldRunDaily now js c = true ↔
    Enabled c = true ∧ (ns (NextRun js) = 0 ∨ ns (NextRun js) ≤ ns now) ∧
    scheduled c (day now) = true ∧ ns (slot l c (day now)) ≤ ns now ∧
    (ns (LastRun js) = 0 ∨ day (LastRun js) < day now).
Proof.
  intros Hv Hl. unfold shouldRunDaily. rewrite Hl.
  change (Date (day now) (HourOfDay c * 3600 + Minute c * 60) 0 l) with (slot l c (day now)).
  rewrite (slot_weekday l o Hzone) by done.
  destruct (Enabled c); simpl negb; cbn iota; [|naive_solver].
  unfold IsZero, Before. destruct (Z.eqb_spec (ns (NextRun js)) 0) as [Hn|Hn], (Z.ltb_spec (ns now) (ns (NextRun js)));
    cbn [negb andb]; try (split; [done|]; intros (_ & [?|?] & _); lia);
    (destruct (scheduled c (day now)); cbn [negb]; [|naive_solver]);
    (destruct (Z.ltb_spec (ns now) (ns (slot l c (day now)))); [split; [done|]; intros (_ & _ & _ & ? & _); lia|]);
    (destruct (Z.eqb_spec (ns (LastRun js)) 0) as [Hz|Hz]; cbn [negb]; [intuition lia|]);
    rewrite !(Date_ns l o Hzone); unfold Second;
    (destruct (Z.ltb_spec ((day (LastRun js) * 86400 + 0 - o) * 1000000000 + 0) ((day now * 86400 + 0 - o) * 1000000000 + 0));
      cbn [negb]; intuition lia).
Qed.

Lemma is_next_unique c t d d' : is_next l c t d → is_next l c t d' → d = d'.
Proof. intros (Hs & Ha & Hm) (Hs' & Ha' & Hm'). pose proof (Hm _ Hs' Ha'). pose proof (Hm' _ Hs Ha). lia. Qed.

(** The next slot stays the same until it comes. *)
Lemma is_next_later c t t' d :
  is_next l c t d → ns t ≤ ns t' → ns t' < ns (slot l c d) → is_next l c t' d.
Proof. intros (Hs & Ha & Hm) Hle Hlt. split_and!; [done..|]. intros d' Hs' Ha'. apply Hm; [done|lia]. Qed.

Lemma nextRunTime_next c t d :
  valid_daily c → Enabled c = true → loc t = l → is_next l c t d → nextRunTime t c = slot l c d.
Proof.
  intros Hv He Hl Hn. destruct (nextRunTime_cases l o Hzone t c Hv Hl He) as [(d' & -> & Hd')|[Hno _]].
  - by rewrite (is_next_unique c t d d').
  - destruct Hn as [Hs _]. by rewrite Hno in Hs.
Qed.

Context (cfg : SchedulerConfig) (name : string) (c : DailyJobConfig).
Hypotheses (Hdaily : daily_of cfg name = Some c) (Hv : valid_daily c) (He : Enabled c = true).

(** A job that waits for slot [d], which came next at [t0]. *)
Record waiting (js : JobState) (t0 : Time) (d : Z) : Prop := {
  w_idle : Running js = false;
  w_next : NextRun js = slot l c d;
  w_is_next : is_next l c t0 d;
  w_epoch : 0 < ns t0;
}.

Lemma waiting_nonzero js t0 d : waiting js t0 d → 0 < ns (NextRun js).
Proof using. intros [_ -> (_ & ? & _) ?]. lia. Qed.

Lemma early_tick js t0 d a b :
  waiting js t0 d → loc a = l → loc b = l → ns a ≤ ns b → ns t0 ≤ ns b → ns b < ns (slot l c d) →
  tick_job cfg name js (a, b) = (false, js).
Proof using Hdaily He Hv Hzone.
  intros Hw Ha Hb Hab H0 Hlt. pose proof (waiting_nonzero _ _ _ Hw) as Hnz. destruct Hw as [Hidle Hnext Hn _].
  unfold tick_job. simpl. destruct (daily_of_spec cfg name c a js Hdaily Hidle) as [-> _]. f_equal.
  - apply not_true_iff_false. rewrite shouldRunDaily_spec by done. rewrite Hnext in *. intros (_ & [?|?] & _); lia.
  - unfold update_next. destruct (daily_of_spec cfg name c b js Hdaily Hidle) as [_ ->].
    rewrite (nextRunTime_next c b d) by (done || by eapply is_next_later). rewrite Hnext.
    unfold Equal. by rewrite Z.eqb_refl.
Qed.

Lemma due_tick js t0 d a :
  waiting js t0 d → loc a = l → ns (slot l c d) ≤ ns a < ns (slot l c d) + 60 * Second →
  (ns (LastRun js) = 0 ∨ day (LastRun js) < d) → shouldRun cfg a name js = true.
Proof using Hdaily He Hv Hzone.
  intros [Hidle Hnext Hn _] Ha Hin Hlast. destruct (daily_of_spec cfg name c a js Hdaily Hidle) as [-> _].
  assert (day a = d) as Hday.
  { apply (day_unique l o Hzone); [done|]. rewrite (slot_ns l o Hzone) in Hin.
    pose proof (second_of_day_bounds c Hv). unfold Second in *. lia. }
  apply shouldRunDaily_spec; [done..|]. rewrite Hday, Hnext. destruct Hn as [Hs _].
  split_and!; [done|right; lia|done|lia|done].
Qed.

End daily.

(** C18: The next run of a daily job, in a time zone with a constant offset, is
    the first moment after now that is at the hour and minute of the schedule
    on one of its weekdays; if none of its days is a weekday there is none. *)
Theorem nextRunTime_least l o now c :
  (∀ u, zone_offset l u = o) → loc now = l → valid_daily c → Enabled c = true →
  (∃ d, nextRunTime now c = slot l c d ∧ day (slot l c d) = d ∧ clock (slot l c d) = second_of_day c ∧
        Weekday (slot l c d) ∈ DaysOfWeek c ∧ After (slot l c d) now = true ∧
        ∀ d', Weekday (slot l c d') ∈ DaysOfWeek c → After (slot l c d') now = true →
              ns (slot l c d) ≤ ns (slot l c d')) ∨
  ((∀ w, w ∈ DaysOfWeek c → ¬ 0 ≤ w < 7) ∧ nextRunTime now c = zero_time).
Proof.
  intros Hz Hl Hv He. pose proof (second_of_day_bounds c Hv) as Hb.
  assert (∀ d, Weekday (slot l c d) ∈ DaysOfWeek c ↔ scheduled c d = true) as Hw.
  { intros d. by rewrite <- daySet_elem, (slot_weekday l o Hz). }
  destruct (nextRunTime_cases l o Hz now c Hv Hl He) as [(d & -> & Hs & Ha & Hm)|[Hno ->]]; [left; exists d|right].
  - destruct (day_Date l o Hz d (second_of_day c)) as [Hd Hc]; [lia|]. split_and!; [done..|by apply Hw|by apply Z.ltb_lt|].
    intros d' Hd'%Hw Ha'%Z.ltb_lt. specialize (Hm d' Hd' Ha'). rewrite !(slot_ns l o Hz). unfold Second. lia.
  - split; [|done]. intros w Hin Hr. destruct (weekday_within 0 w Hr) as (k & _ & Hk).
    specialize (Hno k). unfold scheduled in Hno. rewrite Z.add_0_l in Hk. rewrite Hk in Hno.
    apply daySet_elem in Hin. congruence.
Qed.

(** A daily job that is idle and did not run on the day of its slot is
    started by the first tick after the slot, if that tick comes within a
    minute, and by no tick before it, as long as no tick begins before the slot
    and computes the next run after it. *)
Theorem daily_job_on_schedule l o cfg name c js t0 d pre a b :
  (∀ u, zone_offset l u = o) → daily_of cfg name = Some c → valid_daily c → Enabled c = true →
  waiting l c js t0 d →
  Forall (λ ab, loc ab.1 = l ∧ loc ab.2 = l ∧ ns ab.1 ≤ ns ab.2 ∧ ns t0 ≤ ns ab.2 < ns (slot l c d)) pre →
  loc a = l → ns (slot l c d) ≤ ns a < ns (slot l c d) + 60 * Second →
  (ns (LastRun js) = 0 ∨ day (LastRun js) < d) →
  (job_ticks cfg name js (pre ++ [(a, b)])%list).1 = (replicate (length pre) false ++ [true])%list.
Proof.
  intros Hz Hd Hv He Hw Hpre Ha Hin Hlast. induction Hpre as [|[a' b'] pre (Ha' & Hb' & Hab & H0 & Hlt) Hpre IH].
  - cbn. by rewrite (due_tick l o Hz cfg name c Hd Hv He js t0 d a).
  - cbn [fst snd] in *. cbn [app job_ticks]. rewrite (early_tick l o Hz cfg name c Hd Hv He js t0 d a' b') by done.
    destruct (job_ticks cfg name js (pre ++ [(a, b)])%list) as [bs js'']. cbn in *. by rewrite IH.
Qed.

(** A slot can be missed: when the scheduler decides that a job is not yet
    due just before the slot, and computes the next run just after it, the next
    run is on a later day and the job is not started before it. *)
Theorem slot_missed_between_readings l o cfg name c js t0 d a b :
  (∀ u, zone_offset l u = o) → daily_of cfg name = Some c → valid_daily c → Enabled c = true →
  waiting l c js t0 d → loc a = l → loc b = l → ns a < ns (slot l c d) ≤ ns b →
  shouldRun cfg a name js = false ∧
  ∃ d', d < d' ∧ NextRun (update_next cfg b name js) = slot l c d' ∧
    ∀ t, loc t = l → ns t < ns (slot l c d') → shouldRun cfg t name (update_next cfg b name js) = false.
Proof.
  intros Hz Hdaily Hv He Hw Ha Hb [Hlt Hle]. pose proof (waiting_nonzero l c _ _ _ Hw) as Hnz.
  destruct Hw as [Hidle Hnext Hn Hep].
  assert (∀ js' t d', Running js' = false → NextRun js' = slot l c d' → 0 < ns (slot l c d') → loc t = l →
    ns t < ns (slot l c d') → shouldRun cfg t name js' = false) as Hfalse.
  { intros js' t d' Hi Hx Hpos Hl Ht. destruct (daily_of_spec cfg name c t js' Hdaily Hi) as [-> _].
    apply not_true_iff_false. rewrite (shouldRunDaily_spec l o Hz) by done. rewrite Hx. intros (_ & [?|?] & _); lia. }
  split; [eapply Hfalse; [done|done|by rewrite <- Hnext|done|done]|].
  destruct (nextRunTime_cases l o Hz b c Hv Hb He) as [(d' & Hd' & Hs & Haf & Hm)|[Hno _]];
    [|destruct Hn as [Hs _]; by rewrite Hno in Hs].
  assert (d < d') as Hdd. { rewrite (slot_ns l o Hz) in Hle, Haf. unfold Second in *. lia. }
  exists d'. unfold update_next. destruct (daily_of_spec cfg name c b js Hdaily Hidle) as [_ ->]. rewrite Hd'.
  assert (Equal (slot l c d') (NextRun js) = false) as ->.
  { rewrite Hnext. unfold Equal. apply Z.eqb_neq. rewrite !(slot_ns l o Hz). unfold Second. lia. }
  cbn [negb]. split_and!; [done..|]. intros t Hl Ht.
  apply (Hfalse _ t d'); [done|done|rewrite Hnext in Hnz; lia|done|done].
Qed.

(** ** Runs *)

Section runs.
Context `{HM : !MapRange}.

Definition no_run (name : string) (s : Scheduler) : Prop := ∀ r x, runs s !! r = Some x → r_job x ≠ name.

(** What happens to a scheduler. With [serial], a job is only started when the
    goroutine of its previous run has ended. *)
Inductive sched_step (serial : bool) (s : Scheduler) : Scheduler → Prop :=
| s_tick moment now later :
    (serial = true → ∀ name, name ∈ due moment now s → no_run name s) →
    sched_step serial s (tick moment now later s)
| s_trigger name : (serial = true → no_run name s) → sched_step serial s (TriggerRun name s).2
| s_stop name : sched_step serial s (StopJob name s).2
| s_channels chs : sched_step serial s (UpdateTVChannels chs s)
| s_run r now o s' : run_step r now o s = Some s' → sched_step serial s s'.

(** The tracker says running; the cancel function is on record. *)
Definition marked (pc : run_pc) : bool := match pc with Marked | Executing | Returned _ => true | _ => false end.
Definition cancellable (pc : run_pc) : bool :=
  match pc with Executing | Returned _ | Unmarked _ | Reported => true | _ => false end.

Record sched_inv (s : Scheduler) : Prop := {
  si_names name n : jobs s !! name = Some n → n = name;
  si_ids r x : runs s !! r = Some x → (r < next_id s)%nat ∧ jobs s !! r_job x = Some (r_name x);
  si_one r r' x x' : runs s !! r = Some x → runs s !! r' = Some x' → r_job x = r_job x' → r = r';
  si_running name : is_Some (jobs s !! name) →
    Running (Tracker name s) = true ↔ ∃ r x, runs s !! r = Some x ∧ r_job x = name ∧ marked (r_pc x) = true;
  si_cancel name r : cancels s !! name = Some r ↔
    ∃ x, runs s !! r = Some x ∧ r_job x = name ∧ cancellable (r_pc x) = true;
}.

Lemma Tracker_on_tracker name name' f s :
  Tracker name (on_tracker name' f s) = if decide (name = name') then f (Tracker name s) else Tracker name s.
Proof.
  unfold Tracker at 1, on_tracker. simpl. rewrite lookup_insert. repeat case_decide; by subst.
Qed.

Lemma Tracker_updateNextRuns name now s : Running (Tracker name (updateNextRuns now s)) = Running (Tracker name s).
Proof.
  unfold Tracker at 1, updateNextRuns. simpl. rewrite lookup_union, map_lookup_imap.
  destruct (jobs s !! name) as [n|]; simpl.
  - rewrite union_Some_l. simpl. unfold update_next. by destruct (negb _).
  - by rewrite (left_id_L None _).
Qed.

(** Steps that change neither runs nor cancels keep the invariant if they keep
    what the trackers say about running. *)
Lemma sched_inv_trackers s s' :
  jobs s' = jobs s → runs s' = runs s → cancels s' = cancels s → next_id s' = next_id s →
  (∀ name, Running (Tracker name s') = Running (Tracker name s)) → sched_inv s → sched_inv s'.
Proof.
  intros Hj Hr Hc Hn Ht [H1 H2 H3 H4 H5]. split.
  - intros name n. rewrite Hj. apply H1.
  - intros r x. rewrite Hr, Hn, Hj. apply H2.
  - intros r r' x x'. rewrite Hr. apply H3.
  - intros name. rewrite Hj, Ht, Hr. apply H4.
  - intros name r. rewrite Hc, Hr. apply H5.
Qed.

Lemma spawn_inv name s : is_Some (jobs s !! name) → no_run name s → sched_inv s → sched_inv (spawn name s).
Proof.
  intros [n Hn] Hno [H1 H2 H3 H4 H5].
  assert (runs s !! next_id s = None) as Hfresh.
  { destruct (runs s !! next_id s) as [x|] eqn:Hx; [|done]. apply H2 in Hx as [? _]. lia. }
  split; simpl.
  - done.
  - intros r x [[<- <-]|[Hne Hx]]%lookup_insert_Some; simpl; [by rewrite Hn; split; [lia|]|].
    destruct (H2 _ _ Hx). split; [lia|done].
  - intros r r' x x' [[<- <-]|[Hne Hx]]%lookup_insert_Some [[<- <-]|[Hne' Hx']]%lookup_insert_Some; simpl; [done| | |by apply H3].
    + intros Heq. by destruct (Hno _ _ Hx').
    + intros Heq. by destruct (Hno _ _ Hx).
  - intros name' Hj. change (Tracker name' (spawn name s)) with (Tracker name' s). rewrite H4 by done.
    split; intros (r & x & Hx & Hrest).
    + exists r, x. split; [|done]. apply lookup_insert_Some. right. split; [congruence|done].
    + apply lookup_insert_Some in Hx as [[<- <-]|[_ Hx]]; [by destruct Hrest|]. eauto.
  - intros name' r. rewrite H5. split; intros (x & Hx & Hrest).
    + exists x. split; [|done]. apply lookup_insert_Some. right. split; [congruence|done].
    + apply lookup_insert_Some in Hx as [[<- <-]|[_ Hx]]; [by destruct Hrest|]. eauto.
Qed.

Lemma spawn_all_inv l s :
  NoDup l → (∀ name, name ∈ l → is_Some (jobs s !! name) ∧ no_run name s) → sched_inv s →
  sched_inv (foldl (λ s name, spawn name s) s l).
Proof.
  intros Hnd. revert s. induction Hnd as [|name l Hni Hnd IH]; intros s Hl Hs; simpl; [done|].
  destruct (Hl name) as [? ?]; [by left|]. apply IH; [|by apply spawn_inv].
  intros name' Hin. destruct (Hl name') as [? Hno]; [by right|]. split; [done|].
  intros r x. simpl. intros [[<- <-]|[_ Hx]]%lookup_insert_Some; [simpl; congruence|by eapply Hno].
Qed.

Lemma tick_inv moment now later s :
  (∀ name, name ∈ due moment now s → no_run name s) → sched_inv s → sched_inv (tick moment now later s).
Proof.
  intros Hno Hs. unfold tick.
  apply (sched_inv_trackers (foldl (λ s name, spawn name s) s (due moment now s)));
    [done|done|done|done|intros name; exact (Tracker_updateNextRuns name later _)|].
  apply spawn_all_inv; [| |done].
  - unfold due. apply NoDup_filter. rewrite range_order_perm. apply NoDup_fst_map_to_list.
  - intros name Hin. split; [|by apply Hno]. unfold due in Hin. apply list_elem_of_filter in Hin as [_ Hin].
    rewrite range_order_perm in Hin. apply list_elem_of_fmap in Hin as ([k v] & -> & Hk%elem_of_map_to_list). by eexists.
Qed.

(** A run moves on: the tracker and the cancel functions follow. *)
Lemma move_run_inv s s' r x pc b :
  sched_inv s → runs s !! r = Some x →
  jobs s' = jobs s → next_id s' = next_id s →
  runs s' = <[r := MkRun (r_job x) (r_name x) pc b]> (runs s) →
  (∀ name, Running (Tracker name s') = if decide (name = r_job x) then marked pc else Running (Tracker name s)) →
  (∀ name, cancels s' !! name = if decide (name = r_job x) then (if cancellable pc then Some r else None) else cancels s !! name) →
  sched_inv s'.
Proof.
  intros [H1 H2 H3 H4 H5] Hx Hj Hn Hr Ht Hc.
  assert (∀ q y, runs s' !! q = Some y ↔ (q = r ∧ y = MkRun (r_job x) (r_name x) pc b) ∨ (q ≠ r ∧ runs s !! q = Some y)) as Hruns.
  { intros q y. rewrite Hr, lookup_insert_Some. naive_solver. }
  split.
  - intros name n. rewrite Hj. apply H1.
  - intros q y. rewrite Hn, Hj. intros [[-> ->]|[_ Hy]]%Hruns; [by apply (H2 r x)|by apply H2].
  - intros q q' y y' [[-> ->]|[Hq Hy]]%Hruns [[-> ->]|[Hq' Hy']]%Hruns; simpl; intros Heq; [done|..].
    + by eapply H3.
    + by eapply H3.
    + by eapply H3.
  - intros name. rewrite Hj, Ht. intros Hjob. case_decide as Hd.
    + subst name. split.
      * intros Hm. exists r, (MkRun (r_job x) (r_name x) pc b). split; [apply Hruns; by left|done].
      * intros (q & y & [[-> ->]|[Hq Hy]]%Hruns & Hyj & Hm); [done|]. destruct Hq. by apply (H3 q r y x).
    + rewrite H4 by done. split; intros (q & y & Hy & Hyj & Hm); exists q, y.
      * split; [|done]. apply Hruns. right. split; [congruence|done].
      * apply Hruns in Hy as [[-> ->]|[_ Hy]]; [by destruct Hd|done].
  - intros name q. rewrite Hc. case_decide as Hd.
    + subst name. split.
      * destruct (cancellable pc) eqn:Hcp; [|done]. intros [= <-]. exists (MkRun (r_job x) (r_name x) pc b).
        split; [apply Hruns; by left|done].
      * intros (y & [[-> ->]|[Hq Hy]]%Hruns & Hyj & Hcp); [simpl in Hcp; by rewrite Hcp|]. destruct Hq. by apply (H3 q r y x).
    + rewrite H5. split; intros (y & Hy & Hyj & Hm); exists y.
      * split; [|done]. apply Hruns. right. split; [congruence|done].
      * apply Hruns in Hy as [[-> ->]|[_ Hy]]; [by destruct Hd|done].
Qed.

(** What the invariant says of the job of a run. *)
Lemma run_facts s r x :
  sched_inv s → runs s !! r = Some x →
  r_name x = r_job x ∧ Running (Tracker (r_job x) s) = marked (r_pc x) ∧
  cancels s !! r_job x = if cancellable (r_pc x) then Some r else None.
Proof.
  intros [H1 H2 H3 H4 H5] Hx. destruct (H2 _ _ Hx) as [_ Hj]. split_and!.
  - by apply H1.
  - apply eq_true_iff_eq. rewrite H4 by eauto. split; [|eauto].
    intros (q & y & Hy & Hyj & Hm). assert (q = r) as -> by (by eapply H3). by simplify_eq.
  - destruct (cancellable (r_pc x)) eqn:Hc; [apply H5; eauto|].
    destruct (cancels s !! r_job x) as [q|] eqn:Hq; [|done]. apply H5 in Hq as (y & Hy & Hyj & Hm).
    assert (q = r) as -> by (by eapply H3). congruence.
Qed.

Lemma run_step_inv r now o s s' : sched_inv s → run_step r now o s = Some s' → sched_inv s'.
Proof.
  intros Hs Hr. unfold run_step in Hr. destruct (runs s !! r) as [x|] eqn:Hx; [|done]. cbn [mbind option_bind] in Hr.
  destruct (run_facts s r x Hs Hx) as (Hname & Hrun & Hcan).
  destruct (r_pc x) as [| | |o'|o'|] eqn:Hpc; cbn [marked cancellable] in *.
  1-5: try (destruct (match o' with Completed => _ | Failed _ => _ | Panicked _ => _ end) as [st ms]);
    simplify_eq/=; eapply move_run_inv with (r := r) (x := x); [done|done|done|done|reflexivity|..];
    intros name; cbn [marked cancellable];
    try (change (Tracker name (set_run _ _ ?y)) with (Tracker name y));
    try (change (Tracker name (Save ?y)) with (Tracker name y));
    try (change (Tracker name (set_cancels _ ?y)) with (Tracker name y));
    rewrite ?Tracker_on_tracker; simpl; rewrite ?Hname, ?lookup_insert;
    repeat case_decide; by subst.
  simplify_eq. destruct Hs as [H1 H2 H3 H4 H5]. split; simpl.
  - done.
  - intros q y [_ Hy]%lookup_delete_Some. by apply H2.
  - intros q q' y y' [_ Hy]%lookup_delete_Some [_ Hy']%lookup_delete_Some. by apply H3.
  - intros name Hj. change (Tracker name (MkSched _ _ (trackers s) _ _ _ _)) with (Tracker name s). rewrite H4 by done.
    split; intros (q & y & Hy & Hyj & Hm); exists q, y.
    + rewrite lookup_delete_Some. split; [|done]. split; [|done]. intros <-. simplify_eq. by rewrite Hpc in Hm.
    + by apply lookup_delete_Some in Hy as [_ ?].
  - intros name q. rewrite Hname, lookup_delete_Some, H5. split.
    + intros (Hne & y & Hy & Hyj & Hm). exists y. rewrite lookup_delete_Some. split; [|done]. split; [|done].
      intros <-. simplify_eq.
    + intros (y & [Hne Hy]%lookup_delete_Some & Hyj & Hm). split; [|eauto]. intros Heq.
      destruct Hne. apply (H3 r q x y); congruence.
Qed.

Lemma StopJob_inv name s : sched_inv s → sched_inv (StopJob name s).2.
Proof.
  intros Hs. unfold StopJob. destruct (cancels s !! name) as [r|] eqn:Hc; [|done]. simpl.
  apply (si_cancel _ Hs) in Hc as (x & Hx & <- & Hcan). rewrite Hx.
  destruct (run_facts s r x Hs Hx) as (_ & Hrun & Hcan').
  eapply move_run_inv with (r := r) (x := x) (pc := r_pc x); [done|done|done|done|reflexivity|..]; intros name; simpl.
  - change (Tracker name (set_run _ _ s)) with (Tracker name s). case_decide; [by subst|done].
  - case_decide; [by subst|done].
Qed.

Lemma TriggerRun_inv name s : no_run name s → sched_inv s → sched_inv (TriggerRun name s).2.
Proof.
  intros Hno Hs. unfold TriggerRun. destruct (jobs s !! name) as [n|] eqn:Hj; [|done].
  assert (sched_inv (on_tracker name id s)) as Hs'.
  { apply (sched_inv_trackers s); [done..| |done]. intros name'. rewrite Tracker_on_tracker. by case_decide. }
  destruct (Running (Tracker name s)); [done|]. apply spawn_inv; [exists n; exact Hj|exact Hno|done].
Qed.

Lemma sched_step_inv s s' : sched_inv s → sched_step true s s' → sched_inv s'.
Proof.
  intros Hs Hstep. destruct Hstep as [moment now later Hno|name Hno|name|chs|r now o s' Hr].
  - apply tick_inv; auto.
  - apply TriggerRun_inv; auto.
  - by apply StopJob_inv.
  - by apply (sched_inv_trackers s).
  - by eapply run_step_inv.
Qed.

Lemma New_inv c js file now : (∀ name n, js !! name = Some n → n = name) → sched_inv (New c js file now).
Proof.
  intros Hn. unfold New. cbv zeta. set (s0 := MkSched _ _ _ _ _ _ _).
  apply (sched_inv_trackers s0); [done|done|done|done|intros name; apply Tracker_updateNextRuns|]. unfold s0.
  split; simpl; [done|by intros r x; rewrite lookup_empty|by intros r r' x x'; rewrite lookup_empty| |].
  - intros name [n Hj]. unfold Tracker. simpl. rewrite lookup_union, map_lookup_imap, Hj. simpl.
    rewrite union_Some_l. simpl. split; [done|]. intros (r & x & Hx & _). by rewrite lookup_empty in Hx.
  - intros name r. rewrite lookup_empty. split; [done|]. intros (x & Hx & _). by rewrite lookup_empty in Hx.
Qed.

(** If a job is only started after the goroutine of its previous run has
    ended, the scheduler's books are right in every reachable state: a job has
    at most one run, its tracker says running exactly while the run is between
    its start and its end, and a job whose engine runs can be stopped, which
    cancels the context of that run. *)
Theorem runs_on_record c js file now s :
  (∀ name n, js !! name = Some n → n = name) →
  rtc (sched_step true) (New c js file now) s →
  (∀ r r' x x', runs s !! r = Some x → runs s !! r' = Some x' → r_job x = r_job x' → r = r') ∧
  (∀ r x, runs s !! r = Some x → Running (Tracker (r_job x) s) = marked (r_pc x)) ∧
  (∀ r x, runs s !! r = Some x → r_pc x = Executing →
    (TriggerRun (r_job x) s).1 = TAlreadyRunning ∧
    StopJob (r_job x) s = (true, set_run r (MkRun (r_job x) (r_name x) Executing true) s)).
Proof.
  intros Hn Hr. assert (sched_inv s) as Hs.
  { revert s Hr. apply (rtc_ind_r sched_inv); [by apply New_inv|]. intros; by eapply sched_step_inv. }
  split_and!; [apply Hs|intros r x Hx; apply (run_facts s r x Hs Hx)|].
  intros r x Hx Hpc. destruct (run_facts s r x Hs Hx) as (_ & Hrun & Hcan). rewrite Hpc in *. simpl in *.
  destruct (si_ids _ Hs _ _ Hx) as [_ Hj]. split.
  - unfold TriggerRun. by rewrite Hj, Hrun.
  - unfold StopJob. by rewrite Hcan, Hx, Hpc.
Qed.
End runs.

(** ** Overlapping runs *)

Definition off_daily : DailyJobConfig := MkDaily false [] 0 0.
Definition sample_cfg : SchedulerConfig := MkConfig (MkDaily true [0; 3] 3 30) off_daily (MkWatch false 0) [].
Definition noon : Time := MkTime (63870465600 * Second) UTC.
Definition sample : Scheduler := New sample_cfg {["movies" := "movies"]} ∅ (λ _, noon).

Definition trigger (s : Scheduler) : Scheduler := (TriggerRun "movies" s).2.
Definition go (r : nat) (s : Scheduler) : Scheduler := default s (run_step r noon Completed s).

(** Two requests before the first goroutine runs; the first run then ends. *)
Definition overlap : Scheduler := Nat.iter 6 (go 0) (Nat.iter 2 (go 1) (trigger (trigger sample))).

Lemma trigger_step s : sched_step false s (trigger s).
Proof. by apply s_trigger. Qed.

Lemma go_step serial r s : rtc (sched_step serial) s (go r s).
Proof.
  unfold go. destruct (run_step r noon Completed s) eqn:Hr; [|done].
  apply rtc_once. by apply s_run with r noon Completed.
Qed.

Lemma go_steps r n s : rtc (sched_step false) s (Nat.iter n (go r) s).
Proof. induction n as [|n IH]; simpl; [done|]. etrans; [exact IH|apply go_step]. Qed.

(** Two requests to start a job that come before the first goroutine has
    marked it both start it. When the first run ends, the other one still
    executes, but the tracker says the job is not running, it cannot be stopped
    and a third run can be started. *)
Theorem overlapping_runs_lose_track :
  rtc (sched_step false) sample overlap ∧
  (r_pc <$> runs overlap !! 1%nat) = Some Executing ∧ runs overlap !! 0%nat = None ∧
  Running (Tracker "movies" overlap) = false ∧ (StopJob "movies" overlap).1 = false ∧
  (TriggerRun "movies" overlap).1 = TOk.
Proof.
  split; [|split_and!; vm_compute; reflexivity].
  unfold overlap. eapply rtc_l; [apply trigger_step|]. eapply rtc_l; [apply trigger_step|].
  etrans; [apply (go_steps 1 2)|apply go_steps].
Qed.

(** ** Witnesses *)

Lemma nextRunTime_least_witness :
  nextRunTime noon (MoviesSync sample_cfg) = slot UTC (MoviesSync sample_cfg) 739244 ∧
  ((∃ d, nextRunTime noon (MoviesSync sample_cfg) = slot UTC (MoviesSync sample_cfg) d) ∨
   nextRunTime noon (MoviesSync sample_cfg) = zero_time).
Proof.
  split; [vm_compute; reflexivity|].
  destruct (nextRunTime_least UTC 0 noon (MoviesSync sample_cfg) (λ _, eq_refl) eq_refl) as [(d & H & _)|[_ H]];
    [split; simpl; lia|reflexivity|left; exists d; exact H|right; exact H].
Defined.

Definition movies_daily : DailyJobConfig := MoviesSync sample_cfg.

Lemma movies_valid : valid_daily movies_daily.
Proof. split; simpl; lia. Qed.

Definition sample_job : JobState := MkJob zero_time (slot UTC movies_daily 739244) false "" "".

Lemma sample_waiting : waiting UTC movies_daily sample_job noon 739244.
Proof.
  split; [done|done| |done].
  destruct (nextRunTime_cases UTC 0 (λ _, eq_refl) noon movies_daily movies_valid eq_refl eq_refl) as [(d & Hd & Hn)|[Hno _]].
  - assert (d = 739244) as <-; [|done].
    rewrite <- (slot_day UTC 0 (λ _, eq_refl) movies_daily d movies_valid), <- Hd. by vm_compute.
  - specialize (Hno 739244). by vm_compute in Hno.
Qed.

(** Ticks one minute apart around the slot. *)
Definition at_slot (s : Z) : Time := MkTime (ns (slot UTC movies_daily 739244) + s * Second) UTC.

Lemma daily_job_on_schedule_witness :
  (job_ticks sample_cfg "movies" sample_job
    [(at_slot (-80), at_slot (-80)); (at_slot (-20), at_slot (-19)); (at_slot 40, at_slot 40)]).1 = [false; false; true].
Proof.
  apply (daily_job_on_schedule UTC 0 sample_cfg "movies" movies_daily sample_job noon 739244
    [(at_slot (-80), at_slot (-80)); (at_slot (-20), at_slot (-19))] (at_slot 40) (at_slot 40));
    [reflexivity|reflexivity|exact movies_valid|reflexivity|exact sample_waiting| |reflexivity| |left; reflexivity].
  - repeat constructor; vm_compute; congruence.
  - split; vm_compute; congruence.
Defined.

Lemma slot_missed_witness :
  shouldRun sample_cfg (at_slot (-1)) "movies" sample_job = false ∧
  ∃ d', 739244 < d' ∧ NextRun (update_next sample_cfg (at_slot 1) "movies" sample_job) = slot UTC movies_daily d'.
Proof.
  destruct (slot_missed_between_readings UTC 0 sample_cfg "movies" movies_daily sample_job noon 739244
    (at_slot (-1)) (at_slot 1)) as [H (d' & Hd & Hn & _)];
    [reflexivity|reflexivity|exact movies_valid|reflexivity|exact sample_waiting|reflexivity|reflexivity| |].
  - split; vm_compute; congruence.
  - split; [exact H|exists d'; split; [exact Hd|exact Hn]].
Defined.

Lemma runs_on_record_witness :
  StopJob "movies" (go 0 (go 0 (trigger sample))) =
    (true, set_run 0 (MkRun "movies" "movies" Executing true) (go 0 (go 0 (trigger sample)))).
Proof.
  assert (∀ name n : string, ({["movies" := "movies"]} : gmap string string) !! name = Some n → n = name) as Hn.
  { intros name n [<- <-]%lookup_singleton_Some. reflexivity. }
  assert (rtc (sched_step true) sample (go 0 (go 0 (trigger sample)))) as Hr.
  { eapply rtc_l; [apply (s_trigger true sample "movies"); intros _ r x Hx; change (runs sample) with (∅ : gmap nat run) in Hx; by rewrite lookup_empty in Hx|].
    etrans; apply go_step. }
  assert (runs (go 0 (go 0 (trigger sample))) !! 0%nat = Some (MkRun "movies" "movies" Executing false)) as Hx
    by (vm_compute; reflexivity).
  exact (proj2 (proj2 (proj2 (runs_on_record _ _ _ _ _ Hn Hr)) 0%nat _ Hx eq_refl)).
Defined.
