(* ===== verification/Settings.v ===== *)
(** * The settings store (internal/gostorm/settings)

    Settings and torrents are kept in a key-value store with two-level keys. The
    interface [GoStormDB] has three implementations in the code, which are
    stacked: JSON files ([JsonDB], jsondb.go), a router that sends each path to
    a store by the longest registered prefix ([XPathDBRouter],
    xpathdbrouter.go) and a read cache ([DBReadCache], dbreadcache.go). A
    fourth, over the third-party bbolt, is a parameter. What one layer promises
    to the next is the class [KVStore]: the store behaves as a map, for the
    paths and values it is used with. The torrent list (torrent.go) is proved
    against that class.

    The JSON encoder is an interface too: this code stores and returns encoded
    objects and does not look inside. The file system does not fail. *)

From S2P Require Import Prelude.

Local Open Scope string_scope.
Local Open Scope Z_scope.

Abbreviation bytes := (list byte).

(** ** The interface *)

(** [None] is a nil slice. *)
Class GoStormDB (S : Type) := {
  Get : string → string → S → option bytes * S;
  Set_ : string → string → bytes → S → S;
  List : string → S → list string * S;
  Rem : string → string → S → S;
  Clear : string → S → S;
}.
#[export] Hint Mode GoStormDB ! : typeclass_instances.

(** What a store promises for the paths [okp] and the values [okv] of a path:
    it is a map from paths and names to values. *)
Class KVStore (S : Type) `{!GoStormDB S} (okp : string → Prop) (okv : string → bytes → Prop) := {
  kv_inv : S → Prop;
  kv_view : S → string → string → option bytes;
  kv_Get s x n : kv_inv s → okp x →
    (Get x n s).1 = kv_view s x n ∧ kv_inv (Get x n s).2 ∧
    ∀ y m, okp y → kv_view (Get x n s).2 y m = kv_view s y m;
  kv_Set s x n v : kv_inv s → okp x → okv x v →
    kv_inv (Set_ x n v s) ∧
    ∀ y m, okp y → kv_view (Set_ x n v s) y m = if decide (y = x ∧ m = n) then Some v else kv_view s y m;
  kv_List s x : kv_inv s → okp x →
    (∀ n, n ∈ (List x s).1 ↔ is_Some (kv_view s x n)) ∧ NoDup (List x s).1 ∧ kv_inv (List x s).2 ∧
    ∀ y m, okp y → kv_view (List x s).2 y m = kv_view s y m;
  kv_Rem s x n : kv_inv s → okp x →
    kv_inv (Rem x n s) ∧
    ∀ y m, okp y → kv_view (Rem x n s) y m = if decide (y = x ∧ m = n) then None else kv_view s y m;
  kv_Clear s x : kv_inv s → okp x →
    kv_inv (Clear x s) ∧
    ∀ y m, okp y → kv_view (Clear x s) y m = if decide (y = x) then None else kv_view s y m;
}.

(** ** JSON files *)

(** Encoding objects: what is decoded is encoded again, what is encoded decodes. *)
Class Json := {
  jval : Type;
  Unmarshal : bytes → option jval;
  Marshal : jval → bytes;
  Unmarshal_Marshal o : Unmarshal (Marshal o) = Some o;
}.

Section json_db.
Context `{HJ : !Json} `{HM : !MapRange}.

(** A file that is not a JSON object, or one. *)
Inductive json_file := Corrupt | Table (m : gmap string jval).

(** The files of the directory, by name. *)
Record JsonDB := MkJsonDB { files : gmap string json_file }.

Fixpoint slash_to_dot (s : string) : string :=
  match s with
  | EmptyString => EmptyString
  | String c s' => String (if bool_decide (c = Ascii.Ascii true true true true false true false false)
                           then Ascii.Ascii false true true true false true false false else c) (slash_to_dot s')
  end.

(** The components of the path, joined by dots. *)
Definition xPathToFilename (xPath : string) : string := ToLower (slash_to_dot xPath +:+ ".json").

(** The error of [os.ReadFile] and of [json.Unmarshal] is lost in an inner
    scope: the caller gets an empty map. *)
Definition readJsonFileAsMap (filename : string) (d : JsonDB) : gmap string jval :=
  match files d !! filename with
  | Some (Table m) => m
  | Some Corrupt | None => ∅
  end.

Definition writeMapAsJsonFile (filename : string) (m : gmap string jval) (d : JsonDB) : JsonDB :=
  MkJsonDB (<[filename := Table m]> (files d)).

Definition JsonDB_Set (xPath name : string) (value : bytes) (d : JsonDB) : JsonDB :=
  match Unmarshal value with
  | Some jsonObj =>
      let filename := xPathToFilename xPath in
      writeMapAsJsonFile filename (<[name := jsonObj]> (readJsonFileAsMap filename d)) d
  | None => d
  end.

Definition JsonDB_Get (xPath name : string) (d : JsonDB) : option bytes :=
  Marshal <$> readJsonFileAsMap (xPathToFilename xPath) d !! name.

Definition JsonDB_List (xPath : string) (d : JsonDB) : list string :=
  range_order 0 (map_to_list (readJsonFileAsMap (xPathToFilename xPath) d)).*1.

Definition JsonDB_Rem (xPath name : string) (d : JsonDB) : JsonDB :=
  let filename := xPathToFilename xPath in
  writeMapAsJsonFile filename (delete name (readJsonFileAsMap filename d)) d.

Definition JsonDB_Clear (xPath : string) (d : JsonDB) : JsonDB :=
  writeMapAsJsonFile (xPathToFilename xPath) ∅ d.

#[export] Instance JsonDB_GoStormDB : GoStormDB JsonDB := {|
  Get := λ x n d, (JsonDB_Get x n d, d);
  Set_ := JsonDB_Set;
  List := λ x d, (JsonDB_List x d, d);
  Rem := JsonDB_Rem;
  Clear := JsonDB_Clear;
|}.

Lemma readJson_write f f' m d :
  readJsonFileAsMap f (writeMapAsJsonFile f' m d) = if decide (f = f') then m else readJsonFileAsMap f d.
Proof.
  unfold readJsonFileAsMap, writeMapAsJsonFile. simpl. rewrite lookup_insert. repeat case_decide; by subst.
Qed.

(** JSON files are a key-value store for paths with different file names, and
    values as the encoder writes them. *)
Program Instance JsonDB_KVStore (okp : string → Prop)
    (Hinj : ∀ x y, okp x → okp y → xPathToFilename x = xPathToFilename y → x = y) :
  KVStore JsonDB okp (λ _ v, ∃ o, v = Marshal o) := {|
  kv_inv := λ _, True;
  kv_view := λ d x n, JsonDB_Get x n d;
|}.
Next Obligation. done. Qed.
Next Obligation.
  intros okp Hinj d x n v _ Hx (o & ->). split; [done|]. intros y m Hy. simpl.
  unfold JsonDB_Set, JsonDB_Get. rewrite Unmarshal_Marshal, readJson_write.
  destruct (decide (y = x ∧ m = n)) as [[-> ->]|Hne].
  - by rewrite decide_True, lookup_insert_eq.
  - case_decide as Hf; [|done]. apply Hinj in Hf as ->; [|done..]. rewrite lookup_insert_ne; [done|naive_solver].
Qed.
Next Obligation.
  intros okp Hinj d x _ Hx. simpl. unfold JsonDB_List, JsonDB_Get. split_and!; [|rewrite range_order_perm; apply NoDup_fst_map_to_list|done|done].
  intros n. rewrite range_order_perm, list_elem_of_fmap, fmap_is_Some. split.
  - intros ([k v] & -> & Hk%elem_of_map_to_list). by eexists.
  - intros [v Hv]. exists (n, v). split; [done|]. by apply elem_of_map_to_list.
Qed.
Next Obligation.
  intros okp Hinj d x n _ Hx. split; [done|]. intros y m Hy. simpl. unfold JsonDB_Rem, JsonDB_Get. rewrite readJson_write.
  destruct (decide (y = x ∧ m = n)) as [[-> ->]|Hne].
  - by rewrite decide_True, lookup_delete_eq.
  - case_decide as Hf; [|done]. apply Hinj in Hf as ->; [|done..]. rewrite lookup_delete_ne; [done|naive_solver].
Qed.
Next Obligation.
  intros okp Hinj d x _ Hx. split; [done|]. intros y m Hy. simpl. unfold JsonDB_Clear, JsonDB_Get. rewrite readJson_write.
  destruct (decide (y = x)) as [->|Hne]; [by rewrite decide_True, lookup_empty|].
  case_decide as Hf; [by apply Hinj in Hf|done].
Qed.
End json_db.

(** ** The read cache *)

Section read_cache.
Context {S : Type} `{HD : !GoStormDB S}.

(** The package variable. *)
Context (ReadOnly : bool).

(** [None] is nil: after [CloseDB]. *)
Record DBReadCache := MkCache {
  c_db : option S;
  listCache : option (gmap string (list string));
  dataCache : option (gmap (string * string) (option bytes));
}.

Definition NewDBReadCache (db : S) : DBReadCache := MkCache (Some db) (Some ∅) (Some ∅).

Definition Cache_CloseDB (c : DBReadCache) : DBReadCache := MkCache None None None.

(** The two critical sections of [Get] with the read of the store between them. *)
Definition cache_put (x n : string) (data : option bytes) (c : DBReadCache) : DBReadCache :=
  MkCache (c_db c) (listCache c) (<[(x, n) := data]> <$> dataCache c).

Definition Cache_Get (x n : string) (c : DBReadCache) : option bytes * DBReadCache :=
  match dataCache c with
  | None => (None, c)
  | Some dc =>
      match dc !! (x, n) with
      | Some data => (data, c)
      | None =>
          match c_db c with
          | None => (None, c)
          | Some db =>
              let '(data, db') := Get x n db in
              (data, cache_put x n data (MkCache (Some db') (listCache c) (dataCache c)))
          end
      end
  end.

Definition Cache_Set (x n : string) (value : bytes) (c : DBReadCache) : DBReadCache :=
  if ReadOnly then c
  else match dataCache c, c_db c with
       | Some dc, Some db =>
           MkCache (Some (Set_ x n value db)) (delete x <$> listCache c) (Some (<[(x, n) := Some value]> dc))
       | _, _ => c
       end.

Definition Cache_List (x : string) (c : DBReadCache) : list string * DBReadCache :=
  match listCache c with
  | None => ([], c)
  | Some lc =>
      match lc !! x with
      | Some names => (names, c)
      | None =>
          match c_db c with
          | None => ([], c)
          | Some db =>
              let '(names, db') := List x db in
              (names, MkCache (Some db') (Some (<[x := names]> lc)) (dataCache c))
          end
      end
  end.

Definition Cache_Rem (x n : string) (c : DBReadCache) : DBReadCache :=
  if ReadOnly then c
  else match dataCache c, c_db c with
       | Some dc, Some db =>
           MkCache (Some (Rem x n db)) (delete x <$> listCache c) (Some (delete (x, n) dc))
       | _, _ => c
       end.

Definition Cache_Clear (x : string) (c : DBReadCache) : DBReadCache :=
  if ReadOnly then c
  else MkCache (Clear x <$> c_db c) (delete x <$> listCache c) (filter (λ kv, kv.1.1 ≠ x) <$> dataCache c).

#[export] Instance DBReadCache_GoStormDB : GoStormDB DBReadCache := {|
  Get := Cache_Get;
  Set_ := Cache_Set;
  List := Cache_List;
  Rem := Cache_Rem;
  Clear := Cache_Clear;
|}.

Context (okp : string → Prop) (okv : string → bytes → Prop) `{HK : !KVStore S okp okv}.

(** The caches agree with the store. *)
Record cache_ok (c : DBReadCache) (db : S) (lc : gmap string (list string)) (dc : gmap (string * string) (option bytes)) : Prop := {
  co_eq : c = MkCache (Some db) (Some lc) (Some dc);
  co_db : kv_inv db;
  co_data x n r : okp x → dc !! (x, n) = Some r → r = kv_view db x n;
  co_list x l : okp x → lc !! x = Some l → NoDup l ∧ ∀ n, n ∈ l ↔ is_Some (kv_view db x n);
}.

Definition cache_inv (c : DBReadCache) : Prop := ∃ db lc dc, cache_ok c db lc dc.
Definition cache_view (c : DBReadCache) (x n : string) : option bytes := c_db c ≫= λ db, kv_view db x n.

Hypothesis writable : ReadOnly = false.

(** A read of the store below leaves the caches right. *)
Lemma cache_ok_reads c db db' lc dc :
  cache_ok c db lc dc → kv_inv db' → (∀ y m, okp y → kv_view db' y m = kv_view db y m) →
  cache_ok (MkCache (Some db') (Some lc) (Some dc)) db' lc dc.
Proof using.
  intros [_ _ Hd Hl] Hi Hv. split; [done|done| |].
  - intros x n r Hx Hr. rewrite Hv by done. eauto.
  - intros x l Hx Hr. destruct (Hl x l Hx Hr) as [? Hn]. split; [done|]. intros n. rewrite Hv by done. apply Hn.
Qed.

#[export] Program Instance DBReadCache_KVStore : KVStore DBReadCache okp okv := {|
  kv_inv := cache_inv;
  kv_view := cache_view;
|}.
Next Obligation.
  intros c x n (db & lc & dc & Hok) Hx. pose proof Hok as [-> Hi Hd Hl]. simpl. unfold Cache_Get, cache_view. simpl.
  destruct (dc !! (x, n)) as [r|] eqn:Hr; simpl; [split_and!; [by apply Hd|by exists db, lc, dc|done]|].
  destruct (kv_Get db x n Hi Hx) as (Hg & Hi' & Hv). destruct (Get x n db) as [r db'] eqn:Hget. simpl in *. subst r.
  split_and!; [done| |done]. destruct (cache_ok_reads _ _ _ _ _ Hok Hi' Hv) as [_ _ Hd' Hl'].
  exists db', lc, (<[(x, n) := kv_view db x n]> dc). split; [done|done| |done].
  intros y m r Hy [[[= <- <-] <-]|[_ Hin]]%lookup_insert_Some; [by rewrite Hv|by apply Hd'].
Qed.
Next Obligation.
  intros c x n v (db & lc & dc & [-> Hi Hd Hl]) Hx Hval. simpl. unfold Cache_Set. rewrite writable. simpl.
  destruct (kv_Set db x n v Hi Hx Hval) as [Hi' Hv]. unfold cache_view. simpl. split; [|done].
  exists (Set_ x n v db), (delete x lc), (<[(x, n) := Some v]> dc). split; [done|done| |].
  - intros y m r Hy. rewrite Hv by done. intros [[[= <- <-] <-]|[Hne Hin]]%lookup_insert_Some; [by rewrite decide_True|].
    rewrite decide_False by naive_solver. by apply Hd.
  - intros y l Hy [Hne Hin]%lookup_delete_Some. destruct (Hl y l Hy Hin) as [? Hn]. split; [done|].
    intros m. rewrite Hv, decide_False by naive_solver. apply Hn.
Qed.
Next Obligation.
  intros c x (db & lc & dc & Hok) Hx. pose proof Hok as [-> Hi Hd Hl]. simpl. unfold Cache_List, cache_view. simpl.
  destruct (lc !! x) as [l|] eqn:Hr; simpl.
  { destruct (Hl x l Hx Hr). split_and!; [done|done|by exists db, lc, dc|done]. }
  destruct (kv_List db x Hi Hx) as (Hg & Hnd & Hi' & Hv). destruct (List x db) as [l db'] eqn:Hget. simpl in *.
  split_and!; [done|done| |done]. destruct (cache_ok_reads _ _ _ _ _ Hok Hi' Hv) as [_ _ Hd' Hl'].
  exists db', (<[x := l]> lc), dc. split; [done|done|done|].
  intros y l' Hy [[<- <-]|[_ Hin]]%lookup_insert_Some; [|by apply Hl'].
  split; [done|]. intros n. rewrite Hv by done. apply Hg.
Qed.
Next Obligation.
  intros c x n (db & lc & dc & [-> Hi Hd Hl]) Hx. simpl. unfold Cache_Rem. rewrite writable. simpl.
  destruct (kv_Rem db x n Hi Hx) as [Hi' Hv]. unfold cache_view. simpl. split; [|done].
  exists (Rem x n db), (delete x lc), (delete (x, n) dc). split; [done|done| |].
  - intros y m r Hy. rewrite Hv by done. intros [Hne Hin]%lookup_delete_Some.
    rewrite decide_False by naive_solver. by apply Hd.
  - intros y l Hy [Hne Hin]%lookup_delete_Some. destruct (Hl y l Hy Hin) as [? Hn]. split; [done|].
    intros m. rewrite Hv, decide_False by naive_solver. apply Hn.
Qed.
Next Obligation.
  intros c x (db & lc & dc & [-> Hi Hd Hl]) Hx. simpl. unfold Cache_Clear. rewrite writable. simpl.
  destruct (kv_Clear db x Hi Hx) as [Hi' Hv]. unfold cache_view. simpl. split; [|done].
  exists (Clear x db), (delete x lc), (filter (λ kv, kv.1.1 ≠ x) dc). split; [done|done| |].
  - intros y m r Hy. rewrite Hv by done. intros [Hin Hne]%map_lookup_filter_Some. simpl in Hne.
    rewrite decide_False by done. by apply Hd.
  - intros y l Hy [Hne Hin]%lookup_delete_Some. destruct (Hl y l Hy Hin) as [? Hn]. split; [done|].
    intros m. rewrite Hv, decide_False by done. apply Hn.
Qed.

Lemma NewDBReadCache_inv db : kv_inv db → cache_inv (NewDBReadCache db).
Proof using. intros Hi. exists db, ∅, ∅. split; [done|done|by intros; simplify_map_eq..]. Qed.
End read_cache.

(** ** The router *)

(** Stores are pointers: [heap] gives what they point to. *)
Record XPathDBRouter (S : Type) := MkRouter {
  dbs : list nat;
  routes : list string;
  route2db : gmap string nat;
  heap : gmap nat S;
}.
Arguments MkRouter {S}.
Arguments dbs {S}.
Arguments routes {S}.
Arguments route2db {S}.
Arguments heap {S}.

(** [strings.TrimSpace] on ASCII text. *)
Definition is_space (c : Ascii.ascii) : bool := (ord c =? 32) || ((9 <=? ord c) && (ord c <=? 13)).

Fixpoint trim_left (s : string) : string :=
  match s with
  | String c s' => if is_space c then trim_left s' else s
  | EmptyString => EmptyString
  end.

Fixpoint trim_right (s : string) : string :=
  match s with
  | EmptyString => EmptyString
  | String c s' => match trim_right s' with
                   | EmptyString => if is_space c then EmptyString else String c EmptyString
                   | t => String c t
                   end
  end.

Definition xPathToRoute (xPath : string) : string := ToLower (trim_right (trim_left xPath)).

Definition longer (a b : string) : bool := (String.length b <? String.length a)%nat.

Section router.
Context {S : Type} `{HD : !GoStormDB S} `{HS : !SliceSort}.

Definition NewXPathDBRouter (h : gmap nat S) : XPathDBRouter S := MkRouter [] [] ∅ h.

Definition add_route (db : nat) (route : string) (r : XPathDBRouter S) : XPathDBRouter S :=
  MkRouter (if bool_decide (db ∈ dbs r) then dbs r else (dbs r ++ [db])%list)
    (sort_slice longer (routes r ++ [route])%list) (<[route := db]> (route2db r)) (heap r).

(** The first store also gets the default route, by a recursive call whose
    error is ignored. [false] is the error. *)
Definition RegisterRoute (db : nat) (xPath : string) (r : XPathDBRouter S) : bool * XPathDBRouter S :=
  let newRoute := xPathToRoute xPath in
  if bool_decide (newRoute ∈ routes r) then (false, r)
  else
    let r := if bool_decide (dbs r = []) && bool_decide (newRoute ≠ "")
             then if bool_decide ("" ∈ routes r) then r else add_route db "" r
             else r in
    (true, add_route db newRoute r).

Definition getDBForXPath (xPath : string) (r : XPathDBRouter S) : option nat :=
  if bool_decide (dbs r = []) then None
  else route ← head (filter (λ route, String.prefix route (xPathToRoute xPath) = true) (routes r));
       route2db r !! route.

(** A call on a nil store would panic; the theorem on routes shows when it
    cannot happen. Here the call has no effect. *)
Definition on_db (xPath : string) (f : S → S) (r : XPathDBRouter S) : XPathDBRouter S :=
  match getDBForXPath xPath r with
  | Some id => MkRouter (dbs r) (routes r) (route2db r) (alter f id (heap r))
  | None => r
  end.

Definition db_of (xPath : string) (r : XPathDBRouter S) : option S := getDBForXPath xPath r ≫= λ id, heap r !! id.

Definition Router_Get (x n : string) (r : XPathDBRouter S) : option bytes * XPathDBRouter S :=
  (db_of x r ≫= λ db, (Get x n db).1, on_db x (λ db, (Get x n db).2) r).
Definition Router_Set (x n : string) (v : bytes) (r : XPathDBRouter S) : XPathDBRouter S := on_db x (Set_ x n v) r.
Definition Router_List (x : string) (r : XPathDBRouter S) : list string * XPathDBRouter S :=
  (from_option (λ db, (List x db).1) [] (db_of x r), on_db x (λ db, (List x db).2) r).
Definition Router_Rem (x n : string) (r : XPathDBRouter S) : XPathDBRouter S := on_db x (Rem x n) r.
Definition Router_Clear (x : string) (r : XPathDBRouter S) : XPathDBRouter S := on_db x (Clear x) r.

#[export] Instance Router_GoStormDB : GoStormDB (XPathDBRouter S) := {|
  Get := Router_Get;
  Set_ := Router_Set;
  List := Router_List;
  Rem := Router_Rem;
  Clear := Router_Clear;
|}.

(** *** Routes *)

Record router_ok (r : XPathDBRouter S) : Prop := {
  ro_nodup : NoDup (routes r);
  ro_sorted : sorted_by longer (routes r);
  ro_routes route : route ∈ routes r ↔ is_Some (route2db r !! route);
  ro_dbs route id : route2db r !! route = Some id → id ∈ dbs r;
  ro_default : dbs r ≠ [] → "" ∈ routes r;
}.

#[export] Instance longer_swo : StrictWeakOrder longer.
Proof.
  split; unfold longer.
  - intros x. apply Nat.ltb_irrefl.
  - intros x y z Hxy Hyz. apply Nat.ltb_lt in Hxy, Hyz. apply Nat.ltb_lt. lia.
  - intros x y z Hxy Hyz. apply Nat.ltb_ge in Hxy, Hyz. apply Nat.ltb_ge. lia.
Qed.

Lemma add_route_elem db route r x : x ∈ routes (add_route db route r) ↔ x ∈ routes r ∨ x = route.
Proof. simpl. rewrite sort_slice_perm, elem_of_app, list_elem_of_singleton. done. Qed.

(** Adding a route keeps all but the presence of the default route. *)
Lemma add_route_ok db route r :
  NoDup (routes r) → (∀ x, x ∈ routes r ↔ is_Some (route2db r !! x)) →
  (∀ x id, route2db r !! x = Some id → id ∈ dbs r) → route ∉ routes r →
  ("" ∈ routes r ∨ route = "") → router_ok (add_route db route r).
Proof.
  intros Hnd Hr Hd Hni Hdef. split.
  - simpl. rewrite sort_slice_perm. apply NoDup_app. split_and!; [done| |apply NoDup_singleton]. set_solver.
  - simpl. apply sort_slice_sorted. apply _.
  - intros x. rewrite add_route_elem, Hr. simpl. rewrite lookup_insert_is_Some'. naive_solver.
  - intros x id. simpl. rewrite lookup_insert_Some. intros [[_ <-]|[_ Hx]].
    + case_bool_decide; set_solver.
    + apply Hd in Hx. case_bool_decide; set_solver.
  - intros _. apply add_route_elem. naive_solver.
Qed.

Lemma RegisterRoute_ok db xPath r : router_ok r → router_ok (RegisterRoute db xPath r).2.
Proof.
  intros Hr. pose proof Hr as [Hnd Hs Hro Hd Hdef]. unfold RegisterRoute.
  destruct (bool_decide_reflect (xPathToRoute xPath ∈ routes r)) as [|Hni]; [done|]. cbn [snd].
  destruct (bool_decide_reflect (dbs r = [])) as [Hnil|Hne]; cbn [andb]; cycle 1.
  { apply add_route_ok; [done..|left; auto]. }
  assert (routes r = []) as Hempty.
  { apply elem_of_nil_inv. intros x [id Hx]%Hro. apply Hd in Hx. rewrite Hnil in Hx. by apply not_elem_of_nil in Hx. }
  destruct (bool_decide_reflect (xPathToRoute xPath ≠ "")) as [Hx|Hx].
  - rewrite (bool_decide_false ("" ∈ routes r)) by (rewrite Hempty; set_solver).
    assert (router_ok (add_route db "" r)) as [Hnd' Hs' Hro' Hd' Hdef'].
    { apply add_route_ok; [done|done|done|rewrite Hempty; set_solver|by right]. }
    apply add_route_ok; [done|done|done| |left; apply Hdef'].
    + rewrite add_route_elem, Hempty. set_solver.
    + simpl. by rewrite Hnil, bool_decide_false by apply not_elem_of_nil.
  - apply dec_stable in Hx. apply add_route_ok; [done..|by right].
Qed.

Lemma prefix_refl_empty s : String.prefix "" s = true.
Proof. by destruct s. Qed.

Lemma prefix_length a s : String.prefix a s = true → (String.length a ≤ String.length s)%nat.
Proof.
  revert s. induction a as [|c a IH]; intros [|d s]; simpl; intros Hp; [lia|lia|done|].
  destruct (Ascii.ascii_dec c d); [|done]. apply IH in Hp. lia.
Qed.

(** Two prefixes of a string with the same length are equal. *)
Lemma prefix_same_length a b s :
  String.prefix a s = true → String.prefix b s = true → String.length a = String.length b → a = b.
Proof.
  revert b s. induction a as [|c a IH]; intros [|c' b] [|d s]; simpl; try done.
  destruct (Ascii.ascii_dec c d), (Ascii.ascii_dec c' d); try done. subst. intros Ha Hb [= Hl].
  f_equal. by eapply IH.
Qed.

(** The first match in an ordered table is the longest. *)
Lemma first_longest rs s :
  sorted_by longer rs →
  match head (filter (λ route, String.prefix route s = true) rs) with
  | Some route => route ∈ rs ∧ String.prefix route s = true ∧
      ∀ route', route' ∈ rs → String.prefix route' s = true → (String.length route' ≤ String.length route)%nat
  | None => ∀ route, route ∈ rs → String.prefix route s = false
  end.
Proof.
  intros Hs. induction Hs as [|a rs Hs IH Ha]; [by intros route Hr%not_elem_of_nil|].
  rewrite filter_cons. case_decide as Hp; simpl.
  - split_and!; [by left|done|]. intros route' [->|Hin]%elem_of_cons Hp'; [lia|].
    rewrite Forall_forall in Ha. specialize (Ha _ Hin). unfold longer in Ha. apply Nat.ltb_ge in Ha. lia.
  - destruct (head _) as [route|].
    + destruct IH as (Hin & Hpr & Hmax). split_and!; [by right|done|].
      intros route' [->|Hin']%elem_of_cons Hp'; [done|auto].
    + intros route [->|Hin]%elem_of_cons; [by apply not_true_iff_false|auto].
Qed.
End router.

(** *** The router as a store *)

Section router_store.
Context {S : Type} `{HD : !GoStormDB S}.
Context (okp : string → Prop) (okv : string → bytes → Prop) (target : string → option nat).
Context (KS : ∀ id, KVStore S (λ x, okp x ∧ target x = Some id) okv).

(** The routes send each path to its target, which is a store in good order. *)
Record router_inv (r : XPathDBRouter S) : Prop := {
  ri_target x : okp x → getDBForXPath x r = target x;
  ri_db x : okp x → ∃ id db, target x = Some id ∧ heap r !! id = Some db ∧ @kv_inv _ _ _ _ (KS id) db;
}.

Definition router_view (r : XPathDBRouter S) (x n : string) : option bytes :=
  id ← target x; db ← heap r !! id; @kv_view _ _ _ _ (KS id) db x n.

Lemma on_db_spec x f r (g : string → string → option bytes → option bytes) :
  router_inv r → okp x →
  (∀ id db, target x = Some id → heap r !! id = Some db → @kv_inv _ _ _ _ (KS id) db →
     @kv_inv _ _ _ _ (KS id) (f db) ∧
     ∀ y m, okp y → target y = Some id → @kv_view _ _ _ _ (KS id) (f db) y m = g y m (@kv_view _ _ _ _ (KS id) db y m)) →
  router_inv (on_db x f r) ∧
  ∀ y m, okp y → router_view (on_db x f r) y m = if decide (target y = target x) then g y m (router_view r y m) else router_view r y m.
Proof.
  intros [Ht Hd] Hx Hf. destruct (Hd x Hx) as (id & db & Hid & Hdb & Hinv). destruct (Hf id db Hid Hdb Hinv) as [Hinv' Hv].
  unfold on_db. rewrite (Ht x Hx), Hid. split.
  - split; [exact Ht|]. intros y Hy. destruct (Hd y Hy) as (id' & db' & Hid' & Hdb' & Hinv''). exists id'. simpl.
    destruct (decide (id' = id)) as [->|Hne].
    + exists (f db). rewrite lookup_alter_eq, Hdb. done.
    + exists db'. rewrite lookup_alter_ne by done. done.
  - intros y m Hy. unfold router_view. simpl. destruct (Hd y Hy) as (id' & db' & Hid' & Hdb' & _).
    rewrite Hid'. simpl. destruct (decide (id' = id)) as [->|Hne].
    + rewrite decide_True by done. rewrite lookup_alter_eq, Hdb. simpl. by apply Hv.
    + rewrite decide_False by congruence. by rewrite lookup_alter_ne.
Qed.

#[export] Program Instance Router_KVStore : KVStore (XPathDBRouter S) okp okv := {|
  kv_inv := router_inv;
  kv_view := router_view;
|}.
Next Obligation.
  intros r x n Hr Hx. destruct (on_db_spec x (λ db, (Get x n db).2) r (λ _ _ v, v) Hr Hx) as [Hi Hv].
  { intros id db Hid Hdb Hinv. destruct (@kv_Get _ _ _ _ (KS id) db x n Hinv) as (_ & ? & Hg); [done|]. split; [done|].
    intros y m Hy Hy'. by apply Hg. }
  simpl. split_and!; [|done|intros y m Hy; rewrite Hv by done; by case_decide].
  destruct (ri_db _ Hr x Hx) as (id & db & Hid & Hdb & Hinv). unfold Router_Get, db_of, router_view. simpl.
  rewrite (ri_target _ Hr x Hx), Hid. simpl. rewrite Hdb. simpl.
  by destruct (@kv_Get _ _ _ _ (KS id) db x n Hinv) as (? & _).
Qed.
Next Obligation.
  intros r x n v Hr Hx Hval. destruct (on_db_spec x (Set_ x n v) r
    (λ y m w, if decide (y = x ∧ m = n) then Some v else w) Hr Hx) as [Hi Hv].
  { intros id db Hid Hdb Hinv. destruct (@kv_Set _ _ _ _ (KS id) db x n v Hinv) as (? & Hg); [done..|]. split; [done|].
    intros y m Hy Hy'. by apply Hg. }
  simpl. split; [done|]. intros y m Hy. unfold Router_Set. rewrite Hv by done. repeat case_decide; naive_solver.
Qed.
Next Obligation.
  intros r x Hr Hx. destruct (on_db_spec x (λ db, (List x db).2) r (λ _ _ v, v) Hr Hx) as [Hi Hv].
  { intros id db Hid Hdb Hinv. destruct (@kv_List _ _ _ _ (KS id) db x Hinv) as (_ & _ & ? & Hg); [done|]. split; [done|].
    intros y m Hy Hy'. by apply Hg. }
  simpl. destruct (ri_db _ Hr x Hx) as (id & db & Hid & Hdb & Hinv). unfold Router_List, db_of, router_view in *. simpl in *.
  rewrite (ri_target _ Hr x Hx), Hid. simpl. rewrite Hdb. simpl.
  destruct (@kv_List _ _ _ _ (KS id) db x Hinv) as (Hl & Hnd & _); [done|]. split_and!; [done|done|done|].
  intros y m Hy. rewrite Hv by done. by case_decide.
Qed.
Next Obligation.
  intros r x n Hr Hx. destruct (on_db_spec x (Rem x n) r
    (λ y m w, if decide (y = x ∧ m = n) then None else w) Hr Hx) as [Hi Hv].
  { intros id db Hid Hdb Hinv. destruct (@kv_Rem _ _ _ _ (KS id) db x n Hinv) as (? & Hg); [done..|]. split; [done|].
    intros y m Hy Hy'. by apply Hg. }
  simpl. split; [done|]. intros y m Hy. unfold Router_Rem. rewrite Hv by done. repeat case_decide; naive_solver.
Qed.
Next Obligation.
  intros r x Hr Hx. destruct (on_db_spec x (Clear x) r
    (λ y m w, if decide (y = x) then None else w) Hr Hx) as [Hi Hv].
  { intros id db Hid Hdb Hinv. destruct (@kv_Clear _ _ _ _ (KS id) db x Hinv) as (? & Hg); [done..|]. split; [done|].
    intros y m Hy Hy'. by apply Hg. }
  simpl. split; [done|]. intros y m Hy. unfold Router_Clear. rewrite Hv by done. repeat case_decide; naive_solver.
Qed.
End router_store.

(** *** Two kinds of stores behind one interface *)

Section sum_store.
Context {A B : Type} `{HA : !GoStormDB A} `{HB : !GoStormDB B}.

#[export] Instance sum_GoStormDB : GoStormDB (A + B) := {|
  Get := λ x n s, match s with
                  | inl a => let '(v, a) := Get x n a in (v, inl a)
                  | inr b => let '(v, b) := Get x n b in (v, inr b)
                  end;
  Set_ := λ x n v s, match s with inl a => inl (Set_ x n v a) | inr b => inr (Set_ x n v b) end;
  List := λ x s, match s with
                 | inl a => let '(v, a) := List x a in (v, inl a)
                 | inr b => let '(v, b) := List x b in (v, inr b)
                 end;
  Rem := λ x n s, match s with inl a => inl (Rem x n a) | inr b => inr (Rem x n b) end;
  Clear := λ x s, match s with inl a => inl (Clear x a) | inr b => inr (Clear x b) end;
|}.

Context (okp : string → Prop) (okv : string → bytes → Prop).

Program Definition inl_KVStore (K : KVStore A okp okv) : KVStore (A + B) okp okv := {|
  kv_inv := λ s, match s with inl a => kv_inv a | inr _ => False end;
  kv_view := λ s x n, match s with inl a => kv_view a x n | inr _ => None end;
|}.
Next Obligation.
  intros K [a|b] x n Hi Hx; [|done]. simpl. pose proof (kv_Get a x n Hi Hx) as Hg. by destruct (Get x n a).
Qed.
Next Obligation. intros K [a|b] x n v Hi Hx Hv; [|done]. simpl. by apply kv_Set. Qed.
Next Obligation.
  intros K [a|b] x Hi Hx; [|done]. simpl. pose proof (kv_List a x Hi Hx) as Hg. by destruct (List x a).
Qed.
Next Obligation. intros K [a|b] x n Hi Hx; [|done]. simpl. by apply kv_Rem. Qed.
Next Obligation. intros K [a|b] x Hi Hx; [|done]. simpl. by apply kv_Clear. Qed.

Program Definition inr_KVStore (K : KVStore B okp okv) : KVStore (A + B) okp okv := {|
  kv_inv := λ s, match s with inr b => kv_inv b | inl _ => False end;
  kv_view := λ s x n, match s with inr b => kv_view b x n | inl _ => None end;
|}.
Next Obligation.
  intros K [a|b] x n Hi Hx; [done|]. simpl. pose proof (kv_Get b x n Hi Hx) as Hg. by destruct (Get x n b).
Qed.
Next Obligation. intros K [a|b] x n v Hi Hx Hv; [done|]. simpl. by apply kv_Set. Qed.
Next Obligation.
  intros K [a|b] x Hi Hx; [done|]. simpl. pose proof (kv_List b x Hi Hx) as Hg. by destruct (List x b).
Qed.
Next Obligation. intros K [a|b] x n Hi Hx; [done|]. simpl. by apply kv_Rem. Qed.
Next Obligation. intros K [a|b] x Hi Hx; [done|]. simpl. by apply kv_Clear. Qed.
End sum_store.

(** A store keeps its promises for fewer paths and values. *)
Program Definition KVStore_weaken {S} `{!GoStormDB S} {okp okp' : string → Prop} {okv okv' : string → bytes → Prop}
    (K : KVStore S okp okv) (Hp : ∀ x, okp' x → okp x) (Hv : ∀ x v, okp' x → okv' x v → okv x v) : KVStore S okp' okv' := {|
  kv_inv := kv_inv;
  kv_view := kv_view;
|}.
Next Obligation. intros S HD okp okp' okv okv' K Hp Hv s x n Hi Hx. destruct (kv_Get s x n Hi) as (? & ? & ?); auto. Qed.
Next Obligation. intros S HD okp okp' okv okv' K Hp Hv s x n v Hi Hx Hval. destruct (kv_Set s x n v Hi) as (? & ?); auto. Qed.
Next Obligation. intros S HD okp okp' okv okv' K Hp Hv s x Hi Hx. destruct (kv_List s x Hi) as (? & ? & ? & ?); [by auto|]. split_and!; auto. Qed.
Next Obligation. intros S HD okp okp' okv okv' K Hp Hv s x n Hi Hx. destruct (kv_Rem s x n Hi) as (? & ?); auto. Qed.
Next Obligation. intros S HD okp okp' okv okv' K Hp Hv s x Hi Hx. destruct (kv_Clear s x Hi) as (? & ?); auto. Qed.

(** ** Routing *)

Section routing.
Context {S : Type} `{HD : !GoStormDB S} `{HS : !SliceSort}.

Definition register_all (h : gmap nat S) (regs : list (nat * string)) : XPathDBRouter S :=
  foldl (λ r reg, (RegisterRoute reg.1 reg.2 r).2) (NewXPathDBRouter h) regs.

(** The store a route belongs to: the one that registered it first; the
    default route belongs to the first store. *)
Definition owner (regs : list (nat * string)) (route : string) : option nat :=
  match regs with
  | [] => None
  | (db, _) :: _ =>
      fst <$> head (filter (λ reg, reg.2 = route) ((db, "") :: ((λ reg, (reg.1, xPathToRoute reg.2)) <$> regs)))
  end.

Lemma register_all_ok h regs : router_ok (register_all h regs).
Proof.
  unfold register_all. apply (foldl_inv router_ok); [|intros; by apply RegisterRoute_ok].
  split; simpl; [constructor|constructor| |done|done].
  intros route. rewrite lookup_empty. split; [by intros ?%not_elem_of_nil|by intros [? ?]].
Qed.

Lemma register_all_heap h regs : heap (register_all h regs) = h.
Proof.
  unfold register_all. apply (foldl_inv (λ r, heap r = h)); [done|]. intros r [db x] Hr _. unfold RegisterRoute.
  repeat case_if; done.
Qed.

Lemma owner_snoc regs db x route :
  regs ≠ [] →
  owner (regs ++ [(db, x)])%list route =
    match owner regs route with Some id => Some id | None => if decide (route = xPathToRoute x) then Some db else None end.
Proof.
  intros Hne. destruct regs as [|[db0 x0] regs]; [done|]. unfold owner. cbn [app].
  rewrite app_comm_cons, fmap_app, app_comm_cons, filter_app.
  destruct (filter _ ((db0, "") :: _)); simpl; [|done].
  rewrite filter_cons, filter_nil. simpl. repeat case_decide; congruence || done.
Qed.

Lemma register_all_owner h regs :
  regs ≠ [] → dbs (register_all h regs) ≠ [] ∧ ∀ route, route2db (register_all h regs) !! route = owner regs route.
Proof.
  induction regs as [|[db x] regs IH] using rev_ind; intros Hnn; [done|clear Hnn].
  unfold register_all in *. rewrite foldl_app. cbn [foldl fst snd].
  destruct (decide (regs = [])) as [->|Hne].
  - simpl foldl. unfold RegisterRoute. cbn [routes NewXPathDBRouter]. rewrite bool_decide_false by apply not_elem_of_nil.
    cbn [snd dbs]. rewrite bool_decide_true by done. cbn [andb]. unfold owner. cbn [app fmap list_fmap fst snd].
    destruct (bool_decide_reflect (xPathToRoute x ≠ "")) as [Hx|Hx%dec_stable].
    + rewrite bool_decide_false by apply not_elem_of_nil. split.
      * simpl. repeat case_bool_decide; done.
      * intros route. simpl. rewrite !filter_cons, filter_nil. simpl. rewrite !lookup_insert, lookup_empty.
        repeat case_decide; simpl; congruence || done.
    + split; [simpl; by repeat case_bool_decide|]. intros route. simpl. rewrite !filter_cons, filter_nil. simpl.
      rewrite lookup_insert, lookup_empty. repeat case_decide; simpl; congruence || done.
  - destruct (IH Hne) as [Hd Hr]. set (r := foldl _ _ regs) in *.
    pose proof (register_all_ok h regs) as Hok. unfold register_all in Hok. fold r in Hok.
    unfold RegisterRoute. destruct (bool_decide_reflect (xPathToRoute x ∈ routes r)) as [Hin|Hni]; cbn [snd].
    + split; [done|]. intros route. rewrite owner_snoc by done. rewrite <- Hr.
      apply (ro_routes _ Hok) in Hin. destruct (route2db r !! route) eqn:He; [done|].
      rewrite decide_False; [done|]. intros ->. rewrite He in Hin. by destruct Hin.
    + rewrite (bool_decide_false (dbs r = [])) by done. cbn [andb]. split; [simpl; case_bool_decide; [done|by destruct (dbs r)]|].
      intros route. rewrite owner_snoc by done. rewrite <- Hr. simpl. rewrite lookup_insert.
      destruct (decide (xPathToRoute x = route)) as [<-|Hx].
      * rewrite decide_True by done. destruct (route2db r !! xPathToRoute x) eqn:He; [|done].
        destruct Hni. apply (ro_routes _ Hok). by rewrite He.
      * rewrite decide_False by congruence. by destruct (route2db r !! route).
Qed.

Lemma getDBForXPath_longest h regs x :
  regs ≠ [] →
  ∃ route id, getDBForXPath x (register_all h regs) = Some id ∧ owner regs route = Some id ∧
    String.prefix route (xPathToRoute x) = true ∧
    ∀ route', is_Some (owner regs route') → String.prefix route' (xPathToRoute x) = true →
      (String.length route' ≤ String.length route)%nat.
Proof.
  intros Hne. destruct (register_all_owner h regs Hne) as [Hd Hr].
  pose proof (register_all_ok h regs) as Hok. set (r := register_all h regs) in *.
  unfold getDBForXPath. rewrite bool_decide_false by done.
  pose proof (first_longest (routes r) (xPathToRoute x) (ro_sorted _ Hok)) as Hf.
  destruct (head _) as [route|].
  - destruct Hf as (Hin & Hp & Hmax). apply (ro_routes _ Hok) in Hin as [id Hid].
    exists route, id. simpl. split_and!; [done|by rewrite <- Hr|done|].
    intros route' Ho Hp'. apply Hmax; [|done]. apply (ro_routes _ Hok). by rewrite Hr.
  - specialize (Hf "" (ro_default _ Hok Hd)). by rewrite prefix_refl_empty in Hf.
Qed.
End routing.

(** After any registrations, at least one, every path is sent to a store,
    so that no call reaches a nil store: to the one that first registered the
    longest route that is a prefix of the path, where the first store also has
    the empty route. *)
Theorem router_longest_prefix {S : Type} `{!SliceSort} (h : gmap nat S) regs x :
  regs ≠ [] →
  ∃ route id, getDBForXPath x (register_all h regs) = Some id ∧ owner regs route = Some id ∧
    String.prefix route (xPathToRoute x) = true ∧
    ∀ route', is_Some (owner regs route') → String.prefix route' (xPathToRoute x) = true → route' ≠ route →
      (String.length route' < String.length route)%nat.
Proof.
  intros Hne. destruct (getDBForXPath_longest h regs x Hne) as (route & id & H1 & H2 & H3 & H4).
  exists route, id. split_and!; [done..|]. intros route' Ho Hp Hn. specialize (H4 route' Ho Hp).
  destruct (decide (String.length route' = String.length route)) as [He|]; [|lia].
  by destruct Hn; eapply prefix_same_length.
Qed.

(** ** The specification: a map *)

Inductive op :=
  | OGet (x n : string) | OSet (x n : string) (v : bytes) | OList (x : string) | ORem (x n : string) | OClear (x : string).
Inductive result := RVal (v : option bytes) | RNames (l : list string) | RUnit.

Definition exec {S} `{!GoStormDB S} (o : op) (s : S) : result * S :=
  match o with
  | OGet x n => let '(v, s) := Get x n s in (RVal v, s)
  | OSet x n v => (RUnit, Set_ x n v s)
  | OList x => let '(l, s) := List x s in (RNames l, s)
  | ORem x n => (RUnit, Rem x n s)
  | OClear x => (RUnit, Clear x s)
  end.

Definition spec_exec (o : op) (m : gmap (string * string) bytes) : gmap (string * string) bytes :=
  match o with
  | OSet x n v => <[(x, n) := v]> m
  | ORem x n => delete (x, n) m
  | OClear x => filter (λ kv, kv.1.1 ≠ x) m
  | OGet _ _ | OList _ => m
  end.

(** The answers the map allows: names come in any order. *)
Definition answers (o : op) (m : gmap (string * string) bytes) (r : result) : Prop :=
  match o, r with
  | OGet x n, RVal v => v = m !! (x, n)
  | OList x, RNames l => NoDup l ∧ ∀ n, n ∈ l ↔ is_Some (m !! (x, n))
  | OSet _ _ _, RUnit | ORem _ _, RUnit | OClear _, RUnit => True
  | _, _ => False
  end.

Fixpoint runs_as_map {S} `{!GoStormDB S} (ops : list op) (s : S) (m : gmap (string * string) bytes) : Prop :=
  match ops with
  | [] => True
  | o :: ops' => answers o m (exec o s).1 ∧ runs_as_map ops' (exec o s).2 (spec_exec o m)
  end.

Section spec.
Context {S : Type} `{HD : !GoStormDB S} (okp : string → Prop) (okv : string → bytes → Prop) `{HK : !KVStore S okp okv}.

Definition op_ok (o : op) : Prop :=
  match o with
  | OGet x _ | OList x | ORem x _ | OClear x => okp x
  | OSet x _ v => okp x ∧ okv x v
  end.

Lemma exec_refines o s m :
  kv_inv s → (∀ x n, okp x → kv_view s x n = m !! (x, n)) → op_ok o →
  answers o m (exec o s).1 ∧ kv_inv (exec o s).2 ∧ ∀ x n, okp x → kv_view (exec o s).2 x n = spec_exec o m !! (x, n).
Proof.
  intros Hi Hv Ho. destruct o as [x n|x n v|x|x n|x]; simpl in *.
  - destruct (kv_Get s x n Hi Ho) as (H1 & H2 & H3). destruct (Get x n s) as [v s']. simpl in *.
    split_and!; [by rewrite H1, Hv|done|]. intros y m' Hy. by rewrite H3, Hv.
  - destruct Ho as [Hx Hval]. destruct (kv_Set s x n v Hi Hx Hval) as [H1 H2]. split_and!; [done..|].
    intros y m' Hy. rewrite H2 by done. rewrite lookup_insert. case_decide as Hd.
    + destruct Hd as [-> ->]. by rewrite decide_True.
    + rewrite decide_False by naive_solver. auto.
  - destruct (kv_List s x Hi Ho) as (H1 & H2 & H3 & H4). destruct (List x s) as [l s']. simpl in *.
    split_and!; [done| |done|]; [intros n; rewrite H1, Hv by done; done|]. intros y m' Hy. by rewrite H4, Hv.
  - destruct (kv_Rem s x n Hi Ho) as [H1 H2]. split_and!; [done..|].
    intros y m' Hy. rewrite H2 by done. rewrite lookup_delete. case_decide as Hd.
    + destruct Hd as [-> ->]. by rewrite decide_True.
    + rewrite decide_False by naive_solver. auto.
  - destruct (kv_Clear s x Hi Ho) as [H1 H2]. split_and!; [done..|].
    intros y m' Hy. rewrite H2, Hv by done. rewrite map_lookup_filter. case_decide as Hd.
    + subst y. destruct (m !! (x, m')); simpl; [|done]. by rewrite option_guard_False by naive_solver.
    + destruct (m !! (y, m')); simpl; [|done]. by rewrite option_guard_True.
Qed.

Lemma store_runs_as_map ops s m :
  kv_inv s → (∀ x n, okp x → kv_view s x n = m !! (x, n)) → Forall op_ok ops → runs_as_map ops s m.
Proof.
  intros Hi Hv Hops. revert s m Hi Hv. induction Hops as [|o ops Ho Hops IH]; intros s m Hi Hv; [done|].
  destruct (exec_refines o s m Hi Hv Ho) as (H1 & H2 & H3). split; [done|]. by apply IH.
Qed.
End spec.

(** ** The stack *)

Section stack.
Context `{HJ : !Json} `{HM : !MapRange} `{HS : !SliceSort}.

(** The store over bbolt. *)
Context {TDB : Type} `{HT : !GoStormDB TDB}.

Definition jsonDB_id : nat := 0.
Definition bboltDB_id : nat := 1.

Definition setupDatabaseRouting (settingsInJson : bool) (jsonDB : JsonDB) (bboltDB : TDB) :
    DBReadCache (S := XPathDBRouter (JsonDB + TDB)) :=
  NewDBReadCache (register_all {[jsonDB_id := inl jsonDB; bboltDB_id := inr bboltDB]}
    [((if settingsInJson then jsonDB_id else bboltDB_id), "Settings"); (bboltDB_id, "Torrents")]).

(** The paths the program uses. *)
Definition used (x : string) : Prop := x = "Settings" ∨ x = "Torrents".

Definition target (settingsInJson : bool) (x : string) : option nat :=
  Some (if settingsInJson && bool_decide (x = "Settings") then jsonDB_id else bboltDB_id).

Lemma setup_target b (h : gmap nat (JsonDB + TDB)) x :
  used x →
  getDBForXPath x (register_all h [((if b : bool then jsonDB_id else bboltDB_id), "Settings"); (bboltDB_id, "Torrents")]) =
    target b x.
Proof.
  set (regs := [((if b then jsonDB_id else bboltDB_id), "Settings"); (bboltDB_id, "Torrents")]).
  intros Hx. destruct (getDBForXPath_longest h regs x) as (route & id & -> & Ho & Hp & Hmax); [done|].
  assert (owner regs (xPathToRoute x) = target b x) as Hx'.
  { destruct Hx as [-> | ->]; by destruct b. }
  assert (String.prefix (xPathToRoute x) (xPathToRoute x) = true) as Hself by (by destruct Hx as [-> | ->]).
  specialize (Hmax (xPathToRoute x)). rewrite Hx' in Hmax. specialize (Hmax ltac:(by eexists) Hself).
  assert (String.length route ≤ String.length (xPathToRoute x))%nat as Hle.
  { by apply prefix_length. }
  assert (route = xPathToRoute x) as -> by (eapply prefix_same_length; [done|done|lia]). congruence.
Qed.

Context (okT : string → bytes → Prop) `{HKT : !KVStore TDB used okT}.

(** Settings in JSON files must be objects as the encoder writes them. *)
Definition stack_okv (b : bool) (x : string) (v : bytes) : Prop :=
  if b && bool_decide (x = "Settings") then ∃ o, v = Marshal o else okT x v.

Lemma filenames_differ x y : used x → used y → xPathToFilename x = xPathToFilename y → x = y.
Proof. by intros [-> | ->] [-> | ->]. Qed.

Definition stack_backend (b : bool) (id : nat) :
  KVStore (JsonDB + TDB) (λ x, used x ∧ target b x = Some id) (stack_okv b).
Proof.
  destruct (decide (b = true ∧ id = jsonDB_id)) as [Hid|Hid].
  - refine (KVStore_weaken (inl_KVStore _ _ (JsonDB_KVStore used filenames_differ)) _ _).
    + by intros x [? _].
    + intros x v [_ Ht]. destruct Hid as [-> ->]. unfold target, stack_okv in *.
      destruct (true && bool_decide (x = "Settings")); done.
  - refine (KVStore_weaken (inr_KVStore _ _ HKT) _ _).
    + by intros x [? _].
    + intros x v [_ Ht]. unfold target, stack_okv in *.
      destruct b; simpl in *; [|done]. destruct (bool_decide (x = "Settings")); [|done].
      exfalso. apply Hid. split; congruence.
Defined.

Lemma stack_backend_json d :
  @kv_inv _ _ _ _ (stack_backend true jsonDB_id) (inl d) ∧
  ∀ x n, @kv_view _ _ _ _ (stack_backend true jsonDB_id) (inl d) x n = JsonDB_Get x n d.
Proof. unfold stack_backend. destruct (decide _) as [Hd|Hd]; [done|by destruct Hd]. Qed.

Lemma stack_backend_bbolt b t :
  kv_inv t →
  @kv_inv _ _ _ _ (stack_backend b bboltDB_id) (inr t) ∧
  ∀ x n, @kv_view _ _ _ _ (stack_backend b bboltDB_id) (inr t) x n = kv_view t x n.
Proof. intros Hi. unfold stack_backend. destruct (decide _) as [Hd|Hd]; [by destruct Hd|done]. Qed.

Definition stack_KVStore (b : bool) : KVStore (DBReadCache (S := XPathDBRouter (JsonDB + TDB))) used (stack_okv b) :=
  DBReadCache_KVStore false used (stack_okv b) (HK := Router_KVStore used (stack_okv b) (target b) (stack_backend b)) eq_refl.
End stack.


(** ** Torrents *)

#[local] Instance byte_EqDecision : EqDecision byte := Byte.byte_eq_dec.

(** [fmt.Sprintf("%x", hash)]. *)
Definition hex_char (d : N) : Ascii.ascii := Ascii.ascii_of_N (if (d <? 10)%N then 48 + d else 87 + d).

Fixpoint HexString (h : list byte) : string :=
  match h with
  | [] => ""
  | b :: h' => String (hex_char (Byte.to_N b / 16)) (String (hex_char (Byte.to_N b mod 16)) (HexString h'))
  end.

Definition hex_value (c : Ascii.ascii) : N :=
  let n := Ascii.N_of_ascii c in if (n <? 58)%N then n - 48 else n - 87.

Lemma hex_value_char d : (d < 16)%N → hex_value (hex_char d) = d.
Proof.
  intros Hd. assert (forallb (λ d, (hex_value (hex_char (Z.to_N d)) =? Z.to_N d)%N) (seqZ 0 16) = true) as Hall by (by vm_compute).
  rewrite forallb_forall in Hall. specialize (Hall (Z.of_N d)). rewrite N2Z.id in Hall. apply N.eqb_eq, Hall.
  apply list_elem_of_In, elem_of_seqZ. lia.
Qed.

Lemma HexString_inj h h' : HexString h = HexString h' → h = h'.
Proof.
  revert h'. induction h as [|b h IH]; intros [|b' h']; simpl; try done. intros [= H1 H2 H3]. f_equal; [|by apply IH].
  apply (f_equal hex_value) in H1, H2. pose proof (Byte.to_N_bounded b). pose proof (Byte.to_N_bounded b').
  rewrite !hex_value_char in H1 by (apply N.Div0.div_lt_upper_bound; lia). rewrite !hex_value_char in H2 by (by apply N.mod_lt).
  assert (Byte.to_N b = Byte.to_N b') as He by (rewrite (N.div_mod (Byte.to_N b) 16), (N.div_mod (Byte.to_N b') 16); congruence).
  apply (f_equal Byte.of_N) in He. rewrite !Byte.of_to_N in He. congruence.
Qed.

(** [Spec] is the embedded specification of the torrent library. *)
Record TorrentDB (Spec : Type) := MkTorrent {
  TorrentSpec : Spec;
  Title : string;
  Category : string;
  Poster : string;
  Data : string;
  Timestamp : Z;
  Size : Z;
}.
Arguments TorrentSpec {Spec}.
Arguments Timestamp {Spec}.

(** How torrents are encoded. *)
Class TorrentJson := {
  Spec : Type;
  InfoHash : Spec → list byte;
  encode : TorrentDB Spec → bytes;
  decode : bytes → option (TorrentDB Spec);
  decode_encode t : decode (encode t) = Some t;
  encode_nonempty t : encode t ≠ [];
}.

Section torrents.
Context `{HTJ : !TorrentJson} `{HS : !SliceSort}.
Context {S : Type} `{HD : !GoStormDB S} (okp : string → Prop) (okv : string → bytes → Prop) `{HK : !KVStore S okp okv}.

Definition torrent_key (t : TorrentDB Spec) : string := HexString (InfoHash (TorrentSpec t)).

Definition AddTorrent (t : TorrentDB Spec) (s : S) : S := Set_ "Torrents" (torrent_key t) (encode t) s.
Definition RemTorrent (hash : list byte) (s : S) : S := Rem "Torrents" (HexString hash) s.

(** An empty value is no torrent. *)
Definition decode_torrent (buf : option bytes) : option (TorrentDB Spec) :=
  match buf with
  | Some (b :: l) => decode (b :: l)
  | _ => None
  end.

Definition GetTorrent (hash : list byte) (s : S) : option (TorrentDB Spec) * S :=
  let '(buf, s) := Get "Torrents" (HexString hash) s in (decode_torrent buf, s).

(** The loop of [ListTorrent] over the keys. *)
Fixpoint list_loop (keys : list string) (s : S) : list (TorrentDB Spec) * S :=
  match keys with
  | [] => ([], s)
  | key :: keys' =>
      let '(buf, s) := Get "Torrents" key s in
      let '(l, s) := list_loop keys' s in
      (match decode_torrent buf with Some t => t :: l | None => l end, s)
  end.

Definition newer (a b : TorrentDB Spec) : bool := Timestamp b <? Timestamp a.

Definition ListTorrent (s : S) : list (TorrentDB Spec) * S :=
  let '(keys, s) := List "Torrents" s in
  let '(l, s) := list_loop keys s in
  (sort_slice newer l, s).

Hypotheses (torrents_path : okp "Torrents") (torrents_ok : ∀ t, okv "Torrents" (encode t)).

(** The torrent stored under a key. *)
Definition stored (s : S) (key : string) : option (TorrentDB Spec) := decode_torrent (kv_view s "Torrents" key).

Lemma GetTorrent_stored h s : kv_inv s → (GetTorrent h s).1 = stored s (HexString h).
Proof using torrents_path.
  intros Hi. unfold GetTorrent, stored. destruct (kv_Get s "Torrents" (HexString h) Hi torrents_path) as (H & _).
  destruct (Get _ _ s). simpl in *. by subst.
Qed.

Lemma decode_torrent_encode t : decode_torrent (Some (encode t)) = Some t.
Proof using.
  pose proof (encode_nonempty t). simpl. pose proof (decode_encode t). by destruct (encode t).
Qed.

Lemma list_loop_stored keys s t :
  kv_inv s → t ∈ (list_loop keys s).1 ↔ ∃ key, key ∈ keys ∧ stored s key = Some t.
Proof using torrents_path.
  revert s. induction keys as [|key keys IH]; intros s Hi.
  { simpl. setoid_rewrite elem_of_nil. naive_solver. }
  simpl. destruct (kv_Get s "Torrents" key Hi torrents_path) as (Hg & Hi' & Hv).
  destruct (Get "Torrents" key s) as [buf s1]. simpl in *. specialize (IH s1 Hi').
  destruct (list_loop keys s1) as [l s2]. simpl in *. subst buf.
  assert (∀ k, stored s1 k = stored s k) as Hst by (intros k; unfold stored; by rewrite Hv).
  change (decode_torrent (kv_view s "Torrents" key)) with (stored s key).
  setoid_rewrite elem_of_cons. setoid_rewrite Hst in IH.
  destruct (stored s key) as [u|] eqn:Hk; rewrite ?elem_of_cons, IH; naive_solver.
Qed.

#[local] Instance newer_swo : StrictWeakOrder newer.
Proof.
  split; unfold newer.
  - intros x. apply Z.ltb_irrefl.
  - intros x y z ?%Z.ltb_lt ?%Z.ltb_lt. apply Z.ltb_lt. lia.
  - intros x y z ?%Z.ltb_ge ?%Z.ltb_ge. apply Z.ltb_ge. lia.
Qed.
End torrents.

(** Over any store that keeps its promises, torrents are found again: the
    one added last under a hash until it is removed, the others as before; the
    list has exactly the stored torrents, newest first. *)
Theorem torrents_found_again `{!TorrentJson} `{!SliceSort} {S : Type} `{!GoStormDB S}
    (okp : string → Prop) (okv : string → bytes → Prop) `{!KVStore S okp okv} (s : S) :
  okp "Torrents" → (∀ t, okv "Torrents" (encode t)) → kv_inv s →
  (∀ t h, (GetTorrent h (AddTorrent t s)).1 =
     if decide (h = InfoHash (TorrentSpec t)) then Some t else (GetTorrent h s).1) ∧
  (∀ h h', (GetTorrent h' (RemTorrent h s)).1 = if decide (h' = h) then None else (GetTorrent h' s).1) ∧
  sorted_by newer (ListTorrent s).1 ∧
  (∀ t, t ∈ (ListTorrent s).1 ↔ ∃ key, stored okp okv s key = Some t).
Proof.
  intros Hp Hok Hi. split_and!.
  - intros t h. destruct (kv_Set s "Torrents" (torrent_key t) (encode t) Hi Hp (Hok t)) as [Hi' Hv].
    rewrite !(GetTorrent_stored okp okv) by done. unfold stored, AddTorrent. rewrite Hv by done.
    destruct (decide (h = _)) as [->|Hne]; [rewrite decide_True by done; apply decode_torrent_encode|].
    rewrite decide_False; [done|]. intros [_ ?%HexString_inj]. done.
  - intros h h'. destruct (kv_Rem s "Torrents" (HexString h) Hi Hp) as [Hi' Hv].
    rewrite !(GetTorrent_stored okp okv) by done. unfold stored, RemTorrent. rewrite Hv by done.
    destruct (decide (h' = h)) as [->|Hne]; [by rewrite decide_True|].
    rewrite decide_False; [done|]. intros [_ ?%HexString_inj]. done.
  - unfold ListTorrent. destruct (List "Torrents" s) as [keys s1]. destruct (list_loop keys s1). simpl.
    apply sort_slice_sorted. apply newer_swo.
  - intros t. unfold ListTorrent. destruct (kv_List s "Torrents" Hi Hp) as (Hl & _ & Hi' & Hv).
    destruct (List "Torrents" s) as [keys s1]. simpl in *. pose proof (list_loop_stored okp okv Hp keys s1 t Hi') as Hs.
    destruct (list_loop keys s1) as [l s2]. simpl in *. rewrite sort_slice_perm, Hs.
    assert (∀ key, stored okp okv s1 key = stored okp okv s key) as Hst by (intros key; unfold stored; by rewrite Hv).
    split.
    + intros (key & _ & Hk). exists key. by rewrite <- Hst.
    + intros (key & Hk). exists key. rewrite Hst. split; [|done]. apply Hl. unfold stored in Hk.
      by destruct (kv_view s "Torrents" key).
Qed.

(** A JSON file that cannot be decoded is taken for an empty one, without
    an error: every entry reads as absent, and the next write leaves the file
    with that entry alone. *)
Theorem corrupt_file_read_as_empty `{!Json} x n o (d : JsonDB) :
  files d !! xPathToFilename x = Some Corrupt →
  (∀ m, JsonDB_Get x m d = None) ∧
  ∀ m, JsonDB_Get x m (JsonDB_Set x n (Marshal o) d) = if decide (m = n) then Some (Marshal o) else None.
Proof.
  intros Hc. assert (readJsonFileAsMap (xPathToFilename x) d = ∅) as He by (unfold readJsonFileAsMap; by rewrite Hc).
  split; intros m; unfold JsonDB_Get, JsonDB_Set.
  - by rewrite He, lookup_empty.
  - rewrite Unmarshal_Marshal, readJson_write, decide_True, He, lookup_insert by done.
    repeat case_decide; by subst.
Qed.

(** A [Get] that read the store before a [Set] and stores what it read after it
    leaves the old value in the cache: the reads that follow return it,
    although the store has the new one. *)
Lemma late_reader_spoils_cache {S} `{!GoStormDB S} x n old v (db : S) (lc : gmap string (list string)) dc :
  let c := cache_put x n old (Cache_Set false x n v (MkCache (Some db) (Some lc) (Some dc))) in
  c_db c = Some (Set_ x n v db) ∧ Cache_Get x n c = (old, c).
Proof.
  simpl. split; [done|]. unfold Cache_Get, cache_put. simpl. by rewrite lookup_insert_eq.
Qed.

(** ** Witnesses *)

(** An encoder: an opening brace and the contents. *)
#[local] Instance brace_Json : Json := {|
  jval := bytes;
  Unmarshal := λ v, match v with Byte.x7b :: o => Some o | _ => None end;
  Marshal := λ o, Byte.x7b :: o;
  Unmarshal_Marshal := λ o, eq_refl;
|}.

Lemma router_longest_prefix_witness :
  getDBForXPath "Torrents/x" (register_all (∅ : gmap nat nat) [(0%nat, "Settings"); (1%nat, "Torrents")]) = Some 1%nat.
Proof.
  destruct (router_longest_prefix (∅ : gmap nat nat) [(0%nat, "Settings"); (1%nat, "Torrents")] "Torrents/x")
    as (route & id & H & _); [discriminate|].
  vm_compute. reflexivity.
Defined.

(** JSON files in the place of bbolt. *)
#[local] Instance json_store : KVStore JsonDB used (λ _ v, ∃ o, v = Marshal o) := JsonDB_KVStore used filenames_differ.

Definition sample_ops : list op :=
  [OSet "Settings" "BitTorr" (Marshal [Byte.x01]); OGet "Settings" "BitTorr"; ORem "Settings" "BitTorr"; OGet "Settings" "BitTorr"].


Lemma corrupt_file_witness :
  JsonDB_Get "Settings" "a" (JsonDB_Set "Settings" "b" (Marshal []) (MkJsonDB {["settings.json" := Corrupt]})) = None.
Proof.
  exact (proj2 (corrupt_file_read_as_empty "Settings" "b" [] (MkJsonDB {["settings.json" := Corrupt]}) eq_refl) "a").
Defined.

(** An encoding of torrents. *)
#[local] Instance byte_Countable : Countable byte := inj_countable Byte.to_N Byte.of_N Byte.of_to_N.

Fixpoint pos_bytes (p : positive) : bytes :=
  match p with xH => [Byte.x01] | xO p' => Byte.x00 :: pos_bytes p' | xI p' => Byte.x02 :: pos_bytes p' end.

Fixpoint bytes_pos (l : bytes) : option positive :=
  match l with
  | [Byte.x01] => Some xH
  | Byte.x00 :: l' => xO <$> bytes_pos l'
  | Byte.x02 :: l' => xI <$> bytes_pos l'
  | _ => None
  end.

Lemma bytes_pos_bytes p : bytes_pos (pos_bytes p) = Some p.
Proof. induction p as [p IH|p IH|]; simpl; [by rewrite IH..|done]. Qed.

Definition torrent_tuple (t : TorrentDB bytes) : bytes * string * string * string * string * Z * Z :=
  (TorrentSpec t, Title _ t, Category _ t, Poster _ t, Data _ t, Timestamp t, Size _ t).

Definition tuple_torrent (x : bytes * string * string * string * string * Z * Z) : TorrentDB bytes :=
  let '(s, a, b, c, d, ts, sz) := x in MkTorrent _ s a b c d ts sz.

Definition tuple_encode (t : TorrentDB bytes) : bytes := Byte.x7b :: pos_bytes (countable.encode (torrent_tuple t)).
Definition tuple_decode (v : bytes) : option (TorrentDB bytes) :=
  match v with Byte.x7b :: l => p ← bytes_pos l; tuple_torrent <$> countable.decode p | _ => None end.

Lemma tuple_decode_encode t : tuple_decode (tuple_encode t) = Some t.
Proof.
  unfold tuple_decode, tuple_encode. rewrite bytes_pos_bytes. cbn [mbind option_bind].
  rewrite countable.decode_encode. by destruct t.
Qed.

Lemma tuple_encode_nonempty t : tuple_encode t ≠ [].
Proof. unfold tuple_encode. discriminate. Qed.

#[local] Instance tuple_TorrentJson : TorrentJson := {|
  Spec := bytes;
  InfoHash := id;
  encode := tuple_encode;
  decode := tuple_decode;
  decode_encode := tuple_decode_encode;
  encode_nonempty := tuple_encode_nonempty;
|}.

Definition sample_torrent : TorrentDB bytes := MkTorrent _ [Byte.xab] "film" "" "" "" 5 7.

Lemma torrents_found_again_witness :
  (GetTorrent [Byte.xab] (AddTorrent sample_torrent (MkJsonDB ∅))).1 = Some sample_torrent.
Proof.
  destruct (torrents_found_again used (λ _ v, ∃ o, v = Marshal o) (MkJsonDB ∅)) as [H _].
  - right. reflexivity.
  - intros t. exists (pos_bytes (countable.encode (torrent_tuple t))). reflexivity.
  - exact I.
  - specialize (H sample_torrent [Byte.xab]). by rewrite decide_True in H.
Defined.
