(* ===== verification/Regex.v ===== *)
(** * Go's regular expressions (package regexp)

    The syncer reads release titles with regular expressions. This file models
    what it uses of package regexp: the syntax, read by [MustCompile] from the
    same text as in the code, and the leftmost-first matching of
    [MatchString], [FindStringSubmatch], [FindAllString] and [ReplaceAllString]. Text is decoded
    from UTF-8 into runes, each with its bytes, so that what a group captures is
    a piece of the original string.

    The matcher returns all ways to match at a position, in the order of
    preference of a backtracking search; [matches_iff] shows that they are the
    matches of the declarative semantics [rmatch]. *)

From S2P Require Import Prelude.

(** ** Runes *)

Abbreviation rune := Z (only parsing).

Fixpoint bytes_of (s : string) : list Z :=
  match s with EmptyString => [] | String c s' => ord c :: bytes_of s' end.

Definition char_of (b : Z) : Ascii.ascii := Ascii.ascii_of_nat (Z.to_nat b).
Definition string_of (l : list Z) : string := foldr (λ b s, String (char_of b) s) EmptyString l.

Definition cont (b : Z) : bool := (128 <=? b) && (b <=? 191).
Definition in_range (lo hi b : Z) : bool := (lo <=? b) && (b <=? hi).

(** A rune with the bytes that encode it. A byte that begins no valid encoding
    is the rune U+FFFD. *)
Record token := Token { t_rune : Z; t_bytes : list Z }.

Definition decode1 (l : list Z) : token :=
  let b i := nth i l (-1) in
  if in_range 240 244 (b 0%nat) && cont (b 1%nat) && cont (b 2%nat) && cont (b 3%nat) &&
     implb (b 0%nat =? 240) (144 <=? b 1%nat) && implb (b 0%nat =? 244) (b 1%nat <=? 143)
  then Token ((b 0%nat - 240) * 262144 + (b 1%nat - 128) * 4096 + (b 2%nat - 128) * 64 + (b 3%nat - 128)) (take 4 l)
  else if in_range 224 239 (b 0%nat) && cont (b 1%nat) && cont (b 2%nat) &&
     implb (b 0%nat =? 224) (160 <=? b 1%nat) && implb (b 0%nat =? 237) (b 1%nat <=? 159)
  then Token ((b 0%nat - 224) * 4096 + (b 1%nat - 128) * 64 + (b 2%nat - 128)) (take 3 l)
  else if in_range 194 223 (b 0%nat) && cont (b 1%nat) then Token ((b 0%nat - 192) * 64 + (b 1%nat - 128)) (take 2 l)
  else Token (if b 0%nat <? 128 then b 0%nat else 65533) (take 1 l).

Fixpoint decode_go (n : nat) (l : list Z) : list token :=
  match n, l with
  | S n', _ :: _ => let t := decode1 l in t :: decode_go n' (drop (length (t_bytes t)) l)
  | _, _ => []
  end.

Definition tokens (s : string) : list token := let l := bytes_of s in decode_go (length l) l.
Definition text (l : list token) : string := string_of (l ≫= t_bytes).

(** ** Syntax *)

(** A set of runes: ranges, or their complement. *)
Record cset := CSet { c_neg : bool; c_ranges : list (Z * Z) }.

Definition in_cset (c : cset) (r : rune) : bool := xorb (c_neg c) (existsb (λ x, in_range x.1 x.2 r) (c_ranges c)).

Inductive regex :=
  | Empty
  | Chars (c : cset)
  | Boundary (** [\b] *)
  | Begin_ (** [^] *)
  | End_ (** [$] *)
  | Cat (r1 r2 : regex)
  | Alt (r1 r2 : regex)
  | Star (greedy : bool) (r : regex)
  | Group (n : nat) (r : regex).

Definition Opt (r : regex) : regex := Alt r Empty.
Definition Plus (greedy : bool) (r : regex) : regex := Cat r (Star greedy r).
Fixpoint Rep (n : nat) (r : regex) : regex := match n with O => Empty | S n' => Cat r (Rep n' r) end.

(** Up to [n] more, as many as possible. *)
Fixpoint UpTo (n : nat) (r : regex) : regex := match n with O => Empty | S n' => Opt (Cat r (UpTo n' r)) end.

(** The runes that differ from a letter in case only: the other case and, for
    k and s, the Kelvin sign and the long s. *)
Definition fold_case (r : rune) : list (Z * Z) :=
  let low := if in_range 65 90 r then r + 32 else r in
  if in_range 97 122 low
  then [(low, low); (low - 32, low - 32)] ++
       (if low =? 107 then [(8490, 8490)] else if low =? 115 then [(383, 383)] else [])
  else [(r, r)].

Definition fold_range (i : bool) (x : Z * Z) : list (Z * Z) :=
  if i then seqZ x.1 (x.2 - x.1 + 1) ≫= fold_case else [x].

Definition digits : list (Z * Z) := [(48, 57)].
Definition spaces : list (Z * Z) := [(9, 10); (12, 13); (32, 32)].
Definition words : list (Z * Z) := [(48, 57); (65, 90); (95, 95); (97, 122)].
Definition newline : rune := 10.

(** ** Parsing *)

(** The sets that an escaped letter stands for. *)
Definition escape_class (r : rune) : option (list (Z * Z)) :=
  if r =? 100 then Some digits else if r =? 115 then Some spaces else if r =? 119 then Some words else None.

(** The body of a bracket expression, up to its closing bracket. *)
Fixpoint parse_class (n : nat) (i : bool) (l : list rune) (acc : list (Z * Z)) : option (list (Z * Z) * list rune) :=
  match n with
  | O => None
  | S n' =>
      match l with
      | [] => None
      | 93 :: l' => Some (acc, l')
      | 92 :: c :: l' =>
          match escape_class c with
          | Some rs => parse_class n' i l' (acc ++ rs)
          | None => parse_class n' i l' (acc ++ fold_range i (c, c))
          end
      | a :: 45 :: 93 :: l' => Some (acc ++ fold_range i (a, a) ++ [(45, 45)], l')
      | a :: 45 :: b :: l' => parse_class n' i l' (acc ++ fold_range i (a, b))
      | a :: l' => parse_class n' i l' (acc ++ fold_range i (a, a))
      end
  end.

(** A decimal number. *)
Fixpoint parse_nat (l : list rune) (acc : nat) : nat * list rune :=
  match l with
  | c :: l' => if in_range 48 57 c then parse_nat l' (acc * 10 + Z.to_nat (c - 48)) else (acc, l)
  | [] => (acc, l)
  end.

(** The repetition operators after an atom. *)
Definition parse_suffix (r : regex) (l : list rune) : regex * list rune :=
  match l with
  | 42 :: 63 :: l' => (Star false r, l')
  | 42 :: l' => (Star true r, l')
  | 43 :: 63 :: l' => (Plus false r, l')
  | 43 :: l' => (Plus true r, l')
  | 63 :: l' => (Opt r, l')
  | 123 :: l' =>
      let '(a, l1) := parse_nat l' 0 in
      match l1 with
      | 125 :: l2 => (Rep a r, l2)
      | 44 :: l2 => let '(b, l3) := parse_nat l2 0 in (Cat (Rep a r) (UpTo (b - a) r), tail l3)
      | _ => (r, l)
      end
  | _ => (r, l)
  end.

(** The alternatives up to a closing bracket or the end; [k] numbers the
    groups, in the order of their opening brackets. *)
Fixpoint parse_alt (n : nat) (i : bool) (k : nat) (l : list rune) : option (regex * nat * list rune) :=
  match n with
  | O => None
  | S n' =>
      '(r, k1, l1) ← parse_cat n' i k l Empty;
      match l1 with
      | 124 :: l2 => '(r', k2, l3) ← parse_alt n' i k1 l2; Some (Alt r r', k2, l3)
      | _ => Some (r, k1, l1)
      end
  end
with parse_cat (n : nat) (i : bool) (k : nat) (l : list rune) (acc : regex) : option (regex * nat * list rune) :=
  match n with
  | O => None
  | S n' =>
      match l with
      | [] | 124 :: _ | 41 :: _ => Some (acc, k, l)
      | _ =>
          '(r, k1, l1) ← parse_atom n' i k l;
          let '(r', l2) := parse_suffix r l1 in
          parse_cat n' i k1 l2 (Cat acc r')
      end
  end
with parse_atom (n : nat) (i : bool) (k : nat) (l : list rune) : option (regex * nat * list rune) :=
  match n with
  | O => None
  | S n' =>
      match l with
      | 40 :: 63 :: 58 :: l1 =>
          '(r, k1, l2) ← parse_alt n' i k l1;
          match l2 with 41 :: l3 => Some (r, k1, l3) | _ => None end
      | 40 :: l1 =>
          '(r, k1, l2) ← parse_alt n' i (S k) l1;
          match l2 with 41 :: l3 => Some (Group k r, k1, l3) | _ => None end
      | 91 :: 94 :: l1 => '(rs, l2) ← parse_class n' i l1 []; Some (Chars (CSet true rs), k, l2)
      | 91 :: l1 => '(rs, l2) ← parse_class n' i l1 []; Some (Chars (CSet false rs), k, l2)
      | 46 :: l1 => Some (Chars (CSet true [(newline, newline)]), k, l1)
      | 94 :: l1 => Some (Begin_, k, l1)
      | 36 :: l1 => Some (End_, k, l1)
      | 92 :: 98 :: l1 => Some (Boundary, k, l1)
      | 92 :: 87 :: l1 => Some (Chars (CSet true words), k, l1)
      | 92 :: c :: l1 =>
          match escape_class c with
          | Some rs => Some (Chars (CSet false rs), k, l1)
          | None => Some (Chars (CSet false (fold_range i (c, c))), k, l1)
          end
      | c :: l1 => Some (Chars (CSet false (fold_range i (c, c))), k, l1)
      | [] => None
      end
  end.

Definition nothing : regex := Chars (CSet false []).

(** [regexp.MustCompile], which panics on a malformed expression; the model
    returns an expression that matches nothing. The flag [(?i)] may only stand
    at the beginning. *)
Definition compile (s : string) : option regex :=
  let l := t_rune <$> tokens s in
  let n := (4 * length l + 4)%nat in
  let parsed :=
    match l with
    | 40 :: 63 :: 105 :: 41 :: l' => parse_alt n true 1 l'
    | _ => parse_alt n false 1 l
    end in
  match parsed with Some (r, _, []) => Some r | _ => None end.

Definition MustCompile (s : string) : regex := default nothing (compile s).

(** ** Matching *)

(** A position: the rune before it and the text after it. *)
Abbreviation pos := (option rune * list token)%type.
Abbreviation caps := (list (nat * list token)).

Definition is_word (r : option rune) : bool := match r with Some r => existsb (λ x, in_range x.1 x.2 r) words | None => false end.
Definition at_boundary (p : pos) : bool := xorb (is_word p.1) (is_word (t_rune <$> head p.2)).

(** The ways to match at a position, the preferred one first: where the match
    ends, and what the groups captured, the last group first. A repetition goes
    on only while it consumes text. *)
Fixpoint matches (r : regex) (p : pos) (c : caps) : list (pos * caps) :=
  match r with
  | Empty => [(p, c)]
  | Chars cs => match p.2 with t :: s => if in_cset cs (t_rune t) then [((Some (t_rune t), s), c)] else [] | [] => [] end
  | Boundary => if at_boundary p then [(p, c)] else []
  | Begin_ => match p.1 with None => [(p, c)] | Some _ => [] end
  | End_ => match p.2 with [] => [(p, c)] | _ => [] end
  | Cat r1 r2 => matches r1 p c ≫= λ x, matches r2 x.1 x.2
  | Alt r1 r2 => matches r1 p c ++ matches r2 p c
  | Group k r1 => (λ x, (x.1, (k, take (length p.2 - length x.1.2) p.2) :: x.2)) <$> matches r1 p c
  | Star g r1 =>
      (fix star (n : nat) (p : pos) (c : caps) : list (pos * caps) :=
         match n with
         | O => [(p, c)]
         | S n' =>
             let more := matches r1 p c ≫= λ x, if (length x.1.2 <? length p.2)%nat then star n' x.1 x.2 else [] in
             if g then more ++ [(p, c)] else (p, c) :: more
         end) (length p.2) p c
  end.

(** The positions of a text at which a match may begin, in order. *)
Fixpoint starts (prev : option rune) (s : list token) : list pos :=
  (prev, s) :: match s with [] => [] | t :: s' => starts (Some (t_rune t)) s' end.

(** The leftmost match, preferred one first: where it begins, where it ends and
    what it captured. *)
Definition find (r : regex) (p : pos) : option (pos * (pos * caps)) :=
  head (starts p.1 p.2 ≫= λ q, (λ x, (q, x)) <$> matches r q []).

Definition MatchString (r : regex) (s : string) : bool :=
  match find r (None, tokens s) with Some _ => true | None => false end.

Definition capture (k : nat) (c : caps) : string := text (default [] (snd <$> head (filter (λ x, x.1 = k) c))).

(** The [k]th group of the leftmost match, empty if it took no part in it
    ([FindStringSubmatch] with an index). *)
Definition FindStringSubmatch (r : regex) (s : string) (k : nat) : option string :=
  (λ x, capture k x.2.2) <$> find r (None, tokens s).

(** Group 0, the match as a whole. *)
Definition FindString (r : regex) (s : string) : option string :=
  (λ x, text (take (length x.1.2 - length x.2.1.2) x.1.2)) <$> find r (None, tokens s).

(** [ReplaceAllString] for a text without [$] and for expressions that do not
    match the empty text: a match that is empty ends the search in the model. *)
Fixpoint replace_go (n : nat) (r : regex) (new : list token) (p : pos) : list token :=
  match n with
  | O => p.2
  | S n' =>
      match find r p with
      | None => p.2
      | Some (q, (e, _)) =>
          if (length e.2 <? length q.2)%nat
          then take (length p.2 - length q.2) p.2 ++ new ++ replace_go n' r new e
          else p.2
      end
  end.

Definition ReplaceAllString (r : regex) (s new : string) : string :=
  let l := tokens s in text (replace_go (length l) r (tokens new) (None, l)).

(** [FindAllString] without a limit, for expressions that do not match the
    empty text: an empty match ends the search in the model. *)
Fixpoint find_all (n : nat) (r : regex) (p : pos) : list string :=
  match n with
  | O => []
  | S n' =>
      match find r p with
      | None => []
      | Some (q, (e, _)) =>
          if (length e.2 <? length q.2)%nat then text (take (length q.2 - length e.2) q.2) :: find_all n' r e else []
      end
  end.

Definition FindAllString (r : regex) (s : string) : list string :=
  let l := tokens s in find_all (length l) r (None, l).

(** ** Correctness of the matcher *)

(** The declarative semantics: [r] matches from one position to another. *)
Inductive rmatch : regex → pos → pos → Prop :=
  | rm_empty p : rmatch Empty p p
  | rm_chars cs prev t s : in_cset cs (t_rune t) = true → rmatch (Chars cs) (prev, t :: s) (Some (t_rune t), s)
  | rm_boundary p : at_boundary p = true → rmatch Boundary p p
  | rm_begin s : rmatch Begin_ (None, s) (None, s)
  | rm_end prev : rmatch End_ (prev, []) (prev, [])
  | rm_cat r1 r2 p q e : rmatch r1 p q → rmatch r2 q e → rmatch (Cat r1 r2) p e
  | rm_alt_l r1 r2 p e : rmatch r1 p e → rmatch (Alt r1 r2) p e
  | rm_alt_r r1 r2 p e : rmatch r2 p e → rmatch (Alt r1 r2) p e
  | rm_group k r p e : rmatch r p e → rmatch (Group k r) p e
  | rm_star_done g r p : rmatch (Star g r) p p
  | rm_star_more g r p q e : rmatch r p q → rmatch (Star g r) q e → rmatch (Star g r) p e.

#[export] Hint Constructors rmatch : gostream.

(** A match consumes a part of the text. *)
Lemma rmatch_length r p e : rmatch r p e → (length e.2 ≤ length p.2)%nat.
Proof. induction 1; simpl in *; lia. Qed.

(** A match that consumes nothing stays where it is. *)
Lemma rmatch_stays r p e : rmatch r p e → length e.2 = length p.2 → e = p.
Proof.
  induction 1 as [| | | | |r1 r2 p q e H1 IH1 H2 IH2| | | | |g r p q e H1 IH1 H2 IH2]; intros Hl; simpl in *; auto; [lia|..];
    pose proof (rmatch_length _ _ _ H1); pose proof (rmatch_length _ _ _ H2);
    rewrite IH2 by lia; apply IH1; lia.
Qed.

(** The loop of a repetition, by itself. *)
Fixpoint star_loop (g : bool) (r : regex) (n : nat) (p : pos) (c : caps) : list (pos * caps) :=
  match n with
  | O => [(p, c)]
  | S n' =>
      let more := matches r p c ≫= λ x, if (length x.1.2 <? length p.2)%nat then star_loop g r n' x.1 x.2 else [] in
      if g then more ++ [(p, c)] else (p, c) :: more
  end.

Lemma matches_Star g r p c : matches (Star g r) p c = star_loop g r (length p.2) p c.
Proof.
  cbn [matches]. generalize (length p.2) as n. intros n. revert p c.
  induction n as [|n IH]; intros p c; [done|]. cbn [star_loop].
  assert (∀ l : list (pos * caps),
    (l ≫= λ x, if (length x.1.2 <? length p.2)%nat
               then (fix star (n : nat) (p : pos) (c : caps) : list (pos * caps) :=
                       match n with
                       | O => [(p, c)]
                       | S n' =>
                           let more := matches r p c ≫= λ x, if (length x.1.2 <? length p.2)%nat then star n' x.1 x.2 else [] in
                           if g then more ++ [(p, c)] else (p, c) :: more
                       end) n x.1 x.2 else []) =
    (l ≫= λ x, if (length x.1.2 <? length p.2)%nat then star_loop g r n x.1 x.2 else [])) as E.
  { intros l. apply list_bind_ext; [|done]. intros x. by rewrite IH. }
  by rewrite E.
Qed.

Lemma star_loop_S g r n p c x :
  x ∈ star_loop g r (S n) p c ↔
  x = (p, c) ∨ ∃ y, y ∈ matches r p c ∧ (length y.1.2 < length p.2)%nat ∧ x ∈ star_loop g r n y.1 y.2.
Proof.
  cbn [star_loop].
  assert (∀ l : list (pos * caps), x ∈ (l ≫= λ y, if (length y.1.2 <? length p.2)%nat then star_loop g r n y.1 y.2 else []) ↔
    ∃ y, y ∈ l ∧ (length y.1.2 < length p.2)%nat ∧ x ∈ star_loop g r n y.1 y.2) as E.
  { intros l. rewrite list_elem_of_bind. split; intros (y & H).
    - destruct H as [H Hy]. destruct (Nat.ltb_spec (length y.1.2) (length p.2)); [eauto|by apply not_elem_of_nil in H].
    - exists y. destruct H as (Hy & Hl & H). apply Nat.ltb_lt in Hl as ->. done. }
  destruct g; [rewrite elem_of_app, list_elem_of_singleton|rewrite elem_of_cons]; rewrite E; tauto.
Qed.

Lemma star_loop_iff g r n p c e :
  (∀ p c e, (∃ c', (e, c') ∈ matches r p c) ↔ rmatch r p e) → (length p.2 ≤ n)%nat →
  (∃ c', (e, c') ∈ star_loop g r n p c) ↔ rmatch (Star g r) p e.
Proof.
  intros IH. revert p c. induction n as [|n IHn]; intros p c Hn.
  - cbn [star_loop]. split.
    + intros [c' H%list_elem_of_singleton]. simplify_eq. constructor.
    + intros H. exists c. rewrite list_elem_of_singleton. f_equal. eapply rmatch_stays; [done|].
      pose proof (rmatch_length _ _ _ H). lia.
  - setoid_rewrite star_loop_S. split.
    + intros (c' & [H|(y & Hy & Hl & H)]); [simplify_eq; constructor|].
      apply (rm_star_more g r p y.1 e); [apply (IH p c); exists y.2; by destruct y|]. apply (IHn y.1 y.2); [lia|eauto].
    + intros H. remember (Star g r) as s eqn:Hs. revert Hs c Hn. induction H; intros; simplify_eq; [exists c; by left|].
      destruct (decide (length q.2 = length p.2)) as [Heq|Hne].
      { pose proof (rmatch_stays _ _ _ H Heq) as ->. by apply IHrmatch2. }
      pose proof (rmatch_length _ _ _ H). destruct (proj2 (IH p c q) H) as [c1 Hc1].
      assert (∃ c', (e, c') ∈ star_loop g r n q c1) as [c' Hc'] by (apply IHn; [lia|done]).
      exists c'. right. exists (q, c1). split_and!; [done|simpl; lia|done].
Qed.

(** The matcher finds exactly the matches of the declarative semantics. *)
Lemma matches_iff r p c e : (∃ c', (e, c') ∈ matches r p c) ↔ rmatch r p e.
Proof.
  revert p c e. induction r as [|cs| | | |r1 IH1 r2 IH2|r1 IH1 r2 IH2|g r IH|k r IH]; intros p c e.
  - simpl. split; [|intros H; inversion H; eexists; by left]. intros [c' H%list_elem_of_singleton]. simplify_eq. constructor.
  - simpl. destruct p as [prev [|t s]]; simpl.
    { split; [intros [c' H%not_elem_of_nil]; done|intros H; inversion H]. }
    destruct (in_cset cs (t_rune t)) eqn:Hc.
    + split; [|intros H; inversion H; subst; eexists; by left].
      intros [c' H%list_elem_of_singleton]. simplify_eq. by constructor.
    + split; [intros [c' H%not_elem_of_nil]; done|intros H; inversion H; congruence].
  - simpl. destruct (at_boundary p) eqn:Hb.
    + split; [|intros H; inversion H; eexists; by left]. intros [c' H%list_elem_of_singleton]. simplify_eq. by constructor.
    + split; [intros [c' H%not_elem_of_nil]; done|intros H; inversion H; congruence].
  - simpl. destruct p as [[?|] s]; simpl.
    + split; [intros [c' H%not_elem_of_nil]; done|intros H; inversion H].
    + split; [|intros H; inversion H; eexists; by left]. intros [c' H%list_elem_of_singleton]. simplify_eq. constructor.
  - simpl. destruct p as [prev [|t s]]; simpl.
    + split; [|intros H; inversion H; eexists; by left]. intros [c' H%list_elem_of_singleton]. simplify_eq. constructor.
    + split; [intros [c' H%not_elem_of_nil]; done|intros H; inversion H].
  - cbn [matches]. split.
    + intros (c' & H). apply list_elem_of_bind in H as ([q c1] & H2 & H1). econstructor; [apply (IH1 p c)|apply (IH2 q c1)]; eauto.
    + inversion 1 as [| | | | |? ? ? q ? H1 H2| | | | |]; subst. apply (IH1 p c) in H1 as [c1 H1]. apply (IH2 q c1) in H2 as [c2 H2].
      exists c2. apply list_elem_of_bind. by exists (q, c1).
  - cbn [matches]. setoid_rewrite elem_of_app. split.
    + intros (c' & [H|H]); [apply rm_alt_l, (IH1 p c)|apply rm_alt_r, (IH2 p c)]; eauto.
    + inversion 1 as [| | | | | |? ? ? ? H1|? ? ? ? H1| | |]; subst; [apply (IH1 p c) in H1 as [c1 H1]|apply (IH2 p c) in H1 as [c1 H1]]; eauto.
  - rewrite matches_Star. by apply star_loop_iff.
  - cbn [matches]. split.
    + intros (c' & H). apply list_elem_of_fmap in H as ([q c1] & Heq & H). simplify_eq/=. apply rm_group, (IH p c). eauto.
    + inversion 1 as [| | | | | | | |? ? ? ? H1| |]; subst. apply (IH p c) in H1 as [c1 H1]. eexists. apply list_elem_of_fmap.
      by exists (e, c1).
Qed.

(** [MatchString] decides whether the expression matches somewhere. *)
Lemma MatchString_iff r s :
  MatchString r s = true ↔ ∃ p e, p ∈ starts None (tokens s) ∧ rmatch r p e.
Proof.
  unfold MatchString, find. cbn [fst snd]. set (l := starts None (tokens s)).
  assert ((∃ p e, p ∈ l ∧ rmatch r p e) ↔ ∃ x, x ∈ (l ≫= λ q, (λ x, (q, x)) <$> matches r q [])) as ->.
  { split.
    - intros (p & e & Hp & H). apply (matches_iff r p []) in H as [c H]. eexists. apply list_elem_of_bind.
      exists p. split; [|done]. apply list_elem_of_fmap. eauto.
    - intros (x & H). apply list_elem_of_bind in H as (p & H & Hp). apply list_elem_of_fmap in H as ([e c] & -> & H).
      exists p, e. split; [done|]. apply (matches_iff r p []). eauto. }
  destruct (l ≫= _) as [|x l'] eqn:E.
  - split; [done|]. intros [x Hx%not_elem_of_nil]. done.
  - split; [|done]. intros _. exists x. by left.
Qed.

Example compiled : compile "(?i)💾\s*([\d.]+)\s*(GB|MB)" ≠ None.
Proof. by vm_compute. Qed.
Example found : FindStringSubmatch (MustCompile "(?i)💾\s*([\d.]+)\s*(GB|MB)") "Film 👤 12 💾 4.5 gb" 1 = Some "4.5"%string.
Proof. by vm_compute. Qed.
Example replaced : ReplaceAllString (MustCompile "[._]((?:19|20)\d{2})[._]") "the.film.2020.1999_x" "" = "the.film1999_x"%string.
Proof. by vm_compute. Qed.
