(* ===== verification/Streaming.v ===== *)
(** * The streaming policy (internal/syncer/quality/streaming_policy.go)

    How the syncer ranks the releases of a film or an episode: which ones may be
    streamed at all, and in which order they are tried. Sizes are float64; the
    title is searched with regular expressions. *)

From S2P Require Import Prelude Float64 Regex.

Inductive MediaType := MediaNone | MediaMovie | MediaTV.
#[export] Instance MediaType_eq_dec : EqDecision MediaType.
Proof. solve_decision. Defined.

(** [RNone] is the empty string, the zero value of the type. *)
Inductive Resolution := RNone | R4K | R1080p | R720p | R480p | RSD | RUnknown.
#[export] Instance Resolution_eq_dec : EqDecision Resolution.
Proof. solve_decision. Defined.

Record StreamingCandidate := MkCandidate {
  Hash : string;
  Title : string;
  cMediaType : MediaType;
  cResolution : Resolution;
  SizeGB : float64;
  Seeders : Z;
  IsPack : bool;
  EstimatedEpisodeCount : Z;
}.

Record StreamingPolicy := MkPolicy {
  pMediaType : MediaType;
  IdealGB : float64;
  CompactGB : float64;
  FallbackGB : float64;
  StrictFileMaxGB : float64;
  MinSeeders : Z;
  GoodSeeders : Z;
  StrongSeeders : Z;
}.

Record StreamingRank := MkRank {
  candidate : StreamingCandidate;
  EffectiveSizeGB : float64;
  SizeTier : Z;
  PeerTier : Z;
  CompactTagScore : Z;
  ResolutionTier : Z;
  Score : Z;
}.

Definition reStreaming4K : regex := MustCompile "(?i)(2160p|4k|uhd)".
Definition reStreaming1080p : regex := MustCompile "(?i)(1080p|1080i|fhd)".
Definition reStreaming720p : regex := MustCompile "(?i)(720p|720i)".
Definition reStreaming480p : regex := MustCompile "(?i)\b(480p|576p|sd)\b".
Definition reBadStreamingTags : regex := MustCompile "(?i)\b(bd[-_. ]?remux|remux|cam|camrip|hdcam|hdts|telesync|telecine|webscreener|screener|scr)\b".
Definition reBadLanguageTags : regex := MustCompile "🇪🇸|🇫🇷|🇩🇪|🇷🇺|🇨🇳|🇯🇵|🇰🇷|🇹🇭|🇵🇹|🇧🇷|🇺🇦|🇵🇱|🇳🇱|🇹🇷|🇸🇦|🇮🇳|🇨🇿|🇭🇺|🇷🇴".
Definition reBadDubTags : regex := MustCompile "(?i)\b(Ukr|Ukrainian|Ger|German|Fra|French|Spa|Spanish|Por|Portuguese|Rus|Russian|Chi|Chinese|Pol|Polish|Tur|Turkish|Ara|Arabic|Hin|Hindi|Cze|Czech|Hun|Hungarian)\s+Dub\b".
Definition reCompactSource : regex := MustCompile "(?i)\b(web[-_. ]?rip|web[-_. ]?dl|web)\b".
Definition reCompactCodec : regex := MustCompile "(?i)\b(x265|h265|hevc|av1)\b".
Definition reCompactGroup : regex := MustCompile "(?i)\b(yts|yify|rarbg|pahe|psa)\b".

Definition MovieStreamingPolicy : StreamingPolicy := {|
  pMediaType := MediaMovie;
  IdealGB := f64_lit 1 0;
  CompactGB := f64_lit 2 0;
  FallbackGB := f64_lit 8 0;
  StrictFileMaxGB := f64_lit 2 0;
  MinSeeders := 5;
  GoodSeeders := 15;
  StrongSeeders := 50;
|}.

Definition TVStreamingPolicy : StreamingPolicy := {|
  pMediaType := MediaTV;
  IdealGB := f64_lit 5 1;
  CompactGB := f64_lit 1 0;
  FallbackGB := f64_lit 15 1;
  StrictFileMaxGB := f64_lit 1 0;
  MinSeeders := 5;
  GoodSeeders := 15;
  StrongSeeders := 40;
|}.

Definition DetectResolution (title : string) : Resolution :=
  if MatchString reStreaming4K title then R4K
  else if MatchString reStreaming1080p title then R1080p
  else if MatchString reStreaming720p title then R720p
  else if MatchString reStreaming480p title then if Contains (ToLower title) "480p" then R480p else RSD
  else RUnknown.

(** ** Ranking *)

Definition streamingSizeTier (sizeGB : float64) (policy : StreamingPolicy) : Z :=
  if f64_leb sizeGB (IdealGB policy) then 0
  else if f64_leb sizeGB (CompactGB policy) then 1
  else 2.

Definition streamingPeerTier (seeders : Z) (policy : StreamingPolicy) : Z :=
  if StrongSeeders policy <=? seeders then 3
  else if GoodSeeders policy <=? seeders then 2
  else if MinSeeders policy <=? seeders then 1
  else 0.

Definition streamingCompactTagScore (title : string) : Z :=
  (if MatchString reCompactSource title then 30 else 0) +
  (if MatchString reCompactCodec title then 20 else 0) +
  (if MatchString reCompactGroup title then 10 else 0).

Definition streamingResolutionTier (res : Resolution) : Z :=
  match res with
  | R480p | RSD => 0
  | R720p => 1
  | R1080p => 2
  | R4K => 3
  | _ => 4
  end.

Section policy.
(** What the processor makes of a float that does not fit an integer. *)
Context (undef : float64 → Z).

Definition sizePoints (size : float64) : Z := f64_to_int64 undef (f64_mul size (f64_of_Z 1000)).

Definition streamingScore (size : float64) (sizeTier peerTier tagScore resTier seeders : Z) : Z :=
  int64 ((3 - sizeTier) * 100000 + peerTier * 10000 + tagScore * 100 - resTier * 100 - sizePoints size + seeders).

Definition normalHash (c : StreamingCandidate) : string := ToLower (TrimSpace (Hash c)).

Definition resolution_of (c : StreamingCandidate) : Resolution :=
  match cResolution c with
  | RUnknown | RNone => DetectResolution (Title c)
  | res => res
  end.

Definition effective_size (c : StreamingCandidate) : float64 :=
  if IsPack c && (0 <? EstimatedEpisodeCount c)
  then f64_div (SizeGB c) (f64_of_Z (EstimatedEpisodeCount c)) else SizeGB c.

Definition RankStreamingCandidate (c : StreamingCandidate) (policy : StreamingPolicy) : option StreamingRank :=
  let hash := normalHash c in
  if bool_decide (hash = "") then None
  else if bool_decide (pMediaType policy ≠ MediaNone) && bool_decide (cMediaType c ≠ MediaNone) &&
          bool_decide (cMediaType c ≠ pMediaType policy) then None
  else if MatchString reBadStreamingTags (Title c) || MatchString reBadLanguageTags (Title c) ||
          MatchString reBadDubTags (Title c) then None
  else
    let res := resolution_of c in
    if bool_decide (res = RUnknown) then None
    else
      let size := effective_size c in
      if f64_leb size (f64_of_Z 0) then None
      else if (0 <? Seeders c) && (Seeders c <? MinSeeders policy) then None
      else if f64_ltb (FallbackGB policy) size then None
      else if bool_decide (res = R4K) && f64_ltb (CompactGB policy) size && (Seeders c <? StrongSeeders policy) then None
      else
        let c' := MkCandidate hash (Title c) (cMediaType c) res (SizeGB c) (Seeders c) (IsPack c) (EstimatedEpisodeCount c) in
        let st := streamingSizeTier size policy in
        let pt := streamingPeerTier (Seeders c) policy in
        let ts := streamingCompactTagScore (Title c) in
        let rt := streamingResolutionTier res in
        Some (MkRank c' size st pt ts rt (streamingScore size st pt ts rt (Seeders c))).

Definition RankExactStreamingFile (c : StreamingCandidate) (policy : StreamingPolicy) : option StreamingRank :=
  if f64_ltb (StrictFileMaxGB policy) (SizeGB c) then None else RankStreamingCandidate c policy.

Definition BetterThan (r other : StreamingRank) : bool :=
  if negb (SizeTier r =? SizeTier other) then SizeTier r <? SizeTier other
  else if negb (PeerTier r =? PeerTier other) then PeerTier other <? PeerTier r
  else if negb (f64_eqb (EffectiveSizeGB r) (EffectiveSizeGB other)) then f64_ltb (EffectiveSizeGB r) (EffectiveSizeGB other)
  else if negb (CompactTagScore r =? CompactTagScore other) then CompactTagScore other <? CompactTagScore r
  else if negb (ResolutionTier r =? ResolutionTier other) then ResolutionTier r <? ResolutionTier other
  else if negb (Seeders (candidate r) =? Seeders (candidate other))
       then Seeders (candidate other) <? Seeders (candidate r)
  else String.ltb (Hash (candidate r)) (Hash (candidate other)).

Definition RankStreamingCandidates (cs : list StreamingCandidate) (policy : StreamingPolicy) : list StreamingRank :=
  sort_stable BetterThan (omap (λ c, RankStreamingCandidate c policy) cs).

End policy.

(** ** The order of the ranks *)

Definition is_number (x : float64) : bool := match x with S754_nan => false | _ => true end.

(** Floats that are numbers are ordered by sign, exponent and mantissa. *)
Definition f64_class (x : float64) : Z :=
  match x with
  | S754_infinity true => 0
  | S754_finite true _ _ => 1
  | S754_zero _ => 2
  | S754_finite false _ _ => 3
  | S754_infinity false => 4
  | S754_nan => 5
  end.
Definition f64_exp (x : float64) : Z := match x with S754_finite s _ e => if s then - e else e | _ => 0 end.
Definition f64_man (x : float64) : Z := match x with S754_finite s m _ => if s then - Z.pos m else Z.pos m | _ => 0 end.

Definition f64_cmp : float64 → float64 → comparison :=
  cmp_lex (cmp_on f64_class Z.compare) (cmp_lex (cmp_on f64_exp Z.compare) (cmp_on f64_man Z.compare)).

Lemma SFcompare_cmp x y : is_number x = true → is_number y = true → SFcompare x y = Some (f64_cmp x y).
Proof.
  destruct x as [sx|sx| |sx mx ex], y as [sy|sy| |sy my ey]; try done; intros _ _; destruct sx, sy; try done;
    unfold f64_cmp, cmp_lex, cmp_on; simpl.
  rewrite Z.compare_opp, (Z.compare_antisym ex ey). by destruct (ex ?= ey).
Qed.

Definition rank_cmp : StreamingRank → StreamingRank → comparison :=
  cmp_lex (cmp_on SizeTier Z.compare)
  (cmp_lex (cmp_flip (cmp_on PeerTier Z.compare))
  (cmp_lex (cmp_on EffectiveSizeGB f64_cmp)
  (cmp_lex (cmp_flip (cmp_on CompactTagScore Z.compare))
  (cmp_lex (cmp_on ResolutionTier Z.compare)
  (cmp_lex (cmp_flip (cmp_on (λ r, Seeders (candidate r)) Z.compare))
           (cmp_on (λ r, Hash (candidate r)) String.compare)))))).

#[export] Instance f64_cmp_total : TotalCmp f64_cmp.
Proof. unfold f64_cmp. apply _. Qed.

#[export] Instance rank_cmp_total : TotalCmp rank_cmp.
Proof. unfold rank_cmp. apply _. Qed.

Lemma tier_step (x y : Z) (b : bool) (o : comparison) :
  b = match o with Lt => true | _ => false end →
  (if negb (x =? y) then x <? y else b) = match (match x ?= y with Eq => o | c => c end) with Lt => true | _ => false end.
Proof.
  intros ->. destruct (Z.compare_spec x y) as [->|H|H].
  - by rewrite Z.eqb_refl.
  - rewrite (proj2 (Z.eqb_neq x y)) by lia. by apply Z.ltb_lt.
  - rewrite (proj2 (Z.eqb_neq x y)) by lia. apply Z.ltb_ge. lia.
Qed.

Lemma size_step (x y : float64) (b : bool) (o : comparison) :
  is_number x = true → is_number y = true → b = match o with Lt => true | _ => false end →
  (if negb (f64_eqb x y) then f64_ltb x y else b) =
  match (match f64_cmp x y with Eq => o | c => c end) with Lt => true | _ => false end.
Proof.
  intros Hx Hy ->. unfold f64_eqb, f64_ltb, SFeqb, SFltb. rewrite (SFcompare_cmp x y) by done.
  by destruct (f64_cmp x y).
Qed.

(** On sizes that are numbers, [BetterThan] is a total order up to the hash. *)
Lemma BetterThan_cmp r o :
  is_number (EffectiveSizeGB r) = true → is_number (EffectiveSizeGB o) = true → BetterThan r o = cmp_lt rank_cmp r o.
Proof.
  intros Hr Ho. unfold BetterThan, rank_cmp, cmp_lt, cmp_lex, cmp_flip, cmp_on.
  apply tier_step. rewrite (Z.eqb_sym (PeerTier r)). apply tier_step. apply size_step; [done..|].
  rewrite (Z.eqb_sym (CompactTagScore r)). apply tier_step. apply tier_step.
  rewrite (Z.eqb_sym (Seeders (candidate r))). apply tier_step. done.
Qed.

(** Ranks that are not better than each other have the same hash. *)
Lemma rank_cmp_hash x y :
  cmp_lt rank_cmp y x = false → cmp_lt rank_cmp x y = false → Hash (candidate x) = Hash (candidate y).
Proof.
  unfold cmp_lt.
  pose proof (cmp_opp y x) as Ho. destruct (rank_cmp y x) eqn:E; [|done|simpl in Ho; by rewrite Ho].
  intros _ _. clear Ho. unfold rank_cmp, cmp_lex in E.
  repeat match type of E with (match ?a with _ => _ end) = Eq => destruct a; [|done..] end.
  unfold cmp_on in E. by apply String.compare_eq_iff in E.
Qed.

Lemma NoDup_fmap_elem {A B} (f : A → B) (l : list A) x y : NoDup (f <$> l) → x ∈ l → y ∈ l → f x = f y → x = y.
Proof.
  intros Hd Hx Hy Hf. apply list_elem_of_lookup in Hx as [i Hi], Hy as [j Hj].
  assert (i = j) as ->; [|congruence].
  eapply NoDup_lookup; [done|rewrite list_lookup_fmap, Hi; done|rewrite list_lookup_fmap, Hj; simpl; by rewrite Hf].
Qed.

Section ranking.
Context (undef : float64 → Z) (policy : StreamingPolicy).

(** What the policy asks of a candidate. *)
Record streamable (c : StreamingCandidate) : Prop := {
  st_hash : normalHash c ≠ "";
  st_media : pMediaType policy = MediaNone ∨ cMediaType c = MediaNone ∨ cMediaType c = pMediaType policy;
  st_tags : MatchString reBadStreamingTags (Title c) = false ∧ MatchString reBadLanguageTags (Title c) = false ∧
            MatchString reBadDubTags (Title c) = false;
  st_res : resolution_of c ≠ RUnknown;
  st_size : f64_leb (effective_size c) (f64_of_Z 0) = false ∧ f64_ltb (FallbackGB policy) (effective_size c) = false;
  st_seeders : Seeders c ≤ 0 ∨ MinSeeders policy ≤ Seeders c;
  st_4k : resolution_of c = R4K → f64_ltb (CompactGB policy) (effective_size c) = true → StrongSeeders policy ≤ Seeders c;
}.

(** The rank of a candidate that passes. *)
Definition rank_of (c : StreamingCandidate) : StreamingRank :=
  let size := effective_size c in
  let res := resolution_of c in
  let st := streamingSizeTier size policy in
  let pt := streamingPeerTier (Seeders c) policy in
  let ts := streamingCompactTagScore (Title c) in
  let rt := streamingResolutionTier res in
  MkRank (MkCandidate (normalHash c) (Title c) (cMediaType c) res (SizeGB c) (Seeders c) (IsPack c) (EstimatedEpisodeCount c))
    size st pt ts rt (streamingScore undef size st pt ts rt (Seeders c)).

Lemma RankStreamingCandidate_spec c r :
  RankStreamingCandidate undef c policy = Some r ↔ streamable c ∧ r = rank_of c.
Proof.
  unfold RankStreamingCandidate. fold (rank_of c).
  destruct (bool_decide_reflect (normalHash c = "")) as [Hh|Hh].
  { split; [done|]. intros [[? _ _ _ _ _ _] _]. done. }
  destruct (bool_decide (pMediaType policy ≠ MediaNone) && bool_decide (cMediaType c ≠ MediaNone) &&
          bool_decide (cMediaType c ≠ pMediaType policy)) eqn:Hm.
  { split; [done|]. intros [[_ Hx _ _ _ _ _] _]. apply andb_true_iff in Hm as [[H1 H2]%andb_true_iff H3].
    apply bool_decide_eq_true in H1, H2, H3. naive_solver. }
  destruct (MatchString reBadStreamingTags (Title c) || MatchString reBadLanguageTags (Title c) ||
          MatchString reBadDubTags (Title c)) eqn:Ht.
  { split; [done|]. intros [[_ _ (H1 & H2 & H3) _ _ _ _] _]. by rewrite H1, H2, H3 in Ht. }
  destruct (bool_decide_reflect (resolution_of c = RUnknown)) as [Hr|Hr].
  { split; [done|]. intros [[_ _ _ ? _ _ _] _]. done. }
  destruct (f64_leb (effective_size c) (f64_of_Z 0)) eqn:Hs.
  { split; [done|]. intros [[_ _ _ _ [Hx _] _ _] _]. congruence. }
  destruct ((0 <? Seeders c) && (Seeders c <? MinSeeders policy)) eqn:Hp.
  { split; [done|]. intros [[_ _ _ _ _ ? _] _]. apply andb_true_iff in Hp as [?%Z.ltb_lt ?%Z.ltb_lt]. lia. }
  destruct (f64_ltb (FallbackGB policy) (effective_size c)) eqn:Hf.
  { split; [done|]. intros [[_ _ _ _ [_ Hx] _ _] _]. congruence. }
  destruct (bool_decide (resolution_of c = R4K) && f64_ltb (CompactGB policy) (effective_size c) &&
          (Seeders c <? StrongSeeders policy)) eqn:H4.
  { split; [done|]. intros [[_ _ _ _ _ _ Hx] _]. apply andb_true_iff in H4 as [[H1%bool_decide_eq_true H2]%andb_true_iff H3%Z.ltb_lt].
    specialize (Hx H1 H2). lia. }
  split; [intros [= <-]; split; [split|done]|by intros [_ ->]].
  - done.
  - rewrite !andb_false_iff, !bool_decide_eq_false in Hm.
    destruct Hm as [[?%dec_stable|?%dec_stable]|?%dec_stable]; auto.
  - by apply orb_false_iff in Ht as [[? ?]%orb_false_iff ?].
  - done.
  - done.
  - apply andb_false_iff in Hp as [?%Z.ltb_ge|?%Z.ltb_ge]; lia.
  - intros H1 H2. rewrite H1, H2 in H4. simpl in H4. by apply Z.ltb_ge in H4.
Qed.

Lemma rank_of_hash c : Hash (candidate (rank_of c)) = normalHash c.
Proof. done. Qed.

Lemma accepted_elem (cs : list StreamingCandidate) r :
  r ∈ omap (λ c, RankStreamingCandidate undef c policy) cs ↔ ∃ c, c ∈ cs ∧ streamable c ∧ r = rank_of c.
Proof.
  rewrite list_elem_of_omap. split; intros (c & Hc & H); exists c.
  - apply RankStreamingCandidate_spec in H as [? ?]. done.
  - split; [done|]. by apply RankStreamingCandidate_spec.
Qed.

Lemma ranked_elem cs r :
  r ∈ RankStreamingCandidates undef cs policy ↔ ∃ c, c ∈ cs ∧ streamable c ∧ r = rank_of c.
Proof. unfold RankStreamingCandidates. by rewrite sort_stable_perm, accepted_elem. Qed.

Definition sizes_are_numbers (cs : list StreamingCandidate) : Prop :=
  Forall (λ c, is_number (effective_size c) = true) cs.

Lemma ranked_numbers cs r : sizes_are_numbers cs → r ∈ RankStreamingCandidates undef cs policy → is_number (EffectiveSizeGB r) = true.
Proof.
  intros Hn (c & Hc & _ & ->)%ranked_elem. by apply (proj1 (Forall_forall _ _) Hn).
Qed.

Lemma ranked_sorted cs : sizes_are_numbers cs → sorted_by BetterThan (RankStreamingCandidates undef cs policy).
Proof.
  intros Hn. pose proof (ranked_numbers cs) as Hnum.
  assert (RankStreamingCandidates undef cs policy =
          sort_stable (cmp_lt rank_cmp) (omap (λ c, RankStreamingCandidate undef c policy) cs)) as E.
  { apply sort_stable_ext. intros x y Hx Hy. apply BetterThan_cmp; apply Hnum; try done;
      unfold RankStreamingCandidates; by rewrite sort_stable_perm. }
  assert (sorted_by (cmp_lt rank_cmp) (RankStreamingCandidates undef cs policy)) as Hs.
  { rewrite E. apply sort_stable_sorted, _. }
  clear E. revert Hs. unfold sorted_by.
  assert (∀ r, r ∈ RankStreamingCandidates undef cs policy → is_number (EffectiveSizeGB r) = true) as Hall by auto.
  revert Hall. generalize (RankStreamingCandidates undef cs policy) as l. clear.
  induction l as [|r l IH]; intros Hall Hs; [constructor|]. inversion_clear Hs as [|? ? Hs' Hf]. constructor.
  - apply IH; [|done]. intros o Ho. apply Hall. by right.
  - apply Forall_forall. intros o Ho. rewrite BetterThan_cmp by (apply Hall; by constructor).
    by apply (proj1 (Forall_forall _ _) Hf).
Qed.
End ranking.

(** C19: The ranking of the releases of a film or an episode. It keeps exactly
    the candidates that the policy allows (a known resolution, no banned tag or
    language, a size above zero and up to the fallback limit, enough seeders or
    an unknown number, and many for a large 4K release), best first; and if
    their hashes differ the result does not depend on the order in which the
    indexers returned them. Sizes must be numbers, not NaN. *)
Theorem ranking_best_first undef policy cs cs' :
  sizes_are_numbers cs → cs ≡ₚ cs' →
  (∀ r, r ∈ RankStreamingCandidates undef cs policy ↔ ∃ c, c ∈ cs ∧ streamable policy c ∧ r = rank_of undef policy c) ∧
  sorted_by BetterThan (RankStreamingCandidates undef cs policy) ∧
  (NoDup (normalHash <$> cs) →
   RankStreamingCandidates undef cs policy = RankStreamingCandidates undef cs' policy).
Proof.
  intros Hn Hp. assert (sizes_are_numbers cs') as Hn' by (by unfold sizes_are_numbers; rewrite <- Hp).
  split_and!; [apply ranked_elem|by apply ranked_sorted|]. intros Hd.
  apply (StronglySorted_unique_strong (λ x y, BetterThan y x = false)); [|by apply ranked_sorted..|].
  - intros x y Hx Hy Hxy Hyx. pose proof (ranked_numbers undef policy _ _ Hn Hx). pose proof (ranked_numbers undef policy _ _ Hn' Hy).
    cbn beta in Hxy, Hyx. rewrite BetterThan_cmp in Hxy, Hyx by done.
    apply ranked_elem in Hx as (c1 & Hc1 & _ & ->). apply ranked_elem in Hy as (c2 & Hc2 & _ & ->). rewrite <- Hp in Hc2.
    assert (normalHash c1 = normalHash c2) as Hh by (rewrite <- !(rank_of_hash undef policy); by apply rank_cmp_hash).
    f_equal. by eapply (NoDup_fmap_elem normalHash).
  - unfold RankStreamingCandidates. by rewrite !sort_stable_perm, Hp.
Qed.

(** ** The bounds of the score *)

(** A positive size of at most eight gigabytes costs at most 8001 points. *)
Lemma sizePoints_bounds undef x :
  valid_binary 53 1024 x = true → f64_leb x (f64_of_Z 0) = false → f64_leb x (f64_lit 8 0) = true →
  0 ≤ sizePoints undef x ≤ 8001.
Proof.
  intros Hv H0 H8. unfold sizePoints.
  assert (∃ m e, x = S754_finite false m e ∧ (e < -49 ∨ e = -49 ∧ Z.pos m ≤ 2 ^ 52)) as (m & e & -> & He).
  { assert (f64_lit 8 0 = S754_finite false 4503599627370496 (-49)) as E8 by (by vm_compute). rewrite E8 in H8.
    change (f64_of_Z 0) with (S754_zero false) in H0.
    destruct x as [|[]| |[] m e]; try done. exists m, e. split; [done|]. apply f64_leb_pos in H8.
    destruct H8 as [?|[? ?]]; [by left|right]. split; [done|]. lia. }
  cbn [valid_binary] in Hv. apply andb_true_iff in Hv as [Hc%Z.eqb_eq _]. unfold fexp, emin in Hc.
  pose proof (digits2_bounds m) as [_ Hm].
  assert (Z.pos m < 2 ^ 53) as Hm53.
  { pose proof (Z.pow_le_mono_r 2 (Z.pos (digits2_pos m)) 53). lia. }
  assert (f64_of_Z 1000 = S754_finite false 8796093022208000 (-43)) as -> by (by vm_compute). unfold f64_mul. cbn [SFmul xorb].
  destruct (binary_round_aux_trunc (Z.pos (m * 8796093022208000)) (e + -43)) as (z & Hz & Hb); [lia..| |].
  { assert (Zdigits2 (Z.pos (m * 8796093022208000)) ≤ 106); [|lia]. apply digits2_le; [lia..|].
    change (2 ^ 106) with (2 ^ 53 * 2 ^ 53). lia. }
  unfold f64_to_int64. rewrite Hz.
  assert (Z.pos (m * 8796093022208000) / 2 ^ (- (e + -43)) ≤ 8000) as Hle.
  { assert (Z.pos (m * 8796093022208000) / 2 ^ (- (e + -43)) < 8001); [|lia].
    apply Z.div_lt_upper_bound; [lia|]. destruct He as [He|[-> He]].
    - pose proof (Z.pow_le_mono_r 2 93 (- (e + -43))). 
      assert (Z.pos (m * 8796093022208000) ≤ 2 ^ 93 * 8000); [|lia].
      change (2 ^ 93 * 8000) with (2 ^ 53 * 8796093022208000). lia.
    - change (2 ^ (- (-49 + -43))) with (2 ^ 52 * 1099511627776). lia. }
  rewrite (proj2 (Z.leb_le (- 2 ^ 63) z)), (proj2 (Z.ltb_lt z (2 ^ 63))) by lia. cbn [andb]. lia.
Qed.

Lemma sizeTier_bounds x policy : 0 ≤ streamingSizeTier x policy ≤ 2.
Proof. unfold streamingSizeTier. repeat case_match; lia. Qed.
Lemma peerTier_bounds n policy : 0 ≤ streamingPeerTier n policy ≤ 3.
Proof. unfold streamingPeerTier. repeat case_match; lia. Qed.
Lemma tagScore_bounds t : 0 ≤ streamingCompactTagScore t ≤ 60.
Proof. unfold streamingCompactTagScore. repeat case_match; lia. Qed.
Lemma resolutionTier_bounds r : 0 ≤ streamingResolutionTier r ≤ 4.
Proof. destruct r; simpl; lia. Qed.

Lemma f64_not_above x y : is_number x = true → is_number y = true → f64_ltb y x = false → f64_leb x y = true.
Proof.
  intros Hx Hy. unfold f64_ltb, f64_leb, SFltb, SFleb. rewrite !SFcompare_cmp by done. rewrite (cmp_opp x y).
  by destruct (f64_cmp x y).
Qed.

(** The score of a film that may be streamed. *)
Lemma movie_score_bounds undef c :
  streamable MovieStreamingPolicy c → is_number (effective_size c) = true →
  valid_binary 53 1024 (effective_size c) = true → 0 ≤ Seeders c < 2 ^ 52 →
  91599 ≤ Score (rank_of undef MovieStreamingPolicy c) < 2 ^ 53.
Proof.
  intros Hs Hn Hv Hp. destruct (st_size _ _ Hs) as [H0 H8].
  apply f64_not_above in H8; [|done|by vm_compute].
  pose proof (sizePoints_bounds undef (effective_size c) Hv H0 H8).
  pose proof (sizeTier_bounds (effective_size c) MovieStreamingPolicy).
  pose proof (peerTier_bounds (Seeders c) MovieStreamingPolicy).
  pose proof (tagScore_bounds (Title c)). pose proof (resolutionTier_bounds (resolution_of c)).
  unfold rank_of. cbn [Score]. unfold streamingScore. rewrite wrap_s_id by (unfold fits_s; lia). lia.
Qed.

(** ** Witnesses *)

Definition sample_candidates : list StreamingCandidate :=
  [MkCandidate "AAAA" "Film 1080p WEB-DL x265" MediaMovie RNone (f64_lit 18 1) 60 false 0;
   MkCandidate "bbbb" "Film 2160p Remux" MediaMovie RNone (f64_lit 60 0) 90 false 0;
   MkCandidate "cccc" "Film 720p" MediaMovie RNone (f64_lit 9 1) 12 false 0].

Lemma ranking_best_first_witness :
  (Hash ∘ candidate) <$> RankStreamingCandidates (λ _, 0) sample_candidates MovieStreamingPolicy = ["cccc"; "aaaa"] ∧
  RankStreamingCandidates (λ _, 0) sample_candidates MovieStreamingPolicy =
  RankStreamingCandidates (λ _, 0) (reverse sample_candidates) MovieStreamingPolicy.
Proof.
  split; [vm_compute; reflexivity|].
  apply (ranking_best_first (λ _, 0) MovieStreamingPolicy sample_candidates (reverse sample_candidates)).
  - repeat constructor.
  - symmetry. apply reverse_Permutation.
  - apply (bool_decide_unpack _). vm_compute. exact I.
Defined.
