(* ===== verification/Quality.v ===== *)
(** * Quality profiles (internal/syncer/quality, internal/config/quality.go)

    The settings that weigh the releases: two presets for films and for series,
    which the user's configuration overrides field by field, and a score of a
    title. A pointer that may be nil is an option; the maps and slices are
    values, since nothing writes to them. The types of package config are in the
    module [Config]. *)

From S2P Require Import Prelude Float64 Regex.

Module Config.

Record MovieScoreWeights := MkMW {
  mw_Resolution4K : option Z;
  mw_Resolution1080p : option Z;
  mw_Resolution720p : option Z;
  mw_DolbyVision : option Z;
  mw_HDR : option Z;
  mw_HDR10Plus : option Z;
  mw_Atmos : option Z;
  mw_Audio51 : option Z;
  mw_AudioStereo : option Z;
  mw_BluRay : option Z;
  mw_Remux : option Z;
  mw_ITA : option Z;
  mw_SeederBonus : option Z;
  mw_SeederThreshold : option Z;
  mw_UnknownSizePenalty : option Z;
}.

Record MovieQualityProfile := MkMP {
  mp_Include4K : option bool;
  mp_Include1080p : option bool;
  mp_Include720p : option bool;
  mp_SizeFloorGB : gmap string float64;
  mp_SizeCeilingGB : gmap string float64;
  mp_MinSeeders : option Z;
  mp_Fallback4KMinSeeders : option Z;
  mp_PriorityOrder : list string;
  mp_ScoreWeights : MovieScoreWeights;
}.

Record TVScoreWeights := MkTW {
  tw_Resolution4K : option Z;
  tw_Resolution1080p : option Z;
  tw_Resolution720p : option Z;
  tw_HDR : option Z;
  tw_Atmos : option Z;
  tw_Audio51 : option Z;
  tw_ITA : option Z;
  tw_Seeder100Bonus : option Z;
  tw_Seeder50Bonus : option Z;
  tw_Seeder20Bonus : option Z;
}.

Record TVQualityProfile := MkTP {
  tp_Include4K : option bool;
  tp_Include1080p : option bool;
  tp_Include720p : option bool;
  tp_SizeFloorGB : gmap string float64;
  tp_SizeCeilingGB : gmap string float64;
  tp_MinSeeders4K : option Z;
  tp_MinSeeders : option Z;
  tp_FullpackBonus : option Z;
  tp_PriorityOrder : list string;
  tp_ScoreWeights : TVScoreWeights;
}.

Record QualityProfileSet := MkSet { Movies : option MovieQualityProfile; TV : option TVQualityProfile }.
Record QualityConfig := MkConfig { Profile : string; Profiles : gmap string QualityProfileSet }.

End Config.

(** ** Profiles (types.go) *)

Record MovieScoreWeights := MkMW {
  mw_Resolution4K : option Z;
  mw_Resolution1080p : option Z;
  mw_Resolution720p : option Z;
  mw_DolbyVision : option Z;
  mw_HDR : option Z;
  mw_HDR10Plus : option Z;
  mw_Atmos : option Z;
  mw_Audio51 : option Z;
  mw_AudioStereo : option Z;
  mw_BluRay : option Z;
  mw_Remux : option Z;
  mw_ITA : option Z;
  mw_SeederBonus : option Z;
  mw_SeederThreshold : option Z;
  mw_UnknownSizePenalty : option Z;
  mw_SizeBonusPerGBUnder : option Z;
}.

Record MovieProfile := MkMP {
  mp_Include4K : option bool;
  mp_Include1080p : option bool;
  mp_Include720p : option bool;
  mp_SizeFloorGB : gmap string float64;
  mp_SizeCeilingGB : gmap string float64;
  mp_MinSeeders : option Z;
  mp_Fallback4KMinSeeders : option Z;
  mp_PriorityOrder : list string;
  mp_ScoreWeights : MovieScoreWeights;
}.

Record TVScoreWeights := MkTW {
  tw_Resolution4K : option Z;
  tw_Resolution1080p : option Z;
  tw_Resolution720p : option Z;
  tw_Resolution480p : option Z;
  tw_HDR : option Z;
  tw_Atmos : option Z;
  tw_Audio51 : option Z;
  tw_ITA : option Z;
  tw_Seeder100Bonus : option Z;
  tw_Seeder50Bonus : option Z;
  tw_Seeder20Bonus : option Z;
  tw_SizeBonusPerGBUnder : option Z;
}.

Record TVProfile := MkTP {
  tp_Include4K : option bool;
  tp_Include1080p : option bool;
  tp_Include720p : option bool;
  tp_Include480p : option bool;
  tp_SizeFloorGB : gmap string float64;
  tp_SizeCeilingGB : gmap string float64;
  tp_MinSeeders4K : option Z;
  tp_MinSeeders : option Z;
  tp_FullpackBonus : option Z;
  tp_PriorityOrder : list string;
  tp_ScoreWeights : TVScoreWeights;
}.

Definition DefaultQualityFirstMovies : MovieProfile := {|
  mp_Include4K := Some true;
  mp_Include1080p := Some true;
  mp_Include720p := Some false;
  mp_SizeFloorGB := list_to_map [("4k", f64_lit 10 0); ("1080p", f64_lit 4 0)];
  mp_SizeCeilingGB := list_to_map [("4k", f64_lit 60 0); ("1080p", f64_lit 20 0)];
  mp_MinSeeders := Some 15;
  mp_Fallback4KMinSeeders := None;
  mp_PriorityOrder := ["4k"; "1080p"; "720p"];
  mp_ScoreWeights := {|
    mw_Resolution4K := Some 200; mw_Resolution1080p := Some 50; mw_Resolution720p := None; mw_DolbyVision :=
    Some 150; mw_HDR := Some 100; mw_HDR10Plus := Some 100; mw_Atmos := Some 50; mw_Audio51 := Some 25;
    mw_AudioStereo := Some (-50); mw_BluRay := Some 10; mw_Remux := Some (-500); mw_ITA := Some 60;
    mw_SeederBonus := Some 5; mw_SeederThreshold := Some 50; mw_UnknownSizePenalty := Some (-5);
    mw_SizeBonusPerGBUnder := None
  |};
|}.

Definition DefaultSizeFirstMovies : MovieProfile := {|
  mp_Include4K := Some true;
  mp_Include1080p := Some true;
  mp_Include720p := Some true;
  mp_SizeFloorGB := list_to_map [("720p", f64_lit 5 1); ("1080p", f64_lit 5 1); ("4k", f64_lit 1 0)];
  mp_SizeCeilingGB := list_to_map [("720p", f64_lit 3 0); ("1080p", f64_lit 10 0); ("4k", f64_lit 15 0)];
  mp_MinSeeders := Some 10;
  mp_Fallback4KMinSeeders := Some 50;
  mp_PriorityOrder := ["720p"; "1080p"; "4k"];
  mp_ScoreWeights := {|
    mw_Resolution4K := Some 100; mw_Resolution1080p := Some 300; mw_Resolution720p := Some 500; mw_DolbyVision
    := Some 50; mw_HDR := Some 40; mw_HDR10Plus := Some 40; mw_Atmos := Some 25; mw_Audio51 := Some 15;
    mw_AudioStereo := Some 10; mw_BluRay := Some 5; mw_Remux := Some (-500); mw_ITA := Some 60; mw_SeederBonus
    := Some 5; mw_SeederThreshold := Some 30; mw_UnknownSizePenalty := Some (-5); mw_SizeBonusPerGBUnder :=
    Some 100
  |};
|}.

Definition DefaultQualityFirstTV : TVProfile := {|
  tp_Include4K := Some true;
  tp_Include1080p := Some true;
  tp_Include720p := Some false;
  tp_Include480p := Some false;
  tp_SizeFloorGB := list_to_map [("4k", f64_lit 10 0); ("1080p", f64_lit 1 0)];
  tp_SizeCeilingGB := list_to_map [("4k", f64_lit 30 0); ("1080p", f64_lit 30 0)];
  tp_MinSeeders4K := Some 10;
  tp_MinSeeders := Some 5;
  tp_FullpackBonus := Some 500;
  tp_PriorityOrder := ["4k"; "1080p"; "720p"; "480p"];
  tp_ScoreWeights := {|
    tw_Resolution4K := Some 200; tw_Resolution1080p := Some 50; tw_Resolution720p := None; tw_Resolution480p
    := Some 100; tw_HDR := Some 100; tw_Atmos := Some 50; tw_Audio51 := Some 25; tw_ITA := Some 40;
    tw_Seeder100Bonus := Some 100; tw_Seeder50Bonus := Some 50; tw_Seeder20Bonus := Some 10;
    tw_SizeBonusPerGBUnder := None
  |};
|}.

Definition DefaultSizeFirstTV : TVProfile := {|
  tp_Include4K := Some true;
  tp_Include1080p := Some true;
  tp_Include720p := Some true;
  tp_Include480p := Some true;
  tp_SizeFloorGB := list_to_map [("720p", f64_lit 2 1); ("1080p", f64_lit 2 1); ("4k", f64_lit 5 1); ("480p", f64_lit 1 1)];
  tp_SizeCeilingGB := list_to_map [("720p", f64_lit 1 0); ("1080p", f64_lit 2 0); ("4k", f64_lit 3 0); ("480p", f64_lit 5 1)];
  tp_MinSeeders4K := Some 50;
  tp_MinSeeders := Some 10;
  tp_FullpackBonus := Some 300;
  tp_PriorityOrder := ["480p"; "720p"; "1080p"; "4k"];
  tp_ScoreWeights := {|
    tw_Resolution4K := Some 100; tw_Resolution1080p := Some 300; tw_Resolution720p := Some 600;
    tw_Resolution480p := Some 800; tw_HDR := Some 40; tw_Atmos := Some 25; tw_Audio51 := Some 15; tw_ITA :=
    Some 40; tw_Seeder100Bonus := Some 100; tw_Seeder50Bonus := Some 50; tw_Seeder20Bonus := Some 10;
    tw_SizeBonusPerGBUnder := Some 100
  |};
|}.

(** ** Resolution of the active profile (resolver.go) *)

Record ProfileSet := MkSet { Movies : option MovieProfile; TV : option TVProfile }.
Record QualityConfig := MkConfig { Profile : string; Profiles : option (gmap string ProfileSet) }.

(** [setIfNotNil]: the value given, or the one that was there. *)
Definition setIfNotNil {A} (dst src : option A) : option A := match src with Some _ => src | None => dst end.
Definition orMap {A} (dst src : gmap string A) : gmap string A := if bool_decide (src = ∅) then dst else src.
Definition orList {A} (dst src : list A) : list A := match src with [] => dst | _ => src end.

Definition mergeMovieWeights (result custom : MovieScoreWeights) : MovieScoreWeights := {|
  mw_Resolution4K := setIfNotNil (mw_Resolution4K result) (mw_Resolution4K custom);
  mw_Resolution1080p := setIfNotNil (mw_Resolution1080p result) (mw_Resolution1080p custom);
  mw_Resolution720p := setIfNotNil (mw_Resolution720p result) (mw_Resolution720p custom);
  mw_DolbyVision := setIfNotNil (mw_DolbyVision result) (mw_DolbyVision custom);
  mw_HDR := setIfNotNil (mw_HDR result) (mw_HDR custom);
  mw_HDR10Plus := setIfNotNil (mw_HDR10Plus result) (mw_HDR10Plus custom);
  mw_Atmos := setIfNotNil (mw_Atmos result) (mw_Atmos custom);
  mw_Audio51 := setIfNotNil (mw_Audio51 result) (mw_Audio51 custom);
  mw_AudioStereo := setIfNotNil (mw_AudioStereo result) (mw_AudioStereo custom);
  mw_BluRay := setIfNotNil (mw_BluRay result) (mw_BluRay custom);
  mw_Remux := setIfNotNil (mw_Remux result) (mw_Remux custom);
  mw_ITA := setIfNotNil (mw_ITA result) (mw_ITA custom);
  mw_SeederBonus := setIfNotNil (mw_SeederBonus result) (mw_SeederBonus custom);
  mw_SeederThreshold := setIfNotNil (mw_SeederThreshold result) (mw_SeederThreshold custom);
  mw_UnknownSizePenalty := setIfNotNil (mw_UnknownSizePenalty result) (mw_UnknownSizePenalty custom);
  mw_SizeBonusPerGBUnder := mw_SizeBonusPerGBUnder result;
|}.

Definition mergeMovieProfile (custom def : MovieProfile) : MovieProfile := {|
  mp_Include4K := setIfNotNil (mp_Include4K def) (mp_Include4K custom);
  mp_Include1080p := setIfNotNil (mp_Include1080p def) (mp_Include1080p custom);
  mp_Include720p := setIfNotNil (mp_Include720p def) (mp_Include720p custom);
  mp_SizeFloorGB := orMap (mp_SizeFloorGB def) (mp_SizeFloorGB custom);
  mp_SizeCeilingGB := orMap (mp_SizeCeilingGB def) (mp_SizeCeilingGB custom);
  mp_MinSeeders := setIfNotNil (mp_MinSeeders def) (mp_MinSeeders custom);
  mp_Fallback4KMinSeeders := setIfNotNil (mp_Fallback4KMinSeeders def) (mp_Fallback4KMinSeeders custom);
  mp_PriorityOrder := orList (mp_PriorityOrder def) (mp_PriorityOrder custom);
  mp_ScoreWeights := mergeMovieWeights (mp_ScoreWeights def) (mp_ScoreWeights custom);
|}.

Definition mergeTVWeights (result custom : TVScoreWeights) : TVScoreWeights := {|
  tw_Resolution4K := setIfNotNil (tw_Resolution4K result) (tw_Resolution4K custom);
  tw_Resolution1080p := setIfNotNil (tw_Resolution1080p result) (tw_Resolution1080p custom);
  tw_Resolution720p := setIfNotNil (tw_Resolution720p result) (tw_Resolution720p custom);
  tw_Resolution480p := tw_Resolution480p result;
  tw_HDR := setIfNotNil (tw_HDR result) (tw_HDR custom);
  tw_Atmos := setIfNotNil (tw_Atmos result) (tw_Atmos custom);
  tw_Audio51 := setIfNotNil (tw_Audio51 result) (tw_Audio51 custom);
  tw_ITA := setIfNotNil (tw_ITA result) (tw_ITA custom);
  tw_Seeder100Bonus := setIfNotNil (tw_Seeder100Bonus result) (tw_Seeder100Bonus custom);
  tw_Seeder50Bonus := setIfNotNil (tw_Seeder50Bonus result) (tw_Seeder50Bonus custom);
  tw_Seeder20Bonus := setIfNotNil (tw_Seeder20Bonus result) (tw_Seeder20Bonus custom);
  tw_SizeBonusPerGBUnder := tw_SizeBonusPerGBUnder result;
|}.

Definition mergeTVProfile (custom def : TVProfile) : TVProfile := {|
  tp_Include4K := setIfNotNil (tp_Include4K def) (tp_Include4K custom);
  tp_Include1080p := setIfNotNil (tp_Include1080p def) (tp_Include1080p custom);
  tp_Include720p := setIfNotNil (tp_Include720p def) (tp_Include720p custom);
  tp_Include480p := tp_Include480p def;
  tp_SizeFloorGB := orMap (tp_SizeFloorGB def) (tp_SizeFloorGB custom);
  tp_SizeCeilingGB := orMap (tp_SizeCeilingGB def) (tp_SizeCeilingGB custom);
  tp_MinSeeders4K := setIfNotNil (tp_MinSeeders4K def) (tp_MinSeeders4K custom);
  tp_MinSeeders := setIfNotNil (tp_MinSeeders def) (tp_MinSeeders custom);
  tp_FullpackBonus := setIfNotNil (tp_FullpackBonus def) (tp_FullpackBonus custom);
  tp_PriorityOrder := orList (tp_PriorityOrder def) (tp_PriorityOrder custom);
  tp_ScoreWeights := mergeTVWeights (tp_ScoreWeights def) (tp_ScoreWeights custom);
|}.

Definition defaultProfileByName (name : string) : MovieProfile :=
  if bool_decide (name = "size-first") then DefaultSizeFirstMovies else DefaultQualityFirstMovies.

Definition defaultProfileByNameTV (name : string) : TVProfile :=
  if bool_decide (name = "size-first") then DefaultSizeFirstTV else DefaultQualityFirstTV.

Definition ResolveMovies (qc : option QualityConfig) : MovieProfile :=
  match qc with
  | None => DefaultQualityFirstMovies
  | Some qc =>
      match Profiles qc with
      | None => defaultProfileByName (Profile qc)
      | Some ps =>
          match ps !! Profile qc with
          | Some (MkSet (Some m) _) => mergeMovieProfile m (defaultProfileByName (Profile qc))
          | _ => defaultProfileByName (Profile qc)
          end
      end
  end.

Definition ResolveTV (qc : option QualityConfig) : TVProfile :=
  match qc with
  | None => DefaultQualityFirstTV
  | Some qc =>
      match Profiles qc with
      | None => defaultProfileByNameTV (Profile qc)
      | Some ps =>
          match ps !! Profile qc with
          | Some (MkSet _ (Some t)) => mergeTVProfile t (defaultProfileByNameTV (Profile qc))
          | _ => defaultProfileByNameTV (Profile qc)
          end
      end
  end.

(** ** From the configuration (convert.go) *)

Definition movie_weights (cp : Config.MovieScoreWeights) : MovieScoreWeights := {|
  mw_Resolution4K := Config.mw_Resolution4K cp;
  mw_Resolution1080p := Config.mw_Resolution1080p cp;
  mw_Resolution720p := Config.mw_Resolution720p cp;
  mw_DolbyVision := Config.mw_DolbyVision cp;
  mw_HDR := Config.mw_HDR cp;
  mw_HDR10Plus := Config.mw_HDR10Plus cp;
  mw_Atmos := Config.mw_Atmos cp;
  mw_Audio51 := Config.mw_Audio51 cp;
  mw_AudioStereo := Config.mw_AudioStereo cp;
  mw_BluRay := Config.mw_BluRay cp;
  mw_Remux := Config.mw_Remux cp;
  mw_ITA := Config.mw_ITA cp;
  mw_SeederBonus := Config.mw_SeederBonus cp;
  mw_SeederThreshold := Config.mw_SeederThreshold cp;
  mw_UnknownSizePenalty := Config.mw_UnknownSizePenalty cp;
  mw_SizeBonusPerGBUnder := None;
|}.

Definition MovieProfileFromConfig (cp : Config.MovieQualityProfile) : MovieProfile := {|
  mp_Include4K := Config.mp_Include4K cp;
  mp_Include1080p := Config.mp_Include1080p cp;
  mp_Include720p := Config.mp_Include720p cp;
  mp_SizeFloorGB := Config.mp_SizeFloorGB cp;
  mp_SizeCeilingGB := Config.mp_SizeCeilingGB cp;
  mp_MinSeeders := Config.mp_MinSeeders cp;
  mp_Fallback4KMinSeeders := Config.mp_Fallback4KMinSeeders cp;
  mp_PriorityOrder := Config.mp_PriorityOrder cp;
  mp_ScoreWeights := movie_weights (Config.mp_ScoreWeights cp);
|}.

Definition tv_weights (cp : Config.TVScoreWeights) : TVScoreWeights := {|
  tw_Resolution4K := Config.tw_Resolution4K cp;
  tw_Resolution1080p := Config.tw_Resolution1080p cp;
  tw_Resolution720p := Config.tw_Resolution720p cp;
  tw_Resolution480p := None;
  tw_HDR := Config.tw_HDR cp;
  tw_Atmos := Config.tw_Atmos cp;
  tw_Audio51 := Config.tw_Audio51 cp;
  tw_ITA := Config.tw_ITA cp;
  tw_Seeder100Bonus := Config.tw_Seeder100Bonus cp;
  tw_Seeder50Bonus := Config.tw_Seeder50Bonus cp;
  tw_Seeder20Bonus := Config.tw_Seeder20Bonus cp;
  tw_SizeBonusPerGBUnder := None;
|}.

Definition TVProfileFromConfig (cp : Config.TVQualityProfile) : TVProfile := {|
  tp_Include4K := Config.tp_Include4K cp;
  tp_Include1080p := Config.tp_Include1080p cp;
  tp_Include720p := Config.tp_Include720p cp;
  tp_Include480p := None;
  tp_SizeFloorGB := Config.tp_SizeFloorGB cp;
  tp_SizeCeilingGB := Config.tp_SizeCeilingGB cp;
  tp_MinSeeders4K := Config.tp_MinSeeders4K cp;
  tp_MinSeeders := Config.tp_MinSeeders cp;
  tp_FullpackBonus := Config.tp_FullpackBonus cp;
  tp_PriorityOrder := Config.tp_PriorityOrder cp;
  tp_ScoreWeights := tv_weights (Config.tp_ScoreWeights cp);
|}.

(** [toQualityConfig] spells the same conversion of a profile out again. *)
Definition toProfileSet (ps : Config.QualityProfileSet) : ProfileSet :=
  MkSet (MovieProfileFromConfig <$> Config.Movies ps) (TVProfileFromConfig <$> Config.TV ps).

Definition toQualityConfig (cfg : Config.QualityConfig) : option QualityConfig :=
  if bool_decide (Config.Profile cfg = "") && bool_decide (Config.Profiles cfg = ∅) then None
  else Some (MkConfig (Config.Profile cfg) (Some (toProfileSet <$> Config.Profiles cfg))).

Definition ResolveMovieProfile (cfg : Config.QualityConfig) : MovieProfile := ResolveMovies (toQualityConfig cfg).
Definition ResolveTVProfile (cfg : Config.QualityConfig) : TVProfile := ResolveTV (toQualityConfig cfg).

(** ** The score of a title (scorer.go) *)

Record Weights := MkWeights {
  Res4K : Z; Res1080p : Z; Res720p : Z; wHDR : Z; wDolbyVision : Z; wHDR10Plus : Z;
  wAtmos : Z; wAudio51 : Z; wStereo : Z; wBluRay : Z; wSeederBonus : Z; wSeederThreshold : Z;
}.

Record ScoreProfile := MkProfile { pWeights : Weights; pFullpackBonus : Z }.

Definition re4K : regex := MustCompile "(?i)(4k|2160p|uhd)".
Definition re1080p : regex := MustCompile "(?i)(1080p)".
Definition re720p : regex := MustCompile "(?i)\b720p\b".
Definition reHDR : regex := MustCompile "(?i)\bHDR\b".
Definition reDV : regex := MustCompile "(?i)(dolby.?vision|\bdv\b)".
Definition reHDR10Plus : regex := MustCompile "(?i)(hdr10\+|hdr10plus)".
Definition reAtmos : regex := MustCompile "(?i)(atmos)".
Definition re51 : regex := MustCompile "(?i)(5\.1|dts|ddp5|ddp|dd\+|eac3|ac3)".
Definition reStereo : regex := MustCompile "(?i)(stereo|aac|mp3|2\.0)".
Definition reBluRay : regex := MustCompile "(?i)(bluray|blu.?ray|bdrip|bdremux|remux)".
Definition reFullpackS : regex := MustCompile "(?i)s\d{2}\s*(complete|pack|full)".
Definition reFullpackSeason : regex := MustCompile "(?i)season\s*\d+\s*(complete|pack|full)".

Definition DefaultMovieProfile : ScoreProfile := MkProfile (MkWeights 200 50 0 100 150 100 50 25 (-50) 10 5 50) 0.
Definition DefaultTVProfile : ScoreProfile := MkProfile (pWeights DefaultMovieProfile) 300.
Definition ProfileFromConfig (w : Weights) : ScoreProfile := MkProfile w 0.
Definition ProfileFromTVConfig (w : Weights) (fullpackBonus : Z) : ScoreProfile := MkProfile w fullpackBonus.

Definition Score (title : string) (seeders : Z) (profile : ScoreProfile) : Z :=
  let w := pWeights profile in
  let has re := MatchString re title in
  int64 (
    (if has re4K then Res4K w else if has re1080p then Res1080p w else if has re720p then Res720p w else 0) +
    (if has reDV then wDolbyVision w else 0) +
    (if has reHDR10Plus then wHDR10Plus w else if has reHDR then wHDR w else 0) +
    (if has reAtmos then wAtmos w else 0) +
    (if has re51 then wAudio51 w else 0) +
    (if has reStereo && negb (has re51) && negb (has reAtmos) then wStereo w else 0) +
    (if has reBluRay then wBluRay w else 0) +
    (if wSeederThreshold w <? seeders then wSeederBonus w else 0)).

Definition IsFullpack (title : string) : bool :=
  let t := ToLower title in
  Contains t "complete" || Contains t "full season" ||
  MatchString reFullpackS title || MatchString reFullpackSeason title.

(** ** What the configuration decides *)


(** The settings of a film profile and of its configuration, side by side. *)
Definition movie_flags : list ((Config.MovieQualityProfile → option bool) * (MovieProfile → option bool)) :=
  [(Config.mp_Include4K, mp_Include4K); (Config.mp_Include1080p, mp_Include1080p); (Config.mp_Include720p, mp_Include720p)].

Definition movie_numbers : list ((Config.MovieQualityProfile → option Z) * (MovieProfile → option Z)) :=
  [(Config.mp_MinSeeders, mp_MinSeeders); (Config.mp_Fallback4KMinSeeders, mp_Fallback4KMinSeeders)].

Definition movie_scores : list ((Config.MovieScoreWeights → option Z) * (MovieScoreWeights → option Z)) :=
  [(Config.mw_Resolution4K, mw_Resolution4K); (Config.mw_Resolution1080p, mw_Resolution1080p);
   (Config.mw_Resolution720p, mw_Resolution720p); (Config.mw_DolbyVision, mw_DolbyVision); (Config.mw_HDR, mw_HDR);
   (Config.mw_HDR10Plus, mw_HDR10Plus); (Config.mw_Atmos, mw_Atmos); (Config.mw_Audio51, mw_Audio51);
   (Config.mw_AudioStereo, mw_AudioStereo); (Config.mw_BluRay, mw_BluRay); (Config.mw_Remux, mw_Remux);
   (Config.mw_ITA, mw_ITA); (Config.mw_SeederBonus, mw_SeederBonus); (Config.mw_SeederThreshold, mw_SeederThreshold);
   (Config.mw_UnknownSizePenalty, mw_UnknownSizePenalty)].

Definition tv_flags : list ((Config.TVQualityProfile → option bool) * (TVProfile → option bool)) :=
  [(Config.tp_Include4K, tp_Include4K); (Config.tp_Include1080p, tp_Include1080p); (Config.tp_Include720p, tp_Include720p)].

Definition tv_numbers : list ((Config.TVQualityProfile → option Z) * (TVProfile → option Z)) :=
  [(Config.tp_MinSeeders4K, tp_MinSeeders4K); (Config.tp_MinSeeders, tp_MinSeeders); (Config.tp_FullpackBonus, tp_FullpackBonus)].

Definition tv_scores : list ((Config.TVScoreWeights → option Z) * (TVScoreWeights → option Z)) :=
  [(Config.tw_Resolution4K, tw_Resolution4K); (Config.tw_Resolution1080p, tw_Resolution1080p);
   (Config.tw_Resolution720p, tw_Resolution720p); (Config.tw_HDR, tw_HDR); (Config.tw_Atmos, tw_Atmos);
   (Config.tw_Audio51, tw_Audio51); (Config.tw_ITA, tw_ITA); (Config.tw_Seeder100Bonus, tw_Seeder100Bonus);
   (Config.tw_Seeder50Bonus, tw_Seeder50Bonus); (Config.tw_Seeder20Bonus, tw_Seeder20Bonus)].

(** The value of each setting in [result] is that of [custom] if it has one, and
    otherwise that of [def]. *)
Definition settled {A B V} (fields : list ((A → option V) * (B → option V))) (custom : A) (def result : B) : Prop :=
  Forall (λ fg, fg.2 result = match fg.1 custom with Some v => Some v | None => fg.2 def end) fields.

Lemma toQualityConfig_entry cfg ps :
  Config.Profiles cfg !! Config.Profile cfg = Some ps →
  toQualityConfig cfg = Some (MkConfig (Config.Profile cfg) (Some (toProfileSet <$> Config.Profiles cfg))).
Proof.
  intros H. unfold toQualityConfig. rewrite (bool_decide_eq_false_2 (Config.Profiles cfg = ∅)); [by rewrite andb_false_r|].
  intros E. by rewrite E, lookup_empty in H.
Qed.

Ltac settle := repeat constructor; simpl; by repeat match goal with |- context [match ?x with Some _ => _ | None => _ end] => destruct x end.

(** The active profile. Every setting that the configuration gives in the
    profile it names is used; the others come from the preset of that name, or
    from "quality-first" if the name is unknown. Without an entry for the named
    profile the preset is used as it is. *)
Theorem profile_from_config cfg :
  (∀ ps m, Config.Profiles cfg !! Config.Profile cfg = Some ps → Config.Movies ps = Some m →
   let def := defaultProfileByName (Config.Profile cfg) in
   let r := ResolveMovieProfile cfg in
   settled movie_flags m def r ∧ settled movie_numbers m def r ∧
   settled movie_scores (Config.mp_ScoreWeights m) (mp_ScoreWeights def) (mp_ScoreWeights r) ∧
   mp_SizeFloorGB r = (if bool_decide (Config.mp_SizeFloorGB m = ∅) then mp_SizeFloorGB def else Config.mp_SizeFloorGB m) ∧
   mp_SizeCeilingGB r = (if bool_decide (Config.mp_SizeCeilingGB m = ∅) then mp_SizeCeilingGB def else Config.mp_SizeCeilingGB m) ∧
   mp_PriorityOrder r = (if bool_decide (Config.mp_PriorityOrder m = []) then mp_PriorityOrder def else Config.mp_PriorityOrder m)) ∧
  (∀ ps t, Config.Profiles cfg !! Config.Profile cfg = Some ps → Config.TV ps = Some t →
   let def := defaultProfileByNameTV (Config.Profile cfg) in
   let r := ResolveTVProfile cfg in
   settled tv_flags t def r ∧ settled tv_numbers t def r ∧
   settled tv_scores (Config.tp_ScoreWeights t) (tp_ScoreWeights def) (tp_ScoreWeights r) ∧
   tp_SizeFloorGB r = (if bool_decide (Config.tp_SizeFloorGB t = ∅) then tp_SizeFloorGB def else Config.tp_SizeFloorGB t) ∧
   tp_SizeCeilingGB r = (if bool_decide (Config.tp_SizeCeilingGB t = ∅) then tp_SizeCeilingGB def else Config.tp_SizeCeilingGB t) ∧
   tp_PriorityOrder r = (if bool_decide (Config.tp_PriorityOrder t = []) then tp_PriorityOrder def else Config.tp_PriorityOrder t)) ∧
  (Config.Profiles cfg !! Config.Profile cfg = None →
   ResolveMovieProfile cfg = defaultProfileByName (Config.Profile cfg) ∧
   ResolveTVProfile cfg = defaultProfileByNameTV (Config.Profile cfg)).
Proof.
  split_and!.
  - intros ps m Hps Hm def r. unfold r, ResolveMovieProfile, ResolveMovies. rewrite (toQualityConfig_entry _ _ Hps).
    cbn [Profiles Profile]. rewrite lookup_fmap, Hps. destruct ps as [pm pt]. cbn in Hm. subst pm. cbn [fmap option_fmap option_map toProfileSet Config.Movies Config.TV].
    fold def. split_and!; [settle..|done|done|]. simpl. by destruct (Config.mp_PriorityOrder m).
  - intros ps t Hps Ht def r. unfold r, ResolveTVProfile, ResolveTV. rewrite (toQualityConfig_entry _ _ Hps).
    cbn [Profiles Profile]. rewrite lookup_fmap, Hps. destruct ps as [pm pt]. cbn in Ht. subst pt. cbn [fmap option_fmap option_map toProfileSet Config.Movies Config.TV].
    fold def. split_and!; [settle..|done|done|]. simpl. by destruct (Config.tp_PriorityOrder t).
  - intros Hps. unfold ResolveMovieProfile, ResolveTVProfile, toQualityConfig.
    destruct (bool_decide_reflect (Config.Profile cfg = "")) as [Hn|]; [destruct (bool_decide (Config.Profiles cfg = ∅)); [by rewrite Hn|]|];
      cbn [andb ResolveMovies ResolveTV Profiles Profile]; rewrite lookup_fmap, Hps; done.
Qed.
