(* ===== verification/MovieSync.v ===== *)
(** * The movie sync engine (internal/syncer/engines/movie_go.go, gostorm.go)

    A run of the engine goes through the films that TMDB suggests. For each film
    it asks the indexers for releases, ranks them, adds the best ones to the
    torrent engine one after the other until the metadata of one shows a video
    file that may be streamed, and writes a small file that stands for the film
    in the library. Caches keep it from asking again too soon.

    The indexers, TMDB, the torrent engine's web interface, the clock and the
    writability of the library are the outside, the class [World]: a state and
    its operations. The library is a directory of files with their decoded
    contents. ASCII case conversion stands for [strings.ToLower]. *)

From Stdlib Require Import Ascii.
From S2P Require Import Prelude Float64 Regex Streaming Quality.

(** ** Data *)

Record Stream := MkStream { sName : string; sTitle : string; sInfoHash : string; sSizeGB : float64 }.
Record FileStat := MkFileStat { fID : Z; fPath : string; fLength : Z }.
Record Movie := MkMovie { mID : Z; mTitle : string; mOriginalTitle : string; mReleaseDate : string }.

Record CacheEntry := MkEntry { Reason : string; ceTitle : string; TS : Z }.
Record IMDBCacheEntry := MkImdb { IMDBID : string; iTitle : string; iTS : Z }.
Record BlacklistData := MkBlacklist { Hashes : gmap string string; Titles : list string }.

(** The contents of a file of the library: the JSON object of today, an
    unreadable one, or the lines of the format used before. *)
Inductive mkv := JsonMkv (url : string) (size : Z) (magnet imdb : string) | BadMkv | TextMkv (content : string).

Record TorrentAlternative := MkAlt { aRank : Z; aHash : string; aTitle : string; aSize : Z; aSeeders : Z; aScore : Z }.

Record MovieGoEngine := MkEngine {
  noMKVCache : gmap string CacheEntry;
  noStreamsCache : gmap string CacheEntry;
  recheckCache : gmap string CacheEntry;
  addFailCache : gmap string CacheEntry;
  imdbCache : gmap string IMDBCacheEntry;
  blacklist : BlacklistData;
  qualityProfile : MovieProfile;
  hasProwlarr : bool;
  baseURL : string;
  hasDB : bool;
  alternatives : gmap string (list TorrentAlternative);
  library : gmap string mkv;
}.

Record MovieStream := MkMovieStream {
  msTitle : string; msHash : string; Is4K : bool; Is1080p : bool; Is720p : bool; Is480p : bool;
  msResolution : Resolution; QualityScore : Z; msSeeders : Z; msSizeGB : float64; Rank : StreamingRank;
}.

(** ** The outside *)

Definition second : Z := 1000000000.

Class World (W : Type) := {
  Now : W → Z;
  Sleep : Z → W → W;
  Done : W → bool;
  ExternalIDs : Z → W → option string * W;
  FetchTorrents : string → string → W → list Stream * W;
  FetchMovieStreams : string → W → option (list Stream) * W;
  post_add : string → string → W → option string * W;
  post_get : string → W → option (list FileStat) * W;
  post_rem : string → W → W;
  post_list : W → option (list string) * W;
  writable : string → W → bool;
  Sleep_advances n w : Now w + n * second ≤ Now (Sleep n w);
  post_get_advances h w : Now w ≤ Now (post_get h w).2;
}.
#[export] Hint Mode World ! : typeclass_instances.

(** ** Titles *)

Definition reM4K : regex := MustCompile "(?i)2160p|4[kK]|uhd".
Definition reM1080p : regex := MustCompile "(?i)1080p|1080i|fhd".
Definition reM720p : regex := MustCompile "(?i)720p|720i".
Definition reM480p : regex := MustCompile "(?i)\b(480p|576p|sd)\b".
Definition reMHDR : regex := MustCompile "(?i)\bhdr\b|hdr10\+?".
Definition reMDV : regex := MustCompile "(?i)\bdv\b|dovi|dolby.?vision".
Definition reMAtmos : regex := MustCompile "(?i)atmos".
Definition reM51 : regex := MustCompile "(?i)5\.1|dts|ddp5|ddp|dd\+|eac3|ac3".
Definition reMStereo : regex := MustCompile "(?i)stereo|aac|mp3|2\.0".
Definition reMRemux : regex := MustCompile "(?i)\bremux\b".
Definition reMITA : regex := MustCompile "(?i)\bita\b|🇮🇹".
Definition reMExclLang : regex := MustCompile "🇪🇸|🇫🇷|🇩🇪|🇷🇺|🇨🇳|🇯🇵|🇰🇷|🇹🇭|🇵🇹|🇧🇷".
Definition reMGarbage : regex := MustCompile "(?i)camrip|hdcam|hdts|telesync|\bts\b|telecine|\btc\b|\bscr\b|screener|webscreener".
Definition reMSeeders : regex := MustCompile "👤\s*(\d+)".
Definition reMSize : regex := MustCompile "(?i)💾\s*([\d.]+)\s*(GB|MB)".
Definition reMHashURL : regex := MustCompile "link=([a-f0-9]{40})".
Definition reMMKVHash8 : regex := MustCompile "_([a-f0-9]{8})\.mkv$".
Definition reMYear : regex := MustCompile "[._]((?:19|20)\d{2})[._]".
Definition reMNonWord : regex := MustCompile "[^a-z0-9]".
Definition reMQuality : regex := MustCompile "(?i)(2160p|1080p|720p|480p|576p|4k|uhd|sd)".
Definition reMTitleYear : regex := MustCompile "(.+?)[._\s]\(?((?:19|20)\d{2})\)?".
Definition reNotFilename : regex := MustCompile "[^a-zA-Z0-9._-]".
Definition reUnderscores : regex := MustCompile "_+".

(** A string of decimal digits. *)
Fixpoint dec (s : string) (acc : Z) : Z :=
  match s with EmptyString => acc | String c s' => dec s' (acc * 10 + (ord c - 48)) end.

(** [strconv.Atoi] of decimal digits: too large a number gives the largest one,
    with an error that the code ignores. *)
Definition Atoi (s : string) : Z := Z.min (dec s 0) (2 ^ 63 - 1).

(** [strconv.ParseFloat] of digits and dots, correctly rounded; a malformed
    number gives 0, with an error that the code ignores. *)
Definition ParseFloat (s : string) : float64 :=
  let ratio a b :=
    if bool_decide (a +:+ b = EmptyString) then S754_zero false
    else match dec (a +:+ b) 0 with
         | Z.pos n => SFdiv 53 1024 (S754_finite false n 0) (S754_finite false (Z.to_pos (10 ^ Z.of_nat (String.length b))) 0)
         | _ => S754_zero false
         end in
  match split_on "."%char s with
  | [a] => ratio a EmptyString
  | [a; b] => ratio a b
  | _ => S754_zero false
  end.

Definition extractMovieSeeders (title : string) : Z :=
  match FindStringSubmatch reMSeeders title 1 with Some d => Atoi d | None => 0 end.

Definition extractMovieSizeGB (title : string) : float64 :=
  match FindStringSubmatch reMSize title 1, FindStringSubmatch reMSize title 2 with
  | Some v, Some unit =>
      if bool_decide (ToLower unit = "gb") then ParseFloat v else f64_div (ParseFloat v) (f64_of_Z 1000)
  | _, _ => f64_of_Z 0
  end.

Definition isBlacklisted (b : BlacklistData) (title : string) : bool :=
  let t := ToLower title in
  let t := ReplaceAllString reMYear t "" in
  let t := ReplaceAllString reMQuality t "" in
  let normalized := ReplaceAllString reMNonWord t "" in
  bool_decide (normalized ∈ Titles b).

Fixpoint trim_char_left (c : Ascii.ascii) (s : string) : string :=
  match s with String a s' => if bool_decide (a = c) then trim_char_left c s' else s | EmptyString => EmptyString end.

Fixpoint rev_string (s acc : string) : string :=
  match s with EmptyString => acc | String c s' => rev_string s' (String c acc) end.

(** [strings.Trim] with a cutset of one character. *)
Definition Trim (c : Ascii.ascii) (s : string) : string :=
  let l := trim_char_left c s in rev_string (trim_char_left c (rev_string l EmptyString)) EmptyString.

Definition sanitizeMovieFilename (s : string) : string :=
  Trim "_"%char (ReplaceAllString reUnderscores (ReplaceAllString reNotFilename s "_") "_").

(** The last eight characters; slicing a shorter string panics. *)
Definition last8 (s : string) : option string :=
  if (8 <=? String.length s)%nat then Some (String.substring (String.length s - 8) 8 s) else None.

Definition buildMovieFilename (title releaseDate : string) (stream : MovieStream) : option string :=
  let year :=
    if (4 <=? String.length releaseDate)%nat then String.substring 0 4 releaseDate
    else default "" (FindStringSubmatch reMTitleYear title 2) in
  let base := sanitizeMovieFilename title in
  let base := if bool_decide (year = "") then base else base +:+ "_" +:+ year in
  let base := base +:+
    (if Is4K stream then "_2160p" else if Is1080p stream then "_1080p" else if Is720p stream then "_720p"
     else if Is480p stream || bool_decide (msResolution stream = RSD) then "_480p" else "_1080p") in
  let base := base +:+
    (if MatchString reMDV (msTitle stream) then "_DV" else if MatchString reMHDR (msTitle stream) then "_HDR" else "") in
  let base := base +:+
    (if MatchString reMAtmos (msTitle stream) then "_Atmos" else if MatchString reM51 (msTitle stream) then "_5.1" else "") in
  let base := base +:+ (if MatchString reMRemux (msTitle stream) then "_REMUX" else "") in
  h ← last8 (msHash stream); Some (base +:+ "_" +:+ h +:+ ".mkv").

(** ** Scores and candidates *)

Section engine.
Context (undef : float64 → Z).

Definition weigh (cond : bool) (w : option Z) : option Z := if cond then w else None.

(** The first of the weights that applies. *)
Fixpoint first_weight (l : list (option Z)) (otherwise : Z) : Z :=
  match l with [] => otherwise | Some z :: _ => z | None :: l' => first_weight l' otherwise end.

Definition calculateMovieScore (e : MovieGoEngine) (text : string) (seeders : Z) (sizeGB : float64)
    (is4K is1080p is720p : bool) (ceilingGB : float64) : Z :=
  let w := mp_ScoreWeights (qualityProfile e) in
  let has re := MatchString re text in
  int64 (
    first_weight [weigh is4K (mw_Resolution4K w); weigh is1080p (mw_Resolution1080p w); weigh is720p (mw_Resolution720p w)] 0 +
    first_weight [weigh (has reMDV) (mw_DolbyVision w); weigh (has reMHDR) (mw_HDR w)] 0 +
    first_weight [weigh (has reMAtmos) (mw_Atmos w); weigh (has reM51) (mw_Audio51 w); weigh (has reMStereo) (mw_AudioStereo w)]
      (match mw_AudioStereo w with None => 5 | Some _ => 0 end) +
    first_weight [weigh (has reMRemux) (mw_Remux w)] 0 +
    first_weight [weigh (has reMITA) (mw_ITA w)] 0 +
    first_weight [weigh (f64_eqb sizeGB (f64_of_Z 0) && is4K) (mw_UnknownSizePenalty w)] 0 +
    (match weigh (f64_ltb (f64_of_Z 0) sizeGB && f64_ltb (f64_of_Z 0) ceilingGB) (mw_SizeBonusPerGBUnder w) with
     | Some n => let under := f64_sub ceilingGB sizeGB in
                 if f64_ltb (f64_of_Z 0) under then f64_to_int64 undef under * n else 0
     | None => 0
     end) +
    (match weigh (0 <? seeders) (mw_SeederBonus w) with
     | Some n => let bonus := int64 (seeders * n) in if 500 <? bonus then 500 else bonus
     | None => 0
     end)).

Definition is_1080p (text : string) : bool := MatchString reM1080p text && negb (MatchString reM720p text).
Definition is_720p (text : string) : bool := MatchString reM720p text && negb (is_1080p text) && negb (MatchString reM4K text).
Definition is_480p (text : string) : bool :=
  MatchString reM480p text && negb (is_720p text) && negb (is_1080p text) && negb (MatchString reM4K text).

Definition stream_text (s : Stream) : string := sTitle s +:+ " " +:+ sName s.

Definition stream_size (s : Stream) : float64 :=
  if f64_eqb (sSizeGB s) (f64_of_Z 0) then extractMovieSizeGB (sTitle s) else sSizeGB s.

(** The candidate that a release is for the streaming policy. *)
Definition stream_candidate (s : Stream) : StreamingCandidate :=
  MkCandidate (sInfoHash s) (stream_text s) MediaMovie (DetectResolution (stream_text s)) (stream_size s)
    (extractMovieSeeders (sTitle s)) false 0.

Definition classifyMovieStream (b : BlacklistData) (s : Stream) : option MovieStream :=
  let fullText := stream_text s in
  if MatchString reMGarbage fullText then None
  else if MatchString reMExclLang (sTitle s) then None
  else if isBlacklisted b (sTitle s) then None
  else if bool_decide (is_Some (Hashes b !! ToLower (sInfoHash s))) then None
  else if bool_decide (DetectResolution fullText = RUnknown) then None
  else
    rank ← RankStreamingCandidate undef (stream_candidate s) MovieStreamingPolicy;
    Some (MkMovieStream (sTitle s) (ToLower (sInfoHash s)) (MatchString reM4K fullText) (is_1080p fullText) (is_720p fullText)
            (is_480p fullText) (DetectResolution fullText) (Streaming.Score rank) (extractMovieSeeders (sTitle s))
            (stream_size s) rank).

Definition filterMovieStreams (b : BlacklistData) (streams : list Stream) : list MovieStream :=
  sort_stable (λ a b, BetterThan (Rank a) (Rank b)) (omap (classifyMovieStream b) streams).

(** [filepath.Ext]: from the last dot of the last path element. *)
Fixpoint ext_go (s acc : string) : string :=
  match s with
  | EmptyString => EmptyString
  | String c s' =>
      if bool_decide (c = "/"%char) then EmptyString
      else if bool_decide (c = "."%char) then String c acc
      else ext_go s' (String c acc)
  end.
Definition Ext (path : string) : string := ext_go (rev_string path EmptyString) EmptyString.

Definition video_exts : list string := [".mkv"; ".mp4"; ".avi"; ".mov"; ".m4v"].

Definition file_size_GB (f : FileStat) : float64 :=
  f64_div (f64_div (f64_div (f64_of_Z (fLength f)) (f64_of_Z 1024)) (f64_of_Z 1024)) (f64_of_Z 1024).

Definition file_candidate (stream : MovieStream) (f : FileStat) : StreamingCandidate :=
  MkCandidate (msHash stream) (msTitle stream +:+ " " +:+ fPath f) MediaMovie (msResolution stream) (file_size_GB f)
    (msSeeders stream) false 0.

Definition valid_video (stream : MovieStream) (f : FileStat) : bool :=
  bool_decide (ToLower (Ext (fPath f)) ∈ video_exts) &&
  match RankExactStreamingFile undef (file_candidate stream f) MovieStreamingPolicy with Some _ => true | None => false end.

Definition filterVideoFiles (files : list FileStat) (stream : MovieStream) : list FileStat :=
  filter (λ f, valid_video stream f = true) files.

(** ** The library *)

Record movieFile := MkMovieFile { mfPath : string; mfImdb : string; mfScore : Z }.

(** [filepath.Walk] goes through the files in the order of their names. *)
Definition walk (d : gmap string mkv) : list (string * mkv) :=
  sort_stable (cmp_lt (cmp_on fst String.compare)) (map_to_list d).

Definition is_mkv (name : string) : bool :=
  bool_decide (String.substring (String.length (ToLower name) - 4) 4 (ToLower name) = ".mkv").

Definition newline_char : ascii := ascii_of_nat 10.

(** [strings.SplitN] at newlines, into at most [n] pieces. *)
Fixpoint SplitN (n : nat) (s : string) : list string :=
  match n with
  | O => []
  | S O => [s]
  | S n' => match split_on newline_char s with
            | x :: (_ :: _) => x :: SplitN n' (String.substring (S (String.length x)) (String.length s) s)
            | _ => [s]
            end
  end.

Definition imdb_of (f : mkv) : string :=
  match f with
  | JsonMkv _ _ _ imdb => imdb
  | BadMkv => ""
  | TextMkv s => match SplitN 4 (TrimSpace s) with [_; _; _; l] => TrimSpace l | _ => "" end
  end.

(** The score of a film in the library, from its file name. *)
Definition library_score (e : MovieGoEngine) (name : string) : Z :=
  calculateMovieScore e name 0 (f64_of_Z 0) (MatchString reM4K name) (is_1080p name) (is_720p name) (f64_of_Z 0).

Definition index_file (e : MovieGoEngine) (index : gmap string movieFile) (f : string * mkv) : gmap string movieFile :=
  let imdb := imdb_of f.2 in
  if bool_decide (imdb = "") || negb (is_mkv f.1) then index
  else
    let score := library_score e f.1 in
    match index !! imdb with
    | Some old => if mfScore old <? score then <[imdb := MkMovieFile f.1 imdb score]> index else index
    | None => <[imdb := MkMovieFile f.1 imdb score]> index
    end.

Definition disk_hash (f : string * mkv) : option string :=
  if is_mkv f.1 then ToLower <$> FindStringSubmatch reMMKVHash8 f.1 1 else None.

Definition buildExistingMovieIndex (e : MovieGoEngine) : gmap string movieFile * gset string :=
  (foldl (index_file e) ∅ (walk (library e)), list_to_set (omap disk_hash (walk (library e)))).

(** ** Caches *)

Definition hour : Z := 3600 * second.
Definition noMKVCacheTTL : Z := 12 * hour.
Definition noStreamsCacheTTL : Z := 24 * hour.
Definition recheckCacheTTL : Z := 48 * hour.
Definition addFailCacheTTL : Z := 168 * hour.

(** [isInCache] drops an entry that it finds expired. *)
Definition isInCache (cache : gmap string CacheEntry) (key : string) (ttl now : Z) : bool * gmap string CacheEntry :=
  match cache !! key with
  | None => (false, cache)
  | Some entry => if ttl <? now - TS entry * second then (false, delete key cache) else (true, cache)
  end.

Definition set_noMKV (f : gmap string CacheEntry → gmap string CacheEntry) (e : MovieGoEngine) : MovieGoEngine :=
  MkEngine (f (noMKVCache e)) (noStreamsCache e) (recheckCache e) (addFailCache e) (imdbCache e) (blacklist e)
    (qualityProfile e) (hasProwlarr e) (baseURL e) (hasDB e) (alternatives e) (library e).
Definition set_noStreams (f : gmap string CacheEntry → gmap string CacheEntry) (e : MovieGoEngine) : MovieGoEngine :=
  MkEngine (noMKVCache e) (f (noStreamsCache e)) (recheckCache e) (addFailCache e) (imdbCache e) (blacklist e)
    (qualityProfile e) (hasProwlarr e) (baseURL e) (hasDB e) (alternatives e) (library e).
Definition set_recheck (f : gmap string CacheEntry → gmap string CacheEntry) (e : MovieGoEngine) : MovieGoEngine :=
  MkEngine (noMKVCache e) (noStreamsCache e) (f (recheckCache e)) (addFailCache e) (imdbCache e) (blacklist e)
    (qualityProfile e) (hasProwlarr e) (baseURL e) (hasDB e) (alternatives e) (library e).
Definition set_addFail (f : gmap string CacheEntry → gmap string CacheEntry) (e : MovieGoEngine) : MovieGoEngine :=
  MkEngine (noMKVCache e) (noStreamsCache e) (recheckCache e) (f (addFailCache e)) (imdbCache e) (blacklist e)
    (qualityProfile e) (hasProwlarr e) (baseURL e) (hasDB e) (alternatives e) (library e).
Definition set_imdb (f : gmap string IMDBCacheEntry → gmap string IMDBCacheEntry) (e : MovieGoEngine) : MovieGoEngine :=
  MkEngine (noMKVCache e) (noStreamsCache e) (recheckCache e) (addFailCache e) (f (imdbCache e)) (blacklist e)
    (qualityProfile e) (hasProwlarr e) (baseURL e) (hasDB e) (alternatives e) (library e).
Definition set_alts (f : gmap string (list TorrentAlternative) → gmap string (list TorrentAlternative)) (e : MovieGoEngine) : MovieGoEngine :=
  MkEngine (noMKVCache e) (noStreamsCache e) (recheckCache e) (addFailCache e) (imdbCache e) (blacklist e)
    (qualityProfile e) (hasProwlarr e) (baseURL e) (hasDB e) (f (alternatives e)) (library e).
Definition set_library (f : gmap string mkv → gmap string mkv) (e : MovieGoEngine) : MovieGoEngine :=
  MkEngine (noMKVCache e) (noStreamsCache e) (recheckCache e) (addFailCache e) (imdbCache e) (blacklist e)
    (qualityProfile e) (hasProwlarr e) (baseURL e) (hasDB e) (alternatives e) (f (library e)).

Definition prune (ttl now : Z) (cache : gmap string CacheEntry) : gmap string CacheEntry :=
  filter (λ kv, ¬ ttl < now - TS kv.2 * second) cache.

Definition pruneExpiredCaches (now : Z) (e : MovieGoEngine) : MovieGoEngine :=
  set_noMKV (prune noMKVCacheTTL now) (set_noStreams (prune noStreamsCacheTTL now)
    (set_recheck (prune recheckCacheTTL now) (set_addFail (prune addFailCacheTTL now) e))).

Definition saveMovieAlternatives (imdbID : string) (streams : list MovieStream) (e : MovieGoEngine) : MovieGoEngine :=
  if negb (hasDB e) || bool_decide (streams = []) || bool_decide (imdbID = "") then e
  else
    let alts := imap (λ i s, MkAlt (Z.of_nat i + 1) (msHash s) (msTitle s)
        (f64_to_int64 undef (f64_mul (f64_mul (f64_mul (msSizeGB s) (f64_of_Z 1024)) (f64_of_Z 1024)) (f64_of_Z 1024)))
        (msSeeders s) (QualityScore s)) (take 20 streams) in
    set_alts <[imdbID := alts]> e.

(** ** The torrent engine's interface (gostorm.go) *)

Definition reBtih : regex := MustCompile "xt=urn:btih:([a-fA-F0-9]{32,40})".

Definition hex_digit (d : Z) : ascii := ascii_of_nat (Z.to_nat (if d <? 10 then 48 + d else 55 + d)).
Definition unreserved (c : ascii) : bool :=
  let n := ord c in
  in_range 48 57 n || in_range 65 90 n || in_range 97 122 n || (n =? 45) || (n =? 46) || (n =? 95) || (n =? 126).

(** [url.QueryEscape]. *)
Fixpoint QueryEscape (s : string) : string :=
  match s with
  | EmptyString => EmptyString
  | String c s' =>
      if unreserved c then String c (QueryEscape s')
      else if bool_decide (c = " "%char) then String "+"%char (QueryEscape s')
      else String "%"%char (String (hex_digit (ord c / 16)) (String (hex_digit (ord c mod 16)) (QueryEscape s')))
  end.

Definition BuildMagnet (infoHash name : string) (trackers : list string) : string :=
  "magnet:?xt=urn:btih:" +:+ infoHash +:+
  (if bool_decide (name = "") then "" else "&dn=" +:+ QueryEscape name) +:+
  foldr (λ tr s, "&tr=" +:+ QueryEscape tr +:+ s) "" trackers.

Definition DefaultTrackers : list string :=
  ["udp://tracker.opentrackr.org:1337/announce"; "udp://open.stealth.si:80/announce";
   "udp://tracker.torrent.eu.org:451/announce"; "udp://exodus.desync.com:6969/announce";
   "udp://tracker.openbittorrent.com:6969/announce"].

Context {W : Type} `{HW : !World W}.

(** [None] is an error. The answer of the service may have no hash. *)
Definition AddTorrent (magnet title : string) (w : W) : option string * W :=
  match FindStringSubmatch reBtih magnet 1 with
  | None => (None, w)
  | Some h =>
      let '(r, w') := post_add magnet title w in
      ((λ answer, if bool_decide (answer = "") then ToLower h else ToLower answer) <$> r, w')
  end.

Definition sleepSeq : list Z := [1; 2; 3; 3; 3; 5].

(** The polling loop; the outer [None] means that the fuel ran out. *)
Fixpoint poll (fuel : nat) (attempt : nat) (hash : string) (deadline : Z) (w : W) : option (option (list FileStat)) * W :=
  match fuel with
  | O => (None, w)
  | S fuel' =>
      if Now w <? deadline then
        if Done w then (Some None, w)
        else
          let '(info, w1) := post_get hash w in
          match info with
          | Some (f :: fs) => (Some (Some (f :: fs)), w1)
          | _ => poll fuel' (S attempt) hash deadline (Sleep (nth attempt sleepSeq 3) w1)
          end
      else (Some None, w)
  end.

(** A poll takes a second at least, so there are at most [maxWait]. *)
Definition GetTorrentInfo (hash : string) (maxWait : nat) (w : W) : option (list FileStat) * W :=
  let '(r, w') := poll (S maxWait) 0 hash (Now w + Z.of_nat maxWait * second) w in (mjoin r, w').

(** ** Processing a film *)

Context `{HS : !SliceSort}.

Definition unix (w : W) : Z := Now w / second.

Definition resolveIMDB (tmdbID : Z) (title : string) (e : MovieGoEngine) (w : W) : string * MovieGoEngine * W :=
  match imdbCache e !! pretty tmdbID with
  | Some (MkImdb (String c s) _ _) => (String c s, e, w)
  | _ =>
      let '(r, w1) := ExternalIDs tmdbID w in
      match r with
      | Some (String c s) => (String c s, set_imdb <[pretty tmdbID := MkImdb (String c s) title (unix w1)]> e, w1)
      | _ => ("", e, w1)
      end
  end.

(** [None] is an error; the streams of the second source come without a size. *)
Definition getMovieStreams (imdbID title : string) (e : MovieGoEngine) (w : W) : option (list Stream) * W :=
  let '(l, w1) := if hasProwlarr e then FetchTorrents imdbID title w else ([], w) in
  match l with
  | _ :: _ => (Some l, w1)
  | [] =>
      let '(r, w2) := FetchMovieStreams imdbID w1 in
      (option_map (map (λ s, MkStream (sName s) (sTitle s) (sInfoHash s) (f64_of_Z 0))) r, w2)
  end.

Definition createMKV (path streamURL : string) (fileSize : Z) (magnet imdbID : string) (e : MovieGoEngine) (w : W) :
    option MovieGoEngine :=
  if writable path w then Some (set_library <[path := JsonMkv streamURL fileSize magnet imdbID]> e) else None.

Definition mMovieUpgradePct : float64 := f64_lit 11 1.

(** Whether the film of the library counts as good enough. *)
Definition good_enough (existing : option movieFile) (c : MovieStream) : bool :=
  match existing with
  | Some m => bool_decide (mfPath m ≠ "") && f64_leb (f64_of_Z (QualityScore c)) (f64_mul (f64_of_Z (mfScore m)) mMovieUpgradePct)
  | None => false
  end.

Definition longer_file (a b : FileStat) : bool := fLength b <? fLength a.

Definition remove_existing (existing : option movieFile) (e : MovieGoEngine) : MovieGoEngine :=
  match existing with Some m => if bool_decide (mfPath m = "") then e else set_library (delete (mfPath m)) e | None => e end.

Definition stream_url (e : MovieGoEngine) (hash : string) (f : FileStat) : string :=
  baseURL e +:+ "/stream?link=" +:+ hash +:+ "&index=" +:+ pretty (fID f) +:+ "&play".

(** The loop over the candidates; [None] is a panic. *)
Fixpoint try_candidates (cs : list MovieStream) (title releaseDate imdbID : string) (existing : option movieFile)
    (diskHashes : gset string) (e : MovieGoEngine) (w : W) : option (bool * MovieGoEngine * W) :=
  let recheck reason e w := set_recheck <[imdbID := MkEntry reason title (unix w)]> e in
  match cs with
  | [] => Some (false, recheck "no_better_stream" e w, w)
  | c :: cs' =>
      let next := try_candidates cs' title releaseDate imdbID existing diskHashes in
      if good_enough existing c then Some (false, recheck "no_better_stream" e w, w)
      else
        let '(hit, cache) := isInCache (noMKVCache e) (msHash c) noMKVCacheTTL (Now w) in
        let e := set_noMKV (λ _, cache) e in
        if hit then next e w
        else
          h8 ← last8 (msHash c);
          if bool_decide (h8 ∈ diskHashes) then next e w
          else
            let magnet := BuildMagnet (msHash c) title DefaultTrackers in
            let '(r, w1) := AddTorrent magnet title w in
            match r with
            | None | Some "" => next (set_addFail <[imdbID := MkEntry "add_failed" title (unix w1)]> e) w1
            | Some hash =>
                let e := set_addFail (delete imdbID) e in
                let '(info, w2) := GetTorrentInfo hash (if Is4K c then 45 else 12) w1 in
                match info with
                | None => next (set_noMKV <[hash := MkEntry "metadata_timeout" "" (unix w2)]> e) (post_rem hash w2)
                | Some files =>
                    match sort_slice longer_file (filterVideoFiles files c) with
                    | [] => next (set_noMKV <[hash := MkEntry "no_valid_files" "" (unix w2)]> e) (post_rem hash w2)
                    | best :: _ =>
                        let e := remove_existing existing e in
                        filename ← buildMovieFilename title releaseDate c;
                        match createMKV filename (stream_url e hash best) (fLength best) magnet imdbID e w2 with
                        | Some e => Some (true, recheck "processed" e w2, w2)
                        | None => next e (post_rem hash w2)
                        end
                    end
                end
            end
  end.

(** The part of [processMovie] after the caches. *)
Definition process_streams (title releaseDate imdbID : string) (index : gmap string movieFile) (diskHashes : gset string)
    (e : MovieGoEngine) (w : W) : option (bool * MovieGoEngine * W) :=
  let '(streams, w1) := getMovieStreams imdbID title e w in
  match streams with
  | None | Some [] => Some (false, set_noStreams <[imdbID := MkEntry "" title (unix w1)]> e, w1)
  | Some streams =>
      let e := set_noStreams (delete imdbID) e in
      match filterMovieStreams (blacklist e) streams with
      | [] => Some (false, set_recheck <[imdbID := MkEntry "no_valid_stream" title (unix w1)]> e, w1)
      | cs => try_candidates cs title releaseDate imdbID (index !! imdbID) diskHashes (saveMovieAlternatives imdbID cs e) w1
      end
  end.

Definition movie_title (m : Movie) : string := if bool_decide (mTitle m = "") then mOriginalTitle m else mTitle m.

Definition processMovie (m : Movie) (index : gmap string movieFile) (diskHashes : gset string)
    (e : MovieGoEngine) (w : W) : option (bool * MovieGoEngine * W) :=
  let title := movie_title m in
  if bool_decide (title = "") then Some (false, e, w)
  else if isBlacklisted (blacklist e) title then Some (false, e, w)
  else
    let '(imdbID, e, w) := resolveIMDB (mID m) title e w in
    if bool_decide (imdbID = "") then Some (false, e, w)
    else
      let '(hit, cache) := isInCache (noStreamsCache e) imdbID noStreamsCacheTTL (Now w) in
      let e := set_noStreams (λ _, cache) e in
      if hit then Some (false, e, w)
      else
        let '(hit, cache) := isInCache (recheckCache e) imdbID recheckCacheTTL (Now w) in
        let e := set_recheck (λ _, cache) e in
        if hit then Some (false, e, w)
        else
          let '(hit, cache) := isInCache (addFailCache e) imdbID addFailCacheTTL (Now w) in
          let e := set_addFail (λ _, cache) e in
          if hit then Some (false, e, w)
          else process_streams title (mReleaseDate m) imdbID index diskHashes e w.

(** ** After the films *)

(** The parts of a file that the two passes look at: link, magnet and size. *)
Definition mkv_link (f : mkv) : option string :=
  match f with
  | JsonMkv url _ _ _ => Some url
  | BadMkv => None
  | TextMkv s => match SplitN 2 (TrimSpace s) with l :: _ => Some (TrimSpace l) | [] => None end
  end.

Definition mkv_parts (f : mkv) : option (string * string * Z) :=
  match f with
  | JsonMkv url size magnet _ => Some (url, magnet, size)
  | BadMkv => None
  | TextMkv s =>
      match SplitN 4 (TrimSpace s) with
      | l0 :: l1 :: l2 :: _ => Some (TrimSpace l0, TrimSpace l2, f64_to_int64 undef (ParseFloat (TrimSpace l1)))
      | _ => None
      end
  end.

Definition reHash8End : regex := MustCompile "_[a-f0-9]{8}$".

Definition replace_char (c d : ascii) (s : string) : string :=
  String.concat (String d EmptyString) (split_on c s).

Definition TitleFromFilename (filename : string) : string :=
  let s := String.substring 0 (String.length filename - String.length (Ext filename)) filename in
  let s := if MatchString reHash8End s then String.substring 0 (String.length s - 9) s else s in
  TrimSpace (replace_char "."%char " "%char (replace_char "_"%char " "%char s)).

Definition rehydrate_file (active : list string) (st : MovieGoEngine * W) (f : string * mkv) : MovieGoEngine * W :=
  let '(e, w) := st in
  if negb (is_mkv f.1) then st
  else
    match mkv_parts f.2 with
    | None => st
    | Some (url, magnet, size) =>
        match FindStringSubmatch reMHashURL url 1 with
        | None => st
        | Some hash =>
            if bool_decide (hash ∈ active) then st
            else if String.prefix "magnet:?" magnet then
              let displayTitle := TitleFromFilename f.1 in
              let freshMagnet := BuildMagnet hash displayTitle DefaultTrackers in
              let '(r, w1) := AddTorrent freshMagnet displayTitle w in
              match r with
              | Some _ => (default e (createMKV f.1 url size freshMagnet "" e w1), w1)
              | None => (e, w1)
              end
            else st
        end
    end.

Definition rehydrateMissingTorrents (e : MovieGoEngine) (w : W) : MovieGoEngine * W :=
  let '(r, w1) := post_list w in
  match r with
  | None => (e, w1)
  | Some active => foldl (rehydrate_file active) (e, w1) (walk (library e))
  end.

Definition orphaned (active : list string) (f : string * mkv) : bool :=
  is_mkv f.1 &&
  match mkv_link f.2 ≫= λ url, FindStringSubmatch reMHashURL url 1 with
  | Some hash => bool_decide (hash ∉ active)
  | None => false
  end.

Definition cleanupOrphanedFiles (e : MovieGoEngine) (w : W) : MovieGoEngine * W :=
  let '(r, w1) := post_list w in
  match r with
  | None => (e, w1)
  | Some active => (set_library (filter (λ f, orphaned active f = false)) e, w1)
  end.

(** The films one after the other, until the context is cancelled. *)
Fixpoint process_all (ms : list Movie) (index : gmap string movieFile) (diskHashes : gset string) (created : Z)
    (e : MovieGoEngine) (w : W) : option (bool * Z * MovieGoEngine * W) :=
  match ms with
  | [] => Some (true, created, e, w)
  | m :: ms' =>
      if Done w then Some (false, created, e, w)
      else
        '(b, e', w') ← processMovie m index diskHashes e w;
        process_all ms' index diskHashes (if b : bool then created + 1 else created) e' (Sleep 1 w')
  end.

(** A run on the films that were discovered. *)
Definition Run (movies : list Movie) (e : MovieGoEngine) (w : W) : option (bool * MovieGoEngine * W) :=
  let '(index, diskHashes) := buildExistingMovieIndex e in
  '(completed, _, e, w) ← process_all movies index diskHashes 0 e w;
  if completed : bool then
    let '(e, w) := rehydrateMissingTorrents e w in
    let '(e, w) := cleanupOrphanedFiles e w in
    Some (true, e, w)
  else Some (false, e, w).

(** ** Polling ends *)

Lemma poll_fuel fuel fuel' attempt hash deadline w :
  deadline - Now w ≤ Z.of_nat fuel * second → (fuel ≤ fuel')%nat →
  poll (S fuel') attempt hash deadline w = poll (S fuel) attempt hash deadline w ∧
  ∃ r, (poll (S fuel) attempt hash deadline w).1 = Some r.
Proof.
  revert fuel' attempt w. induction fuel as [|fuel IH]; intros fuel' attempt w Hd Hf; cbn [poll].
  - rewrite (proj2 (Z.ltb_ge (Now w) deadline)) by lia. eauto.
  - destruct (Now w <? deadline); [|eauto]. destruct (Done w); [eauto|].
    pose proof (post_get_advances hash w) as Hg. destruct (post_get hash w) as [info w1]. cbn [snd] in Hg.
    pose proof (Sleep_advances (nth attempt sleepSeq 3) w1) as Hs.
    assert (1 ≤ nth attempt sleepSeq 3) by (do 6 (destruct attempt as [|attempt]; [done|]); by destruct attempt).
    destruct fuel' as [|fuel']; [lia|].
    destruct (IH fuel' (S attempt) (Sleep (nth attempt sleepSeq 3) w1)) as [-> Hr]; [unfold second in *; lia..|].
    destruct info as [[|f fs]|]; eauto.
Qed.

Lemma poll_end fuel attempt hash deadline w r w' :
  poll fuel attempt hash deadline w = (Some r, w') →
  match r with Some fs => fs ≠ [] | None => Done w' = true ∨ deadline ≤ Now w' end.
Proof.
  revert attempt w. induction fuel as [|fuel IH]; intros attempt w; cbn [poll]; [done|].
  destruct (Z.ltb_spec (Now w) deadline); [|intros [= <- <-]; by right].
  destruct (Done w) eqn:Hd; [intros [= <- <-]; by left|].
  destruct (post_get hash w) as [[[|f fs]|] w1]; [apply IH|by intros [= <- <-]|apply IH].
Qed.
End engine.

(** Polling the torrent engine for metadata ends: whatever the engine
    answers, the loop stops after at most [maxWait] polls, either with a
    non-empty list of files, or because the run was cancelled, or because the
    time is over. *)
Theorem GetTorrentInfo_terminates {W : Type} `{!World W} hash maxWait (w : W) :
  ∃ r w', GetTorrentInfo hash maxWait w = (r, w') ∧
    (∀ fuel, (maxWait < fuel)%nat → poll fuel 0 hash (Now w + Z.of_nat maxWait * second) w = (Some r, w')) ∧
    match r with Some fs => fs ≠ [] | None => Done w' = true ∨ Now w + Z.of_nat maxWait * second ≤ Now w' end.
Proof.
  unfold GetTorrentInfo. destruct (poll_fuel maxWait maxWait 0 hash (Now w + Z.of_nat maxWait * second) w) as [_ [r Hr]]; [lia..|].
  destruct (poll (S maxWait) 0 hash (Now w + Z.of_nat maxWait * second) w) as [o w'] eqn:E. cbn [fst] in Hr. subst o.
  exists r, w'. split_and!; [done| |by eapply poll_end].
  intros [|fuel] Hf; [lia|]. rewrite <- E. apply (poll_fuel maxWait fuel); lia.
Qed.

(** ** What processing a film changes *)

Section frame.
Context (undef : float64 → Z) {W : Type} `{HW : !World W} `{HS : !SliceSort}.

(** The library without the file that is replaced. *)
Definition without (existing : option movieFile) (lib : gmap string mkv) : gmap string mkv :=
  match existing with Some m => if bool_decide (mfPath m = "") then lib else delete (mfPath m) lib | None => lib end.

Lemma remove_existing_library existing e : library (remove_existing existing e) = without existing (library e).
Proof. unfold remove_existing, without. destruct existing as [m|]; [by destruct (bool_decide _)|done]. Qed.

Lemma without_twice existing lib : without existing (without existing lib) = without existing lib.
Proof. unfold without. destruct existing as [m|]; [|done]. destruct (bool_decide _); [done|]. apply delete_delete_eq. Qed.

(** The file written for a film: it streams the longest video file of a
    candidate that is not in the library yet. *)
Definition written (cs : list MovieStream) (base title releaseDate imdbID : string) (diskHashes : gset string)
    (filename : string) (f : mkv) : Prop :=
  ∃ c hash (files : list FileStat) best h8,
    c ∈ cs ∧ last8 (msHash c) = Some h8 ∧ h8 ∉ diskHashes ∧ buildMovieFilename title releaseDate c = Some filename ∧
    best ∈ files ∧ valid_video undef c best = true ∧
    (∀ f', f' ∈ files → valid_video undef c f' = true → fLength f' ≤ fLength best) ∧
    f = JsonMkv (base +:+ "/stream?link=" +:+ hash +:+ "&index=" +:+ pretty (fID best) +:+ "&play") (fLength best)
          (BuildMagnet (msHash c) title DefaultTrackers) imdbID.

(** What the loop over the candidates leaves behind. *)
Record tried (cs : list MovieStream) (title releaseDate imdbID : string) (existing : option movieFile)
    (diskHashes : gset string) (e : MovieGoEngine) (b : bool) (e' : MovieGoEngine) (w' : W) : Prop := {
  tr_imdb : imdbCache e' = imdbCache e;
  tr_blacklist : blacklist e' = blacklist e;
  tr_streams : noStreamsCache e' = noStreamsCache e;
  tr_recheck : ∃ reason, recheckCache e' = <[imdbID := MkEntry reason title (unix w')]> (recheckCache e);
  tr_library : if b
    then ∃ filename f, written cs (baseURL e) title releaseDate imdbID diskHashes filename f ∧
           library e' = <[filename := f]> (without existing (library e))
    else library e' = library e ∨ library e' = without existing (library e);
}.

Lemma written_weaken cs cs' base title date imdb disk fn f :
  written cs base title date imdb disk fn f → cs ⊆ cs' → written cs' base title date imdb disk fn f.
Proof. intros (c & hash & files & best & h8 & Hc & H) Hs. exists c, hash, files, best, h8. split; [by apply Hs|done]. Qed.

(** A later candidate, from a state that differs in the caches of failures and,
    after a failed write, in the replaced file. *)
Lemma tried_next c cs title date imdb existing disk e e1 b e' (w' : W) :
  tried cs title date imdb existing disk e1 b e' w' →
  imdbCache e1 = imdbCache e → blacklist e1 = blacklist e → noStreamsCache e1 = noStreamsCache e →
  recheckCache e1 = recheckCache e → baseURL e1 = baseURL e →
  library e1 = library e ∨ library e1 = without existing (library e) →
  tried (c :: cs) title date imdb existing disk e b e' w'.
Proof.
  intros [H1 H2 H3 [reason H4] H5] E1 E2 E3 E4 E5 E6. split; [congruence..|exists reason; congruence|].
  assert (without existing (library e1) = without existing (library e)) as Ew.
  { destruct E6 as [-> | ->]; [done|apply without_twice]. }
  destruct b.
  - destruct H5 as (fn & f & Hw & ->). exists fn, f. rewrite Ew. split; [|done]. rewrite E5 in Hw.
    eapply written_weaken; [done|]. set_solver.
  - destruct H5 as [-> | ->]; [done|]. rewrite Ew. by right.
Qed.

#[local] Instance longer_file_swo : StrictWeakOrder longer_file.
Proof. unfold longer_file. split; intros *; rewrite ?Z.ltb_lt, ?Z.ltb_ge; lia. Qed.

(** The first file after sorting is the longest. *)
Lemma sorted_best (l : list FileStat) best rest :
  sort_slice longer_file l = best :: rest → best ∈ l ∧ ∀ f, f ∈ l → fLength f ≤ fLength best.
Proof.
  intros E. pose proof (sort_slice_perm longer_file l) as Hp. pose proof (sort_slice_sorted longer_file l _) as Hs.
  rewrite E in Hp, Hs. split; [rewrite <- Hp; by left|]. intros f Hf. rewrite <- Hp in Hf.
  inversion_clear Hs as [|? ? _ Hall]. apply elem_of_cons in Hf as [->|Hf]; [done|].
  rewrite Forall_forall in Hall. specialize (Hall f Hf). unfold longer_file in Hall. apply Z.ltb_ge in Hall. lia.
Qed.

Lemma try_candidates_spec cs title date imdb existing disk e (w : W) b e' w' :
  try_candidates undef cs title date imdb existing disk e w = Some (b, e', w') →
  tried cs title date imdb existing disk e b e' w'.
Proof.
  revert e w. induction cs as [|c cs IH]; intros e w; cbn [try_candidates].
  { intros [= <- <- <-]. split; try done; [by eexists|by left]. }
  destruct (good_enough existing c).
  { intros [= <- <- <-]. split; try done; [by eexists|by left]. }
  destruct (isInCache (noMKVCache e) (msHash c) noMKVCacheTTL (Now w)) as [hit cache].
  destruct hit; [intros H%IH; eapply tried_next; [done..|by left]|].
  destruct (last8 (msHash c)) as [h8|] eqn:H8; [|done]. cbn [mbind option_bind].
  destruct (bool_decide_reflect (h8 ∈ disk)) as [|Hdisk]; [intros H%IH; eapply tried_next; [done..|by left]|].
  destruct (AddTorrent (BuildMagnet (msHash c) title DefaultTrackers) title w) as [[hash|] w1];
    [|intros H%IH; eapply tried_next; [done..|by left]].
  destruct hash as [|ch hs]; [intros H%IH; eapply tried_next; [done..|by left]|].
  set (hash := String ch hs). destruct (GetTorrentInfo hash _ w1) as [[files|] w2];
    [|intros H%IH; eapply tried_next; [done..|by left]].
  destruct (sort_slice longer_file (filterVideoFiles undef files c)) as [|best rest] eqn:Hsort;
    [intros H%IH; eapply tried_next; [done..|by left]|].
  destruct (buildMovieFilename title date c) as [fn|] eqn:Hfn; [|done]. cbn [mbind option_bind].
  unfold createMKV. destruct (writable fn w2).
  - intros [= <- <- <-]. destruct (sorted_best _ _ _ Hsort) as [Hb Hmax]. apply list_elem_of_filter in Hb as [Hv Hb].
    split; try (unfold remove_existing; destruct existing as [m|]; [destruct (bool_decide _)|]; done).
    + exists "processed". unfold remove_existing; destruct existing as [m|]; [destruct (bool_decide _)|]; done.
    + exists fn. eexists. split; [|cbn [library set_recheck set_library]; by rewrite remove_existing_library].
      exists c, hash, files, best, h8. split_and!; try done; [by left|..].
      * intros f' Hf' Hv'. apply Hmax. by apply list_elem_of_filter.
      * unfold stream_url, remove_existing. destruct existing as [m|]; [destruct (bool_decide _)|]; done.
  - intros H%IH. eapply tried_next; [done|..]; try (unfold remove_existing; destruct existing as [m|]; [destruct (bool_decide _)|]; done).
    right. by rewrite remove_existing_library.
Qed.
End frame.

Section films.
Context (undef : float64 → Z) {W : Type} `{HW : !World W} `{HS : !SliceSort}.

(** The candidates that the indexers offer for a film at a moment. *)
Definition offered (imdbID title : string) (e : MovieGoEngine) (w : W) : list MovieStream :=
  filterMovieStreams undef (blacklist e) (default [] (getMovieStreams imdbID title e w).1).

(** What asking the indexers for a film leaves behind. *)
Lemma process_streams_spec title date imdb index disk e (w : W) b e' w' :
  process_streams undef title date imdb index disk e w = Some (b, e', w') →
  imdbCache e' = imdbCache e ∧ blacklist e' = blacklist e ∧
  ((∃ entry, noStreamsCache e' !! imdb = Some entry ∧ TS entry = unix w') ∨
   (∃ entry, recheckCache e' !! imdb = Some entry ∧ TS entry = unix w')) ∧
  if b
  then ∃ filename f, written undef (offered imdb title e w) (baseURL e) title date imdb disk filename f ∧
         library e' = <[filename := f]> (without (index !! imdb) (library e))
  else library e' = library e ∨ library e' = without (index !! imdb) (library e).
Proof.
  unfold process_streams, offered. destruct (getMovieStreams imdb title e w) as [streams w1]. cbn [fst].
  assert (∀ e1, e1 = set_noStreams <[imdb := MkEntry "" title (unix w1)]> e → Some (false, e1, w1) = Some (b, e', w') →
    imdbCache e' = imdbCache e ∧ blacklist e' = blacklist e ∧
    ((∃ entry, noStreamsCache e' !! imdb = Some entry ∧ TS entry = unix w') ∨
     (∃ entry, recheckCache e' !! imdb = Some entry ∧ TS entry = unix w')) ∧
    (library e' = library e ∨ library e' = without (index !! imdb) (library e)) ∧ b = false) as Hno.
  { intros e1 -> [= <- <- <-]. split_and!; try done; [|by left]. left. cbn. rewrite lookup_insert_eq. by eexists. }
  destruct streams as [[|s ss]|];
    [intros H; edestruct Hno as (? & ? & ? & ? & ->); done| |intros H; edestruct Hno as (? & ? & ? & ? & ->); done].
  clear Hno. cbn [default]. unfold id. set (e1 := set_noStreams (delete imdb) e).
  change (blacklist e1) with (blacklist e). destruct (filterMovieStreams undef (blacklist e) (s :: ss)) as [|c cs].
  { intros [= <- <- <-]. split_and!; try done; [|by left]. right. cbn. rewrite lookup_insert_eq. by eexists. }
  set (cs' := c :: cs). intros H%try_candidates_spec.
  assert (∀ A (f : MovieGoEngine → A), (∀ g e, f (set_alts g e) = f e) → f (saveMovieAlternatives undef imdb cs' e1) = f e1) as Hs.
  { intros A f Hf. unfold saveMovieAlternatives. destruct (_ || _); [done|]. apply Hf. }
  destruct H as [H1 H2 H3 [reason H4] H5]. rewrite (Hs _ imdbCache) in H1 by done. rewrite (Hs _ blacklist) in H2 by done.
  rewrite (Hs _ library), (Hs _ baseURL) in H5 by done. split_and!; [done..| |done].
  right. rewrite H4, lookup_insert_eq. by eexists.
Qed.
End films.

(** C8: Processing a film touches nothing else. If no file is created, the
    library is as before, but for the file of this film when writing the new
    one failed. If one is created, it stands for this film, it streams the
    longest video file that the policy allows of one of the releases on offer,
    whose hash is not in the library yet, and the film's previous file is gone. *)
Theorem processMovie_touches_only_its_film undef {W : Type} `{!World W} `{!SliceSort} m index disk e (w : W) b e' w' :
  processMovie undef m index disk e w = Some (b, e', w') →
  let '(imdb, e1, w1) := resolveIMDB (mID m) (movie_title m) e w in
  if b
  then imdb ≠ "" ∧ ∃ filename f,
         written undef (offered undef imdb (movie_title m) e w1) (baseURL e) (movie_title m) (mReleaseDate m) imdb disk filename f ∧
         library e' = <[filename := f]> (without (index !! imdb) (library e))
  else library e' = library e ∨ library e' = without (index !! imdb) (library e).
Proof.
  unfold processMovie. destruct (resolveIMDB (mID m) (movie_title m) e w) as [[imdb e1] w1] eqn:Hr.
  assert (library e1 = library e ∧ blacklist e1 = blacklist e ∧ baseURL e1 = baseURL e ∧ hasProwlarr e1 = hasProwlarr e) as (Hl & Hb & Hu & Hp).
  { unfold resolveIMDB in Hr. destruct (imdbCache e !! pretty (mID m)) as [[[|? ?] ? ?]|]; simplify_eq; try done;
      destruct (ExternalIDs (mID m) w) as [[[|? ?]|] ?]; by simplify_eq. }
  destruct (bool_decide (movie_title m = "")); [intros [= <- <- <-]; by left|].
  destruct (isBlacklisted (blacklist e) (movie_title m)); [intros [= <- <- <-]; by left|].
  destruct (bool_decide_reflect (imdb = "")) as [|Hi]; [intros [= <- <- <-]; by left|].
  destruct (isInCache _ imdb noStreamsCacheTTL _) as [[] c1]; [intros [= <- <- <-]; by left|].
  destruct (isInCache _ imdb recheckCacheTTL _) as [[] c2]; [intros [= <- <- <-]; by left|].
  destruct (isInCache _ imdb addFailCacheTTL _) as [[] c3]; [intros [= <- <- <-]; by left|].
  set (e2 := set_addFail (λ _, c3) _). intros (_ & _ & _ & Hps)%process_streams_spec.
  assert (offered undef imdb (movie_title m) e2 w1 = offered undef imdb (movie_title m) e w1) as Ho.
  { unfold offered, getMovieStreams. change (blacklist e2) with (blacklist e1). change (hasProwlarr e2) with (hasProwlarr e1). by rewrite Hb, Hp. }
  rewrite Ho in Hps. change (library e2) with (library e1) in Hps. change (baseURL e2) with (baseURL e1) in Hps.
  rewrite Hl, Hu in Hps. destruct b; [split; [done|]|]; exact Hps.
Qed.

(** A film is not tried again too soon: after the indexers were asked for
    it, whatever came of it, a second call within 24 hours asks nobody, adds
    nothing and leaves the library as it is. *)
Theorem film_not_retried_for_a_day undef {W : Type} `{!World W} `{!SliceSort} m imdb index disk index' disk' e (w : W) b e1 (w1 w2 : W) entry :
  isBlacklisted (blacklist e) (movie_title m) = false →
  imdbCache e !! pretty (mID m) = Some entry → IMDBID entry = imdb → imdb ≠ "" →
  process_streams undef (movie_title m) (mReleaseDate m) imdb index disk e w = Some (b, e1, w1) →
  Now w2 - unix w1 * second ≤ noStreamsCacheTTL →
  ∃ e2, processMovie undef m index' disk' e1 w2 = Some (false, e2, w2) ∧ library e2 = library e1.
Proof.
  intros Hb Hc He Hi (Himdb & Hbl & Hts & _)%process_streams_spec Hnow.
  unfold processMovie. rewrite Hbl, Hb. destruct (bool_decide (movie_title m = "")); [eauto|].
  unfold resolveIMDB. rewrite Himdb, Hc. destruct entry as [[|ch s] t ts]; simpl in He; [congruence|].
  assert (bool_decide (String ch s = "") = false) as -> by by apply bool_decide_eq_false.
  subst imdb. change (Now w2 - unix w1 * second ≤ 86400 * second) in Hnow.
  assert (∀ cache entry ttl, 86400 * second ≤ ttl → cache !! String ch s = Some entry → TS entry = unix w1 →
    isInCache cache (String ch s) ttl (Now w2) = (true, cache)) as Hhit.
  { intros cache en ttl Httl Hen Ht. unfold isInCache. rewrite Hen, Ht. by rewrite (proj2 (Z.ltb_ge _ _)) by lia. }
  destruct Hts as [(en & Hen & Ht)|(en & Hen & Ht)].
  - rewrite (Hhit _ en); [eauto|done|done|done].
  - destruct (isInCache (noStreamsCache e1) _ _ _) as [[] c1]; [eauto|]. cbn [recheckCache set_noStreams].
    rewrite (Hhit _ en); [eauto|done|done|done].
Qed.

(** ** The comparison with the film in the library *)

Lemma classify_spec undef b s c :
  classifyMovieStream undef b s = Some c →
  streamable MovieStreamingPolicy (stream_candidate s) ∧
  QualityScore c = Streaming.Score (rank_of undef MovieStreamingPolicy (stream_candidate s)).
Proof.
  unfold classifyMovieStream. repeat case_match; try done.
  destruct (RankStreamingCandidate undef (stream_candidate s) MovieStreamingPolicy) as [r|] eqn:Hr; [|done].
  intros [= <-]. by apply RankStreamingCandidate_spec in Hr as [? ->].
Qed.

Lemma first_weight_range l o lo hi :
  Forall (λ w, match w with Some z => lo ≤ z ≤ hi | None => True end) l → lo ≤ o ≤ hi → lo ≤ first_weight l o ≤ hi.
Proof. induction 1 as [|[z|] l Hz Hl IH]; simpl; auto. Qed.

Lemma weigh_range b w (lo hi : Z) :
  match w with Some z => lo ≤ z ≤ hi | None => True end → match weigh b w with Some z => lo ≤ z ≤ hi | None => True end.
Proof. by destruct b. Qed.

(** The presets of the profile. *)
Definition preset (p : MovieProfile) : Prop := p = DefaultQualityFirstMovies ∨ p = DefaultSizeFirstMovies.

Ltac weights := repeat (apply Forall_cons; split; [apply weigh_range; cbn; lia|]); apply Forall_nil; exact I.

Lemma library_score_range undef e name : preset (qualityProfile e) → -600 ≤ library_score undef e name ≤ 1000.
Proof.
  intros Hp. unfold library_score, calculateMovieScore. set (w := mp_ScoreWeights (qualityProfile e)).
  change (f64_ltb (f64_of_Z 0) (f64_of_Z 0)) with false. change (0 <? 0) with false. cbn [andb weigh].
  assert (∀ b1 b2 b3, 0 ≤ first_weight [weigh b1 (mw_Resolution4K w); weigh b2 (mw_Resolution1080p w); weigh b3 (mw_Resolution720p w)] 0 ≤ 500) as A1.
  { intros. apply first_weight_range; [|lia]. unfold w. destruct Hp as [-> | ->]; weights. }
  assert (∀ b1 b2, 0 ≤ first_weight [weigh b1 (mw_DolbyVision w); weigh b2 (mw_HDR w)] 0 ≤ 150) as A2.
  { intros. apply first_weight_range; [|lia]. unfold w. destruct Hp as [-> | ->]; weights. }
  assert (∀ b1 b2 b3, -50 ≤ first_weight [weigh b1 (mw_Atmos w); weigh b2 (mw_Audio51 w); weigh b3 (mw_AudioStereo w)]
      (match mw_AudioStereo w with None => 5 | Some _ => 0 end) ≤ 50) as A3.
  { intros. apply first_weight_range; unfold w; destruct Hp as [-> | ->]; [weights..|cbn; lia|cbn; lia]. }
  assert (∀ b1, -500 ≤ first_weight [weigh b1 (mw_Remux w)] 0 ≤ 0) as A4.
  { intros. apply first_weight_range; [|lia]. unfold w. destruct Hp as [-> | ->]; weights. }
  assert (∀ b1, 0 ≤ first_weight [weigh b1 (mw_ITA w)] 0 ≤ 60) as A5.
  { intros. apply first_weight_range; [|lia]. unfold w. destruct Hp as [-> | ->]; weights. }
  assert (∀ b1, -5 ≤ first_weight [weigh b1 (mw_UnknownSizePenalty w)] 0 ≤ 0) as A6.
  { intros. apply first_weight_range; [|lia]. unfold w. destruct Hp as [-> | ->]; weights. }
  specialize (A1 (MatchString reM4K name) (is_1080p name) (is_720p name)).
  specialize (A2 (MatchString reMDV name) (MatchString reMHDR name)).
  specialize (A3 (MatchString reMAtmos name) (MatchString reM51 name) (MatchString reMStereo name)).
  specialize (A4 (MatchString reMRemux name)). specialize (A5 (MatchString reMITA name)).
  specialize (A6 (f64_eqb (f64_of_Z 0) (f64_of_Z 0) && MatchString reM4K name)).
  rewrite wrap_s_id; [lia|lia|]. unfold fits_s. lia.
Qed.

(** The scores in the index are scores of the library. *)
Lemma index_scores undef e imdb m :
  (buildExistingMovieIndex undef e).1 !! imdb = Some m → ∃ name, mfScore m = library_score undef e name.
Proof.
  cbn [buildExistingMovieIndex fst].
  assert (∀ l index, (∀ i m, index !! i = Some m → ∃ name, mfScore m = library_score undef e name) →
    ∀ i m, foldl (index_file undef e) index l !! i = Some m → ∃ name, mfScore m = library_score undef e name) as Hgen;
    [|by apply Hgen; intros i m'; rewrite lookup_empty].
  induction l as [|f l IH]; intros index Hi i m' Hm; [by eapply Hi|].
  eapply IH; [|done]. clear Hm. intros j m''. unfold index_file.
  destruct (_ || _); [apply Hi|]. set (x := MkMovieFile _ _ _).
  assert (<[imdb_of f.2:=x]> index !! j = Some m'' → ∃ name, mfScore m'' = library_score undef e name) as Hx.
  { destruct (decide (j = imdb_of f.2)) as [->|Hne].
    - rewrite lookup_insert_eq. intros [= <-]. by eexists.
    - rewrite lookup_insert_ne by done. apply Hi. }
  destruct (index !! imdb_of f.2) as [old|]; [destruct (mfScore old <? _); [exact Hx|apply Hi]|exact Hx].
Qed.

(** The scores of the library, times 1.1, are small floats. *)
Lemma upgrade_limit_small s :
  -600 ≤ s ≤ 1000 →
  match f64_mul (f64_of_Z s) mMovieUpgradePct with
  | S754_finite false _ x => x < -36
  | S754_finite true _ _ | S754_zero _ => True
  | _ => False
  end.
Proof.
  intros Hs.
  assert (forallb (λ s, match f64_mul (f64_of_Z s) mMovieUpgradePct with
    | S754_finite false _ x => x <? -36 | S754_finite true _ _ | S754_zero _ => true | _ => false end) (seqZ (-600) 1601) = true) as H
    by (vm_compute; reflexivity).
  rewrite forallb_forall in H. specialize (H s). rewrite <- list_elem_of_In, elem_of_seqZ in H. specialize (H ltac:(lia)).
  destruct (f64_mul (f64_of_Z s) mMovieUpgradePct) as [| | |[] ? ?]; try done. by apply Z.ltb_lt.
Qed.

Lemma score_above_library q s : 91599 ≤ q < 2 ^ 53 → -600 ≤ s ≤ 1000 →
  f64_leb (f64_of_Z q) (f64_mul (f64_of_Z s) mMovieUpgradePct) = false.
Proof.
  intros Hq Hs. destruct (f64_of_Z_exp q) as [m ->]; [lia|]. pose proof (upgrade_limit_small s Hs) as Hl.
  assert (17 ≤ Zdigits2 q) as Hd.
  { pose proof (digits2_lt q ltac:(lia)) as Hlt. destruct (Z.le_gt_cases 17 (Zdigits2 q)) as [|Hgt]; [done|].
    pose proof (Z.pow_le_mono_r 2 (Zdigits2 q) 16). lia. }
  destruct (f64_mul (f64_of_Z s) mMovieUpgradePct) as [| | |[] n x]; try done.
  apply not_true_iff_false. intros H%f64_leb_pos. lia.
Qed.

(** The two scores that decide whether a film of the library is good enough
    are on different scales: with the presets, every release that passes the
    policy scores above the limit for every film of the library, so the film is
    always up for replacement, however good it is. Sizes must be floats and the
    number of seeders below [2 ^ 52]. *)
Theorem library_never_good_enough undef e imdb streams c :
  preset (qualityProfile e) →
  Forall (λ s, is_number (stream_size s) = true ∧ valid_binary 53 1024 (stream_size s) = true ∧
               0 ≤ extractMovieSeeders (sTitle s) < 2 ^ 52) streams →
  c ∈ filterMovieStreams undef (blacklist e) streams →
  good_enough ((buildExistingMovieIndex undef e).1 !! imdb) c = false.
Proof.
  intros Hp Hs Hc. unfold filterMovieStreams in Hc. rewrite sort_stable_perm in Hc.
  apply list_elem_of_omap in Hc as (s & Hin & [Hst Hq]%classify_spec).
  rewrite Forall_forall in Hs. destruct (Hs s Hin) as (Hn & Hv & Hsd).
  pose proof (movie_score_bounds undef (stream_candidate s) Hst Hn Hv Hsd) as Hb. rewrite <- Hq in Hb.
  unfold good_enough. destruct ((buildExistingMovieIndex undef e).1 !! imdb) as [m|] eqn:Hm; [|done].
  apply index_scores in Hm as [name Hname]. rewrite (score_above_library (QualityScore c) (mfScore m));
    [by rewrite andb_false_r|done|]. rewrite Hname. by apply library_score_range.
Qed.

(** ** Witnesses *)

(** A world with one release, whose metadata comes at the first poll; its state
    is the clock. *)
Definition sample_stream : Stream := MkStream "idx" "Film 2020 720p WEB-DL 👤 20" "0123456789abcdef0123456789abcdef01234567" (f64_lit 9 1).

#[local] Instance sample_world : World Z := {|
  Now := λ w, w;
  Sleep := λ n w, w + n * second;
  Done := λ _, false;
  ExternalIDs := λ _ w, (Some "tt1", w);
  FetchTorrents := λ _ _ w, ([sample_stream], w);
  FetchMovieStreams := λ _ w, (None, w);
  post_add := λ _ _ w, (Some "", w);
  post_get := λ _ w, (Some [MkFileStat 1 "Film/film.mkv" 900000000], w + second);
  post_rem := λ _ w, w;
  post_list := λ w, (Some [], w);
  writable := λ _ _, true;
  Sleep_advances := λ n w, Z.le_refl _;
  post_get_advances := λ h w, ltac:(cbn; unfold second; lia);
|}.

Definition sample_movie : Movie := MkMovie 7 "Film" "" "2020-05-01".

(** The film is in the library already, in 4K with Dolby Vision and Atmos. *)
Definition sample_engine : MovieGoEngine :=
  MkEngine ∅ ∅ ∅ ∅ {["7" := MkImdb "tt1" "Film" 0]} (MkBlacklist ∅ []) DefaultQualityFirstMovies true "http://h" false ∅
    {["Film_2020_2160p_DV_Atmos_aaaaaaaa.mkv" := JsonMkv "u" 1 "m" "tt1"]}.

Definition sample_index : gmap string movieFile := (buildExistingMovieIndex (λ _, 0) sample_engine).1.

Lemma sample_processed :
  (λ x, (x.1.1, map_to_list (library x.1.2), x.2)) <$> process_streams (λ _, 0) "Film" "2020-05-01" "tt1" sample_index ∅ sample_engine 0 =
  Some (true,
    [("Film_2020_720p_01234567.mkv",
      JsonMkv "http://h/stream?link=0123456789abcdef0123456789abcdef01234567&index=1&play" 900000000
        (BuildMagnet "0123456789abcdef0123456789abcdef01234567" "Film" DefaultTrackers) "tt1")], second).
Proof. vm_compute. reflexivity. Qed.

Lemma GetTorrentInfo_terminates_witness :
  GetTorrentInfo "h" 12 0 = (Some [MkFileStat 1 "Film/film.mkv" 900000000], second).
Proof.
  destruct (GetTorrentInfo_terminates "h" 12 0) as (r & w' & H & _ & _).
  rewrite H. rewrite <- H. vm_compute. reflexivity.
Defined.

Lemma sample_processMovie :
  (λ x, x.1.1) <$> processMovie (λ _, 0) sample_movie sample_index ∅ sample_engine 0 = Some true.
Proof. vm_compute. reflexivity. Qed.

Lemma processMovie_touches_witness :
  ∃ e' w', processMovie (λ _, 0) sample_movie sample_index ∅ sample_engine 0 = Some (true, e', w') ∧
    ∃ filename f, library e' = <[filename := f]> (without (sample_index !! "tt1") (library sample_engine)).
Proof.
  pose proof sample_processMovie as Hc.
  pose proof (processMovie_touches_only_its_film (λ _, 0) sample_movie sample_index ∅ sample_engine 0) as Ht.
  destruct (processMovie (λ _, 0) sample_movie sample_index ∅ sample_engine 0) as [[[b e'] w']|]; [|discriminate Hc].
  injection Hc as Hb. cbn in Hb. subst b. specialize (Ht true e' w' eq_refl). exists e', w'. split; [reflexivity|].
  destruct Ht as (_ & filename & f & _ & Hl). exists filename, f. exact Hl.
Defined.

Lemma film_not_retried_witness :
  ∃ e1, ∃ e2, processMovie (λ _, 0) sample_movie ∅ ∅ e1 (second + noStreamsCacheTTL) = Some (false, e2, second + noStreamsCacheTTL).
Proof.
  pose proof sample_processed as Hc.
  pose proof (film_not_retried_for_a_day (λ _, 0) sample_movie "tt1" sample_index ∅ ∅ ∅ sample_engine 0) as Ht.
  change (movie_title sample_movie) with "Film" in Ht. change (mReleaseDate sample_movie) with "2020-05-01" in Ht.
  destruct (process_streams (λ _, 0) "Film" "2020-05-01" "tt1" sample_index ∅ sample_engine 0) as [[[b e1] w1]|]; [|discriminate Hc].
  injection Hc as _ _ Hw. cbn in Hw. subst w1.
  destruct (Ht b e1 second (second + noStreamsCacheTTL) (MkImdb "tt1" "Film" 0)) as (e2 & H & _);
    [vm_compute; reflexivity|reflexivity|reflexivity|discriminate|reflexivity|vm_compute; discriminate|].
  exists e1, e2. exact H.
Defined.

Lemma never_good_enough_witness :
  ∃ c, c ∈ filterMovieStreams (λ _, 0) (blacklist sample_engine) [sample_stream] ∧ good_enough (sample_index !! "tt1") c = false.
Proof.
  destruct (filterMovieStreams (λ _, 0) (blacklist sample_engine) [sample_stream]) as [|c l] eqn:E; [vm_compute in E; discriminate E|].
  exists c. split; [by left|].
  apply (library_never_good_enough (λ _, 0) sample_engine "tt1" [sample_stream] c).
  - by left.
  - repeat constructor; vm_compute; try reflexivity; discriminate.
  - rewrite E. by left.
Defined.
