(* ===== verification/NativeReader.v ===== *)
(** * Streams and the native reader (stream.go, native_bridge.go)

    [Stream] answers a range request for a file of a torrent, and a goroutine
    writes the body of the answer into a pipe. [NativeReader] turns this into
    random access: it reads on where it stopped, skips forward a little, and
    starts a new stream for every other offset. [Interrupt] and [Close] break a
    blocked read off from outside, and streams fail.

    The torrent engine is an argument: what [PeekTorrent] finds at the moment,
    and how many bytes of the body come before the torrent's reader gives up.
    What other goroutines do while a read blocks is an argument of [ReadAt] as
    well, for each place where it blocks or looks at the flag. *)

From S2P Require Import Prelude.

(** ** Answers to range requests *)

Inductive io_error := EOF | UnexpectedEOF | ClosedPipe | ErrInterrupted | NotFound | Failed.
#[export] Instance io_error_eq_dec : EqDecision io_error.
Proof. solve_decision. Defined.

(** A torrent of the engine: whether its metadata are there, the contents of
    its files, and whether the cache gives a reader. *)
Record torrent := MkTorrent { t_info : bool; t_files : list (list byte); t_reader : bool }.

Definition getFileByID (id : Z) (t : torrent) : option (list byte) :=
  if id <? 1 then None
  else if Z.of_nat (length (t_files t)) <=? id - 1 then None
  else t_files t !! Z.to_nat (id - 1).

(** [http.Error] writes the text and a newline as the body. *)
Definition http_error (text : string) : list byte := String.list_byte_of_string text ++ [Byte.x0a].

(** The body that [http.ServeContent] writes for [bytes=start-] or
    [bytes=start-last]: the range, the whole of an empty file, or the text of
    the error 416. *)
Definition ServeContent (f : list byte) (start : Z) (last : option Z) : list byte :=
  let size := Z.of_nat (length f) in
  if match last with Some e => e <? start | None => false end then http_error "invalid range"
  else if size <=? start then
    (if size =? 0 then [] else http_error "invalid range: failed to overlap")
  else
    let e := match last with Some e => Z.min e (size - 1) | None => size - 1 end in
    take (Z.to_nat (e - start + 1)) (drop (Z.to_nat start) f).

Section streams.
Context (MaxSize : Z).

(** What [Stream] writes and whether it returns an error. The torrent's reader
    gives up after [sent] bytes of the body, which [ServeContent] does not
    report. *)
Definition Stream (fileID start : Z) (last : option Z) (t : torrent) (sent : nat) : list byte * bool :=
  if negb (t_info t) then (http_error "404 page not found", true)
  else match getFileByID fileID t with
  | None => ([], true)
  | Some f =>
      if (0 <? MaxSize) && (MaxSize <? Z.of_nat (length f)) then
        (http_error ("file size exceeded max allowed " +:+ pretty MaxSize +:+ " bytes"), true)
      else if negb (t_reader t) then ([], true)
      else (take sent (ServeContent f start last), false)
  end.

(** ** Pipes *)

(** The reading end: the bytes still to come, and how it ends. *)
Record Pipe := MkPipe { p_data : list byte; p_end : io_error }.

(** The pipe of a stream: its end is the error, a panic's too, or the end of
    file. *)
Definition streamTorrentToPipe (panics : bool) (res : list byte * bool) : Pipe :=
  MkPipe res.1 (if panics || res.2 then Failed else EOF).

(** What breaks a read off: the number of bytes it got, and the error that the
    pipe gives from then on. *)
Abbreviation cut := (option (nat * io_error)).

(** Reading up to [n] bytes: what comes, and the pipe after it. *)
Definition deliver (n : nat) (c : cut) (p : Pipe) : list byte * Pipe :=
  match c with
  | Some (k, e) => (take k (take n (p_data p)), MkPipe [] e)
  | None => (take n (p_data p), MkPipe (drop n (p_data p)) (p_end p))
  end.

(** [io.ReadFull]. *)
Definition ReadFull (n : nat) (c : cut) (p : Pipe) : list byte * option io_error * Pipe :=
  let '(bs, p') := deliver n c p in
  (bs,
   if (length bs =? n)%nat then None
   else Some (if (length bs =? 0)%nat then p_end p'
              else if decide (p_end p' = EOF) then UnexpectedEOF else p_end p'),
   p').

(** [io.CopyN] to [io.Discard]: whether all [n] bytes came. *)
Definition CopyN (n : nat) (c : cut) (p : Pipe) : bool * Pipe :=
  let '(bs, p') := deliver n c p in ((length bs =? n)%nat, p').

(** ** The reader *)

Record NativeReader := MkReader {
  fileID : Z;
  offset : Z;
  pipe : option Pipe;
  closed : bool;
  lastActivity : Z;
  interrupted : bool;
}.

Definition NewStreamReader (id now : Z) : NativeReader := MkReader id 0 None false now false.

(** What happens outside during a call: the cuts of its four reads, whether
    [Interrupt] came before each look at the flag, the torrent that is found
    for a new stream, and what becomes of the stream. *)
Record env := MkEnv {
  now : Z;
  seq_cut : cut;
  seq_flag : bool;
  skip_cut : cut;
  smart_cut : cut;
  smart_flag : bool;
  final_flag : bool;
  peeked : option torrent;
  sent : nat;
  panics : bool;
  hard_cut : cut;
}.

Definition set_offset (o : Z) (r : NativeReader) : NativeReader :=
  MkReader (fileID r) o (pipe r) (closed r) (lastActivity r) (interrupted r).
Definition set_pipe (p : option Pipe) (r : NativeReader) : NativeReader :=
  MkReader (fileID r) (offset r) p (closed r) (lastActivity r) (interrupted r).
Definition set_closed (r : NativeReader) : NativeReader :=
  MkReader (fileID r) (offset r) (pipe r) true (lastActivity r) (interrupted r).
Definition set_activity (t : Z) (r : NativeReader) : NativeReader :=
  MkReader (fileID r) (offset r) (pipe r) (closed r) t (interrupted r).
Definition set_flag (b : bool) (r : NativeReader) : NativeReader :=
  MkReader (fileID r) (offset r) (pipe r) (closed r) (lastActivity r) b.
Definition raise_flag (b : bool) (r : NativeReader) : NativeReader := set_flag (interrupted r || b) r.

Definition closeStream (r : NativeReader) : NativeReader := set_pipe None r.

(** [startStream]; [None] if the torrent is not active. *)
Definition startStream (off : Z) (v : env) (r : NativeReader) : option NativeReader :=
  t ← peeked v;
  Some (set_offset off (set_pipe (Some (streamTorrentToPipe (panics v) (Stream (fileID r) off None t (sent v)))) r)).

Definition seekWindow : Z := 2 * 1024 * 1024.

Abbreviation answer := (list byte * option io_error * NativeReader)%type.

(** The interrupted exit: the stream is closed and the flag taken back. *)
Definition interrupted_exit (r : NativeReader) : answer := ([], Some ErrInterrupted, closeStream (set_flag false r)).

(** Whether a read ended in a way that is returned as it is. *)
Definition read_done (e : option io_error) : bool :=
  match e with None | Some EOF | Some UnexpectedEOF => true | _ => false end.

(** A read from the pipe, which moves the offset. *)
Definition pipe_read (n : nat) (c : cut) (p : Pipe) (r : NativeReader) : answer :=
  let '(bs, e, p') := ReadFull n c p in (bs, e, set_offset (offset r + Z.of_nat (length bs)) (set_pipe (Some p') r)).

(** The last part: a new stream at the offset. *)
Definition hard_seek (n : nat) (off : Z) (v : env) (r : NativeReader) : answer :=
  match startStream off v (closeStream r) with
  | None => ([], Some NotFound, closeStream r)
  | Some r =>
      match pipe r with
      | Some p =>
          let '(bs, e, r) := pipe_read n (hard_cut v) p r in
          (bs, if decide (e = Some UnexpectedEOF) then None else e, r)
      | None => ([], Some NotFound, r)
      end
  end.

Definition final_check (n : nat) (off : Z) (v : env) (r : NativeReader) : answer :=
  let r := raise_flag (final_flag v) r in
  if interrupted r then interrupted_exit r else hard_seek n off v r.

(** The second part: a short way forward in the current stream. *)
Definition smart_seek (n : nat) (off : Z) (v : env) (r : NativeReader) : answer :=
  match pipe r with
  | Some p =>
      if (offset r <? off) && (off - offset r <? seekWindow) then
        let '(skipped, p1) := CopyN (Z.to_nat (off - offset r)) (skip_cut v) p in
        let '(bs, ok, r) :=
          if skipped then let '(bs, e, r) := pipe_read n (smart_cut v) p1 (set_offset off r) in (bs, read_done e, r)
          else ([], false, set_pipe (Some p1) r) in
        if ok : bool then (bs, None, r)
        else
          let r := raise_flag (smart_flag v) r in
          if interrupted r then interrupted_exit r else final_check n off v r
      else final_check n off v r
  | None => final_check n off v r
  end.

Definition ReadAt (n : nat) (off : Z) (v : env) (r : NativeReader) : answer :=
  if closed r then ([], Some ClosedPipe, r)
  else
    let r := set_activity (now v) r in
    if interrupted r then interrupted_exit r
    else
      match pipe r with
      | Some p =>
          if off =? offset r then
            let '(bs, e, r) := pipe_read n (seq_cut v) p r in
            let r := raise_flag (seq_flag v) r in
            if interrupted r then interrupted_exit r
            else if read_done e then (bs, None, r)
            else smart_seek n off v r
          else smart_seek n off v r
      | None => smart_seek n off v r
      end.

(** [Interrupt] sets the flag, and closes the reading end it finds. *)
Definition Interrupt (found : bool) (r : NativeReader) : NativeReader :=
  set_flag true (if found then set_pipe ((λ _, MkPipe [] ClosedPipe) <$> pipe r) r else r).

Definition Close (r : NativeReader) : NativeReader := closeStream (set_closed r).

Definition IsIdle (d t : Z) (r : NativeReader) : bool := d <? t - lastActivity r.

(** ** A single block *)

(** [FetchBlock] reads from a stream of its own, limited to the range. *)
Definition FetchBlock (id off : Z) (n : nat) (t : option torrent) (sent : nat) (panics : bool) (c : cut)
    : list byte * option io_error :=
  match t with
  | None => ([], Some NotFound)
  | Some t =>
      let p := streamTorrentToPipe panics (Stream id off (Some (off + Z.of_nat n - 1)) t sent) in
      let '(bs, err, _) := ReadFull n c p in
      if decide (err = Some UnexpectedEOF) then (bs, None)
      else if (length bs =? 0)%nat && bool_decide (err ≠ None) then ([], Some Failed)
      else (bs, err)
  end.

(** ** What a read returns *)

Section correctness.
Context (file : list byte) (id : Z).

(** The bytes of the file from an offset on. *)
Definition rest (off : Z) : list byte := drop (Z.to_nat off) file.

(** The engine has the metadata, and this file under the number. *)
Definition holds (t : torrent) : Prop := t_info t = true ∧ getFileByID id t = Some file.
Definition honest (v : env) : Prop := ∀ t, peeked v = Some t → holds t.
Definition inside (off : Z) : Prop := 0 ≤ off < Z.of_nat (length file).

Context (Hsize : MaxSize ≤ 0 ∨ Z.of_nat (length file) ≤ MaxSize).

Lemma prefix_take_l (n : nat) (l k : list byte) : l `prefix_of` k → take n l `prefix_of` k.
Proof. intros Hl. transitivity l; [|done]. exists (drop n l). by rewrite take_drop. Qed.

Lemma prefix_drop_l (n : nat) (l k : list byte) :
  l `prefix_of` k → drop n l `prefix_of` drop (length (take n l)) k.
Proof.
  intros [m ->]. rewrite length_take. destruct (decide (n ≤ length l)%nat).
  - rewrite Nat.min_l by done. rewrite drop_app_le by done. apply prefix_app_r. done.
  - rewrite (drop_ge l) by lia. apply prefix_nil.
Qed.

Lemma rest_add off (k : nat) : 0 ≤ off → rest (off + Z.of_nat k) = drop k (rest off).
Proof. intros Ho. unfold rest. rewrite drop_drop. f_equal. lia. Qed.

(** The stream of such a torrent has bytes of the file, from the offset on. *)
Lemma Stream_prefix off last t k : holds t → inside off → (Stream id off last t k).1 `prefix_of` rest off ∨ (∃ e, last = Some e ∧ e < off).
Proof.
  intros [Hi Hf] Ho. unfold Stream. rewrite Hi, Hf. cbn [negb].
  destruct ((0 <? MaxSize) && _) eqn:Em; [lia|]. destruct (negb _); [left; apply prefix_nil|]. cbn [fst].
  unfold ServeContent. destruct last as [e|].
  - destruct (Z.ltb_spec e off); [right; by exists e|left]. apply prefix_take_l. destruct (Z.leb_spec (Z.of_nat (length file)) off); [unfold inside in Ho; lia|].
    by apply prefix_take_l.
  - left. apply prefix_take_l. destruct (Z.leb_spec (Z.of_nat (length file)) off); [unfold inside in Ho; lia|]. by apply prefix_take_l.
Qed.

(** *** Reads from a pipe *)

Lemma deliver_prefix n c p off bs p' :
  deliver n c p = (bs, p') → p_data p `prefix_of` rest off → 0 ≤ off →
  bs `prefix_of` rest off ∧ (length bs ≤ n)%nat ∧ p_data p' `prefix_of` rest (off + Z.of_nat (length bs)).
Proof.
  intros Hd Hp Ho. unfold deliver in Hd. destruct c as [[k e]|]; injection Hd as <- <-; cbn [p_data].
  - split_and!; [by do 2 apply prefix_take_l| |apply prefix_nil]. rewrite !length_take. lia.
  - split_and!; [by apply prefix_take_l|rewrite length_take; lia|]. rewrite rest_add by done. by apply prefix_drop_l.
Qed.

(** The pipe of the reader goes on where the reader stopped. *)
Record reader_ok (r : NativeReader) : Prop := {
  ro_id : fileID r = id;
  ro_off : 0 ≤ offset r;
  ro_pipe : ∀ p, pipe r = Some p → p_data p `prefix_of` rest (offset r);
}.

(** What every answer is like: bytes of the file, and a reader in order. *)
Definition answer_ok (n : nat) (off : Z) (a : answer) : Prop :=
  reader_ok a.2 ∧ a.1.1 `prefix_of` rest off ∧ (length a.1.1 ≤ n)%nat.

Lemma pipe_read_ok n c p r :
  fileID r = id → 0 ≤ offset r → p_data p `prefix_of` rest (offset r) →
  answer_ok n (offset r) (pipe_read n c p r).
Proof.
  intros Hid Ho Hp. unfold pipe_read, ReadFull. destruct (deliver n c p) as [bs p'] eqn:Ed.
  destruct (deliver_prefix _ _ _ _ _ _ Ed Hp Ho) as (Hb & Hn & Hp'). split_and!; [|done|done].
  split; cbn; [done|lia|]. by intros q [= <-].
Qed.

Lemma no_stream_ok r e n off : fileID r = id → 0 ≤ offset r → answer_ok n off ([], e, closeStream r).
Proof. intros Hid Ho. split_and!; [by split|apply prefix_nil|simpl; lia]. Qed.

Lemma interrupted_exit_ok n off r : fileID r = id → 0 ≤ offset r → answer_ok n off (interrupted_exit r).
Proof. intros Hid Ho. by apply (no_stream_ok (set_flag false r)). Qed.

Lemma hard_seek_ok n off v r :
  honest v → inside off → fileID r = id → 0 ≤ offset r → answer_ok n off (hard_seek n off v r).
Proof.
  intros Hv Ho Hid Hr. unfold hard_seek, startStream. destruct (peeked v) as [t|] eqn:Et; cbn [mbind option_bind]; [|by apply no_stream_ok].
  specialize (Hv t Et). cbn [pipe set_offset set_pipe closeStream fileID]. rewrite Hid.
  destruct (Stream_prefix off None t (sent v) Hv Ho) as [Hs|(? & ? & _)]; [|done].
  set (r1 := set_offset off _). set (p := streamTorrentToPipe _ _).
  pose proof (pipe_read_ok n (hard_cut v) p r1 Hid (proj1 Ho) Hs) as H.
  destruct (pipe_read n (hard_cut v) p r1) as [[bs e] r']. exact H.
Qed.

Lemma final_check_ok n off v r :
  honest v → inside off → fileID r = id → 0 ≤ offset r → answer_ok n off (final_check n off v r).
Proof.
  intros Hv Ho Hid Hr. unfold final_check. destruct (interrupted _); [by apply interrupted_exit_ok|by apply hard_seek_ok].
Qed.

Lemma smart_seek_ok n off v r :
  honest v → inside off → fileID r = id → 0 ≤ offset r →
  (offset r < off → ∀ p, pipe r = Some p → p_data p `prefix_of` rest (offset r)) →
  answer_ok n off (smart_seek n off v r).
Proof.
  intros Hv Ho Hid Hr Hp. unfold smart_seek. destruct (pipe r) as [p|]; [|by apply final_check_ok].
  destruct ((offset r <? off) && _) eqn:Ew; [|by apply final_check_ok]. assert (offset r < off) as Hlt by lia.
  specialize (Hp Hlt p eq_refl). unfold CopyN. destruct (deliver _ (skip_cut v) p) as [skip p1] eqn:Ed.
  destruct (deliver_prefix _ _ _ _ _ _ Ed Hp Hr) as (_ & _ & Hp1).
  destruct (Nat.eqb_spec (length skip) (Z.to_nat (off - offset r))) as [Es|Es].
  - replace (offset r + Z.of_nat (length skip)) with off in Hp1 by lia.
    pose proof (pipe_read_ok n (smart_cut v) p1 (set_offset off r) Hid (proj1 Ho) Hp1) as H.
    destruct (pipe_read n (smart_cut v) p1 (set_offset off r)) as [[bs e] r']. cbn [offset set_offset] in H.
    destruct (read_done e); [exact H|]. destruct H as ([Hid' Ho' _] & _).
    destruct (interrupted _); [by apply interrupted_exit_ok|by apply final_check_ok].
  - destruct (interrupted _); [by apply interrupted_exit_ok|by apply final_check_ok].
Qed.

Lemma ReadAt_ok n off v r : reader_ok r → honest v → inside off → answer_ok n off (ReadAt n off v r).
Proof.
  intros [Hid Hr Hp] Hv Ho. unfold ReadAt. destruct (closed r); [split_and!; [done|apply prefix_nil|simpl; lia]|].
  cbn [interrupted set_activity]. destruct (interrupted r) eqn:Ei; [by apply interrupted_exit_ok|].
  change (pipe (set_activity (now v) r)) with (pipe r). change (offset (set_activity (now v) r)) with (offset r).
  destruct (pipe r) as [p|] eqn:Ep; [|apply smart_seek_ok; try done; intros _; cbn; by rewrite Ep].
  destruct (Z.eqb_spec off (offset r)) as [->|Hne].
  - pose proof (pipe_read_ok n (seq_cut v) p (set_activity (now v) r) Hid Hr (Hp p eq_refl)) as H.
    destruct (pipe_read n (seq_cut v) p (set_activity (now v) r)) as [[bs e] r'] eqn:Er. cbn [offset set_activity] in H.
    pose proof H as ([Hid' Ho' Hp'] & Hb & Hn). cbv beta zeta.
    destruct (interrupted (raise_flag (seq_flag v) r')); [by apply interrupted_exit_ok|].
    destruct (read_done e); [split_and!; [by split|done|done]|].
    apply smart_seek_ok; try done.
  - apply smart_seek_ok; try done. cbn. intros _ q Hq. apply Hp. by rewrite <- Ep.
Qed.

(** ** Sessions *)

Inductive reader_step : NativeReader → NativeReader → Prop :=
  | step_read n off v r : honest v → inside off → reader_step r (ReadAt n off v r).2
  | step_interrupt found r : reader_step r (Interrupt found r)
  | step_close r : reader_step r (Close r).

Lemma reader_step_ok r r' : reader_ok r → reader_step r r' → reader_ok r'.
Proof.
  intros Hr Hs. destruct Hs as [n off v r Hv Ho|found r|r].
  - by apply ReadAt_ok.
  - destruct Hr as [Hid Ho Hp]. split; [by destruct found..|]. destruct found; [|done]. cbn.
    intros p. destruct (pipe r); [|done]. intros [= <-]. apply prefix_nil.
  - destruct Hr. by split.
Qed.

Lemma session_ok t r : rtc reader_step (NewStreamReader id t) r → reader_ok r.
Proof. revert r. apply rtc_ind_r; [by split|]. intros x y _ Hs Hx. by eapply reader_step_ok. Qed.

(** A call that nobody disturbs, with a stream to the end of the file. *)
Definition quiet (v : env) : Prop :=
  seq_cut v = None ∧ seq_flag v = false ∧ skip_cut v = None ∧ smart_cut v = None ∧ smart_flag v = false ∧
  final_flag v = false ∧ hard_cut v = None ∧ panics v = false ∧ (length file ≤ sent v)%nat ∧
  ∃ t, peeked v = Some t ∧ holds t ∧ t_reader t = true.

(** In a session of such calls the pipe has the rest of the file. *)
Record reader_full (r : NativeReader) : Prop := {
  rf_id : fileID r = id;
  rf_open : closed r = false ∧ interrupted r = false;
  rf_off : 0 ≤ offset r;
  rf_pipe : ∀ p, pipe r = Some p → p = MkPipe (rest (offset r)) EOF;
}.

Inductive quiet_step : NativeReader → NativeReader → Prop :=
  | quiet_read n off v r : quiet v → inside off → quiet_step r (ReadAt n off v r).2.

Lemma Stream_quiet off v t :
  inside off → holds t → t_reader t = true → (length file ≤ sent v)%nat →
  Stream id off None t (sent v) = (rest off, false).
Proof.
  intros Ho [Hi Hf] Ht Hs. unfold Stream. rewrite Hi, Hf, Ht. cbn [negb].
  destruct ((0 <? MaxSize) && _) eqn:Em; [lia|]. f_equal. unfold ServeContent, inside in *.
  destruct (Z.leb_spec (Z.of_nat (length file)) off); [lia|].
  rewrite (take_ge (drop _ _)) by (rewrite length_drop; lia). change (drop _ file) with (rest off). apply take_ge. unfold rest. rewrite length_drop. lia.
Qed.

(** Reading from a pipe that has the rest of the file. *)
Lemma quiet_pipe_read n p r bs e r' :
  pipe_read n None p r = (bs, e, r') → p = MkPipe (rest (offset r)) EOF →
  fileID r = id → closed r = false → interrupted r = false → 0 ≤ offset r →
  bs = take n (rest (offset r)) ∧ read_done e = true ∧ reader_full r' ∧
  (inside (offset r) → e = None ∨ e = Some UnexpectedEOF).
Proof.
  intros E -> Hid Hc Hi Ho. unfold pipe_read, ReadFull, deliver in E. cbn [p_data p_end] in E.
  injection E as Eb Ee Er. subst bs. split_and!; [done| | |].
  - subst e. by repeat case_match.
  - subst r'. split; [done..|cbn; lia|]. cbn. intros q [= <-]. f_equal. rewrite rest_add by done. rewrite length_take.
    destruct (decide (n ≤ length (rest (offset r)))%nat); [by rewrite Nat.min_l|].
    by rewrite Nat.min_r, !drop_ge by lia.
  - intros Hin. subst e. destruct (Nat.eqb_spec (length (take n (rest (offset r)))) n) as [|Hne]; [by left|].
    destruct (Nat.eqb_spec (length (take n (rest (offset r)))) 0) as [E0|]; [|by right].
    unfold rest, inside in *. rewrite length_take, length_drop in *. lia.
Qed.

Lemma quiet_final_check n off v r :
  quiet v → inside off → fileID r = id → closed r = false → interrupted r = false →
  let '(bs, e, r') := final_check n off v r in bs = take n (rest off) ∧ reader_full r' ∧ e = None.
Proof.
  intros (_ & _ & _ & _ & _ & Hf & Hh & Hpn & Hsent & t & Ht & Hh' & Hrd) Ho Hid Hc Hi.
  unfold final_check, hard_seek, startStream. rewrite Hf, Ht, Hh. cbn [raise_flag set_flag interrupted mbind option_bind].
  rewrite Hi. cbn [orb pipe set_offset set_pipe closeStream set_flag fileID].
  change (fileID (raise_flag false r)) with (fileID r). rewrite Hid, (Stream_quiet off v t), Hpn by done.
  unfold streamTorrentToPipe. cbn [fst snd orb]. set (p := MkPipe _ _). set (r1 := set_offset off _).
  destruct (pipe_read n None p r1) as [[bs e] r'] eqn:E.
  destruct (quiet_pipe_read _ _ _ _ _ _ E) as (Hb & _ & Hr & He); [done..| |apply Ho|]; [cbn; by rewrite Hi|].
  split_and!; [done|done|]. by destruct (He Ho) as [-> | ->].
Qed.

Lemma quiet_ReadAt n off v r :
  reader_full r → quiet v → inside off →
  let '(bs, e, r') := ReadAt n off v r in bs = take n (rest off) ∧ reader_full r' ∧ e = None.
Proof.
  intros [Hid [Hc Hi] Hr Hp] Hq Ho. pose proof Hq as (Hq1 & Hq2 & Hq3 & Hq4 & Hq5 & _).
  unfold ReadAt, smart_seek. rewrite Hc. cbn [interrupted set_activity]. rewrite Hi.
  change (pipe (set_activity (now v) r)) with (pipe r). change (offset (set_activity (now v) r)) with (offset r).
  destruct (pipe r) as [p|] eqn:Ep; [|by apply quiet_final_check]. specialize (Hp p eq_refl).
  destruct (Z.eqb_spec off (offset r)) as [->|Hne].
  - rewrite Hq1. set (r1 := set_activity _ r). destruct (pipe_read n None p r1) as [[bs e] r'] eqn:E.
    destruct (quiet_pipe_read _ _ _ _ _ _ E) as (Hb & Hd & Hr' & _); [done..|].
    rewrite Hq2. destruct Hr' as [Hid' [Hc' Hi'] ? ?]. cbn [raise_flag set_flag interrupted]. rewrite Hi'. cbn [orb].
    rewrite Hd. split_and!; [done| |done]. split; [done|cbn; by rewrite Hi'|done..].
  - destruct ((offset r <? off) && _) eqn:Ew; [|by apply quiet_final_check].
    rewrite Hq3. unfold CopyN, deliver. subst p. cbn [p_data p_end].
    destruct (Nat.eqb_spec (length (take (Z.to_nat (off - offset r)) (rest (offset r)))) (Z.to_nat (off - offset r))) as [Em|Em].
    + rewrite Hq4. set (p1 := MkPipe _ _). set (r1 := set_offset off _). destruct (pipe_read n None p1 r1) as [[bs e] r'] eqn:E.
      destruct (quiet_pipe_read _ _ _ _ _ _ E) as (Hb & Hd & Hr' & _); [|done..|cbn; lia|by rewrite Hd].
      unfold p1, r1. cbn. f_equal. rewrite <- rest_add by done. f_equal. lia.
    + rewrite Hq5. set (r1 := raise_flag false _).
      assert (interrupted r1 = false) as Hi1 by (cbn; by rewrite Hi). rewrite Hi1. by apply quiet_final_check.
Qed.

Lemma quiet_session_ok t r : rtc quiet_step (NewStreamReader id t) r → reader_full r.
Proof.
  revert r. apply rtc_ind_r; [by split|]. intros x y _ [n off v z Hv Ho] Hx.
  pose proof (quiet_ReadAt n off v z Hx Hv Ho) as H. destruct (ReadAt n off v z) as [[? ?] ?]. apply H.
Qed.


(** A block has bytes of the file. *)
Lemma FetchBlock_prefix n off t k b c :
  (0 < n)%nat → inside off → (∀ t', t = Some t' → holds t') →
  let bs := (FetchBlock id off n t k b c).1 in bs `prefix_of` rest off ∧ (length bs ≤ n)%nat.
Proof.
  intros Hn Ho Ht. unfold FetchBlock. destruct t as [t|]; [|split; [apply prefix_nil|simpl; lia]].
  destruct (Stream_prefix off (Some (off + Z.of_nat n - 1)) t k (Ht t eq_refl) Ho) as [Hs|(e & [= <-] & He)]; [|lia].
  unfold ReadFull. destruct (deliver n c _) as [bs p'] eqn:Ed.
  destruct (deliver_prefix _ _ _ _ _ _ Ed Hs (proj1 Ho)) as (Hb & Hbn & _).
  destruct (decide _); [done|]. destruct (_ && _); [split; [apply prefix_nil|simpl; lia]|done].
Qed.

(** An empty block comes with an error, unless the read was broken off with an
    unexpected end of file. *)
Lemma FetchBlock_nonempty n off t k b c :
  (0 < n)%nat → (∀ j, c ≠ Some (j, UnexpectedEOF)) →
  let '(bs, e) := FetchBlock id off n t k b c in bs = [] → e ≠ None.
Proof.
  intros Hn Hc. unfold FetchBlock. destruct t as [t|]; [|done]. unfold ReadFull. destruct (deliver n c _) as [bs p'] eqn:Ed.
  assert (p_end p' ≠ UnexpectedEOF) as He.
  { unfold deliver in Ed. destruct c as [[j e]|]; injection Ed as _ <-; cbn; [|by destruct (_ || _)]. intros ->. by eapply Hc. }
  destruct bs as [|x bs].
  - cbn [length]. rewrite (proj2 (Nat.eqb_neq 0 n)) by lia. cbn [Nat.eqb]. rewrite decide_False by congruence.
    by rewrite bool_decide_eq_true_2.
  - destruct (decide _); [done|]. cbn [length Nat.eqb andb]. done.
Qed.
End correctness.
End streams.

(** ** Text in place of bytes *)

(** The pipe takes the text of an error answer for bytes of the file. When
    the engine has no metadata yet, [Stream] writes the page of the error 404,
    and a longer read gets the text, together with an error;
    past the end of the file a read gets the text of the error 416, and no
    error at all. *)
Theorem native_ReadAt_error_text MaxSize id t n off v tor f :
  let '(bs, e, _) := ReadAt MaxSize n off v (NewStreamReader id t) in
  peeked v = Some tor → final_flag v = false → hard_cut v = None →
  (t_info tor = false → (20 ≤ n)%nat → bs = http_error "404 page not found" ∧ e = Some Failed) ∧
  (t_info tor = true → getFileByID id tor = Some f → t_reader tor = true → MaxSize ≤ 0 → f ≠ [] →
   Z.of_nat (length f) ≤ off → (40 ≤ n)%nat → (40 ≤ sent v)%nat → panics v = false →
   bs = http_error "invalid range: failed to overlap" ∧ e = None).
Proof.
  destruct (ReadAt MaxSize n off v (NewStreamReader id t)) as [[bs e] r'] eqn:E. intros Hv Hf Hh.
  unfold ReadAt, smart_seek, final_check, hard_seek, startStream in E. rewrite Hv, Hf, Hh in E.
  cbn in E. unfold pipe_read, ReadFull, deliver, streamTorrentToPipe, Stream in E. split.
  - intros Hi Hn. rewrite Hi in E. cbn [negb p_data p_end fst snd] in E. rewrite orb_true_r in E.
    rewrite take_ge in E by (vm_compute length; lia). rewrite (proj2 (Nat.eqb_neq _ n)) in E by (vm_compute length; lia).
    injection E as <- <- _. by vm_compute.
  - intros Hi Hg Hr Hm Hne Ho Hn Hk Hp. rewrite Hi, Hg, Hr, Hp in E. cbn [negb p_data p_end] in E.
    destruct ((0 <? MaxSize) && _) eqn:Em; [lia|]. cbn [fst snd orb] in E. unfold ServeContent in E.
    rewrite (proj2 (Z.leb_le _ off)) in E by done.
    rewrite (proj2 (Z.eqb_neq _ 0)) in E by (destruct f; simpl; [done|lia]).
    rewrite (take_ge (http_error _)) in E by (vm_compute length; lia).
    rewrite take_ge in E by (vm_compute length; lia). rewrite (proj2 (Nat.eqb_neq _ n)) in E by (vm_compute length; lia).
    injection E as <- <- _. by vm_compute.
Qed.

(** ** Witnesses *)

Definition sample_file : list byte := [Byte.x01; Byte.x02; Byte.x03; Byte.x04; Byte.x05].
Definition sample_torrent (info : bool) : torrent := MkTorrent info [[]; sample_file] true.
Definition sample_env (info : bool) : env := MkEnv 0 None false None None false false (Some (sample_torrent info)) 64 false None.


Lemma native_ReadAt_error_text_witness :
  let '(bs, e, _) := ReadAt 0 64 5 (sample_env true) (NewStreamReader 2 0) in
  bs = http_error "invalid range: failed to overlap" ∧ e = None.
Proof.
  apply (native_ReadAt_error_text 0 2 0 64 5 (sample_env true) (sample_torrent true) sample_file); try reflexivity;
    vm_compute; (discriminate || lia).
Defined.
