(* ===== verification/Pump.v ===== *)
(** * The pump (main.go)

    A background goroutine per open file reads ahead of the player: chunk after
    chunk, through the native reader, into the read-ahead cache, and near the
    start of the file into the queue of the disk warm-up cache as well. The file
    composes the models of these parts the way [nativePumpChunk] and the loop of
    [nativePump] do.

    The clock, the position of the player, the playback registry and everything
    that happens to the reader are arguments of each turn of the loop. *)

From S2P Require Import Prelude RaCache DiskWarmup NativeReader.

Section pump.
Context (sum64 : string → Z) (ReadAheadBase ReadAheadBudget : Z).
Context (warmupFileSize : Z) (dir : string) (MaxSize : Z).

(** The part of [MkvHandle] that a pump does not change. *)
Record MkvHandle := MkMkv { h_path : string; h_hash : string; h_fileID : Z; h_size : Z }.

Inductive handleState := stateWarmup | stateStreaming | stateTailProbe.
#[export] Instance handleState_eq_dec : EqDecision handleState.
Proof. solve_decision. Defined.

(** The two caches; the disk cache may be switched off. *)
Record caches := MkCaches { raCache : ReadAheadCache; diskWarmup : option DiskWarmupCache }.

(** The length of the buffers of [readBufferPool]. *)
Definition poolSize : Z := if ReadAheadBase =? 0 then 16 * MiB else ReadAheadBase.

(** [pumpChunk] is the chunk size of the loop. *)
Definition pumpChunk : Z := if ReadAheadBase =? 0 then 8 * MiB else ReadAheadBase.

(** A chunk near the start also goes to the disk cache. *)
Definition queue_warmup (h : MkvHandle) (data : list byte) (offset : Z) (w : option DiskWarmupCache) : option DiskWarmupCache :=
  d ← w;
  Some (if negb (String.eqb (h_hash h) "") && (offset <=? warmupFileSize)
        then WriteChunk warmupFileSize (h_hash h) (h_fileID h) data offset d else d).

(** What the disk cache has from the start on. *)
Definition coverage (h : MkvHandle) (now : Z) (w : option DiskWarmupCache) : Z * option DiskWarmupCache :=
  match w with
  | Some d => let '(n, d) := GetAvailableRange warmupFileSize dir (h_hash h) (h_fileID h) now d in (n, Some d)
  | None => (0, None)
  end.

(** How long the pump sleeps before it reads a chunk, in milliseconds; [None]
    is the hard limit, at which it sleeps and reads nothing. *)
Definition pump_delay (offset playerOff : Z) : option Z :=
  let diff := offset - playerOff in
  if ReadAheadBudget <? diff then None
  else if (ReadAheadBudget * 7) /t 10 <? diff then
    Some (Z.max 0 (Z.min 50 ((diff - (ReadAheadBudget * 7) /t 10) /t MiB)))
  else Some 0.

(** [stop], the next offset, the reader and the caches; [None] is a panic. *)
Abbreviation chunk_result := (option (bool * Z * NativeReader * caches)).

(** The read of a chunk that is neither in memory nor on disk. *)
Definition pump_read (h : MkvHandle) (offset : Z) (now : Z) (responsive : bool) (v : env)
    (r : NativeReader) (w : caches) : chunk_result :=
  let end_ := if h_size h <? offset + pumpChunk then h_size h else offset + pumpChunk in
  if poolSize <? end_ - offset then None
  else
    let '(bs, err, r) := NativeReader.ReadAt MaxSize (Z.to_nat (end_ - offset)) offset v r in
    let n := Z.of_nat (length bs) in
    let w :=
      if 0 <? n then
        MkCaches (Put sum64 ReadAheadBase ReadAheadBudget (h_path h) offset (offset + n - 1) bs now responsive (raCache w)).2
                 (queue_warmup h bs offset (diskWarmup w))
      else w in
    Some (bool_decide (err ≠ None), offset + n, r, w).

Definition nativePumpChunk (h : MkvHandle) (st : handleState) (offset playerOff : Z) (now : Z) (responsive : bool) (v : env)
    (r : NativeReader) (w : caches) : chunk_result :=
  if h_size h <=? offset then Some (true, offset, r, w)
  else match pump_delay offset playerOff with
  | None => Some (false, offset, r, w)
  | Some _ =>
      let '(data, c) := Get sum64 ReadAheadBase (h_path h) offset offset now (raCache w) in
      match data with
      | None => None
      | Some (Some data) => Some (false, offset + pumpChunk, r, MkCaches c (queue_warmup h data offset (diskWarmup w)))
      | Some None =>
          let w := MkCaches c (diskWarmup w) in
          if negb (String.eqb (h_hash h) "") && bool_decide (st = stateWarmup) && bool_decide (is_Some (diskWarmup w)) then
            let '(n, d) := coverage h now (diskWarmup w) in
            let w := MkCaches c d in
            if offset + pumpChunk <=? n then Some (false, offset + pumpChunk, r, w)
            else pump_read h offset now responsive v r w
          else pump_read h offset now responsive v r w
      end
  end.

(** ** The loop *)

(** What a turn of the loop finds. *)
Record tick := MkTick {
  cancelled : bool;
  handle_state : handleState;
  now_ : Z;
  activity : option Z;
  created_activity : Z;
  healthy : bool;
  player : Z;
  resp : bool;
  outside : env;
}.

Record pump := MkPump { p_off : Z; pumpedBytes : Z; p_reader : NativeReader; p_caches : caches }.

(** The last activity: that of the tracker, or of the handle while it is 0. *)
Definition lastActNano (t : tick) : Z :=
  let a := from_option id 0 (activity t) in if a =? 0 then created_activity t else a.

Definition timeoutLimit (t : tick) : Z := if healthy t then 7200 * 1000000000 else 45 * 1000000000.

(** The jump to the player's position. *)
Definition pump_jump (t : tick) (p : pump) : pump :=
  if p_off p + ReadAheadBudget <? player t then
    let jumpTo := (player t /t pumpChunk) * pumpChunk in
    MkPump (if jumpTo <? 0 then 0 else jumpTo) 0 (p_reader p) (p_caches p)
  else p.

(** Whether the turn is slowed down. *)
Definition throttled (t : tick) (p : pump) : bool := (64 * MiB <? pumpedBytes p) && negb (healthy t).

Inductive turn := Next (p : pump) | Exit (p : pump) | Panic.

Definition pump_turn (h : MkvHandle) (t : tick) (p : pump) : turn :=
  if cancelled t then Exit p
  else if timeoutLimit t <? now_ t - lastActNano t then Exit p
  else
    let p := pump_jump t p in
    match nativePumpChunk h (handle_state t) (p_off p) (player t) (now_ t) (resp t) (outside t) (p_reader p) (p_caches p) with
    | None => Panic
    | Some (stop, nextOffset, r, w) =>
        if stop then
          let p := MkPump (p_off p) (pumpedBytes p) r w in
          if p_off p <? h_size h then Next p else Exit p
        else Next (MkPump nextOffset (pumpedBytes p + (nextOffset - p_off p)) r w)
    end.

Fixpoint pump_run (h : MkvHandle) (ts : list tick) (p : pump) : turn :=
  match ts with
  | [] => Next p
  | t :: ts => match pump_turn h t p with Next p => pump_run h ts p | x => x end
  end.

(** Where the loop starts. *)
Definition pump_start (startOffset : Z) (r : NativeReader) (w : caches) : pump :=
  MkPump ((startOffset /t pumpChunk) * pumpChunk) 0 r w.

(** ** Seeks *)

Definition shouldInterruptForSeek (prevOff off budget : Z) : bool :=
  if (prevOff <=? 0) || (off =? 0) then false else (prevOff + budget <? off) || (off + budget <? prevOff).

(** ** Truthful caches *)

Section truth.
Context (DiskWarmupQuotaGB : Z) {slice_sort : SliceSort}.
Context (content : string → Z → byte) (disk : string → nat → byte).
Context (h : MkvHandle) (file : list byte).

(** The caches are for the files' bytes, the handle's file among them. *)
Record serves : Prop := {
  sv_size : h_size h = Z.of_nat (length file);
  sv_limit : MaxSize ≤ 0 ∨ h_size h ≤ MaxSize;
  sv_base : 0 ≤ ReadAheadBase;
  sv_content j x : file !! j = Some x → content (h_path h) (Z.of_nat j) = x;
}.
Context (Hsv : serves).

Abbreviation ra_ok := (reachable sum64 ReadAheadBase ReadAheadBudget content).
Abbreviation warm_ok := (warm_reachable warmupFileSize DiskWarmupQuotaGB dir disk).

Record caches_ok (w : caches) : Prop := {
  co_ra : ra_ok (raCache w);
  co_warm d : diskWarmup w = Some d → warm_ok d;
}.

Record pump_ok (p : pump) : Prop := {
  po_off : 0 ≤ p_off p;
  po_reader : reader_ok file (h_fileID h) (p_reader p);
  po_caches : caches_ok (p_caches p);
}.

Lemma pumpChunk_pos : 0 < pumpChunk ≤ poolSize.
Proof. unfold pumpChunk, poolSize. pose proof (sv_base Hsv). destruct (Z.eqb_spec ReadAheadBase 0); lia. Qed.

(** A prefix of the rest of the file is what the cache may be given. *)
Lemma prefix_truthful off bs : 0 ≤ off → bs `prefix_of` rest file off → truthful content (h_path h) off bs.
Proof.
  intros Ho Hp j x Hj. symmetry. eapply prefix_lookup_Some in Hj; [|done]. unfold rest in Hj. rewrite lookup_drop in Hj.
  replace (off + Z.of_nat j) with (Z.of_nat (Z.to_nat off + j)) by lia. by apply (sv_content Hsv).
Qed.

Lemma rtc_snoc {A} (R : A → A → Prop) x y z : rtc R x y → R y z → rtc R x z.
Proof. intros Hxy Hyz. eapply rtc_r; done. Qed.

Lemma Get_reach c p off e now x c' : ra_ok c → Get sum64 ReadAheadBase p off e now c = (x, c') → ra_ok c'.
Proof. intros Hc Eg. eapply rtc_snoc; [exact Hc|]. change c' with (x, c').2. rewrite <- Eg. constructor. Qed.

Lemma queue_warmup_ok data off w :
  (∀ d, w = Some d → warm_ok d) → ∀ d, queue_warmup h data off w = Some d → warm_ok d.
Proof.
  intros Hw d. unfold queue_warmup. destruct w as [d0|]; [|done]. cbn. intros [= <-]. specialize (Hw d0 eq_refl).
  destruct (_ && _); [|done]. eapply rtc_snoc; [exact Hw|constructor].
Qed.

Lemma coverage_ok now w n w' :
  coverage h now w = (n, w') → (∀ d, w = Some d → warm_ok d) → ∀ d, w' = Some d → warm_ok d.
Proof.
  intros Hc Hw. unfold coverage in Hc. destruct w as [d0|]; [|by injection Hc as <- <-]. specialize (Hw d0 eq_refl).
  destruct (GetAvailableRange _ _ _ _ _ d0) as [m d1] eqn:Eg. injection Hc as <- <-. intros d [= <-].
  eapply rtc_snoc; [exact Hw|]. change d1 with (m, d1).2. rewrite <- Eg. constructor.
Qed.

(** What a chunk does, for whichever reason it ends. *)
Definition chunk_ok (off : Z) (x : chunk_result) : Prop :=
  ∃ stop next r w, x = Some (stop, next, r, w) ∧ off ≤ next ≤ off + pumpChunk ∧
    reader_ok file (h_fileID h) r ∧ caches_ok w.

Lemma pump_read_ok off now responsive v r w :
  inside file off → reader_ok file (h_fileID h) r → caches_ok w → honest file (h_fileID h) v →
  chunk_ok off (pump_read h off now responsive v r w).
Proof.
  intros Ho Hr [Hra Hw] Hv. unfold pump_read. pose proof pumpChunk_pos as Hc. pose proof (sv_size Hsv) as Hs. unfold inside in Ho.
  set (end_ := if h_size h <? _ then _ else _). assert (off < end_ ≤ off + pumpChunk) as He by (unfold end_; case_match; lia).
  destruct (Z.ltb_spec poolSize (end_ - off)); [lia|].
  pose proof (sv_limit Hsv) as Hlim. rewrite Hs in Hlim.
  pose proof (ReadAt_ok MaxSize file (h_fileID h) Hlim (Z.to_nat (end_ - off)) off v r Hr Hv Ho) as Ha.
  destruct (NativeReader.ReadAt MaxSize _ off v r) as [[bs err] r']. destruct Ha as (Hr' & Hb & Hn). cbn [fst snd] in *.
  do 4 eexists. split; [done|]. split_and!; [lia|lia|done|]. destruct (0 <? _); [|done]. split; cbn [raCache diskWarmup].
  - eapply rtc_snoc; [exact Hra|]. apply step_Put; [lia|]. apply prefix_truthful; [lia|done].
  - by apply queue_warmup_ok.
Qed.

Lemma nativePumpChunk_ok st off playerOff now responsive v r w :
  0 ≤ off → reader_ok file (h_fileID h) r → caches_ok w → honest file (h_fileID h) v →
  chunk_ok off (nativePumpChunk h st off playerOff now responsive v r w).
Proof.
  intros Ho Hr [Hra Hw] Hv. unfold nativePumpChunk. pose proof pumpChunk_pos as Hc.
  destruct (Z.leb_spec (h_size h) off) as [|Hlt]; [do 4 eexists; split; [done|]; split_and!; [lia|lia|done|by split]|].
  destruct (pump_delay off playerOff); [|do 4 eexists; split; [done|]; split_and!; [lia|lia|done|by split]].
  assert (inside file off) as Hin by (rewrite (sv_size Hsv) in Hlt; by split).
  destruct (Get_wf sum64 ReadAheadBase content (raCache w) (h_path h) off off now) as [E|(bs & E & _)]; [by eapply reachable_wf|lia|..];
    destruct (Get _ _ _ _ _ _ _) as [data c] eqn:Eg; cbn [fst] in E; subst data;
    pose proof (Get_reach _ _ _ _ _ _ _ Hra Eg) as Hra'.
  - cbn [diskWarmup]. destruct (_ && _ && _).
    + destruct (coverage h now (diskWarmup w)) as [n d] eqn:Ec.
      assert (caches_ok (MkCaches c d)) as Hok by (split; [done|by eapply coverage_ok]).
      destruct (_ <=? n); [do 4 eexists; split; [done|]; by split_and!; [lia|lia|..]|by apply pump_read_ok].
    + by apply pump_read_ok.
  - do 4 eexists. split; [done|]. split_and!; [lia|lia|done|]. split; [done|by apply queue_warmup_ok].
Qed.

(** ** Runs *)

(** The pump among the other users of the reader and of the caches. *)
Inductive pump_step : pump → pump → Prop :=
  | ps_turn t p p' : honest file (h_fileID h) (outside t) → pump_turn h t p = Next p' → pump_step p p'
  | ps_reader r' p : reader_step MaxSize file (h_fileID h) (p_reader p) r' → pump_step p (MkPump (p_off p) (pumpedBytes p) r' (p_caches p))
  | ps_ra c' p : ra_step sum64 ReadAheadBase ReadAheadBudget content (raCache (p_caches p)) c' →
      pump_step p (MkPump (p_off p) (pumpedBytes p) (p_reader p) (MkCaches c' (diskWarmup (p_caches p))))
  | ps_warm d d' p : diskWarmup (p_caches p) = Some d → warm_step warmupFileSize DiskWarmupQuotaGB dir disk d d' →
      pump_step p (MkPump (p_off p) (pumpedBytes p) (p_reader p) (MkCaches (raCache (p_caches p)) (Some d'))).

Lemma pump_jump_ok t p : pump_ok p → pump_ok (pump_jump t p).
Proof. intros [Ho Hr Hc]. unfold pump_jump. destruct (_ <? _); [|done]. split; cbn; [|done..]. case_match; lia. Qed.

Definition turn_ok (x : turn) : Prop := match x with Next p | Exit p => pump_ok p | Panic => False end.

Lemma pump_turn_ok t p : pump_ok p → honest file (h_fileID h) (outside t) → turn_ok (pump_turn h t p).
Proof.
  intros Hp Hv. unfold pump_turn. destruct (cancelled t); [done|]. destruct (_ <? _); [done|].
  apply (pump_jump_ok t) in Hp. destruct (pump_jump t p) as [off pumped r w]. destruct Hp as [Ho Hr Hc]. cbn in *.
  destruct (nativePumpChunk_ok (handle_state t) off (player t) (now_ t) (resp t) (outside t) r w Ho Hr Hc Hv)
    as (stop & next & r' & w' & -> & Hn & Hr' & Hc').
  destruct stop; [case_match|]; split; cbn; done || lia.
Qed.

Lemma pump_step_ok p p' : pump_ok p → pump_step p p' → pump_ok p'.
Proof.
  intros Hp Hs. destruct Hs as [t p p' Hv Ht|r' p Hr'|c' p Hc'|d d' p Hd Hd'].
  - pose proof (pump_turn_ok t p Hp Hv) as H. by rewrite Ht in H.
  - destruct Hp as [Ho Hr Hc]. split; [done| |done]. eapply reader_step_ok; [|exact Hr|exact Hr'].
    rewrite <- (sv_size Hsv). apply (sv_limit Hsv).
  - destruct Hp as [Ho Hr [Hc Hw]]. split; [done..|]. split; [by eapply rtc_snoc|done].
  - destruct Hp as [Ho Hr [Hc Hw]]. split; [done..|]. split; [done|]. intros d1 [= <-]. eapply rtc_snoc; [by apply Hw|done].
Qed.

(** The state a pump starts in. *)
Lemma pump_start_ok startOffset t w :
  0 ≤ startOffset → caches_ok w → pump_ok (pump_start startOffset (NewStreamReader (h_fileID h) t) w).
Proof.
  intros Ho Hw. pose proof pumpChunk_pos. split; cbn; [|by split|done]. apply Z.mul_nonneg_nonneg; [|lia].
  apply Z.quot_pos; lia.
Qed.

Lemma pump_run_ok startOffset t w p :
  0 ≤ startOffset → caches_ok w →
  rtc pump_step (pump_start startOffset (NewStreamReader (h_fileID h) t) w) p → pump_ok p.
Proof.
  intros Ho Hw. revert p. apply rtc_ind_r; [by apply pump_start_ok|]. intros x y _ Hs Hx. by eapply pump_step_ok.
Qed.

(** ** Undisturbed runs *)

(** The player is near, nobody disturbs the reader, the pump is in use. *)
Definition calm (t : tick) (p : pump) : Prop :=
  cancelled t = false ∧ now_ t - lastActNano t ≤ timeoutLimit t ∧
  p_off p - ReadAheadBudget ≤ player t ≤ p_off p + ReadAheadBudget ∧ quiet file (h_fileID h) (outside t).

Fixpoint calm_run (ts : list tick) (p : pump) : Prop :=
  match ts with
  | [] => True
  | t :: ts => calm t p ∧ match pump_turn h t p with Next p' => calm_run ts p' | _ => True end
  end.

(** Where the next chunk begins. *)
Definition next_chunk (off : Z) : Z := Z.min (off + pumpChunk) (h_size h).

Lemma quiet_honest v : quiet file (h_fileID h) v → honest file (h_fileID h) v.
Proof. intros (_ & _ & _ & _ & _ & _ & _ & _ & _ & t & Ht & Hh & _) t' Ht'. congruence. Qed.

Lemma pump_read_quiet off now responsive v r w :
  inside file off → reader_full file (h_fileID h) r → quiet file (h_fileID h) v →
  let bs := take (Z.to_nat (next_chunk off - off)) (rest file off) in
  ∃ r', reader_full file (h_fileID h) r' ∧ Z.of_nat (length bs) = next_chunk off - off ∧
  pump_read h off now responsive v r w =
    Some (false, next_chunk off, r',
      MkCaches (Put sum64 ReadAheadBase ReadAheadBudget (h_path h) off (next_chunk off - 1) bs now responsive (raCache w)).2
        (queue_warmup h bs off (diskWarmup w))).
Proof.
  intros Ho Hr Hv bs. pose proof pumpChunk_pos as Hc. pose proof (sv_size Hsv) as Hs. pose proof (sv_limit Hsv) as Hlim. rewrite Hs in Hlim.
  unfold pump_read. set (end_ := if h_size h <? _ then _ else _).
  assert (end_ = next_chunk off) as -> by (unfold end_, next_chunk; case_match; lia).
  pose proof Ho as Ho'. unfold inside in Ho'. assert (off < next_chunk off ≤ off + pumpChunk) as He by (unfold next_chunk; lia).
  destruct (Z.ltb_spec poolSize (next_chunk off - off)); [lia|].
  pose proof (quiet_ReadAt MaxSize file (h_fileID h) Hlim (Z.to_nat (next_chunk off - off)) off v r Hr Hv Ho) as Ha.
  destruct (NativeReader.ReadAt MaxSize _ off v r) as [[bs' err] r']. destruct Ha as (-> & Hr' & ->). fold bs.
  assert (Z.of_nat (length bs) = next_chunk off - off) as Hl.
  { unfold bs, rest. rewrite length_take, length_drop. unfold next_chunk. lia. }
  exists r'. split_and!; [done|done|]. rewrite bool_decide_eq_false_2 by naive_solver.
  rewrite Hl. destruct (Z.ltb_spec 0 (next_chunk off - off)); [|lia]. by replace (off + (next_chunk off - off)) with (next_chunk off) by lia.
Qed.

(** A calm turn moves on, by a chunk or to the end. *)
Lemma pump_turn_calm t p :
  pump_ok p → reader_full file (h_fileID h) (p_reader p) → calm t p →
  match pump_turn h t p with
  | Next p' => p_off p < h_size h ∧ next_chunk (p_off p) ≤ p_off p' ∧ pump_ok p' ∧ reader_full file (h_fileID h) (p_reader p')
  | Exit p' => p_off p' = p_off p ∧ h_size h ≤ p_off p ∧ pump_ok p'
  | Panic => False
  end.
Proof.
  intros Hp Hf (Hc & Hi & Hpl & Hv). pose proof (pump_turn_ok t p Hp (quiet_honest _ Hv)) as Hok. revert Hok.
  unfold pump_turn. rewrite Hc. destruct (Z.ltb_spec (timeoutLimit t) (now_ t - lastActNano t)); [lia|].
  assert (pump_jump t p = p) as -> by (unfold pump_jump; case_match; [lia|done]). cbv zeta.
  unfold nativePumpChunk. pose proof pumpChunk_pos as Hch. destruct Hp as [Ho Hr [Hra Hw]].
  destruct (Z.leb_spec (h_size h) (p_off p)) as [Hge|Hlt].
  { intros Hok. cbn [p_off] in *. destruct (Z.ltb_spec (p_off p) (h_size h)); [lia|]. cbn. by split_and!. }
  assert (inside file (p_off p)) as Hin by (rewrite (sv_size Hsv) in Hlt; by split).
  assert (is_Some (pump_delay (p_off p) (player t))) as [z ->].
  { unfold pump_delay. destruct (Z.ltb_spec ReadAheadBudget (p_off p - player t)); [lia|]. case_match; eauto. }
  assert (∀ c d, let x := pump_read h (p_off p) (now_ t) (resp t) (outside t) (p_reader p) (MkCaches c d) in
    ∃ r' w', reader_full file (h_fileID h) r' ∧ x = Some (false, next_chunk (p_off p), r', w')) as Hread.
  { intros c d. destruct (pump_read_quiet (p_off p) (now_ t) (resp t) (outside t) (p_reader p) (MkCaches c d) Hin Hf Hv) as (r' & ? & ? & ->). eauto. }
  assert (next_chunk (p_off p) ≤ p_off p + pumpChunk) as Hnc by (unfold next_chunk; lia).
  destruct (Get _ _ _ _ _ _ _) as [[[data|]|] c]; [intros Hok; by split_and!| |done].
  destruct (_ && _ && _); [destruct (coverage h (now_ t) _) as [n d]; destruct (_ <=? n); [intros Hok; by split_and!|]|];
    match goal with |- context [MkCaches c ?d] => destruct (Hread c d) as (r' & w' & Hr' & ->) end; intros Hok; by split_and!.
Qed.

Lemma pump_run_calm n ts p :
  pump_ok p → reader_full file (h_fileID h) (p_reader p) → calm_run ts p →
  h_size h - p_off p ≤ Z.of_nat n * pumpChunk → (n < length ts)%nat →
  ∃ p', pump_run h ts p = Exit p' ∧ h_size h ≤ p_off p' ∧ pump_ok p'.
Proof.
  revert ts p. induction n as [|n IH]; intros [|t ts] p Hp Hf Hc Hd Hl; simpl in Hl; try lia; destruct Hc as [Hcalm Hc];
    pose proof (pump_turn_calm t p Hp Hf Hcalm) as Ht; simpl; destruct (pump_turn h t p) as [p'|p'|]; try done.
  - lia.
  - destruct Ht as (He & ? & ?). exists p'. split_and!; [done|lia|done].
  - destruct Ht as (? & Hn & Hp' & Hf'). apply IH; [done..| |lia]. unfold next_chunk in Hn.
    pose proof pumpChunk_pos. rewrite Nat2Z.inj_succ, Z.mul_succ_l in Hd.
    assert (0 ≤ Z.of_nat n * pumpChunk) by (apply Z.mul_nonneg_nonneg; lia). lia.
  - destruct Ht as (He & ? & ?). exists p'. split_and!; [done|lia|done].
Qed.

(** *** Properties *)


(** A chunk in an undisturbed run. At the end of the file the pump stops;
    too far ahead of the player it reads nothing; a chunk that is in memory or
    on disk is passed over; any other is read in full, from the offset to the
    next chunk or the end of the file, and exactly these bytes are put into the
    read-ahead cache and offered to the disk cache. *)
Theorem pump_chunk_fills st off playerOff now responsive v r w :
  0 ≤ off → caches_ok w → reader_full file (h_fileID h) r → quiet file (h_fileID h) v →
  let '(hit, c) := Get sum64 ReadAheadBase (h_path h) off off now (raCache w) in
  let onDisk := if String.eqb (h_hash h) "" || bool_decide (st ≠ stateWarmup) then 0 else (coverage h now (diskWarmup w)).1 in
  let d := if String.eqb (h_hash h) "" || bool_decide (st ≠ stateWarmup) then diskWarmup w else (coverage h now (diskWarmup w)).2 in
  let bs := take (Z.to_nat (next_chunk off - off)) (rest file off) in
  ∃ r', nativePumpChunk h st off playerOff now responsive v r w =
    if h_size h <=? off then Some (true, off, r', w)
    else if ReadAheadBudget <? off - playerOff then Some (false, off, r', w)
    else match hit with
    | Some (Some data) => Some (false, off + pumpChunk, r', MkCaches c (queue_warmup h data off (diskWarmup w)))
    | _ =>
        if off + pumpChunk <=? onDisk then Some (false, off + pumpChunk, r', MkCaches c d)
        else Some (false, next_chunk off, r',
          MkCaches (Put sum64 ReadAheadBase ReadAheadBudget (h_path h) off (next_chunk off - 1) bs now responsive c).2
            (queue_warmup h bs off d))
    end.
Proof.
  intros Ho [Hra Hw] Hf Hv. destruct (Get _ _ _ _ _ _ _) as [hit c] eqn:Eg. cbv zeta. pose proof pumpChunk_pos as Hch.
  unfold nativePumpChunk, pump_delay. destruct (Z.leb_spec (h_size h) off) as [|Hlt]; [by exists r|].
  destruct (ReadAheadBudget <? off - playerOff); [by exists r|]. rewrite Eg. cbn [raCache diskWarmup].
  assert (inside file off) as Hin by (rewrite (sv_size Hsv) in Hlt; by split).
  destruct (Get_wf sum64 ReadAheadBase content (raCache w) (h_path h) off off now) as [E|(bs & E & _)]; [by eapply reachable_wf|lia|..];
    rewrite Eg in E; cbn [fst] in E; subst hit; [|destruct (_ <? _); by exists r].
  set (cond := _ && _ && _). assert (cond = negb (String.eqb (h_hash h) "" || bool_decide (st ≠ stateWarmup)) && bool_decide (is_Some (diskWarmup w))) as ->.
  { unfold cond. rewrite bool_decide_not. destruct (String.eqb _ _), (bool_decide (st = stateWarmup)); done. }
  assert (∀ d, ∃ r', pump_read h off now responsive v r (MkCaches c d) = Some (false, next_chunk off, r',
      MkCaches (Put sum64 ReadAheadBase ReadAheadBudget (h_path h) off (next_chunk off - 1) (take (Z.to_nat (next_chunk off - off)) (rest file off)) now responsive c).2
        (queue_warmup h (take (Z.to_nat (next_chunk off - off)) (rest file off)) off d))) as Hread.
  { intros d. destruct (pump_read_quiet off now responsive v r (MkCaches c d) Hin Hf Hv) as (r' & _ & _ & ->). by exists r'. }
  assert ((off + pumpChunk <=? 0) = false) as Hz by lia.
  destruct (_ || _); cbn [negb andb].
  { rewrite Hz. destruct (Hread (diskWarmup w)) as [r' ->]. destruct (_ <? _); by exists r'. }
  destruct (diskWarmup w) as [d0|] eqn:Ed.
  - rewrite bool_decide_eq_true_2 by done. cbn [andb].
    destruct (coverage h now (Some d0)) as [n d]. cbn [fst snd].
    destruct (off + pumpChunk <=? n); [destruct (_ <? _); by exists r|]. destruct (Hread d) as [r' ->]. destruct (_ <? _); by exists r'.
  - rewrite bool_decide_eq_false_2 by (by intros [? ?]). cbn [andb coverage fst snd]. rewrite Hz.
    destruct (Hread None) as [r' ->]. destruct (_ <? _); by exists r'.
Qed.

(** C20: The pump comes to an end. While the player stays within the budget and
    nobody disturbs the reader, every turn moves on by a chunk or to the end of
    the file; as many turns as there are chunks left, and one more, bring the
    loop to its regular exit at the end of the file, with truthful caches. *)
Theorem pump_reaches_end n startOffset t0 w ts :
  0 ≤ startOffset → caches_ok w →
  calm_run ts (pump_start startOffset (NewStreamReader (h_fileID h) t0) w) →
  h_size h - (startOffset /t pumpChunk) * pumpChunk ≤ Z.of_nat n * pumpChunk → (n < length ts)%nat →
  ∃ p', pump_run h ts (pump_start startOffset (NewStreamReader (h_fileID h) t0) w) = Exit p' ∧
        h_size h ≤ p_off p' ∧ caches_ok (p_caches p').
Proof.
  intros Ho Hw Hc Hn Hl. destruct (pump_run_calm n ts _ (pump_start_ok startOffset t0 w Ho Hw)) with (2 := Hc) as (p' & ? & ? & []); eauto.
  by split.
Qed.
End truth.

(** The pump caches an error page. When the engine knows the torrent but has
    no metadata yet, a fresh reader gets the text of the error 404 from the
    pipe together with an error, and the pump, which looks at the number of
    bytes first, puts the text into the read-ahead cache as the contents of the
    file at the offset, and offers it to the disk cache. *)
Theorem pump_caches_error_page h off now responsive v t0 w tor :
  0 ≤ off → off + 20 ≤ h_size h → 20 ≤ pumpChunk → pumpChunk ≤ poolSize →
  peeked v = Some tor → t_info tor = false → final_flag v = false → hard_cut v = None →
  let page := http_error "404 page not found" in
  ∃ r', pump_read h off now responsive v (NewStreamReader (h_fileID h) t0) w =
    Some (true, off + 19, r',
      MkCaches (Put sum64 ReadAheadBase ReadAheadBudget (h_path h) off (off + 18) page now responsive (raCache w)).2
        (queue_warmup h page off (diskWarmup w))).
Proof.
  intros Ho Hs Hc Hp Hv Hi Hf Hh page. unfold pump_read. set (end_ := if h_size h <? _ then _ else _).
  assert (off + 20 ≤ end_ ≤ off + pumpChunk) as He by (unfold end_; case_match; lia). clearbody end_.
  destruct (Z.ltb_spec poolSize (end_ - off)); [lia|].
  unfold NativeReader.ReadAt, smart_seek, final_check, hard_seek, startStream. cbn [pipe NewStreamReader closed set_activity interrupted].
  rewrite Hv, Hf, Hh. cbn [raise_flag set_flag interrupted orb mbind option_bind pipe set_offset set_pipe].
  unfold pipe_read, ReadFull, deliver, streamTorrentToPipe, Stream. rewrite Hi. cbn [negb p_data p_end fst snd]. rewrite orb_true_r. fold page.
  assert (length page = 19%nat) as Hl by reflexivity. rewrite take_ge by lia. rewrite Hl.
  rewrite (proj2 (Nat.eqb_neq 19 _)) by lia. cbn [Nat.eqb]. rewrite !decide_False by done.
  eexists. cbn [interrupted set_activity NewStreamReader orb]. cbv beta iota. rewrite Hl, bool_decide_eq_true_2 by done. change (Z.of_nat 19) with 19. by replace (off + 19 - 1) with (off + 18) by lia.
Qed.
End pump.

(** ** Seeks *)

(** Opening reads, header probes and reads within the budget never interrupt
    the pump; otherwise the distance decides, in both directions alike. *)
Lemma shouldInterruptForSeek_spec prevOff off budget :
  0 ≤ budget →
  shouldInterruptForSeek prevOff off budget = true ↔ 0 < prevOff ∧ off ≠ 0 ∧ budget < Z.abs (off - prevOff).
Proof. intros Hb. unfold shouldInterruptForSeek. case_match; lia. Qed.

(** ** Witnesses *)

Module PumpRun.
Definition sum (s : string) : Z := Z.of_nat (String.length s).
Definition file : list byte := [Byte.x01; Byte.x02; Byte.x03; Byte.x04; Byte.x05].
Definition content (p : string) (o : Z) : byte := default Byte.x00 (file !! Z.to_nat o).
Definition disk (p : string) (j : nat) : byte := Byte.x00.
Definition h : MkvHandle := MkMkv "a" "cafe" 2 5.
Definition tor (info : bool) : torrent := MkTorrent info [[]; file] true.
Definition v (info : bool) : env := MkEnv 0 None false None None false false (Some (tor info)) 64 false None.
Definition t (player : Z) : tick := MkTick false stateStreaming 0 None 0 true player false (v true).
Definition w0 : caches := MkCaches newReadAheadCache None.
Definition p0 : pump := pump_start 4 0 (NewStreamReader 2 0) w0.
Definition ts : list tick := [t 0; t 4; t 8].

Lemma serves_file : serves 4 0 content h file.
Proof. split; [reflexivity|by left|done|]. intros j x Hj. unfold content. by rewrite Nat2Z.id, Hj. Qed.

Lemma w0_ok `{SliceSort} : caches_ok sum 4 8 0 "/w" 0 content disk w0.
Proof. split; [apply rtc_refl|done]. Qed.

Lemma quiet_v : quiet file 2 (v true).
Proof.
  split_and!; try reflexivity; [simpl; lia|]. exists (tor true). by split_and!; [|split; reflexivity|].
Qed.

Lemma calm_ts : calm_run sum 4 8 0 "/w" 0 h file ts p0.
Proof.
  assert (∀ z p, p_off p - 8 ≤ z ≤ p_off p + 8 → calm 8 h file (t z) p) as Hcalm.
  { intros z p Hz. split_and!; [done|by vm_compute|cbn; lia|cbn; lia|apply quiet_v]. }
  unfold ts, p0. cbn [calm_run]. split; [apply Hcalm; by vm_compute|].
  destruct (pump_turn _ _ _ _ _ _ _ (t 0) _) as [p1| |] eqn:E1; [|done..].
  assert (p_off p1 = 4) by (by vm_compute in E1; injection E1 as <-). split; [apply Hcalm; lia|].
  destruct (pump_turn _ _ _ _ _ _ _ (t 4) p1) as [p2| |] eqn:E2; [|done..].
  assert (p_off p2 = 5) by (vm_compute in E1; injection E1 as <-; vm_compute in E2; by injection E2 as <-).
  split; [apply Hcalm; lia|]. by destruct (pump_turn _ _ _ _ _ _ _ (t 8) p2).
Qed.
End PumpRun.


Lemma pump_chunk_fills_witness :
  ∃ r' c, nativePumpChunk PumpRun.sum 4 8 0 "/w" 0 PumpRun.h stateStreaming 0 0 0 false (PumpRun.v true)
    (NewStreamReader 2 0) PumpRun.w0 = Some (false, 4, r', MkCaches c None) ∧
    (Get PumpRun.sum 4 "a" 1 3 0 c).1 = Some (Some [Byte.x02; Byte.x03; Byte.x04]).
Proof.
  destruct (pump_chunk_fills PumpRun.sum 4 8 0 "/w" 0 0 PumpRun.content PumpRun.disk PumpRun.h PumpRun.file PumpRun.serves_file
    stateStreaming 0 0 0 false (PumpRun.v true) (NewStreamReader 2 0) PumpRun.w0) as [r' Hr'];
    [lia|apply PumpRun.w0_ok|by split|apply PumpRun.quiet_v|].
  exists r'. eexists. rewrite Hr'. split; [vm_compute; reflexivity|vm_compute; reflexivity].
Defined.

Lemma pump_reaches_end_witness :
  ∃ p', pump_run PumpRun.sum 4 8 0 "/w" 0 PumpRun.h PumpRun.ts PumpRun.p0 = Exit p' ∧ p_off p' = 5.
Proof.
  destruct (pump_reaches_end PumpRun.sum 4 8 0 "/w" 0 0 PumpRun.content PumpRun.disk PumpRun.h PumpRun.file PumpRun.serves_file
    2 0 0 PumpRun.w0 PumpRun.ts) as (p' & Hp & _); [lia|apply PumpRun.w0_ok|apply PumpRun.calm_ts|by vm_compute|simpl; lia|].
  exists p'. split; [exact Hp|]. vm_compute in Hp. by injection Hp as <-.
Defined.

(** The page is what the cache serves for the file from then on. *)
Lemma pump_caches_error_page_witness :
  let h := MkMkv "a" "cafe" 2 100 in
  ∃ r' c, pump_read PumpRun.sum 32 64 0 0 h 0 0 false (PumpRun.v false) (NewStreamReader 2 0) PumpRun.w0 =
    Some (true, 19, r', MkCaches c None) ∧ (Get PumpRun.sum 32 "a" 0 18 0 c).1 = Some (Some (http_error "404 page not found")).
Proof.
  intros h. destruct (pump_caches_error_page PumpRun.sum 32 64 0 0 h 0 0 false (PumpRun.v false) 0 PumpRun.w0 (PumpRun.tor false)) as [r' Hr'];
    try reflexivity; try by vm_compute.
  exists r'. eexists. change 2 with (h_fileID h) at 1. rewrite Hr'. split; [reflexivity|vm_compute; reflexivity].
Defined.
