(* ===== verification/ReadPath.v ===== *)
(** * The read path (main.go)

    [MkvHandle.Read] answers a read of the file system from the first source
    that has the bytes: the disk warm-up cache at the start of the file, its
    tail file while a scanner probes the end, the read-ahead cache, and, after
    it has waited for a slot, a block fetched from the engine. What it fetches
    goes back into the caches, and it may start a prefetch of the next chunk.

    The state of the handle is threaded; whatever other goroutines do to the
    caches while a read waits are functions of the call's environment. The
    pump it may start is in the file on the pump. *)

From S2P Require Import Prelude RaCache DiskWarmup NativeReader Pump.

Section readpath.
Context (sum64 : string → Z) (ReadAheadBase ReadAheadInitial ReadAheadBudget : Z).
Context (StreamingThreshold SequentialTolerance WarmStartIdleSeconds : Z).
Context (warmupFileSize DiskWarmupQuotaGB : Z) (dir : string) (MaxSize : Z) {slice_sort : SliceSort}.

(** The part of the handle that reads change. *)
Record mkv := MkMkvState {
  hash : string;
  file_id : Z;
  lastOff : Z;
  lastLen : Z;
  lastTime : Z;
  lastActivityTime : Z;
  lastGlobalUpdate : Z;
  state : handleState;
  hasSlot : bool;
  nativeReader : bool;
}.

Inductive errno := EINTR | ETIMEDOUT | EIO | ELimit.

(** What a fetch of a block meets. *)
Record fetch_env := MkFetch { f_torrent : option torrent; f_sent : nat; f_panics : bool; f_cut : option (nat * io_error) }.

(** What a read meets. *)
Record read_env := MkReadEnv {
  r_now : Z;
  resolved : option (string * Z);
  confirmed : option bool;
  tail_fetch : fetch_env;
  pump_active : bool;
  r_healthy : bool;
  slot_free : bool;
  slot_wait : option errno;
  limiter_ok : bool;
  meanwhile1 : caches → caches;
  attempts : list (fetch_env * bool);
  meanwhile2 : caches → caches;
  r_responsive : bool;
}.

(** ** The handle *)

Definition set_id (x : option (string * Z)) (m : mkv) : mkv :=
  match x with
  | Some (s, i) => if String.eqb (hash m) "" then MkMkvState s i (lastOff m) (lastLen m) (lastTime m) (lastActivityTime m)
                     (lastGlobalUpdate m) (state m) (hasSlot m) (nativeReader m) else m
  | None => m
  end.
Definition set_last (off len t : Z) (m : mkv) : mkv :=
  MkMkvState (hash m) (file_id m) off len t (lastActivityTime m) (lastGlobalUpdate m) (state m) (hasSlot m) (nativeReader m).
Definition set_state (s : handleState) (m : mkv) : mkv :=
  MkMkvState (hash m) (file_id m) (lastOff m) (lastLen m) (lastTime m) (lastActivityTime m) (lastGlobalUpdate m) s (hasSlot m) (nativeReader m).
Definition set_slot (m : mkv) : mkv :=
  MkMkvState (hash m) (file_id m) (lastOff m) (lastLen m) (lastTime m) (lastActivityTime m) (lastGlobalUpdate m) (state m) true true.

(** The activity of the handle; the cleanup manager hears of it once a minute. *)
Definition touch_handle (now : Z) (m : mkv) : mkv :=
  MkMkvState (hash m) (file_id m) (lastOff m) (lastLen m) (lastTime m) now
    (if 60 * 1000000000 <? now - lastGlobalUpdate m then now else lastGlobalUpdate m) (state m) (hasSlot m) (nativeReader m).

(** ** State transitions *)

(** From the warm-up phase to streaming: a resume, or a jump. *)
Definition seek_state (prevOff off : Z) (st : handleState) : handleState :=
  match st with
  | stateWarmup =>
      let isSeek :=
        if prevOff =? -1 then warmupFileSize <=? off
        else if off =? 0 then false
        else (prevOff + ReadAheadBudget <? off) || (off + ReadAheadBudget <? prevOff) in
      if isSeek then stateStreaming else stateWarmup
  | st => st
  end.

(** 5% of the file, between 64 MiB and 2 GiB. *)
Definition dynamicThreshold (size : Z) : Z :=
  let t := size /t 20 in
  let t := if t <? 64 * MiB then 64 * MiB else t in
  if 2 * 1024 * MiB <? t then 2 * 1024 * MiB else t.

(** From the warm-up phase to a tail probe: a read of the tail of a file whose
    playback is not confirmed. *)
Definition tail_state (h_hash : string) (size off : Z) (conf : option bool) (st : handleState) : handleState :=
  let t := dynamicThreshold size in
  if bool_decide (st = stateWarmup) && negb (String.eqb h_hash "") && (t <? size) && (size - t <=? off) && negb (default false conf)
  then stateTailProbe else st.

(** Whether the pump is interrupted, and the state after it. *)
Definition seek_interrupt (prevOff off : Z) (m : mkv) : bool * handleState :=
  if nativeReader m && bool_decide (state m ≠ stateTailProbe) && shouldInterruptForSeek prevOff off ReadAheadBudget
  then (true, stateStreaming) else (false, state m).

(** ** Sequential reads *)

(** [isSeq], which is computed after the offset of this read was stored. *)
Definition isSeq (off : Z) (m : mkv) : bool :=
  (off =? lastOff m + lastLen m) || ((0 <=? lastOff m) && (Z.abs (off - (lastOff m + lastLen m)) <=? SequentialTolerance)).

Definition isStreaming (off len : Z) (m : mkv) : bool := (StreamingThreshold <=? len) || isSeq off m.

(** How much is fetched. *)
Definition fetchSize (size off len : Z) (streaming firstBlock : bool) : Z :=
  if streaming then
    let raSize := if firstBlock then ReadAheadInitial else ReadAheadBase in
    let fetchEnd := off + raSize - 1 in
    (if size <=? fetchEnd then size - 1 else fetchEnd) - off + 1
  else len.

(** ** Slots *)

(** Attach to a running pump, start one for a confirmed playback, or wait for a
    slot for this read alone. *)
Definition take_slot (streaming : bool) (v : read_env) (m : mkv) : mkv + errno :=
  if hasSlot m then inl m
  else if pump_active v then inl (set_slot m)
  else if streaming && negb (String.eqb (hash m) "") && r_healthy v && slot_free v then inl (set_slot m)
  else match slot_wait v with None => inl m | Some e => inr e end.

(** ** Prefetches *)

(** The chunk a hit prefetches. *)
Definition nextChunkStart (off : Z) : Z := (off /t ReadAheadBase + 1) * ReadAheadBase.

Definition prefetchKey (path : string) (start : Z) : string := path +:+ ":" +:+ pretty start.

(** A prefetch is started unless one for the chunk is in flight. *)
Definition start_prefetch (path : string) (start : Z) (inflight : gset string) : option Z * gset string :=
  let key := prefetchKey path start in
  if bool_decide (key ∈ inflight) then (None, inflight) else (Some start, {[key]} ∪ inflight).

Definition prefetch_on_hit (path : string) (off : Z) (m : mkv) (c : ReadAheadCache) (inflight : gset string) : option Z * gset string :=
  let next := nextChunkStart off in
  if (negb (hasSlot m) || (next - off <? ReadAheadBase /t 4)) && negb (Exists sum64 ReadAheadBase path next c)
  then start_prefetch path next inflight else (None, inflight).

Definition prefetch_on_miss (path : string) (off : Z) (streaming : bool) (m : mkv) (c : ReadAheadCache) (inflight : gset string)
    : option Z * gset string :=
  let next := nextChunkStart off in
  let isLagging := MaxCachedOffset sum64 path c <? next in
  if streaming && (negb (hasSlot m) || isLagging) && (next - off <? ReadAheadBase /t 4)
  then start_prefetch path next inflight else (None, inflight).

(** The goroutine: [ready] says that it got its slot, and after a miss also
    that the chunk is still absent and the rate limiter lets it pass. *)
Definition prefetch (path : string) (size : Z) (m : mkv) (start : Z) (ready : bool) (f : fetch_env) (now : Z) (resp : bool)
    (c : ReadAheadCache) (inflight : gset string) : ReadAheadCache * gset string :=
  let fetchEnd := start + ReadAheadBase - 1 in
  let fetchEnd := if size <=? fetchEnd then size - 1 else fetchEnd in
  let c :=
    if fetchEnd <=? start then c
    else if negb ready then c
    else if String.eqb (hash m) "" then c
    else
      let limit := Z.min (poolSize ReadAheadBase) (fetchEnd - start + 1) in
      let '(bs, err) := FetchBlock MaxSize (file_id m) start (Z.to_nat limit) (f_torrent f) (f_sent f) (f_panics f) (f_cut f) in
      if bool_decide (err = None) && (0 <? length bs)%nat
      then (Put sum64 ReadAheadBase ReadAheadBudget path start (start + Z.of_nat (length bs) - 1) bs now resp c).2 else c in
  (c, inflight ∖ {[prefetchKey path start]}).

(** ** Read *)

Record outcome := MkOut {
  answer : list byte + errno;
  handle : mkv;
  out_caches : caches;
  in_flight : gset string;
  started : option Z;
  interrupts : bool;
}.

(** The first part: the handle's fields, its state and the pump. *)
Definition read_begin (size off : Z) (v : read_env) (m : mkv) : mkv * bool * bool :=
  let firstBlock := (off =? 0) || (WarmStartIdleSeconds * 1000000000 <? r_now v - lastActivityTime m) in
  let m := touch_handle (r_now v) (set_id (resolved v) m) in
  let prevOff := lastOff m in
  let m := set_last off (lastLen m) (lastTime m) m in
  let m := set_state (tail_state (hash m) size off (confirmed v) (seek_state prevOff off (state m))) m in
  let '(intr, st) := seek_interrupt prevOff off m in
  (set_state st m, intr, firstBlock).

(** The head of the file, from disk. *)
Definition serve_head (len : nat) (off now : Z) (m : mkv) (w : caches) : list byte * caches :=
  match diskWarmup w with
  | Some d =>
      if negb (String.eqb (hash m) "") && bool_decide (state m = stateWarmup) then
        let '(cov, d) := GetAvailableRange warmupFileSize dir (hash m) (file_id m) now d in
        if off <? cov then
          let '(bs, d) := DiskWarmup.ReadAt warmupFileSize dir (hash m) (file_id m) len off now d in (bs, MkCaches (raCache w) (Some d))
        else ([], MkCaches (raCache w) (Some d))
      else ([], w)
  | None => ([], w)
  end.

(** The tail of the file, from disk or fetched; [None] is a panic. *)
Definition serve_tail (len : nat) (off size now : Z) (f : fetch_env) (m : mkv) (w : caches) : option (list byte * caches) :=
  match diskWarmup w with
  | Some d =>
      if bool_decide (state m = stateTailProbe) then
        let '(bs, d) := ReadTail dir (hash m) (file_id m) len off size now d in
        if (0 <? length bs)%nat then Some (bs, MkCaches (raCache w) (Some d))
        else
          let '(bs, err) := FetchBlock MaxSize (file_id m) off len (f_torrent f) (f_sent f) (f_panics f) (f_cut f) in
          if bool_decide (err = None) && (0 <? length bs)%nat then
            d ← WriteTail dir (hash m) (file_id m) bs off size now d; Some (bs, MkCaches (raCache w) (Some d))
          else Some ([], MkCaches (raCache w) (Some d))
      else Some ([], w)
  | None => Some ([], w)
  end.

(** Up to three attempts to fetch the block; between two of them the request
    may be given up. *)
Fixpoint fetch_attempts (id off : Z) (n : nat) (k : nat) (fs : list (fetch_env * bool)) : option (list byte + errno) :=
  match k, fs with
  | S k', (f, done_) :: fs' =>
      let '(bs, err) := FetchBlock MaxSize id off n (f_torrent f) (f_sent f) (f_panics f) (f_cut f) in
      if bool_decide (err = None) && (0 <? length bs)%nat then Some (inl bs)
      else if (0 <? k')%nat && done_ then Some (inr EINTR)
      else fetch_attempts id off n k' fs'
  | _, _ => None
  end.

(** What was fetched goes into the caches; [None] is a panic. *)
Definition store_block (path : string) (size off : Z) (bs : list byte) (v : read_env) (m : mkv) (w : caches) : option caches :=
  let c := (Put sum64 ReadAheadBase ReadAheadBudget path off (off + Z.of_nat (length bs) - 1) bs (r_now v) (r_responsive v) (raCache w)).2 in
  match diskWarmup w with
  | Some d =>
      if String.eqb (hash m) "" then Some (MkCaches c (Some d))
      else if off <=? warmupFileSize then Some (MkCaches c (Some (WriteChunk warmupFileSize (hash m) (file_id m) bs off d)))
      else if (tailWarmupSize <? size) && (size - tailWarmupSize <=? off) && negb (default false (confirmed v)) then
        d ← WriteTail dir (hash m) (file_id m) bs off size (r_now v) d; Some (MkCaches c (Some d))
      else Some (MkCaches c (Some d))
  | None => Some (MkCaches c None)
  end.

(** The fetch, from the second look at the cache on. *)
Definition read_fetch (path : string) (size off : Z) (dest : list byte) (streaming firstBlock intr : bool) (v : read_env)
    (m : mkv) (w : caches) (inflight : gset string) : option outcome :=
  let len := Z.of_nat (length dest) in
  '(n, dest', c) ← match CopyTo sum64 ReadAheadBase path off (off + len - 1) (r_now v) dest (raCache w) with
                   | (Some (n, dest'), c) => Some (n, dest', c) | (None, _) => None end;
  let w := MkCaches c (diskWarmup w) in
  if 0 <? n then Some (MkOut (inl (take (Z.to_nat n) dest')) (set_last off n (r_now v) m) w inflight None intr)
  else if String.eqb (hash m) "" then Some (MkOut (inr EIO) m w inflight None intr)
  else
    let limit := Z.min (fetchSize size off len streaming firstBlock) (poolSize ReadAheadBase) in
    if limit <? 0 then None
    else match fetch_attempts (file_id m) off (Z.to_nat limit) 3 (attempts v) with
    | None => Some (MkOut (inr EIO) m w inflight None intr)
    | Some (inr e) => Some (MkOut (inr e) m w inflight None intr)
    | Some (inl bs) =>
        w ← store_block path size off bs v m (meanwhile2 v w);
        let m := set_last off len (lastTime m) m in
        let '(job, inflight) := prefetch_on_miss path off streaming m (raCache w) inflight in
        Some (MkOut (inl (take (length dest) bs)) m w inflight job intr)
    end.

Definition Read (path : string) (size off : Z) (dest : list byte) (v : read_env) (m : mkv) (w : caches) (inflight : gset string)
    : option outcome :=
  let len := Z.of_nat (length dest) in
  if size <=? off then Some (MkOut (inl []) m w inflight None false)
  else
    let '(m, intr, firstBlock) := read_begin size off v m in
    let '(bs, w) := serve_head (length dest) off (r_now v) m w in
    if (0 <? length bs)%nat then Some (MkOut (inl bs) (set_last off (Z.of_nat (length bs)) (r_now v) m) w inflight None intr)
    else
      '(bs, w) ← serve_tail (length dest) off size (r_now v) (tail_fetch v) m w;
      if (0 <? length bs)%nat then Some (MkOut (inl bs) (set_last off (Z.of_nat (length bs)) (r_now v) m) w inflight None intr)
      else
        '(n, dest', c) ← match CopyTo sum64 ReadAheadBase path off (off + len - 1) (r_now v) dest (raCache w) with
                         | (Some (n, dest'), c) => Some (n, dest', c) | (None, _) => None end;
        let w := MkCaches c (diskWarmup w) in
        if 0 <? n then
          let '(job, inflight) := prefetch_on_hit path off m c inflight in
          Some (MkOut (inl (take (Z.to_nat n) dest')) (set_last off n (r_now v) m) w inflight job intr)
        else
          let streaming := isStreaming off len m in
          let m := set_last off len (r_now v) m in
          match take_slot streaming v m with
          | inr e => Some (MkOut (inr e) m w inflight None intr)
          | inl m =>
              if negb streaming && negb (limiter_ok v) then Some (MkOut (inr ELimit) m w inflight None intr)
              else read_fetch path size off dest streaming firstBlock intr v m (meanwhile1 v w) inflight
          end.

(** ** What a read returns *)

Section truth.
Context (content : string → Z → byte) (disk : string → nat → byte).
Context (path : string) (size : Z) (file : list byte).

Abbreviation ra_ok := (reachable sum64 ReadAheadBase ReadAheadBudget content).
Abbreviation warm_ok := (warm_reachable warmupFileSize DiskWarmupQuotaGB dir disk).
Abbreviation caches_ok := (Pump.caches_ok sum64 ReadAheadBase ReadAheadBudget warmupFileSize dir DiskWarmupQuotaGB content disk).

Context (Hsv : serves ReadAheadBase MaxSize content (MkMkv path "" 0 size) file).
Context (Hbase : 0 < ReadAheadBase) (Hinit : 0 < ReadAheadInitial).

(** The bytes are those of the file. *)
Abbreviation bytes_of off bs := (truthful content path off bs).

(** The name of the file on disk and its number in the torrent are right. *)
Record identified (m : mkv) : Prop := {
  id_head j : disk (filePath dir (hash m) (file_id m)) j = content path (Z.of_nat j);
  id_tail j : disk (tailPath dir (hash m) (file_id m)) j = content path (tailStart size + Z.of_nat j);
}.

Definition fetch_ok (m : mkv) (f : fetch_env) : Prop := ∀ t, f_torrent f = Some t → holds file (file_id m) t.

Lemma GetAvailableRange_reach hsh i now d n d' :
  GetAvailableRange warmupFileSize dir hsh i now d = (n, d') → warm_ok d → warm_ok d'.
Proof. intros E Hd. eapply rtc_r; [exact Hd|]. change d' with (n, d').2. rewrite <- E. constructor. Qed.

Lemma warm_ReadAt_reach hsh i len off now d bs d' :
  DiskWarmup.ReadAt warmupFileSize dir hsh i len off now d = (bs, d') → warm_ok d → warm_ok d'.
Proof. intros E Hd. eapply rtc_r; [exact Hd|]. change d' with (bs, d').2. rewrite <- E. constructor. Qed.

Lemma serve_head_ok len off now m w bs w' :
  serve_head len off now m w = (bs, w') → 0 ≤ off → caches_ok w → identified m →
  caches_ok w' ∧ (length bs ≤ len)%nat ∧ bytes_of off bs.
Proof.
  intros E Ho [Hra Hw] Hid. assert (caches_ok w ∧ (length ([] : list byte) ≤ len)%nat ∧ bytes_of off []) as Hnone by (split_and!; [by split|simpl; lia|done]).
  unfold serve_head in E. destruct (diskWarmup w) as [d|] eqn:Ed; [|by injection E as <- <-].
  destruct (_ && _); [|by injection E as <- <-].
  destruct (GetAvailableRange _ _ _ _ _ d) as [cov d1] eqn:Eg. specialize (Hw d eq_refl).
  pose proof (GetAvailableRange_reach _ _ _ _ _ _ Eg Hw) as Hd1.
  destruct (_ <? cov); [|injection E as <- <-; split_and!; [split; [done|by intros ? [= <-]]|simpl; lia|done]].
  destruct (DiskWarmup.ReadAt _ _ _ _ _ _ _ d1) as [bs1 d2] eqn:Er. injection E as <- <-.
  destruct (DiskWarmup.ReadAt_true warmupFileSize dir disk (hash m) (file_id m) len off now d1) as [Hl Ht]; [by eapply warm_reachable_inv|done|].
  rewrite Er in Hl, Ht. split_and!; [split; [done|]|done|].
  - intros ? [= <-]. by eapply warm_ReadAt_reach.
  - intros j x Hj. rewrite (Ht j x Hj), (id_head _ Hid). f_equal. lia.
Qed.

(** A block that counts as fetched. *)
Lemma fetched_ok m f off n bs err :
  FetchBlock MaxSize (file_id m) off n (f_torrent f) (f_sent f) (f_panics f) (f_cut f) = (bs, err) →
  0 ≤ off < size → fetch_ok m f → (0 < n)%nat → (length bs ≤ n)%nat ∧ bytes_of off bs.
Proof.
  intros E Ho Hf Hn. assert (Z.of_nat (length file) = size) as Hs by (by rewrite <- (sv_size _ _ _ _ _ Hsv)).
  assert (inside file off) as Hin by (split; lia).
  assert (MaxSize ≤ 0 ∨ Z.of_nat (length file) ≤ MaxSize) as Hlim by (rewrite Hs; apply (sv_limit _ _ _ _ _ Hsv)).
  destruct (FetchBlock_prefix MaxSize file (file_id m) Hlim n off (f_torrent f) (f_sent f) (f_panics f) (f_cut f) Hn Hin Hf) as [Hp Hl].
  rewrite E in Hp, Hl. split; [done|]. apply (prefix_truthful _ _ _ _ _ Hsv); [lia|done].
Qed.

Lemma WriteTail_some hsh i bs off now d : 0 ≤ off < size → is_Some (WriteTail dir hsh i bs off size now d).
Proof.
  intros Ho. unfold WriteTail. destruct (Z.ltb_spec off (tailStart size)); [eauto|].
  assert (is_Some (clip_tail bs (off - tailStart size))) as [bs' ->].
  { unfold clip_tail. destruct (Z.ltb_spec tailWarmupSize (off - tailStart size + Z.of_nat (length bs))); [|eauto].
    unfold slice. rewrite (proj2 (andb_true_iff _ _)); [eauto|]. unfold tailStart in *. destruct (size - tailWarmupSize <? 0) eqn:?; lia. }
  cbn [mbind option_bind]. repeat (case_match || eauto).
Qed.

Lemma serve_tail_ok len off now f m w :
  0 ≤ off < size → (0 < len)%nat → caches_ok w → identified m → fetch_ok m f →
  ∃ bs w', serve_tail len off size now f m w = Some (bs, w') ∧ ra_ok (raCache w') ∧ (length bs ≤ len)%nat ∧ bytes_of off bs.
Proof.
  intros Ho Hl [Hra Hw] Hid Hf. unfold serve_tail.
  assert (∀ w', raCache w' = raCache w → ∃ bs w'', Some ([] : list byte, w') = Some (bs, w'') ∧ ra_ok (raCache w'') ∧ (length bs ≤ len)%nat ∧ bytes_of off bs) as Hnone.
  { intros w' Hw'. exists [], w'. rewrite Hw'. split_and!; [done|done|simpl; lia|done]. }
  destruct (diskWarmup w) as [d|] eqn:Ed; [|by apply Hnone]. destruct (bool_decide _); [|by apply Hnone].
  destruct (ReadTail _ _ _ _ _ _ _ d) as [bs d1] eqn:Er.
  destruct (ReadTail_true dir disk (hash m) (file_id m) len off size now d) as (Hbl & Hbt & Hbo); [eapply warm_reachable_inv; by apply Hw|].
  rewrite Er in Hbl, Hbt, Hbo. cbn [fst] in *. destruct (Nat.ltb_spec 0 (length bs)).
  - do 2 eexists. split_and!; [done|done|done|]. intros j x Hj. rewrite (Hbt j x Hj), (id_tail _ Hid). f_equal.
    assert (tailStart size ≤ off) by (apply Hbo; by intros ->). lia.
  - destruct (FetchBlock _ _ _ _ _ _ _ _) as [bs' err] eqn:Ef. destruct (fetched_ok m f off len bs' err Ef Ho Hf Hl) as [Hl' Ht'].
    destruct (_ && _); [|by apply Hnone]. destruct (WriteTail_some (hash m) (file_id m) bs' off now d1 Ho) as [d2 ->].
    cbn [mbind option_bind]. do 2 eexists. by split_and!.
Qed.

(** The answer of a look at the read-ahead cache, and the cache after it. *)
Lemma CopyTo_served off now dest c :
  ra_ok c → dest ≠ [] →
  ∃ n dest' c', CopyTo sum64 ReadAheadBase path off (off + Z.of_nat (length dest) - 1) now dest c = (Some (n, dest'), c') ∧
    ra_ok c' ∧ (0 < n → (0 < length (take (Z.to_nat n) dest') ≤ length dest)%nat ∧ bytes_of off (take (Z.to_nat n) dest')).
Proof.
  intros Hc Hd. assert (0 < length dest)%nat as Hl by (destruct dest; simpl; [done|lia]).
  destruct (CopyTo _ _ _ _ _ _ _ _) as [x c'] eqn:E.
  assert (ra_ok c') as Hc' by (eapply rtc_r; [exact Hc|]; change c' with (x, c').2; rewrite <- E; constructor).
  destruct (CopyTo_wf sum64 ReadAheadBase content c path off (off + Z.of_nat (length dest) - 1) now dest) as [Ex|(bs & Ex & Hbl & Hbt)];
    [by eapply reachable_wf|lia|..]; rewrite E in Ex; cbn [fst] in Ex; subst x; do 3 eexists; (split_and!; [done|done|]); [lia|].
  intros _. assert (length bs = length dest) as Hbd by lia. rewrite Hbd, Nat.min_id, Nat2Z.id.
  rewrite take_app_le by (rewrite length_take; lia). rewrite take_take, Nat.min_id, (take_ge bs) by lia. split; [lia|done].
Qed.

Lemma fetch_attempts_ok m off n k fs bs :
  fetch_attempts (file_id m) off n k fs = Some (inl bs) → 0 ≤ off < size → (0 < n)%nat → Forall (λ f, fetch_ok m f.1) fs →
  (0 < length bs)%nat ∧ bytes_of off bs.
Proof.
  intros E Ho Hn. revert k E. induction fs as [|[f b] fs IH]; intros [|k] E; [done..|]. intros [Hf Hfs]%Forall_cons.
  cbn [fetch_attempts] in E. destruct (FetchBlock _ _ _ _ _ _ _ _) as [bs' err] eqn:Ef.
  destruct (fetched_ok m f off n bs' err Ef Ho Hf Hn) as [_ Ht]. destruct (_ && (0 <? length bs')%nat) eqn:Ec.
  - injection E as <-. apply andb_true_iff in Ec as [_ ?%Nat.ltb_lt]. done.
  - destruct (_ && b); [done|]. by apply (IH k).
Qed.

Lemma store_block_ok off bs v m w :
  0 ≤ off < size → ra_ok (raCache w) → bytes_of off bs →
  ∃ w', store_block path size off bs v m w = Some w' ∧ ra_ok (raCache w').
Proof.
  intros Ho Hra Hb. unfold store_block. set (c := (Put _ _ _ _ _ _ _ _ _ _).2).
  assert (ra_ok c) as Hc by (eapply rtc_r; [exact Hra|]; apply step_Put; [lia|done]). clearbody c.
  destruct (diskWarmup w) as [d|]; [|eauto]. destruct (String.eqb _ _); [eauto|]. destruct (off <=? _); [eauto|].
  destruct (_ && _ && _); [|eauto].
  destruct (WriteTail_some (hash m) (file_id m) bs off (r_now v) d Ho) as [d' ->]. cbn [mbind option_bind]. eauto.
Qed.

(** What a read ends in. *)
Definition outcome_ok (off : Z) (dest : list byte) (x : option outcome) : Prop :=
  ∃ o, x = Some o ∧ ra_ok (raCache (out_caches o)) ∧
  match answer o with inl bs => (0 < length bs ≤ length dest)%nat ∧ bytes_of off bs | inr _ => True end.

(** Other goroutines leave the read-ahead cache truthful. *)
Definition benign (f : caches → caches) : Prop := ∀ w, ra_ok (raCache w) → ra_ok (raCache (f w)).

Lemma read_fetch_ok off dest streaming firstBlock intr v m w inflight :
  0 ≤ off < size → dest ≠ [] → ra_ok (raCache w) → benign (meanwhile2 v) → Forall (λ f, fetch_ok m f.1) (attempts v) →
  outcome_ok off dest (read_fetch path size off dest streaming firstBlock intr v m w inflight).
Proof.
  intros Ho Hd Hra Hmw Hat. unfold read_fetch. assert (0 < length dest)%nat as Hl by (destruct dest; simpl; [done|lia]).
  destruct (CopyTo_served off (r_now v) dest (raCache w) Hra Hd) as (n & dest' & c & -> & Hc & Hn). cbn [mbind option_bind].
  destruct (Z.ltb_spec 0 n) as [Hpos|_]; [destruct (Hn Hpos); eexists; by split_and!|].
  destruct (String.eqb _ _); [eexists; by split_and!|].
  set (limit := Z.min _ _). assert (0 < limit) as Hlim.
  { unfold limit, fetchSize, poolSize. repeat case_match; lia. }
  destruct (Z.ltb_spec limit 0); [lia|].
  destruct (fetch_attempts _ _ _ _ _) as [[bs|e]|] eqn:Ef; [|eexists; by split_and!..].
  destruct (fetch_attempts_ok m off _ _ _ bs Ef Ho) as [Hbl Hbt]; [lia|done|].
  destruct (store_block_ok off bs v m (meanwhile2 v (MkCaches c (diskWarmup w)))) as (w' & -> & Hw'); [done|by apply Hmw|done|].
  cbn [mbind option_bind]. destruct (prefetch_on_miss _ _ _ _ _ _) as [job inflight'].
  eexists. split_and!; [done|done|]. cbn [answer]. split; [rewrite length_take; lia|].
  intros j x [Hj _]%lookup_take_Some. by apply Hbt.
Qed.

(** The steps of a read do not change whose file it is. *)
Lemma read_begin_id off v m : let m' := (read_begin size off v m).1.1 in
  hash m' = hash (set_id (resolved v) m) ∧ file_id m' = file_id (set_id (resolved v) m).
Proof. unfold read_begin. by destruct (seek_interrupt _ _ _). Qed.

Lemma take_slot_id streaming v m m' : take_slot streaming v m = inl m' → file_id m' = file_id m.
Proof. unfold take_slot. intros E. repeat case_match; by simplify_eq. Qed.

(** *** Properties *)


(** A prefetch keeps the read-ahead cache truthful, and takes its key back. *)
Lemma prefetch_ok m start ready f now resp c inflight c' inflight' :
  prefetch path size m start ready f now resp c inflight = (c', inflight') → 0 ≤ start → fetch_ok m f → ra_ok c →
  ra_ok c' ∧ prefetchKey path start ∉ inflight'.
Proof.
  intros E Hs Hf Hc. unfold prefetch in E. injection E as <- <-. split; [|set_solver].
  set (fe := if size <=? _ then _ else _). destruct (Z.leb_spec fe start); [done|]. destruct ready; [|done]. cbn [negb].
  destruct (String.eqb _ _); [done|]. destruct (FetchBlock _ _ _ _ _ _ _ _) as [bs err] eqn:Ef.
  assert (start < size) as Hlt by (unfold fe in *; case_match; lia).
  destruct (fetched_ok m f start _ bs err Ef) as [_ Ht]; [lia|done|unfold poolSize; case_match; lia|].
  destruct (_ && _); [|done]. eapply rtc_r; [exact Hc|]. apply step_Put; [lia|done].
Qed.
End truth.

(** The states of a handle go one way: out of the warm-up phase, and never from
    streaming or probing to another one. *)
Lemma state_one_way size off v m :
  state m ≠ stateWarmup → state (read_begin size off v m).1.1 = state m.
Proof.
  intros Hst. unfold read_begin, seek_interrupt, tail_state, seek_state.
  assert (state (set_id (resolved v) m) = state m) as E by (unfold set_id; by repeat case_match). cbn. rewrite E.
  destruct (state m) eqn:Em; [done|..]; cbn; rewrite ?bool_decide_eq_false_2 by done; cbn; [|by rewrite andb_false_r].
  by destruct (_ && _).
Qed.

(** The detection of sequential reads looks at the wrong offset. [Read] stores
    the offset of the request in the handle before it compares the request with
    the end of the last one, so that the comparison is with itself: whether a
    read counts as sequential depends on the length of the last read alone, not
    on where it ended, and every read after one of at most the tolerance counts
    as sequential, wherever it is. *)
Theorem isSeq_ignores_position size off v m :
  0 ≤ off → 0 ≤ lastLen m → 0 ≤ SequentialTolerance →
  isSeq off (read_begin size off v m).1.1 = (lastLen m <=? SequentialTolerance).
Proof.
  intros Ho Hl Ht. assert (lastOff (read_begin size off v m).1.1 = off ∧ lastLen (read_begin size off v m).1.1 = lastLen m) as [E1 E2].
  { unfold read_begin. destruct (seek_interrupt _ _ _). cbn. split; [done|]. unfold set_id. by repeat case_match. }
  unfold isSeq. rewrite E1, E2. lia.
Qed.
End readpath.

(** ** Witnesses *)

Module ReadRun.
Import PumpRun.
Definition f (info : bool) : fetch_env := MkFetch (Some (tor info)) 64 false None.
Definition v : read_env :=
  MkReadEnv 0 (Some ("cafe", 2)) None (f true) false false true None true (λ w, w) [(f true, false); (f true, false); (f true, false)] (λ w, w) false.
Definition m : mkv := MkMkvState "" 0 (-1) 0 0 0 0 stateWarmup false false.
Definition dest : list byte := [Byte.x00; Byte.x00; Byte.x00].
Definition disk_of (p : string) (j : nat) : byte := content "a" (Z.of_nat j).

Lemma serves_a : serves 4 0 content (MkMkv "a" "" 0 5) file.
Proof. destruct serves_file. by split. Qed.
End ReadRun.


Lemma isSeq_ignores_position_witness :
  isSeq 6 1000000 (read_begin 4 6 0 5000000 1000000 ReadRun.v ReadRun.m).1.1 = true.
Proof. apply (isSeq_ignores_position 4 6 6 0 5000000 1000000 ReadRun.v ReadRun.m); vm_compute; discriminate. Defined.
