(* ===== verification/PumpLife.v ===== *)
(** * The life of pumps (main.go)

    Handles of the same file share one pump. [startNativePump] attaches a handle
    to the pump of its path or takes a slot of [masterDataSemaphore] and starts
    one; the pump's goroutine returns the slot when it ends; [Release] counts
    the handles, and the last one leaves the pump to a grace timer. Reads attach
    to pumps as well, and start one for a confirmed playback.

    The operations are cut where the code gives up its mutex or hands over to a
    goroutine, and the theorems are about all interleavings of the pieces. What
    a pump does between its start and its end is in the file on the pump. *)

From S2P Require Import Prelude Guards.

Section life.
Context (MasterConcurrencyLimit : Z).

Abbreviation handle_id := nat.
Abbreviation pump_id := nat.

(** [NativePumpState]; its reader is known by the number of the pump. *)
Record NativePumpState := MkPumpState {
  cancelled : bool;
  p_path : string;
  refCount : Z;
  playerOff : Z;
}.

(** The fields of [MkvHandle] that are about pumps. [started] is [pumpOnce]. *)
Record handle := MkHandle {
  h_path : string;
  h_hash : string;
  started : bool;
  hasSlot : bool;
  isWatching : bool;
  isPrimaryHandle : bool;
  lastOff : Z;
  nativeReader : option pump_id;
}.

(** The shared tables, and the goroutines that are under way: handles that wait
    for a slot or have just got one, and the pumps, each with its handle and
    whether it has come past its first check. [other_slots] are the slots of
    single reads and prefetches. *)
Record life := MkLife {
  semaphore : Z;
  other_slots : Z;
  handles : gmap handle_id handle;
  activeHandles : gset handle_id;
  pumps : gmap pump_id NativePumpState;
  next_pump : pump_id;
  activePumps : gmap string pump_id;
  waiting : gset handle_id;
  acquired : gset handle_id;
  workers : gmap pump_id (handle_id * bool);
  pumpTimers : gset string;
  openTracker : OpenTracker.OpenTracker;
}.

Definition no_pumps : life := MkLife 0 0 ∅ ∅ ∅ 0 ∅ ∅ ∅ ∅ ∅ OpenTracker.New.

Definition set_handle (i : handle_id) (h : handle) (w : life) : life :=
  MkLife (semaphore w) (other_slots w) (<[i := h]> (handles w)) (activeHandles w) (pumps w) (next_pump w) (activePumps w)
    (waiting w) (acquired w) (workers w) (pumpTimers w) (openTracker w).
Definition set_pump (k : pump_id) (s : NativePumpState) (w : life) : life :=
  MkLife (semaphore w) (other_slots w) (handles w) (activeHandles w) (<[k := s]> (pumps w)) (next_pump w) (activePumps w)
    (waiting w) (acquired w) (workers w) (pumpTimers w) (openTracker w).
Definition set_active (a : gmap string pump_id) (w : life) : life :=
  MkLife (semaphore w) (other_slots w) (handles w) (activeHandles w) (pumps w) (next_pump w) a
    (waiting w) (acquired w) (workers w) (pumpTimers w) (openTracker w).
Definition set_slots (n : Z) (wait acq : gset handle_id) (w : life) : life :=
  MkLife n (other_slots w) (handles w) (activeHandles w) (pumps w) (next_pump w) (activePumps w)
    wait acq (workers w) (pumpTimers w) (openTracker w).
Definition set_workers (n : Z) (g : gmap pump_id (handle_id * bool)) (w : life) : life :=
  MkLife n (other_slots w) (handles w) (activeHandles w) (pumps w) (next_pump w) (activePumps w)
    (waiting w) (acquired w) g (pumpTimers w) (openTracker w).
Definition set_others (n o : Z) (w : life) : life :=
  MkLife n o (handles w) (activeHandles w) (pumps w) (next_pump w) (activePumps w)
    (waiting w) (acquired w) (workers w) (pumpTimers w) (openTracker w).
Definition set_timers (t : gset string) (w : life) : life :=
  MkLife (semaphore w) (other_slots w) (handles w) (activeHandles w) (pumps w) (next_pump w) (activePumps w)
    (waiting w) (acquired w) (workers w) t (openTracker w).
Definition set_tracker (t : OpenTracker.OpenTracker) (w : life) : life :=
  MkLife (semaphore w) (other_slots w) (handles w) (activeHandles w) (pumps w) (next_pump w) (activePumps w)
    (waiting w) (acquired w) (workers w) (pumpTimers w) t.
Definition set_open (o : gset handle_id) (w : life) : life :=
  MkLife (semaphore w) (other_slots w) (handles w) o (pumps w) (next_pump w) (activePumps w)
    (waiting w) (acquired w) (workers w) (pumpTimers w) (openTracker w).

(** ** Opening *)

(** The handle that [Open] makes. *)
Definition open_handle (i : handle_id) (path hash : string) (w : life) : life :=
  set_open ({[i]} ∪ activeHandles w) (set_handle i (MkHandle path hash false false false false (-1) None) w).

(** Attach to a pump. In [startNativePump] the first handle after a time
    without any takes over the position of the player. *)
Definition attach (inherit : bool) (i : handle_id) (h : handle) (k : pump_id) (s : NativePumpState) (w : life) : life :=
  let refs := refCount s + 1 in
  let first := inherit && (refs =? 1) in
  let h := MkHandle (h_path h) (h_hash h) (started h) true true (isPrimaryHandle h || first)
             (if first && (0 <? playerOff s) then playerOff s else lastOff h) (Some k) in
  set_tracker (OpenTracker.Inc (h_hash h) (h_path h) (openTracker w))
    (set_handle i h (set_pump k (MkPumpState (cancelled s) (p_path s) refs (playerOff s)) w)).

(** A new pump of the handle, registered, and its goroutine. *)
Definition create (primary : bool) (i : handle_id) (h : handle) (off : Z) (n : Z) (acq : gset handle_id) (w : life) : life :=
  let k := next_pump w in
  let h := MkHandle (h_path h) (h_hash h) (started h) true (isWatching h) (isPrimaryHandle h || primary) off (Some k) in
  MkLife n (other_slots w) (<[i := h]> (handles w)) (activeHandles w)
    (<[k := MkPumpState false (h_path h) 1 0]> (pumps w)) (S k) (<[h_path h := k]> (activePumps w))
    (waiting w) acq (<[k := (i, false)]> (workers w)) (pumpTimers w)
    (OpenTracker.Inc (h_hash h) (h_path h) (openTracker w)).

(** The pump of a path, if there is one. *)
Definition pump_of (path : string) (w : life) : option (pump_id * NativePumpState) :=
  k ← activePumps w !! path; s ← pumps w !! k; Some (k, s).

(** The first part of [startNativePump], which runs once per handle: the
    reserve for confirmed playback, and the first look for a pump. *)
Definition start_begin (healthy : bool) (i : handle_id) (w : life) : option life :=
  h ← handles w !! i;
  if started h then None
  else
    let h := MkHandle (h_path h) (h_hash h) true (hasSlot h) (isWatching h) (isPrimaryHandle h) (lastOff h) (nativeReader h) in
    let w := set_handle i h w in
    if hasSlot h then Some w
    else if negb healthy && (MasterConcurrencyLimit - 5 <=? semaphore w) then Some w
    else match pump_of (h_path h) w with
    | Some (k, s) => Some (attach true i h k s w)
    | None => Some (set_slots (semaphore w) ({[i]} ∪ waiting w) (acquired w) w)
    end.

(** The slot, or the fallback to slots of single reads. *)
Definition start_acquire (i : handle_id) (w : life) : option life :=
  if bool_decide (i ∈ waiting w) then
    Some (if semaphore w <? MasterConcurrencyLimit
          then set_slots (semaphore w + 1) (waiting w ∖ {[i]}) ({[i]} ∪ acquired w) w
          else set_slots (semaphore w) (waiting w ∖ {[i]}) (acquired w) w)
  else None.

(** ** Where a new pump starts *)

(** From the end of what is cached, the end of the head on disk, and the
    position of the player. *)
Definition resume_offset (ReadAheadBase warmupFileSize maxCached diskOffset : Z) (disk : bool) (playerPos : Z) : Z :=
  let chunkSize := if ReadAheadBase =? 0 then 16 * MiB else ReadAheadBase in
  let r := maxCached in
  let r := if disk && (16 * MiB <? diskOffset) && (r <? diskOffset - 16 * MiB) then diskOffset - 16 * MiB else r in
  let r :=
    if 0 <? playerPos then
      (if playerPos + chunkSize * 2 <? r then (playerPos /t chunkSize) * chunkSize else r)
    else if (playerPos <? 0) && (0 <? r) then
      let coverage := if disk then diskOffset else 0 in
      (if (coverage =? 0) || (warmupFileSize <=? r) then 0 else r)
    else r in
  if (0 <? playerPos) && (r + chunkSize <? playerPos) then (playerPos /t chunkSize) * chunkSize else r.

(** The second look, with the slot in hand: attach and give the slot back, or
    register a pump. *)
Definition start_register (i : handle_id) (resume : Z) (w : life) : option life :=
  h ← handles w !! i;
  if bool_decide (i ∈ acquired w) then
    match pump_of (h_path h) w with
    | Some (k, s) => Some (attach true i h k s (set_slots (semaphore w - 1) (waiting w) (acquired w ∖ {[i]}) w))
    | None => Some (create true i h (if 0 <? resume then resume else lastOff h) (semaphore w) (acquired w ∖ {[i]}) w)
    end
  else None.

(** ** Reads *)

(** A read without a slot attaches to the pump of its path. *)
Definition read_attach (i : handle_id) (w : life) : option life :=
  h ← handles w !! i;
  '(k, s) ← pump_of (h_path h) w;
  if hasSlot h then None else Some (attach false i h k s w).

(** A read of a confirmed playback starts a pump, if there is a slot. *)
Definition read_upgrade (i : handle_id) (off : Z) (w : life) : option life :=
  h ← handles w !! i;
  if hasSlot h || bool_decide (is_Some (pump_of (h_path h) w)) || (MasterConcurrencyLimit <=? semaphore w) then None
  else Some (create false i h off (semaphore w + 1) (acquired w) w).

(** Slots of single reads and prefetches. *)
Definition take_other (w : life) : option life :=
  if semaphore w <? MasterConcurrencyLimit then Some (set_others (semaphore w + 1) (other_slots w + 1) w) else None.
Definition give_other (w : life) : option life :=
  if 0 <? other_slots w then Some (set_others (semaphore w - 1) (other_slots w - 1) w) else None.

(** ** The goroutine *)

(** [nativePump] begins with a look at the reader of its handle, and ends at
    once, before anything is deferred, if there is none. *)
Definition worker_enter (k : pump_id) (w : life) : option life :=
  '(i, entered) ← workers w !! k;
  h ← handles w !! i;
  if (entered : bool) then None
  else match nativeReader h with
  | None => Some (set_workers (semaphore w) (delete k (workers w)) w)
  | Some _ => Some (set_workers (semaphore w) (<[k := (i, true)]> (workers w)) w)
  end.

(** The deferred function, for whatever reason the loop ends. *)
Definition worker_exit (k : pump_id) (w : life) : option life :=
  '(i, entered) ← workers w !! k;
  h ← handles w !! i;
  if (entered : bool) then
    let a := if bool_decide (activePumps w !! h_path h = Some k) then delete (h_path h) (activePumps w) else activePumps w in
    let n := if hasSlot h && (0 <? semaphore w) then semaphore w - 1 else semaphore w in
    let h := MkHandle (h_path h) (h_hash h) (started h) false (isWatching h) (isPrimaryHandle h) (lastOff h) (nativeReader h) in
    Some (set_handle i h (set_active a (set_workers n (delete k (workers w)) w)))
  else None.

(** ** Release and the end of a pump *)

(** [Release]; [healthy] is the playback's state, which keeps a pump without
    handles alive. *)
Definition Release (healthy : bool) (i : handle_id) (w : life) : option life :=
  h ← handles w !! i;
  let forget w :=
    set_open (activeHandles w ∖ {[i]})
      (set_handle i (MkHandle (h_path h) (h_hash h) (started h) (hasSlot h) (isWatching h) (isPrimaryHandle h) (lastOff h) None) w) in
  match pump_of (h_path h) w with
  | None => Some (forget w)
  | Some (k, s) =>
      let pos := if isPrimaryHandle h && (0 <? lastOff h) then lastOff h else playerOff s in
      let s := MkPumpState (cancelled s) (p_path s) (refCount s) pos in
      if negb (hasSlot h) then Some (set_pump k s w)
      else
        let refs := refCount s - 1 in
        let w := set_pump k (MkPumpState (cancelled s) (p_path s) refs pos) w in
        let w := set_tracker (OpenTracker.Dec (h_hash h) (h_path h) (openTracker w)) w in
        let w := if refs <=? 0 then
                   set_timers (if healthy then pumpTimers w ∖ {[h_path h]} else {[h_path h]} ∪ pumpTimers w) w
                 else w in
        Some (forget w)
  end.

(** Cancel the pump of a path and take it off the table. *)
Definition terminate (path : string) (w : life) : life :=
  match pump_of path w with
  | Some (k, s) => set_active (delete path (activePumps w)) (set_pump k (MkPumpState true (p_path s) (refCount s) (playerOff s)) w)
  | None => w
  end.

(** The grace timer of a path. *)
Definition grace_expired (path : string) (w : life) : option life :=
  if bool_decide (path ∈ pumpTimers w) then
    let w := set_timers (pumpTimers w ∖ {[path]}) w in
    match pump_of path w with
    | Some (_, s) => Some (if refCount s <=? 0 then terminate path w else w)
    | None => Some w
    end
  else None.

(** The end of playback and the removal of the file end the pump at once. *)
Definition force_stop (path : string) (w : life) : life := terminate path w.

(** ** Interleavings *)

Inductive life_step : life → life → Prop :=
  | ls_open i path hash w : handles w !! i = None → life_step w (open_handle i path hash w)
  | ls_begin healthy i w w' : start_begin healthy i w = Some w' → life_step w w'
  | ls_acquire i w w' : start_acquire i w = Some w' → life_step w w'
  | ls_register i resume w w' : start_register i resume w = Some w' → life_step w w'
  | ls_attach i w w' : read_attach i w = Some w' → life_step w w'
  | ls_upgrade i off w w' : read_upgrade i off w = Some w' → life_step w w'
  | ls_take w w' : take_other w = Some w' → life_step w w'
  | ls_give w w' : give_other w = Some w' → life_step w w'
  | ls_enter k w w' : worker_enter k w = Some w' → life_step w w'
  | ls_exit k w w' : worker_exit k w = Some w' → life_step w w'
  | ls_release healthy i w w' : Release healthy i w = Some w' → life_step w w'
  | ls_grace path w w' : grace_expired path w = Some w' → life_step w w'
  | ls_stop path w : life_step w (force_stop path w).

(** *** Invariants *)

(** The path of a handle; path and end of a pump. *)
Definition hpath (w : life) (i : handle_id) : option string := h_path <$> handles w !! i.
Definition ppath (w : life) (k : pump_id) : option (string * bool) := (λ s, (p_path s, cancelled s)) <$> pumps w !! k.

(** The tables: a registered pump is of its path and not cancelled, and a pump
    at work that is not cancelled is the registered one. *)
Record tables_ok (w : life) : Prop := {
  tb_active p k : activePumps w !! p = Some k → ppath w k = Some (p, false);
  tb_worker k i e : workers w !! k = Some (i, e) →
    ∃ p c, ppath w k = Some (p, c) ∧ hpath w i = Some p ∧ (c = false → activePumps w !! p = Some k);
  tb_fresh k x : ppath w k = Some x → (k < next_pump w)%nat;
}.

(** The slots: those in use are taken. *)
Record slots_ok (w : life) : Prop := {
  so_limit : semaphore w ≤ MasterConcurrencyLimit;
  so_others : 0 ≤ other_slots w;
  so_used : other_slots w + Z.of_nat (size (acquired w)) + Z.of_nat (size (workers w)) ≤ semaphore w;
}.

Definition life_ok (w : life) : Prop := tables_ok w ∧ slots_ok w.

(** Steps that leave the tables alone but for the end of some pumps. *)
Lemma tables_frame w w' :
  tables_ok w → next_pump w' = next_pump w → activePumps w' = activePumps w →
  (∀ i p, hpath w i = Some p → hpath w' i = Some p) → (∀ k, ppath w' k = ppath w k) →
  (∀ k i e, workers w' !! k = Some (i, e) → ∃ e', workers w !! k = Some (i, e')) → tables_ok w'.
Proof.
  intros [Ha Hw Hf] Hn Hac Hh Hp Hg. split.
  - intros p k. rewrite Hac, Hp. apply Ha.
  - intros k i e Hk. apply Hg in Hk as [e' Hk]. destruct (Hw k i e' Hk) as (p & c & ? & ? & ?).
    exists p, c. rewrite Hp, Hac. split_and!; [done|by apply Hh|done].
  - intros k x. rewrite Hp, Hn. apply Hf.
Qed.

(** Writing a handle with its path, or a pump with its path and end. *)
Lemma hpath_insert w i h h' j p (m : gmap handle_id handle) :
  m = <[i := h']> (handles w) → handles w !! i = Some h → h_path h' = h_path h →
  hpath w j = Some p → h_path <$> m !! j = Some p.
Proof.
  intros -> Hi Hp. unfold hpath. destruct (decide (i = j)) as [->|Hne]; [|by rewrite lookup_insert_ne].
  rewrite lookup_insert_eq, Hi. simpl. by rewrite Hp.
Qed.

Lemma ppath_insert w k s s' j (m : gmap pump_id NativePumpState) :
  m = <[k := s']> (pumps w) → pumps w !! k = Some s → p_path s' = p_path s → cancelled s' = cancelled s →
  (λ s, (p_path s, cancelled s)) <$> m !! j = ppath w j.
Proof.
  intros -> Hk Hp Hc. unfold ppath. destruct (decide (k = j)) as [->|Hne]; [|by rewrite lookup_insert_ne].
  rewrite lookup_insert_eq, Hk. simpl. by rewrite Hp, Hc.
Qed.

Lemma pump_of_Some path w k s : pump_of path w = Some (k, s) ↔ activePumps w !! path = Some k ∧ pumps w !! k = Some s.
Proof. unfold pump_of. rewrite bind_Some. setoid_rewrite bind_Some. naive_solver. Qed.

Lemma pump_of_None path w : tables_ok w → pump_of path w = None → activePumps w !! path = None.
Proof.
  intros Hw H. destruct (activePumps w !! path) as [k|] eqn:Ek; [|done]. apply (tb_active _ Hw) in Ek as Hp.
  unfold ppath in Hp. destruct (pumps w !! k) as [s|] eqn:Es; [|done].
  assert (pump_of path w = Some (k, s)) by (by apply pump_of_Some). congruence.
Qed.

Lemma attach_tables inherit i h k s w :
  handles w !! i = Some h → pumps w !! k = Some s → tables_ok w → tables_ok (attach inherit i h k s w).
Proof.
  intros Hi Hk Hw. eapply tables_frame; [exact Hw|done|done|..].
  - intros j p. by eapply hpath_insert.
  - intros j. by eapply ppath_insert.
  - intros j i' e He. by exists e.
Qed.

Lemma create_tables primary i h off n acq w :
  handles w !! i = Some h → activePumps w !! h_path h = None → tables_ok w → tables_ok (create primary i h off n acq w).
Proof.
  intros Hi Ha Hw. unfold create. split; unfold ppath, hpath; cbn [activePumps pumps handles workers next_pump h_path].
  - intros p k. destruct (decide (h_path h = p)) as [<-|Hne].
    + rewrite lookup_insert_eq. intros [= <-]. by rewrite lookup_insert_eq.
    + rewrite lookup_insert_ne by done. intros Hk%(tb_active _ Hw). pose proof (tb_fresh _ Hw _ _ Hk).
      rewrite lookup_insert_ne by lia. exact Hk.
  - intros k j e. destruct (decide (next_pump w = k)) as [<-|Hne].
    + rewrite lookup_insert_eq. intros [= <- <-]. exists (h_path h), false. by rewrite !lookup_insert_eq.
    + rewrite lookup_insert_ne by done. intros Hk. destruct (tb_worker _ Hw _ _ _ Hk) as (p & c & Hp & Hj & Hc).
      exists p, c. rewrite lookup_insert_ne by done. split_and!; [done|by eapply hpath_insert|].
      intros Hc0. specialize (Hc Hc0). rewrite lookup_insert_ne; [done|congruence].
  - intros k x. destruct (decide (next_pump w = k)) as [<-|Hne]; [lia|]. rewrite lookup_insert_ne by done.
    intros Hk%(tb_fresh _ Hw). lia.
Qed.

Lemma terminate_tables path w : tables_ok w → tables_ok (terminate path w).
Proof.
  intros Hw. unfold terminate. destruct (pump_of path w) as [[k s]|] eqn:E; [|done]. apply pump_of_Some in E as [Ha Hk].
  split; unfold ppath, hpath; cbn.
  - intros p j [Hne Hj]%lookup_delete_Some. pose proof (tb_active _ Hw _ _ Hj) as Hp.
    destruct (decide (k = j)) as [<-|]; [|by rewrite lookup_insert_ne].
    pose proof (tb_active _ Hw _ _ Ha). congruence.
  - intros j i e Hj. destruct (tb_worker _ Hw _ _ _ Hj) as (p & c & Hp & Hi & Hc). destruct (decide (k = j)) as [<-|Hne].
    + exists p, true. rewrite lookup_insert_eq. unfold ppath in Hp. rewrite Hk in Hp. simpl in *. by simplify_eq.
    + exists p, c. rewrite lookup_insert_ne by done. split_and!; [done..|]. intros Hc0. specialize (Hc Hc0).
      rewrite lookup_delete_ne; [done|congruence].
  - intros j x. destruct (decide (k = j)) as [<-|Hne]; [|rewrite lookup_insert_ne by done; apply (tb_fresh _ Hw)].
    intros _. apply (tb_fresh _ Hw k (p_path s, cancelled s)). unfold ppath. by rewrite Hk.
Qed.

Lemma exit_tables k i h h' a n w :
  workers w !! k = Some (i, true) → handles w !! i = Some h → h_path h' = h_path h →
  a = (if bool_decide (activePumps w !! h_path h = Some k) then delete (h_path h) (activePumps w) else activePumps w) →
  tables_ok w → tables_ok (set_handle i h' (set_active a (set_workers n (delete k (workers w)) w))).
Proof.
  intros Hk Hi Hp -> Hw. split; unfold ppath, hpath; cbn.
  - intros p j Hj. apply (tb_active _ Hw). case_bool_decide; [|done]. by apply lookup_delete_Some in Hj as [_ ?].
  - intros j i' e [Hne Hj]%lookup_delete_Some. destruct (tb_worker _ Hw _ _ _ Hj) as (p & c & Hpj & Hi' & Hc).
    exists p, c. split_and!; [done|by eapply hpath_insert|]. intros Hc0. specialize (Hc Hc0).
    case_bool_decide as Hb; [|done]. rewrite lookup_delete_ne; [done|congruence].
  - apply (tb_fresh _ Hw).
Qed.

(** A handle rewritten with its path, pumps and workers as they were. *)
Lemma set_handle_tables i h h' w :
  handles w !! i = Some h → h_path h' = h_path h → tables_ok w → tables_ok (set_handle i h' w).
Proof.
  intros Hi Hp Hw. eapply tables_frame; [exact Hw|done|done| |done|by eauto]. intros j p. by eapply hpath_insert.
Qed.

Lemma set_pump_tables k s s' w :
  pumps w !! k = Some s → p_path s' = p_path s → cancelled s' = cancelled s → tables_ok w → tables_ok (set_pump k s' w).
Proof.
  intros Hk Hp Hc Hw. eapply tables_frame; [exact Hw|done|done|done| |by eauto]. intros j. by eapply ppath_insert.
Qed.

(** Everything else but these fields. *)
Lemma tables_same w w' :
  handles w' = handles w → pumps w' = pumps w → next_pump w' = next_pump w → activePumps w' = activePumps w →
  workers w' = workers w → tables_ok w → tables_ok w'.
Proof.
  intros Hh Hp Hn Ha Hg Hw. eapply tables_frame; [exact Hw|done|done|..].
  - intros i p. unfold hpath. by rewrite Hh.
  - intros k. unfold ppath. by rewrite Hp.
  - intros k i e. rewrite Hg. eauto.
Qed.

Lemma slots_same w w' :
  semaphore w' = semaphore w → other_slots w' = other_slots w → acquired w' = acquired w → workers w' = workers w →
  slots_ok w → slots_ok w'.
Proof. intros Hs Ho Ha Hw [? ? ?]. split; rewrite ?Hs, ?Ho, ?Ha, ?Hw; done. Qed.

Ltac same_slots := match goal with H : slots_ok _ |- _ => solve [eapply slots_same; [..|exact H]; done] end.
Ltac same_tables := match goal with H : tables_ok _ |- _ => solve [eapply tables_same; [..|exact H]; done] end.

Lemma size_union_singleton (i : nat) (X : gset nat) : (size ({[i]} ∪ X) ≤ S (size X))%nat.
Proof. destruct (decide (i ∈ X)); [by replace ({[i]} ∪ X) with X by set_solver; lia|]. rewrite size_union by set_solver. by rewrite size_singleton. Qed.

Lemma size_remove (i : nat) (X : gset nat) : i ∈ X → (S (size (X ∖ {[i]})) = size X)%nat.
Proof.
  intros Hi. assert ({[i]} ⊆ X) as Hsub by set_solver. pose proof (subseteq_size {[i]} X Hsub) as Hle.
  rewrite size_difference by done. rewrite size_singleton in *. lia.
Qed.

Lemma size_delete_worker k x w : workers w !! k = Some x → (S (size (delete k (workers w))) = size (workers w))%nat.
Proof.
  intros Hk. assert (is_Some (workers w !! k)) as Hs by eauto. rewrite map_size_delete_Some by done.
  pose proof (map_size_ne_0_lookup_2 _ _ Hs). lia.
Qed.

Lemma open_ok i path hash w : handles w !! i = None → life_ok w → life_ok (open_handle i path hash w).
Proof.
  intros Hi [Ht Hs]. split; [|same_slots].
  eapply tables_frame; [exact Ht|done|done| |done|by eauto]. intros j p. unfold hpath, open_handle. cbn.
  destruct (decide (i = j)) as [->|Hne]; [by rewrite Hi|by rewrite lookup_insert_ne].
Qed.

Lemma start_begin_ok healthy i w w' : start_begin healthy i w = Some w' → life_ok w → life_ok w'.
Proof.
  unfold start_begin. destruct (handles w !! i) as [h|] eqn:Hi; [|done]. cbn [mbind option_bind]. intros E [Ht Hs].
  destruct (started h); [done|]. set (h1 := MkHandle (h_path h) _ _ _ _ _ _ _) in E.
  assert (tables_ok (set_handle i h1 w)) as Ht1 by (by eapply set_handle_tables).
  assert (slots_ok (set_handle i h1 w)) as Hs1 by (same_slots).
  assert (handles (set_handle i h1 w) !! i = Some h1) as Hi1 by apply lookup_insert_eq.
  destruct (hasSlot _); [by injection E as <-|]. destruct (_ && _); [by injection E as <-|].
  destruct (pump_of _ _) as [[k s]|] eqn:Ep; injection E as <-.
  - apply pump_of_Some in Ep as [_ Hk]. split; [by apply attach_tables|same_slots].
  - split; [same_tables|same_slots].
Qed.

Lemma start_acquire_ok i w w' : start_acquire i w = Some w' → life_ok w → life_ok w'.
Proof.
  unfold start_acquire. intros E [Ht [Hl Ho Hu]]. destruct (bool_decide _); [|done].
  destruct (Z.ltb_spec (semaphore w) MasterConcurrencyLimit); injection E as <-; (split; [same_tables|]); [|by split].
  split; cbn; [lia|done|]. pose proof (size_union_singleton i (acquired w)). lia.
Qed.

Lemma start_register_ok i resume w w' : start_register i resume w = Some w' → life_ok w → life_ok w'.
Proof.
  unfold start_register. destruct (handles w !! i) as [h|] eqn:Hi; [|done]. cbn [mbind option_bind]. intros E [Ht [Hl Ho Hu]].
  case_bool_decide as Hin; [|done]. pose proof (size_remove i (acquired w) Hin) as Hsz.
  destruct (pump_of _ _) as [[k s]|] eqn:Ep; injection E as <-.
  - apply pump_of_Some in Ep as [_ Hk]. split; [|split; cbn; lia]. apply attach_tables; [done|done|]. same_tables.
  - split; [apply create_tables; [done|by apply pump_of_None|done]|]. split; cbn; [lia|lia|].
    rewrite map_size_insert_None; [lia|]. destruct (workers w !! next_pump w) as [[j e]|] eqn:En; [|done].
    destruct (tb_worker _ Ht _ _ _ En) as (p & c & Hp & _). pose proof (tb_fresh _ Ht _ _ Hp). lia.
Qed.

Lemma read_ok i off w w' : read_attach i w = Some w' ∨ read_upgrade i off w = Some w' → life_ok w → life_ok w'.
Proof.
  unfold read_attach, read_upgrade. destruct (handles w !! i) as [h|] eqn:Hi; [|by intros [?|?]]. cbn [mbind option_bind].
  intros E [Ht [Hl Ho Hu]]. destruct (pump_of (h_path h) w) as [[k s]|] eqn:Ep; cbn [mbind option_bind] in E.
  - rewrite bool_decide_eq_true_2, orb_true_r in E by eauto. destruct E as [E|E]; [|done]. destruct (hasSlot h); [done|]. injection E as <-.
    apply pump_of_Some in Ep as [_ Hk]. split; [by apply attach_tables|by split].
  - destruct E as [E|E]; [done|]. destruct (hasSlot h || _ || _) eqn:Ec; [done|]. injection E as <-.
    apply orb_false_iff in Ec as [_ Ec]. split; [apply create_tables; [done|by apply pump_of_None|done]|]. split; cbn; [lia|lia|].
    rewrite map_size_insert_None; [lia|]. destruct (workers w !! next_pump w) as [[j e]|] eqn:En; [|done].
    destruct (tb_worker _ Ht _ _ _ En) as (p & c & Hp & _). pose proof (tb_fresh _ Ht _ _ Hp). lia.
Qed.

Lemma other_ok w w' : take_other w = Some w' ∨ give_other w = Some w' → life_ok w → life_ok w'.
Proof.
  unfold take_other, give_other. intros E [Ht [Hl Ho Hu]]. destruct E as [E|E]; case_match; try done; injection E as <-;
    (split; [same_tables|split; cbn; lia]).
Qed.

Lemma worker_ok k w w' : worker_enter k w = Some w' ∨ worker_exit k w = Some w' → life_ok w → life_ok w'.
Proof.
  unfold worker_enter, worker_exit. destruct (workers w !! k) as [[i e]|] eqn:Hk; [|by intros [?|?]]. cbn [mbind option_bind].
  destruct (handles w !! i) as [h|] eqn:Hi; [|by intros [?|?]]. cbn [mbind option_bind]. intros E [Ht [Hl Ho Hu]].
  pose proof (size_delete_worker _ _ _ Hk) as Hsz. destruct e; destruct E as [E|E]; try done.
  - injection E as <-. split; [by eapply exit_tables|]. split; cbn; [case_match; lia|done|case_match; lia].
  - destruct (nativeReader h); injection E as <-; split.
    + eapply tables_frame; [exact Ht|done|done|done|done|]. cbn. intros j i' e'. destruct (decide (k = j)) as [<-|Hne].
      * rewrite lookup_insert_eq. intros [= <- <-]. eauto.
      * rewrite lookup_insert_ne by done. eauto.
    + split; cbn; [done..|]. rewrite map_size_insert_Some by eauto. done.
    + eapply tables_frame; [exact Ht|done|done|done|done|]. cbn. intros j i' e' [_ ?]%lookup_delete_Some. eauto.
    + split; cbn; [done..|lia].
Qed.

Lemma Release_ok healthy i w w' : Release healthy i w = Some w' → life_ok w → life_ok w'.
Proof.
  unfold Release. destruct (handles w !! i) as [h|] eqn:Hi; [|done]. cbn [mbind option_bind]. intros E [Ht Hs].
  destruct (pump_of _ _) as [[k s]|] eqn:Ep.
  - apply pump_of_Some in Ep as [_ Hk]. destruct (hasSlot h); cbn [negb] in E; injection E as <-.
    + split; [|eapply slots_same; [..|exact Hs]; cbn; repeat case_match; done]. set (s' := MkPumpState _ _ (_ - 1) _).
      assert (tables_ok (set_pump k s' w)) as Ht1 by (by eapply set_pump_tables).
      eapply (tables_same (set_handle i (MkHandle (h_path h) (h_hash h) (started h) true (isWatching h) (isPrimaryHandle h) (lastOff h) None) (set_pump k s' w)));
        [..|by eapply set_handle_tables]; cbn; repeat case_match; done.
    + split; [by eapply set_pump_tables|same_slots].
  - injection E as <-. split; [|same_slots]. eapply (tables_same (set_handle i _ w)); [done..|]. by eapply set_handle_tables.
Qed.

Lemma terminate_ok path w : life_ok w → life_ok (terminate path w).
Proof.
  intros [Ht Hs]. split; [by apply terminate_tables|]. unfold terminate. destruct (pump_of _ _) as [[k s]|]; [same_slots|done].
Qed.

Lemma grace_ok path w w' : grace_expired path w = Some w' → life_ok w → life_ok w'.
Proof.
  unfold grace_expired. intros E [Ht Hs]. destruct (bool_decide _); [|done]. set (w1 := set_timers _ w) in E.
  assert (life_ok w1) as H1 by (split; [same_tables|same_slots]).
  destruct (pump_of path w1) as [[k s]|]; injection E as <-; [|done]. case_match; [by apply terminate_ok|done].
Qed.

Lemma life_step_ok w w' : life_ok w → life_step w w' → life_ok w'.
Proof.
  intros Hw Hs. destruct Hs as [? ? ? ? ?|? ? ? ? E|? ? ? E|? ? ? ? E|? ? ? E|? ? ? ? E|? ? E|? ? E|? ? ? E|? ? ? E|? ? ? ? E|? ? ? E|? ?].
  - by apply open_ok.
  - by eapply start_begin_ok.
  - by eapply start_acquire_ok.
  - by eapply start_register_ok.
  - eapply (read_ok _ 0); [by left|done].
  - eapply read_ok; [by right|done].
  - eapply other_ok; [by left|done].
  - eapply other_ok; [by right|done].
  - eapply worker_ok; [by left|done].
  - eapply worker_ok; [by right|done].
  - by eapply Release_ok.
  - by eapply grace_ok.
  - by apply terminate_ok.
Qed.

(** *** Properties *)


(** Steps that were taken lead to reachable states. *)
Fixpoint take_steps (l : list (life → option life)) (w : life) : option life :=
  match l with [] => Some w | f :: l => w ← f w; take_steps l w end.

Definition is_step (f : life → option life) : Prop := ∀ w w', f w = Some w' → life_step w w'.

Lemma take_steps_reach l w w' : Forall is_step l → take_steps l w = Some w' → rtc life_step w w'.
Proof.
  revert w. induction l as [|f l IH]; intros w Hl E; [by injection E as <-|]. apply Forall_cons in Hl as [Hf Hl]. simpl in E.
  destruct (f w) as [w1|] eqn:E1; [|done]. eapply rtc_l; [by apply Hf|by apply IH].
Qed.

Lemma take_steps_check l (P : life → bool) :
  Forall is_step l → P <$> take_steps l no_pumps = Some true → ∃ w, rtc life_step no_pumps w ∧ P w = true.
Proof.
  intros Hl. destruct (take_steps l no_pumps) as [w|] eqn:E; [|done]. simpl. intros [= HP]. exists w. split; [|done].
  by eapply take_steps_reach.
Qed.

Definition opens (i : handle_id) (path hash : string) (w : life) : option life :=
  match handles w !! i with None => Some (open_handle i path hash w) | Some _ => None end.
Definition stops (path : string) (w : life) : option life := Some (force_stop path w).

Lemma opens_step i path hash : is_step (opens i path hash).
Proof. intros w w'. unfold opens. destruct (handles w !! i) eqn:E; [done|]. intros [= <-]. by apply ls_open. Qed.
Lemma stops_step path : is_step (stops path).
Proof. intros w w' [= <-]. apply ls_stop. Qed.
End life.

Ltac steps := repeat (apply Forall_cons; split); try apply Forall_nil_2;
  first [apply opens_step | apply stops_step | intros w w' ?; econstructor; eassumption | idtac].

Module Drift.
Abbreviation limit := 25.

(** Opening a file with its pump, but for the goroutine's first check. *)
Definition opened (i : nat) (path hash : string) : list (life → option life) :=
  [opens i path hash; start_begin limit true i; start_acquire limit i; start_register i 0].

(** The handle is released before the goroutine looks at its reader. *)
Definition lost_slot : list (life → option life) :=
  opened 1 "a" "x" ++ [Release false 1; worker_enter 0; grace_expired "a"].

(** The pump ends, being idle, and then the handle is released. *)
Definition lost_count : list (life → option life) :=
  opened 1 "a" "x" ++ [worker_enter 0; worker_exit 0; Release false 1].

(** A second handle shares the pump; the pump is ended; a third handle starts
    another one; the second is released, and the grace period passes. *)
Definition lost_pump : list (life → option life) :=
  opened 1 "a" "x" ++ [worker_enter 0; opens 2 "a" "x"; start_begin limit true 2; stops "a"; worker_exit 0] ++
  opened 3 "a" "x" ++ [worker_enter 1; Release false 2; grace_expired "a"].

Lemma opened_steps i path hash : Forall (is_step limit) (opened i path hash).
Proof. unfold opened. steps. Qed.

(** Nothing is open or under way. *)
Definition idle (w : life) : bool :=
  bool_decide (activeHandles w = ∅) && bool_decide (waiting w = ∅) && bool_decide (acquired w = ∅) &&
  bool_decide (workers w = ∅) && (other_slots w =? 0).

(** Handle 3 is open and has pump 1, which is cancelled. *)
Definition cut_off (w : life) : bool :=
  bool_decide (3%nat ∈ activeHandles w) &&
  match handles w !! 3%nat, pumps w !! 1%nat with
  | Some h, Some s => bool_decide (nativeReader h = Some 1%nat) && cancelled s
  | _, _ => false
  end.
End Drift.

(** The books about pumps drift. With all handles released and no goroutine
    left, a slot can be lost for good (the goroutine that finds its handle
    released ends before it has deferred the return of the slot), and a file can
    count as open for good (a handle released after its pump has ended is not
    taken off the table of open handles). And a handle whose pump was ended
    counts, at its release, for the next pump of the path, which the grace timer
    then ends although the handle that it serves is open. *)
Theorem pump_books_drift :
  (∃ w, rtc (life_step 25) no_pumps w ∧ Drift.idle w = true ∧ semaphore w = 1) ∧
  (∃ w, rtc (life_step 25) no_pumps w ∧ Drift.idle w = true ∧ OpenTracker.IsPathOpen "a" (openTracker w) = true) ∧
  (∃ w h s, rtc (life_step 25) no_pumps w ∧ 3%nat ∈ activeHandles w ∧ handles w !! 3%nat = Some h ∧
     nativeReader h = Some 1%nat ∧ pumps w !! 1%nat = Some s ∧ cancelled s = true).
Proof.
  split_and!.
  - destruct (take_steps_check 25 Drift.lost_slot (λ w, Drift.idle w && (semaphore w =? 1))) as (w & Hr & Hw);
      [apply Forall_app; split; [apply Drift.opened_steps|steps]|vm_compute; reflexivity|].
    exists w. apply andb_true_iff in Hw as [? ?%Z.eqb_eq]. done.
  - destruct (take_steps_check 25 Drift.lost_count (λ w, Drift.idle w && OpenTracker.IsPathOpen "a" (openTracker w))) as (w & Hr & Hw);
      [apply Forall_app; split; [apply Drift.opened_steps|steps]|vm_compute; reflexivity|].
    exists w. by apply andb_true_iff in Hw as [? ?].
  - destruct (take_steps_check 25 Drift.lost_pump Drift.cut_off) as (w & Hr & Hw); [|vm_compute; reflexivity|].
    { unfold Drift.lost_pump. repeat (apply Forall_app; split); try apply Drift.opened_steps; steps. }
    apply andb_true_iff in Hw as [Ho Hw]. destruct (handles w !! 3%nat) as [h|] eqn:Eh; [|done].
    destruct (pumps w !! 1%nat) as [s|] eqn:Es; [|done]. apply andb_true_iff in Hw as [Hn Hc].
    exists w, h, s. apply bool_decide_eq_true in Ho, Hn. by split_and!.
Qed.

(** Where a pump starts: never before the file, and with a player at a position
    within a chunk behind it and two before it. *)
Lemma resume_near_player ReadAheadBase warmupFileSize maxCached diskOffset disk playerPos :
  0 ≤ ReadAheadBase → 0 ≤ maxCached →
  let chunkSize := if ReadAheadBase =? 0 then 16 * MiB else ReadAheadBase in
  let r := resume_offset ReadAheadBase warmupFileSize maxCached diskOffset disk playerPos in
  0 ≤ r ∧ (0 < playerPos → playerPos - chunkSize ≤ r ≤ playerPos + 2 * chunkSize).
Proof.
  intros Hb Hm chunkSize r. assert (0 < chunkSize) as Hc by (unfold chunkSize; destruct (Z.eqb_spec ReadAheadBase 0); lia).
  unfold r, resume_offset. fold chunkSize. set (r1 := if disk && _ && _ then _ else _).
  assert (0 ≤ r1) as Hr1 by (unfold r1; destruct (disk && _ && _) eqn:Ed; lia). clearbody r1 chunkSize.
  destruct (Z.ltb_spec 0 playerPos) as [Hp|Hp]; cbn [andb].
  - pose proof (Z.quot_rem playerPos chunkSize ltac:(lia)) as Hq. pose proof (Z.rem_bound_pos playerPos chunkSize ltac:(lia) Hc) as Hr.
    assert (0 ≤ playerPos /t chunkSize * chunkSize) as Hq0 by (apply Z.mul_nonneg_nonneg; [apply Z.quot_pos; lia|lia]).
    rewrite (Z.mul_comm chunkSize) in Hq. set (q := playerPos /t chunkSize * chunkSize) in *.
    destruct (Z.ltb_spec (playerPos + chunkSize * 2) r1); case_match; lia.
  - split; [|lia]. destruct ((playerPos <? 0) && _); [case_match; lia|lia].
Qed.

(** *** Witness *)

