(* ===== verification/TVTitles.v ===== *)
(** * Titles of the TV sync engine (internal/syncer/engines/tv_go.go)

    The TV engine learns what a release is from its title: whether it is the
    show that was asked for, which season it has, whether it is a pack of
    episodes and of how many, its size and its seeders. This file has these
    functions, the names that the engine gives to episodes and files, and the
    paths of the library. They keep no state. ASCII case conversion and white
    space stand for those of package strings. *)

From Stdlib Require Import Ascii.
From S2P Require Import Prelude Float64 Regex Streaming Quality MovieSync.

(** ** Expressions *)

Definition quote_mark : string := String (ascii_of_nat 34) EmptyString.

Definition reTV4K : regex := MustCompile "(?i)2160p|4k|uhd".
Definition reTV1080p : regex := MustCompile "(?i)1080p".
Definition reTV720p : regex := MustCompile "(?i)\b720p\b".
Definition reTV480p : regex := MustCompile "(?i)\b480p\b|[^a-z]sd[^a-z]".
Definition reTVHDR : regex := MustCompile "(?i)\bhdr\b|hdr10\+?|\bdv\b|dovi|dolby.?vision".
Definition reTVAtmos : regex := MustCompile "atmos".
Definition reTV51 : regex := MustCompile "(?i)5\.1|dd5|ddp5|dts|truehd".
Definition reTVITA : regex := MustCompile "(?i)ita|🇮🇹|multi|dual".
Definition reTVExclLang : regex :=
  MustCompile "🇪🇸|🇫🇷|🇩🇪|🇷🇺|🇨🇳|🇯🇵|🇰🇷|🇹🇭|🇵🇹|🇧🇷|🇺🇦|🇵🇱|🇳🇱|🇹🇷|🇸🇦|🇮🇳|🇨🇿|🇭🇺|🇷🇴".
Definition reTVSeeders : regex := MustCompile "👤\s*(\d+)".
Definition reTVSize : regex := MustCompile "(?i)(\d+\.?\d*)\s*(GB|TB)".
Definition reTVFullpack : regex := MustCompile "(?i)\b(season|complete|full|pack)\b".
Definition reTVRange : regex := MustCompile "(?i)s\d+e\d+\s*-\s*e?\d+".
Definition reTVMultiEp : regex := MustCompile "(?i)s\d+e\d+".
Definition reTVSeason : regex := MustCompile "\.s\d{2}\.".
Definition reTVSeasonP : regex := MustCompile "\ss\d{2}\s*\(".
Definition reTVSeasonN : regex := MustCompile "[Ss](\d+)".
Definition reTVEpRangeN : regex := MustCompile "(?i)s\d+e(\d+)\s*-\s*e?(\d+)".
Definition reTVSeasonR : regex := MustCompile "\bs(\d{1,2})\s*[-–]\s*s(\d{1,2})\b".
Definition reTVSeasonW : regex := MustCompile "\bseasons?\s*(\d{1,2})\s*[-–]\s*(\d{1,2})\b".
Definition reTVCompleteS : regex := MustCompile "(?i)\b(complete\s+series|all\s+seasons|full\s+series)\b".
Definition reTVEpNum : regex := MustCompile "[Ss](\d+)[Ee](\d+)".
Definition reTV1xEp : regex := MustCompile "(\d+)x(\d+)".
Definition reTVFileName : regex := MustCompile "(.+)_S(\d+)E(\d+)_([a-f0-9]{8})\.mkv$".
Definition reTVNonWord : regex := MustCompile "[^a-z0-9]".
Definition reTVSanitize : regex := MustCompile ("[<>:" +:+ quote_mark +:+ "/\\|?*'" +:+ quote_mark +:+ "&]").
Definition reTVSpaces : regex := MustCompile "\s+".
Definition reTVUnders : regex := MustCompile "_+".
Definition reTVYear : regex := MustCompile "\(?(\d{4})\)?".
Definition reTVQuality : regex :=
  MustCompile "\b(2160p|1080p|720p|480p|576p|4k|uhd|sd|hdr|dv|dovi|web|bluray|remux)\b.*".
Definition reTVHashURL : regex := MustCompile "link=([a-f0-9]{40})".
Definition reTVSeries : regex := MustCompile "(?i)s\d+e\d+|season|episode".
Definition reSeasonEpisode : regex := MustCompile "^[se]\d+".
Definition reYearWord : regex := MustCompile "^\(\d{4}\)$|^[\[\(]?\d{4}[\]\)]?$".

(** All of them are well formed. *)
Example tv_expressions_compile :
  forallb (λ r, match r with Chars (CSet false []) => false | _ => true end)
    [reTV4K; reTV1080p; reTV720p; reTV480p; reTVHDR; reTVAtmos; reTV51; reTVITA; reTVExclLang; reTVSeeders; reTVSize;
     reTVFullpack; reTVRange; reTVMultiEp; reTVSeason; reTVSeasonP; reTVSeasonN; reTVEpRangeN; reTVSeasonR; reTVSeasonW;
     reTVCompleteS; reTVEpNum; reTV1xEp; reTVFileName; reTVNonWord; reTVSanitize; reTVSpaces; reTVUnders; reTVYear;
     reTVQuality; reTVHashURL; reTVSeries; reSeasonEpisode; reYearWord] = true.
Proof. vm_compute. reflexivity. Qed.

(** ** The name of the show *)

Definition space_char : ascii := " "%char.

(** [strings.ReplaceAll] of a character. *)
Definition ReplaceAll (c : ascii) (new s : string) : string := String.concat new (split_on c s).

(** [strings.ReplaceAll] of two spaces by one. *)
Fixpoint halve_spaces (s : string) : string :=
  match s with
  | String a (String b s' as s1) =>
      if bool_decide (a = space_char) && bool_decide (b = space_char) then String space_char (halve_spaces s')
      else String a (halve_spaces s1)
  | _ => s
  end.

(** The loop of [normalize]; every turn makes the text shorter. *)
Fixpoint collapse (n : nat) (s : string) : string :=
  match n with
  | O => s
  | S n' => if Contains s "  " then collapse n' (halve_spaces s) else s
  end.

Definition normalize (s : string) : string :=
  let s := ToLower s in
  let s := ReplaceAll "'"%char "" s in
  let s := ReplaceAll "'"%char "" s in
  let s := foldl (λ s c, ReplaceAll c " " s) s ["."%char; "-"%char; "_"%char; "["%char; "]"%char; "{"%char; "}"%char; "("%char; ")"%char] in
  TrimSpace (collapse (String.length s) s).

(** [strings.Fields]. *)
Fixpoint split_spaces (s : string) : list string :=
  match s with
  | EmptyString => [EmptyString]
  | String a s' =>
      if is_space a then EmptyString :: split_spaces s'
      else match split_spaces s' with x :: l => String a x :: l | [] => [String a EmptyString] end
  end.
Definition Fields (s : string) : list string := filter (λ w, w ≠ "") (split_spaces s).

Definition TrimPrefix (s p : string) : string := default s (strip_prefix p s).

Definition hasAlpha (w : string) : bool := existsb (λ c, in_range 97 122 (ord c)) (String.list_ascii_of_string w).

Definition commonTags : list string :=
  ["web"; "webrip"; "web-dl"; "bluray"; "bdrip"; "hdtv"; "dvdrip"; "dvd"; "x264"; "x265"; "h264"; "h265"; "hevc"; "avc";
   "aac"; "ac3"; "dts"; "dd5"; "5.1"; "7.1"; "2.0"; "10bit"; "8bit"; "1080p"; "720p"; "480p"; "2160p"; "4k"; "hdr"; "sdr";
   "dolby"; "vision"; "dv"; "atmos"; "truehd"; "ma"; "core"; "complete"; "comp"; "series"; "season"; "saison"; "pack";
   "collection"; "remaster"; "remastered"; "extended"; "uncut"; "directors"; "directors.cut"; "theatrical"; "cut";
   "edition"; "final"; "special"; "anniversary"; "remux"; "internal"; "proper"; "repack"; "rerip"; "dirfix"; "nfofix";
   "proper"].

(** A word that may follow the name, and one that may stand before it. *)
Definition suffix_word (w : string) : bool :=
  (String.length w <=? 2)%nat || MatchString reSeasonEpisode w || MatchString reYearWord w ||
  bool_decide (w ∈ commonTags) || negb (hasAlpha w).
Definition prefix_word (w : string) : bool := (String.length w <=? 1)%nat || negb (hasAlpha w).

Definition from (i : nat) (s : string) : string := String.substring i (String.length s - i) s.

(** Where the name is looked for; [strings.Index] with -1 as [None]. *)
Definition name_index (title name : string) : option nat :=
  match String.index 0 name title with
  | Some i => Some i
  | None => String.index 0 (TrimPrefix name "the ") title
  end.

Definition showNameMatches (torrentTitle showName : string) : bool :=
  if bool_decide (showName = "") then true
  else
    let titleNorm := normalize torrentTitle in
    let nameNorm := normalize showName in
    match name_index titleNorm nameNorm with
    | None => false
    | Some O => true
    | Some idx =>
        let after := (idx + String.length nameNorm)%nat in
        if negb (bool_decide (String.get (idx - 1) titleNorm = Some space_char)) then false
        else if (after <? String.length titleNorm)%nat &&
                (negb (bool_decide (String.get after titleNorm = Some space_char)) ||
                 negb (forallb suffix_word (Fields (from after titleNorm)))) then false
        else forallb prefix_word (Fields (TrimSpace (String.substring 0 idx titleNorm)))
    end.

(** ** What a title says *)

Definition first_line (title : string) : string := hd "" (split_on newline_char title).

(** [normalizeTitle] and [isBlacklisted]. *)
Definition normalizeTitle (title : string) : string :=
  ReplaceAllString reTVNonWord (ReplaceAllString reTVQuality (ReplaceAllString reTVYear (ToLower title) "") "") "".

Definition isBlacklisted (b : BlacklistData) (title : string) : bool := bool_decide (normalizeTitle title ∈ Titles b).
Definition isHashBlacklisted (b : BlacklistData) (hash : string) : bool := bool_decide (is_Some (Hashes b !! ToLower hash)).

Definition isFullpack (title : string) : bool :=
  let t := ToLower (first_line title) in
  MatchString reTVFullpack t || MatchString reTVRange t || (2 <=? length (FindAllString reTVMultiEp t))%nat ||
  (MatchString reTVSeason t && negb (MatchString reTVMultiEp t)) ||
  (MatchString reTVSeasonP t && negb (MatchString reTVMultiEp t)).

Definition estimateEpisodeCount (title : string) : Z :=
  let firstLine := first_line title in
  let several := let n := length (FindAllString reTVMultiEp firstLine) in if (1 <? n)%nat then Z.of_nat n else 10 in
  match FindStringSubmatch reTVEpRangeN firstLine 1, FindStringSubmatch reTVEpRangeN firstLine 2 with
  | Some a, Some b => if Atoi a <=? Atoi b then int64 (Atoi b - Atoi a + 1) else several
  | _, _ => several
  end.

Definition extractSeason (title : string) : Z :=
  match FindStringSubmatch reTVSeasonN title 1 with Some d => Atoi d | None => 1 end.

Definition ordered (a b : Z) : Z * Z := if b <? a then (b, a) else (a, b).

Definition extractSeasonSpan (title : string) : option (Z * Z) :=
  let firstLine := ToLower (first_line title) in
  let groups re := match FindStringSubmatch re firstLine 1, FindStringSubmatch re firstLine 2 with
                   | Some a, Some b => Some (ordered (Atoi a) (Atoi b))
                   | _, _ => None
                   end in
  match groups reTVSeasonR with
  | Some x => Some x
  | None =>
      match groups reTVSeasonW with
      | Some x => Some x
      | None => if MatchString reTVCompleteS firstLine then Some (1, 99) else None
      end
  end.

Definition extractSeeders (title : string) : Z :=
  match FindStringSubmatch reTVSeeders title 1 with Some d => Atoi d | None => 0 end.

Definition extractSizeGB (title : string) : float64 :=
  match FindStringSubmatch reTVSize title 1, FindStringSubmatch reTVSize title 2 with
  | Some v, Some unit => if bool_decide (ToLower unit = "tb") then f64_mul (ParseFloat v) (f64_of_Z 1024) else ParseFloat v
  | _, _ => f64_of_Z 0
  end.

Definition extractEpisodeFromFilename (filename : string) : Z * Z :=
  let groups re := match FindStringSubmatch re filename 1, FindStringSubmatch re filename 2 with
                   | Some a, Some b => Some (Atoi a, Atoi b)
                   | _, _ => None
                   end in
  match groups reTVEpNum with
  | Some x => x
  | None => default (0, 0) (groups reTV1xEp)
  end.

(** ** Names that the engine gives *)

(** [%02d]. *)
Definition pad2 (n : Z) : string := if (0 <=? n) && (n <? 10) then "0" +:+ pretty n else pretty n.

Definition normal_show (show : string) : string := ReplaceAllString reTVNonWord (ToLower show) "".

Definition year_of (firstAirDate : string) : string :=
  if (4 <=? String.length firstAirDate)%nat then String.substring 0 4 firstAirDate else "".

Definition episodeKey (show firstAirDate : string) (season episode : Z) : string :=
  let year := year_of firstAirDate in
  if bool_decide (year ≠ "") then
    normal_show show +:+ "_" +:+ year +:+ "_s" +:+ pad2 season +:+ "e" +:+ pad2 episode
  else normal_show show +:+ "_s" +:+ pad2 season +:+ "e" +:+ pad2 episode.

Definition sanitizeName (name : string) : string :=
  Trim "_"%char (ReplaceAllString reTVUnders (ReplaceAllString reTVSpaces (ReplaceAllString reTVSanitize name "") "_") "_").

Definition getShowFolderName (showName firstAirDate : string) : string :=
  let cleanName := sanitizeName showName in
  let year := year_of firstAirDate in
  if bool_decide (year ≠ "") then cleanName +:+ " (" +:+ year +:+ ")" else cleanName.

Definition buildFilename (show : string) (season episode : Z) (hash8 : string) : string :=
  sanitizeName show +:+ "_S" +:+ pad2 season +:+ "E" +:+ pad2 episode +:+ "_" +:+ hash8 +:+ ".mkv".

(** ** Paths *)

(** One element of [filepath.Clean]: the elements before it, the last first. *)
Definition clean_step (rooted : bool) (done : list string) (x : string) : list string :=
  if bool_decide (x = "") || bool_decide (x = ".") then done
  else if bool_decide (x = "..") then
    match done with
    | [] => if rooted then [] else [".."]
    | y :: l => if bool_decide (y = "..") then x :: done else l
    end
  else x :: done.

Definition Clean (path : string) : string :=
  let rooted := String.prefix "/" path in
  let s := String.concat "/" (reverse (foldl (clean_step rooted) [] (split_on "/"%char path))) in
  if rooted then "/" +:+ s else if bool_decide (s = "") then "." else s.

(** [filepath.Join]: the non-empty elements. *)
Definition Join (elems : list string) : string :=
  match filter (λ x, x ≠ "") elems with [] => "" | l => Clean (String.concat "/" l) end.

(** [filepath.Base]. *)
Definition Base (path : string) : string :=
  if bool_decide (path = "") then "." else List.last (filter (λ x, x ≠ "") (split_on "/"%char path)) "/".

(** The path of an episode: [seasonDir] joined with its file name. *)
Definition episode_path (tvDir showName firstAirDate : string) (season episode : Z) (hash8 : string) : string :=
  Join [Join [tvDir; getShowFolderName showName firstAirDate; "Season." +:+ pad2 season];
        buildFilename showName season episode hash8].

Definition isVideoFile (path : string) : bool := bool_decide (ToLower (Ext path) ∈ video_exts).

(** ** Releases *)

Record TVStream := MkTVStream {
  tsTitle : string; tsHash : string; IsFullpack : bool; IsPartialPack : bool;
  tsIs1080p : bool; tsIs720p : bool; tsIs480p : bool;
  tsQualityScore : Z; tsSeason : Z; tsSeeders : Z; tsSizeGB : float64; tsPriority : Z; tsRank : StreamingRank;
}.

Section policy.
Context (undef : float64 → Z).

Definition tv_is1080p (text : string) : bool := MatchString reTV1080p text && negb (MatchString reTV720p text).
Definition tv_is720p (text : string) : bool := MatchString reTV720p text && negb (tv_is1080p text) && negb (MatchString reTV4K text).
Definition tv_is480p (text : string) : bool :=
  MatchString reTV480p text && negb (tv_is720p text) && negb (tv_is1080p text) && negb (MatchString reTV4K text).

Definition release_size (s : Stream) : float64 :=
  if f64_eqb (sSizeGB s) (f64_of_Z 0) then extractSizeGB (sTitle s) else sSizeGB s.

(** The candidate that a release is for the streaming policy. *)
Definition release_candidate (s : Stream) : StreamingCandidate :=
  MkCandidate (sInfoHash s) (stream_text s) MediaTV (DetectResolution (stream_text s)) (release_size s)
    (extractSeeders (sTitle s)) (isFullpack (sTitle s))
    (if isFullpack (sTitle s) then estimateEpisodeCount (sTitle s) else 0).

Definition classifyStream (b : BlacklistData) (s : Stream) (showName : string) : option TVStream :=
  let title := sTitle s in
  let fullText := stream_text s in
  if isHashBlacklisted b (sInfoHash s) then None
  else if isBlacklisted b title then None
  else if negb (showNameMatches title showName) then None
  else if MatchString reTVExclLang title then None
  else if bool_decide (DetectResolution fullText = RUnknown) then None
  else
    rank ← RankStreamingCandidate undef (release_candidate s) TVStreamingPolicy;
    let pack := isFullpack title in
    Some (MkTVStream title (ToLower (sInfoHash s)) pack (pack && MatchString reTVRange (first_line title))
            (tv_is1080p fullText) (tv_is720p fullText) (tv_is480p fullText) (Streaming.Score rank) (extractSeason title)
            (extractSeeders title) (release_size s) (Streaming.Score rank) rank).

(** [calculateQualityScore], which the engine no longer calls. *)
Definition calculateQualityScore (profile : TVProfile) (text : string) (seeders : Z) (is4K is1080p is720p is480p : bool)
    (ceilingGB sizeGB : float64) : Z :=
  let w := tp_ScoreWeights profile in
  let t := ToLower text in
  let has re := MatchString re t in
  match (if is4K then tw_Resolution4K w else None), (if is1080p then tw_Resolution1080p w else None),
        (if is720p then tw_Resolution720p w else None), (if is480p then tw_Resolution480p w else None) with
  | None, None, None, None => 0
  | a, b, c, d =>
      int64 (first_weight [a; b; c; d] 0 +
        first_weight [weigh (has reTVHDR) (tw_HDR w)] 0 +
        first_weight [weigh (has reTVAtmos) (tw_Atmos w); weigh (has reTV51) (tw_Audio51 w)] 0 +
        first_weight [weigh (has reTVITA) (tw_ITA w)] 0 +
        first_weight [weigh (100 <=? seeders) (tw_Seeder100Bonus w); weigh (50 <=? seeders) (tw_Seeder50Bonus w);
                      weigh (20 <=? seeders) (tw_Seeder20Bonus w)] 0 +
        match weigh (f64_ltb (f64_of_Z 0) sizeGB && f64_ltb (f64_of_Z 0) ceilingGB) (tw_SizeBonusPerGBUnder w) with
        | Some n => let under := f64_sub ceilingGB sizeGB in
                    if f64_ltb (f64_of_Z 0) under then int64 (f64_to_int64 undef under * n) else 0
        | None => 0
        end)
  end.

(** ** Files of a release *)

Definition tvMinEpisodeSize : Z := 214748364.

Definition pack_resolution (stream : TVStream) (f : FileStat) : Resolution :=
  let r := DetectResolution (tsTitle stream +:+ " " +:+ fPath f) in
  if bool_decide (r = RUnknown) then
    if tsIs480p stream then R480p else if tsIs720p stream then R720p else if tsIs1080p stream then R1080p
    else cResolution (candidate (tsRank stream))
  else r.

Definition single_resolution (stream : TVStream) (f : FileStat) : Resolution :=
  let r := DetectResolution (tsTitle stream +:+ " " +:+ fPath f) in
  if bool_decide (r = RUnknown) then cResolution (candidate (tsRank stream)) else r.

Definition episode_candidate (stream : TVStream) (res : Resolution) (f : FileStat) : StreamingCandidate :=
  MkCandidate (tsHash stream) (tsTitle stream +:+ " " +:+ fPath f) MediaTV res (file_size_GB f) (tsSeeders stream) false 0.

(** A video file of a sensible size that the policy allows. *)
Definition valid_episode (stream : TVStream) (res : Resolution) (f : FileStat) : bool :=
  isVideoFile (fPath f) && (tvMinEpisodeSize <=? fLength f) &&
  match RankExactStreamingFile undef (episode_candidate stream res f) TVStreamingPolicy with Some _ => true | None => false end.

Definition filterPackVideoFilesByStreamingPolicy (files : list FileStat) (stream : TVStream) : list FileStat :=
  filter (λ f, valid_episode stream (pack_resolution stream f) f = true) files.

(** The longest file of a single episode, the first of several. *)
Definition longest (best : option FileStat) (f : FileStat) : option FileStat :=
  match best with
  | None => Some f
  | Some b => if fLength b <? fLength f then Some f else best
  end.
Definition bestFile (files : list FileStat) (stream : TVStream) : option FileStat :=
  foldl longest None (filter (λ f, valid_episode stream (single_resolution stream f) f = true) files).
End policy.

(** ** Normalised names *)

(** Runs of spaces as one space each: what the loop of [normalize] is for. *)
Definition squeeze_cons (a : ascii) (t : string) : string :=
  match t with
  | String b _ => if bool_decide (a = space_char) && bool_decide (b = space_char) then t else String a t
  | EmptyString => String a EmptyString
  end.
Fixpoint squeeze (s : string) : string :=
  match s with EmptyString => EmptyString | String a s' => squeeze_cons a (squeeze s') end.

Lemma Contains_tail a s sub : Contains (String a s) sub = false → Contains s sub = false.
Proof. cbn [Contains]. intros [_ H]%orb_false_iff. done. Qed.

Lemma squeeze_single s : Contains s "  " = false → squeeze s = s.
Proof.
  induction s as [|a s IH]; intros H; [done|]. cbn [squeeze]. rewrite IH by (by eapply Contains_tail).
  destruct s as [|b s]; [done|]. cbn [squeeze_cons]. case_bool_decide as Ha; [|done]. case_bool_decide as Hb; [|done].
  subst. by destruct s.
Qed.

Lemma squeeze_cons_space t : squeeze_cons space_char (squeeze_cons space_char t) = squeeze_cons space_char t.
Proof. destruct t as [|b t]; [done|]. cbn [squeeze_cons]. rewrite bool_decide_eq_true_2 by done. cbn [andb].
  case_bool_decide as Hb; subst; cbn [squeeze_cons]; rewrite ?bool_decide_eq_true_2 by done; done. Qed.

Lemma halve_spaces_spec n s : (String.length s ≤ n)%nat →
  squeeze (halve_spaces s) = squeeze s ∧ (String.length (halve_spaces s) ≤ String.length s)%nat ∧
  (Contains s "  " = true → (String.length (halve_spaces s) < String.length s)%nat).
Proof.
  revert s. induction n as [|n IH]; intros [|a [|b s]] Hn; cbn [String.length] in Hn; try lia; try done.
  { split_and!; [done|done|]. by destruct a as [[] [] [] [] [] [] [] []]. }
  destruct (IH s) as (E & L & _); [lia|]. destruct (IH (String b s)) as (E' & L' & S'); [cbn; lia|].
  assert (halve_spaces (String a (String b s)) =
    if bool_decide (a = space_char) && bool_decide (b = space_char) then String space_char (halve_spaces s)
    else String a (halve_spaces (String b s))) as -> by done.
  case_bool_decide as Ha; [case_bool_decide as Hb|]; subst; cbn [andb squeeze String.length] in *.
  - rewrite E, squeeze_cons_space. split_and!; [done|lia|lia].
  - rewrite E'. split_and!; [done|lia|]. intros Hc. apply orb_true_iff in Hc as [Hc|Hc]; [|specialize (S' Hc); lia].
    by destruct b as [[] [] [] [] [] [] [] []].
  - rewrite E'. split_and!; [done|lia|]. intros Hc. apply orb_true_iff in Hc as [Hc|Hc]; [|specialize (S' Hc); lia].
    by destruct a as [[] [] [] [] [] [] [] []].
Qed.

(** The loop has enough turns. *)
Lemma collapse_squeeze n s : (String.length s ≤ n)%nat → collapse n s = squeeze s.
Proof.
  revert s. induction n as [|n IH]; intros s Hn; [by destruct s; [|cbn in Hn; lia]|]. cbn [collapse].
  destruct (Contains s "  ") eqn:Hc; [|by rewrite squeeze_single].
  destruct (halve_spaces_spec _ s (le_n _)) as (E & _ & L). specialize (L Hc). rewrite IH by lia. done.
Qed.

(** ** Matching names *)

Lemma index_prefix p s : String.prefix p s = true → String.index 0 p s = Some 0%nat.
Proof. destruct s as [|a s]; [by destruct p|]. cbn [String.index]. by intros ->. Qed.

Lemma substring_whole s : String.substring 0 (String.length s) s = s.
Proof. induction s as [|a s IH]; [done|]. cbn. by rewrite IH. Qed.

Lemma from_0 s : from 0 s = s.
Proof. unfold from. rewrite Nat.sub_0_r. apply substring_whole. Qed.
Lemma from_S a s i : from (S i) (String a s) = from i s.
Proof. done. Qed.

Lemma substring_split s i : (i ≤ String.length s)%nat → s = String.substring 0 i s +:+ from i s.
Proof.
  revert i. induction s as [|a s IH]; intros [|i] Hi; cbn [String.length] in Hi; [done|lia|by rewrite from_0|].
  rewrite from_S. change (String a s = String a (String.substring 0 i s +:+ from i s)). f_equal. apply IH. lia.
Qed.

Lemma from_from i j s : from j (from i s) = from (i + j) s.
Proof.
  revert i. induction s as [|a s IH]; intros [|i]; [by destruct j|by destruct j|by rewrite from_0|]. apply IH.
Qed.

Lemma substring_from i n s : String.substring i n s = String.substring 0 n (from i s).
Proof.
  revert i. induction s as [|a s IH]; intros [|i]; [by destruct n|by destruct n|by rewrite from_0|]. apply IH.
Qed.

Lemma from_length i s : String.length (from i s) = (String.length s - i)%nat.
Proof.
  revert i. induction s as [|a s IH]; intros [|i]; [done|done|by rewrite from_0|]. apply IH.
Qed.

Lemma substring_short i n s x : (String.length s < i + n)%nat → String.substring i n s = x → String.length x = n → n = 0%nat.
Proof.
  revert i n x. induction s as [|a s IH]; intros [|i] [|n] x Hl E Hx; try done; cbn in *; try (subst; cbn in Hx; lia).
  - subst x. cbn in Hx. injection Hx as Hx. pose proof (IH 0%nat n _ ltac:(lia) eq_refl Hx). subst. lia.
  - eapply IH; [|exact E|done]. lia.
Qed.

(** Where a text is found, it is. *)
Lemma index_split p s i : String.index 0 p s = Some i → s = String.substring 0 i s +:+ p +:+ from (i + String.length p) s.
Proof.
  intros H. pose proof (String.index_correct1 _ _ _ _ H) as E.
  destruct (decide (String.length s < i + String.length p)%nat) as [Hl|Hl].
  { pose proof (substring_short _ _ _ _ Hl E eq_refl) as H0. destruct p; [|done]. cbn in *.
    clear E H0. revert i H Hl. induction s as [|a s IH]; intros i H Hl; [destruct i; cbn in H; [lia|done]|].
    cbn in H. injection H as <-. cbn in Hl. lia. }
  rewrite (substring_split s i) at 1 by lia. f_equal.
  rewrite <-E at 1. rewrite substring_from, <-from_from.
  apply substring_split. rewrite from_length. lia.
Qed.

Lemma last_space s i : String.get i s = Some space_char → ∃ q, String.substring 0 (S i) s = q +:+ " ".
Proof.
  revert i. induction s as [|a s IH]; intros [|i] H; cbn in H; try done.
  - injection H as ->. exists "". by destruct s.
  - destruct (IH i H) as [q Hq]. exists (String a q).
    change (String a (String.substring 0 (S i) s) = String a (q +:+ " ")). by rewrite Hq.
Qed.

Lemma strip_prefix_spec p s t : strip_prefix p s = Some t → s = p +:+ t.
Proof.
  revert s. induction p as [|c p IH]; intros s H; [by injection H as ->|]. destruct s as [|d s]; [done|]. cbn [strip_prefix] in H.
  case_bool_decide; [|done]. subst. change (String d s = String d (p +:+ t)). f_equal. by apply IH.
Qed.

Lemma name_index_spec t n i : name_index t n = Some i →
  ∃ n', (n' = n ∨ n = "the " +:+ n') ∧ String.index 0 n' t = Some i.
Proof.
  unfold name_index. destruct (String.index 0 n t) as [j|] eqn:E; intros H; [injection H as ->; eauto|].
  exists (TrimPrefix n "the "). split; [|done]. unfold TrimPrefix. destruct (strip_prefix "the " n) eqn:Es; [|by left].
  right. by apply strip_prefix_spec.
Qed.

(** What counts as a release of the show. A release whose title begins with
    the name of the show, spelt alike after case, apostrophes, separators and
    runs of spaces have been evened out, is always accepted, whatever follows
    the name. Every accepted release has the name, or the name without its
    article, at the start of its title or after a space and before it no word
    of two and more characters with letters; and if the full name stands there,
    only short words, seasons, years, release tags and numbers follow it. *)
Theorem show_name_matching title name :
  let t := normalize title in
  let n := normalize name in
  (String.prefix n t = true → showNameMatches title name = true) ∧
  (showNameMatches title name = true → name = "" ∨
   ∃ n' pre post, (n' = n ∨ n = "the " +:+ n') ∧ t = pre +:+ n' +:+ post ∧
     (pre = "" ∨ (∃ q, pre = q +:+ " ") ∧ forallb prefix_word (Fields (TrimSpace pre)) = true ∧
                 (n' = n → forallb suffix_word (Fields post) = true))).
Proof.
  intros t n. unfold showNameMatches. case_bool_decide as Hn; [by split; auto|]. fold t n. split.
  - intros Hp. unfold name_index. by rewrite index_prefix.
  - destruct (name_index t n) as [i|] eqn:Hi; [|done]. apply name_index_spec in Hi as (n' & Hn' & Hi).
    pose proof (index_split _ _ _ Hi) as Ht. intros H. right. exists n', (String.substring 0 i t), (from (i + String.length n') t).
    split; [done|]. split; [done|]. destruct i as [|i]; [left; by destruct t|right].
    destruct (negb (bool_decide _)) eqn:Hs; [done|]. apply negb_false_iff, bool_decide_eq_true in Hs.
    replace (S i - 1)%nat with i in Hs by lia. split; [by apply last_space|].
    destruct ((_ <? _)%nat && _) eqn:Hf in H; [done|]. split; [done|]. intros ->.
    apply andb_false_iff in Hf as [Hf|Hf].
    + apply Nat.ltb_ge in Hf. assert (String.length (from (S i + String.length n) t) = 0%nat) as Hl by (rewrite from_length; lia).
      by destruct (from (S i + String.length n) t).
    + apply orb_false_iff in Hf as [_ Hf]. by apply negb_false_iff in Hf.
Qed.

(** The comment at the check says that "lost in space" is rejected for "lost"
    and "[group] friends" accepted for "friends"; an apostrophe of Unicode is
    said to be handled. *)
Example name_comments :
  showNameMatches "Lost in Space S01" "Lost" = true ∧ showNameMatches "[group] Friends S01" "Friends" = false ∧
  showNameMatches "The Handmaid’s Tale S01" "The Handmaid's Tale" = false.
Proof. vm_compute. done. Qed.

(** *** Witness *)

Lemma show_name_matching_witness :
  showNameMatches "Lost in Space S01 1080p" "Lost" = true ∧
  ∃ n' pre post, (n' = "lost" ∨ "lost" = "the " +:+ n') ∧ "lost in space s01 1080p" = pre +:+ n' +:+ post.
Proof.
  destruct (show_name_matching "Lost in Space S01 1080p" "Lost") as [H1 H2]. split; [apply H1; reflexivity|].
  destruct H2 as [H2|(n' & pre & post & Hn & Ht & _)]; [apply H1; reflexivity|done|]. exists n', pre, post. split; [exact Hn|exact Ht].
Defined.
