(* ===== verification/TVSync.v ===== *)
(** * The TV sync engine (internal/syncer/engines/tv_go.go)

    A run of the engine discovers shows, by TMDB's listings or by fixed numbers,
    and looks for releases of each. Packs of episodes come first, then single
    episodes; every video file that the streaming policy allows becomes a small
    file in the library and an entry of the episode registry. Afterwards files
    and torrents without an entry are removed, and torrents that the library
    needs and the torrent engine has lost are added again.

    The outside is the class [World] of the movie engine with the operations of
    [TVWorld]. A result [None] is a panic. The directories of the library are
    those that hold files. *)

From Stdlib Require Import Ascii.
From S2P Require Import Prelude Float64 Regex Streaming Quality MovieSync TVTitles.

(** ** Data *)

Record TVShow := MkTVShow { shID : Z; shName : string; shOriginalName : string; shFirstAirDate : string; shLanguage : string; shGenreIDs : list Z }.

(** The answer of TMDB about a show; of the providers, the numbers of those
    that stream it in Italy. *)
Record TVDetail := MkDetail {
  dName : string; dFirstAirDate : string; NumberOfSeasons : Z; Seasons : list (Z * Z); WatchProviders : option (list Z);
}.

Record TVShowInfo := MkShowInfo {
  siID : Z; siName : string; siOriginalName : string; siFirstAirDate : string; siLanguage : string; siGenreIDs : list Z;
  siChannel : string; SourceMode : string; siIMDBID : string; NumSeasons : Z; JellyfinItemID : string;
}.

Record TVChannelConfig := MkChannel {
  chName : string; Mode : string; TMDBIDs : list Z; SkipCompleteSeasons : bool; chJellyfinItemID : string;
}.

Record TVEpisodeEntry := MkEpisode { eQualityScore : Z; eHash : string; eFilePath : string; eSource : string; eCreated : Z }.

Record TVSyncStats := MkStats { Shows : Z; EpisodesCreated : Z; EpisodesSkipped : Z; Upgrades : Z }.

(** [registryFile] is what the JSON file of the registry holds, if it can be
    read; [db] is the table of episodes, if there is a database. *)
Record TVGoEngine := MkTV {
  registry : gmap string TVEpisodeEntry;
  registryFile : option (gmap string TVEpisodeEntry);
  db : option (gmap string TVEpisodeEntry);
  processedThisRun : gset string;
  stats : TVSyncStats;
  blacklist : BlacklistData;
  hasProwlarr : bool;
  hasEndpoints : bool;
  baseURL : string;
  tvDir : string;
  channel : TVChannelConfig;
  alternatives : gmap string (list TorrentAlternative);
  library : gmap string mkv;
}.

Definition set_registry (r : gmap string TVEpisodeEntry) (e : TVGoEngine) : TVGoEngine :=
  MkTV r (registryFile e) (db e) (processedThisRun e) (stats e) (blacklist e) (hasProwlarr e) (hasEndpoints e)
    (baseURL e) (tvDir e) (channel e) (alternatives e) (library e).
Definition set_store (f d : option (gmap string TVEpisodeEntry)) (e : TVGoEngine) : TVGoEngine :=
  MkTV (registry e) f d (processedThisRun e) (stats e) (blacklist e) (hasProwlarr e) (hasEndpoints e)
    (baseURL e) (tvDir e) (channel e) (alternatives e) (library e).
Definition set_processed (p : gset string) (e : TVGoEngine) : TVGoEngine :=
  MkTV (registry e) (registryFile e) (db e) p (stats e) (blacklist e) (hasProwlarr e) (hasEndpoints e)
    (baseURL e) (tvDir e) (channel e) (alternatives e) (library e).
Definition set_stats (s : TVSyncStats) (e : TVGoEngine) : TVGoEngine :=
  MkTV (registry e) (registryFile e) (db e) (processedThisRun e) s (blacklist e) (hasProwlarr e) (hasEndpoints e)
    (baseURL e) (tvDir e) (channel e) (alternatives e) (library e).
Definition set_alternatives (a : gmap string (list TorrentAlternative)) (e : TVGoEngine) : TVGoEngine :=
  MkTV (registry e) (registryFile e) (db e) (processedThisRun e) (stats e) (blacklist e) (hasProwlarr e) (hasEndpoints e)
    (baseURL e) (tvDir e) (channel e) a (library e).
Definition set_library (l : gmap string mkv) (e : TVGoEngine) : TVGoEngine :=
  MkTV (registry e) (registryFile e) (db e) (processedThisRun e) (stats e) (blacklist e) (hasProwlarr e) (hasEndpoints e)
    (baseURL e) (tvDir e) (channel e) (alternatives e) l.

Definition no_stats : TVSyncStats := MkStats 0 0 0 0.
Definition skipped (s : TVSyncStats) : TVSyncStats := MkStats (Shows s) (EpisodesCreated s) (EpisodesSkipped s + 1) (Upgrades s).
Definition upgraded (s : TVSyncStats) : TVSyncStats := MkStats (Shows s) (EpisodesCreated s) (EpisodesSkipped s) (Upgrades s + 1).

(** ** The outside *)

(** The listings of TMDB that are asked for without a configuration. *)
Inductive listing := TVOnTheAir (pages : Z) | TVAiringToday (pages : Z) | TVTrending (pages : Z) | DiscoverTV (language : string) (days pages : Z).

Class TVWorld (W : Type) `{!World W} := {
  TVDetails : Z → W → option TVDetail * W;
  TVExternalIDs : Z → W → option string * W;
  fetch_listing : listing → W → option (list TVShow) * W;
  DiscoverTVFromConfig : W → option (list TVShow) * W;
  FetchSeries : string → string → W → list Stream * W;
  FetchEpisodeStreams : string → Z → Z → W → option (list Stream) * W;
  limiter_Wait : W → W;
  ListTorrents : W → option (list (string * string)) * W;
  rem_succeeds : string → W → bool;
  db_succeeds : W → bool;
  stat_size : string → W → Z;
  stat_time : string → W → Z;
}.
#[export] Hint Mode TVWorld ! - : typeclass_instances.

(** ** The library *)

(** The order in which [filepath.Walk] goes through the files: element by
    element of their paths. *)
Fixpoint cmp_elements (a b : list string) : comparison :=
  match a, b with
  | [], [] => Eq
  | [], _ => Lt
  | _, [] => Gt
  | x :: a', y :: b' => match String.compare x y with Eq => cmp_elements a' b' | c => c end
  end.

Definition walk_tree (d : gmap string mkv) : list (string * mkv) :=
  sort_stable (cmp_lt (cmp_on (λ f, split_on "/"%char f.1) cmp_elements)) (map_to_list d).

(** The link of a file, as [readHashFromMKV] and the clean-up read it. *)
Definition json_link (f : mkv) : string := match f with JsonMkv url _ _ _ => url | _ => "" end.
Definition file_link (f : mkv) : string :=
  match f with JsonMkv url _ _ _ => url | BadMkv => "" | TextMkv s => hd "" (SplitN 2 (TrimSpace s)) end.

Section engine.
Context (undef : float64 → Z) {W : Type} `{HW : !World W, HT : !TVWorld W}.

Definition createMKV (path streamURL : string) (fileSize : Z) (magnet : string) (e : TVGoEngine) (w : W) : option TVGoEngine :=
  if writable path w then Some (set_library (<[path := JsonMkv streamURL fileSize magnet ""]> (library e)) e) else None.

(** ** The registry *)

Definition loadRegistry (d f : option (gmap string TVEpisodeEntry)) (w : W) : gmap string TVEpisodeEntry :=
  match d with
  | Some m => if db_succeeds w then m else default ∅ f
  | None => default ∅ f
  end.

Definition saveRegistry (e : TVGoEngine) : TVGoEngine := set_store (Some (registry e)) (db e) e.

Definition registerEpisode (key : string) (score : Z) (hash path source : string) (e : TVGoEngine) (w : W) : TVGoEngine :=
  let entry := MkEpisode score hash path source (unix w) in
  let e := set_registry (<[key := entry]> (registry e)) e in
  match db e with
  | Some m => if db_succeeds w then set_store (registryFile e) (Some (<[key := entry]> m)) e else e
  | None => saveRegistry e
  end.

Definition registryByPath (reg : gmap string TVEpisodeEntry) (path : string) : bool :=
  existsb (λ kv, bool_decide (eFilePath kv.2 = path)) (map_to_list reg).

Definition readHashFromMKV (path : string) (f : mkv) (w : W) : string :=
  if 10240 <? stat_size path w then "" else default "" (FindStringSubmatch reTVHashURL (json_link f) 1).

(** One file of [populateRegistryFromExisting]; the list of torrents is asked
    for when it is first needed. *)
Definition populate_file (st : gmap string TVEpisodeEntry * option (list (string * string)) * W) (f : string * mkv) :
    gmap string TVEpisodeEntry * option (list (string * string)) * W :=
  let '(reg, torrents, w) := st in
  let m k := FindStringSubmatch reTVFileName (Base f.1) k in
  if negb (is_mkv f.1) || registryByPath reg f.1 then st
  else match m 1%nat, m 2%nat, m 3%nat, m 4%nat with
  | Some showName, Some s, Some n, Some hash8 =>
      let key := episodeKey showName "" (Atoi s) (Atoi n) in
      if bool_decide (is_Some (reg !! key)) then st
      else
        let own := readHashFromMKV f.1 f.2 w in
        let '(torrents, w) :=
          if bool_decide (own = "") then
            match torrents with Some _ => (torrents, w) | None => let '(r, w1) := ListTorrents w in (Some (default [] r), w1) end
          else (torrents, w) in
        let hash :=
          if bool_decide (own = "") then
            match filter (λ t, String.prefix hash8 t.1 = true) (default [] torrents) with
            | t :: _ => if bool_decide (t.1 = "") then hash8 else t.1
            | [] => hash8
            end
          else own in
        (<[key := MkEpisode 1 hash f.1 "existing" (stat_time f.1 w)]> reg, torrents, w)
  | _, _, _, _ => st
  end.

Definition populateRegistryFromExisting (e : TVGoEngine) (w : W) : TVGoEngine * W :=
  let '(reg, _, w') := foldl populate_file (registry e, None, w) (walk_tree (library e)) in (set_registry reg e, w').

(** ** Discovery *)

Definition HasPremiumProvider (providers : option (list Z)) : bool :=
  match providers with Some l => existsb (λ p, bool_decide (p ∈ [8; 9; 337; 531])) l | None => false end.

Definition tvExcludedGenreIDs : list Z := [99; 10763; 10764; 10767; 16].

Definition passesShowFilters (show : TVShow) (w : W) : bool * W :=
  if existsb (λ g, bool_decide (g ∈ tvExcludedGenreIDs)) (shGenreIDs show) then (false, w)
  else if bool_decide (shLanguage show = "en") then (true, w)
  else
    let '(details, w1) := TVDetails (shID show) w in
    (match details with Some d => HasPremiumProvider (WatchProviders d) | None => false end, w1).

(** A show of a listing: kept if it is new and passes. *)
Definition add_show (st : list TVShow * W) (s : TVShow) : list TVShow * W :=
  let '(all, w) := st in
  if bool_decide (shID s ∈ shID <$> all) then st
  else let '(ok, w1) := passesShowFilters s w in ((if ok : bool then all ++ [s] else all), w1).

Definition tvMaxShowAgeDays : Z := 180.
Definition listings : list listing := [TVOnTheAir 3; TVAiringToday 2; TVTrending 3; DiscoverTV "en" tvMaxShowAgeDays 5].

Definition add_listing (st : list TVShow * W) (l : listing) : list TVShow * W :=
  let '(all, w) := st in
  let '(shows, w1) := fetch_listing l w in
  match shows with Some shows => foldl add_show (all, w1) shows | None => (all, w1) end.

Definition discoverShowsHardcoded (w : W) : list TVShow * W := foldl add_listing ([], w) listings.

Definition from_listing (e : TVGoEngine) (s : TVShow) : TVShowInfo :=
  MkShowInfo (shID s) (shName s) (shOriginalName s) (shFirstAirDate s) (shLanguage s) (shGenreIDs s)
    (chName (channel e)) "discovery" "" 0 "".

Definition discoverFromChannel (e : TVGoEngine) (w : W) : option (list TVShowInfo) * W :=
  let '(shows, w1) := if hasEndpoints e then DiscoverTVFromConfig w
                      else let '(l, w1) := discoverShowsHardcoded w in (Some l, w1) in
  (map (from_listing e) <$> shows, w1).

(** A show by its number; [None] is a failure of either request. *)
Definition show_by_id (mode jellyfin : string) (e : TVGoEngine) (tmdbID : Z) (w : W) : option TVShowInfo * W :=
  let '(details, w1) := TVDetails tmdbID w in
  match details with
  | None => (None, w1)
  | Some d =>
      let '(imdb, w2) := TVExternalIDs tmdbID w1 in
      match imdb with
      | Some imdbID =>
          if bool_decide (imdbID = "") then (None, w2)
          else (Some (MkShowInfo tmdbID (dName d) (dName d) (dFirstAirDate d) "" [] (chName (channel e)) mode imdbID
                        (NumberOfSeasons d) jellyfin), w2)
      | None => (None, w2)
      end
  end.

Fixpoint discoverFromManualIDs (e : TVGoEngine) (ids : list Z) (w : W) : list TVShowInfo * W :=
  match ids with
  | [] => ([], w)
  | id :: ids' =>
      let '(s, w1) := show_by_id "manual" "" e id w in
      let '(l, w2) := discoverFromManualIDs e ids' w1 in
      (match s with Some s => s :: l | None => l end, w2)
  end.

Definition discoverFromDemand (e : TVGoEngine) (w : W) : option (list TVShowInfo) * W :=
  match TMDBIDs (channel e) with
  | [] => (None, w)
  | id :: _ => let '(s, w1) := show_by_id "demand" (chJellyfinItemID (channel e)) e id w in ((λ s, [s]) <$> s, w1)
  end.

Definition discoverShows (e : TVGoEngine) (w : W) : option (list TVShowInfo) * W :=
  let mode := Mode (channel e) in
  if bool_decide (mode = "demand") then discoverFromDemand e w
  else if bool_decide (mode = "manual") then let '(l, w1) := discoverFromManualIDs e (TMDBIDs (channel e)) w in (Some l, w1)
  else if bool_decide (mode = "discovery") || bool_decide (mode = "") then discoverFromChannel e w
  else (Some [], w).

(** ** Looking for releases *)

Definition seasons_wanted (sourceMode : string) (numSeasons : Z) : Z * Z :=
  let n := if numSeasons =? 0 then 5 else numSeasons in
  if bool_decide (sourceMode = "manual") || bool_decide (sourceMode = "demand") then (1, n)
  else (Z.max 1 (n - 2 + 1), n).

(** Releases with their hashes, in the order in which they were found. *)
Abbreviation found := (list Stream * gset string)%type.

Definition add_release (lower : bool) (x : found) (s : Stream) : found :=
  let '(all, seen) := x in
  let h := if lower then ToLower (sInfoHash s) else sInfoHash s in
  if bool_decide (h = "") || bool_decide (h ∈ seen) then x else (all ++ [s], {[h]} ∪ seen).

(** The queries with and without the year; enough results with the year end the
    search. *)
Fixpoint search_prowlarr (queries : list (string * bool)) (imdbID : string) (e : TVGoEngine) (x : found) (w : W) : found * W :=
  match queries with
  | [] => (x, w)
  | (q, with_year) :: queries' =>
      let '(x1, w1) :=
        if hasProwlarr e then let '(l, w1) := FetchSeries imdbID q w in (foldl (add_release true) x l, w1) else (x, w) in
      if with_year && (20 <? length x1.1)%nat then (x1, w1) else search_prowlarr queries' imdbID e x1 w1
  end.

Definition season_counts (positive : bool) (l : list (Z * Z)) : gmap Z Z :=
  foldl (λ m sd, if (0 <? sd.1) && (negb positive || (0 <? sd.2)) then <[sd.1 := sd.2]> m else m) ∅ l.

(** One episode at Torrentio, whose releases come without a size. *)
Definition fetch_episode (imdbID : string) (season : Z) (st : found * W) (ep : Z) : found * W :=
  let '(x, w) := st in
  let '(r, w1) := FetchEpisodeStreams imdbID season ep w in
  match r with
  | None => (x, w1)
  | Some l => (foldl (λ x s, add_release false x (MkStream (sName s) (sTitle s) (sInfoHash s) (f64_of_Z 0))) x l, limiter_Wait w1)
  end.

Definition fetch_season (imdbID : string) (counts : gmap Z Z) (st : found * W) (season : Z) : found * W :=
  let c := default 0 (counts !! season) in
  foldl (fetch_episode imdbID season) st (seqZ 1 (if c =? 0 then 10 else c)).

Definition search (imdbID showName : string) (details : TVDetail) (range : Z * Z) (e : TVGoEngine) (w : W) : list Stream * W :=
  let year := year_of (dFirstAirDate details) in
  let queries := if bool_decide (year ≠ "") then [(showName +:+ " (" +:+ year +:+ ")", true); (showName, false)]
                 else [(showName, false)] in
  let '(x, w1) := search_prowlarr queries imdbID e ([], ∅) w in
  match x.1 with
  | [] =>
      let '(x2, w2) := foldl (fetch_season imdbID (season_counts false (Seasons details))) (x, w1)
                         (seqZ range.1 (range.2 - range.1 + 1)) in
      (x2.1, w2)
  | l => (l, w1)
  end.

(** The releases that are kept: of the show, allowed, and of a season that is
    wanted. *)
Definition wanted (e : TVGoEngine) (showName : string) (range : Z * Z) (s : Stream) : option TVStream :=
  c ← classifyStream undef (blacklist e) s showName;
  if (tsSeason c <? range.1) || (range.2 <? tsSeason c) then None
  else match extractSeasonSpan (tsTitle c) with
  | Some (a, _) => if a <? range.1 then None else Some c
  | None => Some c
  end.

Definition getStreams (imdbID showName : string) (details : TVDetail) (sourceMode : string) (e : TVGoEngine) (w : W) :
    list TVStream * W :=
  let range := seasons_wanted sourceMode (NumberOfSeasons details) in
  let '(all, w1) := search imdbID showName details range e w in
  (omap (wanted e showName range) all, w1).

(** ** Installing episodes *)

Definition tvUpgradeThreshold : float64 := f64_lit 12 1.

(** Whether what the registry has is good enough. *)
Definition keeps_existing (e : TVGoEngine) (key : string) (score : Z) : bool :=
  match registry e !! key with
  | Some old => f64_leb (f64_of_Z score) (f64_mul (f64_of_Z (eQualityScore old)) tvUpgradeThreshold)
  | None => false
  end.

Definition skip_episode (key : string) (e : TVGoEngine) : TVGoEngine :=
  set_processed ({[key]} ∪ processedThisRun e) (set_stats (skipped (stats e)) e).

Definition first8 (s : string) : option string := if (8 <=? String.length s)%nat then Some (String.substring 0 8 s) else None.

Definition stream_url (e : TVGoEngine) (hash : string) (f : FileStat) : string :=
  baseURL e +:+ "/stream?link=" +:+ hash +:+ "&index=" +:+ pretty (fID f) +:+ "&play".

(** The old file goes once the new one is there, unless they are the same. *)
Definition drop_old (key epPath : string) (e : TVGoEngine) : TVGoEngine :=
  match registry e !! key with
  | Some old =>
      if bool_decide (eFilePath old ≠ "") && bool_decide (eFilePath old ≠ epPath)
      then set_stats (upgraded (stats e)) (set_library (delete (eFilePath old) (library e)) e)
      else e
  | None => e
  end.

(** The new file of an episode with its entry; [false] if it cannot be written. *)
Definition install (showName firstAirDate : string) (season episode : Z) (source magnet hash hash8 : string) (score : Z)
    (f : FileStat) (e : TVGoEngine) (w : W) : bool * TVGoEngine :=
  let key := episodeKey showName firstAirDate season episode in
  let epPath := episode_path (tvDir e) showName firstAirDate season episode hash8 in
  match createMKV epPath (stream_url e hash f) (fLength f) magnet e w with
  | None => (false, e)
  | Some e =>
      let e := registerEpisode key score hash epPath source (drop_old key epPath e) w in
      (true, set_processed ({[key]} ∪ processedThisRun e) e)
  end.

(** One video file of a pack. *)
Definition pack_file (showName : string) (stream : TVStream) (firstAirDate magnet hash : string) (f : FileStat)
    (e : TVGoEngine) (w : W) : option (bool * TVGoEngine) :=
  let '(season, episode) := extractEpisodeFromFilename (Base (fPath f)) in
  if (season =? 0) && (episode =? 0) then Some (false, e)
  else
    let key := episodeKey showName firstAirDate season episode in
    if bool_decide (key ∈ processedThisRun e) then Some (false, e)
    else if keeps_existing e key (tsQualityScore stream) then Some (false, skip_episode key e)
    else
      hash8 ← first8 hash;
      Some (install showName firstAirDate season episode "fullpack" magnet hash hash8 (tsQualityScore stream) f e w).

Fixpoint pack_files (showName : string) (stream : TVStream) (firstAirDate magnet hash : string) (fs : list FileStat)
    (created : Z) (e : TVGoEngine) (w : W) : option (Z * TVGoEngine) :=
  match fs with
  | [] => Some (created, e)
  | f :: fs' =>
      '(b, e1) ← pack_file showName stream firstAirDate magnet hash f e w;
      pack_files showName stream firstAirDate magnet hash fs' (if b : bool then created + 1 else created) e1 w
  end.

Definition stream_magnet (stream : TVStream) : string := BuildMagnet (tsHash stream) (tsTitle stream) DefaultTrackers.

Definition processFullpack (showName : string) (stream : TVStream) (firstAirDate : string) (e : TVGoEngine) (w : W) :
    option (Z * TVGoEngine * W) :=
  let magnet := stream_magnet stream in
  let '(r, w1) := AddTorrent magnet (tsTitle stream) w in
  match r with
  | None | Some "" => Some (0, e, w1)
  | Some hash =>
      let '(info, w2) := GetTorrentInfo hash 90 w1 in
      match info with
      | None => Some (0, e, post_rem hash w2)
      | Some files =>
          match filterPackVideoFilesByStreamingPolicy undef files stream with
          | [] => Some (0, e, post_rem hash w2)
          | videoFiles =>
              '(created, e1) ← pack_files showName stream firstAirDate magnet hash videoFiles 0 e w2;
              Some (created, e1, if created =? 0 then post_rem hash w2 else w2)
          end
      end
  end.

Definition processSingle (showName : string) (stream : TVStream) (firstAirDate : string) (e : TVGoEngine) (w : W) :
    option (Z * TVGoEngine * W) :=
  match FindStringSubmatch reTVEpNum (tsTitle stream) 2 with
  | None => Some (0, e, w)
  | Some n =>
      let episode := Atoi n in
      let season := tsSeason stream in
      let key := episodeKey showName firstAirDate season episode in
      if bool_decide (key ∈ processedThisRun e) then Some (0, e, w)
      else if keeps_existing e key (tsQualityScore stream) then Some (0, skip_episode key e, w)
      else
        let magnet := stream_magnet stream in
        let '(r, w1) := AddTorrent magnet (tsTitle stream) w in
        match r with
        | None | Some "" => Some (0, e, w1)
        | Some hash =>
            let '(info, w2) := GetTorrentInfo hash 20 w1 in
            match info with
            | None => Some (0, e, post_rem hash w2)
            | Some files =>
                match bestFile undef files stream with
                | None => Some (0, e, post_rem hash w2)
                | Some f =>
                    hash8 ← first8 hash;
                    let '(b, e1) := install showName firstAirDate season episode "single" magnet hash hash8
                                      (tsQualityScore stream) f e w2 in
                    Some (if b : bool then 1 else 0, e1, w2)
                end
            end
        end
  end.

(** ** Processing a show *)

(** The scores of the entries that count for a season. *)
Definition season_scores (reg : gmap string TVEpisodeEntry) (normalized : string) (season : Z) : list Z :=
  (λ kv, eQualityScore kv.2) <$>
    filter (λ kv, String.prefix normalized kv.1 = true ∧ Contains kv.1 ("_s" +:+ pad2 season +:+ "e") = true) (map_to_list reg).

(** The seasons with as many entries as TMDB has episodes, and their mean score. *)
Definition getCompleteSeasons (showName : string) (details : TVDetail) (e : TVGoEngine) : gmap Z float64 :=
  map_imap (λ season expected,
    let scores := season_scores (registry e) (normal_show showName) season in
    if expected <=? Z.of_nat (length scores)
    then Some (f64_div (f64_of_Z (int64 (foldr Z.add 0 scores))) (f64_of_Z (Z.of_nat (length scores))))
    else None) (season_counts true (Seasons details)).

Definition tvMinQualitySkip : Z := 1000.
Definition good_season (avg : float64) : bool := f64_leb (f64_of_Z tvMinQualitySkip) avg.

Definition saveTVAlternatives (imdbID : string) (streams : list TVStream) (e : TVGoEngine) : TVGoEngine :=
  match db e, streams with
  | None, _ | _, [] => e
  | Some _, _ =>
      let alts := imap (λ i s, MkAlt (Z.of_nat i + 1) (tsHash s) (tsTitle s)
          (f64_to_int64 undef (f64_mul (f64_mul (f64_mul (tsSizeGB s) (f64_of_Z 1024)) (f64_of_Z 1024)) (f64_of_Z 1024)))
          (tsSeeders s) (tsQualityScore s)) (take 20 streams) in
      set_alternatives (<[imdbID := alts]> (alternatives e)) e
  end.

(** What the loop over the packs keeps: episodes created, complete seasons and
    the count per season. *)
Record progress := MkProgress { pr_created : Z; seasonsComplete : gset Z; seasonsEpCount : gmap Z Z }.

Definition note_pack (expected : gmap Z Z) (stream : TVStream) (count : Z) (p : progress) : progress :=
  if count <=? 0 then p
  else
    let season := tsSeason stream in
    let total := default 0 (seasonsEpCount p !! season) + count in
    let exp := default 0 (expected !! season) in
    let complete := if (0 <? exp) && (exp <=? total) then true else negb (IsPartialPack stream) && (exp =? 0) && (5 <=? count) in
    MkProgress (pr_created p + count) (if complete then {[season]} ∪ seasonsComplete p else seasonsComplete p)
      (<[season := total]> (seasonsEpCount p)).

Fixpoint process_packs (showName firstAirDate : string) (expected : gmap Z Z) (skip : gset Z) (streams : list TVStream)
    (p : progress) (e : TVGoEngine) (w : W) : option (progress * TVGoEngine * W) :=
  match streams with
  | [] => Some (p, e, w)
  | s :: streams' =>
      let next := process_packs showName firstAirDate expected skip streams' in
      if negb (IsFullpack s) || bool_decide (tsSeason s ∈ skip) || bool_decide (tsSeason s ∈ seasonsComplete p) then next p e w
      else
        '(count, e1, w1) ← processFullpack showName s firstAirDate e w;
        next (note_pack expected s count p) e1 w1
  end.

Definition tvSinglesLimit : Z := 15.

Fixpoint process_singles (showName firstAirDate : string) (skip complete : gset Z) (streams : list TVStream)
    (done created : Z) (e : TVGoEngine) (w : W) : option (Z * TVGoEngine * W) :=
  match streams with
  | [] => Some (created, e, w)
  | s :: streams' =>
      let next := process_singles showName firstAirDate skip complete streams' in
      if IsFullpack s then next done created e w
      else if tvSinglesLimit <=? done then Some (created, e, w)
      else if bool_decide (tsSeason s ∈ skip) || bool_decide (tsSeason s ∈ complete) then next done created e w
      else
        '(count, e1, w1) ← processSingle showName s firstAirDate e w;
        next (done + 1) (created + count) e1 w1
  end.

Context `{HS : !SliceSort}.

Definition show_name (show : TVShowInfo) : string := if bool_decide (siName show = "") then siOriginalName show else siName show.
Definition fixed_mode (show : TVShowInfo) : bool :=
  bool_decide (SourceMode show = "manual") || bool_decide (SourceMode show = "demand").

(** The lookups at TMDB: the IMDb number and the details. *)
Definition lookup_show (show : TVShowInfo) (w : W) : option (string * TVDetail) * W :=
  let '(imdb, w1) :=
    if fixed_mode show && bool_decide (siIMDBID show ≠ "") then (Some (siIMDBID show), w)
    else let '(r, w1) := TVExternalIDs (siID show) w in
         (match r with Some i => if bool_decide (i = "") then None else Some i | None => None end, w1) in
  match imdb with
  | None => (None, w1)
  | Some i => let '(d, w2) := TVDetails (siID show) w1 in ((λ d, (i, d)) <$> d, w2)
  end.

(** The part of [processShow] after the search. *)
Definition install_show (show : TVShowInfo) (imdbID : string) (details : TVDetail) (skip : gset Z) (streams : list TVStream)
    (e : TVGoEngine) (w : W) : option (TVGoEngine * W) :=
  let showName := show_name show in
  let streams := sort_slice (λ a b, BetterThan (tsRank a) (tsRank b)) streams in
  let e := saveTVAlternatives imdbID streams e in
  '(p, e, w) ← process_packs showName (siFirstAirDate show) (season_counts true (Seasons details)) skip streams
                 (MkProgress 0 ∅ ∅) e w;
  '(created, e, w) ← process_singles showName (siFirstAirDate show) skip (seasonsComplete p) streams 0 (pr_created p) e w;
  Some (if 0 <? created
        then set_stats (MkStats (Shows (stats e) + 1) (EpisodesCreated (stats e) + created) (EpisodesSkipped (stats e)) (Upgrades (stats e))) e
        else e, w).

Definition processShow (show : TVShowInfo) (e : TVGoEngine) (w : W) : option (TVGoEngine * W) :=
  let showName := show_name show in
  if bool_decide (showName = "") then Some (e, w)
  else if negb (fixed_mode show) && isBlacklisted (blacklist e) showName then Some (e, w)
  else
    let '(r, w1) := lookup_show show w in
    match r with
    | None => Some (e, w1)
    | Some (imdbID, details) =>
        let complete := getCompleteSeasons showName details e in
        let good := filter (λ kv, good_season kv.2 = true) complete in
        let allComplete := forallb (λ kv, good_season kv.2) (map_to_list complete) in
        if SkipCompleteSeasons (channel e) && allComplete && (0 <? size complete)%nat then Some (e, w1)
        else
          let '(streams, w2) := getStreams imdbID showName details (SourceMode show) e w1 in
          match streams with
          | [] => Some (e, w2)
          | _ => install_show show imdbID details (dom good) streams e w2
          end
    end.

(** ** After the shows *)

Definition cleanupOrphanedFiles (e : TVGoEngine) : TVGoEngine :=
  set_library (filter (λ f, is_mkv f.1 = false ∨ registryByPath (registry e) f.1 = true) (library e)) e.

Definition rehydrate_file (st : list string * TVGoEngine * W) (f : string * mkv) : list string * TVGoEngine * W :=
  let '(active, e, w) := st in
  if negb (is_mkv f.1) then st
  else
    match mkv_parts undef f.2 with
    | None => st
    | Some (url, magnet, size) =>
        match FindStringSubmatch reTVHashURL url 1 with
        | None => st
        | Some hash =>
            if bool_decide (hash ∈ active) then st
            else if String.prefix "magnet:?" magnet then
              let displayTitle := TitleFromFilename (Base f.1) in
              let freshMagnet := BuildMagnet hash displayTitle DefaultTrackers in
              let '(r, w1) := AddTorrent freshMagnet displayTitle w in
              match r with
              | Some _ => (hash :: active, default e (createMKV f.1 url size freshMagnet e w1), Sleep 5 w1)
              | None => (active, e, w1)
              end
            else st
        end
    end.

Definition rehydrateMissingTorrents (e : TVGoEngine) (w : W) : TVGoEngine * W :=
  let '(r, w1) := ListTorrents w in
  match r with
  | None => (e, w1)
  | Some torrents => let '(_, e1, w2) := foldl rehydrate_file (fst <$> torrents, e, w1) (walk_tree (library e)) in (e1, w2)
  end.

(** The hashes that episodes refer to: of the registry and of the files. *)
Definition registry_hashes (e : TVGoEngine) : list string := (λ kv, ToLower (eHash kv.2)) <$> map_to_list (registry e).
Definition disk_hashes (e : TVGoEngine) : list string :=
  omap (λ f, if is_mkv f.1 then ToLower <$> FindStringSubmatch reTVHashURL (file_link f.2) 1 else None) (map_to_list (library e)).

Definition orphaned_torrent (e : TVGoEngine) (t : string * string) : bool :=
  bool_decide (ToLower t.1 ≠ "") && MatchString reTVSeries t.2 &&
  negb (bool_decide (ToLower t.1 ∈ registry_hashes e) || bool_decide (ToLower t.1 ∈ disk_hashes e)).

(** The removals; the message about one cuts the hash to eight characters. *)
Fixpoint remove_torrents (hashes : list string) (w : W) : option W :=
  match hashes with
  | [] => Some w
  | h :: l => if rem_succeeds h w && (String.length h <? 8)%nat then None else remove_torrents l (post_rem h w)
  end.

Definition cleanupOrphanedTorrents (e : TVGoEngine) (w : W) : option W :=
  let '(r, w1) := ListTorrents w in
  match r with
  | None => Some w1
  | Some torrents => remove_torrents ((λ t, ToLower t.1) <$> filter (λ t, orphaned_torrent e t = true) torrents) w1
  end.

(** ** A run *)

Fixpoint process_shows (shows : list TVShowInfo) (e : TVGoEngine) (w : W) : option (bool * TVGoEngine * W) :=
  match shows with
  | [] => Some (true, e, w)
  | s :: shows' =>
      if Done w then Some (false, e, w)
      else '(e1, w1) ← processShow s e w; process_shows shows' e1 w1
  end.

(** [true] if the run went through; the message to Plex is left out. *)
Definition Run (e : TVGoEngine) (w : W) : option (bool * TVGoEngine * W) :=
  let '(e, w) := populateRegistryFromExisting e w in
  let '(shows, w) := discoverShows e w in
  match shows with
  | None => Some (false, e, w)
  | Some [] => Some (true, e, w)
  | Some shows =>
      '(completed, e, w) ← process_shows shows e w;
      if completed : bool then
        let e := cleanupOrphanedFiles (saveRegistry e) in
        w ← cleanupOrphanedTorrents e w;
        let '(e, w) := rehydrateMissingTorrents e w in
        Some (true, e, w)
      else Some (false, e, w)
  end.
End engine.

(** [NewTVGoEngine], with what the state directory and the database hold. *)
Definition NewTVGoEngine {W} `{!World W, !TVWorld W} (file d : option (gmap string TVEpisodeEntry)) (bl : BlacklistData)
    (prowlarr endpoints : bool) (url dir : string) (ch : TVChannelConfig) (lib : gmap string mkv) (w : W) : TVGoEngine :=
  MkTV (loadRegistry d file w) file d ∅ no_stats bl prowlarr endpoints url dir ch ∅ lib.

(** ** What processing may change *)

(** The score of a release lets it replace one. *)
Definition upgrade (new old : Z) : Prop := f64_leb (f64_of_Z new) (f64_mul (f64_of_Z old) tvUpgradeThreshold) = false.

(** From one state of a run to a later one. Processed episodes stay processed
    and keep their entry; an entry that is new has become processed, is an
    upgrade of the one it replaces, and is of the kind [ok] together with the
    contents of its file; a file has the contents that belong to such an entry,
    is gone with an entry that was replaced, or is as before. *)
Record changes (ok : string → TVEpisodeEntry → mkv → Prop) (e e' : TVGoEngine) : Prop := {
  ch_processed : processedThisRun e ⊆ processedThisRun e';
  ch_registry k : registry e' !! k = registry e !! k ∨
    k ∉ processedThisRun e ∧ k ∈ processedThisRun e' ∧
    ∃ new c, registry e' !! k = Some new ∧ ok k new c ∧
      ∀ old, registry e !! k = Some old → upgrade (eQualityScore new) (eQualityScore old);
  ch_library p : library e' !! p = library e !! p ∨
    (∃ k new c, k ∈ processedThisRun e' ∧ registry e' !! k = Some new ∧ ok k new c ∧ eFilePath new = p ∧ library e' !! p = Some c) ∨
    (library e' !! p = None ∧ ∃ k old, registry e !! k = Some old ∧ eFilePath old = p ∧ registry e' !! k ≠ registry e !! k);
  ch_config : tvDir e' = tvDir e ∧ baseURL e' = baseURL e ∧ channel e' = channel e ∧ blacklist e' = blacklist e;
}.

Section changes.
Context (ok : string → TVEpisodeEntry → mkv → Prop).

Lemma changes_refl e : changes ok e e.
Proof. split; auto. Qed.

(** An entry that was changed stays. *)
Lemma changes_frozen e e' k : changes ok e e' → k ∈ processedThisRun e → registry e' !! k = registry e !! k.
Proof. intros H Hk. by destruct (ch_registry _ _ _ H k) as [?|[? _]]. Qed.

Lemma changes_changed e e' k : changes ok e e' → registry e' !! k ≠ registry e !! k → k ∈ processedThisRun e'.
Proof. intros H Hk. by destruct (ch_registry _ _ _ H k) as [?|(_ & ? & _)]. Qed.

Lemma changes_trans e1 e2 e3 : changes ok e1 e2 → changes ok e2 e3 → changes ok e1 e3.
Proof.
  intros H12 H23. pose proof (ch_processed _ _ _ H12) as S12. pose proof (ch_processed _ _ _ H23) as S23.
  assert (∀ k, registry e2 !! k ≠ registry e1 !! k → registry e3 !! k = registry e2 !! k) as Hfix.
  { intros k Hk. eapply changes_frozen; [done|]. by eapply changes_changed. }
  split.
  - set_solver.
  - intros k. destruct (ch_registry _ _ _ H23 k) as [E3|(Hk & Hk' & new & c & En & Ho & Hu)].
    + rewrite E3. destruct (ch_registry _ _ _ H12 k) as [E2|(Hk & Hk' & Hn)]; [by left|right]. split_and!; [done|set_solver|done].
    + destruct (ch_registry _ _ _ H12 k) as [E2|(_ & ? & _)]; [|done]. right. rewrite <-E2. split_and!; [set_solver|done|eauto].
  - intros p. destruct (ch_library _ _ _ H23 p) as [E3|[Hn|(E3 & k & old & Eo & Ep & Hne)]].
    + rewrite E3. destruct (ch_library _ _ _ H12 p) as [E2|[(k & new & c & Hk & En & Ho & Ep & El)|(E2 & k & old & Eo & Ep & Hne)]]; [by left|right; left|right; right].
      * exists k, new, c. split_and!; [set_solver|by rewrite (changes_frozen _ _ _ H23 Hk)|done|done|done].
      * split; [done|]. exists k, old. split_and!; [done|done|]. by rewrite Hfix.
    + by right; left.
    + right; right. split; [done|]. exists k, old. destruct (ch_registry _ _ _ H12 k) as [E2|(_ & Hk & _)].
      * rewrite E2 in *. done.
      * by rewrite (changes_frozen _ _ _ H23 Hk) in Hne.
  - destruct (ch_config _ _ _ H12) as (? & ? & ? & ?), (ch_config _ _ _ H23) as (? & ? & ? & ?). split_and!; congruence.
Qed.

Lemma changes_mono (ok' : string → TVEpisodeEntry → mkv → Prop) e e' :
  (∀ k new c, ok k new c → ok' k new c) → changes ok e e' → changes ok' e e'.
Proof.
  intros Hok [H1 H2 H3 H4]. split; [done|..|done].
  - intros k. destruct (H2 k) as [?|(? & ? & new & c & ? & ? & ?)]; [by left|right]. split_and!; [done|done|]. exists new, c. auto.
  - intros p. destruct (H3 p) as [?|[(k & new & c & ? & ? & ? & ? & ?)|?]]; [by left|right; left|by right; right].
    exists k, new, c. split_and!; auto.
Qed.

(** Statistics, alternatives and the store of the registry do not matter. *)
Lemma changes_same e e1 e' :
  changes ok e e1 → registry e' = registry e1 → processedThisRun e' = processedThisRun e1 → library e' = library e1 →
  (tvDir e' = tvDir e1 ∧ baseURL e' = baseURL e1 ∧ channel e' = channel e1 ∧ blacklist e' = blacklist e1) → changes ok e e'.
Proof.
  intros [H1 H2 H3 (Ha & Hb & Hc & Hd)] Er Ep El (Ea & Eb & Ec & Ed). split; rewrite ?Er, ?Ep, ?El, ?Ea, ?Eb, ?Ec, ?Ed; auto.
Qed.
End changes.

Section steps.
Context (undef : float64 → Z) {W : Type} `{HW : !World W, HT : !TVWorld W}.

Lemma skip_episode_changes ok key e : changes ok e (skip_episode key e).
Proof. split; cbn; [set_solver|auto|auto|done]. Qed.

Lemma registerEpisode_fields key score hash path source e (w : W) :
  let e' := registerEpisode key score hash path source e w in
  registry e' = <[key := MkEpisode score hash path source (unix w)]> (registry e) ∧ library e' = library e ∧
  processedThisRun e' = processedThisRun e ∧ tvDir e' = tvDir e ∧ baseURL e' = baseURL e ∧ channel e' = channel e ∧
  blacklist e' = blacklist e ∧ stats e' = stats e.
Proof. unfold registerEpisode. cbn. destruct (db e); [case_match|]; done. Qed.

Lemma drop_old_fields key p e :
  let e' := drop_old key p e in
  registry e' = registry e ∧ processedThisRun e' = processedThisRun e ∧ tvDir e' = tvDir e ∧ baseURL e' = baseURL e ∧
  channel e' = channel e ∧ blacklist e' = blacklist e ∧ library e' !! p = library e !! p ∧
  (∀ q, library e' !! q = library e !! q ∨ library e' !! q = None ∧ ∃ old, registry e !! key = Some old ∧ eFilePath old = q).
Proof.
  unfold drop_old. destruct (registry e !! key) as [old|] eqn:Eo; [|by split_and!; auto].
  destruct (bool_decide (eFilePath old ≠ "") && _) eqn:Ec; [|by split_and!; auto].
  apply andb_true_iff in Ec as [_ Hp%bool_decide_eq_true]. cbn. split_and!; try done; [by rewrite lookup_delete_ne|].
  intros q. destruct (decide (q = eFilePath old)) as [->|Hq]; [right; rewrite lookup_delete_eq; eauto|left; by rewrite lookup_delete_ne].
Qed.

(** A new file and its entry. *)
Lemma install_changes showName date season episode source magnet hash hash8 score f e (w : W) :
  let key := episodeKey showName date season episode in
  let path := episode_path (tvDir e) showName date season episode hash8 in
  let new := MkEpisode score hash path source (unix w) in
  let c := JsonMkv (stream_url e hash f) (fLength f) magnet "" in
  let '(b, e') := install showName date season episode source magnet hash hash8 score f e w in
  b = writable path w ∧ (b = false → e' = e) ∧
  (key ∉ processedThisRun e → keeps_existing e key score = false → b = true →
   changes (λ k n d, k = key ∧ n = new ∧ d = c) e e' ∧ key ∈ processedThisRun e' ∧ registry e' !! key = Some new ∧ library e' !! path = Some c).
Proof.
  intros key path new c. unfold install, createMKV. fold key path c. destruct (writable path w) eqn:Hw; [|by split_and!].
  set (e1 := set_library _ e). pose proof (drop_old_fields key path e1) as (Dr & Dp & D1 & D2 & D3 & D4 & Dl & Dq).
  pose proof (registerEpisode_fields key score hash path source (drop_old key path e1) w) as (Rr & Rl & Rp & R1 & R2 & R3 & R4 & _).
  set (e2 := registerEpisode _ _ _ _ _ _ _) in *. rewrite Dr in Rr. change (registry e1) with (registry e) in Rr. fold new in Rr.
  rewrite Dp in Rp. change (processedThisRun e1) with (processedThisRun e) in Rp. split; [done|]. split; [done|]. intros Hk Hu _.
  assert (library e2 !! path = Some c) as Hlib by (rewrite Rl, Dl; cbn; by rewrite lookup_insert_eq).
  split_and!; [split|cbn; set_solver|cbn; by rewrite Rr, lookup_insert_eq|done].
  - cbn. rewrite Rp. set_solver.
  - intros k. cbn. rewrite Rr. destruct (decide (k = key)) as [->|Hne]; [right|left; by rewrite lookup_insert_ne].
    rewrite lookup_insert_eq. split_and!; [done|set_solver|]. exists new, c. split; [done|]. split; [done|].
    intros old Eo. unfold keeps_existing in Hu. by rewrite Eo in Hu.
  - intros p. cbn. destruct (decide (p = path)) as [->|Hp].
    + right; left. exists key, new, c. split_and!; try done; [set_solver|by rewrite Rr, lookup_insert_eq].
    + rewrite Rl. destruct (Dq p) as [E|(E & old & Eo & Ep)].
      * left. rewrite E. cbn. by rewrite lookup_insert_ne.
      * right; right. split; [done|]. exists key, old. split_and!; [done|done|]. rewrite Rr, lookup_insert_eq. cbn in Eo. rewrite Eo.
        intros [= E']. apply Hp. by rewrite <-Ep, <-E'.
  - cbn. rewrite R1, R2, R3, R4, D1, D2, D3, D4. done.
Qed.
End steps.

(** ** Packs and single episodes *)

(** The entry and the file of an episode that comes from a file of a torrent. *)
Definition made (base dir showName date source magnet hash : string) (score created season episode : Z) (f : FileStat)
    (key : string) (new : TVEpisodeEntry) (c : mkv) : Prop :=
  key = episodeKey showName date season episode ∧
  (∃ hash8, first8 hash = Some hash8 ∧
     new = MkEpisode score hash (episode_path dir showName date season episode hash8) source created) ∧
  c = JsonMkv (base +:+ "/stream?link=" +:+ hash +:+ "&index=" +:+ pretty (fID f) +:+ "&play") (fLength f) magnet "".

(** The episode that a file name tells. *)
Definition numbered (f : FileStat) (season episode : Z) : Prop :=
  extractEpisodeFromFilename (Base (fPath f)) = (season, episode) ∧ (season, episode) ≠ (0, 0).

(** What a pack may make of the files [fs]. *)
Definition pack_made (fs : list FileStat) (base dir showName date magnet hash : string) (score created : Z)
    (key : string) (new : TVEpisodeEntry) (c : mkv) : Prop :=
  ∃ f season episode, f ∈ fs ∧ numbered f season episode ∧
    made base dir showName date "fullpack" magnet hash score created season episode f key new c.

Section packs.
Context (undef : float64 → Z) {W : Type} `{HW : !World W, HT : !TVWorld W}.
Context (showName : string) (stream : TVStream) (date magnet hash : string).

Abbreviation ep_path dir season episode hash8 := (episode_path dir showName date season episode hash8).

(** The episode of [f] has been dealt with: it is processed, or its file could
    not be written. *)
Definition dealt_with (f : FileStat) (e : TVGoEngine) (w : W) : Prop :=
  ∀ season episode, numbered f season episode →
    episodeKey showName date season episode ∈ processedThisRun e ∨
    ∃ hash8, first8 hash = Some hash8 ∧ writable (ep_path (tvDir e) season episode hash8) w = false.

Lemma dealt_with_later ok f e e' (w : W) : changes ok e e' → dealt_with f e w → dealt_with f e' w.
Proof.
  intros H Hf season episode Hn. destruct (ch_config _ _ _ H) as (-> & _). destruct (Hf _ _ Hn) as [Hk|Hk]; [left|by right].
  by apply (ch_processed _ _ _ H).
Qed.

Lemma pack_file_changes f e (w : W) b e' :
  pack_file showName stream date magnet hash f e w = Some (b, e') →
  changes (pack_made [f] (baseURL e) (tvDir e) showName date magnet hash (tsQualityScore stream) (unix w)) e e' ∧
  (b = false → registry e' = registry e ∧ library e' = library e) ∧ dealt_with f e' w.
Proof.
  unfold pack_file. destruct (extractEpisodeFromFilename _) as [season episode] eqn:Ex. intros E.
  destruct ((season =? 0) && (episode =? 0)) eqn:Hz.
  { injection E as <- <-. split_and!; [apply changes_refl|done|]. intros s n [Hn Hnz]. rewrite Ex in Hn. injection Hn as <- <-.
    apply andb_true_iff in Hz as [->%Z.eqb_eq ->%Z.eqb_eq]. done. }
  assert (numbered f season episode) as Hnum.
  { split; [done|]. intros [= -> ->]. done. }
  assert (∀ s n, numbered f s n → s = season ∧ n = episode) as Hsame.
  { intros s n [Hn _]. rewrite Ex in Hn. by injection Hn as <- <-. }
  case_bool_decide as Hk; [|destruct (keeps_existing _ _ _) eqn:Hu].
  - injection E as <- <-. split_and!; [apply changes_refl|done|]. intros s n [-> ->]%Hsame. by left.
  - injection E as <- <-. split_and!; [apply skip_episode_changes|done|]. intros s n [-> ->]%Hsame. left. cbn. set_solver.
  - destruct (first8 hash) as [hash8|] eqn:H8; [|done]. cbn [mbind option_bind] in E. injection E as E.
    pose proof (install_changes showName date season episode "fullpack" magnet hash hash8 (tsQualityScore stream) f e w) as Hi.
    rewrite E in Hi. destruct Hi as (Hb & Hno & Hyes). destruct b.
    + destruct (Hyes Hk Hu eq_refl) as (Hc & Hin & _). split_and!; [|done|].
      * eapply changes_mono; [|exact Hc]. intros k n c (-> & -> & ->). exists f, season, episode.
        split_and!; [by apply list_elem_of_singleton|by destruct Hnum..|]. split_and!; [done|eauto|done].
      * intros s n [-> ->]%Hsame. by left.
    + rewrite (Hno eq_refl). split_and!; [apply changes_refl|done|]. intros s n [-> ->]%Hsame. right. eauto.
Qed.

Lemma pack_made_mono (fs fs' : list FileStat) base dir score created k n c :
  fs ⊆ fs' → pack_made fs base dir showName date magnet hash score created k n c →
  pack_made fs' base dir showName date magnet hash score created k n c.
Proof. intros Hs (f & s & ep & Hf & Hn & Hm). exists f, s, ep. auto. Qed.

Lemma pack_files_changes fs created e (w : W) n e' :
  pack_files showName stream date magnet hash fs created e w = Some (n, e') →
  changes (pack_made fs (baseURL e) (tvDir e) showName date magnet hash (tsQualityScore stream) (unix w)) e e' ∧
  created ≤ n ∧ (n = created → registry e' = registry e ∧ library e' = library e) ∧ (∀ f, f ∈ fs → dealt_with f e' w).
Proof.
  revert created e. induction fs as [|f fs IH]; intros created e E; cbn [pack_files] in E.
  { injection E as <- <-. split_and!; [apply changes_refl|lia|done|]. intros f Hf. by apply elem_of_nil in Hf. }
  destruct (pack_file _ _ _ _ _ _ _ _) as [[b e1]|] eqn:E1; [|done]. cbn [mbind option_bind] in E.
  apply pack_file_changes in E1 as (Hc & Hb & Hd). apply IH in E as (Hcs & Hn & Hsame & Hds).
  destruct (ch_config _ _ _ Hc) as (Ed & Eb & _). rewrite Ed, Eb in Hcs. split_and!.
  - eapply changes_trans; (eapply changes_mono; [|eassumption]); intros k new c; apply pack_made_mono; set_solver.
  - destruct b; lia.
  - intros ->. destruct b; [lia|]. destruct (Hb eq_refl) as [Er El], (Hsame eq_refl) as [Er' El']. split; congruence.
  - intros g [->|Hg]%elem_of_cons; [by eapply dealt_with_later|by apply Hds].
Qed.
End packs.

Section shows.
Context (undef : float64 → Z) {W : Type} `{HW : !World W, HT : !TVWorld W}.

(** The files of a torrent that a pack may use. *)
Lemma filterPack_elem files stream f :
  f ∈ filterPackVideoFilesByStreamingPolicy undef files stream ↔
  f ∈ files ∧ valid_episode undef stream (pack_resolution stream f) f = true.
Proof. unfold filterPackVideoFilesByStreamingPolicy. rewrite list_elem_of_filter. naive_solver. Qed.

Lemma bestFile_spec files stream f : bestFile undef files stream = Some f →
  f ∈ files ∧ valid_episode undef stream (single_resolution stream f) f = true ∧
  ∀ g, g ∈ files → valid_episode undef stream (single_resolution stream g) g = true → fLength g ≤ fLength f.
Proof.
  unfold bestFile. set (P := λ f, valid_episode undef stream (single_resolution stream f) f = true).
  assert (∀ l b f, foldl longest b l = Some f →
    (b = Some f ∨ f ∈ l) ∧ (∀ g, b = Some g ∨ g ∈ l → fLength g ≤ fLength f)) as Hl.
  { induction l as [|x l IH]; intros b f0 E; cbn in E.
    - subst b. split; [by left|]. intros g [[= ->]|Hg]; [lia|by apply elem_of_nil in Hg].
    - apply IH in E as [Hf Hg]. destruct b as [y|]; cbn [longest] in *.
      + destruct (Z.ltb_spec (fLength y) (fLength x)) as [Hxy|Hxy]; (split; [destruct Hf as [[= ->]|?]; set_solver|]);
          intros g [[= ->]|[->|Hgl]%elem_of_cons]; try (by apply Hg; right); try (by apply Hg; left).
        * pose proof (Hg x (or_introl eq_refl)). lia.
        * pose proof (Hg y (or_introl eq_refl)). lia.
      + split; [destruct Hf as [[= ->]|?]; set_solver|]. intros g [?|[->|Hgl]%elem_of_cons]; [done|by apply Hg; left|by apply Hg; right]. }
  intros E. destruct (Hl _ _ _ E) as [[?|Hf] Hg]; [done|]. apply list_elem_of_filter in Hf as [HP Hf].
  split_and!; [done|done|]. intros g Hgf HgP. apply Hg. right. by apply list_elem_of_filter.
Qed.

(** What a single release may make of a file. *)
Definition single_made (f : FileStat) (stream : TVStream) (base dir showName date magnet hash : string) (created : Z)
    (key : string) (new : TVEpisodeEntry) (c : mkv) : Prop :=
  ∃ n, FindStringSubmatch reTVEpNum (tsTitle stream) 2 = Some n ∧
    made base dir showName date "single" magnet hash (tsQualityScore stream) created (tsSeason stream) (Atoi n) f key new c.

Lemma processSingle_changes showName stream date e (w : W) n e' w' :
  processSingle undef showName stream date e w = Some (n, e', w') →
  (n = 0 ∧ registry e' = registry e ∧ library e' = library e ∨ n = 1) ∧
  changes (λ k new c, ∃ f hash created,
    valid_episode undef stream (single_resolution stream f) f = true ∧
    single_made f stream (baseURL e) (tvDir e) showName date (stream_magnet stream) hash created k new c) e e'.
Proof.
  unfold processSingle. destruct (FindStringSubmatch _ _ _) as [d|] eqn:Ed; intros E;
    [|injection E as <- <- <-; split; [by left|apply changes_refl]].
  case_bool_decide as Hk; [injection E as <- <- <-; split; [by left|apply changes_refl]|].
  destruct (keeps_existing _ _ _) eqn:Hu; [injection E as <- <- <-; split; [by left|apply skip_episode_changes]|].
  destruct (AddTorrent _ _ w) as [[[|a hash]|] w1]; try (injection E as <- <- <-; split; [by left|apply changes_refl]).
  destruct (GetTorrentInfo _ _ w1) as [[files|] w2]; [|injection E as <- <- <-; split; [by left|apply changes_refl]].
  destruct (bestFile _ _ _) as [f|] eqn:Ef; [|injection E as <- <- <-; split; [by left|apply changes_refl]].
  destruct (first8 _) as [hash8|] eqn:H8; [|done]. cbn [mbind option_bind] in E.
  pose proof (install_changes showName date (tsSeason stream) (Atoi d) "single" (stream_magnet stream) (String a hash) hash8
    (tsQualityScore stream) f e w2) as Hi. destruct (install _ _ _ _ _ _ _ _ _ _ _ _) as [b e1] eqn:Ei.
  injection E as <- <- <-. destruct Hi as (_ & Hno & Hyes). destruct b.
  - destruct (Hyes Hk Hu eq_refl) as (Hc & _). split; [by right|]. eapply changes_mono; [|exact Hc]. intros k new c (-> & -> & ->).
    exists f, (String a hash), (unix w2). apply bestFile_spec in Ef as (_ & Hv & _). split; [done|]. exists d. split; [done|].
    split_and!; [done|eauto|done].
  - rewrite (Hno eq_refl). split; [by left|apply changes_refl].
Qed.
End shows.

(** *** Properties of processing *)

(** C9: A pack of a show touches the episodes of its own files and no others.
    Unless the torrent engine refuses the torrent, every change of the registry
    is a new entry for the episode that the name of a video file of the torrent
    tells, allowed by the streaming policy, not processed before in this run
    and an upgrade of the entry it replaces; every change of the library is the
    file of such an entry, which links to the torrent, or the removal of the
    file of an entry that was replaced. Every allowed file is dealt with: its
    episode is processed, or its file could not be written. If nothing was made
    nothing has changed and the torrent is removed again; if something was made
    the torrent stays. *)
Theorem pack_touches_only_its_episodes undef {W : Type} `{!World W} `{!TVWorld W} showName stream date e (w : W) n e' w' :
  processFullpack undef showName stream date e w = Some (n, e', w') →
  let '(r, w1) := AddTorrent (stream_magnet stream) (tsTitle stream) w in
  match r with
  | None | Some "" => n = 0 ∧ e' = e ∧ w' = w1
  | Some hash =>
      let '(info, w2) := GetTorrentInfo hash 90 w1 in
      let fs := filter (λ f, valid_episode undef stream (pack_resolution stream f) f = true) (default [] info) in
      changes (pack_made fs (baseURL e) (tvDir e) showName date (stream_magnet stream) hash (tsQualityScore stream) (unix w2)) e e' ∧
      (∀ f, f ∈ fs → dealt_with showName date hash f e' w2) ∧
      (n = 0 ∧ registry e' = registry e ∧ library e' = library e ∧ w' = post_rem hash w2 ∨ 0 < n ∧ w' = w2)
  end.
Proof.
  unfold processFullpack. destruct (AddTorrent _ _ w) as [[hash|] w1]; [|by intros [= <- <- <-]].
  destruct hash as [|a hash]; [by intros [= <- <- <-]|]. destruct (GetTorrentInfo _ _ w1) as [[files|] w2]; cbn [default id].
  2: { intros [= <- <- <-]. split_and!; [apply changes_refl|intros f Hf; by apply elem_of_nil in Hf|by left]. }
  unfold filterPackVideoFilesByStreamingPolicy. set (fs := filter _ files). destruct fs as [|f0 fs0] eqn:Efs.
  { intros [= <- <- <-]. split_and!; [apply changes_refl|intros f Hf; by apply elem_of_nil in Hf|by left]. }
  destruct (pack_files _ _ _ _ _ _ _ _ _) as [[m e1]|] eqn:Ep; [|done]. cbn [mbind option_bind]. intros [= <- <- <-].
  apply pack_files_changes in Ep as (Hc & Hm & Hsame & Hd). split_and!; [exact Hc|exact Hd|].
  destruct (Z.eqb_spec m 0) as [->|Hne]; [left; by destruct (Hsame eq_refl)|right]. split; [lia|done].
Qed.

(** A new entry is of a torrent to which its file links. *)
Definition linked (base : string) (key : string) (new : TVEpisodeEntry) (c : mkv) : Prop :=
  ∃ rest size magnet, c = JsonMkv (base +:+ "/stream?link=" +:+ eHash new +:+ rest) size magnet "".

Lemma made_linked base dir showName date source magnet hash score created s n f k new c :
  made base dir showName date source magnet hash score created s n f k new c → linked base k new c.
Proof. intros (_ & (h8 & _ & ->) & ->). by eexists _, _, _. Qed.

Section run.
Context (undef : float64 → Z) {W : Type} `{HW : !World W, HT : !TVWorld W}.

Lemma processFullpack_linked showName stream date e (w : W) n e' w' :
  processFullpack undef showName stream date e w = Some (n, e', w') → changes (linked (baseURL e)) e e'.
Proof.
  unfold processFullpack. destruct (AddTorrent _ _ w) as [[[|a hash]|] w1]; try (intros [= <- <- <-]; apply changes_refl).
  destruct (GetTorrentInfo _ _ w1) as [[files|] w2]; [|intros [= <- <- <-]; apply changes_refl].
  destruct (filterPackVideoFilesByStreamingPolicy _ _ _) as [|f fs]; [intros [= <- <- <-]; apply changes_refl|].
  destruct (pack_files _ _ _ _ _ _ _ _ _) as [[m e1]|] eqn:Ep; [|done]. cbn [mbind option_bind]. intros [= <- <- <-].
  apply pack_files_changes in Ep as (Hc & _). eapply changes_mono; [|exact Hc]. intros k new c (g & s & x & _ & _ & Hm).
  by eapply made_linked.
Qed.

Lemma processSingle_linked showName stream date e (w : W) n e' w' :
  processSingle undef showName stream date e w = Some (n, e', w') → changes (linked (baseURL e)) e e'.
Proof.
  intros [_ H]%processSingle_changes. eapply changes_mono; [|exact H]. intros k new c (f & hash & created & _ & d & _ & Hm).
  by eapply made_linked.
Qed.

Lemma linked_trans e1 e2 e3 :
  changes (linked (baseURL e1)) e1 e2 → changes (linked (baseURL e2)) e2 e3 → changes (linked (baseURL e1)) e1 e3.
Proof. intros H12 H23. destruct (ch_config _ _ _ H12) as (_ & E & _). rewrite E in H23. by eapply changes_trans. Qed.

Lemma process_packs_linked showName date expected skip streams p e (w : W) p' e' w' :
  process_packs undef showName date expected skip streams p e w = Some (p', e', w') → changes (linked (baseURL e)) e e'.
Proof.
  revert p e w. induction streams as [|s streams IH]; intros p e w E; cbn [process_packs] in E.
  { injection E as <- <- <-. apply changes_refl. }
  destruct (_ || _) in E; [by eapply IH|]. destruct (processFullpack _ _ _ _ _ _) as [[[n e1] w1]|] eqn:E1; [|done].
  cbn [mbind option_bind] in E. eapply linked_trans; [by eapply processFullpack_linked|by eapply IH].
Qed.

Lemma process_singles_linked showName date skip complete streams done created e (w : W) n e' w' :
  process_singles undef showName date skip complete streams done created e w = Some (n, e', w') → changes (linked (baseURL e)) e e'.
Proof.
  revert done created e w. induction streams as [|s streams IH]; intros done created e w E; cbn [process_singles] in E.
  { injection E as <- <- <-. apply changes_refl. }
  destruct (IsFullpack s); [by eapply IH|]. destruct (_ <=? _); [injection E as <- <- <-; apply changes_refl|].
  destruct (_ || _) in E; [by eapply IH|]. destruct (processSingle _ _ _ _ _ _) as [[[m e1] w1]|] eqn:E1; [|done].
  cbn [mbind option_bind] in E. eapply linked_trans; [by eapply processSingle_linked|by eapply IH].
Qed.

Context `{HS : !SliceSort}.

Lemma install_show_linked show imdb details skip streams e (w : W) e' w' :
  install_show undef show imdb details skip streams e w = Some (e', w') → changes (linked (baseURL e)) e e'.
Proof.
  unfold install_show. set (e0 := saveTVAlternatives _ _ _ _). set (l := sort_slice _ _) in e0 |- *.
  assert (changes (linked (baseURL e)) e e0 ∧ baseURL e0 = baseURL e) as [H0 Eb].
  { unfold e0, saveTVAlternatives. destruct (db e); [|split; [apply changes_refl|done]]. destruct l; (split; [|done]); [apply changes_refl|].
    by eapply changes_same; [apply changes_refl|..]. }
  clearbody e0. destruct (process_packs _ _ _ _ _ _ _ _ _) as [[[p e1] w1]|] eqn:E1; [|done]. cbn [mbind option_bind].
  destruct (process_singles _ _ _ _ _ _ _ _ _ _) as [[[c e2] w2]|] eqn:E2; [|done]. cbn [mbind option_bind]. intros [= <- <-].
  assert (changes (linked (baseURL e)) e e2) as H2.
  { eapply linked_trans; [exact H0|]. eapply linked_trans; [by eapply process_packs_linked|by eapply process_singles_linked]. }
  destruct (0 <? c); [by eapply changes_same; [exact H2|..]|done].
Qed.

Lemma processShow_linked show e (w : W) e' w' : processShow undef show e w = Some (e', w') → changes (linked (baseURL e)) e e'.
Proof.
  unfold processShow. case_bool_decide; [intros [= <- <-]; apply changes_refl|]. destruct (_ && _); [intros [= <- <-]; apply changes_refl|].
  destruct (lookup_show show w) as [[[imdb details]|] w1]; [|intros [= <- <-]; apply changes_refl].
  destruct (_ && _); [intros [= <- <-]; apply changes_refl|]. destruct (getStreams _ _ _ _ _ _ _) as [[|s streams] w2];
    [intros [= <- <-]; apply changes_refl|apply install_show_linked].
Qed.

Lemma process_shows_linked shows e (w : W) b e' w' :
  process_shows undef shows e w = Some (b, e', w') → changes (linked (baseURL e)) e e'.
Proof.
  revert e w. induction shows as [|s shows IH]; intros e w E; cbn [process_shows] in E; [injection E as <- <- <-; apply changes_refl|].
  destruct (Done w); [injection E as <- <- <-; apply changes_refl|]. destruct (processShow _ _ _ _) as [[e1 w1]|] eqn:E1; [|done].
  cbn [mbind option_bind] in E. eapply linked_trans; [by eapply processShow_linked|by eapply IH].
Qed.
End run.

(** C10: In a run an episode is replaced at most once, and only by a better one.
    Whatever shows are processed, in packs and single releases, and whether or
    not the run is cancelled, an entry of the registry is as before or new; a
    new entry was not processed before, is processed now, and its score is more
    than 1.2 times that of the entry it replaces; between any two moments of
    the run an episode that was processed at the first keeps its entry. No entry
    is lost. A file of the library is as before, or links to the torrent of a
    new entry that has its path, or is gone because an entry was replaced. *)
Theorem episodes_only_improve undef {W : Type} `{!World W} `{!TVWorld W} `{!SliceSort} shows1 shows2 e (w : W) b1 e1 w1 b2 e2 w2 :
  process_shows undef shows1 e w = Some (b1, e1, w1) → process_shows undef shows2 e1 w1 = Some (b2, e2, w2) →
  (∀ k, registry e2 !! k = registry e !! k ∨
     k ∉ processedThisRun e ∧ k ∈ processedThisRun e2 ∧
     ∃ new, registry e2 !! k = Some new ∧ ∀ old, registry e !! k = Some old → upgrade (eQualityScore new) (eQualityScore old)) ∧
  (∀ k, k ∈ processedThisRun e1 → registry e2 !! k = registry e1 !! k) ∧
  (∀ k, is_Some (registry e !! k) → is_Some (registry e2 !! k)) ∧
  (∀ p, library e2 !! p = library e !! p ∨
     (∃ k new c, k ∈ processedThisRun e2 ∧ registry e2 !! k = Some new ∧ eFilePath new = p ∧ library e2 !! p = Some c ∧ linked (baseURL e) k new c) ∨
     library e2 !! p = None ∧ ∃ k old, registry e !! k = Some old ∧ eFilePath old = p ∧ registry e2 !! k ≠ registry e !! k).
Proof.
  intros Hs1%process_shows_linked Hs2%process_shows_linked. pose proof (linked_trans _ _ _ Hs1 Hs2) as Hch.
  assert (∀ k, registry e2 !! k = registry e !! k ∨ k ∉ processedThisRun e ∧ k ∈ processedThisRun e2 ∧
     ∃ new, registry e2 !! k = Some new ∧ ∀ old, registry e !! k = Some old → upgrade (eQualityScore new) (eQualityScore old)) as Hr.
  { intros k. destruct (ch_registry _ _ _ Hch k) as [?|(? & ? & new & c & ? & _ & ?)]; [by left|right; eauto]. }
  split_and!; [exact Hr|..].
  - intros k Hk. by eapply changes_frozen.
  - intros k Hk. destruct (Hr k) as [->|(_ & _ & new & -> & _)]; [done|eauto].
  - intros p. destruct (ch_library _ _ _ Hch p) as [?|[(k & new & c & ? & ? & ? & ? & ?)|?]]; [by left|right; left|by right; right].
    exists k, new, c. by split_and!.
Qed.

(** A release with the score of the entry does not replace it. *)
Lemma same_score_kept s : 0 ≤ s < 2 ^ 53 → ¬ upgrade s s.
Proof.
  unfold upgrade. intros Hs. destruct (Z.eq_dec s 0) as [->|Hne]; [by vm_compute|].
  destruct (f64_of_Z_digits s) as (m & -> & Hd); [lia|].
  assert (tvUpgradeThreshold = S754_finite false 5404319552844595 (-52)) as -> by (vm_compute; reflexivity).
  rewrite f64_mul_grows; [done|done|done|]. pose proof (digits2_nonneg s). pose proof (digits2_le s 53). lia.
Qed.

(** Processing a pack that is installed takes its torrent away. If every
    episode that the allowed files of a pack tell is in the registry already,
    from this very torrent and with the score of the pack, nothing is made, so
    that the torrent to which the library links is removed from the torrent
    engine; entries and files stay. *)
Theorem installed_pack_loses_torrent undef {W : Type} `{!World W} `{!TVWorld W} showName stream date e (w w1 w2 : W) hash files :
  AddTorrent (stream_magnet stream) (tsTitle stream) w = (Some hash, w1) → hash ≠ "" →
  GetTorrentInfo hash 90 w1 = (Some files, w2) → 0 ≤ tsQualityScore stream < 2 ^ 53 →
  (∀ f season episode, f ∈ files → valid_episode undef stream (pack_resolution stream f) f = true → numbered f season episode →
     ∃ entry, registry e !! episodeKey showName date season episode = Some entry ∧ eHash entry = hash ∧
              eQualityScore entry = tsQualityScore stream) →
  ∃ e', processFullpack undef showName stream date e w = Some (0, e', post_rem hash w2) ∧
        registry e' = registry e ∧ library e' = library e.
Proof.
  intros Ha Hh Hg Hs Hall. unfold processFullpack. rewrite Ha. destruct hash as [|a hash]; [by destruct Hh|]. rewrite Hg.
  set (fs := filterPackVideoFilesByStreamingPolicy undef files stream).
  assert (∀ f, f ∈ fs → ∀ s n, numbered f s n → ∃ entry, registry e !! episodeKey showName date s n = Some entry ∧ eQualityScore entry = tsQualityScore stream) as Hfs.
  { intros f [Hf Hv]%filterPack_elem s n Hn. destruct (Hall f s n Hf Hv Hn) as (x & ? & _ & ?). eauto. }
  assert (∀ e1, registry e1 = registry e → library e1 = library e →
    ∃ e', pack_files showName stream date (stream_magnet stream) (String a hash) fs 0 e1 w2 = Some (0, e') ∧
          registry e' = registry e ∧ library e' = library e) as Hp.
  { clearbody fs. induction fs as [|f fs IH]; intros e1 Er El; cbn [pack_files]; [eauto|].
    assert (∃ e2, pack_file showName stream date (stream_magnet stream) (String a hash) f e1 w2 = Some (false, e2) ∧
                  registry e2 = registry e ∧ library e2 = library e) as (e2 & -> & Er2 & El2).
    { unfold pack_file. destruct (extractEpisodeFromFilename _) as [s n] eqn:Ex.
      destruct ((s =? 0) && (n =? 0)) eqn:Hz; [eauto|]. case_bool_decide; [eauto|].
      destruct (Hfs f ltac:(by apply list_elem_of_here) s n) as (x & Hx & Hsc).
      { split; [done|]. by intros [= -> ->]. }
      assert (keeps_existing e1 (episodeKey showName date s n) (tsQualityScore stream) = true) as ->; [|eauto].
      unfold keeps_existing. rewrite Er, Hx, Hsc. apply not_false_iff_true. by apply same_score_kept. }
    cbn [mbind option_bind]. apply IH; [|done|done]. intros g Hg'. apply Hfs. by apply list_elem_of_further. }
  destruct fs as [|f fs]; [eauto|]. destruct (Hp e eq_refl eq_refl) as (e' & -> & ? & ?). cbn [mbind option_bind]. eauto.
Qed.

(** ** Seasons *)

Lemma prefix_of_app p s t : String.prefix p s = true → String.prefix p (s +:+ t) = true.
Proof.
  revert s. induction p as [|a p IH]; intros s H; [by destruct (s +:+ t)|]. destruct s as [|b s]; [done|].
  change (String b s +:+ t) with (String b (s +:+ t)). cbn [String.prefix] in *. destruct (Ascii.ascii_dec a b); [by apply IH|done].
Qed.

Lemma Contains_app s t sub : Contains t sub = true → Contains (s +:+ t) sub = true.
Proof.
  intros H. induction s as [|a s IH]; [done|]. change (String a s +:+ t) with (String a (s +:+ t)). cbn [Contains]. by rewrite IH, orb_true_r.
Qed.

Lemma Contains_start sub t : Contains (sub +:+ t) sub = true.
Proof. pose proof (prefix_app sub t) as H. destruct (sub +:+ t); cbn [Contains]; by rewrite H. Qed.

(** A show counts the episodes of every show whose name begins like its own. *)
Lemma longer_names_counted reg showName other x date season n entry :
  normal_show other = normal_show showName +:+ x → reg !! episodeKey other date season n = Some entry →
  eQualityScore entry ∈ season_scores reg (normal_show showName) season.
Proof.
  intros Hn Hr. unfold season_scores. apply list_elem_of_fmap. exists (episodeKey other date season n, entry). split; [done|].
  apply list_elem_of_filter. split; [|by apply elem_of_map_to_list]. cbn [fst]. unfold episodeKey. rewrite Hn.
  assert (∀ a b, String.prefix (normal_show showName) ((normal_show showName +:+ a) +:+ b) = true) as Hp
    by (intros; by apply prefix_of_app, prefix_app).
  assert (∀ a, Contains ("_s" +:+ pad2 season +:+ "e" +:+ a) ("_s" +:+ pad2 season +:+ "e") = true) as Hc.
  { intros a. change ("_s" +:+ pad2 season +:+ "e" +:+ a) with (String "_"%char (String "s"%char (pad2 season +:+ ("e" +:+ a)))).
    rewrite string_assoc. by apply (Contains_start (String "_"%char (String "s"%char (pad2 season +:+ "e"))) a). }
  case_bool_decide; (split; [apply Hp|]); [do 3 apply Contains_app|apply Contains_app]; apply Hc.
Qed.

Lemma good_all (m : gmap Z float64) :
  (∀ s avg, m !! s = Some avg → good_season avg = true) → forallb (λ kv, good_season kv.2) (map_to_list m) = true.
Proof. intros H. apply forallb_forall. intros [s avg] Hin. cbn. eapply H, elem_of_map_to_list, list_elem_of_In, Hin. Qed.

(** One complete season is enough for a show to be passed over. With
    [SkipCompleteSeasons], if the registry counts as many entries for some season
    as it has episodes and the mean score of every season that is complete in
    this sense is good, nothing is done for the show, although other seasons may
    be incomplete or have no episode at all; and an entry counts for every show
    whose name is a beginning of the name in its key. *)
Theorem complete_season_skips_show undef {W : Type} `{!World W} `{!TVWorld W} `{!SliceSort} show imdb details e (w w1 : W) s0 expected :
  show_name show ≠ "" → fixed_mode show = true ∨ isBlacklisted (blacklist e) (show_name show) = false →
  lookup_show show w = (Some (imdb, details), w1) → SkipCompleteSeasons (channel e) = true →
  season_counts true (Seasons details) !! s0 = Some expected →
  expected ≤ Z.of_nat (length (season_scores (registry e) (normal_show (show_name show)) s0)) →
  (∀ s avg, getCompleteSeasons (show_name show) details e !! s = Some avg → good_season avg = true) →
  processShow undef show e w = Some (e, w1) ∧
  (∀ other x date n entry, normal_show other = normal_show (show_name show) +:+ x →
     registry e !! episodeKey other date s0 n = Some entry →
     eQualityScore entry ∈ season_scores (registry e) (normal_show (show_name show)) s0).
Proof.
  intros Hn Hb Hl Hsk He Hc Hg. split; [|intros; by eapply longer_names_counted]. unfold processShow. rewrite bool_decide_eq_false_2 by done.
  assert (negb (fixed_mode show) && isBlacklisted (blacklist e) (show_name show) = false) as ->.
  { destruct Hb as [->| ->]; [done|by rewrite andb_false_r]. }
  rewrite Hl, Hsk, good_all by done. cbn [andb]. set (m := getCompleteSeasons _ _ _).
  assert (m !! s0 ≠ None) as Hm.
  { unfold m, getCompleteSeasons. rewrite map_lookup_imap, He. cbn [mbind option_bind]. by rewrite (proj2 (Z.leb_le _ _) Hc). }
  assert ((0 <? size m)%nat = true) as ->; [|done].
  apply Nat.ltb_lt. destruct (size m) eqn:Es; [|lia]. apply map_size_empty_iff in Es. by rewrite Es in Hm.
Qed.

(** ** After the shows *)

Lemma registryByPath_spec reg p : registryByPath reg p = true ↔ ∃ k x, reg !! k = Some x ∧ eFilePath x = p.
Proof.
  unfold registryByPath. rewrite existsb_exists. split.
  - intros ([k x] & Hin & Hp%bool_decide_eq_true). exists k, x. split; [|done]. by apply elem_of_map_to_list, list_elem_of_In.
  - intros (k & x & Hk & Hp). exists (k, x). split; [by apply list_elem_of_In, elem_of_map_to_list|by apply bool_decide_eq_true].
Qed.

Section after.
Context (undef : float64 → Z) {W : Type} `{HW : !World W, HT : !TVWorld W}.

(** Files that are written anew were there. *)
Lemma rehydrate_file_keeps l (st : list string * TVGoEngine * W) f :
  f.1 ∈ dom (library st.1.2) → l = dom (library st.1.2) →
  let st' := rehydrate_file undef st f in
  dom (library st'.1.2) = l ∧ registry st'.1.2 = registry st.1.2 ∧ registryFile st'.1.2 = registryFile st.1.2 ∧ db st'.1.2 = db st.1.2.
Proof.
  destruct st as [[active e] w]. cbn [fst snd]. intros Hf ->. unfold rehydrate_file. destruct (negb _); [done|].
  destruct (mkv_parts _ _) as [[[url magnet] size]|]; [|done]. destruct (FindStringSubmatch _ _ _) as [hash|]; [|done].
  case_bool_decide; [done|]. destruct (String.prefix _ _); [|done]. destruct (AddTorrent _ _ _) as [[h|] w1]; [|done]. cbn [fst snd].
  unfold createMKV. destruct (writable _ _); [|done]. cbn. split_and!; try done. rewrite dom_insert_L. set_solver.
Qed.

Lemma rehydrate_keeps fs (st : list string * TVGoEngine * W) :
  (∀ f, f ∈ fs → f.1 ∈ dom (library st.1.2)) →
  let st' := foldl (rehydrate_file undef) st fs in
  dom (library st'.1.2) = dom (library st.1.2) ∧ registry st'.1.2 = registry st.1.2 ∧ registryFile st'.1.2 = registryFile st.1.2 ∧ db st'.1.2 = db st.1.2.
Proof.
  revert st. induction fs as [|f fs IH]; intros st Hf; [done|]. cbn [foldl].
  destruct (rehydrate_file_keeps _ st f (Hf f (list_elem_of_here _ _)) eq_refl) as (E1 & E2 & E3 & E4).
  destruct (IH (rehydrate_file undef st f)) as (F1 & F2 & F3 & F4).
  { intros g Hg. rewrite E1. apply Hf. by right. }
  cbn zeta. split_and!; congruence.
Qed.

Lemma walk_tree_elem d f : f ∈ walk_tree d ↔ d !! f.1 = Some f.2.
Proof. unfold walk_tree. rewrite sort_stable_perm. destruct f. apply elem_of_map_to_list. Qed.

Lemma rehydrateMissingTorrents_keeps e (w : W) e' w' :
  rehydrateMissingTorrents undef e w = (e', w') →
  dom (library e') = dom (library e) ∧ registry e' = registry e ∧ registryFile e' = registryFile e ∧ db e' = db e.
Proof.
  unfold rehydrateMissingTorrents. destruct (ListTorrents w) as [[l|] w1]; [|by intros [= <- <-]].
  destruct (foldl _ _ _) as [[active e1] w2] eqn:E. intros [= <- <-].
  pose proof (rehydrate_keeps (walk_tree (library e)) (l.*1, e, w1)) as H. rewrite E in H. apply H.
  intros f Hf%walk_tree_elem. cbn. by apply elem_of_dom_2 in Hf.
Qed.
End after.


Lemma remove_torrents_spec {W : Type} `{!World W} `{!TVWorld W} hs (w w' : W) :
  remove_torrents hs w = Some w' → w' = foldl (λ w h, post_rem h w) w hs.
Proof.
  revert w. induction hs as [|h hs IH]; intros w E; cbn [remove_torrents foldl] in *; [by injection E|]. destruct (_ && _); [done|]. by apply IH.
Qed.

(** The clean-up of torrents removes exactly those whose title looks like a
    series (an episode number, or the word season or episode) and to which
    neither an entry of the registry nor a file of the TV library refers, so
    never one that an episode needs. The films are not asked. *)
Theorem orphans_removed_exactly {W : Type} `{!World W} `{!TVWorld W} e (w w1 w' : W) torrents :
  ListTorrents w = (Some torrents, w1) → cleanupOrphanedTorrents e w = Some w' →
  ∃ hs : list string, w' = foldl (λ w h, post_rem h w) w1 hs ∧
  ∀ h, h ∈ hs ↔ h ≠ "" ∧ (∃ t, t ∈ torrents ∧ ToLower t.1 = h ∧ MatchString reTVSeries t.2 = true) ∧
    (∀ k entry, registry e !! k = Some entry → ToLower (eHash entry) ≠ h) ∧
    (∀ p c link, library e !! p = Some c → is_mkv p = true →
       FindStringSubmatch reTVHashURL (file_link c) 1 = Some link → ToLower link ≠ h).
Proof.
  unfold cleanupOrphanedTorrents. intros -> Hr%remove_torrents_spec. eexists. split; [exact Hr|]. intros h.
  assert (h ∈ registry_hashes e ↔ ∃ k entry, registry e !! k = Some entry ∧ ToLower (eHash entry) = h) as Hreg.
  { unfold registry_hashes. rewrite list_elem_of_fmap. split.
    - intros ([k x] & -> & Hin%elem_of_map_to_list). eauto.
    - intros (k & x & Hk & <-). exists (k, x). split; [done|]. by apply elem_of_map_to_list. }
  assert (h ∈ disk_hashes e ↔ ∃ p c link, library e !! p = Some c ∧ is_mkv p = true ∧
    FindStringSubmatch reTVHashURL (file_link c) 1 = Some link ∧ ToLower link = h) as Hdisk.
  { unfold disk_hashes. rewrite list_elem_of_omap. split.
    - intros ([p c] & Hin%elem_of_map_to_list & Hf). cbn in Hf. destruct (is_mkv p) eqn:Hm; [|done].
      destruct (FindStringSubmatch _ _ _) as [link|] eqn:El; [|done]. injection Hf as <-. exists p, c, link. done.
    - intros (p & c & link & Hp & Hm & Hf & <-). exists (p, c). split; [by apply elem_of_map_to_list|]. cbn. by rewrite Hm, Hf. }
  rewrite list_elem_of_fmap. split.
  - intros (t & -> & [Ho Ht]%list_elem_of_filter). unfold orphaned_torrent in Ho. apply andb_true_iff in Ho as [[Hne%bool_decide_eq_true Hm]%andb_true_iff Ho].
    apply negb_true_iff, orb_false_iff in Ho as [H1%bool_decide_eq_false H2%bool_decide_eq_false]. split_and!; [done|by exists t|..].
    + intros k x Hk Ek. apply H1, Hreg. eauto.
    + intros p c link Hp Hmk Hf El. apply H2, Hdisk. exists p, c, link. done.
  - intros (Hne & (t & Ht & <- & Hm) & H1 & H2). exists t. split; [done|]. apply list_elem_of_filter. split; [|done].
    unfold orphaned_torrent. rewrite bool_decide_eq_true_2 by done. rewrite Hm. cbn [andb]. apply negb_true_iff, orb_false_iff.
    split; apply bool_decide_eq_false.
    + intros (k & x & Hk & Ex)%Hreg. by eapply H1.
    + intros (p & c & link & Hp & Hmk & Hf & El)%Hdisk. by eapply H2.
Qed.

(** ** Witnesses *)

(** A torrent engine and the services: the state is the clock and the torrents,
    with their titles. One pack of a show is on offer. *)
Definition pack_hash : string := "0123456789abcdef0123456789abcdef01234567".
Definition film_hash : string := "89abcdef0123456789abcdef0123456789abcdef".
Definition pack_release : Stream := MkStream "idx" "Lost S01 Complete 720p WEB-DL 👤 30" pack_hash (f64_lit 80 1).
Definition pack_file_list : list FileStat :=
  [MkFileStat 1 "Lost/Lost.S01E01.mkv" 900000000; MkFileStat 2 "Lost/Lost.S01E02.mkv" 900000000; MkFileStat 3 "Lost/info.txt" 10].

#[local] Instance tv_world : World (Z * list (string * string)) := {|
  Now := λ w, w.1;
  Sleep := λ n w, (w.1 + n * second, w.2);
  Done := λ _, false;
  ExternalIDs := λ _ w, (Some "tt1", w);
  FetchTorrents := λ _ _ w, ([], w);
  FetchMovieStreams := λ _ w, (None, w);
  post_add := λ _ title w, (Some "", (w.1, (pack_hash, title) :: w.2));
  post_get := λ _ w, (Some pack_file_list, (w.1 + second, w.2));
  post_rem := λ h w, (w.1, filter (λ t, t.1 ≠ h) w.2);
  post_list := λ w, (Some (fst <$> w.2), w);
  writable := λ _ _, true;
  Sleep_advances := λ n w, Z.le_refl _;
  post_get_advances := λ h w, ltac:(cbn; unfold second; lia);
|}.

#[local] Instance tv_world_tv : TVWorld (Z * list (string * string)) := {|
  TVDetails := λ _ w, (Some (MkDetail "Lost" "2004-09-22" 2 [(1, 4); (2, 10)] None), w);
  TVExternalIDs := λ _ w, (Some "tt1", w);
  fetch_listing := λ _ w, (Some [MkTVShow 7 "Lost" "" "2004-09-22" "en" []], w);
  DiscoverTVFromConfig := λ w, (None, w);
  FetchSeries := λ _ _ w, ([pack_release], w);
  FetchEpisodeStreams := λ _ _ _ w, (None, w);
  limiter_Wait := λ w, w;
  ListTorrents := λ w, (Some w.2, w);
  rem_succeeds := λ _ _, true;
  db_succeeds := λ _, true;
  stat_size := λ _ _, 500;
  stat_time := λ _ _, 0;
|}.

Definition lost : TVShowInfo := MkShowInfo 7 "Lost" "" "2004-09-22" "en" [] "ch" "discovery" "" 0 "".
Definition tv_engine (reg : gmap string TVEpisodeEntry) : TVGoEngine :=
  MkTV reg None None ∅ no_stats (MkBlacklist ∅ []) true false "http://h" "/tv" (MkChannel "ch" "" [] true "") ∅ ∅.
Definition no_undef : float64 → Z := λ _, 0.
Definition pack_stream : TVStream :=
  default (MkTVStream "" "" false false false false false 0 0 0 (f64_of_Z 0) 0
             (MkRank (MkCandidate "" "" MediaTV RUnknown (f64_of_Z 0) 0 false 0) (f64_of_Z 0) 0 0 0 0 0))
    (classifyStream no_undef (MkBlacklist ∅ []) pack_release "Lost").
Definition film_torrent : string * string := (film_hash, "Star Wars Episode IV 1977 1080p").

Lemma sample_pack :
  (λ x, (x.1.1, size (library x.1.2))) <$> processFullpack no_undef "Lost" pack_stream "2004-09-22" (tv_engine ∅) (0, []) = Some (2, 2%nat).
Proof. vm_compute. reflexivity. Qed.

Lemma sample_pack_answers :
  AddTorrent (stream_magnet pack_stream) (tsTitle pack_stream) (0, []) = (Some pack_hash, (0, [(pack_hash, tsTitle pack_stream)])) ∧
  GetTorrentInfo pack_hash 90 (0, [(pack_hash, tsTitle pack_stream)]) = (Some pack_file_list, (second, [(pack_hash, tsTitle pack_stream)])).
Proof. split; vm_compute; reflexivity. Qed.

Lemma pack_touches_witness :
  ∃ e', processFullpack no_undef "Lost" pack_stream "2004-09-22" (tv_engine ∅) (0, []) = Some (2, e', (second, [(pack_hash, tsTitle pack_stream)])) ∧
    ∀ f, f ∈ filter (λ f, valid_episode no_undef pack_stream (pack_resolution pack_stream f) f = true) pack_file_list →
      dealt_with "Lost" "2004-09-22" pack_hash f e' (second, [(pack_hash, tsTitle pack_stream)]).
Proof.
  pose proof sample_pack as Hc. destruct sample_pack_answers as [Ha Hg].
  pose proof (pack_touches_only_its_episodes no_undef "Lost" pack_stream "2004-09-22" (tv_engine ∅) (0, [])) as Ht.
  destruct (processFullpack no_undef "Lost" pack_stream "2004-09-22" (tv_engine ∅) (0, [])) as [[[n e'] w']|]; [|discriminate Hc].
  injection Hc as Hn _. cbn in Hn. subst n. specialize (Ht 2 e' w' eq_refl). rewrite Ha in Ht.
  change pack_hash with (String "0"%char "123456789abcdef0123456789abcdef01234567") in Ht, Hg |- *. rewrite Hg in Ht.
  destruct Ht as (_ & Hd & [[Hbad _]|[_ Hw]]); [discriminate Hbad|]. subst w'. exists e'. split; [reflexivity|exact Hd].
Defined.

(** An engine with the pack installed. *)
Definition installed_engine : TVGoEngine :=
  tv_engine (list_to_map ((λ n, (episodeKey "Lost" "2004-09-22" 1 n, MkEpisode (tsQualityScore pack_stream) pack_hash "p" "fullpack" 0)) <$> [1; 2])).

Lemma sample_installed :
  (λ x, size (registry x.1.2)) <$> process_shows no_undef [lost] installed_engine (0, []) = Some 2%nat ∧
  (λ x, size (registry x.1.2)) <$> process_shows no_undef [lost] (tv_engine ∅) (0, []) = Some 2%nat.
Proof. split; vm_compute; reflexivity. Qed.

Lemma episodes_only_improve_witness :
  ∃ b e1 w1, process_shows no_undef [lost] (tv_engine ∅) (0, []) = Some (b, e1, w1) ∧
    ∀ k, is_Some (registry (tv_engine ∅) !! k) → is_Some (registry e1 !! k).
Proof.
  destruct sample_installed as [_ Hc].
  pose proof (λ b e1 w1, episodes_only_improve no_undef [lost] [] (tv_engine ∅) (0, []) b e1 w1 true e1 w1) as Ht.
  destruct (process_shows no_undef [lost] (tv_engine ∅) (0, [])) as [[[b e1] w1]|]; [|discriminate Hc].
  exists b, e1, w1. split; [reflexivity|]. destruct (Ht b e1 w1 eq_refl eq_refl) as (_ & _ & Hs & _). exact Hs.
Defined.

Lemma installed_pack_witness :
  ∃ e', processFullpack no_undef "Lost" pack_stream "2004-09-22" installed_engine (0, []) = Some (0, e', (second, [])) ∧
    registry e' = registry installed_engine.
Proof.
  destruct sample_pack_answers as [Ha Hg].
  destruct (installed_pack_loses_torrent no_undef "Lost" pack_stream "2004-09-22" installed_engine (0, [])
    (0, [(pack_hash, tsTitle pack_stream)]) (second, [(pack_hash, tsTitle pack_stream)]) pack_hash pack_file_list) as (e' & He & Hr & _).
  - exact Ha.
  - discriminate.
  - exact Hg.
  - vm_compute. split; [discriminate|reflexivity].
  - intros f season episode Hf Hv [Hn Hz]. unfold pack_file_list in Hf.
    apply elem_of_cons in Hf as [-> |Hf]; [|apply elem_of_cons in Hf as [-> |Hf]; [|apply elem_of_cons in Hf as [-> |Hf]]].
    + vm_compute in Hn. injection Hn as <- <-. eexists. split; [vm_compute; reflexivity|split; reflexivity].
    + vm_compute in Hn. injection Hn as <- <-. eexists. split; [vm_compute; reflexivity|split; reflexivity].
    + vm_compute in Hn. injection Hn as <- <-. destruct Hz. reflexivity.
    + destruct (not_elem_of_nil _ Hf).
  - exists e'. split; [exact He|exact Hr].
Defined.

(** Another show, whose name begins with that of the first, has an episode for
    each of its four. *)
Definition other_show_engine : TVGoEngine :=
  tv_engine (list_to_map ((λ n, (episodeKey "Lost in Space" "2018-04-13" 1 n, MkEpisode 222130 pack_hash "p" "fullpack" 0)) <$> [1; 2; 3; 4])).

Lemma complete_season_witness :
  processShow no_undef lost other_show_engine (0, []) = Some (other_show_engine, (0, [])).
Proof.
  apply (complete_season_skips_show no_undef lost "tt1" (MkDetail "Lost" "2004-09-22" 2 [(1, 4); (2, 10)] None) other_show_engine (0, []) (0, []) 1 4).
  - discriminate.
  - right. vm_compute. reflexivity.
  - vm_compute. reflexivity.
  - reflexivity.
  - vm_compute. reflexivity.
  - vm_compute. discriminate.
  - intros s avg Hs. assert (good_season <$> getCompleteSeasons (show_name lost) (MkDetail "Lost" "2004-09-22" 2 [(1, 4); (2, 10)] None) other_show_engine = {[1 := true]}) as E
      by (vm_compute; reflexivity).
    apply (f_equal (λ m : gmap Z bool, m !! s)) in E. rewrite lookup_fmap, Hs in E. symmetry in E. cbn in E.
    apply lookup_singleton_Some in E as [_ E]. by symmetry.
Defined.

Lemma sample_run :
  (λ x, (x.1.1, size (library x.1.2), x.2.2)) <$> Run no_undef (tv_engine ∅) (0, [film_torrent]) =
  Some (true, 2%nat, [(pack_hash, tsTitle pack_stream)]).
Proof. vm_compute. reflexivity. Qed.


(** The torrent of a film whose title has the word episode is removed. *)
Lemma orphans_removed_witness :
  ∃ hs : list string, film_hash ∈ hs ∧ (0, []) = foldl (λ w h, post_rem h w) (0, [film_torrent]) hs.
Proof.
  destruct (orphans_removed_exactly (tv_engine ∅) (0, [film_torrent]) (0, [film_torrent]) (0, []) [film_torrent]) as (hs & Hw & Hh);
    [reflexivity|vm_compute; reflexivity|].
  exists hs. split; [|exact Hw]. apply Hh. split; [discriminate|]. split.
  - exists film_torrent. split; [by left|]. split; [reflexivity|vm_compute; reflexivity].
  - split; [intros k x Hk; discriminate (eq_trans (eq_sym (lookup_empty k)) Hk)|
      intros p c link Hp; discriminate (eq_trans (eq_sym (lookup_empty p)) Hp)].
Defined.

(** When the registry has been lost, the next run enters the files under keys
    without a year, makes the same episodes again under keys with the year, and
    so counts every file twice: a season of four episodes of which there are two
    is complete, and is passed over from then on. *)
Definition after_loss : option (bool * TVGoEngine * (Z * list (string * string))) :=
  '(_, e, w) ← Run no_undef (tv_engine ∅) (0, []);
  Run no_undef (set_registry ∅ (set_store None None (set_processed ∅ e))) w.

Example lost_registry_counts_twice :
  (λ x, (size (library x.1.2), size (registry x.1.2),
         map_to_list (good_season <$> getCompleteSeasons "Lost" (MkDetail "Lost" "2004-09-22" 2 [(1, 4); (2, 10)] None) x.1.2))) <$> after_loss =
  Some (2%nat, 4%nat, [(1, true)]).
Proof. vm_compute. reflexivity. Qed.
