(* ===== verification/HealthCheck.v ===== *)
(** * Torrent alternatives and the health checker (internal/metadb/alternatives.go, internal/syncer/health)

    The sync engines save the ranked releases of a film or show in a table. Once
    a day the health checker goes through the ones that are dead or slow, tests
    them at the torrent engine, and replaces a bad first choice by the next
    alternative if that turns out to be better.

    The table is a map with the primary key of the schema; its CHECK on the
    status is the type [Status]. SQLite does not fail. The order of rows that
    ORDER BY leaves open is that of any sorting routine. What the checker asks of
    the torrent engine are the classes [TorrentTester] and [TorrentReplacer], as
    in the code; the adapters of main.go are instances of them over the outside
    of the sync engines. *)

From S2P Require Import Prelude Float64 Regex Streaming Quality MovieSync.

(** ** The table *)

Inductive Status := Active | TestedNoBetter | VerifiedHealthy | VerifiedSlow | Dead.
#[export] Instance Status_eq_dec : EqDecision Status.
Proof. solve_decision. Defined.

Record Alternative := MkAlternative {
  ContentID : string; ContentType : string; aRank : Z; aHash : string; aTitle : string; aSize : Z; aSeeders : Z;
  aQualityScore : Z; aStatus : Status; LastHealthCheck : Z; AvgSpeedKBps : Z; ReplacementCount : Z;
}.

Abbreviation table := (gmap (string * string) Alternative).

Definition set_status (s : Status) (a : Alternative) : Alternative :=
  MkAlternative (ContentID a) (ContentType a) (aRank a) (aHash a) (aTitle a) (aSize a) (aSeeders a) (aQualityScore a) s
    (LastHealthCheck a) (AvgSpeedKBps a) (ReplacementCount a).
Definition set_health (s : Status) (speed seeders now : Z) (a : Alternative) : Alternative :=
  MkAlternative (ContentID a) (ContentType a) (aRank a) (aHash a) (aTitle a) (aSize a) seeders (aQualityScore a) s
    now speed (ReplacementCount a).
Definition count_replacement (a : Alternative) : Alternative :=
  MkAlternative (ContentID a) (ContentType a) (aRank a) (aHash a) (aTitle a) (aSize a) (aSeeders a) (aQualityScore a) (aStatus a)
    (LastHealthCheck a) (AvgSpeedKBps a) (ReplacementCount a + 1).

Definition key_of (a : Alternative) : string * string := (ContentID a, aHash a).

Definition UpsertAlternative (a : Alternative) (t : table) : table := <[key_of a := a]> t.
Definition GetAlternative (contentID hash : string) (t : table) : option Alternative := t !! (contentID, hash).
Definition DeleteAlternativesByContent (contentID : string) (t : table) : table := filter (λ kv, kv.1.1 ≠ contentID) t.
Definition UpdateAlternativeStatus (contentID hash : string) (s : Status) (t : table) : table := alter (set_status s) (contentID, hash) t.
Definition UpdateAlternativeHealth (contentID hash : string) (s : Status) (speed seeders now : Z) (t : table) : table :=
  alter (set_health s speed seeders now) (contentID, hash) t.
Definition IncrementReplacementCount (contentID hash : string) (t : table) : table := alter count_replacement (contentID, hash) t.

(** INSERT fails on a key that is there, and the transaction with it. *)
Fixpoint insert_rows (l : list Alternative) (t : table) : option table :=
  match l with
  | [] => Some t
  | a :: l' => match t !! key_of a with Some _ => None | None => insert_rows l' (<[key_of a := a]> t) end
  end.

Definition SaveAlternativesForContent (contentID : string) (alts : list Alternative) (t : table) : bool * table :=
  match insert_rows alts (DeleteAlternativesByContent contentID t) with Some t' => (true, t') | None => (false, t) end.

Definition rows (t : table) : list Alternative := snd <$> map_to_list t.

Section queries.
Context `{HS : !SliceSort}.

Definition by_rank (a b : Alternative) : bool := aRank a <? aRank b.
Definition by_last_check (a b : Alternative) : bool := LastHealthCheck a <? LastHealthCheck b.

Definition GetAlternativesByContent (contentID : string) (t : table) : list Alternative :=
  sort_slice by_rank (filter (λ a, ContentID a = contentID) (rows t)).

Definition GetNextBestAlternative (contentID currentHash : string) (t : table) : option Alternative :=
  head (sort_slice by_rank (filter (λ a, ContentID a = contentID ∧ aHash a ≠ currentHash ∧ aStatus a = Active) (rows t))).

Definition unhealthy (a : Alternative) : Prop := aStatus a = Dead ∨ aStatus a = VerifiedSlow.
#[export] Instance unhealthy_dec a : Decision (unhealthy a).
Proof. unfold unhealthy. apply _. Defined.

Definition GetUnhealthyAlternatives (t : table) : list Alternative := sort_slice by_last_check (filter unhealthy (rows t)).
End queries.

Definition CountAlternativesByStatus (t : table) (s : Status) : nat := length (filter (λ a, aStatus a = s) (rows t)).

Definition FormatAlternativeStatus (s : Status) : string :=
  match s with
  | Active => "Active" | TestedNoBetter => "Tested (No Better)" | VerifiedHealthy => "Verified Healthy"
  | VerifiedSlow => "Verified Slow" | Dead => "Dead"
  end.

(** ** The checker *)

Record Config := MkConfig { MinSpeedSlow : Z; MinSpeedFast : Z; MinSeeders : Z; SlowSeeders : Z; MaxReplacements : Z }.
Definition DefaultConfig : Config := MkConfig 100 500 10 5 5.

Definition classifyHealthWithCfg (cfg : Config) (speedKBps seeders : Z) : Status :=
  if seeders =? 0 then Dead
  else if seeders <? SlowSeeders cfg then VerifiedSlow
  else if (MinSpeedFast cfg <? speedKBps) && (MinSeeders cfg <=? seeders) then VerifiedHealthy
  else if MinSpeedSlow cfg <? speedKBps then VerifiedSlow
  else Dead.

Definition shouldReplaceWithCfg (newSpeed oldSpeed : Z) : bool :=
  if oldSpeed <=? 0 then true else f64_leb (f64_mul (f64_of_Z oldSpeed) (f64_lit 15 1)) (f64_of_Z newSpeed).

Definition shouldReplaceStreamableWithCfg (cfg : Config) (current next : Alternative) (newSpeed newSeeders : Z) : bool :=
  if bool_decide (aStatus current ≠ VerifiedSlow) then false
  else if (aSize current <=? 0) || (aSize next <=? 0) then false
  else if (newSeeders <? MinSeeders cfg) || (newSpeed <=? MinSpeedSlow cfg) then false
  else f64_leb (f64_of_Z (aSize next)) (f64_mul (f64_of_Z (aSize current)) (f64_lit 80 2)).

(** Speed in KB/s and seeders; [None] is an error, or a torrent that is not
    active. *)
Class TorrentTester (W : Type) := {
  TestTorrent : string → string → string → W → option (Z * Z) * W;
  CurrentTorrentStatus : string → W → option (Z * Z) * W;
}.
Class TorrentReplacer (W : Type) := {
  ReplaceTorrent : string → string → string → string → string → W → bool * W;
}.
#[export] Hint Mode TorrentTester ! : typeclass_instances.
#[export] Hint Mode TorrentReplacer ! : typeclass_instances.

Definition BuildMagnet (hash title : string) : string := "magnet:?xt=urn:btih:" +:+ hash +:+ "&dn=" +:+ title.

Section checker.
Context {W : Type} `{HW : !World W, HT : !TorrentTester W, HR : !TorrentReplacer W, HS : !SliceSort} (cfg : Config).

Definition checkAndUpdate (alt : Alternative) (now : Z) (t : table) (w : W) : table * W :=
  let '(live, w1) := CurrentTorrentStatus (aHash alt) w in
  match live with
  | Some (speed, seeders) =>
      (UpdateAlternativeHealth (ContentID alt) (aHash alt) (classifyHealthWithCfg cfg speed seeders) speed seeders now t, w1)
  | None =>
      let '(test, w2) := TestTorrent (aHash alt) "" (aTitle alt) w1 in
      match test with
      | None => (UpdateAlternativeHealth (ContentID alt) (aHash alt) Dead 0 0 now t, w2)
      | Some (speed, seeders) =>
          (UpdateAlternativeHealth (ContentID alt) (aHash alt) (classifyHealthWithCfg cfg speed seeders) speed seeders now t, w2)
      end
  end.

Definition tryReplace (dead : Alternative) (t : table) (w : W) : bool * table * W :=
  match GetNextBestAlternative (ContentID dead) (aHash dead) t with
  | None => (false, t, w)
  | Some next =>
      let status s t := UpdateAlternativeStatus (ContentID next) (aHash next) s t in
      let '(test, w1) := TestTorrent (aHash next) "" (aTitle next) w in
      match test with
      | None => (false, status TestedNoBetter t, w1)
      | Some (speed, seeders) =>
          let oldSpeed := if AvgSpeedKBps dead <=? 0 then 1 else AvgSpeedKBps dead in
          if negb (shouldReplaceWithCfg speed oldSpeed) && negb (shouldReplaceStreamableWithCfg cfg dead next speed seeders) then
            (false, IncrementReplacementCount (ContentID next) (aHash next) (status TestedNoBetter t), w1)
          else
            let t := UpdateAlternativeHealth (ContentID next) (aHash next) (classifyHealthWithCfg cfg speed seeders) speed seeders (unix w1) t in
            let '(replaced, w2) := ReplaceTorrent (ContentID dead) (aHash dead) (aHash next) (BuildMagnet (aHash next) (aTitle next)) (aTitle next) w1 in
            if replaced then
              (true, IncrementReplacementCount (ContentID next) (aHash next)
                 (UpdateAlternativeStatus (ContentID dead) (aHash dead) Dead (status Active t)), w2)
            else (false, status TestedNoBetter t, w2)
      end
  end.

(** The loop over the rows that were read at the beginning. *)
Fixpoint check_rows (l : list Alternative) (now replacements : Z) (t : table) (w : W) : Z * table * W :=
  match l with
  | [] => (replacements, t, w)
  | alt :: l' =>
      if Done w || (MaxReplacements cfg <=? replacements) then (replacements, t, w)
      else
        let '(t1, w1) := checkAndUpdate alt now t w in
        if (aRank alt =? 1) && bool_decide (unhealthy alt) then
          let '(b, t2, w2) := tryReplace alt t1 w1 in
          check_rows l' now (if b : bool then replacements + 1 else replacements) t2 w2
        else check_rows l' now replacements t1 w1
  end.

Definition runCheck (t : table) (w : W) : Z * table * W := check_rows (GetUnhealthyAlternatives t) (unix w) 0 t w.
End checker.

(** ** The adapters of main.go *)

(** The download speed in bytes per second and the active peers, as the torrent
    engine gave them with its last answer. *)
Class Figures (W : Type) := { figures : string → W → float64 * Z }.
#[export] Hint Mode Figures ! : typeclass_instances.

Section adapters.
Context (undef : float64 → Z) {W : Type} `{HW : !World W, HF : !Figures W}.

Definition speed_and_seeders (hash : string) (w : W) : Z * Z :=
  (f64_to_int64 undef (f64_div (figures hash w).1 (f64_of_Z 1024)), (figures hash w).2).

Definition gs_TestTorrent (hash magnet title : string) (w : W) : option (Z * Z) * W :=
  let '(added, w1) := if bool_decide (magnet ≠ "") then AddTorrent magnet title w else (Some "", w) in
  match added with
  | None => (None, w1)
  | Some _ =>
      let '(info, w2) := GetTorrentInfo hash 90 w1 in
      ((λ _, speed_and_seeders hash w2) <$> info, w2)
  end.

Definition gs_CurrentTorrentStatus (hash : string) (w : W) : option (Z * Z) * W :=
  let '(info, w1) := post_get hash w in ((λ _, speed_and_seeders hash w1) <$> info, w1).

Definition gs_ReplaceTorrent (contentID oldHash newHash newMagnet newTitle : string) (w : W) : bool * W :=
  let '(added, w1) := AddTorrent newMagnet newTitle w in
  match added with
  | None => (false, w1)
  | Some _ =>
      let '(info, w2) := GetTorrentInfo newHash 120 w1 in
      (match info with Some (_ :: _) => true | _ => false end, w2)
  end.

Instance goStormTorrentTester : TorrentTester W := {| TestTorrent := gs_TestTorrent; CurrentTorrentStatus := gs_CurrentTorrentStatus |}.
Instance goStormTorrentReplacer : TorrentReplacer W := {| ReplaceTorrent := gs_ReplaceTorrent |}.
End adapters.

(** ** What a cycle does *)

(** Every row is under its key. *)
Definition keyed (t : table) : Prop := ∀ k a, t !! k = Some a → key_of a = k.

(** The release of a row, which checks leave alone. *)
Definition release (a : Alternative) : string * string * Z * string * string * Z * Z :=
  (ContentID a, ContentType a, aRank a, aHash a, aTitle a, aSize a, aQualityScore a).

(** A row that a cycle on [t] may change: an unhealthy one, or an untested
    alternative to an unhealthy first choice. *)
Definition may_change (t : table) (a : Alternative) : Prop :=
  unhealthy a ∨ aStatus a = Active ∧ ∃ k d, t !! k = Some d ∧ ContentID d = ContentID a ∧ aRank d = 1 ∧ unhealthy d.

(** A table during a cycle that began with [t]. *)
Record during (t t' : table) : Prop := {
  du_rows k : t !! k = None → t' !! k = None;
  du_row k a : t !! k = Some a → ∃ a', t' !! k = Some a' ∧ release a' = release a ∧
    (a' = a ∨ may_change t a) ∧ (aStatus a' = Active → aStatus a = Active);
}.

Lemma during_refl t : during t t.
Proof. split; [done|]. intros k a Ha. exists a. auto. Qed.

Lemma during_keyed t t' : keyed t → during t t' → keyed t'.
Proof.
  intros Ht [Hn Hr] k a' Ha'. destruct (t !! k) as [a|] eqn:Ha; [|by rewrite Hn in Ha'].
  destruct (Hr k a Ha) as (x & Hx & Hre & _). rewrite Ha' in Hx. injection Hx as <-. rewrite <-(Ht k a Ha). unfold key_of, release in *. congruence.
Qed.

(** An update of a row that may change keeps this. *)
Lemma during_alter t t' (f : Alternative → Alternative) k :
  during t t' → (∀ a, release (f a) = release a) →
  (∀ a a', t !! k = Some a → t' !! k = Some a' → may_change t a ∧ (aStatus (f a') = Active → aStatus a = Active)) →
  during t (alter f k t').
Proof.
  intros [Hn Hr] Hf Hk. split.
  - intros k' H. destruct (decide (k' = k)) as [->|Hne]; [rewrite lookup_alter_eq, Hn; done|rewrite lookup_alter_ne by done; auto].
  - intros k' a Ha. destruct (Hr k' a Ha) as (a' & Ha' & Hre & Hc & Hs). destruct (decide (k' = k)) as [->|Hne].
    + destruct (Hk a a' Ha Ha') as [Hm Hact]. exists (f a'). rewrite lookup_alter_eq, Ha'. split_and!; [done|by rewrite Hf|by right|done].
    + exists a'. rewrite lookup_alter_ne by done. auto.
Qed.

Lemma rows_elem t a : a ∈ rows t ↔ ∃ k, t !! k = Some a.
Proof.
  unfold rows. rewrite list_elem_of_fmap. split.
  - intros ([k x] & -> & Hin%elem_of_map_to_list). eauto.
  - intros [k Hk]. exists (k, a). split; [done|]. by apply elem_of_map_to_list.
Qed.

Section cycle.
Context `{HS : !SliceSort}.

Lemma GetUnhealthy_elem t a : a ∈ GetUnhealthyAlternatives t ↔ (∃ k, t !! k = Some a) ∧ unhealthy a.
Proof. unfold GetUnhealthyAlternatives. rewrite sort_slice_perm, list_elem_of_filter, rows_elem. naive_solver. Qed.

#[global] Instance by_rank_swo : StrictWeakOrder by_rank.
Proof. unfold by_rank. split; intros *; rewrite ?Z.ltb_lt, ?Z.ltb_ge; lia. Qed.

Lemma head_elem {A} (l : list A) x : head l = Some x → x ∈ l.
Proof. destruct l; [done|]. intros [= ->]. apply list_elem_of_here. Qed.

Lemma GetNextBest_spec contentID hash t a : GetNextBestAlternative contentID hash t = Some a →
  (∃ k, t !! k = Some a) ∧ ContentID a = contentID ∧ aHash a ≠ hash ∧ aStatus a = Active.
Proof.
  unfold GetNextBestAlternative. intros H%head_elem. rewrite sort_slice_perm, list_elem_of_filter, rows_elem in H. naive_solver.
Qed.

Context {W : Type} `{HW : !World W, HT : !TorrentTester W, HR : !TorrentReplacer W} (cfg : Config).

(** A row that was read at the beginning of the cycle and is unhealthy. *)
Definition read_row (t : table) (alt : Alternative) : Prop := t !! key_of alt = Some alt ∧ unhealthy alt.

Lemma classify_not_active speed seeders : classifyHealthWithCfg cfg speed seeders ≠ Active.
Proof. unfold classifyHealthWithCfg. repeat case_match; done. Qed.

Lemma checkAndUpdate_during t alt now t' (w : W) :
  read_row t alt → during t t' → during t (checkAndUpdate cfg alt now t' w).1.
Proof.
  intros [Ha Hu] Hd.
  assert (∀ s speed seeders, s ≠ Active → during t (UpdateAlternativeHealth (ContentID alt) (aHash alt) s speed seeders now t')) as H.
  { intros s speed seeders Hs. apply during_alter; [done|done|]. intros a a' Ha1 _. change (ContentID alt, aHash alt) with (key_of alt) in Ha1.
    rewrite Ha in Ha1. injection Ha1 as <-. split; [by left|done]. }
  unfold checkAndUpdate. destruct (CurrentTorrentStatus _ w) as [[[speed seeders]|] w1]; [apply H, classify_not_active|].
  destruct (TestTorrent _ _ _ w1) as [[[speed seeders]|] w2]; [apply H, classify_not_active|by apply H].
Qed.

Lemma tryReplace_during t dead t' (w : W) :
  keyed t → read_row t dead → aRank dead = 1 → during t t' → during t (tryReplace cfg dead t' w).1.2.
Proof.
  intros Ht [Ha Hu] Hr Hd. unfold tryReplace. destruct (GetNextBestAlternative _ _ _) as [next|] eqn:Hn; [|done].
  apply GetNextBest_spec in Hn as ([k Hk] & Hc & Hne & Hs). pose proof (during_keyed _ _ Ht Hd k next Hk) as <-.
  assert (∀ a, t !! key_of next = Some a → may_change t a ∧ aStatus a = Active) as Hnext.
  { intros a Ha1. destruct (du_row _ _ Hd _ _ Ha1) as (x & Hx & Hre & _ & Hact). rewrite Hk in Hx. injection Hx as <-.
    specialize (Hact Hs). split; [|done]. right. split; [done|]. exists (key_of dead), dead. split_and!; [done| |done|done].
    rewrite <-Hc. unfold release in Hre. congruence. }
  assert (∀ t1 f, during t t1 → (∀ a, release (f a) = release a) → during t (alter f (key_of next) t1)) as Hupd.
  { intros t1 f H1 Hf. apply during_alter; [done|done|]. intros a a' Ha1 _. destruct (Hnext a Ha1). auto. }
  destruct (TestTorrent _ _ _ w) as [[[speed seeders]|] w1]; [|by apply Hupd].
  destruct (negb _ && negb _); [by apply Hupd; [apply Hupd|]|].
  destruct (ReplaceTorrent _ _ _ _ _ w1) as [[] w2]; cbn [fst snd]; [|by apply Hupd; [apply Hupd|]].
  apply Hupd; [|done]. apply during_alter; [by apply Hupd; [apply Hupd|]|done|].
  intros a a' Ha1 _. change (ContentID dead, aHash dead) with (key_of dead) in Ha1. rewrite Ha in Ha1. injection Ha1 as <-.
  split; [by left|done].
Qed.

Lemma check_rows_during t l now n t' (w : W) :
  keyed t → (∀ a, a ∈ l → read_row t a) → during t t' → 0 ≤ n ≤ Z.max 0 (MaxReplacements cfg) →
  let '(n', t'', _) := check_rows cfg l now n t' w in during t t'' ∧ 0 ≤ n' ≤ Z.max 0 (MaxReplacements cfg).
Proof.
  intros Ht. revert n t' w. induction l as [|alt l IH]; intros n t' w Hl Hd Hn; cbn [check_rows]; [done|].
  destruct (Done w || _) eqn:Hs; [done|]. apply orb_false_iff in Hs as [_ Hs]. apply Z.leb_gt in Hs.
  assert (read_row t alt) as Ha by (apply Hl, list_elem_of_here). assert (∀ a, a ∈ l → read_row t a) as Hl' by (intros a H; apply Hl; by right).
  pose proof (checkAndUpdate_during t alt now t' w Ha Hd) as H1. destruct (checkAndUpdate _ _ _ _ _) as [t1 w1]. cbn [fst] in H1.
  destruct ((aRank alt =? 1) && _) eqn:Hc; [|by apply IH]. apply andb_true_iff in Hc as [Hr%Z.eqb_eq _].
  pose proof (tryReplace_during t alt t1 w1 Ht Ha Hr H1) as H2. destruct (tryReplace _ _ _ _) as [[b t2] w2]. cbn [fst snd] in H2.
  apply IH; [done|done|destruct b; lia].
Qed.

Lemma check_nothing now n t (w : W) : check_rows cfg [] now n t w = (n, t, w).
Proof. done. Qed.

Lemma no_unhealthy t : (∀ k a, t !! k = Some a → ¬ unhealthy a) → GetUnhealthyAlternatives t = [].
Proof.
  intros H. destruct (GetUnhealthyAlternatives t) as [|a l] eqn:E; [done|].
  assert (a ∈ GetUnhealthyAlternatives t) as [[k Hk] Hu]%GetUnhealthy_elem by (rewrite E; apply list_elem_of_here). by destruct (H k a Hk).
Qed.
End cycle.


(** ** The life of the table *)

(** The sync engines save their releases as active; the checker runs; and the
    outside does what it does. *)
Inductive alt_step {W : Type} `{!World W} `{!TorrentTester W} `{!TorrentReplacer W} `{!SliceSort} (cfg : Config) :
    table * W → table * W → Prop :=
  | as_save contentID alts t w : Forall (λ a, aStatus a = Active) alts →
      alt_step cfg (t, w) ((SaveAlternativesForContent contentID alts t).2, w)
  | as_cycle t w n t' w' : runCheck cfg t w = (n, t', w') → alt_step cfg (t, w) (t', w')
  | as_outside t w w' : alt_step cfg (t, w) (t, w').

Definition all_active (t : table) : Prop := ∀ k a, t !! k = Some a → aStatus a = Active.

Lemma insert_rows_active l t t' :
  Forall (λ a, aStatus a = Active) l → all_active t → insert_rows l t = Some t' → all_active t'.
Proof.
  intros Hl. revert t. induction l as [|a l IH]; intros t Ht E; cbn [insert_rows] in E; [by injection E as <-|].
  apply Forall_cons in Hl as [Ha Hl]. destruct (t !! key_of a); [done|]. eapply IH; [done| |done].
  intros k x. rewrite lookup_insert. case_decide; [by intros [= <-]|apply Ht].
Qed.

Lemma Save_active contentID alts t : Forall (λ a, aStatus a = Active) alts → all_active t →
  all_active (SaveAlternativesForContent contentID alts t).2.
Proof.
  intros Hl Ht. unfold SaveAlternativesForContent. destruct (insert_rows _ _) as [t'|] eqn:E; [|done].
  eapply insert_rows_active; [done| |done]. intros k a [Ha _]%map_lookup_filter_Some. by eapply Ht.
Qed.

(** The health checker never does anything. The engines save every release as
    active, and only rows that are dead or slow are ever tested; so in every
    state that is reached from an empty table by saves and cycles, whatever the
    torrents are like, all rows are active, and a cycle tests nothing, replaces
    nothing and changes nothing. *)
Theorem checker_never_acts {W : Type} `{!World W} `{!TorrentTester W} `{!TorrentReplacer W} `{!SliceSort} cfg (w0 : W) t w :
  rtc (alt_step cfg) (∅, w0) (t, w) → all_active t ∧ runCheck cfg t w = (0, t, w).
Proof.
  assert (∀ t (w : W), all_active t → runCheck cfg t w = (0, t, w)) as Hrun.
  { intros t1 w1 Ha. unfold runCheck. rewrite no_unhealthy; [done|]. intros k a Hk [E|E]; rewrite (Ha k a Hk) in E; done. }
  assert (∀ s s' : table * W, rtc (alt_step cfg) s s' → all_active s.1 → all_active s'.1) as Hinv.
  { intros s s' Hr. induction Hr as [|x y z Hs _ IH]; [done|]. intros Hx. apply IH.
    destruct Hs as [cid alts t1 w1 Hl|t1 w1 n t2 w2 Hc|]; cbn in *; [by apply Save_active| |done].
    rewrite (Hrun t1 w1 Hx) in Hc. by injection Hc as _ <- _. }
  intros Hr. assert (all_active t) as Ha; [|auto]. apply (Hinv _ _ Hr). intros k a Hk. cbn in Hk. by rewrite lookup_empty in Hk.
Qed.

(** ** Replacing *)

Lemma lookup_after (t : table) k f (a : Alternative) : t !! k = Some a → alter f k t !! k = Some (f a).
Proof. intros H. by rewrite lookup_alter_eq, H. Qed.

(** What the check finds does not reach the decision, and what the decision
    does does not reach the ranks. A first choice that is entered as dead without
    a speed is up for replacement although the check that has just been made
    found it healthy, and an alternative with 2 KB/s is better. After the
    replacement the old torrent is dead and still the first choice, and the new
    one is an untested alternative to it with the rank it had, so that the next
    cycle begins in the same position. *)
Theorem healthy_torrent_replaced {W : Type} `{!World W} `{!TorrentTester W} `{!TorrentReplacer W} `{!SliceSort}
    cfg t alt next (w w1 w2 w3 : W) speed seeders s2 :
  keyed t → t !! key_of alt = Some alt → aRank alt = 1 → aStatus alt = Dead → AvgSpeedKBps alt ≤ 0 →
  Done w = false → 0 < MaxReplacements cfg →
  CurrentTorrentStatus (aHash alt) w = (Some (speed, seeders), w1) → classifyHealthWithCfg cfg speed seeders = VerifiedHealthy →
  GetNextBestAlternative (ContentID alt) (aHash alt) (checkAndUpdate cfg alt (unix w) t w).1 = Some next →
  TestTorrent (aHash next) "" (aTitle next) w1 = (Some (2, s2), w2) →
  ReplaceTorrent (ContentID alt) (aHash alt) (aHash next) (BuildMagnet (aHash next) (aTitle next)) (aTitle next) w2 = (true, w3) →
  ∃ t' alt' next', check_rows cfg [alt] (unix w) 0 t w = (1, t', w3) ∧
    t' !! key_of alt = Some alt' ∧ aStatus alt' = Dead ∧ aRank alt' = 1 ∧ AvgSpeedKBps alt' = speed ∧
    t' !! key_of next = Some next' ∧ aStatus next' = Active ∧ aRank next' = aRank next.
Proof.
  intros Ht Ha Hr Hs Hsp Hdone Hmax Hcur Hcl Hn Htest Hrep. cbn [check_rows]. rewrite Hdone. cbn [orb].
  rewrite (proj2 (Z.leb_gt _ _) Hmax). unfold checkAndUpdate in Hn |- *. rewrite Hcur, Hcl in Hn |- *. cbn [fst] in Hn. rewrite (proj2 (Z.eqb_eq _ _) Hr). cbn [andb].
  set (t1 := UpdateAlternativeHealth _ _ _ _ _ _ t) in *. rewrite bool_decide_eq_true_2 by (by left).
  unfold tryReplace. rewrite Hn, Htest, (proj2 (Z.leb_le _ _) Hsp).
  assert (shouldReplaceWithCfg 2 1 = true) as -> by (vm_compute; reflexivity). cbn [negb andb]. rewrite Hrep. cbn [check_rows].
  apply GetNextBest_spec in Hn as ([k Hk] & Hc & Hne & Hact).
  assert (keyed t1) as Ht1.
  { intros k' a' E. unfold t1, UpdateAlternativeHealth in E. apply lookup_alter_Some in E as [(<- & x & Hx & ->)|[_ E]]; [|by apply Ht].
    by rewrite <-(Ht _ _ Hx). }
  pose proof (Ht1 _ _ Hk) as <-. assert (key_of next ≠ key_of alt) as Hk2 by (unfold key_of; congruence).
  assert (t1 !! key_of alt = Some (set_health VerifiedHealthy speed seeders (unix w) alt)) as Ha1
    by (unfold t1, UpdateAlternativeHealth; by apply lookup_after).
  eexists _, _, _. split; [reflexivity|]. unfold IncrementReplacementCount, UpdateAlternativeStatus, UpdateAlternativeHealth.
  change (ContentID next, aHash next) with (key_of next). change (ContentID alt, aHash alt) with (key_of alt).
  split; [rewrite lookup_alter_ne by done; apply lookup_after; rewrite !lookup_alter_ne by done; exact Ha1|]. split_and!; [done|done|done| | |].
  - apply lookup_after. rewrite lookup_alter_ne by done. apply lookup_after, lookup_after, Hk.
  - done.
  - done.
Qed.

(** ** The checker on the torrent engine *)

(** Polling ends with files only if the torrent engine gave some. *)
Lemma poll_files {W : Type} `{!World W} fuel n hash deadline (w : W) l w' :
  poll fuel n hash deadline w = (Some (Some l), w') → ∃ w0 : W, (post_get hash w0).1 = Some l.
Proof.
  revert n w. induction fuel as [|fuel IH]; intros n w E; cbn [poll] in E; [done|]. destruct (_ <? _); [|done]. destruct (Done w); [done|].
  destruct (post_get hash w) as [[[|f fs]|] w1] eqn:Eg; [by eapply IH| |by eapply IH]. injection E as <- _. exists w. by rewrite Eg.
Qed.

Lemma GetTorrentInfo_files {W : Type} `{!World W} hash n (w : W) l :
  (GetTorrentInfo hash n w).1 = Some l → ∃ w0 : W, (post_get hash w0).1 = Some l.
Proof.
  unfold GetTorrentInfo. destruct (poll _ _ _ _ _) as [[[x|]|] w'] eqn:E; cbn; [|done|done]. intros [= ->]. by eapply poll_files.
Qed.

(** With the torrent engine as tester an alternative is never accepted unless
    it is in the engine already. The checker tests without a magnet link, so the
    torrent is not added; if the engine never has files for the hash of the next
    alternative, the test fails, the alternative is marked as no better, and
    nothing else changes. *)
Theorem unknown_alternative_rejected undef {W : Type} `{!World W} `{!Figures W} `{!SliceSort} cfg dead next t (w : W) :
  GetNextBestAlternative (ContentID dead) (aHash dead) t = Some next →
  (∀ (w0 : W) l, (post_get (aHash next) w0).1 ≠ Some l) →
  (tryReplace (HT := goStormTorrentTester undef) (HR := goStormTorrentReplacer) cfg dead t w).1 =
    (false, UpdateAlternativeStatus (ContentID next) (aHash next) TestedNoBetter t).
Proof.
  intros Hn Hno. unfold tryReplace. rewrite Hn. cbn [TestTorrent goStormTorrentTester]. unfold gs_TestTorrent.
  rewrite bool_decide_eq_false_2 by (intros E; by apply E). destruct (GetTorrentInfo (aHash next) 90 w) as [[l|] w2] eqn:E; [|done].
  destruct (GetTorrentInfo_files (aHash next) 90 w l) as [w0 H0]; [by rewrite E|]. by destruct (Hno w0 l).
Qed.

(** ** Witnesses *)

(** A torrent engine that has no metadata of anything; a torrent that is active
    comes with 1000 KB/s and 50 seeders, a test with 2 KB/s. *)
#[local] Instance hc_world : World Z := {|
  Now := λ w, w;
  Sleep := λ n w, w + n * second;
  Done := λ _, false;
  ExternalIDs := λ _ w, (None, w);
  FetchTorrents := λ _ _ w, ([], w);
  FetchMovieStreams := λ _ w, (None, w);
  post_add := λ _ _ w, (Some "", w);
  post_get := λ _ w, (None, w + second);
  post_rem := λ _ w, w;
  post_list := λ w, (Some [], w);
  writable := λ _ _, true;
  Sleep_advances := λ n w, Z.le_refl _;
  post_get_advances := λ h w, ltac:(cbn; unfold second; lia);
|}.
#[local] Instance hc_tester : TorrentTester Z := {|
  TestTorrent := λ _ _ _ w, (Some (2, 1), w);
  CurrentTorrentStatus := λ h w, (if bool_decide (h = "h1") then Some (1000, 50) else None, w);
|}.
#[local] Instance hc_replacer : TorrentReplacer Z := {| ReplaceTorrent := λ _ _ _ _ _ w, (true, w) |}.
#[local] Instance hc_figures : Figures Z := {| figures := λ _ _, (f64_of_Z 0, 0) |}.

Definition first_choice : Alternative := MkAlternative "tt1" "movie" 1 "h1" "Film 1080p" 1000 0 5 Dead 0 0 0.
Definition second_choice : Alternative := MkAlternative "tt1" "movie" 2 "h2" "Film 720p" 500 0 4 Active 0 0 0.
Definition two_rows : table := {[ ("tt1", "h1") := first_choice; ("tt1", "h2") := second_choice ]}.

Lemma two_rows_keyed : keyed two_rows.
Proof.
  intros k a Hk. unfold two_rows in Hk. apply lookup_insert_Some in Hk as [[<- <-]|[_ Hk]]; [reflexivity|].
  apply lookup_singleton_Some in Hk as [<- <-]. reflexivity.
Qed.


Lemma checker_never_acts_witness :
  ∃ t : table, size t = 1%nat ∧ runCheck DefaultConfig t 0 = (0, t, 0).
Proof.
  exists (SaveAlternativesForContent "tt1" [second_choice] ∅).2. split; [vm_compute; reflexivity|].
  apply (checker_never_acts DefaultConfig 0). eapply rtc_once, (as_save DefaultConfig "tt1" [second_choice] ∅ 0).
  constructor; [reflexivity|constructor].
Defined.

Lemma healthy_torrent_witness :
  ∃ t' alt', check_rows DefaultConfig [first_choice] 0 0 two_rows 0 = (1, t', 0) ∧
    t' !! ("tt1", "h1") = Some alt' ∧ aStatus alt' = Dead ∧ AvgSpeedKBps alt' = 1000.
Proof.
  destruct (healthy_torrent_replaced DefaultConfig two_rows first_choice second_choice 0 0 0 0 1000 50 1) as (t' & alt' & next' & Hc & Ha & Hs & _ & Hv & _);
    [exact two_rows_keyed|vm_compute; reflexivity|reflexivity|reflexivity|vm_compute; discriminate|reflexivity|reflexivity|vm_compute; reflexivity|
     vm_compute; reflexivity|vm_compute; reflexivity|reflexivity|reflexivity|].
  exists t', alt'. split; [exact Hc|]. split; [exact Ha|]. split; [exact Hs|exact Hv].
Defined.

Lemma unknown_alternative_witness :
  (tryReplace (HT := goStormTorrentTester (λ _, 0)) (HR := goStormTorrentReplacer) DefaultConfig first_choice two_rows 0).1 =
    (false, UpdateAlternativeStatus "tt1" "h2" TestedNoBetter two_rows).
Proof.
  apply (unknown_alternative_rejected (λ _, 0) DefaultConfig first_choice second_choice two_rows 0); [vm_compute; reflexivity|].
  intros w0 l. discriminate.
Defined.
