(* ===== verification/SyncCache.v ===== *)
(** * Sync caches (synccache.go, internal/metadb/caches.go)

    Two caches keep the syncer from looking at the same torrents again: hashes
    without a video file, and packs that have been processed. They are loaded at
    the start, kept in memory, and written back when they have changed, to a
    table of SQLite or, without a database, to two JSON files.

    A moment is a number of nanoseconds; the text form of RFC 3339 keeps whole
    seconds, so in the table and in the files a moment is a number of seconds. A
    JSON object is its hash, its title and its time fields by name, which are
    matched without regard to case. Each operation holds the manager's lock but
    for the writing of [SyncToDisk]. *)

From S2P Require Import Prelude.

Definition second : Z := 1000000000.

(** The zero value of [time.Time], the first of January of the year 1. *)
Definition zero_time : Z := -62135596800 * second.

(** [Time.Sub] saturates. *)
Definition Sub (t u : Z) : Z := Z.max (- 2 ^ 63) (Z.min (2 ^ 63 - 1) (t - u)).

Record NegativeCacheEntry := MkNegative { nHash : string; nTimestamp : Z }.
Record FullpackCacheEntry := MkFullpack { fHash : string; fTitle : string; ProcessedAt : Z }.

(** ** Storage *)

Inductive cache_type := Negative | Fullpack.
#[export] Instance cache_type_eq_dec : EqDecision cache_type.
Proof. solve_decision. Defined.
#[export] Instance cache_type_countable : Countable cache_type.
Proof.
  refine (inj_countable' (λ c, match c with Negative => false | Fullpack => true end) (λ b, if b then Fullpack else Negative) _).
  by intros [].
Defined.

(** Rows of sync_caches: title and time by hash and type. *)
Abbreviation cache_table := (gmap (string * cache_type) (string * Z)).

Record json_entry := MkJson { jHash : string; jTitle : string; jTimes : gmap string Z }.

Record storage := MkStorage { st_table : cache_table; neg_file : option (gmap string json_entry); full_file : option (gmap string json_entry) }.

Definition AddNegative (hash : string) (t : Z) (d : cache_table) : cache_table := <[(hash, Negative) := ("", t / second)]> d.
Definition AddFullpack (hash title : string) (t : Z) (d : cache_table) : cache_table := <[(hash, Fullpack) := (title, t / second)]> d.
Definition IsNegative (hash : string) (d : cache_table) : bool := bool_decide (is_Some (d !! (hash, Negative))).
Definition IsFullpack (hash : string) (d : cache_table) : bool := bool_decide (is_Some (d !! (hash, Fullpack))).
Definition RemoveNegative (hash : string) (d : cache_table) : cache_table := delete (hash, Negative) d.
Definition RemoveFullpack (hash : string) (d : cache_table) : cache_table := delete (hash, Fullpack) d.

(** DELETE with a limit per type; the texts compare like the moments. *)
Definition stale_row (negativeTTL fullpackTTL now : Z) (kv : (string * cache_type) * (string * Z)) : Prop :=
  kv.2.2 < (now - match kv.1.2 with Negative => negativeTTL | Fullpack => fullpackTTL end) / second.
#[export] Instance stale_row_dec n f t kv : Decision (stale_row n f t kv).
Proof. unfold stale_row. apply _. Defined.
Definition CleanupStale (negativeTTL fullpackTTL now : Z) (d : cache_table) : nat * cache_table :=
  let d' := filter (λ kv, ¬ stale_row negativeTTL fullpackTTL now kv) d in ((size d - size d')%nat, d').

(** The contents of the table for two maps of entries with their time in text;
    the keys are distinct, so that no INSERT fails. *)
Definition SaveAllCaches (neg : gmap string Z) (full : gmap string (string * Z)) : cache_table :=
  map_fold (λ h x, <[(h, Fullpack) := x]>) (map_fold (λ h t, <[(h, Negative) := ("", t)]>) ∅ neg) full.

Definition load_row (k : string * cache_type) (x : string * Z) (c : gmap string Z * gmap string (string * Z)) : gmap string Z * gmap string (string * Z) :=
  match k.2 with Negative => (<[k.1 := x.2]> c.1, c.2) | Fullpack => (c.1, <[k.1 := x]> c.2) end.

Definition LoadAllCaches (d : cache_table) : gmap string Z * gmap string (string * Z) := map_fold load_row (∅, ∅) d.

(** ** The manager *)

Record SyncCacheManager := MkManager {
  hasDB : bool;
  negativeCache : gmap string NegativeCacheEntry;
  fullpackCache : gmap string FullpackCacheEntry;
  dirty : bool;
}.

Definition NewSyncCacheManager (db : bool) : SyncCacheManager := MkManager db ∅ ∅ false.

(** [json.Unmarshal] into a map adds to what is there. *)
Definition json_negative (j : json_entry) : NegativeCacheEntry :=
  MkNegative (jHash j) (default zero_time ((λ s, s * second) <$> jTimes j !! "timestamp")).
Definition json_fullpack (j : json_entry) : FullpackCacheEntry :=
  MkFullpack (jHash j) (jTitle j) (default zero_time ((λ s, s * second) <$> jTimes j !! "processed_at")).

Definition loadFromJSON (d : storage) (m : SyncCacheManager) : SyncCacheManager :=
  MkManager (hasDB m)
    (match neg_file d with Some f => (json_negative <$> f) ∪ negativeCache m | None => ∅ end)
    (match full_file d with Some f => (json_fullpack <$> f) ∪ fullpackCache m | None => ∅ end) (dirty m).

Definition LoadCachesFromDisk (db_ok : bool) (d : storage) (m : SyncCacheManager) : SyncCacheManager :=
  if hasDB m then
    if db_ok then
      let '(neg, full) := LoadAllCaches (st_table d) in
      MkManager true (map_imap (λ h s, Some (MkNegative h (s * second))) neg)
        (map_imap (λ h x, Some (MkFullpack h x.1 (x.2 * second))) full) (dirty m)
    else loadFromJSON d m
  else loadFromJSON d m.

(** What is written: the times in text, and for the files the entries of the
    database package, whose time field is called Timestamp in both. *)
Definition neg_copy (m : SyncCacheManager) : gmap string Z := (λ e, nTimestamp e / second) <$> negativeCache m.
Definition full_copy (m : SyncCacheManager) : gmap string (string * Z) := (λ e, (fTitle e, ProcessedAt e / second)) <$> fullpackCache m.

Definition syncJSON (neg : gmap string Z) (full : gmap string (string * Z)) (d : storage) : storage :=
  MkStorage (st_table d) (Some (map_imap (λ h s, Some (MkJson h "" {[ "timestamp" := s ]})) neg))
    (Some (map_imap (λ h x, Some (MkJson h x.1 {[ "timestamp" := x.2 ]})) full)).

(** [SyncToDisk] under the lock: the copies to write, and the flag is cleared. *)
Definition sync_begin (m : SyncCacheManager) : option (gmap string Z * gmap string (string * Z)) * SyncCacheManager :=
  if dirty m then (Some (neg_copy m, full_copy m), MkManager (hasDB m) (negativeCache m) (fullpackCache m) false) else (None, m).

(** The rest, without the lock; [true] if nothing failed. *)
Definition sync_write (db db_ok : bool) (c : gmap string Z * gmap string (string * Z)) (d : storage) : bool * storage :=
  if db then if db_ok then (true, MkStorage (SaveAllCaches c.1 c.2) (neg_file d) (full_file d)) else (false, d)
  else (true, syncJSON c.1 c.2 d).

Definition SyncToDisk (db_ok : bool) (m : SyncCacheManager) (d : storage) : bool * SyncCacheManager * storage :=
  match sync_begin m with
  | (Some c, m') => let '(ok, d') := sync_write (hasDB m) db_ok c d in (ok, m', d')
  | (None, m') => (true, m', d)
  end.

(** A hash of fewer than eight characters makes the message about it panic,
    after the entry has been removed. *)
Definition ClearNegativeCache (hash : string) (m : SyncCacheManager) : SyncCacheManager :=
  if bool_decide (is_Some (negativeCache m !! hash)) then MkManager (hasDB m) (delete hash (negativeCache m)) (fullpackCache m) true else m.
Definition ClearFullpackCache (hash : string) (m : SyncCacheManager) : SyncCacheManager :=
  if bool_decide (is_Some (fullpackCache m !! hash)) then MkManager (hasDB m) (negativeCache m) (delete hash (fullpackCache m)) true else m.

Definition CleanupStaleEntries (negativeTTL fullpackTTL now : Z) (m : SyncCacheManager) : SyncCacheManager :=
  let neg := filter (λ kv, ¬ negativeTTL < Sub now (nTimestamp kv.2)) (negativeCache m) in
  let full := filter (λ kv, ¬ fullpackTTL < Sub now (ProcessedAt kv.2)) (fullpackCache m) in
  let removed := ((size (negativeCache m) - size neg) + (size (fullpackCache m) - size full))%nat in
  MkManager (hasDB m) neg full (if (0 <? removed)%nat then true else dirty m).

Definition Stats (m : SyncCacheManager) : nat * nat := (size (negativeCache m), size (fullpackCache m)).

(** ** The table holds the caches *)

#[local] Ltac lookup_cases h i :=
  let Hne := fresh in destruct (decide (h = i)) as [->|Hne];
  [rewrite !lookup_insert_eq; reflexivity|rewrite !lookup_insert_ne by congruence; assumption].

Lemma SaveAllCaches_spec neg full h :
  SaveAllCaches neg full !! (h, Negative) = (λ t, ("", t)) <$> neg !! h ∧ SaveAllCaches neg full !! (h, Fullpack) = full !! h.
Proof.
  unfold SaveAllCaches. revert h. eapply (map_fold_weak_ind (λ d full, ∀ h, d !! (h, Negative) = (λ t, ("", t)) <$> neg !! h ∧ d !! (h, Fullpack) = full !! h)).
  - eapply (map_fold_weak_ind (λ d neg, ∀ h, d !! (h, Negative) = (λ t, ("", t)) <$> neg !! h ∧ d !! (h, Fullpack) = (∅ : gmap string (string * Z)) !! h)); [intros h; by rewrite !lookup_empty|].
    intros i x m d _ IH h. rewrite (lookup_insert_ne _ _ (h, Fullpack)) by done. destruct (IH h) as [IH1 IH2]. split; [|done].
    lookup_cases h i.
  - intros i x m d _ IH h. rewrite (lookup_insert_ne _ _ (h, Negative)) by done. destruct (IH h) as [IH1 IH2]. split; [done|].
    lookup_cases h i.
Qed.

Lemma LoadAllCaches_spec d h :
  (LoadAllCaches d).1 !! h = snd <$> d !! (h, Negative) ∧ (LoadAllCaches d).2 !! h = d !! (h, Fullpack).
Proof.
  unfold LoadAllCaches. revert h.
  eapply (map_fold_weak_ind (λ c d, ∀ h, c.1 !! h = snd <$> d !! (h, Negative) ∧ c.2 !! h = d !! (h, Fullpack))); [intros h; cbn; by rewrite !lookup_empty|].
  intros [i ty] x m c _ IH h. destruct (IH h) as [IH1 IH2]. unfold load_row. destruct ty; cbn [fst snd].
  - rewrite (lookup_insert_ne _ _ (h, Fullpack)) by done. split; [|done].
    lookup_cases h i.
  - rewrite (lookup_insert_ne _ _ (h, Negative)) by done. split; [done|].
    lookup_cases h i.
Qed.

Lemma Load_Save neg full : LoadAllCaches (SaveAllCaches neg full) = (neg, full).
Proof.
  rewrite (surjective_pairing (LoadAllCaches _)). f_equal; apply map_eq; intros h.
  - rewrite (proj1 (LoadAllCaches_spec _ h)), (proj1 (SaveAllCaches_spec _ _ h)). by destruct (neg !! h).
  - rewrite (proj2 (LoadAllCaches_spec _ h)). apply SaveAllCaches_spec.
Qed.

(** Entries as loading makes them: under their hash, in whole seconds. *)
Definition loaded (m : SyncCacheManager) : Prop :=
  map_Forall (λ h e, nHash e = h ∧ nTimestamp e = nTimestamp e / second * second) (negativeCache m) ∧
  map_Forall (λ h e, fHash e = h ∧ ProcessedAt e = ProcessedAt e / second * second) (fullpackCache m).

(** What loading makes of the copies. *)
Definition from_copies (c : gmap string Z * gmap string (string * Z)) : SyncCacheManager :=
  MkManager true (map_imap (λ h s, Some (MkNegative h (s * second))) c.1) (map_imap (λ h x, Some (MkFullpack h x.1 (x.2 * second))) c.2) false.

Definition copies (m : SyncCacheManager) : gmap string Z * gmap string (string * Z) := (neg_copy m, full_copy m).

Lemma Load_from_copies d : LoadCachesFromDisk true d (NewSyncCacheManager true) = from_copies (LoadAllCaches (st_table d)).
Proof. unfold LoadCachesFromDisk. cbn. by destruct (LoadAllCaches _). Qed.

Lemma from_copies_loaded c : loaded (from_copies c).
Proof.
  split; cbn; intros h e; rewrite map_lookup_imap.
  - destruct (c.1 !! h); cbn; [|done]. intros [= <-]. cbn. by rewrite Z.div_mul.
  - destruct (c.2 !! h); cbn; [|done]. intros [= <-]. cbn. by rewrite Z.div_mul.
Qed.

Lemma copies_from_copies c : copies (from_copies c) = c.
Proof.
  destruct c as [neg full]. unfold copies, neg_copy, full_copy. cbn. f_equal; apply map_eq; intros h; rewrite lookup_fmap, map_lookup_imap.
  - destruct (neg !! h); cbn; [by rewrite Z.div_mul|done].
  - destruct (full !! h) as [[t s]|]; cbn; [by rewrite Z.div_mul|done].
Qed.

Lemma from_copies_copies m : loaded m → from_copies (copies m) = MkManager true (negativeCache m) (fullpackCache m) false.
Proof.
  intros [Hn Hf]. unfold from_copies, copies, neg_copy, full_copy. cbn. f_equal; apply map_eq; intros h; rewrite map_lookup_imap, lookup_fmap.
  - destruct (negativeCache m !! h) as [[hh t]|] eqn:E; cbn; [|done]. destruct (Hn h _ E) as [E1 E2]. cbn in E1, E2. by rewrite <-E2, E1.
  - destruct (fullpackCache m !! h) as [[hh ti t]|] eqn:E; cbn; [|done]. destruct (Hf h _ E) as [E1 E2]. cbn in E1, E2. by rewrite <-E2, E1.
Qed.

(** ** The life of the caches *)

(** The manager, what is stored, and the copies of a writer under way. The
    periodic writer is one goroutine: a write begins when none is under way. *)
Abbreviation caches := (SyncCacheManager * storage * option (gmap string Z * gmap string (string * Z)))%type.

Inductive cache_step : caches → caches → Prop :=
  | cs_clear_negative h m d p : cache_step (m, d, p) (ClearNegativeCache h m, d, p)
  | cs_clear_fullpack h m d p : cache_step (m, d, p) (ClearFullpackCache h m, d, p)
  | cs_cleanup n f now m d p : cache_step (m, d, p) (CleanupStaleEntries n f now m, d, p)
  | cs_begin m d : cache_step (m, d, None) ((sync_begin m).2, d, (sync_begin m).1)
  | cs_end m d c : cache_step (m, d, Some c) (m, (sync_write (hasDB m) true c d).2, None).

Record caches_ok (s : caches) : Prop := {
  co_db : hasDB s.1.1 = true;
  co_loaded : loaded s.1.1;
  co_clean : dirty s.1.1 = false → match s.2 with None => LoadAllCaches (st_table s.1.2) | Some c => c end = copies s.1.1;
}.

(** Taking entries out keeps this, if the flag is set when one went. *)
Lemma caches_ok_remove m m' d p :
  caches_ok (m, d, p) → hasDB m' = hasDB m → negativeCache m' ⊆ negativeCache m → fullpackCache m' ⊆ fullpackCache m →
  (dirty m' = false → dirty m = false ∧ negativeCache m' = negativeCache m ∧ fullpackCache m' = fullpackCache m) →
  caches_ok (m', d, p).
Proof.
  intros [Hdb [Hn Hf] Hc] E Hsn Hsf Hd. cbn in *. split; cbn.
  - congruence.
  - split; intros h e Hh; [apply Hn|apply Hf]; by eapply lookup_weaken.
  - intros (E1 & E2 & E3)%Hd. rewrite (Hc E1). unfold copies, neg_copy, full_copy. by rewrite E2, E3.
Qed.

Lemma filter_full_size {A} (P : string * A → Prop) `{!∀ x, Decision (P x)} (m : gmap string A) :
  (size m - size (filter P m) = 0)%nat → filter P m = m.
Proof.
  intros E. apply map_subseteq_size_eq; [apply map_filter_subseteq|lia].
Qed.

Lemma CleanupStaleEntries_ok n f now m d p : caches_ok (m, d, p) → caches_ok (CleanupStaleEntries n f now m, d, p).
Proof.
  intros Hok. eapply (caches_ok_remove m); [done|done|apply map_filter_subseteq|apply map_filter_subseteq|].
  cbn [CleanupStaleEntries dirty negativeCache fullpackCache]. case_match eqn:E; [done|]. apply Nat.ltb_ge in E. intros Hd. split; [done|]. split; apply filter_full_size; lia.
Qed.

Lemma cache_step_ok s s' : cache_step s s' → caches_ok s → caches_ok s'.
Proof.
  intros [h m d p|h m d p|n f now m d p|m d|m d c] Hok.
  - unfold ClearNegativeCache. case_bool_decide; [|done]. by eapply caches_ok_remove; [done|done|apply delete_subseteq|done|].
  - unfold ClearFullpackCache. case_bool_decide; [|done]. by eapply caches_ok_remove; [done|done|done|apply delete_subseteq|].
  - by apply CleanupStaleEntries_ok.
  - unfold sync_begin. destruct (dirty m) eqn:E; [|done]. destruct Hok as [Hdb Hl _]. by split.
  - destruct Hok as [Hdb Hl Hc]. cbn in *. split; cbn; [done|done|]. intros E. rewrite Hdb. cbn. rewrite Load_Save. rewrite <-(Hc E). by destruct c.
Qed.

(** What is kept in the database survives. However the entries of the caches
    are taken out or expire, also while a write is under way, once no write is
    under way a call of [SyncToDisk] leaves a table from which a new manager
    loads exactly the caches that are in memory. *)
Theorem caches_survive_restart d0 m d :
  rtc cache_step (LoadCachesFromDisk true d0 (NewSyncCacheManager true), d0, None) (m, d, None) →
  let '(ok, m', d') := SyncToDisk true m d in
  ok = true ∧ negativeCache m' = negativeCache m ∧ fullpackCache m' = fullpackCache m ∧
  LoadCachesFromDisk true d' (NewSyncCacheManager true) = m'.
Proof.
  intros Hr. assert (caches_ok (m, d, None)) as [Hdb Hl Hc].
  { apply (rtc_ind_l (λ s, caches_ok s → caches_ok (m, d, None)) _ (λ H, H)
      (λ s s' Hs _ IH H, IH (cache_step_ok s s' Hs H)) _ Hr).
    rewrite Load_from_copies. split; cbn; [done|apply from_copies_loaded|intros _; by rewrite copies_from_copies]. }
  cbn [fst snd] in *. unfold SyncToDisk, sync_begin, sync_write. destruct (dirty m) eqn:E; rewrite ?Hdb; cbv beta iota;
    (split_and!; [done|done|done|]); rewrite Load_from_copies; cbn [st_table fst snd].
  - rewrite Load_Save. by apply from_copies_copies.
  - rewrite (Hc eq_refl), from_copies_copies by done. destruct m. cbn in *. congruence.
Qed.

(** What the clean-up leaves: the entries that are no older than the limits. *)
Lemma CleanupStaleEntries_exact n f now m h :
  (∀ e, negativeCache (CleanupStaleEntries n f now m) !! h = Some e ↔ negativeCache m !! h = Some e ∧ Sub now (nTimestamp e) ≤ n) ∧
  (∀ e, fullpackCache (CleanupStaleEntries n f now m) !! h = Some e ↔ fullpackCache m !! h = Some e ∧ Sub now (ProcessedAt e) ≤ f).
Proof. split; intros e; cbn; rewrite map_lookup_filter_Some; cbn; by rewrite Z.nlt_ge. Qed.

(** Without a database full packs do not survive a restart. The files that
    are written give the hashes without video back, but the time of a full pack
    is written under another name than it is read: every pack comes back with
    the zero time, and since 1970 the first clean-up takes all of them out. *)
Theorem packs_forgotten_without_db m d n f now :
  loaded m → hasDB m = false → dirty m = true → 0 ≤ now → f < 2 ^ 63 - 1 →
  let m' := LoadCachesFromDisk true (SyncToDisk true m d).2 (NewSyncCacheManager false) in
  negativeCache m' = negativeCache m ∧ dom (fullpackCache m') = dom (fullpackCache m) ∧
  map_Forall (λ _ e, ProcessedAt e = zero_time) (fullpackCache m') ∧
  fullpackCache (CleanupStaleEntries n f now m') = ∅.
Proof.
  intros Hl Hdb Hd Hnow Hf. unfold SyncToDisk, sync_begin. rewrite Hd. cbn. rewrite Hdb. cbn. rewrite !map_union_empty.
  assert (json_fullpack <$> map_imap (λ h x, Some (MkJson h x.1 {[ "timestamp" := x.2 ]})) (full_copy m) =
    (λ e, MkFullpack (fHash e) (fTitle e) zero_time) <$> fullpackCache m) as ->.
  { apply map_eq. intros h. rewrite !lookup_fmap, map_lookup_imap. unfold full_copy. rewrite lookup_fmap.
    destruct (fullpackCache m !! h) as [e|] eqn:E; cbn; [|done]. unfold json_fullpack. cbn. rewrite lookup_singleton_ne by done. cbn.
    by rewrite (proj1 (proj2 Hl h e E)). }
  split_and!.
  - pose proof (f_equal negativeCache (from_copies_copies m Hl)) as H. cbn in H. rewrite <-H. apply map_eq. intros h.
    rewrite lookup_fmap, !map_lookup_imap. unfold neg_copy. rewrite lookup_fmap. destruct (negativeCache m !! h); cbn; [|done].
    unfold json_negative. cbn. by rewrite lookup_singleton_eq.
  - apply dom_fmap_L.
  - intros h e. rewrite lookup_fmap. destruct (fullpackCache m !! h); cbn; [|done]. by intros [= <-].
  - apply map_empty. intros h. apply map_lookup_filter_None. right. intros e. rewrite lookup_fmap.
    destruct (fullpackCache m !! h); cbn; [|done]. intros [= <-] H. apply H. cbn. unfold Sub, zero_time, second. lia.
Qed.

(** A write that fails is not repeated: the flag is clear already, and until
    another entry goes the table stays what it was. *)
Lemma failed_save_not_retried m d :
  hasDB m = true → dirty m = true →
  let '(ok, m', d') := SyncToDisk false m d in
  ok = false ∧ d' = d ∧ SyncToDisk true m' d' = (true, m', d').
Proof. intros Hdb Hd. unfold SyncToDisk, sync_begin. rewrite Hd. cbn. rewrite Hdb. cbn. done. Qed.

(** ** Witnesses *)

Definition two_hashes : storage :=
  MkStorage {[ ("aa", Negative) := ("", 1700000000); ("bb", Fullpack) := ("Show S01", 1700000000) ]} None None.

Definition after_clear : SyncCacheManager := ClearNegativeCache "aa" (LoadCachesFromDisk true two_hashes (NewSyncCacheManager true)).

Lemma caches_survive_witness :
  ∃ m' d', SyncToDisk true after_clear two_hashes = (true, m', d') ∧ LoadCachesFromDisk true d' (NewSyncCacheManager true) = m' ∧
    negativeCache m' = ∅ ∧ fullpackCache m' = {[ "bb" := MkFullpack "bb" "Show S01" (1700000000 * second) ]}.
Proof.
  pose proof (caches_survive_restart two_hashes after_clear two_hashes (rtc_once _ _ (cs_clear_negative "aa" _ two_hashes None))) as H.
  destruct (SyncToDisk true after_clear two_hashes) as [[ok m'] d']. destruct H as (-> & Hn & Hf & Hl). exists m', d'.
  rewrite Hn, Hf. split; [reflexivity|]. split; [exact Hl|]. split; vm_compute; reflexivity.
Defined.

Lemma packs_forgotten_witness :
  ∃ m, size (fullpackCache m) = 1%nat ∧
    fullpackCache (CleanupStaleEntries 43200000000000 604800000000000 1700000001000000000
      (LoadCachesFromDisk true (SyncToDisk true m two_hashes).2 (NewSyncCacheManager false))) = ∅.
Proof.
  exists (MkManager false ∅ {[ "bb" := MkFullpack "bb" "Show S01" (1700000000 * second) ]} true). split; [vm_compute; reflexivity|].
  apply (packs_forgotten_without_db (MkManager false ∅ {[ "bb" := MkFullpack "bb" "Show S01" (1700000000 * second) ]} true) two_hashes);
    [|reflexivity|reflexivity|vm_compute; discriminate|vm_compute; reflexivity].
  split; [apply map_Forall_empty|]. apply map_Forall_singleton. split; vm_compute; reflexivity.
Defined.
