(* ===== verification/FuseTree.v ===== *)
(** * The directory tree of the file system (main.go, metadata.go, dircache.go)

    The nodes of the virtual file system over the directory with the small .mkv
    files: listing, looking up and asking for attributes. They sit on three
    components with models of their own: the metadata cache, the inode map, and
    here the cache of directory listings.

    The source directory is a map from clean absolute paths to directories and
    files; there are no symbolic links. An operation runs at one moment of its
    clock; the per-path lock of [getOrReadMeta] makes that one step of it. A
    result [None] is a panic of the metadata cache, which the theorems exclude. *)

From Stdlib Require Import Ascii.
From S2P Require Import Prelude LruCache InodeMap Regex Streaming MovieSync.

Definition second : Z := 1000000000.

(** ** Metadata of a file *)

Record Metadata := MkMeta { mURL : string; mPath : string; mImdbID : string; mSize : Z; mMtime : Z }.

Definition MinFileSize : Z := 100 * 1024 * 1024.
Definition MaxFileSize : Z := 100 * 1024 * 1024 * 1024.

Inductive meta_error := StatFile | ReadFile | ParseJSON | ErrInvalidURL | ErrInvalidSize | ErrInvalidFormat | ParseSize.

(** The numbers of [stat]; [Mode] has the type of the file. *)
Record Stat_t := MkStat { s_Ino : Z; s_Nlink : Z; s_Mode : Z; s_Uid : Z; s_Gid : Z; s_Rdev : Z; s_Blocks : Z; s_Size : Z }.

Inductive node := Directory (st : Stat_t) | File (st : Stat_t) (content : mkv) (mtime : Z).

Definition reID : regex := MustCompile "tt\d{7,10}".

(** The text of a JSON file, as the engines write it but for the escapes, which
    do not matter to [reID]. *)
Definition quote (s : string) : string := let q := String (ascii_of_nat 34) EmptyString in q +:+ s +:+ q.
Definition json_text (url : string) (size : Z) (magnet imdb : string) : string :=
  "{" +:+ quote "url" +:+ ":" +:+ quote url +:+ "," +:+ quote "size" +:+ ":" +:+ pretty size +:+ "," +:+
  quote "magnet" +:+ ":" +:+ quote magnet +:+ "," +:+ quote "imdb" +:+ ":" +:+ quote imdb +:+ "}".

Definition http_url (url : string) : bool := String.prefix "http://" url || String.prefix "https://" url.

Definition parseJSONFormat (content : mkv) (mtime : Z) (path : string) : meta_error + Metadata :=
  match content with
  | JsonMkv url size magnet imdb =>
      let url' := TrimSpace url in
      if negb (http_url url') then inl ErrInvalidURL
      else if (size <? MinFileSize) || (MaxFileSize <? size) then inl ErrInvalidSize
      else inr (MkMeta url' path
             (if bool_decide (imdb = "") then default "" (FindString reID (json_text url size magnet imdb)) else imdb) size mtime)
  | _ => inl ParseJSON
  end.

Definition parseLineFormat (content : string) (mtime : Z) (path : string) : meta_error + Metadata :=
  match split_on newline_char content with
  | l0 :: l1 :: rest =>
      let url := TrimSpace l0 in
      if negb (http_url url) then inl ErrInvalidURL
      else match InodeMap.Atoi (TrimSpace l1) with
      | None => inl ParseSize
      | Some size =>
          if (size <? MinFileSize) || (MaxFileSize <? size) then inl ErrInvalidSize
          else
            let line4 := match rest with _ :: l3 :: _ => TrimSpace l3 | _ => "" end in
            let imdb := if String.prefix "tt" line4 then line4 else "" in
            inr (MkMeta url path (if bool_decide (imdb = "") then default "" (FindString reID content) else imdb) size mtime)
      end
  | _ => inl ErrInvalidFormat
  end.

Definition ReadMetadataFromFile (path : string) (disk : gmap string node) : meta_error + Metadata :=
  match disk !! path with
  | None => inl StatFile
  | Some (Directory _) => inl ReadFile
  | Some (File _ (TextMkv s) mtime) => parseLineFormat s mtime path
  | Some (File _ c mtime) => parseJSONFormat c mtime path
  end.

Definition approximateMetadataSize (m : Metadata) : Z := Z.of_nat (String.length (mURL m) + String.length (mPath m)) + 8 + 24 + 64.

(** ** Attributes *)

Record Attr := MkAttr {
  Ino : Z; Nlink : Z; Mode : Z; Uid : Z; Gid : Z; Rdev : Z; Blksize : Z; Blocks : Z; aSize : Z; Mtime : Z; Atime : Z; Ctime : Z;
}.

Record Config := MkConfig { FuseBlockSize : Z; cUID : Z; cGID : Z }.

Definition S_IFREG : Z := 0x8000.
Definition S_IFDIR : Z := 0x4000.
Definition S_IFMT : Z := 0xF000.

(** Whole seconds since 1970; the zero time of Go is before 1970 too. *)
Definition sanitizeTime (t now : Z) : Z := if t / second <=? 0 then uint64 (now / second) else uint64 (t / second).

Definition fillAttrFromStat (cfg : Config) (st : Stat_t) (now : Z) : Attr :=
  let ts := sanitizeTime now now in
  MkAttr (s_Ino st) (wrap_u 32 (s_Nlink st)) (wrap_u 32 (s_Mode st)) (s_Uid st) (s_Gid st) (wrap_u 32 (s_Rdev st))
    (wrap_u 32 (FuseBlockSize cfg)) (uint64 (s_Blocks st)) (uint64 (s_Size st)) ts ts ts.

(** The fields that are not set keep their zero value. *)
Definition fillAttrFromMetadata (cfg : Config) (m : Metadata) (now : Z) : Attr :=
  let ts := sanitizeTime (mMtime m) now in
  MkAttr 0 1 (Z.lor S_IFREG 0x1A4) (cUID cfg) (cGID cfg) 0 (wrap_u 32 (FuseBlockSize cfg))
    (uint64 (uint64 (mSize m) + 511) / 512) (uint64 (mSize m)) ts ts ts.

Definition set_Ino (i : Z) (a : Attr) : Attr :=
  MkAttr i (Nlink a) (Mode a) (Uid a) (Gid a) (Rdev a) (Blksize a) (Blocks a) (aSize a) (Mtime a) (Atime a) (Ctime a).
Definition as_directory (a : Attr) : Attr :=
  MkAttr (Ino a) (Nlink a) (Z.lor S_IFDIR 0x1ED) (Uid a) (Gid a) (Rdev a) (Blksize a) (Blocks a) 4096 (Mtime a) (Atime a) (Ctime a).

(** ** The cache of listings *)

Record DirEntry := MkDirEntry { Name : string; deMode : Z; deIno : Z; Off : Z }.
Record DirCacheEntry := MkDirCacheEntry { Entries : list DirEntry; ExpiresAt : Z }.
Record DirCache := MkDirCache { dcache : gmap string DirCacheEntry; dttl : Z }.

Definition NewDirCache (ttl : Z) : DirCache := MkDirCache ∅ ttl.
Definition DirCache_Delete (path : string) (dc : DirCache) : DirCache := MkDirCache (delete path (dcache dc)) (dttl dc).
Definition DirCache_Get (path : string) (now : Z) (dc : DirCache) : option (list DirEntry) * DirCache :=
  match dcache dc !! path with
  | None => (None, dc)
  | Some e => if ExpiresAt e <? now then (None, DirCache_Delete path dc) else (Some (Entries e), dc)
  end.
Definition DirCache_Put (path : string) (entries : list DirEntry) (now : Z) (dc : DirCache) : DirCache :=
  MkDirCache (<[path := MkDirCacheEntry entries (now + dttl dc)]> (dcache dc)) (dttl dc).
Definition DirCache_CleanupExpired (now : Z) (dc : DirCache) : DirCache :=
  MkDirCache (filter (λ kv, ExpiresAt kv.2 <? now = false) (dcache dc)) (dttl dc).

(** ** Streams of a listing *)

Record nfsDirStream := MkStream { entries : list DirEntry; index : nat }.
Definition HasNext (s : nfsDirStream) : bool := (index s <? length (entries s))%nat.
(** [None]: index out of range. *)
Definition Next (s : nfsDirStream) : option (DirEntry * nfsDirStream) :=
  e ← entries s !! index s; Some (e, MkStream (entries s) (S (index s))).
Fixpoint seek_entry (off : Z) (l : list DirEntry) (i : nat) : option nat :=
  match l with
  | [] => None
  | e :: l' => if Off e =? off then Some (S i) else seek_entry off l' (S i)
  end.
Definition Seekdir (off : Z) (s : nfsDirStream) : nfsDirStream :=
  if off =? 0 then MkStream (entries s) 0
  else match seek_entry off (entries s) 0 with Some i => MkStream (entries s) i | None => s end.

(** ** The nodes *)

Record tree := MkTree {
  disk : gmap string node;
  metaCache : LRUCache (V := Metadata);
  globalInodeMap : option InodeMap;
  globalDirCache : DirCache;
}.

Definition set_disk (d : gmap string node) (t : tree) : tree := MkTree d (metaCache t) (globalInodeMap t) (globalDirCache t).
Definition set_meta (c : LRUCache) (t : tree) : tree := MkTree (disk t) c (globalInodeMap t) (globalDirCache t).
Definition set_inodes (im : option InodeMap) (t : tree) : tree := MkTree (disk t) (metaCache t) im (globalDirCache t).
Definition set_dirs (dc : DirCache) (t : tree) : tree := MkTree (disk t) (metaCache t) (globalInodeMap t) dc.

(** [filepath.Join] of a clean path and a name. *)
Definition join (dir name : string) : string := dir +:+ "/" +:+ name.
Definition slash : ascii := "/"%char.
Definition child_name (dir path : string) : option string :=
  n ← strip_prefix (dir +:+ "/") path; if has_char slash n || bool_decide (n = "") then None else Some n.

(** [os.ReadDir]: the entries by name; an error if there is no such directory. *)
Definition by_name (a b : string * node) : bool := cmp_lt (cmp_on fst String.compare) a b.
Definition ReadDir (dir : string) (d : gmap string node) : option (list (string * node)) :=
  match d !! dir with
  | Some (Directory _) => Some (sort_stable by_name (omap (λ pn, n ← child_name dir pn.1; Some (n, pn.2)) (map_to_list d)))
  | _ => None
  end.

Definition mkv_name (name : string) : bool :=
  let n := String.length name in (4 <=? n)%nat && bool_decide (String.substring (n - 4) 4 name = ".mkv").

Inductive looked_up :=
  | FileFound (m : Metadata) (ino : Z) (a : Attr)
  | DirFound (path : string) (ino : Z) (a : Attr)
  | Loopback (mode : Z)
  | ENOENT.

Section tree.
Context `{HX : !XXHash} `{HM : !MapRange} (cfg : Config).

Definition getOrReadMeta (path : string) (now : Z) (t : tree) : option ((meta_error + Metadata) * tree) :=
  '(val, c) ← LRUCache_Get Sum64String path now (metaCache t);
  let t := set_meta c t in
  match val with
  | Some m => Some (inr m, t)
  | None =>
      '(val, c) ← LRUCache_Get Sum64String path now (metaCache t);
      let t := set_meta c t in
      match val with
      | Some m => Some (inr m, t)
      | None =>
          match ReadMetadataFromFile path (disk t) with
          | inl err => Some (inl err, t)
          | inr m => '(_, c) ← LRUCache_Put Sum64String path m (approximateMetadataSize m) now (metaCache t); Some (inr m, set_meta c t)
          end
      end
  end.

(** Both [Lookup]s after the metadata has been found. *)
Definition lookup_file (fullPath : string) (m : Metadata) (now : Z) (t : tree) : looked_up * tree :=
  let '(_, im) := addFileToInodeMap fullPath (mURL m) (globalInodeMap t) in
  let '(ino, im) := getFileInodeFromMap fullPath im in
  (FileFound m ino (set_Ino ino (fillAttrFromMetadata cfg m now)), set_inodes im t).

Definition lookup_dir (fullPath : string) (st : Stat_t) (now : Z) (t : tree) : looked_up * tree :=
  let '(ino, im) := getDirInodeFromMap fullPath (globalInodeMap t) in
  (DirFound fullPath ino (set_Ino ino (fillAttrFromStat cfg st now)), set_inodes im t).

Definition node_stat (n : node) : Stat_t := match n with Directory st => st | File st _ _ => st end.

(** What both do for a name without metadata; they differ for what is neither
    directory nor .mkv file. *)
Definition lookup_other (root : bool) (fullPath : string) (now : Z) (t : tree) : looked_up * tree :=
  match disk t !! fullPath with
  | None => (ENOENT, t)
  | Some n =>
      if Z.land (s_Mode (node_stat n)) S_IFMT =? S_IFDIR then lookup_dir fullPath (node_stat n) now t
      else if root then (Loopback (Z.land (s_Mode (node_stat n)) S_IFMT), t) else (ENOENT, t)
  end.

Definition Lookup (root : bool) (dir name : string) (now : Z) (t : tree) : option (looked_up * tree) :=
  let fullPath := join dir name in
  if mkv_name name then
    '(r, t) ← getOrReadMeta fullPath now t;
    match r with
    | inr m => Some (lookup_file fullPath m now t)
    | inl _ => Some (lookup_other root fullPath now t)
    end
  else Some (lookup_other root fullPath now t).

(** The entries of a listing; [i] counts those of the directory. *)
Definition list_entry (root : bool) (dir : string) (i : Z) (e : string * node) (t : tree) : option DirEntry * tree :=
  let fullPath := join dir e.1 in
  match e.2 with
  | Directory _ =>
      let '(ino, im) := getDirInodeFromMap fullPath (globalInodeMap t) in
      (Some (MkDirEntry e.1 S_IFDIR ino (i + 1)), set_inodes im t)
  | File _ _ _ =>
      if root || mkv_name e.1 then
        let '(ino, im) := getFileInodeFromMap fullPath (globalInodeMap t) in
        (Some (MkDirEntry e.1 S_IFREG ino (i + 1)), set_inodes im t)
      else (None, t)
  end.

Fixpoint list_entries (root : bool) (dir : string) (i : Z) (l : list (string * node)) (t : tree) : list DirEntry * tree :=
  match l with
  | [] => ([], t)
  | e :: l' =>
      let '(x, t) := list_entry root dir i e t in
      let '(r, t) := list_entries root dir (i + 1) l' t in
      (match x with Some x => x :: r | None => r end, t)
  end.

(** [None]: the directory cannot be read. *)
Definition Readdir (root : bool) (dir : string) (now : Z) (t : tree) : option nfsDirStream * tree :=
  let '(hit, dc) := DirCache_Get dir now (globalDirCache t) in
  let t := set_dirs dc t in
  match hit with
  | Some es => (Some (MkStream es 0), t)
  | None =>
      match ReadDir dir (disk t) with
      | None => (None, t)
      | Some l =>
          let '(result, t) := list_entries root dir 0 l t in
          (Some (MkStream result 0), set_dirs (DirCache_Put dir result now (globalDirCache t)) t)
      end
  end.

Definition VirtualMkvNode_Getattr (m : Metadata) (now : Z) (t : tree) : Attr * tree :=
  let '(ino, im) := getFileInodeFromMap (mPath m) (globalInodeMap t) in
  (set_Ino ino (fillAttrFromMetadata cfg m now), set_inodes im t).

Definition VirtualDirNode_Getattr (path : string) (now : Z) (t : tree) : option Attr * tree :=
  match disk t !! path with
  | None => (None, t)
  | Some n =>
      let '(ino, im) := getDirInodeFromMap path (globalInodeMap t) in
      (Some (as_directory (set_Ino ino (fillAttrFromStat cfg (node_stat n) now))), set_inodes im t)
  end.

Definition VirtualMkvRoot_Getattr (path : string) (now : Z) (t : tree) : option Attr :=
  n ← disk t !! path; Some (as_directory (set_Ino InodeRoot (fillAttrFromStat cfg (node_stat n) now))).

Record StatfsOut := MkStatfs { Bsize : Z; fBlocks : Z; Bfree : Z; Bavail : Z; Files : Z; Ffree : Z; NameLen : Z }.
Definition Statfs (t : tree) : StatfsOut :=
  let n := LRUCache_Len (metaCache t) in
  MkStatfs 4096 (250 * 1024 * 1024) (125 * 1024 * 1024) (125 * 1024 * 1024) (if uint64 n =? 0 then 1000 else uint64 n) 500 255.
End tree.

(** ** Well-formed trees *)

Definition valid_meta (path : string) (m : Metadata) : Prop :=
  mPath m = path ∧ http_url (mURL m) = true ∧ MinFileSize ≤ mSize m ≤ MaxFileSize.

Lemma ReadMetadata_valid path d m : ReadMetadataFromFile path d = inr m → valid_meta path m.
Proof.
  unfold ReadMetadataFromFile, parseJSONFormat, parseLineFormat.
  destruct (d !! path) as [[st|st [url size magnet imdb| |s] mt]|]; try done.
  - destruct (http_url (TrimSpace url)) eqn:Hu; [|done]. cbn [negb]. destruct (_ || _) eqn:Hs; [done|].
    match goal with |- inr (MkMeta _ _ ?x _ _) = _ → _ => generalize x end. intros x [= <-].
    apply orb_false_iff in Hs as [?%Z.ltb_ge ?%Z.ltb_ge]. by split.
  - destruct (split_on newline_char s) as [|l0 [|l1 rest]]; [done|done|]. destruct (http_url (TrimSpace l0)) eqn:Hu; [|done]. cbn [negb].
    destruct (InodeMap.Atoi _) as [size|]; [|done]. destruct (_ || _) eqn:Hs; [done|].
    match goal with |- inr (MkMeta _ _ ?x _ _) = _ → _ => generalize x end. intros x [= <-].
    apply orb_false_iff in Hs as [?%Z.ltb_ge ?%Z.ltb_ge]. by split.
Qed.

(** The types of [stat] are those of the nodes. *)
Definition disk_ok (d : gmap string node) : Prop :=
  map_Forall (λ _ n, (Z.land (s_Mode (node_stat n)) S_IFMT =? S_IFDIR) = match n with Directory _ => true | File _ _ _ => false end) d.

Section ok.
Context `{HX : !XXHash} `{HM : !MapRange} (cfg : Config).

Definition inodes_inv (g : option InodeMap) : Prop := from_option im_inv True g.

Record tree_ok (dur : Z) (t : tree) : Prop := {
  to_meta : ∃ m, refines Sum64String dur (metaCache t) m ∧ ∀ p v u, m !! p = Some (v, u) → valid_meta p v;
  to_inodes : inodes_inv (globalInodeMap t);
  to_disk : disk_ok (disk t);
}.

(** *** The inode map *)

Lemma GetFileInode_inv p im : im_inv im → im_inv (GetFileInode p im).2.
Proof. intros H. eapply im_step_inv; [done|apply st_get_file]. Qed.
Lemma GetFileInodeByName_inv p im : im_inv im → im_inv (GetFileInodeByName p im).2.
Proof. intros H. eapply im_step_inv; [done|apply st_get_name]. Qed.

Lemma by_name_range b im : im_ok im → 0 ≤ (GetFileInodeByName b im).1 < 2 ^ 63.
Proof.
  intros H. unfold GetFileInodeByName. destruct (fastFileMap _ !! b) as [v|] eqn:E; [|done].
  apply (so_fast _ _ (shard_of_ok b im H)) in E as (_ & k & _ & ->). apply file_inode_fits.
Qed.

Lemma GetFileInode_range p im : im_ok im → 0 ≤ (GetFileInode p im).1 < 2 ^ 63.
Proof.
  intros H. rewrite GetFileInode_views. destruct (name_of p im) as [k|]; [|done]. cbn.
  destruct (inode_of k im) as [v|] eqn:E; [|done]. apply inode_of_value in E as [_ ->]; [apply file_inode_fits|done].
Qed.

Lemma getFileInodeFromMap_spec p g : inodes_inv g →
  inodes_inv (getFileInodeFromMap p g).2 ∧ 0 ≤ (getFileInodeFromMap p g).1 < 2 ^ 63.
Proof.
  intros H. assert (0 ≤ Z.land (hashFilenameToInode (Base p)) InodeFileMask < 2 ^ 63) as Hf by apply (file_inode_fits (Base p)).
  unfold getFileInodeFromMap. destruct g as [im|]; [|done]. cbn in H.
  pose proof (GetFileInode_inv p im H) as H1. pose proof (GetFileInode_range p im (proj1 H)) as Hr.
  destruct (GetFileInode p im) as [i1 im1]. cbn [fst snd] in *. destruct (negb (i1 =? 0)); [done|].
  pose proof (GetFileInodeByName_inv (Base p) im1 H1) as H2. pose proof (by_name_range (Base p) im1 (proj1 H1)) as Hr2.
  destruct (GetFileInodeByName (Base p) im1) as [i2 im2]. cbn [fst snd] in *. by destruct (negb (i2 =? 0)).
Qed.

Lemma getDirInodeFromMap_spec p g : inodes_inv g →
  inodes_inv (getDirInodeFromMap p g).2 ∧ (getDirInodeFromMap p g).1 = generateDirInode p.
Proof.
  intros H. unfold getDirInodeFromMap. destruct g as [im|]; [|done]. cbn in H.
  pose proof (proj2 (GetDirInode_value p im (proj1 H))) as Hv. pose proof (im_step_inv im _ H (st_get_dir im p)) as Hi.
  destruct (GetDirInode p im) as [i im1]. by cbn in *.
Qed.

Lemma addFileToInodeMap_ok p url g : inodes_inv g → inodes_inv (addFileToInodeMap p url g).2.
Proof.
  intros H. destruct g as [im|]; [|done]. destruct (addFileToInodeMap p url (Some im)) as [v [im'|]] eqn:E.
  - by eapply addFileToInodeMap_inv.
  - done.
Qed.

Lemma dir_inode_high p : p ≠ "/" → p ≠ "" → 2 ^ 63 ≤ generateDirInode p < 2 ^ 64.
Proof.
  intros H1 H2. pose proof (generateDirInode_fits p) as [_ Hlt]. split; [|exact Hlt]. unfold generateDirInode.
  rewrite !bool_decide_eq_false_2 by done. cbn [orb]. pose proof (Sum64String_range p) as [H0 _].
  assert (Z.testbit (Z.lor (Sum64String p) InodeDirMask) 63 = true) as E by (rewrite Z.lor_spec; apply orb_true_r).
  destruct (Z.le_gt_cases (2 ^ 63) (Z.lor (Sum64String p) InodeDirMask)) as [|Hgt]; [done|].
  apply Z.testbit_true in E; [|lia]. rewrite Z.div_small in E; [done|]. split; [|done]. apply Z.lor_nonneg. split; [done|by vm_compute].
Qed.

(** *** Reading metadata *)

Lemma getOrReadMeta_ok dur path now t : tree_ok dur t →
  ∃ r t', getOrReadMeta path now t = Some (r, t') ∧ tree_ok dur t' ∧
    disk t' = disk t ∧ globalInodeMap t' = globalInodeMap t ∧ globalDirCache t' = globalDirCache t ∧
    ∀ m, r = inr m → valid_meta path m.
Proof.
  intros [(m & Hr & Hm) Hi Hd]. unfold getOrReadMeta.
  destruct (Get_refines Sum64String dur (metaCache t) m path now Hr) as (v & c & -> & Hr1 & Ha). cbn.
  assert (∀ c', refines Sum64String dur c' m → tree_ok dur (set_meta c' t)) as Hset by (intros c' Hc; split; [eauto|done|done]).
  destruct v as [x|].
  { destruct Ha as (u & Hx & _). eexists _, _. split_and!; [done|by apply Hset|done|done|done|]. intros ? [= <-]. eauto. }
  destruct (Get_refines Sum64String dur c m path now Hr1) as (v & c1 & -> & Hr2 & Ha1). cbn. destruct v as [x|].
  { destruct Ha1 as (u & Hx & _). eexists _, _. split_and!; [done|by apply (Hset c1)|done|done|done|]. intros ? [= <-]. eauto. }
  destruct (ReadMetadataFromFile path (disk t)) as [err|x] eqn:E.
  { eexists _, _. split_and!; [done|by apply (Hset c1)|done|done|done|done]. }
  destruct (Put_refines Sum64String dur c1 m path x (approximateMetadataSize x) now Hr2) as (c2 & -> & Hr3). cbn.
  apply ReadMetadata_valid in E. eexists _, _. split_and!; [done| |done|done|done|by intros ? [= <-]].
  split; [|done|done]. eexists. split; [done|]. intros p v u. rewrite lookup_insert. case_decide; [by subst; intros [= <- _]|apply Hm].
Qed.

Lemma set_inodes_ok dur im t : tree_ok dur t → inodes_inv im → tree_ok dur (set_inodes im t).
Proof. intros [Hm _ Hd] Hi. by split. Qed.
Lemma set_dirs_ok dur dc t : tree_ok dur t → tree_ok dur (set_dirs dc t).
Proof. intros [Hm Hi Hd]. by split. Qed.

(** *** What the operations promise *)

Definition lookup_ok (dir name : string) (r : looked_up) : Prop :=
  match r with
  | FileFound m ino a => valid_meta (join dir name) m ∧ 0 ≤ ino < 2 ^ 63 ∧ Ino a = ino ∧ aSize a = mSize m ∧
      512 * (Blocks a - 1) < mSize m ≤ 512 * Blocks a ∧ Z.land (Mode a) S_IFMT = S_IFREG
  | DirFound p ino a => p = join dir name ∧ 2 ^ 63 ≤ ino < 2 ^ 64 ∧ Ino a = ino ∧ Z.land (Mode a) S_IFMT = S_IFDIR
  | Loopback _ | ENOENT => True
  end.

Lemma lookup_file_ok dur dir name m now t : tree_ok dur t → valid_meta (join dir name) m →
  tree_ok dur (lookup_file cfg (join dir name) m now t).2 ∧ lookup_ok dir name (lookup_file cfg (join dir name) m now t).1 ∧
  disk (lookup_file cfg (join dir name) m now t).2 = disk t ∧
  globalDirCache (lookup_file cfg (join dir name) m now t).2 = globalDirCache t.
Proof.
  intros Ht Hm. unfold lookup_file. pose proof (addFileToInodeMap_ok (join dir name) (mURL m) _ (to_inodes _ _ Ht)) as H1.
  destruct (addFileToInodeMap _ _ _) as [x g1]. cbn [snd] in H1. destruct (getFileInodeFromMap_spec (join dir name) g1 H1) as [H2 H3].
  destruct (getFileInodeFromMap _ g1) as [ino g2]. cbn [fst snd] in *. split; [by apply set_inodes_ok|]. split; [|done].
  destruct Hm as (Hp & Hu & Hs). unfold MinFileSize, MaxFileSize in Hs. cbn [lookup_ok]. split; [by split|]. split; [done|]. split; [done|].
  cbn [set_Ino aSize Blocks Mode fillAttrFromMetadata]. unfold wrap_u. rewrite !(Z.mod_small (mSize m)) by lia.
  rewrite (Z.mod_small (mSize m + 511)) by lia. split; [done|]. split; [|by vm_compute].
  pose proof (Z.div_mod (mSize m + 511) 512). pose proof (Z.mod_pos_bound (mSize m + 511) 512). lia.
Qed.

Lemma join_not_root dir name : name ≠ "" → join dir name ≠ "/" ∧ join dir name ≠ "".
Proof.
  intros Hn. unfold join. destruct dir as [|c dir]; [|split; [|done]; destruct dir; done]. split; [|done].
  intros [= E]. done.
Qed.

Lemma lookup_other_ok dur root dir name now t : name ≠ "" → tree_ok dur t →
  let '(r, t') := lookup_other cfg root (join dir name) now t in
  tree_ok dur t' ∧ lookup_ok dir name r ∧ disk t' = disk t ∧ globalDirCache t' = globalDirCache t.
Proof.
  intros Hn Ht. unfold lookup_other, lookup_dir. destruct (disk t !! join dir name) as [n|] eqn:En; [|done].
  destruct (_ =? S_IFDIR) eqn:Ed; [|by destruct root].
  destruct (getDirInodeFromMap_spec (join dir name) _ (to_inodes _ _ Ht)) as [H1 H2].
  destruct (getDirInodeFromMap _ _) as [ino g]. cbn [fst snd] in *. subst ino. split; [by apply set_inodes_ok|]. split; [|done].
  destruct (join_not_root dir name Hn). split; [done|]. split; [by apply dir_inode_high|]. split; [done|].
  cbn [set_Ino fillAttrFromStat Mode]. apply Z.eqb_eq in Ed. rewrite <-Ed. unfold wrap_u. rewrite <-Z.land_ones by lia.
  rewrite <-Z.land_assoc. by change (Z.land (Z.ones 32) S_IFMT) with S_IFMT.
Qed.

Lemma Lookup_ok dur root dir name now t : name ≠ "" → tree_ok dur t →
  ∃ r t', Lookup cfg root dir name now t = Some (r, t') ∧ tree_ok dur t' ∧ lookup_ok dir name r ∧
    disk t' = disk t ∧ globalDirCache t' = globalDirCache t.
Proof.
  intros Hn Ht. unfold Lookup. destruct (mkv_name name).
  - destruct (getOrReadMeta_ok dur (join dir name) now t Ht) as (r & t1 & -> & Ht1 & Hd & _ & Hc & Hv). cbn.
    destruct r as [err|m].
    + pose proof (lookup_other_ok dur root dir name now t1 Hn Ht1) as H. destruct (lookup_other _ _ _ _ _) as [r t2].
      destruct H as (? & ? & ? & ?). eexists _, _. split_and!; [done|done|done|congruence|congruence].
    + destruct (lookup_file_ok dur dir name m now t1 Ht1 (Hv m eq_refl)) as (H1 & H2 & H3 & H4).
      destruct (lookup_file _ _ _ _ _) as [r t2]. cbn [fst snd] in *. eexists _, _. split_and!; [done|done|done|congruence|congruence].
  - pose proof (lookup_other_ok dur root dir name now t Hn Ht) as H. destruct (lookup_other _ _ _ _ _) as [r t2].
    destruct H as (? & ? & ? & ?). eexists _, _. split_and!; done.
Qed.

Lemma list_entry_ok dur root dir i e t : tree_ok dur t →
  tree_ok dur (list_entry root dir i e t).2 ∧ disk (list_entry root dir i e t).2 = disk t ∧
  globalDirCache (list_entry root dir i e t).2 = globalDirCache t.
Proof.
  intros Ht. unfold list_entry. destruct e as [n [st|st c mt]]; cbn [fst snd].
  - pose proof (proj1 (getDirInodeFromMap_spec (join dir n) _ (to_inodes _ _ Ht))) as H.
    destruct (getDirInodeFromMap _ _). split; [by apply set_inodes_ok|done].
  - destruct (root || mkv_name n); [|done]. pose proof (proj1 (getFileInodeFromMap_spec (join dir n) _ (to_inodes _ _ Ht))) as H.
    destruct (getFileInodeFromMap _ _). split; [by apply set_inodes_ok|done].
Qed.

Lemma list_entries_ok dur root dir i l t : tree_ok dur t →
  tree_ok dur (list_entries root dir i l t).2 ∧ disk (list_entries root dir i l t).2 = disk t ∧
  globalDirCache (list_entries root dir i l t).2 = globalDirCache t.
Proof.
  revert i t. induction l as [|e l IH]; intros i t Ht; cbn [list_entries]; [done|].
  destruct (list_entry_ok dur root dir i e t Ht) as (H1 & H2 & H3). destruct (list_entry root dir i e t) as [x t1]. cbn [snd] in *.
  destruct (IH (i + 1) t1 H1) as (H4 & H5 & H6). destruct (list_entries root dir (i + 1) l t1) as [r t2]. cbn [snd] in *.
  split_and!; [done|congruence|congruence].
Qed.

Lemma Readdir_ok dur root dir now t : tree_ok dur t → tree_ok dur (Readdir root dir now t).2.
Proof.
  intros Ht. unfold Readdir. destruct (DirCache_Get dir now (globalDirCache t)) as [[es|] dc]; cbn [snd]; [by apply set_dirs_ok|].
  destruct (ReadDir dir _) as [l|]; cbn [snd]; [|by apply set_dirs_ok].
  destruct (list_entries_ok dur root dir 0 l (set_dirs dc t) (set_dirs_ok _ _ _ Ht)) as (H & _).
  destruct (list_entries _ _ _ _ _). cbn [snd] in *. by apply set_dirs_ok.
Qed.

(** *** Life of the tree *)

(** Requests of the kernel, with lookups of the paths in [P]; other programs
    change the directory; and caches are cleaned up. *)
Inductive browse (P : string → Prop) : tree → tree → Prop :=
  | br_lookup root dir name now t r t' : name ≠ "" → P (join dir name) → Lookup cfg root dir name now t = Some (r, t') → browse P t t'
  | br_readdir root dir now t : browse P t (Readdir root dir now t).2
  | br_getattr_file m now t : browse P t (VirtualMkvNode_Getattr cfg m now t).2
  | br_getattr_dir p now t : browse P t (VirtualDirNode_Getattr cfg p now t).2
  | br_disk d t : disk_ok d → browse P t (set_disk d t)
  | br_forget now t : browse P t (set_meta (LRUCache_CleanupExpired now (metaCache t)).2 t)
  | br_forget_dirs now t : browse P t (set_dirs (DirCache_CleanupExpired now (globalDirCache t)) t).

Definition anywhere (p : string) : Prop := True.

(** Besides, the inode map is saved, loaded and pruned. *)
Inductive tree_step : tree → tree → Prop :=
  | ts_browse t t' : browse anywhere t t' → tree_step t t'
  | ts_inodes im im' t : globalInodeMap t = Some im → im_step im im' → tree_step t (set_inodes (Some im') t).

Definition metaTTL : Z := 24 * 3600 * second.
Definition new_tree (cacheSize : Z) : tree :=
  MkTree ∅ (NewLRUCache cacheSize metaTTL) (Some (NewInodeMap NoFile)) (NewDirCache (10 * second)).

Lemma new_tree_ok cap : tree_ok metaTTL (new_tree cap).
Proof.
  split; cbn.
  - exists ∅. split; [apply (New_refines Sum64String cap metaTTL)|done].
  - split_and!; [apply NewInodeMap_ok|done|done].
  - apply map_Forall_empty.
Qed.

Lemma browse_ok P dur t t' : browse P t t' → tree_ok dur t → tree_ok dur t'.
Proof.
  intros [root dir name now s r s' Hn _ Hl|root dir now s|m now s|p now s|d s Hd|now s|now s] Ht.
  - destruct (Lookup_ok dur root dir name now s Hn Ht) as (r' & t2 & E & H & _). rewrite Hl in E. by injection E as _ <-.
  - by apply Readdir_ok.
  - unfold VirtualMkvNode_Getattr. pose proof (proj1 (getFileInodeFromMap_spec (mPath m) _ (to_inodes _ _ Ht))) as H.
    destruct (getFileInodeFromMap _ _). by apply set_inodes_ok.
  - unfold VirtualDirNode_Getattr. destruct (disk s !! p); [|done]. pose proof (proj1 (getDirInodeFromMap_spec p _ (to_inodes _ _ Ht))) as H.
    destruct (getDirInodeFromMap _ _). by apply set_inodes_ok.
  - destruct Ht as [Hm Hi _]. by split.
  - destruct Ht as [(m & Hr & Hm) Hi Hd]. split; [|done|done]. exists m. split; [by apply Cleanup_refines|done].
  - by apply set_dirs_ok.
Qed.

Lemma tree_step_ok dur t t' : tree_step t t' → tree_ok dur t → tree_ok dur t'.
Proof.
  intros [s s' Hb|im im' s Hi Hs] Ht; [by eapply browse_ok|].
  apply set_inodes_ok; [done|]. pose proof (to_inodes _ _ Ht) as H. rewrite Hi in H. by eapply im_step_inv.
Qed.

Lemma tree_reachable_ok cap t : rtc tree_step (new_tree cap) t → tree_ok metaTTL t.
Proof.
  assert (∀ s s', rtc tree_step s s' → tree_ok metaTTL s → tree_ok metaTTL s') as H.
  { induction 1 as [|s s' s'' Hs _ IH]; [done|]. intros Hok. eapply IH, tree_step_ok; done. }
  intros Hr. by eapply H, new_tree_ok.
Qed.
End ok.

(** C23: Whatever the kernel asked for before, a lookup does not panic, and what it
    finds is well typed. A file has metadata of its own path, with an HTTP link
    and between 100 MB and 100 GB, attributes with that size, the number of
    blocks for it and the type of a regular file, and an inode below 2^63; a
    directory has the type of one and an inode from 2^63 on, so that files and
    directories never share an inode. *)
Theorem nodes_well_typed `{!XXHash} `{!MapRange} cfg cap root dir name now t :
  rtc (tree_step cfg) (new_tree cap) t → name ≠ "" →
  ∃ r t', Lookup cfg root dir name now t = Some (r, t') ∧
  match r with
  | FileFound m ino a => mPath m = join dir name ∧ http_url (mURL m) = true ∧ MinFileSize ≤ mSize m ≤ MaxFileSize ∧
      0 ≤ ino < 2 ^ 63 ∧ Ino a = ino ∧ aSize a = mSize m ∧ 512 * (Blocks a - 1) < mSize m ≤ 512 * Blocks a ∧
      Z.land (Mode a) S_IFMT = S_IFREG
  | DirFound p ino a => p = join dir name ∧ 2 ^ 63 ≤ ino < 2 ^ 64 ∧ Ino a = ino ∧ Z.land (Mode a) S_IFMT = S_IFDIR
  | Loopback _ | ENOENT => True
  end.
Proof.
  intros Ht%tree_reachable_ok Hn. destruct (Lookup_ok cfg metaTTL root dir name now t Hn Ht) as (r & t' & E & _ & Hr & _).
  exists r, t'. split; [exact E|]. destruct r; [|exact Hr|done|done]. destruct Hr as ((H1 & H2 & H3) & H4 & H5 & H6 & H7 & H8). auto 10.
Qed.

(** ** Listings *)

Lemma strip_prefix_Some p s r : strip_prefix p s = Some r ↔ s = p +:+ r.
Proof.
  revert s. induction p as [|c p IH]; intros s; cbn [strip_prefix].
  - change ("" +:+ r) with r. split; [by intros [= ->]|by intros ->].
  - change (String c p +:+ r) with (String c (p +:+ r)). destruct s as [|c' s]; [done|]. case_bool_decide as E.
    + subst c'. rewrite IH. split; [by intros ->|by intros [= ->]].
    + split; [done|]. intros [= -> _]. done.
Qed.

(** A name of one path element. *)
Definition simple (n : string) : Prop := has_char slash n = false ∧ n ≠ "".

Lemma child_name_Some dir p n : child_name dir p = Some n ↔ p = join dir n ∧ simple n.
Proof.
  unfold child_name, join, simple. destruct (strip_prefix (dir +:+ "/") p) as [x|] eqn:E; cbn.
  - apply strip_prefix_Some in E. rewrite <-string_assoc in E. subst p.
    destruct (has_char slash x) eqn:Hs; cbn; [|case_bool_decide as He; cbn].
    + split; [done|]. intros [E [H _]]. apply (f_equal (strip_prefix (dir +:+ "/"))) in E. rewrite !string_assoc in E.
      rewrite !(proj2 (strip_prefix_Some _ _ _) eq_refl) in E. injection E as ->. congruence.
    + subst x. split; [done|]. intros [E [_ H]]. apply (f_equal (strip_prefix (dir +:+ "/"))) in E. rewrite !string_assoc in E.
      rewrite !(proj2 (strip_prefix_Some _ _ _) eq_refl) in E. injection E as <-. done.
    + split; [by intros [= ->]|]. intros [E _]. apply (f_equal (strip_prefix (dir +:+ "/"))) in E. rewrite !string_assoc in E.
      rewrite !(proj2 (strip_prefix_Some _ _ _) eq_refl) in E. injection E as ->. done.
  - split; [done|]. intros [-> _]. rewrite string_assoc in E. by rewrite (proj2 (strip_prefix_Some _ _ _) eq_refl) in E.
Qed.

Lemma join_inj dir n n' : join dir n = join dir n' → n = n'.
Proof.
  unfold join. rewrite !string_assoc. intros E. apply (f_equal (strip_prefix (dir +:+ "/"))) in E.
  rewrite !(proj2 (strip_prefix_Some _ _ _) eq_refl) in E. by injection E.
Qed.

Lemma ReadDir_elem dir d l n x : ReadDir dir d = Some l → (n, x) ∈ l ↔ d !! join dir n = Some x ∧ simple n.
Proof.
  unfold ReadDir. destruct (d !! dir) as [[st|]|]; [|done|done]. intros [= <-]. rewrite sort_stable_perm, list_elem_of_omap. split.
  - intros ([p y] & Hp%elem_of_map_to_list & E). cbn in E. destruct (child_name dir p) as [m|] eqn:Em; [|done]. injection E as -> ->.
    apply child_name_Some in Em as [-> Hs]. done.
  - intros [Hx Hs]. exists (join dir n, x). split; [by apply elem_of_map_to_list|]. cbn. by rewrite (proj2 (child_name_Some dir _ n) (conj eq_refl Hs)).
Qed.

Lemma ReadDir_names dir d l : ReadDir dir d = Some l → NoDup l.*1 ∧ sorted_by by_name l.
Proof.
  unfold ReadDir. destruct (d !! dir) as [[st|]|]; [|done|done]. intros [= <-]. split; [|apply (sort_stable_sorted (cmp_lt (cmp_on fst String.compare)))].
  rewrite sort_stable_perm. pose proof (NoDup_fst_map_to_list d) as Hnd. induction (map_to_list d) as [|[p y] l IH]; cbn; [constructor|].
  apply NoDup_cons in Hnd as [Hp Hnd]. destruct (child_name dir p) as [n|] eqn:E; [|by apply IH]. cbn. constructor; [|by apply IH].
  apply child_name_Some in E as [-> _]. intros ([m z] & Em & Hin)%list_elem_of_fmap. cbn in Em. subst m. apply Hp.
  apply list_elem_of_omap in Hin as ([q w] & Hq & Ew). cbn in Ew. destruct (child_name dir q) as [m|] eqn:Eq; [|done]. injection Ew as -> _.
  apply child_name_Some in Eq as [-> _]. by apply (list_elem_of_fmap_2 fst) in Hq.
Qed.

Definition listed (root : bool) (e : string * node) : Prop :=
  match e.2 with Directory _ => True | File _ _ _ => root || mkv_name e.1 = true end.
#[global] Instance listed_dec root e : Decision (listed root e).
Proof. unfold listed. destruct (e.2); apply _. Defined.

Section listings.
Context `{HX : !XXHash} `{HM : !MapRange} (cfg : Config).

Lemma list_entry_name root dir i e t :
  match (list_entry root dir i e t).1 with
  | Some x => listed root e ∧ Name x = e.1 ∧ Off x = i + 1
  | None => ¬ listed root e
  end.
Proof.
  unfold list_entry, listed. destruct e as [n [st|st c mt]]; cbn [fst snd].
  - by destruct (getDirInodeFromMap _ _).
  - destruct (root || mkv_name n); [|done]. by destruct (getFileInodeFromMap _ _).
Qed.

Lemma list_entries_names root dir i l t :
  let r := (list_entries root dir i l t).1 in
  Name <$> r = (filter (listed root) l).*1 ∧ StronglySorted Z.lt (Off <$> r) ∧ Forall (λ e, i < Off e) r.
Proof.
  revert i t. induction l as [|e l IH]; intros i t; cbn [list_entries]; [by split_and!; constructor|].
  pose proof (list_entry_name root dir i e t) as He. destruct (list_entry root dir i e t) as [x t1]. cbn [fst] in He.
  destruct (IH (i + 1) t1) as (H1 & H2 & H3). destruct (list_entries root dir (i + 1) l t1) as [r t2]. cbn [fst] in *.
  assert (Forall (λ e, i < Off e) r) as H4 by (eapply Forall_impl; [exact H3|]; intros ? ?; cbn in *; lia).
  destruct x as [x|]; [|by rewrite filter_cons_False].
  destruct He as (Hl & Hn & Ho). rewrite filter_cons_True by done. cbn. split_and!.
  - by rewrite Hn, H1.
  - constructor; [done|]. rewrite Forall_fmap. eapply Forall_impl; [exact H3|]. intros ? ?; cbn in *; lia.
  - constructor; [lia|done].
Qed.

Lemma seek_entry_found l i j e : StronglySorted Z.lt (Off <$> l) → l !! j = Some e → seek_entry (Off e) l i = Some (i + S j)%nat.
Proof.
  revert i j. induction l as [|x l IH]; intros i j Hs Hj; [done|]. cbn in Hs. apply StronglySorted_inv in Hs as [Hs Hx]. cbn [seek_entry].
  destruct j as [|j]; cbn in Hj.
  - injection Hj as ->. rewrite Z.eqb_refl. f_equal. lia.
  - rewrite Forall_fmap, Forall_forall in Hx. assert (Off x < Off e) as Hlt by (apply Hx; by eapply list_elem_of_lookup_2).
    rewrite (proj2 (Z.eqb_neq _ _)) by lia. rewrite (IH (S i) j Hs Hj). f_equal. lia.
Qed.

Lemma Readdir_fresh root dir now t l :
  (DirCache_Get dir now (globalDirCache t)).1 = None → ReadDir dir (disk t) = Some l →
  ∃ t0 r t1, globalInodeMap t0 = globalInodeMap t ∧ list_entries root dir 0 l t0 = (r, t1) ∧
    Readdir root dir now t = (Some (MkStream r 0), set_dirs (DirCache_Put dir r now (globalDirCache t1)) t1).
Proof.
  intros Hc Hl. unfold Readdir. destruct (DirCache_Get dir now (globalDirCache t)) as [h dc]. cbn [fst] in Hc. subst h.
  change (disk (set_dirs dc t)) with (disk t). rewrite Hl. exists (set_dirs dc t).
  destruct (list_entries root dir 0 l (set_dirs dc t)) as [r t1]. eauto.
Qed.
End listings.

(** A listing that is not cached shows exactly the subdirectories and the .mkv
    files of the directory (in the root all files), each once and sorted by
    name. Reading it on from the offset of an entry, as the kernel does when its
    buffer is full, goes on with the entry after it. For the time to live of the
    cache the same listing is shown, whatever happens to the directory. *)
Theorem Readdir_lists_directory `{!XXHash} `{!MapRange} root dir now t st :
  (DirCache_Get dir now (globalDirCache t)).1 = None → disk t !! dir = Some (Directory st) →
  ∃ s t', Readdir root dir now t = (Some s, t') ∧ index s = 0%nat ∧
  (∀ n, n ∈ Name <$> entries s ↔ has_char slash n = false ∧ n ≠ "" ∧ ∃ x, disk t !! join dir n = Some x ∧ listed root (n, x)) ∧
  NoDup (Name <$> entries s) ∧ sorted_by (cmp_lt String.compare) (Name <$> entries s) ∧
  (∀ i e k, entries s !! i = Some e → Seekdir (Off e) (MkStream (entries s) k) = MkStream (entries s) (S i)) ∧
  (∀ now' d, now' ≤ now + dttl (globalDirCache t') → (Readdir root dir now' (set_disk d t')).1 = Some s).
Proof.
  intros Hc Hd. assert (∃ l, ReadDir dir (disk t) = Some l) as [l Hl] by (unfold ReadDir; rewrite Hd; eauto).
  destruct (Readdir_fresh root dir now t l Hc Hl) as (t0 & r & t1 & _ & Hr & ->). eexists _, _. split; [done|]. split; [done|]. cbn [entries].
  destruct (list_entries_names root dir 0 l t0) as (Hn & Hs & Ho). rewrite Hr in Hn, Hs, Ho. cbn [fst] in *.
  destruct (ReadDir_names dir _ l Hl) as [Hnd Hso]. rewrite Hn. split_and!.
  - intros n. rewrite list_elem_of_fmap. split.
    + intros ([m x] & -> & [Hx Hin]%list_elem_of_filter). rewrite (ReadDir_elem _ _ _ _ _ Hl) in Hin. destruct Hin as [Hx' [H1 H2]]. eauto.
    + intros (H1 & H2 & x & H3 & H4). exists (n, x). split; [done|]. apply list_elem_of_filter. split; [done|]. by apply (ReadDir_elem _ _ _ _ _ Hl).
  - eapply sublist_NoDup; [exact Hnd|]. apply fmap_sublist, sublist_filter.
  - clear -Hso. induction Hso as [|e l Hso IH He]; [constructor|]. rewrite filter_cons. case_decide; [|done]. cbn. constructor; [done|].
    rewrite Forall_fmap. apply Forall_forall. intros x [_ Hx]%list_elem_of_filter. rewrite Forall_forall in He. by apply He.
  - intros i e k Hi. unfold Seekdir. cbn [entries]. rewrite Forall_forall in Ho. pose proof (Ho e (list_elem_of_lookup_2 _ _ _ Hi)).
    rewrite (proj2 (Z.eqb_neq _ _)) by lia. by rewrite (seek_entry_found r 0 i e Hs Hi).
  - intros now' d Hnow. change (now' ≤ now + dttl (globalDirCache t1)) in Hnow. unfold Readdir. cbn [set_disk set_dirs globalDirCache]. unfold DirCache_Get. cbn [DirCache_Put dcache dttl].
    rewrite lookup_insert_eq. cbn [ExpiresAt]. by rewrite (proj2 (Z.ltb_ge _ _) Hnow).
Qed.

(** ** Inodes *)

Section inodes.
Context `{HX : !XXHash} `{HM : !MapRange} (cfg : Config).

(** Every name in the map has its inode. *)
Definition backed (im : InodeMap) : Prop := ∀ p k, name_of p im = Some k → inode_of k im = Some (file_inode k).
Definition backed_map (g : option InodeMap) : Prop := from_option (λ im, im_inv im ∧ backed im) False g.
Definition named (p : string) (g : option InodeMap) : option string := g ≫= name_of p.

(** An operation that keeps this and the names. *)
Definition keeps_names (g g' : option InodeMap) : Prop := backed_map g → backed_map g' ∧ ∀ p, named p g' = named p g.

Lemma keeps_names_refl g : keeps_names g g.
Proof. done. Qed.
Lemma keeps_names_trans g1 g2 g3 : keeps_names g1 g2 → keeps_names g2 g3 → keeps_names g1 g3.
Proof. intros H1 H2 Hg. destruct (H1 Hg) as [Hb E1]. destruct (H2 Hb) as [Hb2 E2]. split; [done|]. intros p. by rewrite E2, E1. Qed.

Lemma keeps_names_shards im im' : im_step im im' → shards im' = shards im → keeps_names (Some im) (Some im').
Proof.
  intros Hs E [Hi Hb]. split; [split; [by eapply im_step_inv|]|].
  - intros p k. unfold name_of, inode_of, InodeMap.shard_of. rewrite E. apply Hb.
  - intros p. cbn. unfold name_of, InodeMap.shard_of. by rewrite E.
Qed.

Lemma get_keeps_names p g : keeps_names g (getFileInodeFromMap p g).2.
Proof.
  unfold getFileInodeFromMap. destruct g as [im|]; [|done].
  assert (keeps_names (Some im) (Some (GetFileInode p im).2)) as H1.
  { apply keeps_names_shards; [apply st_get_file|]. unfold GetFileInode. by destruct (_ ≫= _). }
  destruct (GetFileInode p im) as [i1 im1]. cbn [snd] in H1. destruct (negb (i1 =? 0)); [done|].
  assert (keeps_names (Some im1) (Some (GetFileInodeByName (Base p) im1).2)) as H2.
  { apply keeps_names_shards; [apply st_get_name|]. unfold GetFileInodeByName. by destruct (fastFileMap _ !! _). }
  destruct (GetFileInodeByName (Base p) im1) as [i2 im2]. cbn [snd] in H2. destruct (negb (i2 =? 0)); by eapply keeps_names_trans.
Qed.

Lemma get_dir_keeps_names p g : keeps_names g (getDirInodeFromMap p g).2.
Proof.
  unfold getDirInodeFromMap. destruct g as [im|]; [|done]. intros [Hi Hb].
  pose proof (im_step_inv im _ Hi (st_get_dir im p)) as Hi'. destruct (GetDirInode p im) as [v im'] eqn:E. cbn [snd] in *.
  assert (∀ q k, name_of q im' = name_of q im ∧ inode_of k im' = inode_of k im) as Hv.
  { intros q k. unfold GetDirInode, AddDir in E. destruct (_ || _); [by injection E as _ <-|]. destruct (dirMap _ !! p); [by injection E as _ <-|].
    injection E as _ <-. split.
    - exact (name_of_keep q p (put_dir p (generateDirInode p)) im (proj1 Hi) (λ s, eq_refl)).
    - exact (inode_of_keep k p (put_dir p (generateDirInode p)) im (proj1 Hi) (λ s, eq_refl)). }
  split; [split; [done|]|].
  - intros q k. rewrite (proj1 (Hv q k)), (proj2 (Hv q k)). apply Hb.
  - intros q. cbn. apply (Hv q "").
Qed.

(** Adding a file names it and nothing else. *)
Lemma add_names p url g :
  backed_map g → backed_map (addFileToInodeMap p url g).2 ∧
  (∀ q, q ≠ p → named q (addFileToInodeMap p url g).2 = named q g) ∧
  (∀ h i, ExtractHashAndIndex url = (h, i) → h ≠ "" → named p (addFileToInodeMap p url g).2 = Some (file_key (ToLower h) i)).
Proof.
  destruct g as [im|]; [|done]. intros [Hi Hb]. destruct (addFileToInodeMap p url (Some im)) as [v [im'|]] eqn:E; cycle 1.
  { unfold addFileToInodeMap in E. destruct (ExtractHashAndIndex url) as [h i]. destruct (bool_decide (h = "")); [done|]. by destruct (AddFile p h i im). }
  pose proof (addFileToInodeMap_inv p url v im im' Hi E) as Hi'. cbn [snd]. unfold addFileToInodeMap in E.
  destruct (ExtractHashAndIndex url) as [h i] eqn:Eh. apply ExtractHashAndIndex_ok in Eh as [Hh Hfits]. case_bool_decide as Hne.
  { injection E as _ <-. split_and!; [done|done|]. by intros ? ? [= <- <-]. }
  assert (canonical (file_key (ToLower h) i)) as Hcan by (eexists _, _; by split_and!; [|apply ToLower_no_colon|]).
  unfold AddFile in E. rewrite bool_decide_eq_false_2 in E by done. case_bool_decide as Hk.
  - injection E as _ <-. split_and!; [done|done|]. intros ? ? [= <- <-] _. exact Hk.
  - injection E as _ <-.
    change (generateFileInode h i) with (file_inode (file_key (ToLower h) i)) in Hi' |- *. set (key := file_key (ToLower h) i) in *.
    pose proof (λ q k', add_loaded_views (Base p) p key q k' im (proj1 Hi) Hcan) as Hv. cbv zeta in Hv.
    set (im1 := InodeMap.on_shard (Base p) _ _) in *. split_and!.
    + split; [done|]. intros q k Hq. change (name_of q im1 = Some k) in Hq. change (inode_of k im1 = Some (file_inode k)).
      rewrite (proj1 (Hv q k)) in Hq. rewrite (proj2 (Hv q k)). destruct (decide (k = key)) as [->|Hkk]; [done|].
      destruct (decide (q = p)); [congruence|by eapply Hb].
    + intros q Hq. change (name_of q im1 = name_of q im). rewrite (proj1 (Hv q "")). by rewrite decide_False.
    + intros ? ? [= <- <-] _. change (name_of p im1 = Some key). rewrite (proj1 (Hv p "")). by rewrite decide_True.
Qed.

(** The inode that is reported for a named path. *)
Lemma named_inode p k g : backed_map g → named p g = Some k → file_inode k ≠ 0 → (getFileInodeFromMap p g).1 = file_inode k.
Proof.
  destruct g as [im|]; [|done]. intros [Hi Hb] Hn Hk. cbn in Hn. unfold getFileInodeFromMap.
  pose proof (GetFileInode_views p im) as Hv. rewrite Hn in Hv. cbn in Hv. rewrite (Hb p k Hn) in Hv. cbn in Hv.
  destruct (GetFileInode p im) as [v im1]. cbn [fst] in Hv. subst v. by rewrite (proj2 (Z.eqb_neq _ _) Hk).
Qed.

Lemma list_entry_names root dir i e t : keeps_names (globalInodeMap t) (globalInodeMap (list_entry root dir i e t).2).
Proof.
  unfold list_entry. destruct e as [n [st|st c mt]]; cbn [fst snd].
  - pose proof (get_dir_keeps_names (join dir n) (globalInodeMap t)). by destruct (getDirInodeFromMap _ _).
  - destruct (root || mkv_name n); [|done]. pose proof (get_keeps_names (join dir n) (globalInodeMap t)). by destruct (getFileInodeFromMap _ _).
Qed.

(** A listing reports the inodes of the named files. *)
Lemma list_entries_inodes root dir i l t :
  keeps_names (globalInodeMap t) (globalInodeMap (list_entries root dir i l t).2) ∧
  (backed_map (globalInodeMap t) → ∀ e k, e ∈ (list_entries root dir i l t).1 → deMode e = S_IFREG →
     named (join dir (Name e)) (globalInodeMap t) = Some k → file_inode k ≠ 0 → deIno e = file_inode k).
Proof.
  revert i t. induction l as [|x l IH]; intros i t; cbn [list_entries].
  { split; [done|]. intros _ e k He. destruct (not_elem_of_nil _ He). }
  pose proof (list_entry_names root dir i x t) as Hx. destruct (list_entry root dir i x t) as [y t1] eqn:Ey. cbn [snd] in Hx.
  destruct (IH (i + 1) t1) as [H1 H2]. destruct (list_entries root dir (i + 1) l t1) as [r t2]. cbn [fst snd] in *.
  split; [by eapply keeps_names_trans|]. intros Hb e k He Hm Hn Hk. destruct (Hx Hb) as [Hb1 E1].
  assert (e ∈ r ∨ y = Some e) as [Hr| ->].
  { destruct y; [apply elem_of_cons in He as [->|]; auto|auto]. }
  - apply (H2 Hb1 e k Hr Hm); [by rewrite E1|done].
  - unfold list_entry in Ey. destruct x as [n [st|st c mt]]; cbn [fst snd] in Ey.
    + destruct (getDirInodeFromMap _ _). injection Ey as <- _. done.
    + destruct (root || mkv_name n); [|done]. pose proof (named_inode (join dir n) k (globalInodeMap t) Hb) as Hi.
      destruct (getFileInodeFromMap _ _) as [v g]. injection Ey as <- _. cbn in *. by apply Hi.
Qed.

Lemma Readdir_names root dir now t : keeps_names (globalInodeMap t) (globalInodeMap (Readdir root dir now t).2).
Proof.
  unfold Readdir. destruct (DirCache_Get dir now (globalDirCache t)) as [[es|] dc]; cbn [snd]; [done|].
  destruct (ReadDir dir _) as [l|]; cbn [snd]; [|done].
  pose proof (proj1 (list_entries_inodes root dir 0 l (set_dirs dc t))) as H. by destruct (list_entries _ _ _ _ _).
Qed.

(** A lookup names at most its own path. *)
Lemma Lookup_names dur root dir name now t r t' : name ≠ "" → tree_ok dur t → backed_map (globalInodeMap t) →
  Lookup cfg root dir name now t = Some (r, t') →
  backed_map (globalInodeMap t') ∧ (∀ q, q ≠ join dir name → named q (globalInodeMap t') = named q (globalInodeMap t)) ∧
  ∀ m ino a h i, r = FileFound m ino a → ExtractHashAndIndex (mURL m) = (h, i) → h ≠ "" →
    named (join dir name) (globalInodeMap t') = Some (file_key (ToLower h) i) ∧
    (file_inode (file_key (ToLower h) i) ≠ 0 → ino = file_inode (file_key (ToLower h) i)).
Proof.
  intros Hn Ht Hb. assert (∀ t1 r t', globalInodeMap t1 = globalInodeMap t → lookup_other cfg root (join dir name) now t1 = (r, t') →
    backed_map (globalInodeMap t') ∧ (∀ q, named q (globalInodeMap t') = named q (globalInodeMap t)) ∧ ∀ m ino a, r ≠ FileFound m ino a) as Hother.
  { intros t1 r1 t2 E. unfold lookup_other, lookup_dir. destruct (disk t1 !! join dir name) as [n|]; [|intros [= <- <-]; by rewrite E].
    destruct (_ =? S_IFDIR).
    - pose proof (get_dir_keeps_names (join dir name) (globalInodeMap t)) as H. rewrite E. destruct (getDirInodeFromMap _ _) as [v g].
      intros [= <- <-]. destruct (H Hb) as [H1 H2]. done.
    - destruct root; intros [= <- <-]; by rewrite E. }
  unfold Lookup. destruct (mkv_name name).
  - destruct (getOrReadMeta_ok dur (join dir name) now t Ht) as (rm & t1 & -> & _ & _ & E & _). cbn. destruct rm as [err|m].
    + intros [= E2]. destruct (Hother t1 r t' E E2) as (H1 & H2 & H3). split_and!; [done|auto|]. intros ? ? ? ? ? Hr. by destruct (H3 _ _ _ Hr).
    + unfold lookup_file. rewrite E. pose proof (add_names (join dir name) (mURL m) (globalInodeMap t) Hb) as (Ha1 & Ha2 & Ha3).
      destruct (addFileToInodeMap _ _ _) as [v g]. cbn [snd] in *. destruct (get_keeps_names (join dir name) g Ha1) as [Hg1 Hg2].
      pose proof (λ k, named_inode (join dir name) k g Ha1) as Hv. destruct (getFileInodeFromMap _ g) as [ino g2]. cbn [fst snd] in *.
      intros [= <- <-]. cbn [set_inodes globalInodeMap]. split_and!; [done|intros q Hq; rewrite Hg2; auto|].
      intros ? ? ? h i [= <- <- _] Hh Hne. rewrite Hg2. pose proof (Ha3 h i Hh Hne) as Hnm. split; [done|]. intros Hz. by apply Hv.
  - intros [= E2]. destruct (Hother t r t' eq_refl E2) as (H1 & H2 & H3). split_and!; [done|auto|]. intros ? ? ? ? ? Hr. by destruct (H3 _ _ _ Hr).
Qed.

Lemma browse_names P dur t t' : browse cfg P t t' → tree_ok dur t → backed_map (globalInodeMap t) →
  backed_map (globalInodeMap t') ∧ ∀ p, ¬ P p → named p (globalInodeMap t') = named p (globalInodeMap t).
Proof.
  intros [root dir name now s r s' Hn Hp Hl|root dir now s|m now s|p now s|d s Hd|now s|now s] Ht Hb.
  - destruct (Lookup_names dur root dir name now s r s' Hn Ht Hb Hl) as (H1 & H2 & _). split; [done|]. intros p Hnp. apply H2. by intros ->.
  - destruct (Readdir_names root dir now s Hb) as [? ?]. auto.
  - unfold VirtualMkvNode_Getattr. pose proof (get_keeps_names (mPath m) (globalInodeMap s) Hb) as [? ?]. destruct (getFileInodeFromMap _ _). auto.
  - unfold VirtualDirNode_Getattr. destruct (disk s !! p); [|auto]. pose proof (get_dir_keeps_names p (globalInodeMap s) Hb) as [? ?].
    destruct (getDirInodeFromMap _ _). auto.
  - auto.
  - auto.
  - auto.
Qed.

Lemma browses_names P dur t t' : rtc (browse cfg P) t t' → tree_ok dur t → backed_map (globalInodeMap t) →
  tree_ok dur t' ∧ backed_map (globalInodeMap t') ∧ ∀ p, ¬ P p → named p (globalInodeMap t') = named p (globalInodeMap t).
Proof.
  induction 1 as [|s s1 s2 Hs _ IH]; [auto|]. intros Ht Hb. destruct (browse_names P dur s s1 Hs Ht Hb) as [Hb1 E1].
  destruct (IH (browse_ok cfg P dur s s1 Hs Ht) Hb1) as (H1 & H2 & H3). split_and!; [done|done|]. intros p Hp. by rewrite H3, E1.
Qed.

Lemma new_tree_backed cap : backed_map (globalInodeMap (new_tree cap)).
Proof.
  cbn. split; [split_and!; [apply NewInodeMap_ok|done|done]|]. intros p k. by rewrite (proj1 (NewInodeMap_views NoFile p k)).
Qed.
End inodes.

Section reported.
Context `{HX : !XXHash} `{HM : !MapRange} (cfg : Config).

(** A lookup reports the inode of the torrent and names the path after it. *)
Lemma Lookup_inode dur root dir name now t m ino a t1 h i :
  tree_ok dur t → backed_map (globalInodeMap t) → name ≠ "" → Lookup cfg root dir name now t = Some (FileFound m ino a, t1) →
  ExtractHashAndIndex (mURL m) = (h, i) → h ≠ "" → file_inode (file_key (ToLower h) i) ≠ 0 →
  tree_ok dur t1 ∧ backed_map (globalInodeMap t1) ∧ mPath m = join dir name ∧ Ino a = ino ∧
  ino = file_inode (file_key (ToLower h) i) ∧ named (join dir name) (globalInodeMap t1) = Some (file_key (ToLower h) i).
Proof.
  intros Ht Hb Hn Hl Hh Hne Hz. destruct (Lookup_ok cfg dur root dir name now t Hn Ht) as (r' & t1' & E & Ht1 & Hok & _).
  rewrite Hl in E. injection E as <- <-. destruct Hok as ((Hp & _) & _ & Ha & _).
  destruct (Lookup_names cfg dur root dir name now t _ t1 Hn Ht Hb Hl) as (Hb1 & _ & Hnm).
  destruct (Hnm m ino a h i eq_refl Hh Hne) as [Hn1 Hi]. split_and!; auto.
Qed.

(** Attributes and fresh listings report the inode of a named path. *)
Lemma reported_inode m dir name k t :
  backed_map (globalInodeMap t) → named (join dir name) (globalInodeMap t) = Some k → file_inode k ≠ 0 → mPath m = join dir name →
  (∀ now', Ino (VirtualMkvNode_Getattr cfg m now' t).1 = file_inode k) ∧
  (∀ root' now' s t3 e, (DirCache_Get dir now' (globalDirCache t)).1 = None → Readdir root' dir now' t = (Some s, t3) →
     e ∈ entries s → Name e = name → deMode e = S_IFREG → deIno e = file_inode k).
Proof.
  intros Hb Hn Hz Hp. split.
  - intros now'. unfold VirtualMkvNode_Getattr. rewrite Hp. pose proof (named_inode _ _ _ Hb Hn Hz) as Hv.
    destruct (getFileInodeFromMap _ _) as [v g]. exact Hv.
  - intros root' now' s t3 e Hc Hrd He Hname Hmode. destruct (ReadDir dir (disk t)) as [l|] eqn:El; cycle 1.
    { unfold Readdir in Hrd. destruct (DirCache_Get _ _ _) as [hit dc]. cbn [fst] in Hc. subst hit. cbn [set_dirs disk] in Hrd. by rewrite El in Hrd. }
    destruct (Readdir_fresh root' dir now' t l Hc El) as (t0 & r & t4 & E0 & Hle & Hrd'). rewrite Hrd in Hrd'. injection Hrd' as -> _.
    destruct (list_entries_inodes root' dir 0 l t0) as [_ Hin]. rewrite Hle, E0 in Hin. cbn [fst] in Hin.
    apply (Hin Hb e _ He Hmode); [by rewrite Hname|done].
Qed.
End reported.

(** The inode of a file stays the same once it has been looked up. As long as
    the inode map is not pruned, the inode of a file with a torrent link that a
    lookup reports is that of its torrent and index, and attributes and fresh
    listings report the same after any further requests, lookups of other files
    and changes of the directory. *)
Theorem looked_up_inode_stays `{!XXHash} `{!MapRange} cfg cap root dir name now t m ino a t1 h i t2 :
  rtc (browse cfg anywhere) (new_tree cap) t → name ≠ "" → Lookup cfg root dir name now t = Some (FileFound m ino a, t1) →
  ExtractHashAndIndex (mURL m) = (h, i) → h ≠ "" → file_inode (file_key (ToLower h) i) ≠ 0 →
  rtc (browse cfg (λ q, q ≠ join dir name)) t1 t2 →
  ino = file_inode (file_key (ToLower h) i) ∧ Ino a = ino ∧
  (∀ now', Ino (VirtualMkvNode_Getattr cfg m now' t2).1 = ino) ∧
  (∀ root' now' s t3 e, (DirCache_Get dir now' (globalDirCache t2)).1 = None → Readdir root' dir now' t2 = (Some s, t3) →
     e ∈ entries s → Name e = name → deMode e = S_IFREG → deIno e = ino).
Proof.
  intros Hr Hn Hl Hh Hne Hz Hr2. destruct (browses_names cfg anywhere metaTTL _ t Hr (new_tree_ok cap) (new_tree_backed cap)) as (Ht & Hb & _).
  destruct (Lookup_inode cfg _ _ _ _ _ _ _ _ _ _ _ _ Ht Hb Hn Hl Hh Hne Hz) as (Ht1 & Hb1 & Hp & Ha & Hi & Hn1). split; [done|]. split; [done|].
  destruct (browses_names cfg _ metaTTL t1 t2 Hr2 Ht1 Hb1) as (_ & Hb2 & E2). rewrite Hi.
  apply reported_inode; [done| |done|done]. rewrite E2; [done|by intros []].
Qed.

(** ** Witnesses *)

#[local] Instance sample_XXHash : XXHash := {|
  Sum64String := λ s, poly_hash s 7;
  Sum64String_range := λ s, poly_hash_range s 7 ltac:(by split);
|}.

Definition sample_cfg : Config := MkConfig 1048576 1000 1000.
Definition sample_file : mkv := JsonMkv sample_url 1500000000 "" "tt1234567".
Definition sample_disk : gmap string node :=
  {[ "/m" := Directory (MkStat 2 2 0x41ED 0 0 0 8 4096);
     "/m/film.mkv" := File (MkStat 3 1 0x81A4 0 0 0 8 200) sample_file (1700000000 * second);
     "/m/note.txt" := File (MkStat 4 1 0x81A4 0 0 0 8 10) BadMkv (1700000000 * second) ]}.
Definition sample_tree : tree := set_disk sample_disk (new_tree 1000000).

Lemma sample_reached : rtc (browse sample_cfg anywhere) (new_tree 1000000) sample_tree.
Proof. apply rtc_once, br_disk. apply (bool_decide_unpack _). vm_compute. exact I. Qed.

Lemma sample_steps : rtc (tree_step sample_cfg) (new_tree 1000000) sample_tree.
Proof. apply rtc_once, ts_browse, br_disk. apply (bool_decide_unpack _). vm_compute. exact I. Qed.

(** What is looked up, without the tree. *)
Definition found (r : option (looked_up * tree)) : option (Z * Z * Z) :=
  x ← r; match x.1 with FileFound m ino a => Some (mSize m, ino, Blocks a) | _ => None end.

Lemma nodes_well_typed_witness :
  ∃ m ino a t', Lookup sample_cfg false "/m" "film.mkv" second sample_tree = Some (FileFound m ino a, t') ∧
    mSize m = 1500000000 ∧ 0 ≤ ino < 2 ^ 63 ∧ Blocks a = 2929688.
Proof.
  assert (found (Lookup sample_cfg false "/m" "film.mkv" second sample_tree) =
    Some (1500000000, Z.land (Sum64String (file_key sample_hash 3)) InodeFileMask, 2929688)) as Hf by (vm_compute; reflexivity).
  destruct (nodes_well_typed sample_cfg 1000000 false "/m" "film.mkv" second sample_tree sample_steps) as (r & t' & E & Hr); [discriminate|].
  rewrite E in Hf. cbn in Hf. destruct r as [m ino a| | |]; [|discriminate Hf..]. injection Hf as Hs Hi Hb.
  destruct Hr as (_ & _ & _ & Hino & _). exists m, ino, a, t'. split; [exact E|]. split; [exact Hs|]. split; [exact Hino|exact Hb].
Defined.

Lemma Readdir_lists_witness :
  ∃ s t', Readdir false "/m" second sample_tree = (Some s, t') ∧ Name <$> entries s = ["film.mkv"] ∧
    (Readdir false "/m" (5 * second) (set_disk ∅ t')).1 = Some s.
Proof.
  destruct (Readdir_lists_directory false "/m" second sample_tree (MkStat 2 2 0x41ED 0 0 0 8 4096)) as (s & t' & E & _ & _ & _ & _ & _ & Hc);
    [vm_compute; reflexivity|vm_compute; reflexivity|].
  assert (Name <$> default [] (entries <$> (Readdir false "/m" second sample_tree).1) = ["film.mkv"] ∧
    dttl (globalDirCache (Readdir false "/m" second sample_tree).2) = 10 * second) as [Hn Ht] by (vm_compute; split; reflexivity).
  rewrite E in Hn, Ht. cbn [fst snd fmap option_fmap option_map default] in Hn, Ht. exists s, t'. split; [exact E|]. split; [exact Hn|].
  apply Hc. rewrite Ht. vm_compute. discriminate.
Defined.

Lemma looked_up_inode_witness :
  ∃ m ino a t', Lookup sample_cfg false "/m" "film.mkv" second sample_tree = Some (FileFound m ino a, t') ∧
    ino = Z.land (Sum64String (file_key sample_hash 3)) InodeFileMask ∧
    Ino (VirtualMkvNode_Getattr sample_cfg m (2 * second) (Readdir false "/m" second t').2).1 = ino.
Proof.
  assert ((x ← Lookup sample_cfg false "/m" "film.mkv" second sample_tree; match x.1 with FileFound m _ _ => Some (mURL m) | _ => None end) =
    Some sample_url) as Hf by (vm_compute; reflexivity).
  destruct (Lookup sample_cfg false "/m" "film.mkv" second sample_tree) as [[[m ino a| | |] t']|] eqn:E; [|discriminate Hf..]. cbn in Hf. injection Hf as Hu.
  destruct (looked_up_inode_stays sample_cfg 1000000 false "/m" "film.mkv" second sample_tree m ino a t' sample_hash 3 (Readdir false "/m" second t').2)
    as (Hi & _ & Hg & _); [exact sample_reached|discriminate|exact E|rewrite Hu; vm_compute; reflexivity|discriminate|vm_compute; discriminate|
      apply rtc_once, br_readdir|].
  exists m, ino, a, t'. split; [reflexivity|]. split; [exact Hi|exact (Hg (2 * second))].
Defined.

(** A file that is listed before it is looked up is listed with the inode of its
    name; the lookup then reports the inode of its torrent, and the listing goes
    on showing the other one until it expires. *)
Lemma first_listing_other_inode :
  let '(s, t1) := Readdir false "/m" second sample_tree in
  let listed_inode := match s with Some s => deIno <$> entries s | None => [] end in
  let looked_up := (λ x, x.1.2) <$> found (Lookup sample_cfg false "/m" "film.mkv" (2 * second) t1) in
  let again := from_option (λ x, match (Readdir false "/m" (3 * second) x.2).1 with Some s => deIno <$> entries s | None => [] end) []
                 (Lookup sample_cfg false "/m" "film.mkv" (2 * second) t1) in
  again = listed_inode ∧ length listed_inode = 1%nat ∧ head listed_inode ≠ looked_up.
Proof. vm_compute. split; [reflexivity|]. split; [reflexivity|discriminate]. Qed.
