(* ===== verification/Deletion.v ===== *)
(** * Deleting files (main.go, autoremove.go, registry.go, internal/metadb/episodes.go)

    Deleting a .mkv file through the file system ends its pump, finds the torrent
    behind it, puts the torrent and the title of the show on the blacklist that
    the sync engines read, removes the torrent, deletes the file and takes it out
    of the registry of episodes. A watchdog takes entries without a file out of
    the registry every day.

    The registry is a table of SQLite, or, without a database, a JSON file that
    the TV engine writes too. How the writes end is an argument of the
    operations. *)

From Stdlib Require Import Ascii.
From S2P Require Import Prelude Float64 Regex Streaming Quality MovieSync TVTitles TVSync LruCache InodeMap PumpLife SyncCache FuseTree.

(** ** State *)

(** The JSON file of the registry. *)
Inductive registry_file := RegMissing | RegCorrupt | RegEntries (m : gmap string TVEpisodeEntry).

(** The blacklist file is [None] if it is missing or no JSON, which is read alike;
    its two fields are there. *)
Record server := MkServer {
  files : tree;
  registryPath : registry_file;
  registryDB : option (gmap string TVEpisodeEntry);
  blacklistPath : option BlacklistData;
  torrents : list (string * string);
  syncCaches : option SyncCacheManager;
  pumpLife : life;
  ReadOnly : bool;
}.

Definition set_files (t : tree) (s : server) : server :=
  MkServer t (registryPath s) (registryDB s) (blacklistPath s) (torrents s) (syncCaches s) (pumpLife s) (ReadOnly s).
Definition set_registry_file (r : registry_file) (s : server) : server :=
  MkServer (files s) r (registryDB s) (blacklistPath s) (torrents s) (syncCaches s) (pumpLife s) (ReadOnly s).
Definition set_registry_db (d : option (gmap string TVEpisodeEntry)) (s : server) : server :=
  MkServer (files s) (registryPath s) d (blacklistPath s) (torrents s) (syncCaches s) (pumpLife s) (ReadOnly s).
Definition set_blacklist (b : option BlacklistData) (s : server) : server :=
  MkServer (files s) (registryPath s) (registryDB s) b (torrents s) (syncCaches s) (pumpLife s) (ReadOnly s).
Definition set_torrents (l : list (string * string)) (c : option SyncCacheManager) (s : server) : server :=
  MkServer (files s) (registryPath s) (registryDB s) (blacklistPath s) l c (pumpLife s) (ReadOnly s).
Definition set_life (w : life) (s : server) : server :=
  MkServer (files s) (registryPath s) (registryDB s) (blacklistPath s) (torrents s) (syncCaches s) w (ReadOnly s).

(** How writes end. The JSON file of the registry is truncated before it is
    written. *)
Inductive save_result := Saved | NotOpened | TruncatedOnly.
Record outcomes := MkOutcomes { removes : bool; writes_blacklist : bool; saves_registry : save_result; deletes_row : string → bool; lists_rows : bool }.
Definition all_well : outcomes := MkOutcomes true true Saved (λ _, true) true.

(** ** The table of episodes *)

Definition UpsertEpisode (key : string) (e : TVEpisodeEntry) (d : gmap string TVEpisodeEntry) : gmap string TVEpisodeEntry := <[key := e]> d.
Definition GetEpisode (key : string) (d : gmap string TVEpisodeEntry) : option TVEpisodeEntry := d !! key.
Definition DeleteEpisode (key : string) (d : gmap string TVEpisodeEntry) : gmap string TVEpisodeEntry := delete key d.
Definition AllEpisodes (d : gmap string TVEpisodeEntry) : list (string * TVEpisodeEntry) := map_to_list d.
Definition EpisodesByFilePath (filePath : string) (d : gmap string TVEpisodeEntry) : list (string * TVEpisodeEntry) :=
  filter (λ kv, eFilePath kv.2 = filePath) (map_to_list d).

(** ** The registry *)

Definition exists_on_disk (s : server) (path : string) : bool := bool_decide (is_Some (disk (files s) !! path)).

Definition saveRegistryLocked (o : outcomes) (m : gmap string TVEpisodeEntry) (s : server) : server :=
  match saves_registry o with
  | Saved => set_registry_file (RegEntries m) s
  | NotOpened => s
  | TruncatedOnly => set_registry_file RegCorrupt s
  end.

Definition delete_rows (o : outcomes) (l : list (string * TVEpisodeEntry)) (d : gmap string TVEpisodeEntry) : gmap string TVEpisodeEntry :=
  foldl (λ d kv, if deletes_row o kv.1 then DeleteEpisode kv.1 d else d) d l.

Definition syncRegistryWithDB (o : outcomes) (d : gmap string TVEpisodeEntry) (s : server) : server :=
  match registryPath s with
  | RegMissing => s
  | _ =>
      if lists_rows o then set_registry_db (Some (delete_rows o (filter (λ kv, exists_on_disk s (eFilePath kv.2) = false) (AllEpisodes d)) d)) s
      else s
  end.

Definition syncRegistryWithJSON (o : outcomes) (s : server) : server :=
  match registryPath s with
  | RegEntries m =>
      let new := filter (λ kv, exists_on_disk s (eFilePath kv.2) = true) m in
      if (size m =? size new)%nat then s else saveRegistryLocked o new s
  | _ => s
  end.

Definition SyncRegistryWithDisk (o : outcomes) (s : server) : server :=
  match registryDB s with Some d => syncRegistryWithDB o d s | None => syncRegistryWithJSON o s end.

Definition removeFromRegistryDB (o : outcomes) (filePath : string) (d : gmap string TVEpisodeEntry) (s : server) : server :=
  if lists_rows o then set_registry_db (Some (delete_rows o (EpisodesByFilePath filePath d) d)) s else s.

(** The loop over the map ends with the first entry of the path. *)
Definition removeFromRegistryJSON `{!MapRange} (o : outcomes) (filePath : string) (now : Z) (s : server) : server :=
  match registryPath s with
  | RegEntries m =>
      match filter (λ kv, eFilePath kv.2 = filePath) (range_order now (map_to_list m)) with
      | kv :: _ => saveRegistryLocked o (delete kv.1 m) s
      | [] => s
      end
  | _ => s
  end.

Definition RemoveFromRegistry `{!MapRange} (o : outcomes) (filePath : string) (now : Z) (s : server) : server :=
  match registryDB s with Some d => removeFromRegistryDB o filePath d s | None => removeFromRegistryJSON o filePath now s end.

(** ** Removing the torrent *)

Definition hashPattern : regex := MustCompile "([a-f0-9]{40})".
Definition suffixPattern : regex := MustCompile "_([a-f0-9]{8})\.mkv$".
Definition yearRegex : regex := MustCompile "\(?\d{4}\)?".
Definition nonAlphaRegex : regex := MustCompile "[^a-z0-9]".

Lemma deletion_patterns_compile :
  forallb (λ r, bool_decide (is_Some (compile r))) ["([a-f0-9]{40})"; "_([a-f0-9]{8})\.mkv$"; "\(?\d{4}\)?"; "[^a-z0-9]"] = true.
Proof. vm_compute. reflexivity. Qed.

Definition HasSuffix (s suf : string) : bool :=
  let n := String.length s in let k := String.length suf in
  (k <=? n)%nat && bool_decide (String.substring (n - k) k s = suf).

Definition findFullHashBySuffix (suffix : string) (ts : list (string * string)) : string :=
  match filter (λ t, HasSuffix (ToLower t.1) (ToLower suffix) = true) ts with t :: _ => t.1 | [] => "" end.

(** The first line of the old format is shorter than the buffer of a scanner. *)
Definition extractHashFromFile (path : string) (d : gmap string node) : string :=
  match d !! path with
  | Some (File _ (JsonMkv url _ _ _) _) => ToLower (default "" (FindString hashPattern url))
  | Some (File _ (TextMkv s) _) => ToLower (default "" (FindString hashPattern (hd "" (split_on newline_char s))))
  | _ => ""
  end.

(** [filepath.Dir]. *)
Definition Dir (path : string) : string := Clean (String.concat "/" (removelast (split_on FuseTree.slash path) ++ [""])).

Definition deriveTitleFromPath (path : string) : string :=
  match reverse (split_on FuseTree.slash (Dir path)) with
  | lastDir :: parent :: _ => if String.prefix "Season." lastDir then parent else lastDir
  | _ => TVTitles.Base path
  end.

(** The form of a title in the blacklist. *)
Definition clean_title (title : string) : string :=
  let t := ReplaceAll "."%char " " (ReplaceAll "_"%char " " (ToLower title)) in
  ReplaceAllString nonAlphaRegex (ReplaceAllString yearRegex t "") "".

Definition no_blacklist : BlacklistData := MkBlacklist ∅ [].
Definition read_blacklist (s : server) : BlacklistData := default no_blacklist (blacklistPath s).

Definition addToBlacklist (o : outcomes) (hash title : string) (s : server) : server :=
  let bl := read_blacklist s in
  let new_hash := bool_decide (Hashes bl !! hash = None) in
  let hashes := if new_hash then <[hash := title]> (Hashes bl) else Hashes bl in
  let clean := clean_title title in
  let new_title := bool_decide (title ≠ "") && bool_decide (clean ≠ "") && bool_decide (clean ∉ Titles bl) in
  let titles := if new_title then Titles bl ++ [clean] else Titles bl in
  if (new_hash || new_title) && writes_blacklist o then set_blacklist (Some (MkBlacklist hashes titles)) s else s.

Definition RemTorrent (hash : string) (s : server) : list (string * string) :=
  if ReadOnly s then torrents s else filter (λ t, t.1 ≠ ToLower hash) (torrents s).

Definition removeTorrent (hash : string) (s : server) : server :=
  set_torrents (RemTorrent hash s) ((λ c, ClearFullpackCache hash (ClearNegativeCache hash c)) <$> syncCaches s) s.

(** The torrent of a file, by its name or else by its contents. *)
Definition file_hash (fullPath : string) (s : server) : string :=
  let by_suffix := match FindStringSubmatch suffixPattern (TVTitles.Base fullPath) 1 with
                   | Some x => findFullHashBySuffix x (torrents s) | None => "" end in
  if bool_decide (by_suffix = "") then extractHashFromFile fullPath (disk (files s)) else by_suffix.

(** [None] is the error about a missing hash. *)
Definition RemoveTorrentFromFile (o : outcomes) (fullPath : string) (s : server) : option bool * server :=
  let title := deriveTitleFromPath fullPath in
  let fullHash := file_hash fullPath s in
  if negb (String.length fullHash =? 40)%nat then (None, s)
  else (Some true, removeTorrent fullHash (addToBlacklist o fullHash title s)).

(** ** Unlink *)

(** The handles of the path are no longer active. *)
Definition drop_handles (path : string) (w : life) : life :=
  MkLife (semaphore w) (other_slots w) (handles w) (filter (λ i, hpath w i ≠ Some path) (activeHandles w)) (pumps w) (next_pump w)
    (activePumps w) (waiting w) (acquired w) (workers w) (pumpTimers w) (openTracker w).

Inductive unlinked := Unlinked | EPERM | NotRemoved.

Definition Unlink `{!MapRange} (o : outcomes) (dir name : string) (now : Z) (s : server) : unlinked * server :=
  if negb (mkv_name name) then (EPERM, s)
  else
    let fullPath := join dir name in
    let s := set_life (drop_handles fullPath (force_stop fullPath (pumpLife s))) s in
    let s := (RemoveTorrentFromFile o fullPath s).2 in
    if negb (exists_on_disk s fullPath && removes o) then (NotRemoved, s)
    else
      let s := set_files (set_disk (delete fullPath (disk (files s))) (files s)) s in
      let s := RemoveFromRegistry o fullPath now s in
      (Unlinked, set_files (set_dirs (DirCache_Delete dir (globalDirCache (files s))) (files s)) s).

(** ** The registry, whichever way it is kept *)

Definition registry_view (s : server) : gmap string TVEpisodeEntry :=
  match registryDB s with Some d => d | None => match registryPath s with RegEntries m => m | _ => ∅ end end.

(** The writes of the registry work. *)
Definition registry_works (o : outcomes) : Prop := saves_registry o = Saved ∧ lists_rows o = true ∧ ∀ k, deletes_row o k = true.

(** Everything but the registry. *)
Definition same_rest (s s' : server) : Prop :=
  files s' = files s ∧ blacklistPath s' = blacklistPath s ∧ torrents s' = torrents s ∧ syncCaches s' = syncCaches s ∧
  pumpLife s' = pumpLife s ∧ ReadOnly s' = ReadOnly s.

Lemma delete_rows_lookup o l d k : (∀ k, deletes_row o k = true) →
  delete_rows o l d !! k = if decide (k ∈ l.*1) then None else d !! k.
Proof.
  intros Ho. unfold delete_rows. revert d. induction l as [|[k' e] l IH]; intros d; cbn [foldl fst fmap list_fmap].
  - rewrite decide_False; [done|]. apply not_elem_of_nil.
  - rewrite IH, Ho. unfold DeleteEpisode. destruct (decide (k = k')) as [->|Hne].
    + rewrite (decide_True (P := k' ∈ k' :: l.*1)) by apply list_elem_of_here. rewrite lookup_delete_eq. by case_decide.
    + rewrite lookup_delete_ne by done. apply decide_ext. rewrite elem_of_cons. tauto.
Qed.

Lemma delete_rows_filter o (P : string * TVEpisodeEntry → Prop) `{!∀ x, Decision (P x)} d : (∀ k, deletes_row o k = true) →
  delete_rows o (filter P (map_to_list d)) d = filter (λ kv, ¬ P kv) d.
Proof.
  intros Ho. apply map_eq. intros k. rewrite delete_rows_lookup by done. apply option_eq. intros e. rewrite map_lookup_filter_Some. case_decide as Hin.
  - apply list_elem_of_fmap in Hin as ([k' e'] & -> & [HP Hin%elem_of_map_to_list]%list_elem_of_filter). cbn. split; [done|].
    intros [He Hn]. rewrite He in Hin. injection Hin as ->. done.
  - split; [|by intros [? _]]. intros He. split; [done|]. intros HP. apply Hin. apply list_elem_of_fmap. exists (k, e). split; [done|].
    apply list_elem_of_filter. split; [done|]. by apply elem_of_map_to_list.
Qed.

Lemma filter_twice (f : string → bool) (m : gmap string TVEpisodeEntry) :
  filter (λ kv, f (eFilePath kv.2) = true) (filter (λ kv, f (eFilePath kv.2) = true) m) = filter (λ kv, f (eFilePath kv.2) = true) m.
Proof. rewrite map_filter_filter. apply map_filter_ext. intros. tauto. Qed.

Lemma syncRegistryWithDB_exact o d s : registry_works o → registryPath s ≠ RegMissing →
  syncRegistryWithDB o d s = set_registry_db (Some (filter (λ kv, exists_on_disk s (eFilePath kv.2) = true) d)) s.
Proof.
  intros (_ & Hl & Hd) Hp. unfold syncRegistryWithDB, AllEpisodes. rewrite Hl, delete_rows_filter by done.
  assert (filter (λ kv, ¬ exists_on_disk s (eFilePath kv.2) = false) d = filter (λ kv, exists_on_disk s (eFilePath kv.2) = true) d) as ->.
  { apply map_filter_ext. intros k e _. cbn. by rewrite not_false_iff_true. }
  by destruct (registryPath s).
Qed.

Lemma syncRegistryWithJSON_exact o m s : registry_works o → registryPath s = RegEntries m →
  syncRegistryWithJSON o s = set_registry_file (RegEntries (filter (λ kv, exists_on_disk s (eFilePath kv.2) = true) m)) s.
Proof.
  intros (Hs & _ & _) Hp. unfold syncRegistryWithJSON, saveRegistryLocked. rewrite Hp, Hs. destruct (_ =? _)%nat eqn:E; [|done].
  apply Nat.eqb_eq in E. rewrite (map_subseteq_size_eq _ m (map_filter_subseteq _ m)) by lia. destruct s. cbn in *. by subst.
Qed.

(** The daily check of the registry does the same with and without a
    database: if the JSON file is there, afterwards the registry has exactly the
    entries whose file exists, nothing else has changed, and a second check
    changes nothing. Without the JSON file it does nothing, also with a database. *)
Theorem registry_check_exact o s :
  registry_works o →
  (registryPath s = RegMissing → SyncRegistryWithDisk o s = s) ∧
  (registryPath s ≠ RegMissing →
    registry_view (SyncRegistryWithDisk o s) = filter (λ kv, exists_on_disk s (eFilePath kv.2) = true) (registry_view s) ∧
    same_rest s (SyncRegistryWithDisk o s) ∧
    SyncRegistryWithDisk o (SyncRegistryWithDisk o s) = SyncRegistryWithDisk o s).
Proof.
  intros Ho. unfold SyncRegistryWithDisk. split.
  { unfold syncRegistryWithDB, syncRegistryWithJSON. intros ->. by destruct (registryDB s). }
  intros Hp. unfold registry_view. destruct (registryDB s) as [d|] eqn:Edb.
  - rewrite syncRegistryWithDB_exact by done. split; [done|]. split; [done|]. cbn [registryDB set_registry_db].
    rewrite (syncRegistryWithDB_exact o _ (set_registry_db _ s)) by done. unfold set_registry_db at 1. cbn. by rewrite (filter_twice (exists_on_disk s)).
  - destruct (registryPath s) as [| |m] eqn:Em; [done| |].
    + unfold syncRegistryWithJSON. by rewrite Em, Edb, Em, map_filter_empty.
    + rewrite (syncRegistryWithJSON_exact o m s) by done. cbn [registryDB set_registry_file]. rewrite Edb. split; [done|]. split; [done|].
      rewrite (syncRegistryWithJSON_exact o (filter (λ kv, exists_on_disk s (eFilePath kv.2) = true) m) (set_registry_file _ s)) by done.
      unfold set_registry_file at 1. cbn. by rewrite (filter_twice (exists_on_disk s)).
Qed.

(** Removing a path takes its entries out; without a database only one of them. *)
Lemma RemoveFromRegistry_view `{!MapRange} o p now s :
  registry_works o →
  (is_Some (registryDB s) ∨ ∀ k k' e e', registry_view s !! k = Some e → registry_view s !! k' = Some e' → eFilePath e = p → eFilePath e' = p → k = k') →
  registry_view (RemoveFromRegistry o p now s) = filter (λ kv, eFilePath kv.2 ≠ p) (registry_view s) ∧
  same_rest s (RemoveFromRegistry o p now s).
Proof.
  intros (Hs & Hl & Hd) Hu. unfold RemoveFromRegistry, removeFromRegistryDB, removeFromRegistryJSON, registry_view in *.
  destruct (registryDB s) as [d|] eqn:Edb.
  - rewrite Hl. unfold EpisodesByFilePath. rewrite delete_rows_filter by done. done.
  - destruct Hu as [[? ?]|Hu]; [done|]. destruct (registryPath s) as [| |m] eqn:Em;
      [by rewrite Edb, Em, map_filter_empty|by rewrite Edb, Em, map_filter_empty|].
    assert (∀ k e, (k, e) ∈ filter (λ kv, eFilePath kv.2 = p) (range_order now (map_to_list m)) ↔ m !! k = Some e ∧ eFilePath e = p) as Hin.
    { intros k e. rewrite list_elem_of_filter, range_order_perm, elem_of_map_to_list. cbn. tauto. }
    destruct (filter (λ kv, eFilePath kv.2 = p) (range_order now (map_to_list m))) as [|[k e] l].
    + rewrite Edb, Em. split; [|done]. symmetry. apply map_filter_id. intros k e He Hp.
      assert ((k, e) ∈ ([] : list (string * TVEpisodeEntry))) as Hn by by apply Hin. destruct (not_elem_of_nil _ Hn).
    + destruct (proj1 (Hin k e) (list_elem_of_here _ _)) as [He Hp]. unfold saveRegistryLocked. rewrite Hs. cbn. rewrite Edb. split; [|done].
      apply map_eq. intros k'. apply option_eq. intros e'. rewrite map_lookup_filter_Some, lookup_delete_Some. cbn. split.
      * intros [Hne He']. split; [done|]. intros Hp'. by apply Hne, (Hu k k' e e').
      * intros [He' Hp']. split; [|done]. intros ->. congruence.
Qed.

(** ** Deleting *)

(** What [addToBlacklist] adds. *)
Lemma addToBlacklist_spec o hash title s : writes_blacklist o = true →
  is_Some (Hashes (read_blacklist (addToBlacklist o hash title s)) !! hash) ∧
  (∀ h, h ≠ hash → Hashes (read_blacklist (addToBlacklist o hash title s)) !! h = Hashes (read_blacklist s) !! h) ∧
  (∀ c, c ∈ Titles (read_blacklist (addToBlacklist o hash title s)) ↔
     c ∈ Titles (read_blacklist s) ∨ c = clean_title title ∧ c ≠ "" ∧ title ≠ "").
Proof.
  intros Hw. unfold addToBlacklist. rewrite Hw, andb_true_r. set (bl := read_blacklist s).
  set (nt := bool_decide (title ≠ "") && bool_decide (clean_title title ≠ "") && bool_decide (clean_title title ∉ Titles bl)).
  assert (∀ c, c ∈ (if nt then Titles bl ++ [clean_title title] else Titles bl) ↔ c ∈ Titles bl ∨ c = clean_title title ∧ c ≠ "" ∧ title ≠ "") as Ht.
  { intros c. destruct nt eqn:E.
    - apply andb_true_iff in E as [[E1%bool_decide_eq_true E2%bool_decide_eq_true]%andb_true_iff _]. rewrite elem_of_app, list_elem_of_singleton.
      split; [intros [?| ->]; auto|]. intros [?|(-> & _)]; auto.
    - split; [auto|]. intros [?|(-> & H1 & H2)]; [done|]. destruct (decide (clean_title title ∈ Titles bl)); [done|].
      unfold nt in E. rewrite !bool_decide_eq_true_2 in E by done. done. }
  case_bool_decide as Hh; cbn [orb].
  - cbn. rewrite lookup_insert_eq. split; [done|]. split; [|exact Ht]. intros h Hne. by rewrite lookup_insert_ne.
  - assert (is_Some (Hashes bl !! hash)) as Hs by (destruct (Hashes bl !! hash); [done|by destruct Hh]).
    destruct nt; cbn; split_and!; try done.
Qed.

Lemma addToBlacklist_rest o hash title s :
  files (addToBlacklist o hash title s) = files s ∧ registryPath (addToBlacklist o hash title s) = registryPath s ∧
  registryDB (addToBlacklist o hash title s) = registryDB s ∧ torrents (addToBlacklist o hash title s) = torrents s ∧
  syncCaches (addToBlacklist o hash title s) = syncCaches s ∧ pumpLife (addToBlacklist o hash title s) = pumpLife s ∧
  ReadOnly (addToBlacklist o hash title s) = ReadOnly s.
Proof. unfold addToBlacklist. by destruct (_ && writes_blacklist o). Qed.

Lemma RemoveTorrentFromFile_rest o p s :
  files (RemoveTorrentFromFile o p s).2 = files s ∧ registryPath (RemoveTorrentFromFile o p s).2 = registryPath s ∧
  registryDB (RemoveTorrentFromFile o p s).2 = registryDB s ∧ pumpLife (RemoveTorrentFromFile o p s).2 = pumpLife s.
Proof.
  unfold RemoveTorrentFromFile. destruct (negb _); [done|]. cbn. destruct (addToBlacklist_rest o (file_hash p s) (deriveTitleFromPath p) s) as (-> & -> & -> & _ & _ & -> & _). done.
Qed.

(** The caches without a hash. *)
Lemma delete_absent {A} (m : gmap string A) h : ¬ is_Some (m !! h) → m = delete h m.
Proof. intros H. symmetry. apply delete_id. destruct (m !! h); [by destruct H|done]. Qed.

Lemma ClearNegative_fields h c :
  negativeCache (ClearNegativeCache h c) = delete h (negativeCache c) ∧ fullpackCache (ClearNegativeCache h c) = fullpackCache c.
Proof. unfold ClearNegativeCache. case_bool_decide; [done|]. split; [by apply delete_absent|done]. Qed.

Lemma ClearFullpack_fields h c :
  negativeCache (ClearFullpackCache h c) = negativeCache c ∧ fullpackCache (ClearFullpackCache h c) = delete h (fullpackCache c).
Proof. unfold ClearFullpackCache. case_bool_decide; [done|]. split; [done|by apply delete_absent]. Qed.

Lemma clear_both hash c :
  negativeCache (ClearFullpackCache hash (ClearNegativeCache hash c)) = delete hash (negativeCache c) ∧
  fullpackCache (ClearFullpackCache hash (ClearNegativeCache hash c)) = delete hash (fullpackCache c).
Proof.
  destruct (ClearFullpack_fields hash (ClearNegativeCache hash c)) as [-> ->]. by destruct (ClearNegative_fields hash c) as [-> ->].
Qed.

(** The state in which [Unlink] removes the file. *)
Definition torrent_gone (o : outcomes) (p : string) (s : server) : server :=
  (RemoveTorrentFromFile o p (set_life (drop_handles p (force_stop p (pumpLife s))) s)).2.

Lemma Unlink_eq `{!MapRange} o dir name now s :
  mkv_name name = true → exists_on_disk s (join dir name) = true → removes o = true →
  Unlink o dir name now s =
    (Unlinked,
     let s1 := RemoveFromRegistry o (join dir name) now
       (set_files (set_disk (delete (join dir name) (disk (files s))) (files s)) (torrent_gone o (join dir name) s)) in
     set_files (set_dirs (DirCache_Delete dir (globalDirCache (files s1))) (files s1)) s1).
Proof.
  intros Hn He Hr. unfold Unlink. rewrite Hn. cbn [negb]. fold (torrent_gone o (join dir name) s).
  destruct (RemoveTorrentFromFile_rest o (join dir name) (set_life (drop_handles (join dir name) (force_stop (join dir name) (pumpLife s))) s)) as (Hf & _).
  fold (torrent_gone o (join dir name) s) in Hf. cbn [set_life files] in Hf.
  assert (exists_on_disk (torrent_gone o (join dir name) s) (join dir name) = true) as -> by (unfold exists_on_disk; by rewrite Hf).
  rewrite Hr, Hf. done.
Qed.


(** The blacklist after [Unlink]. *)
Lemma Unlink_blacklist `{!MapRange} o dir name now s :
  mkv_name name = true → String.length (file_hash (join dir name) s) = 40%nat →
  blacklistPath (Unlink o dir name now s).2 = blacklistPath (addToBlacklist o (file_hash (join dir name) s) (deriveTitleFromPath (join dir name)) s).
Proof.
  intros Hn Hl. unfold Unlink. rewrite Hn. cbn [negb]. set (p := join dir name) in *. set (s0 := set_life (drop_handles p (force_stop p (pumpLife s))) s). set (g := (RemoveTorrentFromFile o p s0).2).
  assert (blacklistPath g = blacklistPath (addToBlacklist o (file_hash p s) (deriveTitleFromPath p) s)) as Hg.
  { unfold g, RemoveTorrentFromFile. change (file_hash p s0) with (file_hash p s). rewrite (proj2 (Nat.eqb_eq _ _) Hl). cbn [negb snd removeTorrent set_torrents blacklistPath].
    unfold addToBlacklist. change (read_blacklist s0) with (read_blacklist s). by destruct (_ && writes_blacklist o). }
  destruct (negb _); cbn [snd]; [done|]. rewrite <-Hg. cbn [set_files blacklistPath].
  unfold RemoveFromRegistry, removeFromRegistryDB, removeFromRegistryJSON, saveRegistryLocked. cbn [set_files registryDB registryPath].
  destruct (registryDB g) as [d|]; [by destruct (lists_rows o)|]. destruct (registryPath g) as [| |m]; [done|done|].
  destruct (filter _ (range_order now (map_to_list m))); [done|]. by destruct (saves_registry o).
Qed.


(** The cache of metadata is not told. A file whose metadata are cached can
    be looked up, and then opened, after it has been deleted. *)
Theorem deleted_file_found `{!XXHash} `{!MapRange} cfg o dir name now s m c s' root :
  LRUCache_Get Sum64String (join dir name) now (metaCache (files s)) = Some (Some m, c) →
  Unlink o dir name now s = (Unlinked, s') →
  ∃ ino a t', Lookup cfg root dir name now (files s') = Some (FileFound m ino a, t') ∧ disk t' !! join dir name = None.
Proof.
  intros Hm Hu. assert (mkv_name name = true ∧ exists_on_disk s (join dir name) = true ∧ removes o = true) as (Hn & He & Hr).
  { revert Hu. unfold Unlink. destruct (mkv_name name); [|done]. cbn [negb]. set (g := (RemoveTorrentFromFile _ _ _).2).
    assert (exists_on_disk g (join dir name) = exists_on_disk s (join dir name)) as ->.
    { unfold exists_on_disk, g. by rewrite (proj1 (RemoveTorrentFromFile_rest o (join dir name) _)). }
    destruct (exists_on_disk s (join dir name)); [|done]. by destruct (removes o). }
  rewrite Unlink_eq in Hu by done. injection Hu as <-. set (s1 := set_files _ (torrent_gone o (join dir name) s)).
  assert (files (RemoveFromRegistry o (join dir name) now s1) = files s1) as Hf.
  { unfold RemoveFromRegistry, removeFromRegistryDB, removeFromRegistryJSON, saveRegistryLocked. destruct (registryDB s1) as [d|]; [by destruct (lists_rows o)|].
    destruct (registryPath s1) as [| |x]; [done|done|]. destruct (filter _ (range_order now (map_to_list x))); [done|]. by destruct (saves_registry o). }
  cbv zeta. rewrite Hf. cbn [files set_files s1]. unfold Lookup. rewrite Hn. unfold getOrReadMeta. cbn [set_dirs set_disk metaCache]. rewrite Hm. cbn.
  unfold lookup_file. cbn [globalInodeMap]. destruct (addFileToInodeMap _ _ _) as [v g1]. destruct (getFileInodeFromMap _ g1) as [ino g2].
  eexists _, _, _. split; [done|]. cbn. by rewrite lookup_delete_eq.
Qed.

(** ** Witnesses *)

Definition ep_hash : string := "0123456789abcdef0123456789abcdef01234567".
Definition ep_url : string := "http://localhost/stream?link=0123456789abcdef0123456789abcdef01234567&index=3&play".
Definition ep_dir : string := "/lib/tv/Lost (2004)/Season.01".
Definition ep_name : string := "Lost_S01E01_01234567.mkv".
Definition ep_path : string := join ep_dir ep_name.
Definition ep_entry (p : string) : TVEpisodeEntry := MkEpisode 500 ep_hash p "pack" 1700000000.

#[local] Instance ep_XXHash : XXHash := {|
  Sum64String := λ s, poly_hash s 7;
  Sum64String_range := λ s, poly_hash_range s 7 ltac:(by split);
|}.

Definition ep_tree : tree :=
  set_disk {[ ep_path := File (MkStat 3 1 0x81A4 0 0 0 8 200) (JsonMkv ep_url 1500000000 "" "tt1234567") (1700000000 * FuseTree.second) ]} (new_tree 1000000).

Definition ep_server (db : bool) : server :=
  let reg := {[ "lost_2004_s01e01" := ep_entry ep_path; "lost_2004_s01e02" := ep_entry "/lib/tv/gone.mkv" ]} in
  MkServer ep_tree (RegEntries reg) (if db then Some reg else None) None [(ep_hash, "Lost S01"); ("89abcdef0123456789abcdef0123456789abcdef", "Film")]
    (Some (MkManager false {[ ep_hash := MkNegative ep_hash 0 ]} ∅ false)) no_pumps false.

Lemma all_well_works : registry_works all_well.
Proof. split; [reflexivity|]. split; [reflexivity|]. intros k. reflexivity. Qed.

Lemma registry_check_witness :
  registry_view (SyncRegistryWithDisk all_well (ep_server true)) = {[ "lost_2004_s01e01" := ep_entry ep_path ]} ∧
  registry_view (SyncRegistryWithDisk all_well (ep_server false)) = {[ "lost_2004_s01e01" := ep_entry ep_path ]}.
Proof.
  destruct (registry_check_exact all_well (ep_server true) all_well_works) as [_ H1].
  destruct (registry_check_exact all_well (ep_server false) all_well_works) as [_ H2].
  rewrite (proj1 (H1 ltac:(discriminate))), (proj1 (H2 ltac:(discriminate))). split; vm_compute; reflexivity.
Defined.


(** After a lookup of the episode. *)
Definition visited_server : server :=
  set_files (from_option snd ep_tree (Lookup (MkConfig 4096 0 0) false ep_dir ep_name FuseTree.second ep_tree)) (ep_server true).

Lemma hit_inv {A B} (x : option (option A * B)) : (λ y, bool_decide (is_Some y.1)) <$> x = Some true → ∃ m c, x = Some (Some m, c).
Proof. destruct x as [[[m|] c]|]; [eauto|discriminate..]. Qed.

Lemma fst_inv {A B} (x : A * B) a : x.1 = a → ∃ b, x = (a, b).
Proof. destruct x as [x1 x2]. intros <-. eauto. Qed.

Lemma visited_cached : ∃ m c, LRUCache_Get Sum64String (join ep_dir ep_name) 2 (metaCache (files visited_server)) = Some (Some m, c).
Proof. apply hit_inv. vm_compute. reflexivity. Qed.

Lemma visited_unlinked : ∃ s', Unlink all_well ep_dir ep_name 2 visited_server = (Unlinked, s').
Proof. apply fst_inv. vm_compute. reflexivity. Qed.

Lemma deleted_file_found_witness :
  ∃ s' m ino a t', Unlink all_well ep_dir ep_name 2 visited_server = (Unlinked, s') ∧
    Lookup (MkConfig 4096 0 0) false ep_dir ep_name 2 (files s') = Some (FileFound m ino a, t') ∧ disk t' !! join ep_dir ep_name = None.
Proof.
  destruct visited_cached as (m & c & Em). destruct visited_unlinked as (s' & Es).
  destruct (deleted_file_found (MkConfig 4096 0 0) all_well ep_dir ep_name 2 visited_server m c s' false Em Es) as (ino & a & t' & H1 & H2).
  exists s', m, ino, a, t'. split; [exact Es|]. split; [exact H1|exact H2].
Defined.

Definition after_delete : server := (Unlink all_well ep_dir ep_name 0 (ep_server true)).2.
Definition new_engine : TVGoEngine :=
  MkTV ∅ None None ∅ no_stats (read_blacklist after_delete) true false "http://h" "/lib/tv" (MkChannel "ch" "" [] true "") ∅ ∅.


(** The name of an episode ends with the first eight characters of its hash, but
    a torrent is looked for whose hash ends with them: another torrent may be
    found and removed. *)
Lemma other_torrent_removed :
  let other := "89abcdef0123456789abcdef0123456701234567" in
  let s := set_torrents [(other, "Film"); (ep_hash, "Lost S01")] None (ep_server true) in
  file_hash ep_path s = other ∧ (torrents (Unlink all_well ep_dir ep_name 0 s).2).*2 = ["Lost S01"].
Proof. vm_compute. split; reflexivity. Qed.

(** Deleting a film blacklists the name of its directory as a title. *)
Lemma film_blacklists_directory : clean_title (deriveTitleFromPath "/lib/movies/Alien_1979_1080p_01234567.mkv") = "movies".
Proof. vm_compute. reflexivity. Qed.
