(* ===== verification/Watchlist.v ===== *)
(** * The watchlist engine (internal/syncer/engines/watchlist_go.go)

    A run of the engine asks Plex for the watchlist of its user and creates a
    file in the library of films for every film that is not there yet. It shares
    the torrent engine's interface, the streaming policy and the library with
    the movie engine; the outside is the class [World] with the operations of
    [WatchWorld]. A result [None] is a panic. *)

From Stdlib Require Import Ascii.
From S2P Require Import Prelude Float64 Regex Streaming Quality MovieSync.

(** ** Data *)

Record WatchlistItem := MkItem { wiTitle : string; wiYear : string; wiIMDBID : string; wiType : string }.

(** An entry of the answer of Plex: missing fields are empty, the year is a
    whole number if there is one. *)
Record plex_entry := MkPlexEntry { pTitle : string; pYear : option Z; pType : string; pGuids : list string }.

Record WatchlistGoEngine := MkWatch { wlProwlarr : bool; wlBaseURL : string; wlMovies : gmap string mkv }.

(** [limiter_Wait] is [false] if the run was cancelled meanwhile. *)
Class WatchWorld (W : Type) `{!World W} := {
  plex_watchlist : W → option (list plex_entry) * W;
  SearchMovie : string → string → W → option Z * W;
  limiter_Wait : W → bool * W;
}.
#[export] Hint Mode WatchWorld ! - : typeclass_instances.

(** ** Titles *)

Definition reExcludedLangs : regex := MustCompile "🇪🇸|🇫🇷|🇩🇪|🇷🇺|🇨🇳|🇯🇵|🇰🇷|🇹🇭|🇵🇹|🇧🇷|🇺🇦|🇵🇱|🇳🇱|🇹🇷|🇸🇦|🇮🇳|🇨🇿|🇭🇺|🇷🇴".
Definition reExcludedDubs : regex :=
  MustCompile "(?i)\b(Ukr|Ukrainian|Ger|German|Fra|French|Spa|Spanish|Por|Portuguese|Rus|Russian|Chi|Chinese|Pol|Polish|Tur|Turkish|Ara|Arabic|Hin|Hindi|Cze|Czech|Hun|Hungarian)\s+Dub\b".
Definition reGarbage : regex := MustCompile "(?i)webscreener|screener|\bscr\b|\bcam\b|camrip|hdcam|telesync|\bts\b|telecine|\btc\b".
Definition re4K : regex := MustCompile "(?i)2160p|4[kK]|uhd".
Definition re1080p : regex := MustCompile "1080p".
Definition re720p : regex := MustCompile "(?i)720p|720i".
Definition re480p : regex := MustCompile "(?i)\b(480p|576p|sd)\b".
Definition reSize : regex := MustCompile "(?i)💾\s*([\d.]+)\s*(GB|MB)".
Definition reSeeders : regex := MustCompile "👤\s*(\d+)".
Definition reWLYear : regex := MustCompile "[._]((?:19|20)\d{2})[._]".
Definition reIMDB : regex := MustCompile "^tt\d+$".
Definition reNonWord : regex := MustCompile "\W+".
Definition reWLDV : regex := MustCompile "(?i)\bdv\b|dovi|dolby.?vision".
Definition reWLHDR : regex := MustCompile "(?i)hdr|hdr10\+?".

(** All of them are well formed. *)
Example watchlist_expressions_compile :
  forallb (λ r, match r with Chars (CSet false []) => false | _ => true end)
    [reExcludedLangs; reExcludedDubs; reGarbage; re4K; re1080p; re720p; re480p; reSize; reSeeders; reWLYear; reIMDB; reNonWord; reWLDV; reWLHDR] = true.
Proof. vm_compute. reflexivity. Qed.

(** [fmt.Sscanf] of digits with [%d]: a number that is too large is an error,
    and the result stays 0. *)
Definition parseInt (s : string) : Z := let n := dec s 0 in if n <? 2 ^ 63 then n else 0.

(** [fmt.Sscanf] of digits and dots with [%f] takes them up to the second dot;
    an error leaves 0. *)
Definition parseFloat (s : string) : float64 :=
  let f := match split_on "."%char s with
           | a :: b :: _ => ParseFloat (a +:+ "." +:+ b)
           | _ => ParseFloat s
           end in
  match f with S754_infinity _ => S754_zero false | _ => f end.

Definition extractGB (title : string) : float64 :=
  match FindStringSubmatch reSize title 1, FindStringSubmatch reSize title 2 with
  | Some v, Some unit => if bool_decide (ToLower unit = "gb") then parseFloat v else f64_div (parseFloat v) (f64_of_Z 1000)
  | _, _ => f64_of_Z 0
  end.

Definition extractSeeders (title : string) : Z :=
  match FindStringSubmatch reSeeders title 1 with Some d => parseInt d | None => 0 end.

Definition cleanFilename (s : string) : string :=
  let s := Trim "_"%char (ReplaceAllString reUnderscores (ReplaceAllString reNotFilename s "_") "_") in
  if (90 <? String.length s)%nat then String.substring 0 90 s else s.

Definition quality_tag (streamTitle : string) : string :=
  let st := ToLower streamTitle in
  (if MatchString re4K st then "2160p" else if MatchString re1080p st then "1080p"
   else if MatchString re720p st then "720p" else if MatchString re480p st then "480p" else "") +:+
  (if MatchString reWLDV st then "_DV" else if MatchString reWLHDR st then "_HDR" else "").

Definition mkv_filename (hash streamTitle movieTitle year : string) : option string :=
  let qtag := quality_tag streamTitle in
  let base := cleanFilename (movieTitle +:+ "_" +:+ year) in
  let base := if bool_decide (qtag = "") then base else base +:+ "_" +:+ qtag in
  h ← last8 hash; Some (base +:+ "_" +:+ h +:+ ".mkv").

(** ** What is there *)

(** [strings.Index]. *)
Fixpoint index_of (i : nat) (s sub : string) : option nat :=
  if String.prefix sub s then Some i
  else match s with String _ s' => index_of (S i) s' sub | EmptyString => None end.

Definition TrimSuffix_mkv (s : string) : string :=
  let n := String.length s in
  if (4 <=? n)%nat && bool_decide (String.substring (n - 4) 4 s = ".mkv") then String.substring 0 (n - 4) s else s.

(** The key of a file name in the index of titles; the name of the file is its
    path under the library. *)
Definition title_key (name : string) : option string :=
  let stem := TrimSuffix_mkv name in
  yr ← FindStringSubmatch reWLYear stem 1;
  idx ← index_of 0 stem yr;
  if (0 <? idx)%nat then Some (ReplaceAllString reNonWord (String.substring 0 idx stem) "" +:+ yr) else None.

(** The IMDb number of a file; [None] if the file counts as empty and is passed
    over. *)
Definition file_imdb (f : mkv) : option string :=
  match f with
  | JsonMkv _ size _ imdb => if size =? 0 then None else Some imdb
  | BadMkv => Some ""
  | TextMkv s =>
      match split_on newline_char (TrimSpace s) with
      | _ :: l1 :: _ :: l3 :: _ =>
          if bool_decide (TrimSpace l1 = "0") || bool_decide (TrimSpace l1 = "") then None else Some (TrimSpace l3)
      | _ => Some ""
      end
  end.

Definition index_existing (ix : gset string * gmap string string) (f : string * mkv) : gset string * gmap string string :=
  if negb (is_mkv f.1) then ix
  else match file_imdb f.2 with
  | None => ix
  | Some imdb =>
      (if MatchString reIMDB imdb then {[imdb]} ∪ ix.1 else ix.1,
       match title_key f.1 with Some k => <[k := f.1]> ix.2 | None => ix.2 end)
  end.

Definition buildExistingIndex (movies : gmap string mkv) : gset string * gmap string string :=
  foldl index_existing (∅, ∅) (walk movies).

Definition isAlreadyPresent (item : WatchlistItem) (ix : gset string * gmap string string) : bool :=
  (bool_decide (wiIMDBID item ≠ "") && bool_decide (wiIMDBID item ∈ ix.1)) ||
  negb (bool_decide (default "" (ix.2 !! (ReplaceAllString reNonWord (ToLower (wiTitle item)) "" +:+ wiYear item)) = "")).

(** ** Releases and files *)

Section engine.
Context (undef : float64 → Z).

Definition wl_candidate (s : Stream) : StreamingCandidate :=
  let title := stream_text s in
  let gb := extractGB title in
  MkCandidate (sInfoHash s) title MediaMovie (DetectResolution title)
    (if f64_eqb gb (f64_of_Z 0) && f64_ltb (f64_of_Z 0) (sSizeGB s) then sSizeGB s else gb) (extractSeeders title) false 0.

Definition rank_stream (s : Stream) : option (Stream * StreamingRank) :=
  let title := stream_text s in
  if MatchString reExcludedLangs title then None
  else if MatchString reExcludedDubs title then None
  else if MatchString reGarbage title then None
  else rank ← RankStreamingCandidate undef (wl_candidate s) MovieStreamingPolicy; Some (s, rank).

Definition pickBestStream (streams : list Stream) : list Stream :=
  (sort_stable (λ a b, BetterThan a.2 b.2) (omap rank_stream streams)).*1.

(** [strings.ToUpper] on ASCII text. *)
Definition upper_char (c : ascii) : ascii := if (97 <=? ord c) && (ord c <=? 122) then ascii_of_nat (Z.to_nat (ord c - 32)) else c.
Fixpoint ToUpper (s : string) : string := match s with EmptyString => EmptyString | String c s' => String (upper_char c) (ToUpper s') end.

Definition isBDMV (files : list FileStat) : bool := existsb (λ f, Contains (ToUpper (fPath f)) "BDMV") files.

Definition wl_file_candidate (c : Stream) (f : FileStat) : StreamingCandidate :=
  let text := sTitle c +:+ " " +:+ fPath f in
  MkCandidate (sInfoHash c) text MediaMovie (DetectResolution text) (file_size_GB f) (extractSeeders (sTitle c)) false 0.

Definition valid_file (c : Stream) (f : FileStat) : bool :=
  is_mkv (fPath f) && match RankExactStreamingFile undef (wl_file_candidate c f) MovieStreamingPolicy with Some _ => true | None => false end.

Context {W : Type} `{HW : !World W, HL : !WatchWorld W} `{HS : !SliceSort}.

Definition fetchWatchlist (w : W) : option (list WatchlistItem) * W :=
  let '(r, w1) := plex_watchlist w in
  (map (λ p, MkItem (TrimSpace (pTitle p)) (from_option pretty "" (pYear p))
               (default "" (head (omap (strip_prefix "imdb://") (pGuids p)))) (ToLower (pType p))) <$> r, w1).

Definition resolveIMDB (title year : string) (w : W) : option string * W :=
  let '(ok, w1) := limiter_Wait w in
  if negb ok then (None, w1)
  else
    let '(id, w2) := SearchMovie title year w1 in
    match id with None => (None, w2) | Some tmdbID => ExternalIDs tmdbID w2 end.

(** [None] is an error; the streams of the second source come without a size. *)
Definition getStreams (imdbID title : string) (e : WatchlistGoEngine) (w : W) : option (list Stream) * W :=
  let '(l, w1) := if wlProwlarr e then FetchTorrents imdbID title w else ([], w) in
  match l with
  | _ :: _ => (Some l, w1)
  | [] =>
      let '(r, w2) := FetchMovieStreams imdbID w1 in
      (option_map (map (λ s, MkStream (sName s) (sTitle s) (sInfoHash s) (f64_of_Z 0))) r, w2)
  end.

(** The outer [None] is the panic for a short hash, the inner one an error. *)
Definition createMKV (hash streamTitle : string) (fileIndex fileSize : Z) (magnet imdbID movieTitle year : string)
    (e : WatchlistGoEngine) (w : W) : option (option WatchlistGoEngine) :=
  filename ← mkv_filename hash streamTitle movieTitle year;
  let url := wlBaseURL e +:+ "/stream?link=" +:+ hash +:+ "&index=" +:+ pretty fileIndex +:+ "&play" in
  Some (if writable filename w
        then Some (MkWatch (wlProwlarr e) (wlBaseURL e) (<[filename := JsonMkv url fileSize magnet imdbID]> (wlMovies e)))
        else None).

(** The loop over the candidates of a film: whether a file was created. *)
Fixpoint try_streams (cs : list Stream) (item : WatchlistItem) (e : WatchlistGoEngine) (w : W) : option (bool * WatchlistGoEngine * W) :=
  match cs with
  | [] => Some (false, e, w)
  | c :: cs' =>
      let infoHash := ToLower (sInfoHash c) in
      if bool_decide (infoHash = "") then try_streams cs' item e w
      else
        let magnet := BuildMagnet infoHash (wiTitle item) DefaultTrackers in
        let '(r, w1) := AddTorrent magnet (wiTitle item) w in
        match r with
        | None | Some "" => try_streams cs' item e w1
        | Some hash =>
            let '(info, w2) := GetTorrentInfo hash 25 w1 in
            match info with
            | None => try_streams cs' item e (post_rem hash w2)
            | Some files =>
                if isBDMV files then try_streams cs' item e (post_rem hash w2)
                else match sort_slice longer_file (filter (λ f, valid_file c f = true) files) with
                | [] => try_streams cs' item e (post_rem hash w2)
                | best :: _ =>
                    r ← createMKV hash (sTitle c) (fID best) (fLength best) magnet (wiIMDBID item) (wiTitle item) (wiYear item) e w2;
                    match r with
                    | None => try_streams cs' item e w2
                    | Some e' => Some (true, e', w2)
                    end
                end
            end
        end
  end.

Inductive item_result := Ignored | Present | Skipped | Added.

(** One item of the watchlist up to the pause after it; [Skipped] and [Added]
    after candidates were tried come with [true]. *)
Definition sync_item (item : WatchlistItem) (ix : gset string * gmap string string) (e : WatchlistGoEngine) (w : W) :
    option (item_result * bool * WatchlistGoEngine * W) :=
  if negb (bool_decide (wiType item = "movie")) then Some (Ignored, false, e, w)
  else
    let '(id, w1) := if bool_decide (wiIMDBID item = "") then resolveIMDB (wiTitle item) (wiYear item) w else (Some (wiIMDBID item), w) in
    match id with
    | None | Some "" => Some (Skipped, false, e, w1)
    | Some imdb =>
        let item := MkItem (wiTitle item) (wiYear item) imdb (wiType item) in
        if isAlreadyPresent item ix then Some (Present, false, e, w1)
        else
          let '(streams, w2) := getStreams imdb (wiTitle item) e w1 in
          match pickBestStream (default [] streams) with
          | [] => Some (Skipped, false, e, w2)
          | cs => match try_streams cs item e w2 with
                  | Some (b, e1, w3) => Some (if b : bool then Added else Skipped, true, e1, w3)
                  | None => None
                  end
          end
    end.

(** The loop over the items; [false] if the run was cancelled. *)
Fixpoint sync_items (items : list WatchlistItem) (ix : gset string * gmap string string) (added : Z) (e : WatchlistGoEngine) (w : W) :
    option (bool * Z * WatchlistGoEngine * W) :=
  match items with
  | [] => Some (true, added, e, w)
  | item :: items' =>
      if Done w then Some (false, added, e, w)
      else
        match sync_item item ix e w with
        | None => None
        | Some (r, tried, e1, w1) =>
            let added := match r with Added => added + 1 | _ => added end in
            if tried : bool then
              let '(ok, w2) := limiter_Wait w1 in
              if ok : bool then sync_items items' ix added e1 w2 else Some (false, added, e1, w2)
            else sync_items items' ix added e1 w1
        end
  end.

(** [false] is an error. *)
Definition Run (e : WatchlistGoEngine) (w : W) : option (bool * Z * WatchlistGoEngine * W) :=
  let '(items, w1) := fetchWatchlist w in
  match items with
  | None => Some (false, 0, e, w1)
  | Some [] => Some (true, 0, e, w1)
  | Some items => sync_items items (buildExistingIndex (wlMovies e)) 0 e w1
  end.
End engine.

(** ** What a run changes *)

Lemma substring_app_end (a b : string) n : String.substring (String.length a) n (a +:+ b) = String.substring 0 n b.
Proof. induction a as [|c a IH]; [done|exact IH]. Qed.

Lemma ToLower_app (a b : string) : ToLower (a +:+ b) = ToLower a +:+ ToLower b.
Proof. induction a as [|c a IH]; [done|]. change (String (lower_char c) (ToLower (a +:+ b)) = String (lower_char c) (ToLower a +:+ ToLower b)). by rewrite IH. Qed.

Lemma is_mkv_ext s : is_mkv (s +:+ ".mkv") = true.
Proof.
  unfold is_mkv. rewrite ToLower_app, length_app_string. change (ToLower ".mkv") with ".mkv". change (String.length ".mkv") with 4%nat.
  rewrite Nat.add_sub. apply bool_decide_eq_true_2. by rewrite substring_app_end.
Qed.

Lemma mkv_filename_ext hash st title year p : mkv_filename hash st title year = Some p → is_mkv p = true.
Proof.
  unfold mkv_filename. destruct (last8 hash) as [h|]; cbn [mbind option_bind]; [|done]. intros [= <-]. rewrite !string_assoc. apply is_mkv_ext.
Qed.

Section run.
Context (undef : float64 → Z) {W : Type} `{HW : !World W, HL : !WatchWorld W} `{HS : !SliceSort}.

(** A file for a film of the watchlist: of a release that the engine accepts it
    streams the longest .mkv file that the policy allows. *)
Definition film_file (base : string) (item : WatchlistItem) (f : string * mkv) : Prop :=
  ∃ c hash files best, is_Some (rank_stream undef c) ∧ isBDMV files = false ∧ best ∈ files ∧ valid_file undef c best = true ∧
    (∀ x, x ∈ files → valid_file undef c x = true → fLength x ≤ fLength best) ∧
    mkv_filename hash (sTitle c) (wiTitle item) (wiYear item) = Some f.1 ∧
    f.2 = JsonMkv (base +:+ "/stream?link=" +:+ hash +:+ "&index=" +:+ pretty (fID best) +:+ "&play") (fLength best)
            (BuildMagnet (ToLower (sInfoHash c)) (wiTitle item) DefaultTrackers) (wiIMDBID item).

Lemma try_streams_spec cs item e (w : W) b e' w' :
  (∀ c, c ∈ cs → is_Some (rank_stream undef c)) → try_streams undef cs item e w = Some (b, e', w') →
  wlBaseURL e' = wlBaseURL e ∧ wlProwlarr e' = wlProwlarr e ∧
  if b then ∃ f, film_file (wlBaseURL e) item f ∧ wlMovies e' = <[f.1 := f.2]> (wlMovies e) else wlMovies e' = wlMovies e.
Proof.
  intros Hcs. revert w. induction cs as [|c cs IH]; intros w; cbn [try_streams]; [by intros [= <- <- <-]|].
  assert (∀ c, c ∈ cs → is_Some (rank_stream undef c)) as Hcs' by (intros x Hx; apply Hcs; by right). specialize (IH Hcs').
  destruct (bool_decide _); [apply IH|]. destruct (AddTorrent _ _ w) as [[[|ch hs]|] w1]; [apply IH| |apply IH]. set (hash := String ch hs).
  destruct (GetTorrentInfo hash 25 w1) as [[files|] w2]; [|apply IH]. destruct (isBDMV files) eqn:Hbd; [apply IH|].
  destruct (sort_slice longer_file _) as [|best rest] eqn:Hs; [apply IH|]. unfold createMKV.
  destruct (mkv_filename hash (sTitle c) (wiTitle item) (wiYear item)) as [fn|] eqn:Hfn; cbn [mbind option_bind]; [|done].
  destruct (writable fn w2); [|apply IH]. intros [= <- <- <-]. cbn [wlBaseURL wlProwlarr wlMovies]. split; [done|]. split; [done|].
  destruct (sorted_best _ _ _ Hs) as [Hb Hmax]. apply list_elem_of_filter in Hb as [Hv Hb].
  eexists (fn, _). split; [|done]. exists c, hash, files, best. split; [by apply Hcs; left|]. split; [done|]. split; [done|]. split; [done|].
  split; [|done]. intros x Hx Hxv. apply Hmax. by apply list_elem_of_filter.
Qed.

Lemma pickBestStream_elem streams c : c ∈ pickBestStream undef streams → is_Some (rank_stream undef c).
Proof.
  unfold pickBestStream. intros ([x r] & -> & Hin)%list_elem_of_fmap. rewrite sort_stable_perm, list_elem_of_omap in Hin.
  destruct Hin as (s & _ & E). assert (s = x) as Hx; [|subst; by eexists].
  revert E. unfold rank_stream. destruct (MatchString _ _); [done|]. destruct (MatchString _ _); [done|]. destruct (MatchString _ _); [done|].
  destruct (RankStreamingCandidate _ _ _); [|done]. cbn. by intros [= ->].
Qed.

Lemma not_present item ix : isAlreadyPresent item ix = false → wiIMDBID item ≠ "" → wiIMDBID item ∉ ix.1.
Proof. unfold isAlreadyPresent. intros [Hp _]%orb_false_iff Hne. rewrite (bool_decide_eq_true_2 _ Hne) in Hp. by apply bool_decide_eq_false in Hp. Qed.

#[local] Opaque pickBestStream rank_stream isAlreadyPresent valid_file.

(** A film of the watchlist for which a file may be created. *)
Definition wanted (ix : gset string * gmap string string) (items : list WatchlistItem) (item : WatchlistItem) : Prop :=
  wiIMDBID item ≠ "" ∧ wiIMDBID item ∉ ix.1 ∧
  ∃ x, x ∈ items ∧ wiType x = "movie" ∧ wiTitle x = wiTitle item ∧ wiYear x = wiYear item ∧ (wiIMDBID x = "" ∨ wiIMDBID x = wiIMDBID item).

Lemma sync_item_spec x ix items e (w : W) r t e' w' :
  x ∈ items → sync_item undef x ix e w = Some (r, t, e', w') →
  wlBaseURL e' = wlBaseURL e ∧
  match r with
  | Added => ∃ item f, wanted ix items item ∧ film_file (wlBaseURL e) item f ∧ wlMovies e' = <[f.1 := f.2]> (wlMovies e)
  | _ => wlMovies e' = wlMovies e
  end.
Proof.
  intros Hx. unfold sync_item. case_bool_decide as Hty; cbn [negb]; [|by intros [= <- _ <- _]].
  set (rid := if bool_decide (wiIMDBID x = "") then resolveIMDB (wiTitle x) (wiYear x) w else (Some (wiIMDBID x), w)).
  assert (∀ id w1, rid = (Some id, w1) → wiIMDBID x = "" ∨ wiIMDBID x = id) as Hid.
  { intros id w1. unfold rid. case_bool_decide; [by left|]. intros [= -> _]. by right. }
  destruct rid as [[[|ch cs]|] w1]; [by intros [= <- _ <- _]| |by intros [= <- _ <- _]].
  set (id := String ch cs) in *. destruct (isAlreadyPresent _ ix) eqn:Hp; [by intros [= <- _ <- _]|].
  cbn [wiTitle].
  destruct (getStreams id (wiTitle x) e w1) as [streams w2]. 
  pose proof (pickBestStream_elem (default [] streams)) as Hpick. revert Hpick.
  generalize (pickBestStream undef (default [] streams)).
  intros [|c l] Hl; cbn [fst snd].
  { intros E. injection E as <- _ <- _. by split. }
  destruct (try_streams undef (c :: l) _ e w2) as [[[b e1] w3]|] eqn:Et; [|done]. intros [= <- _ <- _].
  apply try_streams_spec in Et as (H1 & _ & H2); [|exact Hl]. split; [done|].
  destruct b; [|done]. destruct H2 as (f & Hf & Hm). eexists _, f. split; [|done]. split; [done|]. split.
  - by apply (not_present _ ix) in Hp.
  - exists x. cbn. split_and!; [done|done|done|done|]. by apply (Hid id w1).
Qed.

(** From [n] files created and the library [m] to [n'] and [m'] by creating
    files for wanted films. *)
Definition adds (base : string) (ix : gset string * gmap string string) (all : list WatchlistItem)
    (n : Z) (m : gmap string mkv) (n' : Z) (m' : gmap string mkv) : Prop :=
  ∃ fs, n' = n + Z.of_nat (length fs) ∧ m' = foldl (λ m f, <[f.1 := f.2]> m) m fs ∧
    Forall (λ f, ∃ item, wanted ix all item ∧ film_file base item f) fs.

Lemma adds_refl base ix all n m : adds base ix all n m n m.
Proof. exists []. split; [cbn; lia|]. by split. Qed.

Lemma adds_trans base ix all n1 m1 n2 m2 n3 m3 :
  adds base ix all n1 m1 n2 m2 → adds base ix all n2 m2 n3 m3 → adds base ix all n1 m1 n3 m3.
Proof.
  intros (f1 & -> & -> & H1) (f2 & -> & -> & H2). exists (f1 ++ f2). rewrite length_app, foldl_app. split; [lia|]. split; [done|]. by apply Forall_app.
Qed.

Lemma sync_items_spec all items ix n e (w : W) ok n' e' w' :
  (∀ x, x ∈ items → x ∈ all) → sync_items undef items ix n e w = Some (ok, n', e', w') →
  adds (wlBaseURL e) ix all n (wlMovies e) n' (wlMovies e').
Proof.
  revert n e w. induction items as [|x items IH]; intros n e w Hall; cbn [sync_items].
  { intros [= <- <- <- <-]. apply adds_refl. }
  destruct (Done w); [intros [= <- <- <- <-]; apply adds_refl|].
  destruct (sync_item undef x ix e w) as [[[[r t] e1] w1]|] eqn:Ei; [|done].
  apply (sync_item_spec x ix all) in Ei as [Hb Hr]; [|apply Hall; by left].
  assert (∀ y, y ∈ items → y ∈ all) as Hall' by (intros y Hy; apply Hall; by right).
  set (n1 := match r with Added => n + 1 | _ => n end).
  assert (adds (wlBaseURL e) ix all n (wlMovies e) n1 (wlMovies e1)) as H1.
  { destruct r; [rewrite Hr; apply adds_refl..|]. destruct Hr as (item & f & H1 & H2 & H3). exists [f]. split; [cbn; lia|].
    split; [done|]. constructor; [eauto|constructor]. }
  destruct t; [destruct (limiter_Wait w1) as [[] w2]|].
  - intros E. eapply adds_trans; [exact H1|]. rewrite <-Hb. by eapply IH.
  - intros [= <- <- <- <-]. exact H1.
  - intros E. eapply adds_trans; [exact H1|]. rewrite <-Hb. by eapply IH.
Qed.
End run.

(** A run of the watchlist engine only adds files, and only for films of the
    watchlist that the library does not have under their IMDb number. The result
    counts them; each is a file of that film that streams the longest allowed
    .mkv file of a release the engine accepts; every other file of the library
    is as before. *)
Theorem watchlist_only_adds undef {W : Type} `{!World W} `{!WatchWorld W} `{!SliceSort} e (w : W) ok n e' w' :
  Run undef e w = Some (ok, n, e', w') →
  ∃ fs, n = Z.of_nat (length fs) ∧ wlMovies e' = foldl (λ m f, <[f.1 := f.2]> m) (wlMovies e) fs ∧
    (∀ p, p ∉ fs.*1 → wlMovies e' !! p = wlMovies e !! p) ∧
    ∀ f, f ∈ fs → ∃ item, film_file undef (wlBaseURL e) item f ∧
      wanted (buildExistingIndex (wlMovies e)) (default [] (fetchWatchlist w).1) item.
Proof.
  unfold Run. destruct (fetchWatchlist w) as [[[|x items]|] w1]; cbn [fst default].
  - intros [= <- <- <- <-]. exists []. split_and!; [done|done|done|]. intros f Hf. destruct (not_elem_of_nil _ Hf).
  - intros E. apply (sync_items_spec undef (x :: items)) in E as (fs & Hn & Hm & Hf); [|done]. exists fs. split; [lia|]. split; [done|]. split.
    + intros p Hp. rewrite Hm. clear -Hp. revert Hp. generalize (wlMovies e). induction fs as [|f fs IH]; intros m Hp; [done|]. cbn in *.
      apply not_elem_of_cons in Hp as [Hne Hp]. rewrite (IH _ Hp). by rewrite lookup_insert_ne.
    + intros f Hin. rewrite Forall_forall in Hf. destruct (Hf f Hin) as (item & H1 & H2). unfold id. eauto.
  - intros [= <- <- <- <-]. exists []. split_and!; [done|done|done|]. intros f Hf. destruct (not_elem_of_nil _ Hf).
Qed.

(** ** What the next run finds *)

Lemma index_existing_mono f ix : ix.1 ⊆ (index_existing ix f).1.
Proof. unfold index_existing. destruct (negb _); [done|]. destruct (file_imdb f.2); [|done]. cbn. destruct (MatchString _ _); set_solver. Qed.

Lemma index_mono l ix : ix.1 ⊆ (foldl index_existing ix l).1.
Proof. revert ix. induction l as [|f l IH]; intros ix; [done|]. cbn. etrans; [apply (index_existing_mono f)|apply IH]. Qed.

Lemma index_finds movies p f imdb :
  movies !! p = Some f → is_mkv p = true → file_imdb f = Some imdb → MatchString reIMDB imdb = true →
  imdb ∈ (buildExistingIndex movies).1.
Proof.
  intros Hp Hext Hf Hm. unfold buildExistingIndex. assert ((p, f) ∈ walk movies) as Hin.
  { unfold walk. rewrite sort_stable_perm. by apply elem_of_map_to_list. }
  apply list_elem_of_split in Hin as (l1 & l2 & ->). rewrite foldl_app. cbn [foldl]. apply index_mono.
  unfold index_existing at 1. cbn [fst snd]. rewrite Hext, Hf, Hm. cbn [negb fst]. set_solver.
Qed.

Lemma valid_file_size undef c f : valid_file undef c f = true → fLength f ≠ 0.
Proof.
  unfold valid_file, RankExactStreamingFile. intros [_ H]%andb_true_iff H0. destruct (f64_ltb _ _); [done|].
  destruct (RankStreamingCandidate _ _ _) eqn:E; [|done]. apply RankStreamingCandidate_spec in E as [Hs _]. apply st_size in Hs as [Hs _].
  revert Hs. unfold effective_size, wl_file_candidate, file_size_GB. cbn [IsPack SizeGB andb]. rewrite H0. by vm_compute.
Qed.

Lemma film_file_indexed undef base item f movies :
  film_file undef base item f → movies !! f.1 = Some f.2 → MatchString reIMDB (wiIMDBID item) = true →
  wiIMDBID item ∈ (buildExistingIndex movies).1.
Proof.
  intros (c & hash & files & best & _ & _ & _ & Hv & _ & Hn & Hf) Hm Hid. apply (index_finds _ f.1 f.2); [done| | |done].
  - by eapply mkv_filename_ext.
  - rewrite Hf. cbn. apply valid_file_size in Hv. by destruct (Z.eqb_spec (fLength best) 0).
Qed.

Lemma sync_item_present undef {W : Type} `{!World W} `{!WatchWorld W} `{!SliceSort} y ix e (w : W) :
  wiType y = "movie" → wiIMDBID y ≠ "" → wiIMDBID y ∈ ix.1 → sync_item undef y ix e w = Some (Present, false, e, w).
Proof.
  intros Ht Hne Hin. unfold sync_item. rewrite bool_decide_eq_true_2, bool_decide_eq_false_2 by done. cbn [negb].
  assert (∀ z, wiIMDBID z = wiIMDBID y → isAlreadyPresent z ix = true) as Hp.
  { intros z Hz. unfold isAlreadyPresent. rewrite Hz, !bool_decide_eq_true_2 by done. done. }
  destruct (wiIMDBID y) as [|a s]; [done|]. by rewrite Hp.
Qed.

(** A film that a run adds is not added again: if it was added under an IMDb
    number of the form that the engine reads back, the next run finds that
    number among the files and passes over the film without asking anybody. *)
Theorem added_film_not_added_again undef {W : Type} `{!World W} `{!WatchWorld W} `{!SliceSort} x ix e (w : W) tried e' w' :
  sync_item undef x ix e w = Some (Added, tried, e', w') →
  ∃ id, (wiIMDBID x = "" ∨ wiIMDBID x = id) ∧ id ≠ "" ∧
    (MatchString reIMDB id = true → ∀ y (w2 : W), wiType y = "movie" → wiIMDBID y = id →
       sync_item undef y (buildExistingIndex (wlMovies e')) e' w2 = Some (Present, false, e', w2)).
Proof.
  intros Hrun. apply (sync_item_spec undef x ix [x]) in Hrun as [_ (item & f & (Hne & _ & x' & Hx & _ & _ & _ & Hid) & Hf & Hm)]; [|by left].
  apply list_elem_of_singleton in Hx as ->. exists (wiIMDBID item). split; [done|]. split; [done|]. intros Hre y w2 Ht Hy.
  apply sync_item_present; [done|congruence|]. rewrite Hy. eapply film_file_indexed; [done| |done]. rewrite Hm. apply lookup_insert_eq.
Qed.

(** The index of titles does not find the films that the engine adds: its keys
    keep the case and the underscores of the file names, the title looked up
    has neither. *)
Theorem title_index_misses :
  title_key "The_Matrix_1999_1080p_01234567.mkv" = Some "The_Matrix_1999" ∧
  isAlreadyPresent (MkItem "The Matrix" "1999" "" "movie")
    (buildExistingIndex {["The_Matrix_1999_1080p_01234567.mkv" := JsonMkv "u" 1 "m" ""]}) = false.
Proof. vm_compute. done. Qed.

(** ** Witnesses *)

Definition wl_stream : Stream := MkStream "idx" "Film 2020 720p WEB-DL 👤 20" "0123456789abcdef0123456789abcdef01234567" (f64_lit 9 1).

(** A world with one release of every film; its state is the clock. *)
#[local] Instance wl_world : World Z := {|
  Now := λ w, w;
  Sleep := λ n w, w + n * second;
  Done := λ _, false;
  ExternalIDs := λ _ w, (Some "tt1", w);
  FetchTorrents := λ _ _ w, ([wl_stream], w);
  FetchMovieStreams := λ _ w, (None, w);
  post_add := λ _ _ w, (Some "", w);
  post_get := λ _ w, (Some [MkFileStat 1 "Film/film.mkv" 900000000; MkFileStat 2 "Film/sample.mkv" 9000], w + second);
  post_rem := λ _ w, w;
  post_list := λ w, (Some [], w);
  writable := λ _ _, true;
  Sleep_advances := λ n w, Z.le_refl _;
  post_get_advances := λ h w, ltac:(cbn; unfold second; lia);
|}.

(** A watchlist with a film and a show. *)
#[local] Instance wl_watch : WatchWorld Z := {|
  plex_watchlist := λ w, (Some [MkPlexEntry " Film " (Some 2020) "movie" ["tmdb://7"; "imdb://tt1"]; MkPlexEntry "Show" None "show" []], w);
  SearchMovie := λ _ _ w, (Some 7, w);
  limiter_Wait := λ w, (true, w);
|}.

Definition wl_engine : WatchlistGoEngine := MkWatch true "http://h" ∅.

Definition wl_added : string * mkv :=
  ("Film_2020_720p_01234567.mkv",
   JsonMkv "http://h/stream?link=0123456789abcdef0123456789abcdef01234567&index=1&play" 900000000
     (BuildMagnet "0123456789abcdef0123456789abcdef01234567" "Film" DefaultTrackers) "tt1").

Definition wl_after : WatchlistGoEngine := MkWatch true "http://h" {[wl_added.1 := wl_added.2]}.

Lemma wl_run : Run (λ _, 0) wl_engine 0 = Some (true, 1, wl_after, second).
Proof. vm_compute. reflexivity. Qed.

Lemma watchlist_only_adds_witness :
  ∃ fs, length fs = 1%nat ∧ wlMovies wl_after = foldl (λ m f, <[f.1 := f.2]> m) ∅ fs.
Proof.
  destruct (watchlist_only_adds _ _ _ _ _ _ _ wl_run) as (fs & Hn & Hm & _). exists fs. split; [lia|]. exact Hm.
Defined.

Lemma wl_item : sync_item (λ _, 0) (MkItem "Film" "2020" "tt1" "movie") (∅, ∅) wl_engine 0 = Some (Added, true, wl_after, second).
Proof. vm_compute. reflexivity. Qed.

Lemma added_film_not_added_again_witness :
  sync_item (λ _, 0) (MkItem "Film" "2020" "tt1" "movie") (buildExistingIndex (wlMovies wl_after)) wl_after 5 = Some (Present, false, wl_after, 5).
Proof.
  destruct (added_film_not_added_again _ _ _ _ _ _ _ _ wl_item) as (id & [Hid|Hid] & Hne & H); [done|].
  apply H; [|done|done]. rewrite <-Hid. vm_compute. reflexivity.
Defined.
