(* ===== verification/Playback.v ===== *)
(** * Playback (main.go: the playback registry and handlePlexWebhook)

    Files that are open are entered in the playback registry. A media server
    reports that playback starts, goes on or stops; the webhook looks for the
    file that is meant, by its IMDb number, its hash or its name, and failing
    that by its title. A file whose playback is confirmed gives its torrent
    priority, so that it does not expire; the end of playback takes it back and
    ends the pump ([PumpLife]) and the shield ([Shield]). *)

From Stdlib Require Import Ascii.
From S2P Require Import Prelude Guards Shield InodeMap Regex Streaming MovieSync TVTitles PumpLife.

(** ** State *)

(** Times are in nanoseconds; [ConfirmedAt] is [None] for the zero time. *)
Record PlaybackState := MkPlayback {
  psPath : string;
  psHash : string;
  ImdbID : string;
  OpenedAt : Z;
  ConfirmedAt : option Z;
  IsHealthy : bool;
  IsStopped : bool;
}.

Definition SetHealthy (healthy : bool) (now : Z) (ps : PlaybackState) : PlaybackState :=
  MkPlayback (psPath ps) (psHash ps) (ImdbID ps) (OpenedAt ps) (Some now) healthy (IsStopped ps).
Definition GetStatus (ps : PlaybackState) : bool := IsHealthy ps.

(** A torrent of the engine: whether it has priority, the limit of its
    aggressive mode if that is on, when it expires, and its files once the
    metadata are there. *)
Record torrent := MkTorrent { IsPriority : bool; aggressive : option Z; expiredTime : Z; tFiles : list string }.

Definition SetAggressiveMode (enabled : bool) (masterLimit : Z) (t : torrent) : torrent :=
  MkTorrent (IsPriority t) (if enabled then Some masterLimit else None) (expiredTime t) (tFiles t).
Definition set_priority (b : bool) (t : torrent) : torrent := MkTorrent b (aggressive t) (expiredTime t) (tFiles t).
Definition AddExpiredTime (duration now : Z) (t : torrent) : torrent :=
  MkTorrent (IsPriority t) (aggressive t) (Z.max (expiredTime t) (now + duration)) (tFiles t).

(** The torrents of the engine are known by their hash; hashes in the registry
    are 40 hexadecimal digits or empty. *)
Record player := MkPlayer {
  playbackRegistry : gmap string PlaybackState;
  torrents : gmap string torrent;
  life_of : life;
  shield_of : Shield;
}.

Definition set_registry (r : gmap string PlaybackState) (s : player) : player := MkPlayer r (torrents s) (life_of s) (shield_of s).
Definition set_torrents (t : gmap string torrent) (s : player) : player := MkPlayer (playbackRegistry s) t (life_of s) (shield_of s).
Definition set_life (l : life) (s : player) : player := MkPlayer (playbackRegistry s) (torrents s) l (shield_of s).
Definition set_shield (h : Shield) (s : player) : player := MkPlayer (playbackRegistry s) (torrents s) (life_of s) h.

(** Change the torrent of a hash, if there is one. *)
Definition on_torrent (hash : string) (f : torrent → torrent) (s : player) : player :=
  if bool_decide (hash = "") then s else set_torrents (alter f (ToLower hash) (torrents s)) s.

(** ** Opening and closing files *)

Definition minute : Z := 60 * Second.

(** The part of [Open] that enters the file in the registry. *)
Definition register_open (path hash imdb : string) (now : Z) (s : player) : player :=
  match playbackRegistry s !! path with
  | None => set_registry (<[path := MkPlayback path hash imdb now None false false]> (playbackRegistry s)) s
  | Some ps =>
      let s := set_registry (<[path := MkPlayback (psPath ps) (psHash ps) (ImdbID ps) now (ConfirmedAt ps) (IsHealthy ps) false]> (playbackRegistry s)) s in
      let recentlyConfirmed := match ConfirmedAt ps with Some t => now - t <? 30 * minute | None => false end in
      if IsHealthy ps && recentlyConfirmed then on_torrent (psHash ps) (set_priority true) s else s
  end.

(** The delay of the priority timer that [Release] starts: [probe] says that
    the handle has a warm-up and read only the beginning, [slot] that it had a
    slot of the pump. *)
Definition retention_delay (probe slot : bool) (path : string) (s : player) : Z :=
  if probe && negb slot then
    match playbackRegistry s !! path with
    | Some ps => if IsStopped ps || bool_decide (ConfirmedAt ps = None) then 5 * Second else 30 * Second
    | None => 30 * Second
    end
  else 30 * Second.

(** The timer itself. *)
Definition priority_expired (probe : bool) (path : string) (now : Z) (s : player) : player :=
  if OpenTracker.IsPathOpen path (openTracker (life_of s)) then s
  else match playbackRegistry s !! path with
  | None => s
  | Some ps =>
      if bool_decide (psHash ps = "") then s
      else if OpenTracker.IsHashOpen (psHash ps) (openTracker (life_of s)) then s
      else
        let scannerDrop := probe && negb (IsHealthy ps) && bool_decide (ConfirmedAt ps = None) in
        on_torrent (psHash ps)
          (λ t, AddExpiredTime (if scannerDrop then 5 * Second else 30 * Second) now (SetAggressiveMode false 0 (set_priority false t))) s
  end.

(** ** The webhook *)

Definition reImdbID : regex := MustCompile (let q := String (ascii_of_nat 34) EmptyString in q +:+ "imdb://(tt\d+)" +:+ q).
Definition reWebhookSeasonEpisode : regex := MustCompile "(?i)\bs\d{1,2}e0*(\d{1,3})\b".
Definition reWebhookEpisodeWord : regex := MustCompile "(?i)\b(?:episode|episodio|ep|e)\s*0*(\d{1,3})\b".
Definition rePathSeasonEpisode : regex := MustCompile "(?i)(?:^|[^a-z0-9])s\d{1,2}e0*(\d{1,3})(?:[^a-z0-9]|$)".
Definition rePathSeasonXEpisode : regex := MustCompile "(?i)(?:^|[^a-z0-9])\d{1,2}x0*(\d{1,3})(?:[^a-z0-9]|$)".

(** All of them are well formed. *)
Example webhook_expressions_compile :
  forallb (λ r, match r with Chars (CSet false []) => false | _ => true end)
    [reImdbID; reWebhookSeasonEpisode; reWebhookEpisodeWord; rePathSeasonEpisode; rePathSeasonXEpisode] = true.
Proof. vm_compute. reflexivity. Qed.

(** The number that the first of the expressions finds. *)
Definition first_number (rs : list regex) (s : string) : option Z :=
  head (omap (λ r, FindStringSubmatch r s 1 ≫= InodeMap.Atoi) rs).
Definition extractWebhookEpisodeNumber (title : string) : option Z := first_number [reWebhookSeasonEpisode; reWebhookEpisodeWord] title.
Definition extractPathEpisodeNumber (path : string) : option Z := first_number [rePathSeasonEpisode; rePathSeasonXEpisode] (TVTitles.Base path).

Inductive section := Movie | Show.

Definition pathMatchesWebhookEpisode (path : string) (libraryType : section) (targetEpisode : option Z) : bool :=
  match libraryType, targetEpisode with
  | Show, Some e => bool_decide (extractPathEpisodeNumber path = Some e)
  | _, _ => true
  end.

(** The eight characters after the last underscore of the name without its
    extension, or nothing. *)
Definition extractHashSuffix (filename : string) : string :=
  let base := String.substring 0 (String.length filename - String.length (Ext filename)) filename in
  match split_on "_"%char base with
  | _ :: (_ :: _) as parts => let x := List.last parts "" in if (String.length x =? 8)%nat then x else ""
  | _ => ""
  end.

(** The fields of the decoded message; [wFiles] are the files of all parts of
    all media. *)
Record payload := MkPayload {
  wEvent : string; wTitle : string; wGrandparentTitle : string; wYear : Z; wSection : string; wFiles : list string;
}.

Inductive event := Play | Stop.
(** The names of Plex and those of Jellyfin; other events are ignored. *)
Definition event_of (s : string) : option event :=
  if bool_decide (s ∈ ["media.play"; "media.resume"; "PlaybackStart"; "PlaybackProgress"]) then Some Play
  else if bool_decide (s ∈ ["media.stop"; "PlaybackStop"]) then Some Stop else None.
Definition section_of (s : string) : option section :=
  if bool_decide (s = "movie" ∨ s = "Movie") then Some Movie
  else if bool_decide (s = "show" ∨ s = "Episode") then Some Show else None.

(** What is looked for. *)
Record target := MkTarget {
  tgTitle : string; tgSeries : string; tgYear : Z; tgEpisode : option Z; tgSection : section;
  tgSuffix : string; tgImdb : string; tgFiles : list string;
}.

Definition target_of (text : string) (p : payload) (sec : section) : target :=
  let title := ToLower (wTitle p) in
  MkTarget title (ToLower (wGrandparentTitle p)) (wYear p) (extractWebhookEpisodeNumber title) sec
    (default "" (head (filter (λ x, x ≠ "") (map extractHashSuffix (wFiles p)))))
    (default "" (FindStringSubmatch reImdbID text 1)) (wFiles p).

Definition right_episode (g : target) (path : string) : bool := pathMatchesWebhookEpisode path (tgSection g) (tgEpisode g).

Definition exact_match (g : target) (e : string * PlaybackState) : bool :=
  (bool_decide (tgImdb g ≠ "") && bool_decide (ImdbID e.2 ≠ "") && bool_decide (ImdbID e.2 = tgImdb g) && right_episode g e.1) ||
  (bool_decide (tgSuffix g ≠ "") && bool_decide (extractHashSuffix e.1 = tgSuffix g)) ||
  existsb (λ f, bool_decide (TVTitles.Base f = TVTitles.Base e.1)) (tgFiles g).

Definition section_dir (s : section) : string := match s with Show => "/tv/" | Movie => "/movies/" end.

(** A file of the right library without a number. *)
Definition boot_match (g : target) (e : string * PlaybackState) : bool :=
  Contains e.1 (section_dir (tgSection g)) && bool_decide (ImdbID e.2 = "") && right_episode g e.1.

(** [strings.TrimRight] of punctuation. *)
Definition TrimRight (s : string) : string :=
  let fix go s := match s with String c s' => if bool_decide (c ∈ [":"; "."; ","; ";"; "!"; "?"]%char) then go s' else s | EmptyString => EmptyString end in
  rev_string (go (rev_string s EmptyString)) EmptyString.

Definition in_name (filename title : string) : bool :=
  Contains filename (ReplaceAll space_char "." title) || Contains filename (ReplaceAll space_char "_" title).

Definition match_level (g : target) (path : string) : Z :=
  let filename := ToLower (TVTitles.Base path) in
  let level := if bool_decide (tgTitle g ≠ "") && in_name filename (tgTitle g) then 3 else 0 in
  let level := if (level =? 0) && bool_decide (tgSeries g ≠ "") then
                 if in_name filename (tgSeries g) then 2
                 else match Fields (tgSeries g) with
                      | w :: _ => if (4 <? String.length w)%nat then
                                    let clean := TrimRight w in if (4 <? String.length clean)%nat && Contains filename clean then 1 else level
                                  else level
                      | [] => level
                      end
               else level in
  if level =? 0 then
    match Fields (tgTitle g) with
    | w :: _ => if (3 <? String.length w)%nat && Contains filename w then
                  if (0 <? tgYear g) && Contains filename (pretty (tgYear g)) then 1 else level
                else level
    | [] => level
    end
  else level.

Definition fuzzy_step (g : target) (best : string * Z) (e : string * PlaybackState) : string * Z :=
  if right_episode g e.1 then
    let level := match_level g e.1 in if best.2 <? level then (e.1, level) else best
  else best.

Section webhook.
Context `{HM : !MapRange} (limit : Z).

Definition entries (now : Z) (s : player) : list (string * PlaybackState) := range_order now (map_to_list (playbackRegistry s)).

(** The three ways to find the file; an empty path is none. *)
Definition find_exact (g : target) (now : Z) (s : player) : string := from_option fst "" (List.find (exact_match g) (entries now s)).
Definition find_boot (g : target) (now : Z) (s : player) : string :=
  match filter (λ e, boot_match g e = true) (entries now s) with [e] => e.1 | _ => "" end.
Definition find_fuzzy (g : target) (now : Z) (s : player) : string := (foldl (fuzzy_step g) ("", 0) (entries now s)).1.

Definition or_else (a b : string) : string := if bool_decide (a = "") then b else a.

Definition play_match (g : target) (now : Z) (s : player) : string :=
  or_else (find_exact g now s) (or_else (if bool_decide (tgImdb g ≠ "") then find_boot g now s else "") (find_fuzzy g now s)).
Definition stop_match (g : target) (now : Z) (s : player) : string := or_else (find_exact g now s) (find_fuzzy g now s).

Definition confirm (imdb : string) (now : Z) (ps : PlaybackState) : PlaybackState :=
  let ps := SetHealthy true now ps in
  MkPlayback (psPath ps) (psHash ps) (if bool_decide (ImdbID ps = "") && bool_decide (imdb ≠ "") then imdb else ImdbID ps)
    (OpenedAt ps) (ConfirmedAt ps) (IsHealthy ps) false.

Definition on_play (g : target) (now : Z) (s : player) : player :=
  let path := play_match g now s in
  match playbackRegistry s !! path with
  | Some ps =>
      if bool_decide (path = "") then s
      else
        let s := set_registry (<[path := confirm (tgImdb g) now ps]> (playbackRegistry s)) s in
        on_torrent (psHash ps) (λ t, SetAggressiveMode true limit (set_priority true t)) s
  | None => s
  end.

Definition stopped (now : Z) (ps : PlaybackState) : PlaybackState :=
  let ps := SetHealthy false now ps in
  MkPlayback (psPath ps) (psHash ps) (ImdbID ps) (OpenedAt ps) (ConfirmedAt ps) (IsHealthy ps) true.

Definition on_stop (g : target) (now : Z) (s : player) : player :=
  let path := stop_match g now s in
  match playbackRegistry s !! path with
  | Some ps =>
      if bool_decide (path = "") then s
      else
        let s := set_registry (<[path := stopped now ps]> (playbackRegistry s)) s in
        let s := set_life (force_stop path (life_of s)) s in
        let s := set_shield (ResetShield (shield_of s)) s in
        on_torrent (psHash ps) (λ t, AddExpiredTime (30 * Second) now (SetAggressiveMode false 0 (set_priority false t))) s
  | None => s
  end.

(** A message with its text and what its sanitised text decodes to. *)
Definition handlePlexWebhook (text : string) (decoded : option payload) (now : Z) (s : player) : player :=
  match decoded with
  | None => s
  | Some p =>
      match section_of (wSection p), event_of (wEvent p) with
      | Some sec, Some Play => on_play (target_of text p sec) now s
      | Some sec, Some Stop => on_stop (target_of text p sec) now s
      | _, _ => s
      end
  end.
End webhook.

(** ** Which file is meant *)

(** A file fits the message by number, hash or name; *)
Definition fits_exactly (g : target) (r : gmap string PlaybackState) (p : string) : Prop :=
  ∃ ps, r !! p = Some ps ∧ exact_match g (p, ps) = true.

(** it is the only one of its library without a number; *)
Definition only_unnumbered (g : target) (r : gmap string PlaybackState) (p : string) : Prop :=
  tgImdb g ≠ "" ∧ (∃ ps, r !! p = Some ps ∧ boot_match g (p, ps) = true) ∧
  ∀ q ps, r !! q = Some ps → boot_match g (q, ps) = true → q = p.

(** or its title fits, and no other fits better. *)
Definition fits_best (g : target) (r : gmap string PlaybackState) (p : string) : Prop :=
  is_Some (r !! p) ∧ right_episode g p = true ∧ 0 < match_level g p ∧
  ∀ q, is_Some (r !! q) → right_episode g q = true → match_level g q ≤ match_level g p.

Definition no_exact (g : target) (r : gmap string PlaybackState) : Prop := ∀ p, ¬ fits_exactly g r p.

(** Only the start of playback looks for the file without a number. *)
Definition meant (ev : event) (g : target) (r : gmap string PlaybackState) (p : string) : Prop :=
  fits_exactly g r p ∨ no_exact g r ∧ (ev = Play ∧ only_unnumbered g r p ∨ fits_best g r p).

Definition nothing_fits (g : target) (r : gmap string PlaybackState) : Prop :=
  no_exact g r ∧ ∀ q, is_Some (r !! q) → right_episode g q = true → match_level g q ≤ 0.

Section finding.
Context `{HM : !MapRange}.

Lemma entries_elem now s p ps : (p, ps) ∈ entries now s ↔ playbackRegistry s !! p = Some ps.
Proof. unfold entries. rewrite range_order_perm. apply elem_of_map_to_list. Qed.

Lemma find_exact_spec g now s : playbackRegistry s !! "" = None →
  if decide (find_exact g now s = "") then no_exact g (playbackRegistry s)
  else fits_exactly g (playbackRegistry s) (find_exact g now s).
Proof.
  intros H0. unfold find_exact. destruct (List.find _ _) as [[p ps]|] eqn:E; cbn [from_option fst].
  - apply List.find_some in E as [Hin Hm]. apply list_elem_of_In, entries_elem in Hin. destruct (decide (p = "")) as [->|_]; [congruence|].
    by exists ps.
  - rewrite decide_True by done. intros p (ps & Hp & Hm). rewrite (List.find_none _ _ E (p, ps)) in Hm; [done|].
    by apply list_elem_of_In, entries_elem.
Qed.

Lemma find_boot_spec g now s : tgImdb g ≠ "" → find_boot g now s ≠ "" → only_unnumbered g (playbackRegistry s) (find_boot g now s).
Proof.
  intros Hg. unfold find_boot. destruct (filter _ _) as [|[p ps] [|]] eqn:E; [done| |done]. intros _. split; [done|].
  assert (∀ q x, boot_match g (q, x) = true ∧ (q, x) ∈ entries now s ↔ (q, x) = (p, ps)) as Hall.
  { intros q x. rewrite <-(list_elem_of_filter (λ e, boot_match g e = true)), E. apply list_elem_of_singleton. }
  split.
  - exists ps. destruct (proj2 (Hall p ps) eq_refl) as [H1 H2]. by apply entries_elem in H2.
  - intros q x Hq Hb. apply (entries_elem now) in Hq. by destruct (proj1 (Hall q x) (conj Hb Hq)).
Qed.

(** The loop keeps the best file so far. *)
Lemma fuzzy_best g l best : 0 ≤ best.2 →
  let r := foldl (fuzzy_step g) best l in
  best.2 ≤ r.2 ∧ (∀ e, e ∈ l → right_episode g e.1 = true → match_level g e.1 ≤ r.2) ∧
  (r = best ∨ 0 < r.2 ∧ ∃ e, e ∈ l ∧ r = (e.1, match_level g e.1) ∧ right_episode g e.1 = true).
Proof.
  revert best. induction l as [|e l IH]; intros best Hb; cbn [foldl]. { split; [done|]. split; [intros e He; by destruct (not_elem_of_nil _ He)|by left]. }
  assert (best.2 ≤ (fuzzy_step g best e).2 ∧ (right_episode g e.1 = true → match_level g e.1 ≤ (fuzzy_step g best e).2) ∧
    (fuzzy_step g best e = best ∨ 0 < (fuzzy_step g best e).2 ∧ fuzzy_step g best e = (e.1, match_level g e.1) ∧ right_episode g e.1 = true)) as (H1 & H2 & H3).
  { unfold fuzzy_step. destruct (right_episode g e.1); [|split; [done|split; [done|by left]]].
    destruct (Z.ltb_spec best.2 (match_level g e.1)); cbn [snd]; (split; [lia|split; [intros _; lia|]]); [right; split; [lia|done]|by left]. }
  destruct (IH (fuzzy_step g best e)) as (H4 & H5 & H6); [lia|]. split; [lia|]. split.
  - intros x [->|Hx]%elem_of_cons Hr; [etrans; [by apply H2|done]|by apply H5].
  - destruct H6 as [E|(Hp & x & Hx & E & Hr)].
    + destruct H3 as [E3|(Hp & E3 & Hr)]; [left; congruence|]. right. rewrite E. split; [lia|]. exists e. split; [by left|]. split; [congruence|done].
    + right. split; [done|]. exists x. split; [by right|done].
Qed.

Lemma find_fuzzy_spec g now s : playbackRegistry s !! "" = None →
  if decide (find_fuzzy g now s = "") then ∀ q, is_Some (playbackRegistry s !! q) → right_episode g q = true → match_level g q ≤ 0
  else fits_best g (playbackRegistry s) (find_fuzzy g now s).
Proof.
  intros H0. unfold find_fuzzy. destruct (fuzzy_best g (entries now s) ("", 0)) as (_ & H2 & H3); [done|].
  assert (∀ q, is_Some (playbackRegistry s !! q) → right_episode g q = true → match_level g q ≤ (foldl (fuzzy_step g) ("", 0) (entries now s)).2) as Hall.
  { intros q [ps Hq] Hr. apply (H2 (q, ps)); [by apply entries_elem|done]. }
  destruct H3 as [E|(Hp & [p ps] & Hin & E & Hr)]; rewrite E in *; cbn [fst snd] in *; [by rewrite decide_True|].
  apply entries_elem in Hin. destruct (decide (p = "")) as [->|_]; [congruence|]. split; [by eexists|done].
Qed.

Lemma play_match_spec g now s : playbackRegistry s !! "" = None →
  if decide (play_match g now s = "") then nothing_fits g (playbackRegistry s) else meant Play g (playbackRegistry s) (play_match g now s).
Proof.
  intros H0. pose proof (find_exact_spec g now s H0) as He. pose proof (find_fuzzy_spec g now s H0) as Hf. unfold play_match, or_else.
  destruct (decide (find_exact g now s = "")) as [E|E]; [rewrite (bool_decide_eq_true_2 _ E)|rewrite (bool_decide_eq_false_2 _ E), decide_False by done; by left].
  set (b := if bool_decide (tgImdb g ≠ "") then find_boot g now s else "").
  assert (b ≠ "" → only_unnumbered g (playbackRegistry s) b) as Hb.
  { unfold b. case_bool_decide as Hg; [|done]. by apply find_boot_spec. }
  destruct (decide (b = "")) as [Eb|Eb]; [rewrite (bool_decide_eq_true_2 _ Eb)|].
  - destruct (decide _); [done|]. right. eauto.
  - rewrite (bool_decide_eq_false_2 _ Eb), decide_False by done. right. eauto.
Qed.

Lemma stop_match_spec g now s : playbackRegistry s !! "" = None →
  if decide (stop_match g now s = "") then nothing_fits g (playbackRegistry s) else meant Stop g (playbackRegistry s) (stop_match g now s).
Proof.
  intros H0. pose proof (find_exact_spec g now s H0) as He. pose proof (find_fuzzy_spec g now s H0) as Hf. unfold stop_match, or_else.
  destruct (decide (find_exact g now s = "")) as [E|E]; [rewrite (bool_decide_eq_true_2 _ E)|rewrite (bool_decide_eq_false_2 _ E), decide_False by done; by left].
  destruct (decide _); [done|]. right. eauto.
Qed.

Lemma meant_registered ev g r p : meant ev g r p → is_Some (r !! p).
Proof. intros [(ps & -> & _)|[_ [[_ (_ & (ps & -> & _) & _)]|(H & _)]]]; by eauto. Qed.
End finding.

(** What the message does to the file that is meant and its torrent. *)
Definition marked (ev : event) (imdb : string) (now : Z) (ps : PlaybackState) : PlaybackState :=
  match ev with Play => confirm imdb now ps | Stop => stopped now ps end.
Definition prioritised (ev : event) (limit now : Z) (t : torrent) : torrent :=
  match ev with
  | Play => SetAggressiveMode true limit (set_priority true t)
  | Stop => AddExpiredTime (30 * Second) now (SetAggressiveMode false 0 (set_priority false t))
  end.

(** A message that playback starts, goes on or stops acts on at most one file
    of the registry. It is one that fits by number, hash or name if there is
    one; otherwise, at the start, the only one of the library without a number,
    or else one whose title fits best, and for a show the right episode. Only
    its entry, its torrent and at the end its pump and the shield change. If no
    file fits nothing changes. *)
Theorem webhook_acts_on_one_file `{!MapRange} limit text p sec ev now s :
  playbackRegistry s !! "" = None → section_of (wSection p) = Some sec → event_of (wEvent p) = Some ev →
  let g := target_of text p sec in
  let s' := handlePlexWebhook limit text (Some p) now s in
  (nothing_fits g (playbackRegistry s) ∧ s' = s) ∨
  ∃ path ps, meant ev g (playbackRegistry s) path ∧ playbackRegistry s !! path = Some ps ∧
    playbackRegistry s' = <[path := marked ev (tgImdb g) now ps]> (playbackRegistry s) ∧
    torrents s' = (if bool_decide (psHash ps = "") then torrents s else alter (prioritised ev limit now) (ToLower (psHash ps)) (torrents s)) ∧
    life_of s' = match ev with Play => life_of s | Stop => force_stop path (life_of s) end ∧
    shield_of s' = match ev with Play => shield_of s | Stop => ResetShield (shield_of s) end.
Proof.
  intros H0 Hsec Hev g s'. subst s'. unfold handlePlexWebhook. rewrite Hsec, Hev. fold g. clearbody g.
  destruct ev; [pose proof (play_match_spec g now s H0) as Hm|pose proof (stop_match_spec g now s H0) as Hm];
    [unfold on_play; generalize dependent (play_match g now s)|unfold on_stop; generalize dependent (stop_match g now s)];
    intros path Hm; (destruct (decide (path = "")) as [->|Hne]; [left; split; [done|by rewrite H0]|]);
    right; destruct (meant_registered _ _ _ _ Hm) as [ps Hps]; exists path, ps; rewrite Hps; rewrite (bool_decide_eq_false_2 (path = "")) by done;
    unfold on_torrent; destruct (bool_decide (psHash ps = "")); done.
Qed.

(** ** Examples *)

Definition pack_hash : string := "0123456789abcdef0123456789abcdef01234567".

Definition entry (path imdb : string) : string * PlaybackState := (path, MkPlayback path pack_hash imdb 0 None false false).

(** Two episodes of a pack are open: both names end with its hash. *)
Definition e03 : string := "/mount/tv/The_Miniature_Wife (2026)/Season.01/The_Miniature_Wife_S01E03_01234567.mkv".
Definition e08 : string := "/mount/tv/The_Miniature_Wife (2026)/Season.01/The_Miniature_Wife_S01E08_01234567.mkv".
Definition two_episodes : player :=
  MkPlayer (list_to_map [entry e03 ""; entry e08 ""]) {[pack_hash := MkTorrent false None 0 []]} no_pumps shield0.

(** The message of the start of an episode with a localised title. *)
Definition episode_starts : payload := MkPayload "PlaybackProgress" "Episodio 3" "The Miniature Wife" 0 "Episode" [].

Lemma webhook_acts_witness :
  meant Play (target_of "" episode_starts Show) (playbackRegistry two_episodes) e03 ∧
  (IsHealthy <$> playbackRegistry (handlePlexWebhook 25 "" (Some episode_starts) 7 two_episodes) !! e03) = Some true ∧
  (IsHealthy <$> playbackRegistry (handlePlexWebhook 25 "" (Some episode_starts) 7 two_episodes) !! e08) = Some false.
Proof.
  assert (IsHealthy <$> playbackRegistry (handlePlexWebhook 25 "" (Some episode_starts) 7 two_episodes) !! e03 = Some true) as H3
    by (vm_compute; reflexivity).
  assert (IsHealthy <$> playbackRegistry (handlePlexWebhook 25 "" (Some episode_starts) 7 two_episodes) !! e08 = Some false) as H8
    by (vm_compute; reflexivity).
  split; [|by split]. pose proof (webhook_acts_on_one_file 25 "" episode_starts Show Play 7 two_episodes) as H. cbv zeta in H.
  destruct H as [[_ E]|(path & ps & Hm & Hp & E & _)]; [vm_compute; reflexivity..| |].
  - rewrite E in H3. vm_compute in H3. discriminate H3.
  - destruct (decide (path = e03)) as [->|Hne]; [exact Hm|]. rewrite E, lookup_insert_ne in H3 by done. vm_compute in H3. discriminate H3.
Defined.

(** A message that names the file of one episode of a pack finds any open
    episode of the pack by its hash: here the end of episode 8 ends the pump
    and the priority of episode 3, or the other way round, as the iteration
    over the registry has it. *)
Lemma stop_hits_other_episode :
  let stops file := handlePlexWebhook 25 "" (Some (MkPayload "media.stop" "Episode" "The Miniature Wife" 0 "show" [file])) 7 two_episodes in
  (IsStopped <$> playbackRegistry (stops e03) !! e03, IsStopped <$> playbackRegistry (stops e03) !! e08,
   IsStopped <$> playbackRegistry (stops e08) !! e03, IsStopped <$> playbackRegistry (stops e08) !! e08) =
  (Some true, Some false, Some true, Some false).
Proof. vm_compute. reflexivity. Qed.

(** The start of any film gives its number to the only open film without one. *)
Lemma bootstrap_takes_other_film :
  let q := String (ascii_of_nat 34) EmptyString in
  let aliens := "/mount/movies/Aliens_1986_1080p_89abcdef.mkv" in
  let s := MkPlayer (list_to_map [entry aliens ""]) ∅ no_pumps shield0 in
  (λ ps, (IsHealthy ps, ImdbID ps)) <$>
    playbackRegistry (handlePlexWebhook 25 (q +:+ "imdb://tt0107290" +:+ q) (Some (MkPayload "media.play" "Jurassic Park" "" 1993 "movie" [])) 7 s) !! aliens =
  Some (true, "tt0107290").
Proof. vm_compute. reflexivity. Qed.
