(* ===== verification/Cleanup.v ===== *)
(** * Periodic clean-up (cleanup.go, peerpreload.go)

    Every five minutes the clean-up manager forgets deleted hashes, offsets and
    activities that are old, cleans the caches of strategies, metadata and
    listings ([FuseTree], [LruCache]), forgets the hashes of torrents that are
    gone, prunes the inode map ([InodeMap]) of the files that are gone, and
    takes entries that are not played any more out of the playback registry
    ([Playback]), with the priority of their torrents. *)

From S2P Require Import Prelude Float64 LruCache Guards Shield InodeMap FuseTree PumpLife Playback.

Definition hour : Z := 60 * minute.

(** ** Preloading strategies *)

Module Preload.

Inductive PreloadStrategy := StrategyLow | StrategyMedium | StrategyHigh.

Definition PreloadSizeLow : Z := 6 * 1024 * 1024.
Definition PreloadSizeMedium : Z := 10 * 1024 * 1024.
Definition PreloadSizeHigh : Z := 16 * 1024 * 1024.
Definition SpeedThresholdHigh : float64 := f64_of_Z (15 * 1024 * 1024).
Definition SpeedThresholdMedium : float64 := f64_of_Z (4 * 1024 * 1024).

Record StrategyEntry := MkStrategy { Strategy : PreloadStrategy; UpdatedAt : Z; Speed : float64 }.

Definition cacheTTL : Z := 5 * Second.

Definition calculateStrategy (speed : float64) : PreloadStrategy :=
  if f64_leb SpeedThresholdHigh speed then StrategyHigh
  else if f64_leb SpeedThresholdMedium speed then StrategyMedium else StrategyLow.

Definition strategyToSize (s : PreloadStrategy) : Z :=
  match s with StrategyHigh => PreloadSizeHigh | StrategyMedium => PreloadSizeMedium | StrategyLow => PreloadSizeLow end.

Definition cached (hash : string) (now : Z) (m : gmap string StrategyEntry) : option PreloadStrategy :=
  e ← m !! hash; if now - UpdatedAt e <? cacheTTL then Some (Strategy e) else None.

(** The second half, after the speed [stats] was asked for; [None] if there is
    no such torrent. Another caller may have been faster. *)
Definition update_strategy (hash : string) (stats : option float64) (now : Z) (m : gmap string StrategyEntry) :
    PreloadStrategy * Z * gmap string StrategyEntry :=
  match stats with
  | None => (StrategyMedium, PreloadSizeMedium, m)
  | Some speed =>
      match cached hash now m with
      | Some s => (s, strategyToSize s, m)
      | None => let s := calculateStrategy speed in (s, strategyToSize s, <[hash := MkStrategy s now speed]> m)
      end
  end.

Definition GetStrategy (hash : string) (stats : option float64) (now : Z) (m : gmap string StrategyEntry) :
    PreloadStrategy * Z * gmap string StrategyEntry :=
  match cached hash now m with
  | Some s => (s, strategyToSize s, m)
  | None => update_strategy hash stats now m
  end.

Definition Cleanup (now : Z) (m : gmap string StrategyEntry) : gmap string StrategyEntry :=
  filter (λ kv, ¬ hour < now - UpdatedAt kv.2) m.

(** The clean-up forgets only what is asked for again anyway: the answers stay
    the same. *)
Lemma Cleanup_keeps_answers hash stats now now' m :
  now' ≤ now → (GetStrategy hash stats now (Cleanup now' m)).1 = (GetStrategy hash stats now m).1.
Proof.
  intros Hn. assert (cached hash now (Cleanup now' m) = cached hash now m) as E.
  { unfold cached, Cleanup. rewrite map_lookup_filter. destruct (m !! hash) as [e|]; [|done]. cbn. case_guard as Hg; [done|]. cbn.
    destruct (Z.ltb_spec (now - UpdatedAt e) cacheTTL); [|done]. cbn [snd] in Hg. unfold cacheTTL, hour, minute, Second in *. lia. }
  unfold GetStrategy, update_strategy. rewrite E. destruct (cached hash now m); [done|]. by destruct stats.
Qed.
End Preload.

(** ** The manager *)

Record offsetEntry := MkOffset { offset : Z; length_of : Z; timestamp : Z }.

Record CleanupManager := MkCM {
  deletedHashes : gmap string Z;
  fileOffsets : gmap string offsetEntry;
  fileActivities : gmap string Z;
}.

Definition NewCleanupManager : CleanupManager := MkCM ∅ ∅ ∅.
Definition deletedHashTTL : Z := 24 * hour.
Definition offsetTTL : Z := hour.
Definition activityTTL : Z := hour.

Definition AddDeletedHash (hash : string) (now : Z) (cm : CleanupManager) : CleanupManager :=
  MkCM (<[hash := now]> (deletedHashes cm)) (fileOffsets cm) (fileActivities cm).
Definition RemoveDeletedHash (hash : string) (cm : CleanupManager) : CleanupManager :=
  MkCM (delete hash (deletedHashes cm)) (fileOffsets cm) (fileActivities cm).
Definition IsDeleted (hash : string) (cm : CleanupManager) : bool := bool_decide (is_Some (deletedHashes cm !! hash)).
Definition UpdateOffset (path : string) (off len now : Z) (cm : CleanupManager) : CleanupManager :=
  MkCM (deletedHashes cm) (<[path := MkOffset off len now]> (fileOffsets cm)) (fileActivities cm).
Definition GetOffset (path : string) (cm : CleanupManager) : option (Z * Z) :=
  (λ e, (offset e, length_of e)) <$> fileOffsets cm !! path.
Definition UpdateActivity (path : string) (now : Z) (cm : CleanupManager) : CleanupManager :=
  MkCM (deletedHashes cm) (fileOffsets cm) (<[path := now]> (fileActivities cm)).
Definition GetLastActivity (path : string) (cm : CleanupManager) : option Z := fileActivities cm !! path.
Definition GetIdleDuration (path : string) (now : Z) (cm : CleanupManager) : Z :=
  match fileActivities cm !! path with Some last => now - last | None => 0 end.

(** The first three steps. *)
Definition clean_maps (now : Z) (cm : CleanupManager) : CleanupManager :=
  MkCM (filter (λ kv, ¬ deletedHashTTL < now - kv.2) (deletedHashes cm))
       (filter (λ kv, ¬ offsetTTL < now - timestamp kv.2) (fileOffsets cm))
       (filter (λ kv, ¬ activityTTL < now - kv.2) (fileActivities cm)).

(** [NativeClient.CleanupHashes]: of hashes as the engine writes them. *)
Definition CleanupHashes (ts : gmap string torrent) (hashes : gset string) : nat * gset string :=
  (size (filter (λ h, ts !! h = None) hashes), filter (λ h, is_Some (ts !! h)) hashes).

(** ** The playback registry *)

(** The last sign of life of a playback. *)
Definition lastActivity (cm : CleanupManager) (path : string) (ps : PlaybackState) : Z :=
  let last := OpenedAt ps in
  let last := match ConfirmedAt ps with Some t => if last <? t then t else last | None => last end in
  match GetLastActivity path cm with Some act => if last <? act then act else last | None => last end.

Definition activePaths (w : life) : gset string :=
  list_to_set (omap (λ i, h_path <$> handles w !! i) (elements (activeHandles w))).

(** An entry that is not open and has been quiet for 15 minutes; *)
Definition orphaned (cm : CleanupManager) (active : gset string) (now : Z) (path : string) (ps : PlaybackState) : bool :=
  bool_decide (path ∉ active) && (15 * minute <? now - lastActivity cm path ps).
(** or one that has been open for a day. *)
Definition outdated (active : gset string) (now : Z) (path : string) (ps : PlaybackState) : bool :=
  bool_decide (path ∈ active) && (24 * hour <? now - OpenedAt ps).

Definition priority_off (t : torrent) : torrent :=
  if IsPriority t then SetAggressiveMode false 0 (set_priority false t) else t.

Definition clean_entry (cm : CleanupManager) (active : gset string) (now : Z) (s : player) (e : string * PlaybackState) : player :=
  let '(path, ps) := e in
  if orphaned cm active now path ps then
    let s := on_torrent (psHash ps) priority_off s in set_registry (delete path (playbackRegistry s)) s
  else if outdated active now path ps then set_registry (delete path (playbackRegistry s)) s
  else s.

(** ** A clean-up *)

Record app := MkApp {
  manager : CleanupManager;
  strategies : gmap string Preload.StrategyEntry;
  activeHashes : gset string;
  player_of : player;
  tree_of : tree;
}.

Section clean.
Context `{HX : !XXHash} `{HM : !MapRange}.

Definition clean_registry (cm : CleanupManager) (now : Z) (s : player) : player :=
  foldl (clean_entry cm (activePaths (life_of s)) now) s (range_order now (map_to_list (playbackRegistry s))).

(** [filepath.WalkDir]: everything from the root on; nothing if it is missing. *)
Definition walk_dir (root : string) (d : gmap string node) : gset string :=
  if bool_decide (root = "") || bool_decide (d !! root = None) then ∅
  else dom (filter (λ kv, kv.1 = root ∨ String.prefix (root +:+ "/") kv.1 = true) d).

Definition validFiles (root : string) (a : app) : gset string :=
  walk_dir root (disk (tree_of a)) ∪
  list_to_set (join root <$> (map_to_list (torrents (player_of a)) ≫= λ kt, tFiles kt.2)) ∪
  list_to_set (OpenTracker.OpenPaths (openTracker (life_of (player_of a)))).

Definition prune_inodes (now : Z) (valid : gset string) (t : tree) : tree :=
  match globalInodeMap t with
  | Some im => if bool_decide (valid = ∅) then t else set_inodes (Some (PruneMissing now valid im).2) t
  | None => t
  end.

Definition runCleanup (root : string) (now : Z) (a : app) : app :=
  let cm := clean_maps now (manager a) in
  let strategies := Preload.Cleanup now (strategies a) in
  let t := set_meta (LRUCache_CleanupExpired now (metaCache (tree_of a))).2 (tree_of a) in
  let t := set_dirs (DirCache_CleanupExpired now (globalDirCache t)) t in
  let hashes := (CleanupHashes (torrents (player_of a)) (activeHashes a)).2 in
  let t := prune_inodes now (validFiles root a) t in
  MkApp cm strategies hashes (clean_registry cm now (player_of a)) t.
End clean.

(** ** What a clean-up of the registry does *)

Definition dropped (cm : CleanupManager) (active : gset string) (now : Z) (e : string * PlaybackState) : bool :=
  orphaned cm active now e.1 e.2 || outdated active now e.1 e.2.
(** An orphaned entry of the torrent with this hash. *)
Definition orphan_of (cm : CleanupManager) (active : gset string) (now : Z) (h : string) (e : string * PlaybackState) : bool :=
  bool_decide (psHash e.2 ≠ "") && bool_decide (ToLower (psHash e.2) = h) && orphaned cm active now e.1 e.2.

Lemma priority_off_idem t : priority_off (priority_off t) = priority_off t.
Proof. unfold priority_off. by destruct (IsPriority t) eqn:E; cbn; rewrite ?E. Qed.

Lemma on_torrent_lookup hash f s h :
  torrents (on_torrent hash f s) !! h = if bool_decide (hash ≠ "") && bool_decide (ToLower hash = h) then f <$> torrents s !! h else torrents s !! h.
Proof.
  unfold on_torrent. rewrite bool_decide_not. case_bool_decide; [done|]. cbn. case_bool_decide as E; [rewrite <-E; apply lookup_alter_eq|by apply lookup_alter_ne].
Qed.

Lemma on_torrent_rest hash f s :
  playbackRegistry (on_torrent hash f s) = playbackRegistry s ∧ life_of (on_torrent hash f s) = life_of s ∧ shield_of (on_torrent hash f s) = shield_of s.
Proof. unfold on_torrent. by case_bool_decide. Qed.

Section registry.
Context (cm : CleanupManager) (active : gset string) (now : Z).

Lemma clean_entry_registry s e p :
  playbackRegistry (clean_entry cm active now s e) !! p =
  if bool_decide (e.1 = p) && dropped cm active now e then None else playbackRegistry s !! p.
Proof.
  destruct e as [q ps]. unfold clean_entry, dropped. cbn [fst snd]. destruct (on_torrent_rest (psHash ps) priority_off s) as (E & _).
  destruct (orphaned _ _ _ _ _), (outdated _ _ _ _); cbn [orb]; rewrite ?andb_false_r; try done; cbn [set_registry playbackRegistry]; rewrite ?E;
    rewrite andb_true_r; case_bool_decide as Hq; [rewrite Hq; apply lookup_delete_eq|by apply lookup_delete_ne|rewrite Hq; apply lookup_delete_eq|
      by apply lookup_delete_ne|rewrite Hq; apply lookup_delete_eq|by apply lookup_delete_ne].
Qed.

Lemma clean_entry_torrents s e h :
  torrents (clean_entry cm active now s e) !! h =
  if orphan_of cm active now h e then priority_off <$> torrents s !! h else torrents s !! h.
Proof.
  destruct e as [q ps]. unfold clean_entry, orphan_of. cbn [fst snd]. destruct (orphaned _ _ _ _ _).
  - cbn [set_registry torrents]. by rewrite on_torrent_lookup, andb_true_r.
  - rewrite andb_false_r. by destruct (outdated _ _ _ _).
Qed.

Lemma clean_entry_rest s e : life_of (clean_entry cm active now s e) = life_of s ∧ shield_of (clean_entry cm active now s e) = shield_of s.
Proof.
  destruct e as [q ps]. unfold clean_entry. destruct (on_torrent_rest (psHash ps) priority_off s) as (_ & H1 & H2).
  destruct (orphaned _ _ _ _ _); [done|]. by destruct (outdated _ _ _ _).
Qed.

Lemma clean_entries_spec l s :
  let s' := foldl (clean_entry cm active now) s l in
  (∀ p, playbackRegistry s' !! p = if existsb (λ e, bool_decide (e.1 = p) && dropped cm active now e) l then None else playbackRegistry s !! p) ∧
  (∀ h, torrents s' !! h = if existsb (orphan_of cm active now h) l then priority_off <$> torrents s !! h else torrents s !! h) ∧
  life_of s' = life_of s ∧ shield_of s' = shield_of s.
Proof.
  revert s. induction l as [|e l IH]; intros s; cbn [foldl existsb]; [done|].
  destruct (IH (clean_entry cm active now s e)) as (H1 & H2 & H3 & H4). destruct (clean_entry_rest s e) as [H5 H6]. split_and!.
  - intros p. rewrite H1, clean_entry_registry. by destruct (_ && _), (existsb _ _).
  - intros h. rewrite H2, clean_entry_torrents. destruct (orphan_of cm active now h e), (existsb (orphan_of cm active now h) l); cbn [orb]; try done.
    destruct (torrents s !! h) as [t|]; [|done]. cbn. by rewrite priority_off_idem.
  - congruence.
  - congruence.
Qed.
End registry.

Lemma clean_registry_spec `{!MapRange} cm now s :
  let active := activePaths (life_of s) in
  let s' := clean_registry cm now s in
  (∀ p, playbackRegistry s' !! p = (ps ← playbackRegistry s !! p; if dropped cm active now (p, ps) then None else Some ps)) ∧
  (∀ h, (∃ p ps, playbackRegistry s !! p = Some ps ∧ orphan_of cm active now h (p, ps) = true) ∧ torrents s' !! h = priority_off <$> torrents s !! h ∨
        (∀ p ps, playbackRegistry s !! p = Some ps → orphan_of cm active now h (p, ps) = false) ∧ torrents s' !! h = torrents s !! h) ∧
  life_of s' = life_of s ∧ shield_of s' = shield_of s.
Proof.
  intros active s'. subst s'. unfold clean_registry. fold active. set (l := range_order now (map_to_list (playbackRegistry s))).
  assert (∀ p ps, (p, ps) ∈ l ↔ playbackRegistry s !! p = Some ps) as Hl.
  { intros p ps. unfold l. rewrite range_order_perm. apply elem_of_map_to_list. }
  destruct (clean_entries_spec cm active now l s) as (H1 & H2 & H3 & H4). split_and!; [| |done|done].
  - intros p. rewrite H1. destruct (existsb _ l) eqn:E.
    + apply existsb_exists in E as ([q ps] & Hin & [Hq Hd]%andb_true_iff). apply bool_decide_eq_true in Hq. cbn in Hq. subst q.
      apply list_elem_of_In, Hl in Hin. by rewrite Hin; cbn; rewrite Hd.
    + destruct (playbackRegistry s !! p) as [ps|] eqn:Hp; [|done]. cbn. destruct (dropped cm active now (p, ps)) eqn:Hd; [|done].
      assert (existsb (λ e, bool_decide (e.1 = p) && dropped cm active now e) l = true); [|congruence].
      apply existsb_exists. exists (p, ps). split; [by apply list_elem_of_In, Hl|]. rewrite Hd. by rewrite bool_decide_eq_true_2.
  - intros h. rewrite H2. destruct (existsb _ l) eqn:E; [left|right]; (split; [|done]).
    + apply existsb_exists in E as ([p ps] & Hin & Ho). exists p, ps. split; [|done]. by apply Hl, list_elem_of_In.
    + intros p ps Hp. destruct (orphan_of cm active now h (p, ps)) eqn:Ho; [|done].
      assert (existsb (orphan_of cm active now h) l = true); [|congruence]. apply existsb_exists. exists (p, ps). split; [by apply list_elem_of_In, Hl|done].
Qed.

(** Old activities do not count: forgetting them first changes no verdict. *)
Lemma orphaned_clean_maps now cm active path ps :
  orphaned (clean_maps now cm) active now path ps = orphaned cm active now path ps.
Proof.
  unfold orphaned. destruct (bool_decide _); [|done]. cbn [andb]. unfold lastActivity, GetLastActivity, clean_maps. cbn [fileActivities].
  rewrite map_lookup_filter. destruct (fileActivities cm !! path) as [act|]; [|done]. cbn [mbind option_bind].
  set (last := match ConfirmedAt ps with Some t => _ | None => _ end). case_guard as Hg; [done|]. cbn [snd mbind option_bind] in *.
  unfold activityTTL, hour, minute, Second in *. destruct (Z.ltb_spec last act); [|done].
  change (mfail ≫= _) with (None : option Z). cbv iota. rewrite !(proj2 (Z.ltb_lt _ _)) by lia. done.
Qed.

(** ** Priority needs a playback *)

Definition new_player : player := MkPlayer ∅ ∅ no_pumps shield0.

(** Files are opened and their timers expire, messages come in, handles and
    pumps come and go; torrents are added without priority, change or are
    removed; and the registry is cleaned up, while no file has been open for a
    day. *)
Inductive play_step `{!MapRange} (limit : Z) : player → player → Prop :=
  | pl_open path hash imdb now s : play_step limit s (register_open path hash imdb now s)
  | pl_timer probe path now s : play_step limit s (priority_expired probe path now s)
  | pl_webhook text decoded now s : play_step limit s (handlePlexWebhook limit text decoded now s)
  | pl_life l s : play_step limit s (set_life l s)
  | pl_shield h s : play_step limit s (set_shield h s)
  | pl_torrent h t s : (IsPriority t = true → ∃ t0, torrents s !! h = Some t0 ∧ IsPriority t0 = true) → play_step limit s (set_torrents (<[h := t]> (torrents s)) s)
  | pl_remove h s : play_step limit s (set_torrents (delete h (torrents s)) s)
  | pl_clean cm now s : (∀ p ps, playbackRegistry s !! p = Some ps → outdated (activePaths (life_of s)) now p ps = false) →
      play_step limit s (clean_registry cm now s).

(** A confirmed playback of the torrent. *)
Definition confirmed_entry (r : gmap string PlaybackState) (h : string) (p : string) (ps : PlaybackState) : Prop :=
  r !! p = Some ps ∧ psHash ps ≠ "" ∧ ToLower (psHash ps) = h ∧ ConfirmedAt ps ≠ None.
Definition backed_priority (s : player) : Prop :=
  ∀ h t, torrents s !! h = Some t → IsPriority t = true → ∃ p ps, confirmed_entry (playbackRegistry s) h p ps.

(** Entries only gain confirmations when one is replaced by a later one. *)
Lemma replaced_entry r p ps ps' h q x :
  r !! p = Some ps → psHash ps' = psHash ps → (ConfirmedAt ps ≠ None → ConfirmedAt ps' ≠ None) →
  confirmed_entry r h q x → ∃ q x, confirmed_entry (<[p := ps']> r) h q x.
Proof.
  intros Hp Hh Hc (H1 & H2 & H3 & H4). destruct (decide (q = p)) as [->|Hne].
  - rewrite Hp in H1. injection H1 as <-. exists p, ps'. split; [apply lookup_insert_eq|]. rewrite Hh. auto.
  - exists q, x. split; [by rewrite lookup_insert_ne|done].
Qed.

(** Priority is given to the torrent of a confirmed entry, or taken away. *)
Lemma on_torrent_backed s hash f :
  backed_priority s →
  (∀ t, IsPriority (f t) = true → IsPriority t = true ∨ ∃ p ps, confirmed_entry (playbackRegistry s) (ToLower hash) p ps) →
  backed_priority (on_torrent hash f s).
Proof.
  intros Hb Hf h t. rewrite (proj1 (on_torrent_rest hash f s)), on_torrent_lookup. destruct (_ && _) eqn:E; [|apply Hb].
  apply andb_true_iff in E as [_ E%bool_decide_eq_true]. intros (t0 & H0 & ->)%fmap_Some Hp.
  destruct (Hf t0 Hp) as [H|H]; [by eapply Hb|by rewrite <-E].
Qed.

Lemma registry_backed s p ps ps' :
  backed_priority s → playbackRegistry s !! p = Some ps → psHash ps' = psHash ps → (ConfirmedAt ps ≠ None → ConfirmedAt ps' ≠ None) →
  backed_priority (set_registry (<[p := ps']> (playbackRegistry s)) s).
Proof. intros Hb Hp Hh Hc h t Ht Hpr. destruct (Hb h t Ht Hpr) as (q & x & Hq). by eapply replaced_entry. Qed.

Section priority.
Context `{HM : !MapRange} (limit : Z).

Lemma on_play_backed g now s : backed_priority s → backed_priority (on_play limit g now s).
Proof.
  intros Hb. unfold on_play. generalize (play_match g now s). intros path. destruct (playbackRegistry s !! path) as [ps|] eqn:Hp; [|done].
  case_bool_decide; [done|]. unfold on_torrent. case_bool_decide as Hh.
  { eapply registry_backed; [done..|]. done. }
  pose proof (on_torrent_backed (set_registry (<[path := confirm (tgImdb g) now ps]> (playbackRegistry s)) s) (psHash ps)
    (λ t, SetAggressiveMode true limit (set_priority true t))) as Ho. unfold on_torrent in Ho. rewrite (bool_decide_eq_false_2 _ Hh) in Ho. apply Ho.
  - by eapply registry_backed.
  - intros t _. right. exists path, (confirm (tgImdb g) now ps). split; [apply lookup_insert_eq|done].
Qed.

Lemma on_stop_backed g now s : backed_priority s → backed_priority (on_stop g now s).
Proof.
  intros Hb. unfold on_stop. generalize (stop_match g now s). intros path. destruct (playbackRegistry s !! path) as [ps|] eqn:Hp; [|done].
  case_bool_decide; [done|]. apply on_torrent_backed; [|by left].
  exact (registry_backed s path ps (stopped now ps) Hb Hp eq_refl (λ _, ltac:(done))).
Qed.

Lemma register_open_backed path hash imdb now s : backed_priority s → backed_priority (register_open path hash imdb now s).
Proof.
  intros Hb. unfold register_open. destruct (playbackRegistry s !! path) as [ps|] eqn:Hp.
  - set (ps' := MkPlayback _ _ _ _ _ _ _). assert (backed_priority (set_registry (<[path := ps']> (playbackRegistry s)) s)) as Hb'
      by (by eapply registry_backed). destruct (IsHealthy ps && _) eqn:E; [|done]. apply andb_true_iff in E as [_ E].
    destruct (ConfirmedAt ps) as [c|] eqn:Hc; [|done]. destruct (decide (psHash ps = "")) as [Hz|Hz].
    { unfold on_torrent. by rewrite (bool_decide_eq_true_2 _ Hz). }
    apply on_torrent_backed; [done|]. intros t _. right. exists path, ps'. split; [apply lookup_insert_eq|done].
  - intros h t Ht Hpr. destruct (Hb h t Ht Hpr) as (q & x & Hq & Hr). exists q, x. split; [|done]. cbn. rewrite lookup_insert_ne; [done|]. congruence.
Qed.

Lemma clean_registry_backed cm now s :
  (∀ p ps, playbackRegistry s !! p = Some ps → outdated (activePaths (life_of s)) now p ps = false) →
  backed_priority s → backed_priority (clean_registry cm now s).
Proof.
  intros Hout Hb h t Ht Hpr. destruct (clean_registry_spec cm now s) as (H1 & H2 & _). destruct (H2 h) as [[_ E]|[Hno E]]; rewrite E in Ht.
  - apply fmap_Some in Ht as (t0 & _ & ->). unfold priority_off in Hpr. by destruct (IsPriority t0) eqn:E0; cbn in *; congruence.
  - destruct (Hb h t Ht Hpr) as (p & ps & Hp & Hh & Hl & Hc). exists p, ps. split; [|done]. rewrite H1, Hp. cbn. unfold dropped. cbn [fst snd].
    rewrite (Hout p ps Hp). pose proof (Hno p ps Hp) as Ho. unfold orphan_of in Ho. cbn [fst snd] in Ho.
    rewrite !bool_decide_eq_true_2 in Ho by done. cbn in Ho. by rewrite Ho.
Qed.

Lemma play_step_backed s s' : play_step limit s s' → backed_priority s → backed_priority s'.
Proof.
  intros [path hash imdb now s0|probe path now s0|text decoded now s0|l s0|hd s0|h t s0 Ht|h s0|cm now s0 Hout] Hb.
  - by apply register_open_backed.
  - unfold priority_expired. destruct (OpenTracker.IsPathOpen _ _); [done|]. destruct (playbackRegistry s0 !! path) as [ps|]; [|done].
    destruct (bool_decide _); [done|]. destruct (OpenTracker.IsHashOpen _ _); [done|]. apply on_torrent_backed; [done|]. by left.
  - unfold handlePlexWebhook. destruct decoded as [p|]; [|done]. destruct (section_of _) as [sec|]; [|done].
    destruct (event_of _) as [[]|]; [by apply on_play_backed|by apply on_stop_backed|done].
  - done.
  - done.
  - intros h' t'. cbn. intros [[<- <-]|[Hne Ht']]%lookup_insert_Some Hp; [|by eapply Hb]. destruct (Ht Hp) as (t0 & H0 & Hp0). by eapply Hb.
  - intros h' t'. cbn. intros [_ Ht']%lookup_delete_Some. by eapply Hb.
  - by apply clean_registry_backed.
Qed.

Lemma play_steps_backed s s' : rtc (play_step limit) s s' → backed_priority s → backed_priority s'.
Proof. induction 1 as [|s s1 s2 Hs _ IH]; [done|]. intros Hb. by apply IH, (play_step_backed s). Qed.
End priority.

(** C27: A torrent does not keep its priority, which keeps it from expiring, when
    nobody plays it any more: if none of its files in the registry is open or
    has shown a sign of life in the last 15 minutes, the torrent has no priority
    after the next clean-up. Torrents without an abandoned file stay as they
    are. That holds as long as no file is open for a day. *)
Theorem quiet_torrent_loses_priority `{!XXHash} `{!MapRange} limit root now a h :
  rtc (play_step limit) new_player (player_of a) →
  let quiet p ps := p ∉ activePaths (life_of (player_of a)) ∧ 15 * minute < now - lastActivity (manager a) p ps in
  let a' := runCleanup root now a in
  ((∀ p ps, playbackRegistry (player_of a) !! p = Some ps → ToLower (psHash ps) = h → quiet p ps) →
     ∀ t, torrents (player_of a') !! h = Some t → IsPriority t = false) ∧
  ((∀ p ps, playbackRegistry (player_of a) !! p = Some ps → ToLower (psHash ps) = h → ¬ quiet p ps) →
     torrents (player_of a') !! h = torrents (player_of a) !! h).
Proof.
  intros Hr quiet a'. subst a'. assert (backed_priority (player_of a)) as Hb by (by eapply play_steps_backed).
  unfold runCleanup. cbn [player_of]. set (s := player_of a) in *. set (cm := clean_maps now (manager a)).
  assert (∀ p ps, playbackRegistry s !! p = Some ps → orphan_of cm (activePaths (life_of s)) now h (p, ps) = true ↔
    psHash ps ≠ "" ∧ ToLower (psHash ps) = h ∧ quiet p ps) as Hq.
  { intros p ps Hp. unfold orphan_of, cm. cbn [fst snd]. rewrite orphaned_clean_maps. unfold orphaned.
    rewrite !andb_true_iff, !bool_decide_eq_true, Z.ltb_lt. unfold quiet. tauto. }
  destruct (clean_registry_spec cm now s) as (_ & H2 & _). specialize (H2 h). split; intros Hall.
  - intros t Ht. destruct H2 as [[_ E]|[Hno E]]; rewrite E in Ht.
    + apply fmap_Some in Ht as (t0 & _ & ->). unfold priority_off. by destruct (IsPriority t0) eqn:E0.
    + destruct (IsPriority t) eqn:Hp; [|done]. destruct (Hb h t Ht Hp) as (p & ps & Hps & Hh & Hl & _).
      specialize (Hno p ps Hps). rewrite (proj2 (Hq p ps Hps)) in Hno; [done|]. auto.
  - destruct H2 as [[(p & ps & Hp & Ho) _]|[_ E]]; [|done]. apply Hq in Ho as (_ & Hl & Ho); [|done]. by destruct (Hall p ps Hp Hl).
Qed.

(** ** Inodes survive the clean-up *)

Definition set_tree (t : tree) (a : app) : app := MkApp (manager a) (strategies a) (activeHashes a) (player_of a) t.

Section survive.
Context `{HX : !XXHash} `{HM : !MapRange} (cfg : Config) (root : string).

(** No torrent file has one path that is kept and another one that is pruned. *)
Definition no_split (a : app) : Prop :=
  ∀ p q k, named p (globalInodeMap (tree_of a)) = Some k → named q (globalInodeMap (tree_of a)) = Some k →
    p ∈ validFiles root a → q ∈ validFiles root a.

(** Requests of the kernel with lookups of the paths in [P]; everything outside
    the tree changes; and clean-ups, which find the other paths. *)
Inductive app_step (P : string → Prop) : app → app → Prop :=
  | as_browse a t' : browse cfg P (tree_of a) t' → app_step P a (set_tree t' a)
  | as_rest a a' : tree_of a' = tree_of a → app_step P a a'
  | as_clean now a : no_split a → (∀ p, ¬ P p → p ∈ validFiles root a) → app_step P a (runCleanup root now a).

Lemma prune_keeps_names now valid im :
  backed_map (Some im) → (∀ p q k, name_of p im = Some k → name_of q im = Some k → p ∈ valid → q ∈ valid) →
  backed_map (Some (PruneMissing now valid im).2) ∧ ∀ p, p ∈ valid → name_of p (PruneMissing now valid im).2 = name_of p im.
Proof.
  intros [Hi Hb] Hs. destruct (PruneMissing_views now valid im (proj1 Hi)) as [Hn Hk]. split; [split; [by apply PruneMissing_inv|]|].
  - intros p k. rewrite Hn. case_decide as Hp; [|done]. intros Hpk. rewrite Hk; [by eapply Hb|]. intros q Hq. exact (Hs p q k Hpk Hq Hp).
  - intros p Hp. by rewrite Hn, decide_True.
Qed.

Lemma runCleanup_tree dur now a :
  tree_ok dur (tree_of a) → backed_map (globalInodeMap (tree_of a)) → no_split a →
  let t' := tree_of (runCleanup root now a) in
  tree_ok dur t' ∧ backed_map (globalInodeMap t') ∧ ∀ p, p ∈ validFiles root a → named p (globalInodeMap t') = named p (globalInodeMap (tree_of a)).
Proof.
  intros Ht Hb Hs t'. subst t'. unfold runCleanup. cbn [tree_of]. set (t1 := set_dirs _ _).
  assert (tree_ok dur t1) as Ht1.
  { unfold t1. eapply browse_ok; [apply (br_forget_dirs cfg anywhere)|]. eapply browse_ok; [apply (br_forget cfg anywhere)|done]. }
  assert (globalInodeMap t1 = globalInodeMap (tree_of a)) as E by done. clearbody t1. unfold prune_inodes. rewrite E.
  destruct (globalInodeMap (tree_of a)) as [im|] eqn:Eim; [|done]. case_bool_decide; [rewrite E; done|].
  destruct (prune_keeps_names now (validFiles root a) im Hb) as [H1 H2].
  { unfold no_split in Hs. rewrite Eim in Hs. exact Hs. }
  split_and!; [|done|exact H2]. apply set_inodes_ok; [done|]. apply H1.
Qed.

Lemma app_step_names P dur a a' : app_step P a a' → tree_ok dur (tree_of a) → backed_map (globalInodeMap (tree_of a)) →
  tree_ok dur (tree_of a') ∧ backed_map (globalInodeMap (tree_of a')) ∧
  ∀ p, ¬ P p → named p (globalInodeMap (tree_of a')) = named p (globalInodeMap (tree_of a)).
Proof.
  intros [a0 t' Hbr|a0 a1 E|now a0 Hs Hv] Ht Hb.
  - destruct (browse_names cfg P dur _ _ Hbr Ht Hb). split; [by eapply browse_ok|]. done.
  - by rewrite E.
  - destruct (runCleanup_tree dur now a0 Ht Hb Hs) as (H1 & H2 & H3). split_and!; [done|done|]. intros p Hp. by apply H3, Hv.
Qed.

Lemma app_steps_names P dur a a' : rtc (app_step P) a a' → tree_ok dur (tree_of a) → backed_map (globalInodeMap (tree_of a)) →
  tree_ok dur (tree_of a') ∧ backed_map (globalInodeMap (tree_of a')) ∧
  ∀ p, ¬ P p → named p (globalInodeMap (tree_of a')) = named p (globalInodeMap (tree_of a)).
Proof.
  induction 1 as [|a a1 a2 Hs _ IH]; [auto|]. intros Ht Hb. destruct (app_step_names P dur a a1 Hs Ht Hb) as (H1 & H2 & H3).
  destruct (IH H1 H2) as (H4 & H5 & H6). split_and!; [done|done|]. intros p Hp. by rewrite H6, H3.
Qed.
End survive.

Definition new_app (cap : Z) : app := MkApp NewCleanupManager ∅ ∅ new_player (new_tree cap).


(** ** Witnesses *)

#[local] Existing Instance FuseTree.sample_XXHash.

(** A film is played and left: confirmed at minute 1, cleaned up at minute 20. *)
Definition film : string := "/m/film.mkv".
Definition film_torrent : player := set_torrents {[sample_hash := MkTorrent false None 0 []]} new_player.
Definition film_starts : payload := MkPayload "media.play" "Film" "" 2020 "movie" [film].
Definition film_playing : player := handlePlexWebhook 25 "" (Some film_starts) minute (register_open film sample_hash "" 0 film_torrent).
Definition film_app : app := MkApp NewCleanupManager ∅ ∅ film_playing (new_tree 1000000).

Lemma film_playing_reached : rtc (play_step 25) new_player film_playing.
Proof.
  eapply rtc_l; [apply (pl_torrent 25 sample_hash (MkTorrent false None 0 [])); discriminate|].
  eapply rtc_l; [apply (pl_open 25 film sample_hash "" 0)|]. apply rtc_once. exact (pl_webhook 25 "" (Some film_starts) minute _).
Qed.

Lemma quiet_torrent_witness :
  IsPriority <$> torrents (player_of film_app) !! sample_hash = Some true ∧
  IsPriority <$> torrents (player_of (runCleanup "/m" (20 * minute) film_app)) !! sample_hash = Some false.
Proof.
  split; [vm_compute; reflexivity|].
  destruct (torrents (player_of (runCleanup "/m" (20 * minute) film_app)) !! sample_hash) as [t|] eqn:E.
  - cbn. f_equal. destruct (quiet_torrent_loses_priority 25 "/m" (20 * minute) film_app sample_hash film_playing_reached) as [H _].
    apply (H (λ p ps Hp _, map_Forall_lookup_1 (λ p ps, p ∉ activePaths (life_of film_playing) ∧ 15 * minute < 20 * minute - lastActivity NewCleanupManager p ps)
      (playbackRegistry film_playing) p ps ltac:(apply (bool_decide_unpack _); vm_compute; exact I) Hp)). exact E.
  - exfalso. revert E. vm_compute. discriminate.
Defined.

Lemma some_of {A} (x : option A) : match x with Some _ => true | None => false end = true → ∃ y, x = Some y.
Proof. destruct x; [eauto|done]. Qed.

(** All names of the map are found. *)
Lemma all_found_no_split `{!XXHash} `{!MapRange} root a im :
  globalInodeMap (tree_of a) = Some im → im_ok im →
  forallb (λ p, bool_decide (p ∈ validFiles root a)) (map_to_list (merged 0 nameMap (InodeMap.shards im))).*1 = true → no_split root a.
Proof.
  intros E Hi Hall p q k _ Hq _. rewrite E in Hq. cbn in Hq. rewrite <-(merged_names 0) in Hq by done.
  rewrite forallb_forall in Hall. specialize (Hall q). rewrite bool_decide_eq_true in Hall. apply Hall, list_elem_of_In, list_elem_of_fmap.
  exists (q, k). split; [done|]. by apply elem_of_map_to_list.
Qed.

Definition tree_app : app := set_tree sample_tree (new_app 1000000).

Lemma tree_app_reached : rtc (app_step sample_cfg "/m" anywhere) (new_app 1000000) tree_app.
Proof. apply rtc_once, as_browse. apply br_disk. apply (bool_decide_unpack _). vm_compute. exact I. Qed.

(** The tree after the film was looked up. *)
Definition looked_up_tree : tree := from_option snd sample_tree (Lookup sample_cfg false "/m" "film.mkv" second sample_tree).


(** ** What the clean-up gets wrong *)

Definition film_handle : handle := MkHandle film sample_hash true false false false 0 None.
Definition film_open : life := set_open {[0%nat]} (set_handle 0%nat film_handle no_pumps).

(** A film that is open for more than a day loses its entry but its torrent
    keeps the priority; the timer of the last handle then finds no entry, and no
    later clean-up does: the torrent never expires. *)
Lemma day_long_playback_keeps_priority :
  let a1 := runCleanup "/m" (25 * hour) (MkApp NewCleanupManager ∅ ∅ (set_life film_open film_playing) (new_tree 1000000)) in
  let s2 := priority_expired false film (26 * hour) (set_life no_pumps (player_of a1)) in
  let a3 := runCleanup "/m" (48 * hour) (MkApp (manager a1) ∅ ∅ s2 (tree_of a1)) in
  (map_to_list (playbackRegistry (player_of a1)), IsPriority <$> torrents (player_of a3) !! sample_hash) = ([], Some true).
Proof. vm_compute. reflexivity. Qed.

(** An abandoned file takes the priority from the torrent although another file
    of it is being played. *)
Definition other : string := "/m/other.mkv".
Lemma playing_file_loses_priority :
  let s := handlePlexWebhook 25 "" (Some film_starts) (20 * minute)
             (register_open film sample_hash "" (20 * minute) (register_open other sample_hash "" 0 film_torrent)) in
  let a := runCleanup "/m" (21 * minute) (MkApp NewCleanupManager ∅ ∅ (set_life film_open s) (new_tree 1000000)) in
  (IsPriority <$> torrents s !! sample_hash, IsHealthy <$> playbackRegistry (player_of a) !! film, IsPriority <$> torrents (player_of a) !! sample_hash) =
  (Some true, Some true, Some false).
Proof. vm_compute. reflexivity. Qed.

(** The pruning is skipped if nothing is found, so as to survive a missing mount;
    but the empty mount point itself is found, and every inode is pruned. *)
Lemma lost_mount_prunes :
  let unmounted := set_disk {["/m" := Directory (MkStat 2 2 0x41ED 0 0 0 8 4096)]} looked_up_tree in
  let names t := from_option (λ im, (map_to_list (merged 0 nameMap (InodeMap.shards im))).*1) [] (globalInodeMap t) in
  (names looked_up_tree, names (tree_of (runCleanup "/m" (2 * second) (set_tree unmounted tree_app)))) = (["/m/film.mkv"], []).
Proof. vm_compute. reflexivity. Qed.
