(* ===== verification/TorrServer.v ===== *)
(** * The torrent server (internal/gostorm/torr: torrent.go, btserver.go, apihelper.go, dbwrapper.go)

    The server keeps the torrents that are active in a table by hash. A torrent
    is added to the client of the torrent library, waits for its metadata, works,
    and is closed when its time is over, after it has been saved in the database
    ([Settings]), from which it is activated again when it is asked for. Torrents
    are objects that outlive their place in the table; the client knows its own
    by hash. A result [None] is a panic. *)

From S2P Require Import Prelude Settings.

Definition Second : Z := 1000000000.
Definition Minute : Z := 60 * Second.

(** ** Data *)

(** What the metadata of a torrent say. *)
Record info := MkInfo { iName : string; iLength : Z; iFiles : list (string * Z) }.

(** [InfoBytes] is [None] if it is empty. *)
Record TorrentSpec := MkSpec { InfoHash : string; Trackers : list (list string); InfoBytes : option info; PeerAddrs : list string }.

Inductive TorrentStat := TorrentAdded | TorrentGettingInfo | TorrentPreload | TorrentWorking | TorrentClosed | TorrentInDB.
#[global] Instance TorrentStat_eq_dec : EqDecision TorrentStat.
Proof. solve_decision. Defined.

Notation tid := nat (only parsing).
Notation cid := nat (only parsing).

(** [Torrent_] is the torrent of the client; [cache] the number of readers of
    the cache, which is there once the metadata are. *)
Record Torrent := MkTorrent {
  Title : string; Category : string; Poster : string; Data : string;
  Spec_ : TorrentSpec;
  Stat : TorrentStat;
  Timestamp : Z; Size : Z;
  Torrent_ : option cid;
  cache : option Z;
  expiredTime : Z;
  IsPriority : bool;
}.

(** A torrent of the client, with its metadata and the addresses of its peers
    once they are known. *)
Record ctorrent := MkC { cHash : string; Info : option info; PeerConns : list string; Closed : bool }.

Record server := MkServer {
  objects : gmap tid Torrent;
  torrents : gmap string tid;
  connected : bool;
  client : gmap string cid;
  ctorrents : gmap cid ctorrent;
  db : gmap string (Settings.TorrentDB TorrentSpec);
  lastSaveTimes : gmap string Z;
}.

Record BTSets := MkSets { TorrentDisconnectTimeout : Z; RetrackersMode : Z; ReadOnly : bool }.

Definition set_object (i : tid) (t : Torrent) (s : server) : server :=
  MkServer (<[i := t]> (objects s)) (torrents s) (connected s) (client s) (ctorrents s) (db s) (lastSaveTimes s).
Definition set_table (m : gmap string tid) (s : server) : server :=
  MkServer (objects s) m (connected s) (client s) (ctorrents s) (db s) (lastSaveTimes s).
Definition set_client (m : gmap string cid) (c : gmap cid ctorrent) (s : server) : server :=
  MkServer (objects s) (torrents s) (connected s) m c (db s) (lastSaveTimes s).
Definition set_db (d : gmap string (Settings.TorrentDB TorrentSpec)) (s : server) : server :=
  MkServer (objects s) (torrents s) (connected s) (client s) (ctorrents s) d (lastSaveTimes s).
Definition set_saves (m : gmap string Z) (s : server) : server :=
  MkServer (objects s) (torrents s) (connected s) (client s) (ctorrents s) (db s) m.

Definition set_Stat (x : TorrentStat) (t : Torrent) : Torrent :=
  MkTorrent (Title t) (Category t) (Poster t) (Data t) (Spec_ t) x (Timestamp t) (Size t) (Torrent_ t) (cache t) (expiredTime t) (IsPriority t).
Definition set_Torrent (x : option cid) (t : Torrent) : Torrent :=
  MkTorrent (Title t) (Category t) (Poster t) (Data t) (Spec_ t) (Stat t) (Timestamp t) (Size t) x (cache t) (expiredTime t) (IsPriority t).
Definition set_cache (x : option Z) (t : Torrent) : Torrent :=
  MkTorrent (Title t) (Category t) (Poster t) (Data t) (Spec_ t) (Stat t) (Timestamp t) (Size t) (Torrent_ t) x (expiredTime t) (IsPriority t).
Definition set_Spec (x : TorrentSpec) (t : Torrent) : Torrent :=
  MkTorrent (Title t) (Category t) (Poster t) (Data t) x (Stat t) (Timestamp t) (Size t) (Torrent_ t) (cache t) (expiredTime t) (IsPriority t).
Definition set_texts (title category poster data : string) (t : Torrent) : Torrent :=
  MkTorrent title category poster data (Spec_ t) (Stat t) (Timestamp t) (Size t) (Torrent_ t) (cache t) (expiredTime t) (IsPriority t).
Definition set_Priority (b : bool) (t : Torrent) : Torrent :=
  MkTorrent (Title t) (Category t) (Poster t) (Data t) (Spec_ t) (Stat t) (Timestamp t) (Size t) (Torrent_ t) (cache t) (expiredTime t) b.

Definition AddExpiredTime (duration now : Z) (t : Torrent) : Torrent :=
  MkTorrent (Title t) (Category t) (Poster t) (Data t) (Spec_ t) (Stat t) (Timestamp t) (Size t) (Torrent_ t) (cache t)
    (if expiredTime t <? now + duration then now + duration else expiredTime t) (IsPriority t).

Definition Hash (t : Torrent) : string := InfoHash (Spec_ t).

(** ** The client *)

(** [Client.AddTorrentSpec]: the torrent of this hash, or a new one; metadata are
    set if they were missing. *)
Definition AddTorrentSpec (spec : TorrentSpec) (s : server) : cid * server :=
  match client s !! InfoHash spec with
  | Some c =>
      (c, set_client (client s) (alter (λ x, MkC (cHash x) (match Info x with Some i => Some i | None => InfoBytes spec end) (PeerConns x) (Closed x)) c (ctorrents s)) s)
  | None =>
      let c := fresh (dom (ctorrents s)) in
      (c, set_client (<[InfoHash spec := c]> (client s)) (<[c := MkC (InfoHash spec) (InfoBytes spec) [] false]> (ctorrents s)) s)
  end.

(** [Torrent.Drop]: the client drops its torrent of this hash, and panics if it
    has none. *)
Definition Drop (c : cid) (s : server) : option server :=
  x ← ctorrents s !! c;
  c' ← client s !! cHash x;
  Some (set_client (delete (cHash x) (client s)) (alter (λ y, MkC (cHash y) (Info y) (PeerConns y) true) c' (ctorrents s)) s).

Section server.
Context (cfg : BTSets).
(** The default trackers and those of the file; whether a link is an image; and
    the list of files as it is kept in [Data]. *)
Context (GetDefTrackers GetTrackerFromFile : list string) (CheckImgUrl : string → bool) (files_json : option info → string).

Definition timeout : Z := Z.min (TorrentDisconnectTimeout cfg * Second) Minute.

(** ** Torrents *)

Definition retrack (spec : TorrentSpec) : TorrentSpec :=
  let tr := match RetrackersMode cfg with
            | 1 => Trackers spec ++ [GetDefTrackers]
            | 2 => []
            | 3 => [GetDefTrackers]
            | _ => Trackers spec
            end in
  let tr := match GetTrackerFromFile with [] => tr | l => tr ++ [l] end in
  MkSpec (InfoHash spec) tr (InfoBytes spec) (PeerAddrs spec).

(** The second half of [NewTorrent], under the lock of the table; the torrent of
    the client has been added before. *)
Definition new_register (spec : TorrentSpec) (c : cid) (now : Z) (s : server) : tid * server :=
  match torrents s !! InfoHash spec with
  | Some i => (i, s)
  | None =>
      let i := fresh (dom (objects s)) in
      let t := AddExpiredTime timeout now (MkTorrent "" "" "" "" spec TorrentAdded (now / Second) 0 (Some c) None 0 false) in
      (i, set_table (<[InfoHash spec := i]> (torrents s)) (set_object i t s))
  end.

(** [None] is an error. *)
Definition NewTorrent (spec : TorrentSpec) (now : Z) (s : server) : option (tid * server) :=
  if negb (connected s) then None
  else
    let spec := retrack spec in
    let '(c, s) := AddTorrentSpec spec s in
    Some (new_register spec c now s).

Definition drop (i : tid) (s : server) : option server :=
  match objects s !! i with
  | None => Some s
  | Some t =>
      match Torrent_ t with
      | None => Some s
      | Some c => s ← Drop c s; Some (set_object i (set_Torrent None t) s)
      end
  end.

Definition Close (i : tid) (s : server) : option (bool * server) :=
  match objects s !! i with
  | None => Some (false, s)
  | Some t =>
      if ReadOnly cfg && match cache t with Some n => 0 <? n | None => false end then Some (false, s)
      else
        let s := set_object i (set_Stat TorrentClosed t) s in
        let s := set_table (delete (Hash t) (torrents s)) s in
        s ← drop i s; Some (true, s)
  end.

(** [GotInfo] up to the waiting: the answer, or [None] if it waits. *)
Definition got_begin (i : tid) (s : server) : option bool * server :=
  match objects s !! i with
  | None => (Some false, s)
  | Some t =>
      if bool_decide (Stat t = TorrentClosed) then (Some false, s)
      else if bool_decide (Stat t = TorrentPreload) then (Some true, s)
      else (None, set_object i (set_Stat TorrentGettingInfo t) s)
  end.

(** [WaitInfo] sees the metadata. *)
Definition info_known (t : Torrent) (s : server) : Prop := ∃ c x, Torrent_ t = Some c ∧ ctorrents s !! c = Some x ∧ is_Some (Info x).
Definition wait_ok (t : Torrent) : Torrent := set_cache (Some (default 0 (cache t))) t.

(** The end of [GotInfo]: the metadata are there, or the torrent was closed or
    the time is over. *)
Definition got_end (ok : bool) (i : tid) (now : Z) (s : server) : option server :=
  match objects s !! i with
  | None => Some s
  | Some t =>
      if ok then Some (set_object i (AddExpiredTime (TorrentDisconnectTimeout cfg * Second) now (set_Stat TorrentWorking (wait_ok t))) s)
      else snd <$> Close i s
  end.

Definition expired (now : Z) (t : Torrent) : bool :=
  if IsPriority t then false
  else if bool_decide (Stat t = TorrentGettingInfo) || bool_decide (Stat t = TorrentPreload) then false
  else if negb (expiredTime t <? now) then false
  else match cache t with None => true | Some readers => readers =? 0 end.

Definition NewReader (i : tid) (s : server) : option server :=
  t ← objects s !! i; n ← cache t;
  if bool_decide (Stat t = TorrentClosed) then None else Some (set_object i (set_cache (Some (n + 1)) t) s).
Definition CloseReader (i : tid) (now : Z) (s : server) : server :=
  match objects s !! i with
  | None => s
  | Some t =>
      set_object i (AddExpiredTime (TorrentDisconnectTimeout cfg * Second) now (set_cache ((λ n, n - 1) <$> cache t) t)) s
  end.

(** ** The server *)

Definition RemoveTorrent (hash : string) (s : server) : option (bool * server) :=
  match torrents s !! hash with Some i => Close i s | None => Some (false, s) end.

(** ** The database *)

Definition torrent_info (t : Torrent) (s : server) : option info := c ← Torrent_ t; x ← ctorrents s !! c; Info x.
Definition torrent_peers (t : Torrent) (s : server) : list string := default [] (c ← Torrent_ t; x ← ctorrents s !! c; Some (PeerConns x)).

Definition AddTorrentDB (i : tid) (t : Torrent) (s : server) : server :=
  let data := if bool_decide (Data t = "") then files_json (torrent_info t s) else Data t in
  let poster := if CheckImgUrl (Poster t) then Poster t else "" in
  let size := if (Size t =? 0) && bool_decide (Torrent_ t ≠ None) then from_option iLength 0 (torrent_info t s) else Size t in
  let s := set_object i (set_texts (Title t) (Category t) (Poster t) data t) s in
  set_db (<[Hash t := Settings.MkTorrent _ (Spec_ t) (Title t) (Category t) poster data (Timestamp t) size]> (db s)) s.

(** A torrent read from the database is a new object of no table. *)
Definition GetTorrentDB (hash : string) (s : server) : option Torrent :=
  d ← db s !! hash;
  Some (MkTorrent (Settings.Title _ d) (Settings.Category _ d) (Settings.Poster _ d) (Settings.Data _ d) (Settings.TorrentSpec d) TorrentInDB
          (Settings.Timestamp d) (Settings.Size _ d) None None 0 false).
Definition RemTorrentDB (hash : string) (s : server) : server := set_db (delete hash (db s)) s.

Definition saveTorrentToDB (i : tid) (s : server) : server :=
  match objects s !! i with
  | None => s
  | Some t =>
      let spec := Spec_ t in
      let ib := match InfoBytes spec with Some b => Some b | None => torrent_info t s end in
      let peers := match filter (λ a, a ≠ "") (torrent_peers t s) with [] => PeerAddrs spec | l => l end in
      let t := set_Spec (MkSpec (InfoHash spec) (Trackers spec) ib peers) t in
      AddTorrentDB i t (set_object i t s)
  end.

Definition saveDebounceInterval : Z := 30 * Second.
Definition SaveTorrentToDB (i : tid) (now : Z) (s : server) : server :=
  match objects s !! i with
  | None => s
  | Some t =>
      if match lastSaveTimes s !! Hash t with Some last => now - last <? saveDebounceInterval | None => false end then s
      else saveTorrentToDB i (set_saves (<[Hash t := now]> (lastSaveTimes s)) s)
  end.

(** What the ticker does with a torrent every second, apart from the figures for
    the display. *)
Definition UpdateStats (i : tid) (now : Z) (s : server) : option server :=
  match objects s !! i with
  | None => Some s
  | Some t => if expired now t then snd <$> RemoveTorrent (Hash t) (saveTorrentToDB i s) else Some s
  end.

(** ** The interface *)

Definition or_else (a b : string) : string := if bool_decide (a = "") then b else a.

Definition AddTorrent (spec : TorrentSpec) (title poster data category : string) (now : Z) (s : server) : option (tid * server) :=
  let cached := GetTorrentDB (InfoHash spec) s in
  let spec := match cached with
              | Some c => MkSpec (InfoHash spec) (Trackers spec)
                            (match InfoBytes spec with Some b => Some b | None => InfoBytes (Spec_ c) end)
                            (match PeerAddrs spec with [] => PeerAddrs (Spec_ c) | l => l end)
              | None => spec
              end in
  '(i, s) ← NewTorrent spec now s;
  t ← objects s !! i;
  let field f := match cached with Some c => f c | None => "" end in
  let name := match torrent_info t s with Some x => iName x | None => "" end in
  let t := set_texts (or_else (Title t) (or_else title (or_else (field Title) name)))
             (or_else (Category t) (or_else category (field Category)))
             (or_else (Poster t) (or_else poster (field Poster)))
             (or_else (Data t) (or_else data (field Data))) t in
  Some (i, set_object i t s).

Definition PeekTorrent (hash : string) (s : server) : option Torrent :=
  match torrents s !! hash with Some i => objects s !! i | None => GetTorrentDB hash s end.

(** [GetTorrent] of an active torrent; *)
Definition touch (i : tid) (now : Z) (s : server) : server :=
  match objects s !! i with Some t => set_object i (AddExpiredTime timeout now t) s | None => s end.
(** and the goroutine that activates one of the database, up to the waiting of
    [GotInfo]. *)
Definition activate (tor : Torrent) (now : Z) (s : server) : server :=
  match NewTorrent (Spec_ tor) now s with
  | None => s
  | Some (i, s) =>
      match objects s !! i with
      | None => s
      | Some t =>
          let t := MkTorrent (Title tor) (Category tor) (Poster tor) (Data tor) (Spec_ t) (Stat t) (Timestamp tor) (Size tor) (Torrent_ t) (cache t)
                     (expiredTime t) (IsPriority t) in
          (got_begin i (set_object i t s)).2
      end
  end.
(** The torrent and whether it is to be activated. *)
Definition GetTorrent (hash : string) (now : Z) (s : server) : option Torrent * bool * server :=
  match torrents s !! hash with
  | Some i => let s := touch i now s in (objects s !! i, false, s)
  | None => match GetTorrentDB hash s with Some t => (Some t, true, s) | None => (None, false, s) end
  end.

Definition RemTorrent (hash : string) (s : server) : option server :=
  if ReadOnly cfg then Some s else r ← RemoveTorrent hash s; Some (RemTorrentDB hash r.2).
Definition DropTorrent (hash : string) (s : server) : option server := snd <$> RemoveTorrent hash s.

(** A torrent that is only in the database comes without a torrent of the client,
    so that [GotInfo] fails at once and its name is not known; the flag says that
    it is to be activated. *)
Definition SetTorrent (hash title poster category data : string) (now : Z) (s : server) : bool * server :=
  let torrDb := GetTorrentDB hash s in
  let spawn := bool_decide (title = "") && bool_decide (torrents s !! hash = None) && match torrDb with Some _ => true | None => false end in
  let '(title, s) :=
    match torrents s !! hash with
    | Some i =>
        match objects s !! i with
        | Some t =>
            let title := if bool_decide (title = "") then from_option iName "" (torrent_info t s) else title in
            (title, set_object i (set_texts title category poster (if bool_decide (data = "") then Data t else data) t) s)
        | None => (title, s)
        end
    | None => (title, s)
    end in
  (spawn,
   match torrDb with
   | Some t =>
       let t := set_texts title category poster (if bool_decide (data = "") then Data t else data) t in
       let dat := if bool_decide (Data t = "") then files_json None else Data t in
       set_db (<[Hash t := Settings.MkTorrent _ (Spec_ t) title category (if CheckImgUrl poster then poster else "") dat (Timestamp t) (Size t)]> (db s)) s
   | None => s
   end).

Context `{HM : !MapRange} `{HS : !SliceSort}.

Definition newest (a b : Torrent) : bool :=
  if negb (Timestamp a =? Timestamp b) then Timestamp b <? Timestamp a else String.ltb (Title b) (Title a).

Definition ListTorrents (s : server) : gmap string Torrent := omap (λ i, objects s !! i) (torrents s).
Definition ListTorrentsDB (s : server) : gmap string Torrent := map_imap (λ h _, GetTorrentDB h s) (db s).
Definition ListTorrent (now : Z) (s : server) : list Torrent :=
  sort_slice newest (range_order now (map_to_list (ListTorrents s ∪ ListTorrentsDB s)).*2).
Definition ListActiveTorrent (now : Z) (s : server) : list Torrent :=
  sort_slice newest (range_order now (map_to_list (ListTorrents s)).*2).
End server.

(** ** Table and client agree *)

(** The torrent [i] of the table under [h] is that of the client, which is open;
    the metadata in its specification are those of the client. *)
Definition alive (s : server) (h : string) (i : tid) : Prop :=
  ∃ t c x, objects s !! i = Some t ∧ Hash t = h ∧ Stat t ≠ TorrentClosed ∧ Stat t ≠ TorrentInDB ∧ Torrent_ t = Some c ∧
    client s !! h = Some c ∧ ctorrents s !! c = Some x ∧ cHash x = h ∧ Closed x = false ∧
    ∀ b, InfoBytes (Spec_ t) = Some b → Info x = Some b.

Record server_ok (s : server) : Prop := {
  so_table : ∀ h i, torrents s !! h = Some i → alive s h i;
  so_client : ∀ h c, client s !! h = Some c → is_Some (torrents s !! h);
  so_objects : ∀ i t c, objects s !! i = Some t → Torrent_ t = Some c → torrents s !! Hash t = Some i;
}.

Definition new_server : server := MkServer ∅ ∅ true ∅ ∅ ∅ ∅.

Lemma new_server_ok : server_ok new_server.
Proof. by split. Qed.

(** Changes that do not matter. *)
Lemma set_db_ok d s : server_ok s → server_ok (set_db d s).
Proof. by intros [? ? ?]. Qed.
Lemma set_saves_ok m s : server_ok s → server_ok (set_saves m s).
Proof. by intros [? ? ?]. Qed.

(** A torrent changes but for its hash and its torrent of the client. *)
Lemma set_object_ok i t t' s :
  server_ok s → objects s !! i = Some t → Hash t' = Hash t → Torrent_ t' = Torrent_ t →
  (torrents s !! Hash t = Some i → Stat t' ≠ TorrentClosed ∧ Stat t' ≠ TorrentInDB) →
  (∀ b, InfoBytes (Spec_ t') = Some b → InfoBytes (Spec_ t) = Some b ∨ torrent_info t s = Some b) →
  server_ok (set_object i t' s).
Proof.
  intros [Ht Hc Ho] Hi Hh Hk Hst Hib. split.
  - intros h j Hj. destruct (Ht h j Hj) as (u & c & x & H1 & H2 & H3 & H4 & H5 & H6 & H7 & H8 & H9 & H10). destruct (decide (j = i)) as [->|Hne].
    + rewrite Hi in H1. injection H1 as <-. exists t', c, x. cbn. rewrite lookup_insert_eq. rewrite <-H2 in Hj. destruct (Hst Hj) as [Hs1 Hs2].
      split_and!; try done; [congruence|congruence|]. intros b Hb. destruct (Hib b Hb) as [|E]; [auto|]. unfold torrent_info in E. rewrite H5 in E. cbn in E. by rewrite H7 in E.
    + exists u, c, x. cbn. rewrite lookup_insert_ne by done. done.
  - done.
  - intros j u c. cbn. intros [[<- <-]|[Hne Hj]]%lookup_insert_Some; [|by apply (Ho j u c)]. rewrite Hh, Hk. by apply Ho.
Qed.

(** The client learns metadata and peers. *)
Lemma learn_ok c f s :
  server_ok s → (∀ x, cHash (f x) = cHash x ∧ Closed (f x) = Closed x ∧ ∀ b, Info x = Some b → Info (f x) = Some b) →
  server_ok (set_client (client s) (alter f c (ctorrents s)) s).
Proof.
  intros [Ht Hc Ho] Hf. split; [|done|done]. intros h j Hj. destruct (Ht h j Hj) as (u & d & x & H1 & H2 & H3 & H4 & H5 & H6 & H7 & H8 & H9 & H10).
  destruct (decide (d = c)) as [->|Hne].
  - destruct (Hf x) as (F1 & F2 & F3). exists u, c, (f x). cbn. rewrite lookup_alter_eq, H7. split_and!; try done; [congruence|congruence|]. auto.
  - exists u, d, x. cbn. rewrite lookup_alter_ne by done. done.
Qed.

Section ok.
Context (cfg : BTSets) (defTrackers fileTrackers : list string) (CheckImgUrl : string → bool) (files_json : option info → string).
Notation NewTorrent := (NewTorrent cfg defTrackers fileTrackers).
Notation saveTorrentToDB := (saveTorrentToDB CheckImgUrl files_json).

(** A torrent of the table keeps its place, or a new one is added. *)
Lemma NewTorrent_ok spec now s i s' :
  server_ok s → NewTorrent spec now s = Some (i, s') → server_ok s' ∧ torrents s' !! InfoHash spec = Some i ∧ db s' = db s.
Proof.
  intros Hs. unfold TorrServer.NewTorrent. destruct (connected s); [|done]. cbn [negb]. set (sp := retrack _ _ _ spec).
  change (InfoHash spec) with (InfoHash sp). unfold AddTorrentSpec. destruct (client s !! InfoHash sp) as [c|] eqn:Hc.
  - unfold new_register. cbn [set_client torrents]. destruct (so_client s Hs _ _ Hc) as [j Hj]. rewrite Hj. intros [= <- <-].
    split; [|done]. apply learn_ok; [done|]. intros x. split_and!; [done|done|]. by intros b ->.
  - set (c := fresh (dom (ctorrents s))). assert (ctorrents s !! c = None) as Hcf by (apply not_elem_of_dom, is_fresh). clearbody c.
    assert (torrents s !! InfoHash sp = None) as Hno.
    { destruct (torrents s !! InfoHash sp) as [j|] eqn:Hj; [|done]. destruct (so_table s Hs _ _ Hj) as (t & c' & x & _ & _ & _ & _ & _ & H & _). congruence. }
    unfold new_register. cbn [set_client torrents]. rewrite Hno. intros [= <- <-]. cbn [set_object set_table torrents db].
    set (j := fresh (dom (objects s))). assert (objects s !! j = None) as Hjf by (apply not_elem_of_dom, is_fresh). clearbody j.
    set (t := AddExpiredTime _ _ _). destruct Hs as [Ht Hcl Ho]. split; [|by rewrite lookup_insert_eq]. split.
    + intros h k. cbn. intros [[<- <-]|[Hne Hk]]%lookup_insert_Some.
      * exists t, c, (MkC (InfoHash sp) (InfoBytes sp) [] false). cbn. rewrite !lookup_insert_eq. done.
      * destruct (Ht h k Hk) as (u & d & x & H1 & H2 & H3 & H4 & H5 & H6 & H7 & H8 & H9 & H10). 
        assert (j ≠ k) by congruence. assert (c ≠ d) by congruence. exists u, d, x. cbn. rewrite !lookup_insert_ne by done. done.
    + intros h d. cbn. intros [[<- _]|[Hne Hd]]%lookup_insert_Some; [by rewrite lookup_insert_eq|]. rewrite lookup_insert_ne by done. by eapply Hcl.
    + intros k u d. cbn. intros [[<- <-]|[Hne Hk]]%lookup_insert_Some Hd; [apply lookup_insert_eq|].
      pose proof (Ho k u d Hk Hd) as Hk'. rewrite lookup_insert_ne; [done|]. intros E. change (InfoHash sp = Hash u) in E. rewrite E in Hno. congruence.
Qed.

(** Closing a torrent of the table does not panic. *)
Lemma Close_ok i t s :
  server_ok s → objects s !! i = Some t → torrents s !! Hash t = Some i →
  ∃ b s', Close cfg i s = Some (b, s') ∧ server_ok s' ∧ db s' = db s ∧ connected s' = connected s ∧
    (b = true → torrents s' = delete (Hash t) (torrents s) ∧ client s' = delete (Hash t) (client s)) ∧ (b = false → s' = s) ∧
    (ReadOnly cfg = false → b = true).
Proof.
  intros Hs Hi Hin. unfold Close. rewrite Hi. destruct (so_table s Hs _ _ Hin) as (u & c & x & H1 & H2 & H3 & H4 & H5 & H6 & H7 & H8 & H9 & H10).
  rewrite Hi in H1. injection H1 as <-. destruct (ReadOnly cfg && _) eqn:Hr.
  { exists false, s. split_and!; try done. intros Hro. by rewrite Hro in Hr. }
  unfold drop. cbn [set_table set_object objects]. rewrite lookup_insert_eq. cbn [set_Stat Torrent_]. rewrite H5. unfold Drop. cbn [ctorrents set_table set_object client].
  rewrite H7. cbn [mbind option_bind]. rewrite H8, H6. cbn [mbind option_bind].
  eexists true, _. split; [done|]. cbn [set_object set_client set_table db connected torrents client]. split_and!; try done.
  destruct Hs as [Ht Hcl Ho]. split.
  - intros h j. cbn. intros [Hne Hj]%lookup_delete_Some. destruct (Ht h j Hj) as (u & d & y & G1 & G2 & G3 & G4 & G5 & G6 & G7 & G8 & G9 & G10).
    exists u, d, y. cbn. rewrite !lookup_insert_ne by congruence. rewrite lookup_delete_ne by congruence. rewrite lookup_alter_ne by congruence. done.
  - intros h d. cbn. intros [Hne Hd]%lookup_delete_Some. rewrite lookup_delete_ne by done. by eapply Hcl.
  - intros j u d. cbn. intros [[<- <-]|[Hne Hj]]%lookup_insert_Some; [done|]. rewrite lookup_insert_ne in Hj by done. intros Hd.
    pose proof (Ho j u d Hj Hd) as Hj'. rewrite lookup_delete_ne; [done|]. intros E. change (Hash t = Hash u) in E. rewrite E in Hin. congruence.
Qed.

Lemma RemoveTorrent_ok h s :
  server_ok s → ∃ b s', RemoveTorrent cfg h s = Some (b, s') ∧ server_ok s' ∧ db s' = db s ∧ connected s' = connected s ∧
    (is_Some (torrents s !! h) → ReadOnly cfg = false → torrents s' = delete h (torrents s) ∧ client s' = delete h (client s)).
Proof.
  intros Hs. unfold RemoveTorrent. destruct (torrents s !! h) as [i|] eqn:Hi.
  - destruct (so_table s Hs _ _ Hi) as (t & c & x & H1 & H2 & _). rewrite <-H2 in Hi.
    destruct (Close_ok i t s Hs H1 Hi) as (b & s' & E & Hs' & Hd & Hcn & Hb & _ & Hro). exists b, s'. split_and!; try done. intros _ Hr. rewrite <-H2. auto.
  - exists false, s. split_and!; try done.
Qed.

Lemma saveTorrentToDB_ok i s : server_ok s → server_ok (saveTorrentToDB i s) ∧ torrents (saveTorrentToDB i s) = torrents s.
Proof.
  intros Hs. unfold TorrServer.saveTorrentToDB. destruct (objects s !! i) as [t|] eqn:Hi; [|done]. unfold AddTorrentDB. cbn [set_object objects]. split; [|done].
  apply set_db_ok. set (t1 := set_Spec _ t).
  assert (server_ok (set_object i t1 s)) as H1.
  { eapply set_object_ok; [done|exact Hi|done|done| |].
    - intros Hin. destruct (so_table s Hs _ _ Hin) as (u & c & x & G1 & G2 & G3 & G4 & _). rewrite Hi in G1. by injection G1 as <-.
    - intros b. cbn. destruct (InfoBytes (Spec_ t)); [by left|by right]. }
  eapply set_object_ok; [exact H1|cbn; apply lookup_insert_eq|done|done| |by left].
  cbn. intros Hin. destruct (so_table s Hs _ _ Hin) as (u & c & x & G1 & G2 & G3 & G4 & _). rewrite Hi in G1. by injection G1 as <-.
Qed.
End ok.

(** ** The life of the server *)

Section life.
Context (cfg : BTSets) (defTrackers fileTrackers : list string) (CheckImgUrl : string → bool) (files_json : option info → string).
Notation NewTorrent := (NewTorrent cfg defTrackers fileTrackers).
Notation saveTorrentToDB := (saveTorrentToDB CheckImgUrl files_json).
Notation UpdateStats := (UpdateStats cfg CheckImgUrl files_json).
Notation AddTorrent := (AddTorrent cfg defTrackers fileTrackers).
Notation activate := (activate cfg defTrackers fileTrackers).

(** A torrent of the table. *)
Definition listed (i : tid) (s : server) : Prop := ∃ t, objects s !! i = Some t ∧ torrents s !! Hash t = Some i.

(** What may happen; an operation on a torrent comes as a function that may
    panic. Torrents whose waiting fails or that the ticker looks at are still in
    the table. *)
Inductive operation (s : server) : (server → option server) → Prop :=
  | op_add spec title poster data category now : operation s (λ s, Some (default s (snd <$> AddTorrent spec title poster data category now s)))
  | op_activate h now : operation s (λ s, Some (match GetTorrentDB h s with Some t => activate t now s | None => s end))
  | op_get h now : operation s (λ s, Some (GetTorrent cfg h now s).2)
  | op_got_begin i : operation s (λ s, Some (got_begin i s).2)
  | op_got_end ok i now : listed i s → operation s (got_end cfg ok i now)
  | op_open i : operation s (λ s, Some (default s (NewReader i s)))
  | op_close i now : operation s (λ s, Some (CloseReader cfg i now s))
  | op_priority b i : operation s (λ s, Some (match objects s !! i with Some t => set_object i (set_Priority b t) s | None => s end))
  | op_save i now : operation s (λ s, Some (SaveTorrentToDB CheckImgUrl files_json i now s))
  | op_tick i now : listed i s → operation s (UpdateStats i now)
  | op_set hash title poster category data now : operation s (λ s, Some (SetTorrent CheckImgUrl files_json hash title poster category data now s).2)
  | op_remove h : operation s (RemTorrent cfg h)
  | op_drop h : operation s (DropTorrent cfg h)
  | op_learn c x peers : operation s (λ s, Some (set_client (client s) (alter (λ y, MkC (cHash y) (match Info y with Some b => Some b | None => x end) peers (Closed y)) c (ctorrents s)) s)).

Definition server_step (s s' : server) : Prop := ∃ f, operation s f ∧ f s = Some s'.

(** A torrent of the table is neither closed nor one of the database. *)
Lemma listed_stat i t s : server_ok s → objects s !! i = Some t → torrents s !! Hash t = Some i → Stat t ≠ TorrentClosed ∧ Stat t ≠ TorrentInDB.
Proof. intros Hs Hi Hin. destruct (so_table s Hs _ _ Hin) as (u & c & x & G1 & G2 & G3 & G4 & _). rewrite Hi in G1. by injection G1 as <-. Qed.

(** Changing a torrent but for its hash, specification and torrent of the client,
    and without closing it. *)
Lemma change_ok i t t' s :
  server_ok s → objects s !! i = Some t → Spec_ t' = Spec_ t → Torrent_ t' = Torrent_ t →
  (Stat t' = Stat t ∨ Stat t' ≠ TorrentClosed ∧ Stat t' ≠ TorrentInDB) → server_ok (set_object i t' s).
Proof.
  intros Hs Hi Hsp Hk Hst. eapply set_object_ok; [done|exact Hi|unfold Hash; by rewrite Hsp|done| |rewrite Hsp; by left].
  intros Hin. destruct Hst as [->|]; [|done]. by eapply listed_stat.
Qed.

Lemma activate_ok t now s : server_ok s → server_ok (activate t now s).
Proof.
  intros Hs. unfold TorrServer.activate. destruct (NewTorrent (Spec_ t) now s) as [[i s1]|] eqn:E; [|done].
  destruct (NewTorrent_ok _ _ _ _ _ _ _ _ Hs E) as (Hs1 & _). destruct (objects s1 !! i) as [u|] eqn:Hi; [|done].
  set (u' := MkTorrent _ _ _ _ _ _ _ _ _ _ _ _). assert (server_ok (set_object i u' s1)) as H2 by (eapply change_ok; [done|exact Hi|done|done|by left]).
  unfold got_begin. cbn [set_object objects]. rewrite lookup_insert_eq. destruct (bool_decide _); [done|]. destruct (bool_decide _); [done|].
  eapply change_ok; [exact H2|apply lookup_insert_eq|done|done|]. by right.
Qed.

Lemma operation_ok f s : server_ok s → operation s f → ∃ s', f s = Some s' ∧ server_ok s'.
Proof.
  intros Hs [spec title poster data category now|h now|h now|i|ok i now Hl|i|i now|b i|i now|i now Hl|hash title poster category data now|h|h|c x peers].
  - eexists. split; [done|]. unfold TorrServer.AddTorrent.
    destruct (NewTorrent _ now s) as [[i s1]|] eqn:E; cbn; [|done]. destruct (NewTorrent_ok _ _ _ _ _ _ _ _ Hs E) as (Hs1 & _).
    destruct (objects s1 !! i) as [u|] eqn:Hi; cbn; [|done]. eapply change_ok; [done|exact Hi|done|done|by left].
  - eexists. split; [done|]. destruct (GetTorrentDB h s); [by apply activate_ok|done].
  - eexists. split; [done|]. unfold GetTorrent, touch. destruct (torrents s !! h) as [i|]; [|by destruct (GetTorrentDB h s)].
    destruct (objects s !! i) as [t|] eqn:Hi; cbn; [|done]. eapply change_ok; [done|exact Hi|done|done|by left].
  - eexists. split; [done|]. unfold got_begin. destruct (objects s !! i) as [t|] eqn:Hi; [|done]. destruct (bool_decide _); [done|]. destruct (bool_decide _); [done|].
    eapply change_ok; [done|exact Hi|done|done|]. by right.
  - destruct Hl as (t & Hi & Hin). unfold got_end. rewrite Hi. destruct ok.
    + eexists. split; [done|]. eapply change_ok; [done|exact Hi|done|done|]. by right.
    + destruct (Close_ok cfg i t s Hs Hi Hin) as (b & s' & -> & Hs' & _). by exists s'.
  - eexists. split; [done|]. unfold NewReader. destruct (objects s !! i) as [t|] eqn:Hi; cbn; [|done]. destruct (cache t); cbn; [|done].
    destruct (bool_decide _); cbn; [done|]. eapply change_ok; [done|exact Hi|done|done|by left].
  - eexists. split; [done|]. unfold CloseReader. destruct (objects s !! i) as [t|] eqn:Hi; [|done]. eapply change_ok; [done|exact Hi|done|done|by left].
  - eexists. split; [done|]. destruct (objects s !! i) as [t|] eqn:Hi; [|done]. eapply change_ok; [done|exact Hi|done|done|by left].
  - eexists. split; [done|]. unfold SaveTorrentToDB. destruct (objects s !! i) as [t|] eqn:Hi; [|done]. destruct (match lastSaveTimes s !! _ with Some _ => _ | None => _ end); [done|].
    apply saveTorrentToDB_ok. by apply set_saves_ok.
  - destruct Hl as (t & Hi & Hin). unfold TorrServer.UpdateStats. rewrite Hi. destruct (expired now t); [|by exists s].
    destruct (saveTorrentToDB_ok CheckImgUrl files_json i s Hs) as [Hs1 _]. destruct (RemoveTorrent_ok cfg (Hash t) _ Hs1) as (b & s' & -> & Hs' & _). by exists s'.
  - eexists. split; [done|]. unfold SetTorrent.
    destruct (torrents s !! hash) as [i|]; [destruct (objects s !! i) as [t|] eqn:Hi|]; cbn [snd];
      (destruct (GetTorrentDB hash s); [apply set_db_ok|]); try done; (eapply change_ok; [done|exact Hi|done|done|by left]).
  - unfold RemTorrent. destruct (ReadOnly cfg); [by exists s|]. destruct (RemoveTorrent_ok cfg h s Hs) as (b & s' & -> & Hs' & _). cbn.
    eexists. split; [done|]. by apply set_db_ok.
  - unfold DropTorrent. destruct (RemoveTorrent_ok cfg h s Hs) as (b & s' & -> & Hs' & _). cbn. by exists s'.
  - eexists. split; [done|]. apply learn_ok; [done|]. intros y. split_and!; [done|done|]. by intros b ->.
Qed.

Lemma server_steps_ok s s' : rtc server_step s s' → server_ok s → server_ok s'.
Proof.
  induction 1 as [|s s1 s2 (f & Hf & E) _ IH]; [done|]. intros Hs. apply IH. destruct (operation_ok f s Hs Hf) as (s' & E' & Hs'). congruence.
Qed.
End life.


(** ** Expiry and back *)

Section back.
Context (cfg : BTSets) (defTrackers fileTrackers : list string) (CheckImgUrl : string → bool) (files_json : option info → string).

(** What is kept of a torrent. *)
Definition kept (x : option info) (t : Torrent) (u : Torrent) : Prop :=
  Title u = Title t ∧ Category u = Category t ∧ Timestamp u = Timestamp t ∧
  Poster u = (if CheckImgUrl (Poster t) then Poster t else "") ∧
  Data u = (if bool_decide (Data t = "") then files_json x else Data t) ∧
  Size u = (if Size t =? 0 then from_option iLength 0 x else Size t).

Lemma saved_row i t x s :
  server_ok s → objects s !! i = Some t → torrents s !! Hash t = Some i → torrent_info t s = x →
  ∃ u, GetTorrentDB (Hash t) (saveTorrentToDB CheckImgUrl files_json i s) = Some u ∧ kept x t u ∧ InfoHash (Spec_ u) = Hash t ∧ InfoBytes (Spec_ u) = x.
Proof.
  intros Hs Hi Hin Hx. destruct (so_table s Hs _ _ Hin) as (t0 & c & y & G1 & _ & _ & _ & G5 & _ & G7 & _ & _ & G10). rewrite Hi in G1. injection G1 as <-.
  assert (match InfoBytes (Spec_ t) with Some b => Some b | None => torrent_info t s end = x) as Eib.
  { destruct (InfoBytes (Spec_ t)) as [b|]; [|done]. rewrite <-Hx. unfold torrent_info. rewrite G5. cbn. rewrite G7. cbn. symmetry. by apply G10. }
  unfold saveTorrentToDB. rewrite Hi. rewrite Eib. set (sp := MkSpec _ _ _ _). unfold AddTorrentDB, GetTorrentDB.
  cbn [set_db db set_object]. change (Hash (set_Spec sp t)) with (Hash t). rewrite lookup_insert_eq. cbn [mbind option_bind].
  assert (torrent_info (set_Spec sp t) (set_object i (set_Spec sp t) s) = x) as -> by exact Hx. eexists. split; [done|].
  unfold kept. cbn. rewrite G5. rewrite (bool_decide_eq_true_2 (Some c ≠ None)) by done. by rewrite andb_true_r.
Qed.

(** Activating a torrent that is not active. *)
Lemma activate_new u now s :
  connected s = true → torrents s !! InfoHash (Spec_ u) = None → client s !! InfoHash (Spec_ u) = None →
  ∃ j t, torrents (activate cfg defTrackers fileTrackers u now s) !! InfoHash (Spec_ u) = Some j ∧
    objects (activate cfg defTrackers fileTrackers u now s) !! j = Some t ∧
    Title t = Title u ∧ Category t = Category u ∧ Poster t = Poster u ∧ Data t = Data u ∧ Timestamp t = Timestamp u ∧ Size t = Size u ∧
    Stat t = TorrentGettingInfo ∧ torrent_info t (activate cfg defTrackers fileTrackers u now s) = InfoBytes (Spec_ u).
Proof.
  intros Hc Ht Hcl. unfold activate, NewTorrent. rewrite Hc. cbn [negb]. set (sp := retrack _ _ _ (Spec_ u)). unfold AddTorrentSpec.
  change (InfoHash sp) with (InfoHash (Spec_ u)). rewrite Hcl. unfold new_register. cbn [set_client torrents]. change (InfoHash sp) with (InfoHash (Spec_ u)). rewrite Ht.
  set (c := fresh (dom (ctorrents s))). cbn [set_client objects]. set (j := fresh (dom (objects s))). cbn [set_table set_object objects].
  rewrite lookup_insert_eq. unfold got_begin. cbn [set_table set_object objects]. rewrite lookup_insert_eq. cbn [Stat AddExpiredTime].
  rewrite !bool_decide_eq_false_2 by done. cbn [snd]. eexists j, _. cbn. rewrite !lookup_insert_eq. split; [done|]. split; [done|]. split_and!; try done.
  unfold torrent_info. cbn. by rewrite lookup_insert_eq.
Qed.
End back.

(** C29: A torrent that expires comes back as it was. When the ticker closes an idle
    torrent of the table, the torrent and its client torrent are gone, but it has
    been saved; and when it is activated again later, it has the same title,
    category, time, data and size, the same poster if that is an image, and its
    metadata are known at once. *)
Theorem expired_torrent_comes_back cfg defTrackers fileTrackers CheckImgUrl files_json s i t now now' :
  rtc (server_step cfg defTrackers fileTrackers CheckImgUrl files_json) new_server s →
  ReadOnly cfg = false → objects s !! i = Some t → torrents s !! Hash t = Some i → expired now t = true →
  ∃ s1, UpdateStats cfg CheckImgUrl files_json i now s = Some s1 ∧ torrents s1 = delete (Hash t) (torrents s) ∧ client s1 = delete (Hash t) (client s) ∧
  ∃ u, GetTorrentDB (Hash t) s1 = Some u ∧ kept CheckImgUrl files_json (torrent_info t s) t u ∧
  (connected s1 = true → let s2 := activate cfg defTrackers fileTrackers u now' s1 in
   ∃ j t2, torrents s2 !! Hash t = Some j ∧ objects s2 !! j = Some t2 ∧ kept CheckImgUrl files_json (torrent_info t s) t t2 ∧
     torrent_info t2 s2 = torrent_info t s).
Proof.
  intros Hr Hro Hi Hin Hex. pose proof (server_steps_ok _ _ _ _ _ _ _ Hr new_server_ok) as Hs.
  destruct (saved_row CheckImgUrl files_json i t _ s Hs Hi Hin eq_refl) as (u & Hu & Hk & Hh & Hb).
  destruct (saveTorrentToDB_ok CheckImgUrl files_json i s Hs) as [Hs1 Et]. unfold UpdateStats. rewrite Hi, Hex.
  destruct (RemoveTorrent_ok cfg (Hash t) _ Hs1) as (b & s1 & -> & _ & Ed & Ec & Hdel). cbn [fmap option_fmap option_map snd].
  destruct Hdel as [E1 E2]; [rewrite Et; by eexists|done|]. rewrite Et in E1.
  assert (client (saveTorrentToDB CheckImgUrl files_json i s) = client s) as Ecl by (unfold saveTorrentToDB; by rewrite Hi).
  rewrite Ecl in E2. exists s1. split; [done|]. split; [done|]. split; [done|].
  assert (GetTorrentDB (Hash t) s1 = Some u) as Hu1 by (unfold GetTorrentDB in *; by rewrite Ed). exists u. split; [done|]. split; [done|].
  intros Hcon. cbv zeta. destruct (activate_new cfg defTrackers fileTrackers u now' s1) as (j & t2 & H1 & H2 & H3 & H4 & H5 & H6 & H7 & H8 & _ & H10).
  - done.
  - by rewrite Hh, E1, lookup_delete_eq.
  - by rewrite Hh, E2, lookup_delete_eq.
  - exists j, t2. rewrite Hh in H1. split; [done|]. split; [done|]. split; [|by rewrite H10].
    destruct Hk as (K1 & K2 & K3 & K4 & K5 & K6). unfold kept. split_and!; congruence.
Qed.

(** ** The list of torrents *)

(** The list has every active torrent, and from the database the others. *)
Theorem ListTorrent_complete `{!MapRange} `{!SliceSort} now s t :
  (∀ h i, torrents s !! h = Some i → is_Some (objects s !! i)) →
  t ∈ ListTorrent now s ↔ ∃ h, PeekTorrent h s = Some t.
Proof.
  intros Hobj. unfold ListTorrent. rewrite sort_slice_perm, range_order_perm, list_elem_of_fmap.
  assert (∀ h t, (ListTorrents s ∪ ListTorrentsDB s) !! h = Some t ↔ PeekTorrent h s = Some t) as Hl.
  { intros h u. unfold PeekTorrent. rewrite lookup_union_Some_raw. unfold ListTorrents, ListTorrentsDB. rewrite lookup_omap, map_lookup_imap.
    destruct (torrents s !! h) as [i|] eqn:Hi; cbn.
    - destruct (Hobj h i Hi) as [v Hv]. rewrite Hv. split; [intros [Hx|[Hx _]]; congruence|by left].
    - unfold GetTorrentDB. destruct (db s !! h); cbn; split; [intros [Hx|[_ Hx]]; congruence|by right|intros [Hx|[_ Hx]]; congruence|done]. }
  split.
  - intros ([h u] & -> & Hin%elem_of_map_to_list). exists h. by apply Hl.
  - intros (h & Hh). exists (h, t). split; [done|]. by apply elem_of_map_to_list, Hl.
Qed.

(** ** Witnesses *)

Module Sample.
Definition cfg : BTSets := MkSets 30 1 false.
Definition h : string := "0123456789abcdef0123456789abcdef01234567".
Definition spec : TorrentSpec := MkSpec h [["udp://own"]] None [].
Definition film : info := MkInfo "Film" 1000 [("film.mkv", 1000)].
Definition files (x : option info) : string := match x with Some i => "files of " +:+ iName i | None => "no files" end.
Definition image (s : string) : bool := bool_decide (s = "http://poster").
Definition step := server_step cfg ["udp://def"] [] image files.

(** The torrent of a film is added, waits for its metadata, gets them and works. *)
Definition added : server := default new_server (snd <$> AddTorrent cfg ["udp://def"] [] spec "Film" "http://poster" "" "movies" 0 new_server).
Definition waiting : server := (got_begin 0%nat added).2.
Definition learned : server :=
  set_client (client waiting) (alter (λ y, MkC (cHash y) (match Info y with Some b => Some b | None => Some film end) ["1.2.3.4:5"] (Closed y)) 0%nat (ctorrents waiting)) waiting.
Definition working : server := default learned (got_end cfg true 0%nat Second learned).

Lemma working_reached : rtc step new_server working.
Proof.
  apply (rtc_l _ _ added). { eexists. split; [apply (op_add cfg ["udp://def"] [] image files new_server spec "Film" "http://poster" "" "movies" 0)|reflexivity]. }
  apply (rtc_l _ _ waiting). { eexists. split; [apply (op_got_begin cfg ["udp://def"] [] image files added 0%nat)|reflexivity]. }
  apply (rtc_l _ _ learned). { eexists. split; [apply (op_learn cfg ["udp://def"] [] image files waiting 0%nat (Some film) ["1.2.3.4:5"])|reflexivity]. }
  apply rtc_once. eexists. split; [apply (op_got_end cfg ["udp://def"] [] image files learned true 0%nat Second)|vm_compute; reflexivity].
  destruct (objects learned !! 0%nat) as [t|] eqn:E; [|vm_compute in E; discriminate E]. exists t. split; [done|].
  assert ((Hash <$> objects learned !! 0%nat) = Some h) as Hh by (vm_compute; reflexivity). rewrite E in Hh. injection Hh as ->. vm_compute. reflexivity.
Qed.
End Sample.


Lemma expired_torrent_witness :
  ∃ s1 u, UpdateStats Sample.cfg Sample.image Sample.files 0%nat (100 * Second) Sample.working = Some s1 ∧
    GetTorrentDB Sample.h s1 = Some u ∧ Title u = "Film" ∧ Poster u = "http://poster" ∧ Data u = "files of Film" ∧ Size u = 1000.
Proof.
  assert ((λ t, (Hash t, Title t, Poster t, Data t, Size t, torrent_info t Sample.working, expired (100 * Second) t)) <$> objects Sample.working !! 0%nat =
    Some (Sample.h, "Film", "http://poster", "", 0, Some Sample.film, true)) as Ht by (vm_compute; reflexivity).
  destruct (objects Sample.working !! 0%nat) as [t|] eqn:E; [|discriminate Ht]. cbn [fmap option_fmap option_map] in Ht.
  injection Ht as H1 H2 H3 H4 H5 H6 H7.
  destruct (expired_torrent_comes_back Sample.cfg ["udp://def"] [] Sample.image Sample.files Sample.working 0%nat t (100 * Second) (200 * Second))
    as (s1 & Hu & _ & _ & u & Hd & (K1 & K2 & K3 & K4 & K5 & K6) & _);
    [exact Sample.working_reached|reflexivity|exact E|rewrite H1; vm_compute; reflexivity|exact H7|].
  rewrite H1 in Hd. rewrite H2 in K1. rewrite H3 in K4. rewrite H4, H6 in K5. rewrite H5, H6 in K6. exists s1, u. split; [exact Hu|]. split; [exact Hd|].
  split; [exact K1|]. split; [exact K4|]. split; [exact K5|exact K6].
Defined.

(** ** What goes wrong *)

(** A torrent that was removed while it waited for its metadata takes the entry of
    the one that was added after it with it: the new torrent is still open but in
    no table, so it is never closed. *)
Lemma stale_waiting_takes_entry :
  let removed := default Sample.waiting (DropTorrent Sample.cfg Sample.h Sample.waiting) in
  let again := default removed (snd <$> AddTorrent Sample.cfg ["udp://def"] [] Sample.spec "Film" "" "" "" Second removed) in
  let s := default again (got_end Sample.cfg false 0%nat (2 * Second) again) in
  (torrents again !! Sample.h, torrents s !! Sample.h, client s !! Sample.h, Stat <$> objects s !! 1%nat, Closed <$> ctorrents s !! 1%nat) =
  (Some 1%nat, None, Some 1%nat, Some TorrentAdded, Some false).
Proof. vm_compute. reflexivity. Qed.

(** [NewTorrent] takes the torrent of the client before the lock of the table. If
    the torrent is closed in between, the new entry has a dropped torrent, and
    closing it panics. *)
Lemma late_register_panics :
  let '(c, s) := AddTorrentSpec Sample.spec Sample.working in
  let s := default s (DropTorrent Sample.cfg Sample.h s) in
  let s := (new_register Sample.cfg Sample.spec c Second s).2 in
  (Closed <$> ctorrents s !! c, DropTorrent Sample.cfg Sample.h s) = (Some true, None).
Proof. vm_compute. reflexivity. Qed.

(** Every activation from the database adds the default trackers once more. *)
Lemma trackers_grow :
  let back s := match GetTorrentDB Sample.h s with Some t => activate Sample.cfg ["udp://def"] [] t 0 s | None => s end in
  let expire i s := default s (DropTorrent Sample.cfg Sample.h (saveTorrentToDB Sample.image Sample.files i s)) in
  let s1 := expire 0%nat Sample.working in
  let s2 := expire 1%nat (back s1) in
  let s3 := expire 2%nat (back s2) in
  map (λ s, length (Trackers (Settings.TorrentSpec (default (Settings.MkTorrent _ Sample.spec "" "" "" "" 0 0) (db s !! Sample.h))))) [s1; s2; s3] = [2; 3; 4]%nat.
Proof. vm_compute. reflexivity. Qed.

(** A torrent that is only in the database loses its title if it is set without one. *)
Lemma empty_title_erases :
  let s := default Sample.working (DropTorrent Sample.cfg Sample.h (saveTorrentToDB Sample.image Sample.files 0%nat Sample.working)) in
  (Settings.Title _ <$> db s !! Sample.h,
   Settings.Title _ <$> db (SetTorrent Sample.image Sample.files Sample.h "" "http://poster" "movies" "" 0 s).2 !! Sample.h) = (Some "Film", Some "").
Proof. vm_compute. reflexivity. Qed.
