(* ===== verification/Requests.v ===== *)
(** * Small guards at the edge (scandetector.go, demand_handler.go, errors.go)

    The detector of library scans, which keeps the pumps back while a media
    server opens many files; the gate before the first read; the jobs of the
    on-demand sync; and the table from errors to error numbers. *)

From S2P Require Import Prelude Float64.

(** ** Scan detection *)

Module Scan.

Record ScanDetector := MkDetector {
  openCount : Z; totalReadBytes : Z; windowStart : Z; windowSize : Z; openThreshold : Z; scanMode : bool;
}.

Definition newScanDetector (threshold window now : Z) : ScanDetector := MkDetector 0 0 now window threshold false.

Definition checkWindow (now : Z) (sd : ScanDetector) : ScanDetector :=
  if windowSize sd <? now - windowStart sd then MkDetector 0 0 now (windowSize sd) (openThreshold sd) false
  else
    let opens := openCount sd in
    let mode := if openThreshold sd <=? int64 opens then
                  if f64_ltb (f64_div (f64_of_Z (totalReadBytes sd)) (f64_of_Z opens)) (f64_of_Z (2 ^ 20)) then true else scanMode sd
                else scanMode sd in
    MkDetector opens (totalReadBytes sd) (windowStart sd) (windowSize sd) (openThreshold sd) mode.

Definition RecordOpen (now : Z) (sd : ScanDetector) : ScanDetector :=
  checkWindow now (MkDetector (uint64 (openCount sd + 1)) (totalReadBytes sd) (windowStart sd) (windowSize sd) (openThreshold sd) (scanMode sd)).
Definition RecordRead (bytes : Z) (sd : ScanDetector) : ScanDetector :=
  MkDetector (openCount sd) (uint64 (totalReadBytes sd + uint64 bytes)) (windowStart sd) (windowSize sd) (openThreshold sd) (scanMode sd).
Definition IsScanMode (now : Z) (sd : ScanDetector) : bool * ScanDetector := let sd := checkWindow now sd in (scanMode sd, sd).

Inductive use := Opens (now : Z) | Reads (bytes : Z) | Asks (now : Z).
Definition apply_use (sd : ScanDetector) (u : use) : ScanDetector :=
  match u with Opens now => RecordOpen now sd | Reads b => RecordRead b sd | Asks now => (IsScanMode now sd).2 end.

(** The opens of a run of uses. *)
Definition opens_of (l : list use) : list Z := omap (λ u, match u with Opens t => Some t | _ => None end) l.

(** Of the opens so far as many as counted fall in the window. *)
Definition counted (l : list use) (sd : ScanDetector) : Prop :=
  ∃ recent, (∃ old, opens_of l = old ++ recent) ∧ openCount sd = Z.of_nat (length recent) ∧ (scanMode sd = true → openThreshold sd <= openCount sd).

Lemma opens_of_app l l' : opens_of (l ++ l') = opens_of l ++ opens_of l'.
Proof. unfold opens_of. apply omap_app. Qed.

Lemma checkWindow_counted l now sd : Z.of_nat (length l) < 2 ^ 63 → counted l sd → counted l (checkWindow now sd).
Proof.
  intros Hl (r & (old & Eo) & Hc & Hm). unfold checkWindow. destruct (windowSize sd <? now - windowStart sd).
  { exists []. split; [exists (opens_of l); by rewrite app_nil_r|]. by split. }
  exists r. split; [by exists old|]. split; [done|]. cbn. assert (length (opens_of l) ≤ length l)%nat as Hlen.
  { unfold opens_of. clear. induction l as [|[] l IH]; cbn; lia. }
  assert (int64 (openCount sd) = openCount sd) as ->.
  { rewrite Eo, length_app in Hlen. apply wrap_s_id; [done|]. unfold fits_s. lia. }
  destruct (Z.leb_spec (openThreshold sd) (openCount sd)); [done|]. intros Hs. by apply Hm.
Qed.

(** The pumps are only held back when enough files were opened since the window
    began: scan mode means that the last [openThreshold] opens were counted. *)
Theorem scan_mode_needs_opens threshold window t0 l :
  0 < threshold → Z.of_nat (length l) < 2 ^ 63 → scanMode (foldl apply_use (newScanDetector threshold window t0) l) = true →
  threshold ≤ Z.of_nat (length (opens_of l)).
Proof.
  intros Ht Hl. assert (∀ l, Z.of_nat (length l) < 2 ^ 63 → let sd := foldl apply_use (newScanDetector threshold window t0) l in counted l sd ∧ openThreshold sd = threshold) as H.
  { clear l Hl. induction l as [|u l IH] using rev_ind; intros Hl; cbn zeta.
    { split; [|done]. exists []. split; [by exists []|]. by split. }
    rewrite length_app in Hl. cbn in Hl. destruct IH as [Hc Hth]; [lia|]. rewrite foldl_app. cbn [foldl]. set (sd := foldl _ _ l) in *.
    assert (∀ now s, openThreshold (checkWindow now s) = openThreshold s) as Hw by (intros; unfold checkWindow; by destruct (_ <? _)).
    destruct u as [now|b|now]; cbn [apply_use]; unfold RecordOpen, RecordRead, IsScanMode; cbn [snd].
    - split; [|by rewrite Hw]. apply checkWindow_counted; [rewrite length_app; cbn; lia|]. destruct Hc as (r & (old & Eo) & Hn & Hm).
      exists (r ++ [now]). split; [exists old; rewrite opens_of_app, Eo; by rewrite <-app_assoc|]. cbn [openCount scanMode openThreshold].
      assert (length (opens_of l) ≤ length l)%nat as Hlen by (unfold opens_of; clear; induction l as [|[] l IH]; cbn; lia).
      rewrite Eo, length_app in Hlen. rewrite length_app. cbn [length]. rewrite wrap_u_id by (unfold fits_u; lia). split; [lia|]. intros Hs. specialize (Hm Hs). lia.
    - split; [|done]. destruct Hc as (r & (old & Eo) & Hn & Hm). exists r. split; [exists old; rewrite opens_of_app, Eo; cbn; by rewrite app_nil_r|]. done.
    - split; [|by rewrite Hw]. apply checkWindow_counted; [rewrite length_app; cbn; lia|]. destruct Hc as (r & (old & Eo) & Hn & Hm).
      exists r. split; [exists old; rewrite opens_of_app, Eo; cbn; by rewrite app_nil_r|]. done. }
  intros Hs. destruct (H l Hl) as [(r & (old & Eo) & Hn & Hm) Hth]. specialize (Hm Hs). rewrite Eo, length_app. lia.
Qed.

(** The open that ends a window is not counted in the next one: with a threshold
    of 15, the first file of a scan after a quiet time does not count. *)
Lemma first_open_lost : openCount (RecordOpen 100 (newScanDetector 15 10 0)) = 0 ∧ openCount (RecordOpen 101 (RecordOpen 100 (newScanDetector 15 10 0))) = 1.
Proof. by vm_compute. Qed.

Record PreBufferGate := MkGate { minBytes : Z; readCounts : gmap string Z }.
Definition newPreBufferGate (min : Z) : PreBufferGate := MkGate min ∅.
Definition gate_RecordRead (path : string) (length : Z) (g : PreBufferGate) : PreBufferGate :=
  MkGate (minBytes g) (<[path := int64 (default 0 (readCounts g !! path) + length)]> (readCounts g)).

(** The loop: at every turn before the deadline whether the chunk is cached, and
    the end of what is cached of the file. *)
Fixpoint gate_loop (min : Z) (turns : list (bool * Z)) : bool :=
  match turns with
  | [] => false
  | (chunk, end_) :: rest => chunk || (min <=? end_) || gate_loop min rest
  end.
Definition WaitUntilReady (path : string) (maxCached : Z) (turns : list (bool * Z)) (g : PreBufferGate) : bool :=
  if default 0 (readCounts g !! path) =? 0 then true
  else if (0 <? maxCached) && (maxCached <? minBytes g) then true
  else gate_loop (minBytes g) turns.

(** Nobody calls [RecordRead] of the gate, so it lets every read pass. *)
Lemma gate_never_waits path maxCached turns min : WaitUntilReady path maxCached turns (newPreBufferGate min) = true.
Proof. done. Qed.
End Scan.

(** ** Jobs of the on-demand sync *)

Module Demand.

Inductive status := Started | Running | Completed | Failed.
Record DemandJob := MkJob { JobID : string; TMDBID : Z; JellyfinItemID : string; Status : status; StartedAt : Z; CompletedAt : option Z }.

(** The jobs are shared by reference; the table knows them by number. *)
Record DemandTracker := MkTracker { heap : gmap nat DemandJob; jobs : gmap string nat }.
Definition NewDemandTracker : DemandTracker := MkTracker ∅ ∅.

Definition Add (job : DemandJob) (t : DemandTracker) : nat * DemandTracker :=
  let j := fresh (dom (heap t)) in (j, MkTracker (<[j := job]> (heap t)) (<[JobID job := j]> (jobs t))).
Definition Get (id : string) (t : DemandTracker) : option DemandJob := j ← jobs t !! id; heap t !! j.
Definition active (j : DemandJob) : bool := match Status j with Started | Running => true | _ => false end.
Definition ListActive (t : DemandTracker) : list DemandJob :=
  filter (λ j, active j = true) (omap (λ kv, heap t !! kv.2) (map_to_list (jobs t))).

Inductive answer := BadRequest | InProgress (id : string) | Accepted (id : string).

Definition job_id (tmdb now : Z) : string := "demand-" +:+ pretty tmdb +:+ "-" +:+ pretty now.
Definition new_job (tmdb : Z) (item : string) (now : Z) : DemandJob := MkJob (job_id tmdb now) tmdb item Started now None.

(** The request reads the table, and enters the job later, under another lock. *)
Definition running_job (tmdb : Z) (t : DemandTracker) : option DemandJob := List.find (λ j, TMDBID j =? tmdb) (ListActive t).
Definition handleDemandPOST (tmdb : Z) (item : string) (now : Z) (t : DemandTracker) : answer * DemandTracker :=
  if tmdb <=? 0 then (BadRequest, t)
  else match running_job tmdb t with
  | Some j => (InProgress (JobID j), t)
  | None => (Accepted (job_id tmdb now), (Add (new_job tmdb item now) t).2)
  end.
Definition handleDemandGET (id : string) (t : DemandTracker) : option DemandJob := if bool_decide (id = "") then None else Get id t.

(** The goroutine of a job begins and ends. *)
Definition set_status (s : status) (done : option Z) (j : DemandJob) : DemandJob :=
  MkJob (JobID j) (TMDBID j) (JellyfinItemID j) s (StartedAt j) done.
Definition run_begin (j : nat) (t : DemandTracker) : DemandTracker := MkTracker (alter (set_status Running None) j (heap t)) (jobs t).
Definition run_end (ok : bool) (now : Z) (j : nat) (t : DemandTracker) : DemandTracker :=
  MkTracker (alter (set_status (if ok then Completed else Failed) (Some now)) j (heap t)) (jobs t).

(** *** Numbers of jobs *)

Definition dash : Ascii.ascii := Ascii.ascii_of_nat 45.

Lemma char_split_inj c s1 s2 t1 t2 :
  has_char c t1 = false → has_char c t2 = false → s1 +:+ String c t1 = s2 +:+ String c t2 → s1 = s2 ∧ t1 = t2.
Proof.
  intros H1 H2. revert s2. induction s1 as [|a s1 IH]; intros [|b s2] Heq; simplify_eq/=; [done| | |].
  - rewrite has_char_app in H1. cbn in H1. by rewrite bool_decide_eq_true_2, orb_true_r in H1.
  - rewrite has_char_app in H2. cbn in H2. by rewrite bool_decide_eq_true_2, orb_true_r in H2.
  - by destruct (IH s2) as [-> ->].
Qed.

Lemma pretty_N_go_no_dash x s : has_char dash s = false → has_char dash (pretty_N_go x s) = false.
Proof.
  revert s. induction (N.lt_wf_0 x) as [x _ IH]; intros s Hs. destruct (decide (x = 0)%N) as [->|Hne]; [done|].
  rewrite pretty_N_go_step by lia. apply IH; [by apply N.div_lt; lia|]. cbn [has_char]. rewrite Hs, orb_false_r. apply bool_decide_eq_false.
  unfold pretty_N_char. by repeat case_match.
Qed.

Lemma pretty_N_no_dash (x : N) : has_char dash (pretty x) = false.
Proof. unfold pretty, pretty_N. case_decide; [done|]. by apply pretty_N_go_no_dash. Qed.

Lemma pretty_pos_no_dash (z : Z) : 0 < z → has_char dash (pretty z) = false.
Proof. intros Hz. destruct z as [|p|p]; [done|apply pretty_N_no_dash|done]. Qed.

Lemma job_id_inj a b t u : 0 < t → 0 < u → job_id a t = job_id b u → a = b ∧ t = u.
Proof.
  intros Ht Hu E. apply string_app_inj in E. change ("-" +:+ pretty t) with (String dash (pretty t)) in E. change ("-" +:+ pretty u) with (String dash (pretty u)) in E.
  apply char_split_inj in E as [Ea Et]; [|by apply pretty_pos_no_dash..]. split; by apply (inj pretty).
Qed.

(** Times are after 1970. *)
Inductive demand_step : DemandTracker → DemandTracker → Prop :=
  | ds_post tmdb item now t : 0 < now → demand_step t (handleDemandPOST tmdb item now t).2
  | ds_begin j t x : heap t !! j = Some x → Status x = Started → demand_step t (run_begin j t)
  | ds_end ok now j t x : heap t !! j = Some x → Status x = Running → demand_step t (run_end ok now j t).

(** Active jobs are in the table, and there is one of them for a show. *)
Definition named (x : DemandJob) : Prop := JobID x = job_id (TMDBID x) (StartedAt x) ∧ 0 < StartedAt x.
Definition one_each (t : DemandTracker) : Prop :=
  map_Forall (λ _, named) (heap t) ∧
  (∀ j x, heap t !! j = Some x → active x = true → jobs t !! JobID x = Some j) ∧
  (∀ j k x y, heap t !! j = Some x → heap t !! k = Some y → active x = true → active y = true → TMDBID x = TMDBID y → j = k).

Lemma running_job_None tmdb t j x : one_each t → running_job tmdb t = None → heap t !! j = Some x → active x = true → TMDBID x ≠ tmdb.
Proof.
  intros (_ & Hin & _) Hr Hj Ha E. unfold running_job in Hr. pose proof (List.find_none _ _ Hr x) as Hn. cbn in Hn.
  assert (In x (ListActive t)) as Hx.
  { apply list_elem_of_In. unfold ListActive. apply list_elem_of_filter. split; [done|]. apply list_elem_of_omap. exists (JobID x, j). split; [|done].
    apply elem_of_map_to_list. by apply Hin. }
  specialize (Hn Hx). by rewrite E, Z.eqb_refl in Hn.
Qed.

Lemma alter_one_each f j t x :
  heap t !! j = Some x → JobID (f x) = JobID x → TMDBID (f x) = TMDBID x → StartedAt (f x) = StartedAt x → (active (f x) = true → active x = true) → one_each t →
  one_each (MkTracker (alter f j (heap t)) (jobs t)).
Proof.
  intros Hj H1 H2 Hst H3 (Hnm & Hin & Hone). assert (∀ k y, alter f j (heap t) !! k = Some y → active y = true →
    ∃ y0, heap t !! k = Some y0 ∧ active y0 = true ∧ JobID y = JobID y0 ∧ TMDBID y = TMDBID y0) as Hb.
  { intros k y Hk Ha. destruct (decide (k = j)) as [->|Hne].
    - rewrite lookup_alter_eq, Hj in Hk. injection Hk as <-. exists x. auto.
    - rewrite lookup_alter_ne in Hk by done. by exists y. }
  split; [|split]; cbn.
  - intros k y Hk. destruct (decide (k = j)) as [->|Hne].
    + rewrite lookup_alter_eq, Hj in Hk. injection Hk as <-. unfold named. rewrite H1, H2, Hst. exact (Hnm j x Hj).
    + rewrite lookup_alter_ne in Hk by done. by apply (Hnm k).
  - intros k y Hk Ha. destruct (Hb k y Hk Ha) as (y0 & H4 & H5 & -> & _). by apply Hin.
  - intros k l y z Hk Hl Ha Hz E. destruct (Hb k y Hk Ha) as (y0 & A1 & A2 & _ & A4). destruct (Hb l z Hl Hz) as (z0 & B1 & B2 & _ & B4).
    apply (Hone k l y0 z0); [done..|congruence].
Qed.

(** Requests that do not overlap never start two jobs for a show at a time, and a
    job that is active is found by its number. *)
Theorem one_job_per_show t :
  rtc demand_step NewDemandTracker t → one_each t ∧ ∀ j x, heap t !! j = Some x → active x = true → x ∈ ListActive t.
Proof.
  intros Hr. assert (one_each t) as H.
  { assert (one_each NewDemandTracker) as H0 by (split; [apply map_Forall_empty|done]). revert H0. induction Hr as [|t t1 t2 Hs _ IH]; [done|]. intros H0. apply IH.
    destruct Hs as [tmdb item now t Hnow|j t x Hj Hx|ok now j t x Hj Hx].
    - unfold handleDemandPOST. destruct (tmdb <=? 0); [done|]. destruct (running_job tmdb t) as [|] eqn:E; [done|]. cbn.
      set (j := fresh (dom (heap t))). assert (heap t !! j = None) as Hf by (apply not_elem_of_dom, is_fresh). clearbody j.
      pose proof (running_job_None tmdb t) as Hno. split; [|split]; cbn.
      + intros k x [[<- <-]|[Hne Hk]]%lookup_insert_Some; [by split|]. by apply (proj1 H0 k).
      + intros k x [[<- <-]|[Hne Hk]]%lookup_insert_Some Ha; [apply lookup_insert_eq|]. 
        pose proof (proj1 (proj2 H0) k x Hk Ha) as Hid. destruct (decide (JobID x = job_id tmdb now)) as [Eid|Nid]; [|by rewrite lookup_insert_ne].
        destruct (proj1 H0 k x Hk) as [En Hp]. rewrite En in Eid. apply job_id_inj in Eid as [Et _]; [|done..]. by destruct (Hno k x H0 E Hk Ha).
      + intros k l x y [[<- <-]|[Hk1 Hk]]%lookup_insert_Some [[<- <-]|[Hl1 Hl]]%lookup_insert_Some Ha Hb Et; [done| | |].
        * destruct (Hno l y H0 E Hl Hb). cbn in Et. congruence.
        * destruct (Hno k x H0 E Hk Ha). cbn in Et. congruence.
        * by apply (proj2 (proj2 H0) k l x y).
    - eapply alter_one_each; [exact Hj|done|done|done| |done]. unfold active. by rewrite Hx.
    - eapply alter_one_each; [exact Hj|done|done|done| |done]. unfold active. by rewrite Hx. }
  split; [done|]. intros j x Hj Ha. unfold ListActive. apply list_elem_of_filter. split; [done|]. apply list_elem_of_omap. exists (JobID x, j).
  split; [|done]. apply elem_of_map_to_list. by apply H.
Qed.

(** Two requests that both read the table before one of them enters its job start
    two jobs for the show; within a second they even share their number, and
    only one of them can be asked for. *)
Lemma concurrent_requests_start_two :
  let t := NewDemandTracker in
  let t' := (Add (new_job 7 "" 100) (Add (new_job 7 "" 100) t).2).2 in
  running_job 7 t = None ∧ size (filter (λ kv : nat * DemandJob, active kv.2 = true) (heap t')) = 2%nat ∧ length (ListActive t') = 1%nat.
Proof. vm_compute. done. Qed.
End Demand.

(** ** Error numbers *)

Module Errors.

Inductive errno := ENOENT | EPERM | ETIMEDOUT | EIO | EPIPE | EACCES | EBUSY | EINVAL | OtherErrno (n : Z).
(** An error by what the tests of the code see of it: one that wraps another, an
    error number, and errors that know that they are about a missing file,
    permissions, a timeout or the end of a stream. *)
Inductive goerror :=
  | Wraps (inner : goerror) | Errno (e : errno) | ErrNotExist | ErrPermission | OsTimeout | NetTimeout | EOF | ErrUnexpectedEOF | ErrClosedPipe | OtherError.

(** [None] is 0. *)
Fixpoint ToErrno (e : goerror) : option errno :=
  match e with
  | Wraps inner => ToErrno inner
  | Errno n => Some n
  | ErrNotExist => Some ENOENT
  | ErrPermission => Some EPERM
  | OsTimeout | NetTimeout => Some ETIMEDOUT
  | EOF => None
  | ErrUnexpectedEOF => Some EIO
  | ErrClosedPipe => Some EPIPE
  | OtherError => Some EIO
  end.

Definition MapHTTPStatusToErrno (statusCode : Z) : option errno :=
  if bool_decide (statusCode ∈ [200; 206; 204]) then None
  else if statusCode =? 404 then Some ENOENT
  else if bool_decide (statusCode ∈ [403; 401]) then Some EACCES
  else if bool_decide (statusCode ∈ [408; 504]) then Some ETIMEDOUT
  else if statusCode =? 429 then Some EBUSY
  else if statusCode =? 416 then Some EINVAL
  else if bool_decide (statusCode ∈ [500; 502; 503]) then Some EIO
  else if (400 <=? statusCode) && (statusCode <? 500) then Some EINVAL
  else if 500 <=? statusCode then Some EIO else None.

Lemma elem_of_list_2 (n a b : Z) : n ∈ [a; b] → n = a ∨ n = b.
Proof. rewrite !elem_of_cons. intros [?|[?|H]]; [auto..|by destruct (not_elem_of_nil _ H)]. Qed.
Lemma elem_of_list_3 (n a b c : Z) : n ∈ [a; b; c] → n = a ∨ n = b ∨ n = c.
Proof. rewrite elem_of_cons. intros [?|H%elem_of_list_2]; tauto. Qed.

(** Only the end of a stream is no error, however deeply it is wrapped. *)
Fixpoint innermost (e : goerror) : goerror := match e with Wraps x => innermost x | _ => e end.
Theorem ToErrno_zero e : ToErrno e = None ↔ innermost e = EOF.
Proof. induction e; cbn; try done; split; intros H; try discriminate H; by apply IHe. Qed.

(** The statuses below 400 and no others are no errors. *)
Theorem status_error_iff n : MapHTTPStatusToErrno n = None ↔ n < 400.
Proof.
  unfold MapHTTPStatusToErrno.
  case_bool_decide as H1; [apply elem_of_list_3 in H1; split; [lia|done]|].
  destruct (Z.eqb_spec n 404); [split; [done|lia]|]. case_bool_decide as H2; [apply elem_of_list_2 in H2; split; [done|lia]|].
  case_bool_decide as H3; [apply elem_of_list_2 in H3; split; [done|lia]|]. destruct (Z.eqb_spec n 429); [split; [done|lia]|].
  destruct (Z.eqb_spec n 416); [split; [done|lia]|]. case_bool_decide as H4; [apply elem_of_list_3 in H4; split; [done|lia]|].
  destruct (Z.leb_spec 400 n), (Z.ltb_spec n 500), (Z.leb_spec 500 n); cbn; (split; [done || lia|done || lia]).
Qed.
End Errors.
