(* ===== verification/Bencode.v ===== *)
(** * Bencode (internal/anacrolix-torrent-v1.55/bencode)

    The decoder and the encoder of the torrent library's wire format: integers,
    byte strings, lists and dictionaries. The decoder is a state monad over the
    [Decoder] (the input not read yet, the offset and the scratch buffer) with
    Go's panics as its errors; this file has the part of it that decodes into an
    [interface{}] ([parseValueInterface] and what it calls), the skipping of one
    value ([readOneValue]) and the encoding of such values. BencodeTyped has the
    part that is driven by the type of the destination.

    The input is a [bytes.Reader], as in [Unmarshal]. A Go map with string keys
    is the list of its entries in the order of the keys. The recursion is bounded
    by the number of bytes left, which every call lowers. *)

From S2P Require Import Prelude InodeMap.

Local Open Scope string_scope.
Local Open Scope Z_scope.

(** ** Numbers in decimal (package strconv) *)

Inductive num_result :=
  | NumOk (z : Z)
  | NumSyntax      (** [strconv.ErrSyntax] *)
  | NumRange.      (** [strconv.ErrRange] *)

(** The loop of [strconv.ParseUint(s, 10, 64)]: an overflow is reported before
    the characters after it are looked at. *)
Fixpoint parse_uint (s : string) (n : Z) : num_result :=
  match s with
  | EmptyString => NumOk n
  | String c s' =>
      if is_digit c then
        let n' := n * 10 + (ord c - 48) in
        if n' <? 2 ^ 64 then parse_uint s' n' else NumRange
      else NumSyntax
  end.

Definition ParseUint (s : string) : num_result :=
  if bool_decide (s = "") then NumSyntax else parse_uint s 0.

Definition split_sign (s : string) : bool * string :=
  match s with
  | String c r => if ord c =? 45 then (true, r) else if ord c =? 43 then (false, r) else (false, s)
  | EmptyString => (false, s)
  end.

(** [strconv.ParseInt(s, 10, 64)], which is also [ParseInt(s, 10, 0)] where an
    int has 64 bits. *)
Definition ParseInt (s : string) : num_result :=
  let '(neg, ds) := split_sign s in
  match ParseUint ds with
  | NumOk un =>
      if neg : bool then if un <=? 2 ^ 63 then NumOk (- un) else NumRange
      else if un <? 2 ^ 63 then NumOk un else NumRange
  | e => e
  end.

(** [SetString(s, 10)] of a [big.Int]. *)
Definition SetString (s : string) : option Z :=
  let '(neg, ds) := split_sign s in
  if bool_decide (ds = "") then None
  else v ← parse_dec ds 0; Some (if neg : bool then - v else v).

(** ** Errors *)

(** What a [SyntaxError] carries. *)
Inductive what :=
  | WUnexpectedEOF
  | WNum (r : num_result)
  | WUnexpectedE
  | WUnknownType (b : Ascii.ascii)
  | WBigInt                                  (** failed to parse integer *)
  | WNonStringKey
  | WUnsorted (key lastKey : string)
  | WMissingValue (key : string)
  | WUnexpectedIO.                           (** unexpected I/O error *)

Inductive error :=
  | EOF
  | UnexpectedEOF
  | SyntaxError (offset : Z) (w : what)
  | InvalidLeadingDigit
  | LengthLimit (length : Z)
  | ReadShort (got expected : Z)
  | UnmarshalTypeError (name : string)
  | DictKeyError (e : error)                 (** error parsing dict key *)
  | DictTargetError                          (** can't assign bencode dict items *)
  | DiscardError (key : string)              (** error parsing value for key *)
  | ValueError (key : string) (e : error)    (** parsing value for key *)
  | MissingValue (key : string)
  | ReflectPanic                             (** a [reflect.ValueError] *)
  | UnmarshalerError (e : error)
  | MarshalerError (e : error)
  | EmptyBytes                               (** marshalled Bytes should not be zero-length *)
  | NilMethod                                (** a method called through a nil pointer *)
  | Unsupported (name : string)              (** unsupported type *)
  | UnusedTrailingBytes (n : Z)
  | OutOfFuel.                               (** not an error of the code: the model's bound *)

#[export] Instance num_result_eq_dec : EqDecision num_result.
Proof. solve_decision. Defined.

#[export] Instance what_eq_dec : EqDecision what.
Proof. solve_decision. Defined.

#[export] Instance error_eq_dec : EqDecision error.
Proof. unfold EqDecision, Decision. decide equality; solve [exact (decide (_ = _))]. Defined.

(** ** The decoder *)

Definition DefaultDecodeMaxStrLen : Z := Z.shiftl 1 27 - 1.

Record Decoder := {
  MaxStrLen : Z;
  input : string;      (** what the reader has not delivered yet *)
  Offset : Z;
  buf : string;
}.

Definition set_buf (b : string) (d : Decoder) : Decoder :=
  {| MaxStrLen := MaxStrLen d; input := input d; Offset := Offset d; buf := b |}.

(** A call on the decoder: its result, or the error it panics with, and the
    decoder it leaves. *)
Definition M (A : Type) : Type := Decoder → (error + A) * Decoder.

#[export] Instance M_ret : MRet M := λ A x d, (inr x, d).
#[export] Instance M_bind : MBind M := λ A B f m d,
  match m d with (inr x, d') => f x d' | (inl e, d') => (inl e, d') end.

Definition panic {A} (e : error) : M A := λ d, (inl e, d).
Definition get : M Decoder := λ d, (inr d, d).
Definition modify (f : Decoder → Decoder) : M unit := λ d, (inr tt, f d).

(** [r.ReadByte()] and [r.UnreadByte()] of a [bytes.Reader]. *)
Definition ReadByte : M (option Ascii.ascii) := λ d,
  match input d with
  | EmptyString => (inr None, d)
  | String c s => (inr (Some c), {| MaxStrLen := MaxStrLen d; input := s; Offset := Offset d; buf := buf d |})
  end.

Definition UnreadByte (c : Ascii.ascii) : M unit :=
  modify (λ d, {| MaxStrLen := MaxStrLen d; input := String c (input d); Offset := Offset d; buf := buf d |}).

Definition add_offset (n : Z) : M unit :=
  modify (λ d, {| MaxStrLen := MaxStrLen d; input := input d; Offset := Offset d + n; buf := buf d |}).

(** The operations of the scratch [bytes.Buffer]. *)
Definition Reset : M unit := modify (set_buf "").
Definition WriteString (s : string) : M unit := modify (λ d, set_buf (buf d +:+ s) d).
Definition WriteByte (c : Ascii.ascii) : M unit := WriteString (String c "").

Definition getMaxStrLen (d : Decoder) : Z :=
  if MaxStrLen d =? 0 then DefaultDecodeMaxStrLen else MaxStrLen d.

Definition throwSyntaxError {A} (offset : Z) (w : what) : M A := panic (SyntaxError offset w).

Definition raiseUnknownValueType {A} (b : Ascii.ascii) (offset : Z) : M A :=
  panic (SyntaxError offset (WUnknownType b)).

Definition checkForIntParseError (r : num_result) (offset : Z) : M Z :=
  match r with NumOk n => mret n | _ => panic (SyntaxError offset (WNum r)) end.

Definition readByte : M Ascii.ascii :=
  b ← ReadByte;
  match b with
  | None => d ← get; panic (SyntaxError (Offset d) WUnexpectedEOF)
  | Some b => add_offset 1;; mret b
  end.

Fixpoint readUntil_loop (fuel : nat) (sep : Ascii.ascii) : M unit :=
  match fuel with
  | O => panic OutOfFuel
  | S fuel' =>
      b ← readByte;
      if bool_decide (b = sep) then mret tt else WriteByte b;; readUntil_loop fuel' sep
  end.

Definition readUntil (sep : Ascii.ascii) : M unit :=
  d ← get; readUntil_loop (S (String.length (input d))) sep.

Definition minus : Ascii.ascii := Ascii.ascii_of_nat 45.
Definition char_e : Ascii.ascii := Ascii.ascii_of_nat 101.
Definition char_d : Ascii.ascii := Ascii.ascii_of_nat 100.
Definition char_l : Ascii.ascii := Ascii.ascii_of_nat 108.
Definition char_i : Ascii.ascii := Ascii.ascii_of_nat 105.

(** Whether the buffered number has an invalid leading digit. *)
Definition checkBufferedInt (b : string) : option error :=
  match b with
  | EmptyString | String _ EmptyString => None
  | String c ((String c1 _) as r) =>
      let c := if bool_decide (c = minus) then c1 else c in
      if (ord c <? 49) || (57 <? ord c) then Some InvalidLeadingDigit else None
  end.

Definition readInt : M (option error) :=
  readUntil char_e;; d ← get; mret (checkBufferedInt (buf d)).

(** The length of a string, after its first digit was put into the buffer: a
    number, or an error that is returned and not thrown. *)
Definition parseStringLength : M (error + Z) :=
  d0 ← get;
  let start := Offset d0 - 1 in
  readUntil colon;; d ← get;
  match checkBufferedInt (buf d) with
  | Some e => mret (inl e)
  | None =>
      length ← checkForIntParseError (ParseInt (buf d)) start;
      let err := if getMaxStrLen d <? length then Some (LengthLimit length) else None in
      Reset;; mret (match err with Some e => inl e | None => inr length end)
  end.

(** ** Reading strings of a given length *)

Fixpoint str_take (n : nat) (s : string) : string :=
  match n, s with
  | S n', String c s' => String c (str_take n' s')
  | _, _ => EmptyString
  end.

Fixpoint str_drop (n : nat) (s : string) : string :=
  match n, s with
  | S n', String c s' => str_drop n' s'
  | _, _ => s
  end.

Definition slen (s : string) : Z := Z.of_nat (String.length s).

(** [io.ReadAll(io.LimitReader(d.r, n))], also the bytes that [io.ReadFull] and
    [io.CopyN] deliver: as many of the [n] as there are. *)
Definition read_limit (n : Z) : M string := λ d,
  (inr (str_take (Z.to_nat n) (input d)),
   {| MaxStrLen := MaxStrLen d; input := str_drop (Z.to_nat n) (input d); Offset := Offset d; buf := buf d |}).

Definition readBytes (length : Z) : M string :=
  b ← read_limit length;
  if slen b =? length then mret b else panic (ReadShort (slen b) length).

Definition parseStringInterface : M string :=
  r ← parseStringLength;
  match r with
  | inl e => panic e
  | inr length => b ← readBytes length; add_offset (slen b);; mret b
  end.

(** ** Values *)

(** The values an [interface{}] receives: an int64, a pointer to a [big.Int] for the
    integers beyond it, a string, a [[]interface{}] or a [map[string]interface{}]. *)
Inductive value :=
  | VInt (z : Z)
  | VBig (z : Z)
  | VStr (s : string)
  | VList (l : list value)
  | VDict (l : list (string * value)).

(** [m[k] = v] on the ordered list of the entries of a map. *)
Fixpoint map_set {A} (k : string) (v : A) (m : list (string * A)) : list (string * A) :=
  match m with
  | [] => [(k, v)]
  | (k', v') :: m' =>
      match String.compare k k' with
      | Lt => (k, v) :: m
      | Eq => (k, v) :: m'
      | Gt => (k', v') :: map_set k v m'
      end
  end.

Definition parseIntInterface : M value :=
  d0 ← get;
  let start := Offset d0 - 1 in
  err ← readInt;
  match err with
  | Some e => panic e
  | None =>
      d ← get;
      ret ← match ParseInt (buf d) with
            | NumRange =>
                match SetString (buf d) with
                | None => panic (SyntaxError start WBigInt)
                | Some i => mret (VBig i)
                end
            | r => n ← checkForIntParseError r start; mret (VInt n)
            end;
      Reset;; mret ret
  end.

(** The keys of a map must be in order. *)
Definition check_order (lastKey : option string) (key : string) (start : Z) : M unit :=
  match lastKey with
  | Some last => if String.leb key last then throwSyntaxError start (WUnsorted key last) else mret tt
  | None => mret tt
  end.

(** [parseValueInterface], with the loops of [parseDictInterface] (its last key
    and the map so far) and of [parseListInterface] (the list so far). [None] is
    the end marker. *)
Fixpoint parseValueInterface (fuel : nat) : M (option value) :=
  match fuel with
  | O => panic OutOfFuel
  | S fuel' =>
      b ← ReadByte;
      match b with
      | None => panic EOF
      | Some b =>
          add_offset 1;;
          if bool_decide (b = char_e) then mret None
          else if bool_decide (b = char_d) then dict ← parseDictInterface fuel' None []; mret (Some (VDict dict))
          else if bool_decide (b = char_l) then l ← parseListInterface fuel' []; mret (Some (VList l))
          else if bool_decide (b = char_i) then n ← parseIntInterface; mret (Some n)
          else if is_digit b then WriteByte b;; s ← parseStringInterface; mret (Some (VStr s))
          else d ← get; raiseUnknownValueType b (Offset d - 1)
      end
  end
with parseDictInterface (fuel : nat) (lastKey : option string) (dict : list (string * value)) : M (list (string * value)) :=
  match fuel with
  | O => panic OutOfFuel
  | S fuel' =>
      d0 ← get;
      keyi ← parseValueInterface fuel';
      match keyi with
      | None => mret dict
      | Some (VStr key) =>
          check_order lastKey key (Offset d0);;
          d1 ← get;
          valuei ← parseValueInterface fuel';
          match valuei with
          | None => throwSyntaxError (Offset d1) (WMissingValue key)
          | Some v => parseDictInterface fuel' (Some key) (map_set key v dict)
          end
      | Some _ => d ← get; panic (SyntaxError (Offset d) WNonStringKey)
      end
  end
with parseListInterface (fuel : nat) (acc : list value) : M (list value) :=
  match fuel with
  | O => panic OutOfFuel
  | S fuel' =>
      valuei ← parseValueInterface fuel';
      match valuei with
      | None => mret acc
      | Some v => parseListInterface fuel' (acc ++ [v])
      end
  end.

(** ** Skipping one value *)

Fixpoint readOneValue (fuel : nat) : M bool :=
  match fuel with
  | O => panic OutOfFuel
  | S fuel' =>
      b ← ReadByte;
      match b with
      | None => panic EOF
      | Some b =>
          if bool_decide (b = char_e) then UnreadByte b;; mret false
          else
            add_offset 1;; WriteByte b;;
            (if bool_decide (b = char_d) || bool_decide (b = char_l) then
               readValues fuel';;
               e ← readByte; WriteByte e
             else if bool_decide (b = char_i) then readUntil char_e;; WriteByte char_e
             else if is_digit b then
               d0 ← get;
               let start := (String.length (buf d0) - 1)%nat in
               readUntil colon;; d1 ← get;
               length ← checkForIntParseError (ParseInt (str_drop start (buf d1))) (Offset d1 - 1);
               WriteByte colon;;
               s ← read_limit length;
               WriteString s;; add_offset (slen s);;
               if slen s =? length then mret tt
               else d ← get; panic (SyntaxError (Offset d) WUnexpectedEOF)
             else d ← get; raiseUnknownValueType b (Offset d - 1));;
            mret true
      end
  end
with readValues (fuel : nat) : M unit :=
  match fuel with
  | O => panic OutOfFuel
  | S fuel' => more ← readOneValue fuel'; if more : bool then readValues fuel' else mret tt
  end.

(** ** Decoding and encoding *)

(** [Decoder.Decode] turns the panics into errors, and an EOF inside a value
    into an unexpected one. *)
Definition recover_error (e : error) : error := match e with EOF => UnexpectedEOF | _ => e end.

(** [Unmarshal(data, &v)] for an [interface{}] that is nil: [parseValue] calls
    [parseValueInterface], and the nil of an end marker cannot be stored. *)
Definition new_decoder (data : string) : Decoder :=
  {| MaxStrLen := 0; input := data; Offset := 0; buf := "" |}.

Definition Unmarshal (data : string) : error + value :=
  match parseValueInterface (S (2 * String.length data)) (new_decoder data) with
  | (inl e, _) => inl (recover_error e)
  | (inr None, _) => inl ReflectPanic
  | (inr (Some v), d) =>
      if bool_decide (input d = "") then inr v else inl (UnusedTrailingBytes (slen (input d)))
  end.

Definition AppendInt (z : Z) : string := pretty z.

Definition reflectString (s : string) : string := AppendInt (slen s) +:+ ":" +:+ s.

(** [sort.Sort(sv)] on the keys of a map. *)
Definition by_key {A} (x y : string * A) : bool := cmp_lt (cmp_on fst String.compare) x y.

Fixpoint reflectValue (v : value) : string :=
  match v with
  | VInt z | VBig z => "i" +:+ AppendInt z +:+ "e"
  | VStr s => reflectString s
  | VList l => "l" +:+ foldr (λ v acc, reflectValue v +:+ acc) "e" l
  | VDict m =>
      "d" +:+ foldr (λ kv acc, reflectString kv.1 +:+ kv.2 +:+ acc) "e"
                (sort_stable by_key (map (λ kv, (kv.1, reflectValue kv.2)) m))
  end.

Definition Marshal (v : value) : string := reflectValue v.

(** ** Decimal text *)

Lemma parse_dec_ge s n v : 0 ≤ n → parse_dec s n = Some v → n ≤ v.
Proof.
  revert n. induction s as [|c s IH]; intros n Hn; simpl; [intros [= <-]; lia|].
  destruct (is_digit c) eqn:Hc; [|done]. unfold is_digit in Hc. zbool. intros Hv%IH; lia.
Qed.

(** The loop of [ParseUint] agrees with the exact value, below 2^64. *)
Lemma parse_uint_dec s n v :
  0 ≤ n < 2 ^ 64 → parse_dec s n = Some v → parse_uint s n = if v <? 2 ^ 64 then NumOk v else NumRange.
Proof.
  revert n. induction s as [|c s IH]; intros n Hn; cbn [parse_dec parse_uint].
  - intros [= <-]. by rewrite (proj2 (Z.ltb_lt _ _)) by lia.
  - destruct (is_digit c) eqn:Hc; [|done]. intros H. assert (0 ≤ n * 10 + (ord c - 48)) by (unfold is_digit in Hc; zbool; lia).
    pose proof (parse_dec_ge _ _ _ ltac:(done) H).
    destruct (Z.ltb_spec (n * 10 + (ord c - 48)) (2 ^ 64)); [by apply IH|].
    destruct (Z.ltb_spec v (2 ^ 64)); [lia|done].
Qed.

Lemma parse_uint_Ok s n v : parse_uint s n = NumOk v → parse_dec s n = Some v.
Proof.
  revert n. induction s as [|c s IH]; intros n; simpl; [by intros [= <-]|].
  destruct (is_digit c); [|done]. case_if; [apply IH|done].
Qed.

(** [ParseInt] succeeds exactly on the texts of the 64-bit integers and reports
    the others as out of range. *)
Lemma ParseInt_SetString s z :
  SetString s = Some z → ParseInt s = if bool_decide (fits_s 64 z) then NumOk z else NumRange.
Proof.
  unfold SetString, ParseInt, ParseUint. destruct (split_sign s) as [neg ds].
  case_bool_decide; [done|]. destruct (parse_dec ds 0) as [v|] eqn:Hv; [|done]. cbn [mbind option_bind].
  intros [= <-]. rewrite (parse_uint_dec ds 0 v) by (done || lia). pose proof (parse_dec_ge ds 0 v ltac:(lia) Hv).
  unfold fits_s. change (64 - 1) with 63.
  destruct neg, (Z.ltb_spec v (2 ^ 64)), (Z.leb_spec v (2 ^ 63)), (Z.ltb_spec v (2 ^ 63)); destruct (bool_decide _) eqn:Hd; zbool; (done || lia).
Qed.

Lemma ParseInt_Ok s z : ParseInt s = NumOk z → SetString s = Some z ∧ fits_s 64 z.
Proof.
  unfold SetString, ParseInt, ParseUint. destruct (split_sign s) as [neg ds].
  case_bool_decide; [done|]. destruct (parse_uint ds 0) as [v| |] eqn:Hv; [|done..].
  apply parse_uint_Ok in Hv. rewrite Hv. cbn [mbind option_bind]. pose proof (parse_dec_ge ds 0 v ltac:(lia) Hv).
  unfold fits_s. change (64 - 1) with 63.
  destruct neg; case_if; zbool; intros [= <-]; split; (done || lia).
Qed.

Lemma digit_char c : is_digit c = true → pretty_N_char (Z.to_N (ord c - 48)) = c.
Proof. by destruct c as [[] [] [] [] [] [] [] []]; vm_compute; intros H; try discriminate H. Qed.

(** The decimal form of a number of digits [s] after a number that is not zero. *)
Lemma pretty_N_go_parse s n v t :
  (0 < n)%N → parse_dec s (Z.of_N n) = Some v → pretty_N_go (Z.to_N v) t = pretty_N_go n (s +:+ t).
Proof.
  revert n. induction s as [|c s IH]; intros n Hn; cbn [parse_dec].
  - intros [= <-]. by rewrite N2Z.id.
  - destruct (is_digit c) eqn:Hc; [|done]. pose proof (digit_char c Hc) as Hch. unfold is_digit in Hc. zbool.
    replace (Z.of_N n * 10 + (ord c - 48)) with (Z.of_N (n * 10 + Z.to_N (ord c - 48))) by lia.
    intros Hp. rewrite (IH (n * 10 + Z.to_N (ord c - 48))%N) by (done || lia). rewrite pretty_N_go_step by lia.
    replace ((n * 10 + Z.to_N (ord c - 48)) `div` 10)%N with n by (apply N.div_unique with (Z.to_N (ord c - 48)); lia).
    replace ((n * 10 + Z.to_N (ord c - 48)) `mod` 10)%N with (Z.to_N (ord c - 48)) by (apply N.mod_unique with n; lia).
    change (String c s +:+ t) with (String c (s +:+ t)). by rewrite Hch.
Qed.

Lemma pretty_digits c s v :
  is_digit c = true → ord c ≠ 48 → parse_dec (String c s) 0 = Some v → pretty (Z.to_N v) = String c s ∧ 0 < v.
Proof.
  intros Hc H0. pose proof (digit_char c Hc) as Hch. cbn [parse_dec]. rewrite Hc. unfold is_digit in Hc. zbool. intros Hv.
  replace (0 * 10 + (ord c - 48)) with (Z.of_N (Z.to_N (ord c - 48))) in Hv by lia.
  pose proof (parse_dec_ge s _ v (N2Z.is_nonneg _) Hv).
  split; [|lia]. unfold pretty, pretty_N. case_decide; [lia|].
  rewrite (pretty_N_go_parse s (Z.to_N (ord c - 48)) _ "") by (done || lia). rewrite pretty_N_go_step by lia.
  rewrite N.div_small, N.mod_small by lia. by rewrite pretty_N_go_0, string_nil_r, Hch.
Qed.

(** A number that passes the check of its leading digit is written the way the
    encoder writes it, *)
Lemma checked_pretty s z : checkBufferedInt s = None → SetString s = Some z → s = pretty z.
Proof.
  destruct s as [|c [|c1 r]]; [done| |].
  - intros _. unfold SetString, split_sign. destruct (ord c =? 45); [done|]. destruct (ord c =? 43); [done|].
    rewrite bool_decide_false by done. destruct (parse_dec (String c "") 0) as [v|] eqn:Hv; [|done].
    cbn [mbind option_bind]. intros [= <-]. pose proof Hv as Hd. cbn [parse_dec] in Hd.
    destruct (is_digit c) eqn:Hc; [|done]. injection Hd as <-. destruct (decide (ord c = 48)) as [H0|H0].
    + rewrite <- (digit_char c Hc), H0. done.
    + destruct (pretty_digits c "" _ Hc H0 Hv) as [Hp ?]. rewrite <- Hp.
      by destruct (0 * 10 + (ord c - 48)).
  - cbn [checkBufferedInt]. unfold SetString, split_sign.
    case_bool_decide as Hc.
    + subst c. change (ord minus =? 45) with true. cbn iota beta. rewrite bool_decide_false by done.
      destruct (_ || _) eqn:Hd; [done|]. zbool. intros _.
      destruct (parse_dec (String c1 r) 0) as [v|] eqn:Hv; [|done]. cbn [mbind option_bind]. intros [= <-].
      destruct (pretty_digits c1 r v) as [Hp ?]; [unfold is_digit; lia|lia|done|].
      rewrite <- Hp. by destruct v.
    + destruct (_ || _) eqn:Hd; [done|]. zbool. intros _.
      destruct (Z.eqb_spec (ord c) 45); [lia|]. destruct (Z.eqb_spec (ord c) 43); [lia|].
      rewrite bool_decide_false by done.
      destruct (parse_dec (String c _) 0) as [v|] eqn:Hv; [|done]. cbn [mbind option_bind]. intros [= <-].
      destruct (pretty_digits c (String c1 r) v) as [Hp ?]; [unfold is_digit; lia|lia|done|].
      rewrite <- Hp. by destruct v.
Qed.

(** and what the encoder writes passes the check. *)
Lemma pretty_N_cases (n : N) :
  (∃ c, pretty n = String c "" ∧ is_digit c = true) ∨
  (∃ c s, pretty n = String c s ∧ is_digit c = true ∧ ord c ≠ 48).
Proof.
  assert (∀ m t, (0 < m)%N → ∃ c s, pretty_N_go m t = String c s ∧ is_digit c = true ∧ ord c ≠ 48) as Hgo.
  { intros m. induction (N.lt_wf_0 m) as [m _ IH]; intros t Hm. rewrite pretty_N_go_step by done.
    destruct (ord_digit (m `mod` 10)) as [Hd Hv]; [by apply N.mod_lt|].
    destruct (decide (m `div` 10 = 0)%N) as [H0|H0].
    - rewrite H0. eexists _, _. split_and!; [reflexivity|done|]. apply N.div_small_iff in H0; [|done].
      rewrite N.mod_small in Hv |- * by done. lia.
    - apply IH; [by apply N.div_lt|by apply N.neq_0_lt_0]. }
  unfold pretty, pretty_N. case_decide; [by left; eexists|]. right. apply Hgo. lia.
Qed.

Lemma pretty_checked z : checkBufferedInt (pretty z) = None ∧ SetString (pretty z) = Some z.
Proof.
  unfold SetString. destruct (decide (0 ≤ z)) as [Hz|Hz].
  - assert (∃ x : N, z = Z.of_N x ∧ pretty z = pretty x) as (x & -> & ->).
    { exists (Z.to_N z). split; [lia|]. by destruct z as [|p|p]; [| |lia]. }
    pose proof (parse_dec_pretty_N x) as Hp. pose proof (pretty_N_nonempty x).
    assert (∃ c s, pretty x = String c s ∧ is_digit c = true ∧ (s = "" ∨ ord c ≠ 48)) as (c & s & Heq & Hc & Hs).
    { destruct (pretty_N_cases x) as [(c & ? & ?)|(c & s & ? & ? & ?)]; eauto 10. }
    rewrite Heq in *. unfold is_digit in Hc. zbool. split.
    + destruct s as [|c1 s]; [done|]. cbn [checkBufferedInt]. rewrite bool_decide_false by (intros ->; vm_compute in H0; done).
      destruct Hs as [|Hs]; [done|]. destruct (_ || _) eqn:Hd; [|done]. lia.
    + unfold split_sign. destruct (Z.eqb_spec (ord c) 45); [lia|]. destruct (Z.eqb_spec (ord c) 43); [lia|].
      rewrite bool_decide_false by done. by rewrite Hp.
  - destruct z as [|p|p]; [lia..|]. change (pretty (Z.neg p)) with (String minus (pretty (N.pos p))).
    pose proof (parse_dec_pretty_N (N.pos p)) as Hp. pose proof (pretty_N_nonempty (N.pos p)).
    assert (∃ c s, pretty (N.pos p) = String c s ∧ is_digit c = true ∧ ord c ≠ 48) as (c & s & Heq & Hc & Hs).
    { destruct (pretty_N_cases (N.pos p)) as [(c & Hq & ?)|(c & s & ? & ? & ?)]; [|by eauto 10].
      exists c, "". split_and!; [done..|]. rewrite Hq in Hp. cbn [parse_dec] in Hp. intros E. rewrite H0, E in Hp. done. }
    rewrite Heq in *. unfold is_digit in Hc. zbool. split.
    + cbn [checkBufferedInt]. rewrite bool_decide_true by done. destruct (_ || _) eqn:Hd; [|done]. lia.
    + unfold split_sign. change (ord minus =? 45) with true. cbn iota beta. rewrite bool_decide_false by done. by rewrite Hp.
Qed.

(** ** The reading operations *)

(** Runs the monad as far as the operations that do not loop go. *)
Ltac run :=
  cbv [mbind M_bind mret M_ret get modify panic ReadByte UnreadByte add_offset WriteByte WriteString Reset set_buf
       readByte throwSyntaxError raiseUnknownValueType];
  cbn [input Offset buf MaxStrLen].

Ltac run_in H :=
  cbv [mbind M_bind mret M_ret get modify panic ReadByte UnreadByte add_offset WriteByte WriteString Reset set_buf
       readByte throwSyntaxError raiseUnknownValueType] in H;
  cbn [input Offset buf MaxStrLen] in H.

Lemma slen_app a b : slen (a +:+ b) = slen a + slen b.
Proof. unfold slen. rewrite length_app_string. lia. Qed.

Lemma slen_cons c s : slen (String c s) = 1 + slen s.
Proof. unfold slen. cbn [String.length]. lia. Qed.

Lemma slen_nonneg s : 0 ≤ slen s.
Proof. unfold slen. lia. Qed.

Lemma has_char_split c s : has_char c s = true → ∃ a r, s = a +:+ String c r ∧ has_char c a = false.
Proof.
  induction s as [|x s IH]; cbn [has_char]; [done|]. case_bool_decide as E.
  - intros _. subst. by exists "", s.
  - cbn [orb]. intros (a & r & -> & Ha)%IH. exists (String x a), r. split; [done|]. cbn [has_char].
    by rewrite bool_decide_false.
Qed.

Lemma readUntil_loop_found fuel sep a r m o b :
  has_char sep a = false → (String.length a < fuel)%nat →
  readUntil_loop fuel sep (Build_Decoder m (a +:+ String sep r) o b) =
    (inr tt, Build_Decoder m r (o + slen a + 1) (b +:+ a)).
Proof.
  revert a o b. induction fuel as [|fuel IH]; intros a o b Ha Hf; [lia|]. cbn [readUntil_loop].
  destruct a as [|c a].
  - rewrite string_nil_app. run. rewrite bool_decide_true by done. run. change (slen "") with 0.
    by rewrite string_nil_r, Z.add_0_r.
  - cbn [has_char] in Ha. apply orb_false_iff in Ha as [Hc%bool_decide_eq_false Ha].
    rewrite string_cons_app. run. rewrite bool_decide_false by congruence. run.
    rewrite (IH a) by (done || cbn [String.length] in Hf; lia). rewrite slen_cons, <- string_assoc. change (String c "" +:+ a) with (String c a).
    replace (o + 1 + slen a + 1) with (o + (1 + slen a) + 1) by lia. done.
Qed.

Lemma readUntil_found sep a r m o b :
  has_char sep a = false →
  readUntil sep (Build_Decoder m (a +:+ String sep r) o b) =
    (inr tt, Build_Decoder m r (o + slen a + 1) (b +:+ a)).
Proof. intros Ha. unfold readUntil. run. apply readUntil_loop_found; [done|]. rewrite length_app_string. lia. Qed.

Lemma readUntil_loop_eof fuel sep s m o b :
  has_char sep s = false → (String.length s < fuel)%nat →
  readUntil_loop fuel sep (Build_Decoder m s o b) =
    (inl (SyntaxError (o + slen s) WUnexpectedEOF), Build_Decoder m "" (o + slen s) (b +:+ s)).
Proof.
  revert s o b. induction fuel as [|fuel IH]; intros s o b Hs Hf; [lia|]. cbn [readUntil_loop].
  destruct s as [|c s].
  - run. change (slen "") with 0. by rewrite string_nil_r, Z.add_0_r.
  - cbn [has_char] in Hs. apply orb_false_iff in Hs as [Hc%bool_decide_eq_false Hs].
    run. rewrite bool_decide_false by congruence. run.
    rewrite (IH s) by (done || cbn [String.length] in Hf; lia). rewrite slen_cons, <- string_assoc, string_cons_app.
    change ("" +:+ s) with s. replace (o + 1 + slen s) with (o + (1 + slen s)) by lia. done.
Qed.

Lemma readUntil_eof sep s m o b :
  has_char sep s = false →
  readUntil sep (Build_Decoder m s o b) =
    (inl (SyntaxError (o + slen s) WUnexpectedEOF), Build_Decoder m "" (o + slen s) (b +:+ s)).
Proof. intros Hs. unfold readUntil. run. by apply readUntil_loop_eof; [|lia]. Qed.

(** [readUntil] returns after the separator or reports the end of the input. *)
Lemma readUntil_cases sep s m o b :
  (∃ a r, s = a +:+ String sep r ∧ has_char sep a = false ∧
     readUntil sep (Build_Decoder m s o b) = (inr tt, Build_Decoder m r (o + slen a + 1) (b +:+ a))) ∨
  (∃ e d, readUntil sep (Build_Decoder m s o b) = (inl e, d) ∧ e ≠ OutOfFuel).
Proof.
  destruct (has_char sep s) eqn:Hs.
  - apply has_char_split in Hs as (a & r & -> & Ha). left. exists a, r. by rewrite readUntil_found.
  - right. rewrite readUntil_eof by done. eauto.
Qed.

Lemma str_take_app a b : str_take (String.length a) (a +:+ b) = a.
Proof. induction a as [|c a IH]; [by destruct b|]. rewrite string_cons_app. simpl. by rewrite IH. Qed.

Lemma str_drop_app a b : str_drop (String.length a) (a +:+ b) = b.
Proof. induction a as [|c a IH]; [by destruct b|]. rewrite string_cons_app. simpl. by rewrite IH. Qed.

Lemma str_take_drop n s : str_take n s +:+ str_drop n s = s.
Proof. revert s. induction n as [|n IH]; intros [|c s]; try done. cbn [str_take str_drop]. by rewrite string_cons_app, IH. Qed.

Lemma pretty_no_char (c : Ascii.ascii) (z : Z) : is_digit c = false → c ≠ minus → has_char c (pretty z) = false.
Proof.
  intros Hc Hm.
  assert (∀ n s, has_char c s = false → has_char c (pretty_N_go n s) = false) as Hgo.
  { intros n. induction (N.lt_wf_0 n) as [n _ IH]; intros s Hs. destruct (decide (n = 0)%N) as [->|]; [done|].
    rewrite pretty_N_go_step by lia. apply IH; [apply N.div_lt; lia|]. cbn [has_char]. rewrite Hs, orb_false_r.
    apply bool_decide_eq_false. intros ->. destruct (ord_digit (n `mod` 10)) as [Hd _]; [by apply N.mod_lt|congruence]. }
  assert (∀ n : N, has_char c (pretty n) = false) as HN.
  { intros n. unfold pretty, pretty_N. case_decide; [|by apply Hgo]. cbn [has_char]. rewrite orb_false_r.
    apply bool_decide_eq_false. by intros ->. }
  destruct z as [|p|p]; [apply (HN 0%N)|apply HN|].
  change (pretty (Z.neg p)) with (String minus (pretty (N.pos p))). cbn [has_char]. rewrite HN, orb_false_r.
  by apply bool_decide_eq_false.
Qed.

(** *** Integers *)

Lemma checkBufferedInt_error b e : checkBufferedInt b = Some e → e = InvalidLeadingDigit.
Proof. destruct b as [|? [|? ?]]; cbn [checkBufferedInt]; [done..|]. destruct (_ || _); [by intros [= <-]|done]. Qed.

(** The value of an integer: an int64 where it fits. *)
Definition of_int (z : Z) : value := if bool_decide (fits_s 64 z) then VInt z else VBig z.

Lemma parseIntInterface_ok z r m o :
  parseIntInterface (Build_Decoder m (pretty z +:+ String char_e r) o "") =
    (inr (of_int z), Build_Decoder m r (o + slen (pretty z) + 1) "").
Proof.
  unfold parseIntInterface, readInt. run. rewrite readUntil_found by (by apply pretty_no_char). run.
  rewrite string_nil_app. destruct (pretty_checked z) as [-> Hz]. run. rewrite (ParseInt_SetString _ _ Hz), Hz.
  unfold of_int. by case_bool_decide.
Qed.

Lemma parseIntInterface_inv m s o :
  (∃ z r, s = pretty z +:+ String char_e r ∧
     parseIntInterface (Build_Decoder m s o "") = (inr (of_int z), Build_Decoder m r (o + slen (pretty z) + 1) "")) ∨
  (∃ e d, parseIntInterface (Build_Decoder m s o "") = (inl e, d) ∧ e ≠ OutOfFuel).
Proof.
  destruct (readUntil_cases char_e s m o "") as [(a & r & -> & _ & E)|(e & d & E & He)].
  - destruct (checkBufferedInt a) as [e|] eqn:Hc.
    { right. unfold parseIntInterface, readInt. run. rewrite E. run. rewrite string_nil_app, Hc. eexists _, _.
      split; [done|]. by rewrite (checkBufferedInt_error _ _ Hc). }
    destruct (SetString a) as [z|] eqn:Hz.
    + left. exists z, r. assert (a = pretty z) as -> by by apply checked_pretty. split; [done|]. apply parseIntInterface_ok.
    + right. unfold parseIntInterface, readInt. run. rewrite E. run. rewrite string_nil_app, Hc. run. rewrite Hz.
      destruct (ParseInt a) eqn:Hp; [|by eauto..]. apply ParseInt_Ok in Hp as [Hp _]. congruence.
  - right. unfold parseIntInterface, readInt. run. rewrite E. eauto.
Qed.

(** *** Strings *)

Definition max_len (m : Z) : Z := if m =? 0 then DefaultDecodeMaxStrLen else m.

Lemma getMaxStrLen_max_len m s o b : getMaxStrLen (Build_Decoder m s o b) = max_len m.
Proof. done. Qed.

Lemma digits_no_colon (n : Z) c ds : String c ds = pretty n → has_char colon ds = false.
Proof.
  intros E. pose proof (pretty_no_char colon n eq_refl ltac:(discriminate)) as H. rewrite <- E in H.
  cbn [has_char] in H. by apply orb_false_iff in H as [_ H].
Qed.

Lemma parseStringLength_ok n c ds r m o :
  String c ds = pretty n → n ≤ max_len m → fits_s 64 n →
  parseStringLength (Build_Decoder m (ds +:+ String colon r) o (String c "")) =
    (inr (inr n), Build_Decoder m r (o + slen ds + 1) "").
Proof.
  intros E Hn Hf. unfold parseStringLength. run. rewrite readUntil_found by by eapply digits_no_colon. run.
  rewrite string_cons_app, string_nil_app, E. destruct (pretty_checked n) as [-> Hz]. run.
  rewrite (ParseInt_SetString _ _ Hz), bool_decide_true by done. cbn [checkForIntParseError]. run.
  rewrite getMaxStrLen_max_len. destruct (Z.ltb_spec (max_len m) n); [lia|done].
Qed.

(** The outcomes of reading the length of a string. *)
Lemma parseStringLength_cases c s m o :
  is_digit c = true →
  (∃ n ds r, s = ds +:+ String colon r ∧ String c ds = pretty n ∧ 0 ≤ n ≤ max_len m ∧
     parseStringLength (Build_Decoder m s o (String c "")) = (inr (inr n), Build_Decoder m r (o + slen ds + 1) "")) ∨
  (∃ e d, (parseStringLength (Build_Decoder m s o (String c "")) = (inl e, d) ∨
           parseStringLength (Build_Decoder m s o (String c "")) = (inr (inl e), d)) ∧ e ≠ OutOfFuel).
Proof.
  intros Hc. destruct (readUntil_cases colon s m o (String c "")) as [(a & r & -> & _ & E)|(e & d & E & He)].
  - unfold parseStringLength. run. rewrite E. run. rewrite string_cons_app, string_nil_app.
    destruct (checkBufferedInt (String c a)) as [e|] eqn:Hb.
    { right. eexists _, _. split; [by right|]. by rewrite (checkBufferedInt_error _ _ Hb). }
    run. destruct (ParseInt (String c a)) as [n| |] eqn:Hp; cbn [checkForIntParseError]; run; [|by right; eauto..].
    apply ParseInt_Ok in Hp as [Hz Hf]. rewrite getMaxStrLen_max_len.
    destruct (Z.ltb_spec (max_len m) n); [by right; eauto|]. left. exists n, a, r. split_and!; [done| | |lia|done].
    + by apply checked_pretty.
    + revert Hz. unfold SetString, split_sign, is_digit in *. zbool.
      destruct (Z.eqb_spec (ord c) 45); [lia|]. destruct (Z.eqb_spec (ord c) 43); [lia|].
      rewrite bool_decide_false by done. destruct (parse_dec _ _) as [v|] eqn:Hv; [|done]. cbn [mbind option_bind].
      intros [= <-]. by apply (parse_dec_ge (String c a) 0 v).
  - right. unfold parseStringLength. run. rewrite E. eauto.
Qed.

Lemma read_limit_app t r m o b :
  read_limit (slen t) (Build_Decoder m (t +:+ r) o b) = (inr t, Build_Decoder m r o b).
Proof. unfold read_limit, slen. cbn [input MaxStrLen Offset buf]. by rewrite Nat2Z.id, str_take_app, str_drop_app. Qed.

Lemma parseStringInterface_ok t c ds r m o :
  String c ds = pretty (slen t) → slen t ≤ max_len m → fits_s 64 (slen t) →
  parseStringInterface (Build_Decoder m (ds +:+ String colon (t +:+ r)) o (String c "")) =
    (inr t, Build_Decoder m r (o + slen ds + 1 + slen t) "").
Proof.
  intros E Ht Hf. unfold parseStringInterface, readBytes. run. rewrite (parseStringLength_ok (slen t)) by done. run.
  rewrite read_limit_app, Z.eqb_refl. by run.
Qed.

Lemma parseStringInterface_cases c s m o :
  is_digit c = true →
  (∃ t ds r, s = ds +:+ String colon (t +:+ r) ∧ String c ds = pretty (slen t) ∧ slen t ≤ max_len m ∧
     parseStringInterface (Build_Decoder m s o (String c "")) = (inr t, Build_Decoder m r (o + slen ds + 1 + slen t) "")) ∨
  (∃ e d, parseStringInterface (Build_Decoder m s o (String c "")) = (inl e, d) ∧ e ≠ OutOfFuel).
Proof.
  intros Hc. unfold parseStringInterface, readBytes.
  destruct (parseStringLength_cases c s m o Hc) as [(n & ds & r & -> & E & Hn & Hr)|(e & d & [Hr|Hr] & He)];
    run; rewrite Hr; run; [|by eauto..].
  unfold read_limit. cbn [input MaxStrLen Offset buf].
  destruct (Z.eqb_spec (slen (str_take (Z.to_nat n) r)) n) as [Hl|Hne]; run; [|by right; eauto].
  left. exists (str_take (Z.to_nat n) r), ds, (str_drop (Z.to_nat n) r). rewrite str_take_drop, Hl.
  split_and!; (done || lia).
Qed.

(** ** Values the decoder can return *)

Fixpoint ascending (l : list string) : bool :=
  match l with
  | k :: ((k' :: _) as l') => String.ltb k k' && ascending l'
  | _ => true
  end.

(** Integers of the representation their size asks for, strings within the limit
    and maps in the order of their keys. *)
Fixpoint wf (mx : Z) (v : value) : bool :=
  match v with
  | VInt z => bool_decide (fits_s 64 z)
  | VBig z => negb (bool_decide (fits_s 64 z))
  | VStr s => slen s <=? mx
  | VList l => forallb (wf mx) l
  | VDict m => ascending (map fst m) && forallb (λ kv, (slen kv.1 <=? mx) && wf mx kv.2) m
  end.

Section value_induction.
Context (P : value → Prop).
Context (HInt : ∀ z, P (VInt z)) (HBig : ∀ z, P (VBig z)) (HStr : ∀ s, P (VStr s)).
Context (HList : ∀ l, Forall P l → P (VList l)) (HDict : ∀ m, Forall (λ kv, P kv.2) m → P (VDict m)).

Fixpoint value_ind' (v : value) : P v :=
  match v with
  | VInt z => HInt z
  | VBig z => HBig z
  | VStr s => HStr s
  | VList l =>
      HList l ((fix go l : Forall P l :=
        match l with [] => Forall_nil_2 _ | v :: l' => Forall_cons_2 _ v l' (value_ind' v) (go l') end) l)
  | VDict m =>
      HDict m ((fix go m : Forall (λ kv, P kv.2) m :=
        match m with [] => Forall_nil_2 _ | kv :: m' => Forall_cons_2 _ kv m' (value_ind' kv.2) (go m') end) m)
  end.
End value_induction.

(** The text of the elements of a list, and of the entries of a map, up to the
    end marker. *)
Definition enc_list (l : list value) : string := foldr (λ v acc, reflectValue v +:+ acc) "e" l.
Definition enc_dict (m : list (string * value)) : string :=
  foldr (λ kv acc, reflectString kv.1 +:+ reflectValue kv.2 +:+ acc) "e" m.

Lemma ltb_compare a b : String.ltb a b = true ↔ String.compare a b = Lt.
Proof. unfold String.ltb. by destruct (String.compare a b). Qed.

Lemma ltb_trans a b c : String.ltb a b = true → String.ltb b c = true → String.ltb a c = true.
Proof.
  rewrite !ltb_compare. intros H1 H2.
  pose proof (swo_trans (less := cmp_lt String.compare) a b c) as H. unfold cmp_lt in H. rewrite H1, H2 in H.
  destruct (String.compare a c); [|done|]; by discriminate (H eq_refl eq_refl).
Qed.

Lemma insert_sorted_ascending {A} (m : list (string * A)) k v :
  ascending (k :: map fst m) = true → insert_sorted by_key (k, v) m = (k, v) :: m.
Proof.
  destruct m as [|[k' v'] m]; cbn [ascending map insert_sorted fst]; [done|]. intros [H%ltb_compare _]%andb_true_iff.
  unfold by_key, cmp_lt, cmp_on. cbn [fst]. rewrite String.compare_antisym, H. done.
Qed.

Lemma ascending_tail k l : ascending (k :: l) = true → ascending l = true.
Proof. destruct l; [done|]. cbn [ascending]. by intros [_ H]%andb_true_iff. Qed.

(** A map is encoded in the order of its keys. *)
Lemma sort_ascending {A} (m : list (string * A)) : ascending (map fst m) = true → sort_stable by_key m = m.
Proof.
  induction m as [|[k v] m IH]; [done|]. intros H. cbn [sort_stable foldr]. change (foldr (insert_sorted by_key) [] m) with (sort_stable by_key m).
  rewrite IH by by eapply ascending_tail. by apply insert_sorted_ascending.
Qed.

Lemma reflectValue_dict m :
  ascending (map fst m) = true → reflectValue (VDict m) = "d" +:+ enc_dict m.
Proof.
  intros H. cbn [reflectValue]. rewrite sort_ascending by by rewrite map_map.
  f_equal. clear H. induction m as [|[k v] m IH]; [done|]. cbn [map foldr enc_dict fst snd]. by rewrite IH.
Qed.

Lemma reflectString_head s : ∃ c ds, String c ds = pretty (slen s) ∧ is_digit c = true ∧
  reflectString s = String c (ds +:+ String colon s).
Proof.
  unfold reflectString, AppendInt. assert (pretty (slen s) = pretty (Z.to_N (slen s))) as E.
  { pose proof (slen_nonneg s). by destruct (slen s) as [|p|p]; [| |lia]. }
  destruct (pretty_N_cases (Z.to_N (slen s))) as [(c & Hc & Hd)|(c & ds & Hc & Hd & _)].
  - exists c, "". by rewrite E, Hc.
  - exists c, ds. by rewrite E, Hc.
Qed.

(** Every value takes at least two bytes. *)
Lemma foldr_text_length {A} (f : A → string → string) (l : list A) :
  (∀ x t, (String.length t ≤ String.length (f x t))%nat) → (1 ≤ String.length (foldr f "e" l))%nat.
Proof. intros Hf. induction l as [|x l IH]; [done|]. cbn [foldr]. pose proof (Hf x (foldr f "e" l)). lia. Qed.

Lemma reflectValue_length v : (2 ≤ String.length (reflectValue v))%nat.
Proof.
  destruct v; cbn [reflectValue].
  - rewrite !length_app_string. simpl. lia.
  - rewrite !length_app_string. simpl. lia.
  - destruct (reflectString_head s) as (c & ds & _ & _ & ->). cbn [String.length]. rewrite length_app_string. simpl. lia.
  - rewrite length_app_string. pose proof (foldr_text_length (λ v acc, reflectValue v +:+ acc) l) as H.
    simpl in *. assert (1 ≤ String.length (foldr (λ v acc, reflectValue v +:+ acc) "e" l))%nat; [|lia].
    apply H. intros x t. rewrite length_app_string. lia.
  - rewrite length_app_string. simpl. apply le_n_S, foldr_text_length. intros x t. rewrite !length_app_string. lia.
Qed.

(** ** One step of the decoder, by the first byte *)

Lemma parse_nil f m o : parseValueInterface (S f) (Build_Decoder m "" o "") = (inl EOF, Build_Decoder m "" o "").
Proof. done. Qed.

Lemma parse_e f m s o :
  parseValueInterface (S f) (Build_Decoder m (String char_e s) o "") = (inr None, Build_Decoder m s (o + 1) "").
Proof. done. Qed.

Lemma parse_d f m s o :
  parseValueInterface (S f) (Build_Decoder m (String char_d s) o "") =
    (dict ← parseDictInterface f None []; mret (Some (VDict dict))) (Build_Decoder m s (o + 1) "").
Proof. done. Qed.

Lemma parse_l f m s o :
  parseValueInterface (S f) (Build_Decoder m (String char_l s) o "") =
    (l ← parseListInterface f []; mret (Some (VList l))) (Build_Decoder m s (o + 1) "").
Proof. done. Qed.

Lemma parse_i f m s o :
  parseValueInterface (S f) (Build_Decoder m (String char_i s) o "") =
    (n ← parseIntInterface; mret (Some n)) (Build_Decoder m s (o + 1) "").
Proof. done. Qed.

Lemma digit_not_letter c : is_digit c = true → c ≠ char_e ∧ c ≠ char_d ∧ c ≠ char_l ∧ c ≠ char_i.
Proof. by intros H; split_and!; intros ->. Qed.

Lemma parse_digit f m c s o :
  is_digit c = true →
  parseValueInterface (S f) (Build_Decoder m (String c s) o "") =
    (t ← parseStringInterface; mret (Some (VStr t))) (Build_Decoder m s (o + 1) (String c "")).
Proof.
  intros Hc. destruct (digit_not_letter c Hc) as (? & ? & ? & ?). cbn [parseValueInterface]. run.
  rewrite !bool_decide_false by done. rewrite Hc. by run.
Qed.

Lemma parse_other f m c s o :
  is_digit c = false → c ≠ char_e → c ≠ char_d → c ≠ char_l → c ≠ char_i →
  ∃ d, parseValueInterface (S f) (Build_Decoder m (String c s) o "") = (inl (SyntaxError o (WUnknownType c)), d).
Proof.
  intros Hc ? ? ? ?. cbn [parseValueInterface]. run. rewrite !bool_decide_false by done. rewrite Hc. run.
  replace (o + 1 - 1) with o by lia. eauto.
Qed.

(** *** Decoding what was encoded *)

Lemma fits_len mx s : slen s ≤ mx → mx < 2 ^ 63 → fits_s 64 (slen s).
Proof. intros. pose proof (slen_nonneg s). unfold fits_s. change (64 - 1) with 63. lia. Qed.

Lemma parse_string_ok f m t r o :
  slen t ≤ max_len m → max_len m < 2 ^ 63 →
  parseValueInterface (S f) (Build_Decoder m (reflectString t +:+ r) o "") =
    (inr (Some (VStr t)), Build_Decoder m r (o + slen (reflectString t)) "").
Proof.
  intros Ht Hm. destruct (reflectString_head t) as (c & ds & E & Hc & ->). rewrite string_cons_app, parse_digit by done.
  rewrite <- string_assoc, string_cons_app. run.
  rewrite parseStringInterface_ok by (done || by eapply fits_len). run.
  rewrite slen_cons, slen_app, slen_cons. do 2 f_equal. lia.
Qed.

Definition parses (v : value) : Prop := ∀ m r o fuel,
  wf (max_len m) v = true → max_len m < 2 ^ 63 → (2 * String.length (reflectValue v) ≤ fuel + 1)%nat →
  parseValueInterface fuel (Build_Decoder m (reflectValue v +:+ r) o "") =
    (inr (Some v), Build_Decoder m r (o + slen (reflectValue v)) "").

Lemma parse_list_ok l m r o fuel acc :
  Forall parses l → forallb (wf (max_len m)) l = true → max_len m < 2 ^ 63 →
  (2 * String.length (enc_list l) ≤ fuel)%nat →
  parseListInterface fuel acc (Build_Decoder m (enc_list l +:+ r) o "") =
    (inr (acc ++ l)%list, Build_Decoder m r (o + slen (enc_list l)) "").
Proof.
  intros HP Hwf Hm. revert fuel acc o Hwf. induction HP as [|v l Hv HP IH]; intros fuel acc o Hwf Hf.
  - destruct fuel as [|[|fuel]]; [simpl in Hf; lia..|]. by rewrite app_nil_r.
  - cbn [enc_list foldr] in *. fold (enc_list l) in *. apply andb_true_iff in Hwf as [Hw Hwf].
    rewrite length_app_string in Hf. pose proof (reflectValue_length v).
    assert (1 ≤ String.length (enc_list l))%nat by (apply foldr_text_length; intros; rewrite length_app_string; lia).
    destruct fuel as [|fuel]; [lia|]. cbn [parseListInterface]. run. rewrite <- string_assoc.
    rewrite Hv by (done || lia). rewrite IH by (done || lia). rewrite slen_app, <- app_assoc. do 2 f_equal. lia.
Qed.

Lemma map_set_last {A} (m : list (string * A)) k v :
  Forall (λ k', String.ltb k' k = true) (map fst m) → map_set k v m = (m ++ [(k, v)])%list.
Proof.
  induction m as [|[k' v'] m IH]; cbn [map_set map fst]; [done|]. intros [H%ltb_compare Hm]%Forall_cons_1.
  rewrite String.compare_antisym, H. cbn [CompOpp app]. by rewrite IH.
Qed.

(** The keys are below the next one when the last one is. *)
Lemma ascending_below l k :
  ascending l = true → (∀ k', last l = Some k' → String.ltb k' k = true) → Forall (λ k', String.ltb k' k = true) l.
Proof.
  induction l as [|a l IH]; [done|]. intros Ha Hl. destruct l as [|b l].
  - constructor; [by apply Hl|done].
  - cbn [ascending] in Ha. apply andb_true_iff in Ha as [Hab Ha]. specialize (IH Ha Hl). constructor; [|done].
    apply Forall_cons in IH as [Hb _]. by eapply ltb_trans.
Qed.

Lemma ascending_snoc l k :
  ascending (l ++ [k])%list = true ↔ ascending l = true ∧ (∀ k', last l = Some k' → String.ltb k' k = true).
Proof.
  induction l as [|a [|b l] IH].
  - split; [done|]. by intros.
  - simpl. rewrite andb_true_r. split; [intros H; split; [done|]; by intros ? [= <-]|]. intros [_ H]. by apply H.
  - change (ascending ((a :: b :: l) ++ [k])%list) with (String.ltb a b && ascending ((b :: l) ++ [k])%list).
    change (ascending (a :: b :: l)) with (String.ltb a b && ascending (b :: l)). change (last (a :: b :: l)) with (last (b :: l)).
    rewrite !andb_true_iff, IH. tauto.
Qed.

Lemma leb_ltb a b : String.leb a b = negb (String.ltb b a).
Proof. unfold String.leb, String.ltb. rewrite (String.compare_antisym b a). by destruct (String.compare a b). Qed.

Lemma ascending_app l1 l2 : ascending (l1 ++ l2)%list = true → ascending l1 = true.
Proof.
  induction l2 as [|k l2 IH] using rev_ind; [by rewrite app_nil_r|]. rewrite app_assoc.
  intros [H _]%ascending_snoc. by apply IH.
Qed.

(** The next key of a map is accepted and its entry goes to the end. *)
Lemma next_key {A} (dict es : list (string * A)) k v :
  ascending (map fst dict ++ k :: map fst es)%list = true →
  (∀ k', last (map fst dict) = Some k' → String.leb k k' = false) ∧ map_set k v dict = (dict ++ [(k, v)])%list ∧
  last (map fst (dict ++ [(k, v)])%list) = Some k.
Proof.
  intros H. change (k :: map fst es) with ([k] ++ map fst es)%list in H. rewrite app_assoc in H.
  apply ascending_app, ascending_snoc in H as [Hd Hl]. split_and!.
  - intros k' Hk. by rewrite leb_ltb, Hl.
  - by apply map_set_last, ascending_below.
  - rewrite map_app. cbn [map fst]. by rewrite last_snoc.
Qed.

Lemma parse_dict_ok es m r o fuel dict :
  Forall (λ kv, parses kv.2) es → ascending (map fst dict ++ map fst es)%list = true →
  forallb (λ kv, (slen kv.1 <=? max_len m) && wf (max_len m) kv.2) es = true → max_len m < 2 ^ 63 →
  (2 * String.length (enc_dict es) ≤ fuel)%nat →
  parseDictInterface fuel (last (map fst dict)) dict (Build_Decoder m (enc_dict es +:+ r) o "") =
    (inr (dict ++ es)%list, Build_Decoder m r (o + slen (enc_dict es)) "").
Proof.
  intros HP Hasc Hwf Hm. revert fuel dict o Hasc Hwf. induction HP as [|[k v] es Hv HP IH]; intros fuel dict o Hasc Hwf Hf.
  - destruct fuel as [|[|fuel]]; [simpl in Hf; lia..|]. by rewrite app_nil_r.
  - cbn [enc_dict foldr fst snd forallb map] in *. fold (enc_dict es) in *. zbool.
    rewrite !length_app_string in Hf. pose proof (reflectValue_length v).
    assert (1 ≤ String.length (enc_dict es))%nat by (apply foldr_text_length; intros; rewrite !length_app_string; lia).
    destruct fuel as [|fuel]; [lia|]. destruct (next_key dict es k v Hasc) as (Hleb & Hset & Hlast).
    cbn [parseDictInterface]. destruct fuel as [|fuel]; [lia|]. run. rewrite <- string_assoc, parse_string_ok by done.
    rewrite <- string_assoc. unfold check_order. destruct (last (map fst dict)) as [k'|] eqn:Hk; [rewrite Hleb by done|];
      (run; rewrite Hv by (done || lia); rewrite Hset, <- Hlast, IH;
       [rewrite <- app_assoc, !slen_app; do 2 f_equal; lia
       |rewrite map_app, <- app_assoc; done|done|lia]).
Qed.

Lemma parse_ok v : parses v.
Proof.
  induction v as [z|z|t|l IH|es IH] using value_ind'; intros m r o fuel Hwf Hm Hf;
    pose proof (reflectValue_length (VInt 0)); (destruct fuel as [|fuel]; [pose proof (reflectValue_length (VStr ""));
      match type of Hf with context [reflectValue ?v] => pose proof (reflectValue_length v); lia end|]).
  - change (reflectValue (VInt z)) with (String char_i (pretty z +:+ "e")). rewrite string_cons_app, parse_i, <- string_assoc.
    run. rewrite (parseIntInterface_ok z r). unfold of_int. cbn [wf] in Hwf. rewrite Hwf. rewrite slen_cons, slen_app.
    change (slen "e") with 1. do 2 f_equal. lia.
  - change (reflectValue (VBig z)) with (String char_i (pretty z +:+ "e")). rewrite string_cons_app, parse_i, <- string_assoc.
    run. rewrite (parseIntInterface_ok z r). unfold of_int. cbn [wf] in Hwf. zbool. rewrite bool_decide_false by done.
    rewrite slen_cons, slen_app. change (slen "e") with 1. do 2 f_equal. lia.
  - cbn [wf] in Hwf. zbool. by apply parse_string_ok.
  - change (reflectValue (VList l)) with (String char_l (enc_list l)) in *. rewrite string_cons_app, parse_l. run.
    cbn [String.length] in Hf. rewrite parse_list_ok by (done || lia). rewrite slen_cons. do 2 f_equal. lia.
  - cbn [wf] in Hwf. apply andb_true_iff in Hwf as [Hasc Hwf]. rewrite reflectValue_dict in * by done.
    change ("d" +:+ enc_dict es) with (String char_d (enc_dict es)) in *. rewrite string_cons_app, parse_d. run.
    cbn [String.length] in Hf. pose proof (parse_dict_ok es m r (o + 1) fuel []) as E. cbn [map last app] in E.
    rewrite E by (done || lia). rewrite slen_cons. do 2 f_equal. lia.
Qed.

(** *** What is decoded is the encoding of the result *)

(** The outcome of a call on the input [s]: a text with its result, as [ok]
    says, was read, or there was an error that is not the model's. *)
Definition outcome {A} (m : Z) (s : string) (o : Z) (ok : A → string → Prop) (res : (error + A) * Decoder) : Prop :=
  (∃ x text r, res = (inr x, Build_Decoder m r (o + slen text) "") ∧ s = text +:+ r ∧ ok x text) ∨
  (∃ e d, res = (inl e, d) ∧ e ≠ OutOfFuel).

Lemma outcome_ret {A} m s o (ok : A → string → Prop) x :
  ok x "" → outcome m s o ok ((mret x : M A) (Build_Decoder m s o "")).
Proof. intros H. left. exists x, "", s. split_and!; [|done|done]. unfold mret, M_ret. change (slen "") with 0. by rewrite Z.add_0_r. Qed.

Lemma outcome_error {A} m s o (ok : A → string → Prop) e d : e ≠ OutOfFuel → outcome m s o ok (inl e, d).
Proof. intros H. right. eauto. Qed.

Lemma outcome_bind {A B} m s o (P : A → string → Prop) (Q : B → string → Prop) (mm : M A) (f : A → M B) :
  outcome m s o P (mm (Build_Decoder m s o "")) →
  (∀ x text r, s = text +:+ r → P x text →
     outcome m r (o + slen text) (λ y t, Q y (text +:+ t)) (f x (Build_Decoder m r (o + slen text) ""))) →
  outcome m s o Q ((x ← mm; f x) (Build_Decoder m s o "")).
Proof.
  intros [(x & text & r & Hm & Hs & HP)|(e & d & Hm & He)] Hf.
  - unfold mbind, M_bind. rewrite Hm. destruct (Hf x text r Hs HP) as [(y & t & r' & Hy & Hr & HQ)|(e & d & Hy & He)].
    + left. exists y, (text +:+ t), r'. rewrite Hy, Hs, Hr, slen_app, string_assoc, Z.add_assoc. done.
    + right. eauto.
  - right. unfold mbind, M_bind. rewrite Hm. eauto.
Qed.

(** A step that reads nothing. *)
Lemma outcome_step {A B} m s o (Q : B → string → Prop) (mm : M A) (f : A → M B) d d' x :
  mm d = (inr x, d') → outcome m s o Q (f x d') → outcome m s o Q ((x ← mm; f x) d).
Proof. intros H. unfold mbind, M_bind. by rewrite H. Qed.

Lemma outcome_step_error {A B} m s o (Q : B → string → Prop) (mm : M A) (f : A → M B) d d' e :
  mm d = (inl e, d') → e ≠ OutOfFuel → outcome m s o Q ((x ← mm; f x) d).
Proof. intros H He. unfold mbind, M_bind. rewrite H. by apply outcome_error. Qed.

Lemma outcome_cons {A} m c s o (ok : A → string → Prop) res :
  outcome m s (o + 1) (λ x t, ok x (String c t)) res → outcome m (String c s) o ok res.
Proof.
  intros [(x & text & r & Hm & Hs & HP)|(e & d & Hm & He)]; [left|right; eauto].
  exists x, (String c text), r. rewrite Hm, slen_cons, Hs, string_cons_app, Z.add_assoc. done.
Qed.

Definition is_value (mx : Z) (x : option value) (text : string) : Prop :=
  match x with None => text = "e" | Some v => wf mx v = true ∧ text = reflectValue v end.

Definition is_list (mx : Z) (acc x : list value) (text : string) : Prop :=
  ∃ l, x = (acc ++ l)%list ∧ forallb (wf mx) l = true ∧ text = enc_list l.

Definition is_dict (mx : Z) (dict x : list (string * value)) (text : string) : Prop :=
  ∃ es, x = (dict ++ es)%list ∧ ascending (map fst x) = true ∧
    forallb (λ kv, (slen kv.1 <=? mx) && wf mx kv.2) es = true ∧ text = enc_dict es.

Lemma is_value_length mx x text : is_value mx x text → (1 ≤ String.length text)%nat.
Proof. destruct x as [v|]; [|by intros ->]. intros [_ ->]. pose proof (reflectValue_length v). lia. Qed.

Lemma int_outcome m s o :
  outcome m s o (λ v t, ∃ z, v = of_int z ∧ t = pretty z +:+ "e") (parseIntInterface (Build_Decoder m s o "")).
Proof.
  destruct (parseIntInterface_inv m s o) as [(z & r & -> & ->)|(e & d & -> & He)]; [left|right; eauto].
  exists (of_int z), (pretty z +:+ "e"), r. rewrite slen_app, <- string_assoc. change (slen "e") with 1.
  split_and!; [|done|eauto]. do 2 f_equal. lia.
Qed.

Lemma string_outcome c m s o :
  is_digit c = true →
  outcome m s o (λ t text, slen t ≤ max_len m ∧ String c text = reflectString t)
    (parseStringInterface (Build_Decoder m s o (String c ""))).
Proof.
  intros Hc. destruct (parseStringInterface_cases c s m o Hc) as [(t & ds & r & -> & E & Ht & ->)|(e & d & -> & He)]; [left|right; eauto].
  exists t, (ds +:+ String colon t), r. rewrite slen_app, slen_cons, <- string_assoc, string_cons_app.
  split_and!; [|done|done|].
  - do 2 f_equal. lia.
  - unfold reflectString, AppendInt. by rewrite <- E.
Qed.

Lemma of_int_value mx z : is_value mx (Some (of_int z)) (String char_i (pretty z +:+ "e")).
Proof. unfold of_int. case_bool_decide; cbn [is_value wf]; [by rewrite bool_decide_true|by rewrite bool_decide_false]. Qed.

(** A key is accepted when it is above the last one. *)
Lemma check_order_cases (dict : list (string * value)) key start d :
  ascending (map fst dict) = true →
  (check_order (last (map fst dict)) key start d = (inr tt, d) ∧ ascending (map fst dict ++ [key])%list = true) ∨
  (∃ e, check_order (last (map fst dict)) key start d = (inl e, d) ∧ e ≠ OutOfFuel).
Proof.
  intros Hasc. rewrite ascending_snoc. unfold check_order. destruct (last (map fst dict)) as [k'|]; [|by left].
  rewrite leb_ltb. destruct (String.ltb k' key) eqn:E; [left|right; by eexists].
  split_and!; [done..|]. by intros ? [= <-].
Qed.

Section steps.
Context (fuel : nat).
Context (Hval : ∀ m s o, (2 * String.length s + 1 ≤ fuel)%nat →
  outcome m s o (is_value (max_len m)) (parseValueInterface fuel (Build_Decoder m s o ""))).
Context (Hlist : ∀ m s o acc, (2 * String.length s + 2 ≤ fuel)%nat →
  outcome m s o (is_list (max_len m) acc) (parseListInterface fuel acc (Build_Decoder m s o ""))).
Context (Hdict : ∀ m s o dict, (2 * String.length s + 2 ≤ fuel)%nat → ascending (map fst dict) = true →
  outcome m s o (is_dict (max_len m) dict) (parseDictInterface fuel (last (map fst dict)) dict (Build_Decoder m s o ""))).

Lemma value_step m s o :
  (2 * String.length s + 1 ≤ S fuel)%nat →
  outcome m s o (is_value (max_len m)) (parseValueInterface (S fuel) (Build_Decoder m s o "")).
Proof using Hlist Hdict.
  intros Hf. destruct s as [|c s]; [by rewrite parse_nil; apply outcome_error|]. cbn [String.length] in Hf.
  apply outcome_cons. destruct (is_digit c) eqn:Hc.
  { rewrite parse_digit by done.
    destruct (string_outcome c m s (o + 1) Hc) as [(t & text & r & Hm & -> & Ht & Htext)|(e & d & Hm & He)];
      run; rewrite Hm; [left|right; eauto].
    eexists _, text, r. split_and!; [done..|]. cbn [is_value wf reflectValue]. split; [lia|done]. }
  destruct (decide (c = char_e)) as [->|]; [rewrite parse_e; by apply outcome_ret|].
  destruct (decide (c = char_d)) as [->|].
  { rewrite parse_d. eapply outcome_bind; [by apply (Hdict m s (o + 1) []); [lia|]|].
    intros x text r -> (es & -> & Hasc & Hes & ->). apply outcome_ret. cbn [is_value wf app] in *. rewrite string_nil_r.
    split; [by rewrite Hasc|]. by rewrite reflectValue_dict. }
  destruct (decide (c = char_l)) as [->|].
  { rewrite parse_l. eapply outcome_bind; [apply (Hlist m s (o + 1) []); lia|].
    intros x text r -> (l & -> & Hl & ->). apply outcome_ret. rewrite string_nil_r. done. }
  destruct (decide (c = char_i)) as [->|].
  { rewrite parse_i. eapply outcome_bind; [apply int_outcome|]. intros x text r -> (z & -> & ->). apply outcome_ret.
    rewrite string_nil_r. apply of_int_value. }
  destruct (parse_other fuel m c s o) as [d ->]; [done..|]. by apply outcome_error.
Qed.

Lemma list_step m s o acc :
  (2 * String.length s + 2 ≤ S fuel)%nat →
  outcome m s o (is_list (max_len m) acc) (parseListInterface (S fuel) acc (Build_Decoder m s o "")).
Proof using Hval Hlist.
  intros Hf. cbn [parseListInterface]. eapply outcome_bind; [apply Hval; lia|].
  intros [v|] text r -> Hx; pose proof (is_value_length _ _ _ Hx); rewrite length_app_string in Hf.
  - destruct (Hlist m r (o + slen text) (acc ++ [v])) as [(x & t & r' & Hm & -> & (l & -> & Hl & ->))|(e & d & Hm & He)];
      [lia| |rewrite Hm; by apply outcome_error].
    left. eexists _, _, _. split_and!; [exact Hm|done|]. destruct Hx as [Hv ->].
    exists (v :: l). rewrite <- app_assoc. cbn [app forallb]. by rewrite Hv, Hl.
  - apply outcome_ret. cbn [is_value] in Hx. subst text. exists []. by rewrite app_nil_r.
Qed.

Lemma dict_step m s o dict :
  (2 * String.length s + 2 ≤ S fuel)%nat → ascending (map fst dict) = true →
  outcome m s o (is_dict (max_len m) dict)
    (parseDictInterface (S fuel) (last (map fst dict)) dict (Build_Decoder m s o "")).
Proof using Hval Hdict.
  intros Hf Hasc. cbn [parseDictInterface]. eapply outcome_step; [done|]. cbn [Offset].
  eapply outcome_bind; [apply Hval; lia|].
  intros [[z|z|key|l|es]|] text r -> Hx; pose proof (is_value_length _ _ _ Hx); rewrite length_app_string in Hf;
    try (by apply outcome_error).
  - destruct Hx as [Hk ->]. cbn [wf reflectValue] in *. zbool.
    destruct (check_order_cases dict key o (Build_Decoder m r (o + slen (reflectString key)) "") Hasc) as [[Hc Ha]|(e & Hc & He)];
      [|by eapply outcome_step_error].
    eapply outcome_step; [exact Hc|]. eapply outcome_step; [done|]. cbn [Offset].
    eapply outcome_bind; [apply Hval; lia|].
    intros [v|] text r' -> Hx; pose proof (is_value_length _ _ _ Hx); [|by apply outcome_error].
    rewrite length_app_string in Hf. destruct Hx as [Hv ->]. destruct (next_key dict [] key v Ha) as (_ & Hset & Hlast).
    rewrite Hset, <- Hlast.
    destruct (Hdict m r' (o + slen (reflectString key) + slen (reflectValue v)) (dict ++ [(key, v)]))
      as [(x & t & r'' & Hm & -> & (es & -> & Has & Hes & ->))|(e & d & Hm & He)];
      [lia|by rewrite map_app| |rewrite Hm; by apply outcome_error].
    left. eexists _, _, _. split_and!; [exact Hm|done|].
    exists ((key, v) :: es). rewrite <- app_assoc in Has |- *. cbn [app forallb fst snd]. rewrite Hes, Hv.
    split_and!; [done|done|lia|done].
  - apply outcome_ret. cbn [is_value] in Hx. subst text. exists []. by rewrite !app_nil_r.
Qed.
End steps.

(** Every call returns: it reads the text of its result or reports an error. *)
Lemma parse_outcome fuel :
  (∀ m s o, (2 * String.length s + 1 ≤ fuel)%nat →
     outcome m s o (is_value (max_len m)) (parseValueInterface fuel (Build_Decoder m s o ""))) ∧
  (∀ m s o acc, (2 * String.length s + 2 ≤ fuel)%nat →
     outcome m s o (is_list (max_len m) acc) (parseListInterface fuel acc (Build_Decoder m s o ""))) ∧
  (∀ m s o dict, (2 * String.length s + 2 ≤ fuel)%nat → ascending (map fst dict) = true →
     outcome m s o (is_dict (max_len m) dict) (parseDictInterface fuel (last (map fst dict)) dict (Build_Decoder m s o ""))).
Proof.
  induction fuel as [|fuel (Hv & Hl & Hd)]; [split_and!; intros; lia|].
  split_and!; intros; [by apply value_step|by apply list_step|by apply dict_step].
Qed.

(** ** The format *)

(** C30: decoding into an [interface{}] accepts exactly the texts the encoder
    writes: [Unmarshal] returns the value [v] if and only if [v] is well formed
    (its integers in the representation of their size, its strings within the
    length limit, its maps ordered) and the input is what [Marshal] writes for it,
    so no two inputs decode to the same value and every value survives a round
    trip; on every other input it returns an error, and it always returns. *)
Theorem Unmarshal_iff_Marshal (data : string) (v : value) :
  (Unmarshal data = inr v ↔ wf DefaultDecodeMaxStrLen v = true ∧ Marshal v = data) ∧
  Unmarshal data ≠ inl OutOfFuel.
Proof.
  assert (max_len 0 = DefaultDecodeMaxStrLen) as Hm by done. unfold Unmarshal, new_decoder, Marshal. split; [split|].
  - destruct (proj1 (parse_outcome (S (2 * String.length data))) 0 data 0 ltac:(lia))
      as [([x|] & text & r & -> & Hs & Hx)|(e & d & -> & He)]; [|done..].
    cbn [input]. case_bool_decide as Hr; [|done]. intros [= <-]. destruct Hx as [Hw ->]. subst r. rewrite string_nil_r in Hs.
    by rewrite <- Hm.
  - intros [Hw <-]. rewrite <- Hm in Hw.
    pose proof (parse_ok v 0 "" 0 (S (2 * String.length (reflectValue v))) Hw ltac:(done) ltac:(lia)) as E.
    rewrite string_nil_r in E. by rewrite E.
  - destruct (proj1 (parse_outcome (S (2 * String.length data))) 0 data 0 ltac:(lia))
      as [([x|] & text & r & -> & Hs & Hx)|(e & d & -> & He)]; [|done|].
    + cbn [input]. by case_bool_decide.
    + by destruct e.
Qed.

(** ** Every call returns *)

(** With at most [n] bytes left, the call [m] does not run out of fuel, and
    where it returns [x] it has read at least [K x] bytes. *)
Definition fine {A} (n : nat) (m : M A) (K : A → nat) : Prop := ∀ d,
  (String.length (input d) ≤ n)%nat →
  match m d with
  | (inl e, _) => e ≠ OutOfFuel
  | (inr x, d') => (String.length (input d') + K x ≤ String.length (input d))%nat
  end.

Lemma fine_bind {A B} n (m : M A) (f : A → M B) K J :
  fine n m K → (∀ x, (K x ≤ n)%nat → fine (n - K x) (f x) (λ y, J y - K x)%nat) → fine n (x ← m; f x) J.
Proof.
  intros Hm Hf d Hd. specialize (Hm d Hd). unfold mbind, M_bind. destruct (m d) as [[e|x] d']; [done|].
  specialize (Hf x ltac:(lia) d' ltac:(lia)). destruct (f x d') as [[e|y] d'']; [done|]. lia.
Qed.

(** The same, with the continuation at the results the call has. *)
Lemma fine_bind_eq {A B} n (m : M A) (f : A → M B) K J :
  fine n m K → (∀ x d d', m d = (inr x, d') → (K x ≤ n)%nat → fine (n - K x) (f x) (λ y, J y - K x)%nat) → fine n (x ← m; f x) J.
Proof.
  intros Hm Hf d Hd. specialize (Hm d Hd). unfold mbind, M_bind. destruct (m d) as [[e|x] d'] eqn:E; [done|].
  specialize (Hf x d d' E ltac:(lia) d' ltac:(lia)). destruct (f x d') as [[e|y] d'']; [done|]. lia.
Qed.

Lemma fine_mono {A} n n' (m : M A) K K' :
  fine n m K → (n' ≤ n)%nat → (∀ x, K' x ≤ K x)%nat → fine n' m K'.
Proof.
  intros Hm Hn HK d Hd. specialize (Hm d ltac:(lia)). destruct (m d) as [[e|x] d']; [done|]. specialize (HK x). lia.
Qed.

Lemma fine_ret {A} n (x : A) K : K x = 0%nat → fine n (mret x : M A) K.
Proof. intros HK d Hd. simpl. lia. Qed.

Lemma fine_panic {A} n e (K : A → nat) : e ≠ OutOfFuel → fine n (panic e) K.
Proof. by intros He d Hd. Qed.

Lemma fine_get n : fine n get (λ _, 0%nat).
Proof. intros d Hd. simpl. lia. Qed.

Lemma fine_add_offset n z : fine n (add_offset z) (λ _, 0%nat).
Proof. intros d Hd. simpl. lia. Qed.

Lemma fine_WriteString n s : fine n (WriteString s) (λ _, 0%nat).
Proof. intros d Hd. simpl. lia. Qed.

Lemma fine_Reset n : fine n Reset (λ _, 0%nat).
Proof. intros d Hd. simpl. lia. Qed.

Lemma fine_ReadByte n : fine n ReadByte (λ b, match b with Some _ => 1%nat | None => 0%nat end).
Proof. intros [m [|c s] o b] Hd; simpl; lia. Qed.

Lemma fine_readUntil n sep : fine n (readUntil sep) (λ _, 1%nat).
Proof.
  intros [m s o b] Hd. destruct (readUntil_cases sep s m o b) as [(a & r & -> & _ & ->)|(e & d & -> & He)]; [|done].
  cbn [input]. rewrite length_app_string. simpl. lia.
Qed.

Lemma fine_check_int n r o : fine n (checkForIntParseError r o) (λ _, 0%nat).
Proof. destruct r; intros d Hd; simpl; [lia|done..]. Qed.

Lemma str_drop_length n s : (String.length (str_drop n s) ≤ String.length s)%nat.
Proof. revert s. induction n as [|n IH]; intros [|c s]; simpl; try lia. specialize (IH s). lia. Qed.

Lemma fine_read_limit n k : fine n (read_limit k) (λ _, 0%nat).
Proof. intros [m s o b] Hd. simpl. pose proof (str_drop_length (Z.to_nat k) s). lia. Qed.

(** Splits a call into its parts; what remains are the calls with a lemma that
    is not in the database. *)
Create HintDb fine.
#[export] Hint Resolve fine_get fine_add_offset fine_WriteString fine_Reset fine_ReadByte fine_readUntil fine_check_int
  fine_read_limit : fine.

Ltac fine_step :=
  match goal with
  | |- fine _ (mbind _ _) _ => eapply fine_bind; [solve [eauto with fine]|intros ? ?]
  | |- fine _ (if ?b then _ else _) _ => destruct b eqn:?
  | |- fine _ (panic _) _ => apply fine_panic; discriminate
  | |- fine _ (throwSyntaxError _ _) _ => apply fine_panic; discriminate
  | |- fine _ (raiseUnknownValueType _ _) _ => apply fine_panic; discriminate
  | |- fine _ (mret _) _ => apply fine_ret; cbn; lia
  | |- fine _ (match ?x with _ => _ end) _ => destruct x eqn:?
  | |- fine ?n _ _ => solve [eapply (fine_mono n n); [eauto with fine|lia|intros; cbn beta; lia]]
  end; cbn beta iota.

Lemma fine_WriteByte n c : fine n (WriteByte c) (λ _, 0%nat).
Proof. apply fine_WriteString. Qed.

Lemma fine_readByte n : fine n readByte (λ _, 1%nat).
Proof. unfold readByte. repeat fine_step. Qed.

#[export] Hint Resolve fine_WriteByte fine_readByte : fine.

Lemma fine_readInt n : fine n readInt (λ _, 1%nat).
Proof. unfold readInt. repeat fine_step. Qed.

Lemma fine_parseStringLength n : fine n parseStringLength (λ _, 1%nat).
Proof. unfold parseStringLength. repeat fine_step. Qed.

#[export] Hint Resolve fine_readInt fine_parseStringLength : fine.

Lemma readInt_error d e d' : readInt d = (inr (Some e), d') → e = InvalidLeadingDigit.
Proof.
  unfold readInt. run. destruct (readUntil char_e d) as [[?|[]] d1]; [done|]. intros [= H _]. by apply checkBufferedInt_error in H.
Qed.

Lemma parseStringLength_error d e d' : parseStringLength d = (inr (inl e), d') → e ≠ OutOfFuel.
Proof.
  unfold parseStringLength. run. destruct (readUntil colon d) as [[?|[]] d1]; [done|].
  destruct (checkBufferedInt _) eqn:H; [intros [= <- _]; by rewrite (checkBufferedInt_error _ _ H)|].
  destruct (ParseInt _); cbn [checkForIntParseError]; run; [|done..]. destruct (_ <? _); [|done]. by intros [= <- _].
Qed.

Lemma fine_parseIntInterface n : fine n parseIntInterface (λ _, 1%nat).
Proof.
  unfold parseIntInterface. fine_step. eapply fine_bind_eq; [apply fine_readInt|]. intros [e|] d d' E _.
  - apply fine_panic. by rewrite (readInt_error _ _ _ E).
  - fine_step. eapply (fine_bind _ _ _ (λ _, 0%nat)); [|intros ret _; repeat fine_step]. repeat fine_step.
Qed.

Lemma fine_readBytes n k : fine n (readBytes k) (λ _, 0%nat).
Proof. unfold readBytes. repeat fine_step. Qed.

#[export] Hint Resolve fine_parseIntInterface fine_readBytes : fine.

Lemma fine_parseStringInterface n : fine n parseStringInterface (λ _, 1%nat).
Proof.
  unfold parseStringInterface. eapply fine_bind_eq; [apply fine_parseStringLength|]. intros [e|len] d d' E _.
  - apply fine_panic. by eapply parseStringLength_error.
  - repeat fine_step.
Qed.

#[export] Hint Resolve fine_parseStringInterface : fine.

Lemma fine_check_order n k key o : fine n (check_order k key o) (λ _, 0%nat).
Proof. unfold check_order. repeat fine_step. Qed.

#[export] Hint Resolve fine_check_order : fine.

(** [parseValueInterface] and its loops, whatever the buffer holds. *)
Lemma fine_interface fuel n :
  ((2 * n + 1 ≤ fuel)%nat → fine n (parseValueInterface fuel) (λ _, 1%nat)) ∧
  ((2 * n + 2 ≤ fuel)%nat → ∀ k dict, fine n (parseDictInterface fuel k dict) (λ _, 0%nat)) ∧
  ((2 * n + 2 ≤ fuel)%nat → ∀ acc, fine n (parseListInterface fuel acc) (λ _, 0%nat)).
Proof.
  revert n. induction fuel as [|fuel IH]; intros n; [split_and!; intros; lia|]. split_and!.
  - intros Hf. cbn [parseValueInterface]. destruct n as [|n].
    { intros [m [|c s] o b] Hd; simpl in Hd; [by run|lia]. }
    eapply fine_bind; [apply fine_ReadByte|]. intros [b|] _; [|fine_step]. fine_step. cbn [Nat.sub]. rewrite !Nat.sub_0_r.
    fine_step; [fine_step|]. fine_step; [eapply fine_bind; [apply (proj1 (proj2 (IH n))); lia|intros ? ?; fine_step]|].
    fine_step; [eapply fine_bind; [apply (proj2 (proj2 (IH n))); lia|intros ? ?; fine_step]|].
    repeat fine_step.
  - intros Hf k dict. cbn [parseDictInterface]. fine_step. rewrite Nat.sub_0_r.
    eapply fine_bind; [apply (proj1 (IH n)); lia|]. intros [[]|] ?; repeat fine_step.
    rewrite !Nat.sub_0_r. eapply fine_bind; [apply (proj1 (IH (n - 1)%nat)); lia|]. intros [v|] ?; [|fine_step].
    apply (proj1 (proj2 (IH (n - 1 - 1)%nat))). lia.
  - intros Hf acc. cbn [parseListInterface]. eapply fine_bind; [apply (proj1 (IH n)); lia|]. intros [v|] ?; [|fine_step].
    apply (proj2 (proj2 (IH (n - 1)%nat))). lia.
Qed.

(** [readOneValue] and its loop. *)
Definition one_if (b : bool) : nat := if b then 1%nat else 0%nat.

Lemma fine_readOneValue fuel n :
  ((2 * n + 1 ≤ fuel)%nat → fine n (readOneValue fuel) one_if) ∧
  ((2 * n + 2 ≤ fuel)%nat → fine n (readValues fuel) (λ _, 0%nat)).
Proof.
  revert n. induction fuel as [|fuel IH]; intros n; [split_and!; intros; lia|]. split.
  - intros Hf [m [|c s] o b] Hd; [done|]. cbn [input String.length] in Hd. cbn [readOneValue].
    unfold mbind at 1, M_bind at 1. cbn [ReadByte input MaxStrLen Offset buf]. destruct (decide (c = char_e)) as [->|Hc].
    { simpl. lia. }
    rewrite bool_decide_false by done. destruct n as [|n]; [lia|].
    match goal with |- context [?mm (Build_Decoder m s o b)] => assert (fine n mm (λ _, 0%nat)) as Hfine end.
    { fine_step. fine_step. rewrite !Nat.sub_0_r. eapply (fine_bind _ _ _ (λ _, 0%nat)); [|intros ? ?; fine_step].
      fine_step; [eapply fine_bind; [apply (proj2 (IH n)); lia|intros ? ?; repeat fine_step]|]. repeat fine_step. }
    specialize (Hfine (Build_Decoder m s o b) ltac:(cbn [input]; lia)).
    match goal with |- context [?mm (Build_Decoder m s o b)] => destruct (mm (Build_Decoder m s o b)) as [[e|[]] d'] end;
      [done|cbn [input one_if String.length] in *; lia..].
  - intros Hf. cbn [readValues]. eapply fine_bind; [apply (proj1 (IH n)); lia|]. intros [|] ?; cbn [one_if] in *; [|fine_step].
    apply (proj2 (IH (n - 1)%nat)). lia.
Qed.

(** ** Skipping a value copies its text *)

Lemma readOneValue_string t m r o b fuel :
  fits_s 64 (slen t) →
  readOneValue (S fuel) (Build_Decoder m (reflectString t +:+ r) o b) =
    (inr true, Build_Decoder m r (o + slen (reflectString t)) (b +:+ reflectString t)).
Proof.
  intros Hf. destruct (reflectString_head t) as (c & ds & E & Hc & ->). destruct (digit_not_letter c Hc) as (? & ? & ? & ?).
  rewrite string_cons_app, <- string_assoc, string_cons_app. cbn [readOneValue]. run.
  rewrite !bool_decide_false by done. cbn [orb]. rewrite Hc. run.
  rewrite readUntil_found by by eapply digits_no_colon. run.
  rewrite <- (string_assoc b). rewrite length_app_string. change (String.length (String c "")) with 1%nat.
  rewrite Nat.add_sub, str_drop_app. change (String c "" +:+ ds) with (String c ds). rewrite E.
  destruct (pretty_checked (slen t)) as [_ Hz]. rewrite (ParseInt_SetString _ _ Hz), bool_decide_true by done.
  cbn [checkForIntParseError]. run. rewrite read_limit_app. run. rewrite Z.eqb_refl. run.
  rewrite <- E, slen_cons, slen_app, slen_cons. do 2 f_equal; [lia|].
  by rewrite <- !string_assoc, !string_cons_app.
Qed.

Definition skips (mx : Z) (v : value) : Prop := ∀ m r o b fuel,
  wf mx v = true → (2 * String.length (reflectValue v) ≤ fuel + 1)%nat →
  readOneValue fuel (Build_Decoder m (reflectValue v +:+ r) o b) =
    (inr true, Build_Decoder m r (o + slen (reflectValue v)) (b +:+ reflectValue v)).

(** The loop of [readOneValue] stops in front of the end marker. *)
Lemma readValues_end fuel m r o b :
  (2 ≤ fuel)%nat → readValues fuel (Build_Decoder m (String char_e r) o b) = (inr tt, Build_Decoder m (String char_e r) o b).
Proof. destruct fuel as [|[|fuel]]; [lia..|]. by intros _. Qed.

Lemma readOneValue_int (z : Z) m r o b fuel :
  readOneValue (S fuel) (Build_Decoder m (String char_i (pretty z +:+ "e" +:+ r)) o b) =
    (inr true, Build_Decoder m r (o + slen (String char_i (pretty z +:+ "e"))) (b +:+ String char_i (pretty z +:+ "e"))).
Proof.
  cbn [readOneValue]. run. change (bool_decide (char_i = char_e)) with false. change (bool_decide (char_i = char_d) || bool_decide (char_i = char_l)) with false.
  change (bool_decide (char_i = char_i)) with true. cbn iota. run. change ("e" +:+ r) with (String char_e r).
  rewrite readUntil_found by (by apply pretty_no_char). run.
  rewrite slen_cons, slen_app, <- !string_assoc. change (slen "e") with 1. do 2 f_equal. lia.
Qed.

Lemma readValues_S fuel d :
  readValues (S fuel) d = (more ← readOneValue fuel; if more : bool then readValues fuel else mret tt) d.
Proof. done. Qed.

Lemma readValues_list l mx m r o b fuel :
  Forall (skips mx) l → forallb (wf mx) l = true → (2 * String.length (enc_list l) ≤ fuel)%nat →
  ∃ body, enc_list l = body +:+ "e" ∧
    readValues fuel (Build_Decoder m (enc_list l +:+ r) o b) =
      (inr tt, Build_Decoder m (String char_e r) (o + slen body) (b +:+ body)).
Proof.
  intros HP. revert fuel o b. induction HP as [|v l Hv HP IH]; intros fuel o b Hwf Hf.
  - exists "". split; [done|]. change (slen "") with 0. rewrite Z.add_0_r, string_nil_r. apply readValues_end. simpl in Hf. lia.
  - cbn [enc_list foldr forallb] in *. fold (enc_list l) in *. zbool. rewrite length_app_string in Hf.
    pose proof (reflectValue_length v). destruct fuel as [|fuel]; [lia|].
    destruct (IH fuel (o + slen (reflectValue v)) (b +:+ reflectValue v)) as (body & He & Hr); [done|lia|].
    exists (reflectValue v +:+ body). rewrite He, !string_assoc. split; [done|]. cbn [readValues]. run.
    rewrite <- !string_assoc, Hv by (done || lia). rewrite He, <- !string_assoc in Hr. rewrite Hr, slen_app. do 2 f_equal. lia.
Qed.

Lemma readValues_dict es mx m r o b fuel :
  mx < 2 ^ 63 → Forall (λ kv, skips mx kv.2) es →
  forallb (λ kv, (slen kv.1 <=? mx) && wf mx kv.2) es = true → (2 * String.length (enc_dict es) ≤ fuel)%nat →
  ∃ body, enc_dict es = body +:+ "e" ∧
    readValues fuel (Build_Decoder m (enc_dict es +:+ r) o b) =
      (inr tt, Build_Decoder m (String char_e r) (o + slen body) (b +:+ body)).
Proof.
  intros Hm HP. revert fuel o b. induction HP as [|[k v] es Hv HP IH]; intros fuel o b Hwf Hf.
  - exists "". split; [done|]. change (slen "") with 0. rewrite Z.add_0_r, string_nil_r. apply readValues_end. simpl in Hf. lia.
  - cbn [enc_dict foldr forallb fst snd] in *. fold (enc_dict es) in *. zbool. rewrite !length_app_string in Hf.
    pose proof (reflectValue_length v). destruct (reflectString_head k) as (c & ds & _ & _ & Hk).
    assert (2 ≤ String.length (reflectString k))%nat by (rewrite Hk; cbn [String.length]; rewrite length_app_string; simpl; lia).
    destruct fuel as [|[|fuel]]; [lia..|].
    destruct (IH fuel (o + slen (reflectString k) + slen (reflectValue v)) (b +:+ reflectString k +:+ reflectValue v))
      as (body & He & Hr); [done|lia|].
    exists (reflectString k +:+ reflectValue v +:+ body). rewrite He. split; [by rewrite !string_assoc|].
    rewrite <- !string_assoc, readValues_S. run. rewrite readOneValue_string by by eapply fits_len.
    rewrite readValues_S. run. rewrite Hv by (done || lia). rewrite He, <- !string_assoc in Hr. rewrite <- !string_assoc, Hr, !slen_app. do 2 f_equal. lia.
Qed.

(** [readOneValue] puts the text of the next value into the buffer, and nothing
    else. *)
Lemma readOneValue_copies mx v : mx < 2 ^ 63 → skips mx v.
Proof.
  intros Hm. induction v as [z|z|t|l IH|es IH] using value_ind'; intros m r o b fuel Hwf Hf;
    (destruct fuel as [|fuel]; [match type of Hf with context [reflectValue ?v] => pose proof (reflectValue_length v); lia end|]).
  - change (reflectValue (VInt z)) with (String char_i (pretty z +:+ "e")). rewrite string_cons_app, <- string_assoc.
    apply readOneValue_int.
  - change (reflectValue (VBig z)) with (String char_i (pretty z +:+ "e")). rewrite string_cons_app, <- string_assoc.
    apply readOneValue_int.
  - cbn [wf] in Hwf. zbool. apply readOneValue_string. by eapply fits_len.
  - change (reflectValue (VList l)) with (String char_l (enc_list l)) in *. cbn [String.length] in Hf.
    destruct (readValues_list l mx m r (o + 1) (b +:+ String char_l "") fuel) as (body & He & Hr); [done|done|lia|].
    rewrite string_cons_app. cbn [readOneValue]. run. change (bool_decide (char_l = char_e)) with false.
    change (bool_decide (char_l = char_d) || bool_decide (char_l = char_l)) with true. run. rewrite Hr. run.
    rewrite He, slen_cons, slen_app, <- !string_assoc. change (slen "e") with 1. do 2 f_equal. lia.
  - cbn [wf] in Hwf. apply andb_true_iff in Hwf as [Hasc Hwf]. rewrite reflectValue_dict in * by done.
    change ("d" +:+ enc_dict es) with (String char_d (enc_dict es)) in *. cbn [String.length] in Hf.
    destruct (readValues_dict es mx m r (o + 1) (b +:+ String char_d "") fuel) as (body & He & Hr); [done..|lia|].
    rewrite string_cons_app. cbn [readOneValue]. run. change (bool_decide (char_d = char_e)) with false.
    change (bool_decide (char_d = char_d) || bool_decide (char_d = char_l)) with true. run. rewrite Hr. run.
    rewrite He, slen_cons, slen_app, <- !string_assoc. change (slen "e") with 1. do 2 f_equal. lia.
Qed.
