(* ===== verification/BencodeTyped.v ===== *)
(** * Bencode driven by types (internal/anacrolix-torrent-v1.55/bencode)

    The part of the decoder and of the encoder that follows the Go type of the
    value through package reflect: [parseValue] with [parseInt], [parseString],
    [parseDict], [parseList] and [parseUnmarshaler], and [reflectValue] with
    [reflectSequence] and the sorted fields of a struct.

    A Go type is a value of [gotype], a Go value one of [gov]: a slice of bytes is
    a slice of integers, a map the list of its entries in the order of the keys, a
    struct the list of its fields. A type with methods of its own
    ([Unmarshaler], [Marshaler]) carries them. Embedded structs, and the tags
    of fields as text, are not modelled. The test for empty values of the package
    missinggo is a parameter. *)

From S2P Require Import Prelude InodeMap Bencode.

Local Open Scope string_scope.
Local Open Scope Z_scope.

(** ** Types and values *)

Inductive gov :=
  | GNil                                  (** a nil interface, pointer, slice or map *)
  | GIface (v : value)
  | GBool (b : bool)
  | GStr (s : string)
  | GInt (z : Z)
  | GPtr (v : gov)
  | GSlice (l : list gov)
  | GArray (l : list gov)
  | GMap (m : list (string * gov))
  | GStruct (l : list gov).

(** A named type with an [UnmarshalBencode] and a way to be encoded. *)
Record UserType := {
  uzero : gov;
  UnmarshalBencode : string → error + gov;
  MarshalBencode : gov → error + string;
}.

(** What the tag of a field says. *)
Record tag := { Key : string; OmitEmpty : bool; IgnoreUnmarshalTypeError : bool }.

Inductive gotype :=
  | TIface
  | TBool
  | TString
  | TInt (bits : Z)
  | TUint (bits : Z)
  | TUser (u : UserType)
  | TPtr (t : gotype)
  | TSlice (t : gotype)
  | TArray (n : nat) (t : gotype)
  | TMap (t : gotype)
  | TStruct (fs : list (tag * gotype)).

(** [reflect.Zero(t)]. *)
Fixpoint zero (t : gotype) : gov :=
  match t with
  | TIface | TPtr _ | TSlice _ | TMap _ => GNil
  | TBool => GBool false
  | TString => GStr ""
  | TInt _ | TUint _ => GInt 0
  | TUser u => uzero u
  | TArray n t => GArray (replicate n (zero t))
  | TStruct fs => GStruct (map (λ f, zero f.2) fs)
  end.

Definition is_uint8 (t : gotype) : bool := match t with TUint bits => bits =? 8 | _ => false end.

(** The bytes of a string as the elements of a slice, and back. *)
Fixpoint to_bytes (s : string) : list gov :=
  match s with EmptyString => [] | String c s' => GInt (ord c) :: to_bytes s' end.

Fixpoint of_bytes (l : list gov) : string :=
  match l with
  | [] => ""
  | GInt z :: l' => String (Ascii.ascii_of_nat (Z.to_nat z)) (of_bytes l')
  | _ :: l' => String Ascii.zero (of_bytes l')
  end.

(** The elements of a slice or array, and their number. *)
Definition items (v : gov) : list gov := match v with GSlice l | GArray l => l | _ => [] end.

(** ** Decoding *)

(** What a call does to the value it is given: the new value, whether there was
    one (and not the end marker), and the error it returns, if any. *)
Definition parsed : Type := gov * bool * option error.

Definition parse_iface : M (option value) := d ← get; parseValueInterface (S (2 * String.length (input d))).

Definition parseInt (t : gotype) (v : gov) : M (gov * option error) :=
  d0 ← get;
  let start := Offset d0 - 1 in
  err ← readInt;
  match err with
  | Some e => mret (v, Some e)
  | None =>
      d ← get;
      let s := buf d in
      match t with
      | TInt bits =>
          n ← checkForIntParseError (ParseInt s) start;
          if bool_decide (fits_s bits n) then Reset;; mret (GInt n, None)
          else mret (v, Some (UnmarshalTypeError "int"))
      | TUint bits =>
          n ← checkForIntParseError (ParseUint s) start;
          if bool_decide (fits_u bits n) then Reset;; mret (GInt n, None)
          else mret (v, Some (UnmarshalTypeError "int"))
      | TBool => Reset;; mret (GBool (negb (bool_decide (s = "0"))), None)
      | _ => mret (v, Some (UnmarshalTypeError "int"))
      end
  end.

(** The closure [read] of [parseString], with [io.ReadFull]; the buffer is reset
    on the way out of a panic. *)
Definition read_full (length : Z) : M string :=
  b ← read_limit length;
  add_offset (slen b);;
  if slen b =? length then mret b
  else Reset;; d ← get;
       panic (SyntaxError (Offset d) (if slen b =? 0 then WUnexpectedEOF else WUnexpectedIO)).

(** [strconv.ParseBool]. *)
Definition ParseBool (s : string) : option bool :=
  if bool_decide (s ∈ ["1"; "t"; "T"; "true"; "TRUE"; "True"]) then Some true
  else if bool_decide (s ∈ ["0"; "f"; "F"; "false"; "FALSE"; "False"]) then Some false
  else None.

Definition parseString (t : gotype) (v : gov) : M (gov * option error) :=
  r ← parseStringLength;
  match r with
  | inl e => mret (v, Some e)
  | inr length =>
      b ← read_full length;
      Reset;;
      match t with
      | TString => mret (GStr b, None)
      | TSlice te =>
          mret (if is_uint8 te then (GSlice (to_bytes b), None) else (v, Some (UnmarshalTypeError "string")))
      | TArray n te =>
          mret (if is_uint8 te
                then (GArray (take n (to_bytes b) ++ drop (String.length b) (items v)), None)
                else (v, Some (UnmarshalTypeError "string")))
      | TBool =>
          mret (GBool (match ParseBool b with Some x => x | None => negb (length =? 0) end), None)
      | _ => mret (v, Some (UnmarshalTypeError "string"))
      end
  end.

(** [getDictField]: where the value of a key goes, and what its tag says. *)
Inductive dest := DMap (te : gotype) | DField (i : nat) (ft : gotype) (ignore : bool) | DDiscard.

Fixpoint getStructFieldForKey (fs : list (tag * gotype)) (key : string) (i : nat) : option (nat * gotype * bool) :=
  match fs with
  | [] => None
  | (tg, ft) :: fs' =>
      match getStructFieldForKey fs' key (S i) with
      | Some r => Some r
      | None => if bool_decide (Key tg = key) then Some (i, ft, IgnoreUnmarshalTypeError tg) else None
      end
  end.

Definition getDictField (t : gotype) (key : string) : option dest :=
  match t with
  | TMap te => Some (DMap te)
  | TStruct fs =>
      Some (match getStructFieldForKey fs key 0 with Some (i, ft, ign) => DField i ft ign | None => DDiscard end)
  | _ => None
  end.

Definition set_map (key : string) (sv v : gov) : gov :=
  GMap (map_set key sv (match v with GMap m => m | _ => [] end)).

Definition set_field (i : nat) (sv v : gov) : gov :=
  match v with GStruct l => GStruct (<[i := sv]> l) | _ => v end.

(** [errors.As(err, &target)] for an [UnmarshalTypeError]. *)
Fixpoint as_type_error (e : error) : bool :=
  match e with
  | UnmarshalTypeError _ => true
  | DictKeyError e | ValueError _ e => as_type_error e
  | _ => false
  end.

(** The end of [parseList]: the items after the [i] that were read go. *)
Definition trim_list (t : gotype) (i : nat) (l : list gov) : gov :=
  match t with
  | TArray n te => GArray (take i l ++ replicate (length l - i) (zero te))
  | _ => GSlice (take i l)
  end.

(** The element type of a slice or array; the other types are read through a
    slice of one element. *)
Definition elem_type (t : gotype) : option gotype :=
  match t with TSlice te | TArray _ te => Some te | _ => None end.

Definition is_slice (t : gotype) : bool := match t with TSlice _ => true | _ => false end.

(** [parseUnmarshaler]. *)
Definition parseUnmarshaler (t : gotype) : M (option gov) :=
  match t with
  | TUser u =>
      Reset;;
      d ← get;
      ok ← readOneValue (S (2 * String.length (input d)));
      if ok : bool then
        d ← get;
        match UnmarshalBencode u (buf d) with
        | inl e => panic (UnmarshalerError e)
        | inr x => mret (Some x)
        end
      else mret None
  | _ => mret None
  end.

(** The pointer is followed, and allocated if it is nil; the result goes back
    through it. *)
Definition deref (t : gotype) (v : gov) : gotype * gov * bool :=
  match t with TPtr te => (te, match v with GPtr x => x | _ => zero te end, true) | _ => (t, v, false) end.

Definition reref (ptr : bool) (r : parsed) : parsed :=
  let '(x, ok, err) := r in (if ptr then GPtr x else x, ok, err).

(** [parseValue], [parseDict] (the loop), [parseList], and its loop at the
    position [i]. *)
Fixpoint parseValue (fuel : nat) (t : gotype) (v : gov) : M parsed :=
  match fuel with
  | O => panic OutOfFuel
  | S fuel' =>
      let '(t, v, ptr) := deref t v in
      u ← parseUnmarshaler t;
      match u, t with
      | Some x, _ => mret (reref ptr (x, true, None))
      | None, TIface =>
          i ← parse_iface;
          match i with Some x => mret (reref ptr (GIface x, true, None)) | None => panic ReflectPanic end
      | None, _ =>
          b ← ReadByte;
          match b with
          | None => mret (reref ptr (v, false, Some EOF))
          | Some b =>
              add_offset 1;;
              if bool_decide (b = char_e) then mret (reref ptr (v, false, None))
              else if bool_decide (b = char_d) then r ← parseDict fuel' t v; mret (reref ptr (r.1, true, r.2))
              else if bool_decide (b = char_l) then r ← parseList fuel' t v; mret (reref ptr (r.1, true, r.2))
              else if bool_decide (b = char_i) then r ← parseInt t v; mret (reref ptr (r.1, true, r.2))
              else if is_digit b then Reset;; WriteByte b;; r ← parseString t v; mret (reref ptr (r.1, true, r.2))
              else d ← get; raiseUnknownValueType b (Offset d - 1)
          end
      end
  end
with parseDict (fuel : nat) (t : gotype) (v : gov) : M (gov * option error) :=
  match fuel with
  | O => panic OutOfFuel
  | S fuel' =>
      r ← parseValue fuel' TString (GStr "");
      match r with
      | (_, _, Some e) => mret (v, Some (DictKeyError e))
      | (_, false, None) => mret (v, None)
      | (k, true, None) =>
          let key := match k with GStr s => s | _ => "" end in
          match getDictField t key with
          | None => mret (v, Some DictTargetError)
          | Some DDiscard =>
              i ← parse_iface;
              match i with
              | None => mret (v, Some (DiscardError key))
              | Some _ => parseDict fuel' t v
              end
          | Some (DMap te) =>
              r ← parseValue fuel' te (zero te);
              match r with
              | (_, _, Some e) => mret (v, Some (ValueError key e))
              | (_, false, None) => mret (v, Some (MissingValue key))
              | (sv, true, None) => parseDict fuel' t (set_map key sv v)
              end
          | Some (DField i ft ignore) =>
              r ← parseValue fuel' ft (zero ft);
              let '(sv, ok, err) := r in
              match (match err with
                     | Some e => if as_type_error e && ignore then None else Some (ValueError key e)
                     | None => None
                     end) with
              | Some e => mret (v, Some e)
              | None => if ok : bool then parseDict fuel' t (set_field i sv v) else mret (v, Some (MissingValue key))
              end
          end
      end
  end
with parseList (fuel : nat) (t : gotype) (v : gov) : M (gov * option error) :=
  match fuel with
  | O => panic OutOfFuel
  | S fuel' =>
      match elem_type t with
      | Some te => parseItems fuel' t te 0 (items v)
      | None =>
          r ← parseList fuel' (TSlice t) GNil;
          match r with
          | (_, Some e) => mret (v, Some e)
          | (l, None) =>
              match items l with
              | [x] => mret (x, None)
              | _ => mret (v, Some (UnmarshalTypeError "list"))
              end
          end
      end
  end
with parseItems (fuel : nat) (t te : gotype) (i : nat) (l : list gov) : M (gov * option error) :=
  match fuel with
  | O => panic OutOfFuel
  | S fuel' =>
      let l := if is_slice t && (length l <=? i)%nat then (l ++ [zero te])%list else l in
      match l !! i with
      | Some x =>
          r ← parseValue fuel' te x;
          let '(x', ok, err) := r in
          let l' := <[i := x']> l in
          match err with
          | Some e => mret (if is_slice t then GSlice l' else GArray l', Some e)
          | None => if ok : bool then parseItems fuel' t te (S i) l' else mret (trim_list t i l', None)
          end
      | None =>
          x ← parse_iface;
          match x with
          | Some _ => parseItems fuel' t te (S i) l
          | None => mret (trim_list t i l, None)
          end
      end
  end.

(** [Decode], into the value [v] of the type [t], and [Unmarshal]. *)
Definition decode_fuel (data : string) : nat := S (4 * S (String.length data)).

Definition Decode (t : gotype) (v : gov) (d : Decoder) : (error + gov) * Decoder :=
  match parseValue (decode_fuel (input d)) t v d with
  | (inl e, d') => (inl (recover_error e), d')
  | (inr (_, _, Some e), d') => (inl e, d')
  | (inr (x, true, None), d') => (inr x, d')
  | (inr (x, false, None), d') => (inl (SyntaxError (Offset d' - 1) WUnexpectedE), d')
  end.

Definition UnmarshalInto (t : gotype) (v : gov) (data : string) : error + gov :=
  match Decode t v (new_decoder data) with
  | (inl e, _) => inl e
  | (inr x, d) => if bool_decide (input d = "") then inr x else inl (UnusedTrailingBytes (slen (input d)))
  end.

(** ** Encoding *)

Section encoding.
(** [missinggo.IsEmptyValue]. *)
Context (isEmptyValue : gov → bool).

(** The fields of a struct in the order of their keys ([makeEncodeFields]). *)
Definition by_tag {A} (x y : tag * A) : bool := cmp_lt (cmp_on (λ f : tag * A, Key f.1) String.compare) x y.

(** The texts of a list, in a row, or the first error. *)
Fixpoint join (l : list (error + string)) : error + string :=
  match l with
  | [] => inr ""
  | inl e :: _ => inl e
  | inr s :: l' => match join l' with inl e => inl e | inr s' => inr (s +:+ s') end
  end.

Definition wrap (before : string) (r : error + string) : error + string :=
  match r with inl e => inl e | inr s => inr (before +:+ s +:+ "e") end.

Definition keyed (k : string) (r : error + string) : error + string :=
  match r with inl e => inl e | inr s => inr (reflectString k +:+ s) end.

Fixpoint encode (t : gotype) (v : gov) {struct t} : error + string :=
  match t with
  | TUser u => match MarshalBencode u v with inl e => inl (MarshalerError e) | inr s => inr s end
  | TBool => inr (match v with GBool true => "i1e" | _ => "i0e" end)
  | TInt _ | TUint _ => inr ("i" +:+ AppendInt (match v with GInt z => z | _ => 0 end) +:+ "e")
  | TString => inr (reflectString (match v with GStr s => s | _ => "" end))
  | TStruct fs =>
      wrap "d" (join (map (λ f, keyed (Key f.1) f.2)
        (sort_stable by_tag
          ((fix fields (fs : list (tag * gotype)) (l : list gov) : list (tag * (error + string)) :=
             match fs, l with
             | f :: fs', x :: l' =>
                 if OmitEmpty f.1 && isEmptyValue x then fields fs' l' else (f.1, encode f.2 x) :: fields fs' l'
             | _, _ => []
             end) fs (match v with GStruct l => l | _ => [] end)))))
  | TMap te =>
      match v with
      | GMap m => wrap "d" (join (map (λ kv, keyed kv.1 kv.2) (sort_stable by_key (map (λ kv, (kv.1, encode te kv.2)) m))))
      | _ => inr "de"
      end
  | TSlice te =>
      if is_uint8 te then inr (reflectString (of_bytes (items v)))
      else match v with
           | GSlice l => wrap "l" (join (map (encode te) l))
           | _ => inr "le"
           end
  | TArray _ te => if is_uint8 te then inr (reflectString (of_bytes (items v))) else inl ReflectPanic
  | TIface => match v with GIface x => inr (reflectValue x) | _ => inl ReflectPanic end
  | TPtr te =>
      match v, te with
      | GPtr x, _ => encode te x
      | _, TUser _ => inl NilMethod
      | _, _ => encode te (zero te)
      end
  end.

(** [Encode] of a value that is not nil, and [Marshal]. *)
Definition MarshalOf (t : gotype) (v : gov) : error + string := encode t v.
End encoding.

(** ** Decoding always returns *)

Lemma fine_parse_iface n : fine n parse_iface (λ _, 1%nat).
Proof.
  intros d Hd. unfold parse_iface. cbv [mbind M_bind get].
  apply (proj1 (fine_interface (S (2 * String.length (input d))) (String.length (input d)))); lia.
Qed.

Lemma fine_parseInt n t v : fine n (parseInt t v) (λ _, 0%nat).
Proof. unfold parseInt. repeat fine_step. Qed.

Lemma fine_read_full n k : fine n (read_full k) (λ _, 0%nat).
Proof. unfold read_full. repeat fine_step. Qed.

#[export] Hint Resolve fine_parse_iface fine_parseInt fine_read_full : fine.

Lemma fine_parseString n t v : fine n (parseString t v) (λ _, 0%nat).
Proof. unfold parseString. repeat fine_step. Qed.

Lemma fine_parseUnmarshaler n t :
  fine n (parseUnmarshaler t) (λ r, match r with Some _ => 1%nat | None => 0%nat end).
Proof.
  destruct t; try by apply fine_ret. cbn [parseUnmarshaler]. fine_step. rewrite Nat.sub_0_r. intros d Hd.
  cbv [mbind M_bind get]. set (f := S (2 * String.length (input d))).
  pose proof (proj1 (fine_readOneValue f (String.length (input d))) ltac:(lia) d ltac:(lia)) as Hr.
  destruct (readOneValue f d) as [[e|[]] d']; [exact Hr| |cbn; cbn in Hr; lia].
  cbn [one_if] in Hr. destruct (UnmarshalBencode u (buf d')) as [e|x']; cbn; [done|lia].
Qed.

#[export] Hint Resolve fine_parseString fine_parseUnmarshaler : fine.

(** The part of [parseValue] that looks at the first byte. *)
Lemma fine_value_byte n ptr v t (pd pl : M (gov * option error)) :
  (∀ m, (S m ≤ n)%nat → fine m pd (λ _, 0%nat)) → (∀ m, (S m ≤ n)%nat → fine m pl (λ _, 0%nat)) →
  fine n (b ← ReadByte;
          match b with
          | None => mret (reref ptr (v, false, Some EOF))
          | Some b =>
              add_offset 1;;
              if bool_decide (b = char_e) then mret (reref ptr (v, false, None))
              else if bool_decide (b = char_d) then r ← pd; mret (reref ptr (r.1, true, r.2))
              else if bool_decide (b = char_l) then r ← pl; mret (reref ptr (r.1, true, r.2))
              else if bool_decide (b = char_i) then r ← parseInt t v; mret (reref ptr (r.1, true, r.2))
              else if is_digit b then Reset;; WriteByte b;; r ← parseString t v; mret (reref ptr (r.1, true, r.2))
              else d ← get; raiseUnknownValueType b (Offset d - 1)
          end) (λ r : parsed, (one_if r.1.2 - 0)%nat).
Proof.
  intros Hd Hl. eapply fine_bind; [apply fine_ReadByte|]. intros [b|] ?; [|by apply fine_ret].
  fine_step. fine_step; [by apply fine_ret|].
  fine_step; [eapply fine_bind; [apply Hd; lia|intros ? ?; by apply fine_ret]|].
  fine_step; [eapply fine_bind; [apply Hl; lia|intros ? ?; by apply fine_ret]|].
  repeat fine_step.
Qed.

Lemma fine_parse fuel n :
  ((4 * n + 1 ≤ fuel)%nat → ∀ t v, fine n (parseValue fuel t v) (λ r, one_if r.1.2)) ∧
  ((4 * n + 2 ≤ fuel)%nat → ∀ t v, fine n (parseDict fuel t v) (λ _, 0%nat)) ∧
  ((4 * n + 2 ≤ fuel)%nat → ∀ t te i l, fine n (parseItems fuel t te i l) (λ _, 0%nat)) ∧
  ((4 * n + 3 ≤ fuel)%nat → ∀ t v, elem_type t ≠ None → fine n (parseList fuel t v) (λ _, 0%nat)) ∧
  ((4 * n + 4 ≤ fuel)%nat → ∀ t v, fine n (parseList fuel t v) (λ _, 0%nat)).
Proof.
  revert n. induction fuel as [|fuel IH]; intros n; [split_and!; intros; lia|]. split_and!.
  - intros Hf t v. cbn [parseValue]. destruct (deref t v) as [[t' v'] ptr].
    eapply fine_bind; [apply fine_parseUnmarshaler|]. intros [x|] Hx; [by apply fine_ret; destruct ptr|]. rewrite Nat.sub_0_r.
    destruct t'; try (apply fine_value_byte; [intros m Hm; apply (IH m); lia..]).
    eapply fine_bind; [apply fine_parse_iface|]. intros [i|] _; [by apply fine_ret; destruct ptr|fine_step].
  - intros Hf t v. cbn [parseDict]. eapply fine_bind; [apply (proj1 (IH n)); lia|].
    intros [[k [|]] [e|]] Hk; cbn [one_if fst snd] in *; try by apply fine_ret.
    set (key := match k with GStr s => s | _ => "" end). destruct (getDictField t key) as [[te|i ft ign|]|]; [..|fine_step].
    + eapply fine_bind; [apply (proj1 (IH (n - 1)%nat)); lia|]. intros [[sv [|]] [e|]] Hs; cbn [one_if fst snd] in *; try fine_step.
      apply (proj1 (proj2 (IH (n - 1 - 1)%nat))); lia.
    + eapply fine_bind; [apply (proj1 (IH (n - 1)%nat)); lia|]. intros [[sv ok] err] Hs. repeat case_match; try fine_step.
      all: cbn [one_if fst snd] in *; eapply fine_mono; [apply (proj1 (proj2 (IH (n - 1 - 1)%nat))); lia|lia|intros; cbn; lia].
    + eapply fine_bind; [apply fine_parse_iface|]. intros [i|] Hs; [|fine_step].
      apply (proj1 (proj2 (IH (n - 1 - 1)%nat))); lia.
  - intros Hf t te i l. cbn [parseItems]. set (l1 := if is_slice t && _ then _ else _). destruct (l1 !! i) as [x|].
    + eapply fine_bind; [apply (proj1 (IH n)); lia|]. intros [[x' [|]] [e|]] Hx; cbn [one_if fst snd] in *; try fine_step.
      apply (proj1 (proj2 (proj2 (IH (n - 1)%nat)))); lia.
    + eapply fine_bind; [apply fine_parse_iface|]. intros [y|] Hy; [|fine_step].
      apply (proj1 (proj2 (proj2 (IH (n - 1)%nat)))); lia.
  - intros Hf t v Ht. cbn [parseList]. destruct (elem_type t) as [te|]; [|done]. apply (proj1 (proj2 (proj2 (IH n)))). lia.
  - intros Hf t v. cbn [parseList]. destruct (elem_type t) as [te|]; [apply (proj1 (proj2 (proj2 (IH n)))); lia|].
    eapply fine_bind; [apply (proj1 (proj2 (proj2 (proj2 (IH n))))); [lia|done]|]. intros [l [e|]] _; repeat fine_step.
Qed.

(** The errors that are returned are the code's. *)
Definition errors_ok {A} (m : M (A * option error)) : Prop := ∀ d x e d', m d = (inr (x, e), d') → e ≠ Some OutOfFuel.

Lemma errors_bind {A B} (m : M A) (f : A → M (B * option error)) :
  (∀ d x d', m d = (inr x, d') → errors_ok (f x)) → errors_ok (x ← m; f x).
Proof.
  intros Hf d x e d'. unfold mbind, M_bind. destruct (m d) as [[e'|y] d1] eqn:E; [done|]. intros Hy. by eapply (Hf d y d1 E).
Qed.

Lemma errors_ret {A} (x : A) e : e ≠ Some OutOfFuel → errors_ok (mret (x, e)).
Proof. intros He d y e' d' [= _ <- _]. done. Qed.

Lemma errors_panic {A} e : errors_ok (panic e : M (A * option error)).
Proof. by intros d y e' d'. Qed.

Ltac errors_step :=
  match goal with
  | |- errors_ok (mbind _ _) => apply errors_bind; intros ? ? ? ?
  | |- errors_ok (mret (_, _)) => apply errors_ret; try discriminate
  | |- errors_ok (panic _) => apply errors_panic
  | |- errors_ok (raiseUnknownValueType _ _) => apply errors_panic
  | |- errors_ok (if ?b then _ else _) => destruct b
  end.

Lemma errors_parseInt t v : errors_ok (parseInt t v).
Proof.
  unfold parseInt. errors_step. apply errors_bind. intros d0 [e|] d1 E.
  - rewrite (readInt_error _ _ _ E). by apply errors_ret.
  - destruct t; repeat errors_step.
Qed.

Lemma errors_parseString t v : errors_ok (parseString t v).
Proof.
  unfold parseString. apply errors_bind. intros d0 [e|len] d1 E.
  - apply errors_ret. intros [= ->]. by eapply parseStringLength_error.
  - destruct t; repeat errors_step; destruct (is_uint8 _); by apply errors_ret.
Qed.

Lemma errors_reref (m : M (gov * option error)) ptr :
  errors_ok m → errors_ok (r ← m; mret (reref ptr (r.1, true, r.2))).
Proof.
  intros H. apply errors_bind. intros d [x e] d' E. cbn [fst snd reref]. apply errors_ret. by eapply H.
Qed.

Lemma errors_parse fuel :
  (∀ t v, errors_ok (parseValue fuel t v)) ∧ (∀ t v, errors_ok (parseDict fuel t v)) ∧
  (∀ t v, errors_ok (parseList fuel t v)) ∧ (∀ t te i l, errors_ok (parseItems fuel t te i l)).
Proof.
  induction fuel as [|fuel (Hv & Hd & Hl & Hi)]; [split_and!; intros; by apply errors_panic|]. split_and!.
  - intros t v. cbn [parseValue]. destruct (deref t v) as [[t' v'] ptr]. apply errors_bind. intros d0 [x|] d1 _.
    { by apply errors_ret. }
    destruct t'; (apply errors_bind; intros d2 [b|] d3 _; [|by (apply errors_ret || apply errors_panic)]);
      try (by apply errors_ret); errors_step;
      repeat (errors_step; [by (apply errors_ret || (apply errors_reref; (apply Hd || apply Hl || apply errors_parseInt)))|]);
      (errors_step; [errors_step; errors_step; apply errors_reref, errors_parseString|repeat errors_step]).
  - intros t v. cbn [parseDict]. apply errors_bind. intros d [[k ok] [e|]] d' _; [by destruct ok; apply errors_ret|].
    destruct ok; [|by apply errors_ret]. set (key := match k with GStr s => s | _ => "" end).
    destruct (getDictField t key) as [[te|i ft ign|]|]; [..|by apply errors_ret];
      (apply errors_bind; intros d2 r d3 _).
    + destruct r as [[sv [|]] [e|]]; try (by apply errors_ret). apply Hd.
    + destruct r as [[sv ok] [e|]]; [destruct (as_type_error e && ign)|]; destruct ok; try (by apply errors_ret); apply Hd.
    + destruct r; [apply Hd|by apply errors_ret].
  - intros t v. cbn [parseList]. destruct (elem_type t) as [te|]; [apply Hi|]. apply errors_bind.
    intros d [l [e|]] d' E; [apply errors_ret; by apply Hl in E|]. by destruct (items l) as [|? []]; apply errors_ret.
  - intros t te i l. cbn [parseItems]. set (l1 := if is_slice t && _ then _ else _). destruct (l1 !! i) as [x|]; apply errors_bind.
    + intros d [[x' ok] [e|]] d' E; [apply errors_ret; by apply Hv in E|]. destruct ok; [apply Hi|by apply errors_ret].
    + intros d [y|] d' _; [apply Hi|by apply errors_ret].
Qed.

(** C32: decoding returns for every type, every destination and every input: the
    decoder reads at least one byte between two calls of itself, so the number of
    bytes bounds them. *)
Theorem Decode_returns (t : gotype) (v : gov) (d : Decoder) : (Decode t v d).1 ≠ inl OutOfFuel.
Proof.
  unfold Decode. pose proof (proj1 (fine_parse (decode_fuel (input d)) (String.length (input d))) ltac:(unfold decode_fuel; lia) t v d ltac:(done)) as H.
  destruct (parseValue _ t v d) as [[e|[[x ok] err]] d'] eqn:E; cbn.
  - by destruct e.
  - apply (proj1 (errors_parse _)) in E. destruct ok, err as [e|]; try done; by intros [= ->].
Qed.

(** ** Round trip *)

Section gotype_induction.
Context (P : gotype → Prop).
Context (HIface : P TIface) (HBool : P TBool) (HString : P TString) (HInt : ∀ b, P (TInt b)) (HUint : ∀ b, P (TUint b)).
Context (HUser : ∀ u, P (TUser u)) (HPtr : ∀ t, P t → P (TPtr t)) (HSlice : ∀ t, P t → P (TSlice t)).
Context (HArray : ∀ n t, P t → P (TArray n t)) (HMap : ∀ t, P t → P (TMap t)).
Context (HStruct : ∀ fs, Forall (λ f, P f.2) fs → P (TStruct fs)).

Fixpoint gotype_ind' (t : gotype) : P t :=
  match t with
  | TIface => HIface
  | TBool => HBool
  | TString => HString
  | TInt b => HInt b
  | TUint b => HUint b
  | TUser u => HUser u
  | TPtr t => HPtr t (gotype_ind' t)
  | TSlice t => HSlice t (gotype_ind' t)
  | TArray n t => HArray n t (gotype_ind' t)
  | TMap t => HMap t (gotype_ind' t)
  | TStruct fs =>
      HStruct fs ((fix go fs : Forall (λ f, P f.2) fs :=
        match fs with [] => Forall_nil_2 _ | f :: fs' => Forall_cons_2 _ f fs' (gotype_ind' f.2) (go fs') end) fs)
  end.
End gotype_induction.

(** Decoding into an [interface{}] cannot see the end of a list. *)
Definition sees_end (t : gotype) : bool := match t with TIface | TPtr TIface => false | _ => true end.

(** The types whose decoding needs an empty buffer (and leaves one). *)
Fixpoint needs_clean (t : gotype) : bool :=
  match t with
  | TIface | TBool | TInt _ | TUint _ => true
  | TPtr t => needs_clean t
  | TSlice t => negb (is_uint8 t) && needs_clean t
  | _ => false
  end.

Section roundtrip.
Context (isEmptyValue : gov → bool) (mx : Z) (Hmx : mx < 2 ^ 63).

(** The values that survive: those the decoder can produce. A nil slice comes
    back as an empty one and an empty map as a nil one, so these have one form;
    a field may be left out when it is empty and zero. *)
Fixpoint canon (t : gotype) (v : gov) {struct t} : Prop :=
  match t with
  | TIface => match v with GIface x => wf mx x = true | _ => False end
  | TBool => match v with GBool _ => True | _ => False end
  | TString => match v with GStr s => slen s ≤ mx | _ => False end
  | TInt bits => match v with GInt z => 0 < bits ≤ 64 ∧ fits_s bits z | _ => False end
  | TUint bits => match v with GInt z => 0 < bits ≤ 64 ∧ fits_u bits z | _ => False end
  | TUser u => ∃ x, wf mx x = true ∧ MarshalBencode u v = inr (reflectValue x) ∧ UnmarshalBencode u (reflectValue x) = inr v
  | TPtr te => match v with GPtr x => canon te x ∧ match te with TPtr _ => False | _ => True end | _ => False end
  | TSlice te =>
      match v with
      | GSlice l =>
          if is_uint8 te then ∃ s, l = to_bytes s ∧ slen s ≤ mx
          else sees_end te = true ∧ foldr (λ x Q, canon te x ∧ Q) True l
      | _ => False
      end
  | TArray n te =>
      match v with
      | GArray l => is_uint8 te = true ∧ ∃ s, l = to_bytes s ∧ String.length s = n ∧ slen s ≤ mx
      | _ => False
      end
  | TMap te =>
      match v with
      | GNil => True
      | GMap m => m ≠ [] ∧ ascending (map fst m) = true ∧ foldr (λ kv Q, slen kv.1 ≤ mx ∧ canon te kv.2 ∧ Q) True m
      | _ => False
      end
  | TStruct fs =>
      match v with
      | GStruct l =>
          NoDup (map (λ f, Key f.1) fs) ∧
          (fix fields (fs : list (tag * gotype)) (l : list gov) : Prop :=
             match fs, l with
             | f :: fs', x :: l' =>
                 slen (Key f.1) ≤ mx ∧
                 (if OmitEmpty f.1 && isEmptyValue x then x = zero f.2 else canon f.2 x) ∧ fields fs' l'
             | [], [] => True
             | _, _ => False
             end) fs l
      | _ => False
      end
  end.

(** The text [s] is decoded to [x], wherever it stands. *)
Definition decodable (t : gotype) (x : gov) (s : string) : Prop :=
  (2 ≤ String.length s)%nat ∧
  ∀ m r o b fuel, max_len m = mx → (needs_clean t = true → b = "") → (4 * String.length s + 1 ≤ fuel)%nat →
    ∃ b', parseValue fuel t (zero t) (Build_Decoder m (s +:+ r) o b) =
            (inr (x, true, None), Build_Decoder m r (o + slen s) b') ∧ (needs_clean t = true → b' = "").

(** *** The first byte *)

Definition plain (t : gotype) : Prop := match t with TIface | TUser _ | TPtr _ => False | _ => True end.

Lemma parse_byte_d fuel t v m s o b :
  plain t → parseValue (S fuel) t v (Build_Decoder m (String char_d s) o b) =
    (r ← parseDict fuel t v; mret (r.1, true, r.2)) (Build_Decoder m s (o + 1) b).
Proof. by destruct t. Qed.

Lemma parse_byte_l fuel t v m s o b :
  plain t → parseValue (S fuel) t v (Build_Decoder m (String char_l s) o b) =
    (r ← parseList fuel t v; mret (r.1, true, r.2)) (Build_Decoder m s (o + 1) b).
Proof. by destruct t. Qed.

Lemma parse_byte_i fuel t v m s o b :
  plain t → parseValue (S fuel) t v (Build_Decoder m (String char_i s) o b) =
    (r ← parseInt t v; mret (r.1, true, r.2)) (Build_Decoder m s (o + 1) b).
Proof. by destruct t. Qed.

Lemma parse_byte_digit fuel t v m c s o b :
  plain t → is_digit c = true →
  parseValue (S fuel) t v (Build_Decoder m (String c s) o b) =
    (r ← parseString t v; mret (r.1, true, r.2)) (Build_Decoder m s (o + 1) (String c "")).
Proof.
  intros Ht Hc. destruct (digit_not_letter c Hc) as (? & ? & ? & ?).
  destruct t; (done || (cbn [parseValue deref parseUnmarshaler]; run; rewrite !bool_decide_false by done; rewrite Hc; run; done)).
Qed.

(** The end marker. *)
Lemma parse_byte_e fuel t v m s o b :
  sees_end t = true → ∃ x b', parseValue (S fuel) t v (Build_Decoder m (String char_e s) o b) =
    (inr (x, false, None), Build_Decoder m s (o + 1) b') ∧ (b = "" → b' = "").
Proof. intros Ht. destruct t as [| | | | | |te| | | |]; try done; try destruct te; try done; by eexists _, _. Qed.

(** *** Integers and strings *)

Lemma ParseUint_pretty (z : Z) : 0 ≤ z < 2 ^ 64 → ParseUint (pretty z) = NumOk z.
Proof.
  intros Hz. destruct (pretty_checked z) as [_ H]. revert H. unfold SetString, ParseUint.
  assert (∃ c s, pretty z = String c s ∧ is_digit c = true) as (c & s & -> & Hc).
  { assert (∃ x : N, z = Z.of_N x ∧ pretty z = pretty x) as (x & -> & ->).
    { exists (Z.to_N z). split; [lia|]. by destruct z as [|p|p]; [| |lia]. }
    apply pretty_N_digits. }
  unfold is_digit in Hc. zbool. unfold split_sign. destruct (Z.eqb_spec (ord c) 45); [lia|]. destruct (Z.eqb_spec (ord c) 43); [lia|].
  rewrite !bool_decide_false by done. destruct (parse_dec _ _) as [v|] eqn:Hv; [|done]. cbn [mbind option_bind]. intros [= ->].
  rewrite (parse_uint_dec _ 0 z) by (done || lia). by rewrite (proj2 (Z.ltb_lt _ _)) by lia.
Qed.

(** The integer [z] read into the type [t]. *)
Lemma parse_int_ok t x (z : Z) m r o v fuel :
  plain t →
  (∀ m s o, parseInt t v (Build_Decoder m (pretty z +:+ String char_e s) o "") =
     (inr (x, None), Build_Decoder m s (o + slen (pretty z) + 1) "")) →
  parseValue (S fuel) t v (Build_Decoder m (("i" +:+ pretty z +:+ "e") +:+ r) o "") =
    (inr (x, true, None), Build_Decoder m r (o + slen ("i" +:+ pretty z +:+ "e")) "").
Proof.
  intros Ht Hp. change ("i" +:+ pretty z +:+ "e") with (String char_i (pretty z +:+ "e")).
  rewrite string_cons_app, <- string_assoc, parse_byte_i by done. run. change ("e" +:+ r) with (String char_e r). rewrite Hp. run.
  rewrite slen_cons, slen_app. change (slen "e") with 1. do 2 f_equal. lia.
Qed.

Lemma parseInt_int bits (z : Z) v m s o :
  0 < bits ≤ 64 → fits_s bits z →
  parseInt (TInt bits) v (Build_Decoder m (pretty z +:+ String char_e s) o "") =
    (inr (GInt z, None), Build_Decoder m s (o + slen (pretty z) + 1) "").
Proof.
  intros Hb Hz. unfold parseInt, readInt. run. rewrite readUntil_found by (by apply pretty_no_char). run.
  rewrite string_nil_app. destruct (pretty_checked z) as [-> E]. run. rewrite (ParseInt_SetString _ _ E).
  rewrite bool_decide_true by (unfold fits_s in *; assert (2 ^ (bits - 1) ≤ 2 ^ (64 - 1)) by (apply Z.pow_le_mono_r; lia); lia).
  cbn [checkForIntParseError]. run. rewrite bool_decide_true by done. by run.
Qed.

Lemma parseInt_uint bits (z : Z) v m s o :
  0 < bits ≤ 64 → fits_u bits z →
  parseInt (TUint bits) v (Build_Decoder m (pretty z +:+ String char_e s) o "") =
    (inr (GInt z, None), Build_Decoder m s (o + slen (pretty z) + 1) "").
Proof.
  intros Hb Hz. unfold parseInt, readInt. run. rewrite readUntil_found by (by apply pretty_no_char). run.
  rewrite string_nil_app. destruct (pretty_checked z) as [-> E]. run.
  rewrite ParseUint_pretty by (unfold fits_u in *; assert (2 ^ bits ≤ 2 ^ 64) by (apply Z.pow_le_mono_r; lia); lia).
  cbn [checkForIntParseError]. run. rewrite bool_decide_true by done. by run.
Qed.

Lemma parseInt_bool (x : bool) v m s o :
  parseInt TBool v (Build_Decoder m (pretty (if x then 1 else 0) +:+ String char_e s) o "") =
    (inr (GBool x, None), Build_Decoder m s (o + slen (pretty (if x then 1 else 0)) + 1) "").
Proof.
  unfold parseInt, readInt. run. rewrite readUntil_found by (by apply pretty_no_char). run. by destruct x.
Qed.

Lemma to_bytes_length s : length (to_bytes s) = String.length s.
Proof. induction s; [done|]. simpl. by rewrite IHs. Qed.

(** What the string [t] is in the type [ty]. *)
Definition string_as (ty : gotype) (t : string) : option gov :=
  match ty with
  | TString => Some (GStr t)
  | TSlice te => if is_uint8 te then Some (GSlice (to_bytes t)) else None
  | TArray n te => if is_uint8 te && (n =? String.length t)%nat then Some (GArray (to_bytes t)) else None
  | _ => None
  end.

Lemma parse_string_value ty x t m r o b fuel :
  string_as ty t = Some x → slen t ≤ mx → max_len m = mx →
  parseValue (S fuel) ty (zero ty) (Build_Decoder m (reflectString t +:+ r) o b) =
    (inr (x, true, None), Build_Decoder m r (o + slen (reflectString t)) "").
Proof using Hmx.
  intros Hx Hlen Hm. destruct (reflectString_head t) as (c & ds & E & Hc & ->).
  rewrite string_cons_app, parse_byte_digit by (done || by destruct ty). rewrite <- string_assoc, string_cons_app.
  unfold parseString, read_full. run. rewrite (parseStringLength_ok (slen t)); [|done|by rewrite Hm|by eapply fits_len]. run.
  rewrite read_limit_app. run. rewrite Z.eqb_refl. run.
  replace (o + slen (String c (ds +:+ String colon t))) with (o + 1 + slen ds + 1 + slen t)
    by (rewrite slen_cons, slen_app, slen_cons; lia).
  destruct ty as [| | | | | | |te|n te| |]; try done; cbn [string_as] in Hx.
  - by injection Hx as <-.
  - destruct (is_uint8 te); [|done]. by injection Hx as <-.
  - destruct (is_uint8 te); [|done]. cbn [andb] in Hx. destruct (Nat.eqb_spec n (String.length t)) as [->|]; [|done].
    injection Hx as <-. run. cbn [zero items]. rewrite take_ge by by rewrite to_bytes_length.
    rewrite drop_ge by by rewrite length_replicate. by rewrite app_nil_r.
Qed.

(** *** Lists *)

Fixpoint concat_text (l : list string) : string :=
  match l with [] => "" | s :: l' => s +:+ concat_text l' end.

Lemma parse_items_ok te xs ss m r o b fuel acc :
  Forall2 (decodable te) xs ss → sees_end te = true → max_len m = mx → (needs_clean te = true → b = "") →
  (4 * S (String.length (concat_text ss)) + 2 ≤ fuel)%nat →
  ∃ b', parseItems fuel (TSlice te) te (length acc) acc (Build_Decoder m (concat_text ss +:+ String char_e r) o b) =
      (inr (GSlice (acc ++ xs), None), Build_Decoder m r (o + slen (concat_text ss) + 1) b') ∧
    (needs_clean te = true → b' = "").
Proof.
  intros HP Hse Hm. revert fuel acc o b. induction HP as [|x s xs ss [Hs Hx] HP IH]; intros fuel acc o b Hb Hf.
  - destruct fuel as [|[|fuel]]; [simpl in Hf; lia..|]. cbn [parseItems is_slice andb concat_text].
    rewrite Nat.leb_refl, string_nil_app. rewrite (lookup_app_r acc), Nat.sub_diag by done. cbn [lookup list_lookup].
    destruct (parse_byte_e fuel te (zero te) m r o b Hse) as (x' & b' & E & Hb'). unfold mbind, M_bind. rewrite E.
    exists b'. split; [|auto]. cbn [trim_list]. change (slen "") with 0. rewrite Z.add_0_r, app_nil_r.
    rewrite take_insert_ge, take_app_length by done. done.
  - cbn [concat_text] in *. rewrite length_app_string in Hf. destruct fuel as [|fuel]; [lia|].
    cbn [parseItems is_slice andb]. rewrite Nat.leb_refl. rewrite (lookup_app_r acc), Nat.sub_diag by done. cbn [lookup list_lookup].
    destruct (Hx m (concat_text ss +:+ String char_e r) o b fuel Hm Hb ltac:(lia)) as (b1 & E & Hb1).
    rewrite <- string_assoc. unfold mbind, M_bind. rewrite E. cbn beta iota.
    destruct (IH fuel (acc ++ [x])%list (o + slen s) b1 Hb1 ltac:(lia)) as (b2 & E2 & Hb2).
    rewrite length_app, Nat.add_1_r in E2. rewrite insert_app_r_alt, Nat.sub_diag by done. cbn [insert list_insert].
    exists b2. split; [|done]. rewrite E2, <- app_assoc, slen_app. do 2 f_equal. lia.
Qed.

(** *** Dictionaries *)

(** An entry of a dictionary: its key, the text of its value and what decoding
    it does to the destination. *)
Definition entry : Type := string * string * (gov → gov).

Definition entry_text (e : entry) : string := reflectString e.1.1 +:+ e.1.2.

(** One turn of the loop of [parseDict]. *)
Definition entry_ok (t : gotype) (e : entry) : Prop := ∀ m r o b fuel v,
  max_len m = mx → (4 * String.length (entry_text e) + 1 ≤ fuel)%nat →
  ∃ b', parseDict (S fuel) t v (Build_Decoder m (entry_text e +:+ r) o b) =
          parseDict fuel t (e.2 v) (Build_Decoder m r (o + slen (entry_text e)) b').

Lemma entry_text_length e : (2 ≤ String.length (entry_text e))%nat.
Proof.
  unfold entry_text. destruct (reflectString_head e.1.1) as (c & ds & _ & _ & ->). rewrite length_app_string.
  cbn [String.length]. rewrite length_app_string. simpl. lia.
Qed.

Lemma parseDict_S fuel t v d :
  parseDict (S fuel) t v d =
    (r ← parseValue fuel TString (GStr "");
      match r with
      | (_, _, Some e) => mret (v, Some (DictKeyError e))
      | (_, false, None) => mret (v, None)
      | (k, true, None) =>
          let key := match k with GStr s => s | _ => "" end in
          match getDictField t key with
          | None => mret (v, Some DictTargetError)
          | Some DDiscard =>
              i ← parse_iface;
              match i with
              | None => mret (v, Some (DiscardError key))
              | Some _ => parseDict fuel t v
              end
          | Some (DMap te) =>
              r ← parseValue fuel te (zero te);
              match r with
              | (_, _, Some e) => mret (v, Some (ValueError key e))
              | (_, false, None) => mret (v, Some (MissingValue key))
              | (sv, true, None) => parseDict fuel t (set_map key sv v)
              end
          | Some (DField i ft ignore) =>
              r ← parseValue fuel ft (zero ft);
              let '(sv, ok, err) := r in
              match (match err with
                     | Some e => if as_type_error e && ignore then None else Some (ValueError key e)
                     | None => None
                     end) with
              | Some e => mret (v, Some e)
              | None => if ok : bool then parseDict fuel t (set_field i sv v) else mret (v, Some (MissingValue key))
              end
          end
      end) d.
Proof. done. Qed.

(** What the decoder does with the value of a key. *)
Definition dest_set (d : dest) (key : string) (x v : gov) : gov :=
  match d with DMap _ => set_map key x v | DField i _ _ => set_field i x v | DDiscard => v end.

Definition dest_type (d : dest) : option gotype :=
  match d with DMap te => Some te | DField _ ft _ => Some ft | DDiscard => None end.

Lemma entry_decodes t k s dst ft x :
  slen k ≤ mx → getDictField t k = Some dst → dest_type dst = Some ft → decodable ft x s →
  entry_ok t (k, s, dest_set dst k x).
Proof using Hmx.
  intros Hk Hd Hft [Hs Hx] m r o b fuel v Hm Hf. unfold entry_text in *. cbn [fst snd] in *. rewrite length_app_string in Hf.
  rewrite parseDict_S, <- string_assoc. destruct fuel as [|fuel]; [lia|]. unfold mbind, M_bind.
  pose proof (parse_string_value TString (GStr k) k m (s +:+ r) o b fuel eq_refl Hk Hm) as E. cbn [zero] in E. rewrite E.
  cbn beta iota zeta. rewrite Hd.
  destruct (Hx m r (o + slen (reflectString k)) "" (S fuel) Hm ltac:(done) ltac:(lia)) as (b' & E' & _).
  exists b'. rewrite slen_app, Z.add_assoc. destruct dst as [te|i ft' ign|]; cbn [dest_type] in Hft; simplify_eq; by rewrite E'.
Qed.

Lemma parse_dict_run t es m r o b fuel v :
  Forall (entry_ok t) es → max_len m = mx →
  (4 * S (String.length (concat_text (map entry_text es))) + 2 ≤ fuel)%nat →
  ∃ b', parseDict fuel t v (Build_Decoder m (concat_text (map entry_text es) +:+ String char_e r) o b) =
      (inr (foldl (λ v e, e.2 v) v es, None), Build_Decoder m r (o + slen (concat_text (map entry_text es)) + 1) b').
Proof.
  intros HP Hm. revert fuel v o b. induction HP as [|e es He HP IH]; intros fuel v o b Hf.
  - destruct fuel as [|[|fuel]]; [simpl in Hf; lia..|]. exists b. cbn [map concat_text foldl]. change (slen "") with 0. by rewrite Z.add_0_r.
  - cbn [map concat_text foldl] in *. rewrite length_app_string in Hf. pose proof (entry_text_length e).
    destruct fuel as [|fuel]; [lia|]. rewrite <- string_assoc.
    destruct (He m (concat_text (map entry_text es) +:+ String char_e r) o b fuel v Hm ltac:(lia)) as (b1 & ->).
    destruct (IH fuel (e.2 v) (o + slen (entry_text e)) b1 ltac:(lia)) as (b2 & ->).
    exists b2. rewrite slen_app. do 2 f_equal. lia.
Qed.

Lemma decodable_dict t es x :
  plain t → needs_clean t = false → Forall (entry_ok t) es → foldl (λ v e, e.2 v) (zero t) es = x →
  decodable t x ("d" +:+ concat_text (map entry_text es) +:+ "e").
Proof.
  intros Ht Hn Hes Hx. change ("d" +:+ ?s) with (String char_d s). split.
  { cbn [String.length]. rewrite length_app_string. simpl. lia. }
  intros m r o b fuel Hm _ Hf. cbn [String.length] in Hf. rewrite length_app_string in Hf. simpl in Hf.
  destruct fuel as [|fuel]; [lia|]. rewrite string_cons_app, <- string_assoc, parse_byte_d by done.
  change ("e" +:+ r) with (String char_e r).
  destruct (parse_dict_run t es m r (o + 1) b fuel (zero t) Hes Hm ltac:(lia)) as (b' & E). unfold mbind, M_bind. rewrite E.
  exists b'. rewrite Hx, Hn. split; [|done]. rewrite slen_cons, slen_app. change (slen "e") with 1. cbn. do 2 f_equal. lia.
Qed.

(** *** Structs *)

(** The fields of a struct that are written: position, tag and type, value. *)
Fixpoint present (fs : list (tag * gotype)) (l : list gov) (i : nat) : list (nat * (tag * gotype) * gov) :=
  match fs, l with
  | f :: fs', x :: l' =>
      if OmitEmpty f.1 && isEmptyValue x then present fs' l' (S i) else (i, f, x) :: present fs' l' (S i)
  | _, _ => []
  end.

Lemma present_elem fs l k i f x :
  (i, f, x) ∈ present fs l k ↔
  ∃ j, i = (k + j)%nat ∧ fs !! j = Some f ∧ l !! j = Some x ∧ OmitEmpty f.1 && isEmptyValue x = false.
Proof.
  revert l k. induction fs as [|g fs IH]; intros l k; [simpl; split; [by intros ?%not_elem_of_nil|by intros (? & _ & ? & _)]|].
  destruct l as [|y l]; [simpl; split; [by intros ?%not_elem_of_nil|by intros (? & _ & _ & ? & _)]|]. cbn [present].
  destruct (OmitEmpty g.1 && isEmptyValue y) eqn:E; rewrite ?elem_of_cons, IH; split.
  - intros (j & -> & ? & ? & ?). exists (S j). by rewrite Nat.add_succ_r.
  - intros ([|j] & -> & Hf & Hx & Ho); simplify_eq/=; [congruence|]. exists j. by rewrite Nat.add_succ_r.
  - intros [[= -> -> ->]|(j & -> & ? & ? & ?)]; [by exists 0%nat; rewrite Nat.add_0_r|]. exists (S j). by rewrite Nat.add_succ_r.
  - intros ([|j] & -> & Hf & Hx & Ho); simplify_eq/=; [left; by rewrite Nat.add_0_r|]. right. exists j. by rewrite Nat.add_succ_r.
Qed.

Lemma present_NoDup fs l k : NoDup ((λ p, p.1.1) <$> present fs l k).
Proof.
  revert l k. induction fs as [|g fs IH]; intros l k; [constructor|]. destruct l as [|y l]; [constructor|]. cbn [present].
  destruct (OmitEmpty g.1 && isEmptyValue y); [apply IH|]. rewrite fmap_cons. constructor; [|apply IH].
  intros ([[i f] x] & Hi & Hin)%list_elem_of_fmap. cbn [fst] in Hi.
  apply present_elem in Hin as (j & ? & _). lia.
Qed.

Lemma field_for_key fs i f k :
  NoDup (map (λ f, Key f.1) fs) → fs !! i = Some f →
  getStructFieldForKey fs (Key f.1) k = Some ((k + i)%nat, f.2, IgnoreUnmarshalTypeError f.1).
Proof.
  revert i k. induction fs as [|[tg ft] fs IH]; intros i k; [done|]. cbn [map fst]. intros [Hn Hd]%NoDup_cons Hi.
  cbn [getStructFieldForKey]. destruct i as [|i]; simpl in Hi.
  - simplify_eq. cbn [fst snd]. rewrite bool_decide_true, Nat.add_0_r by done.
    destruct (getStructFieldForKey fs (Key tg) (S k)) as [r|] eqn:E; [|done]. exfalso. apply Hn. clear -E.
    revert r k E. induction fs as [|[tg' ft'] fs IH]; intros r k; [done|]. cbn [getStructFieldForKey map fst].
    destruct (getStructFieldForKey fs (Key tg) (S (S k))) eqn:E; [intros _; right; by eapply IH|].
    case_bool_decide as Hk; [|done]. intros _. rewrite Hk. left.
  - rewrite (IH i (S k)) by done. by rewrite Nat.add_succ_r.
Qed.

(** Setting fields at different positions, in any order. *)
Lemma set_fields_lookup (ps : list (nat * (tag * gotype) * gov)) (z : list gov) j :
  NoDup ((λ p, p.1.1) <$> ps) →
  foldl (λ l p, <[p.1.1 := p.2]> l) z ps !! j =
    match list_find (λ p, p.1.1 = j) ps with
    | Some (_, p) => if decide (j < length z)%nat then Some p.2 else None
    | None => z !! j
    end.
Proof.
  revert z. induction ps as [|[[i f] x] ps IH]; intros z; [done|]. rewrite fmap_cons. cbn [fst foldl snd]. intros [Hn Hd]%NoDup_cons.
  rewrite IH, length_insert by done. cbn [list_find fst]. destruct (decide (i = j)) as [->|Hij].
  - destruct (list_find (λ p, p.1.1 = j) ps) as [[k p]|] eqn:E; cbn.
    + apply list_find_Some in E as (E & Hp & _). exfalso. apply Hn. rewrite <- Hp. apply (list_elem_of_fmap_2 (λ p, p.1.1)).
      by eapply list_elem_of_lookup_2.
    + case_decide; [by apply list_lookup_insert_eq|]. apply lookup_ge_None. rewrite length_insert. lia.
  - destruct (list_find (λ p, p.1.1 = j) ps) as [[k p]|]; cbn; [done|]. by rewrite list_lookup_insert_ne.
Qed.

Lemma foldl_set_field (ps : list (nat * (tag * gotype) * gov)) z :
  foldl (λ v p, set_field p.1.1 p.2 v) (GStruct z) ps = GStruct (foldl (λ l p, <[p.1.1 := p.2]> l) z ps).
Proof. revert z. induction ps as [|p ps IH]; intros z; [done|]. cbn [foldl set_field]. apply IH. Qed.

(** The written fields, set in any order over the zero struct, give the value
    when the others are zero. *)
Lemma set_present fs l ps :
  length l = length fs → ps ≡ₚ present fs l 0 →
  (∀ j f x, fs !! j = Some f → l !! j = Some x → OmitEmpty f.1 && isEmptyValue x = true → x = zero f.2) →
  foldl (λ l p, <[p.1.1 := p.2]> l) (map (λ f, zero f.2) fs) ps = l.
Proof.
  intros Hlen Hps Hz. apply list_eq. intros j.
  assert (NoDup ((λ p, p.1.1) <$> ps)) as Hd by (rewrite Hps; apply present_NoDup).
  change (map (λ f, zero f.2) fs) with ((λ f, zero f.2) <$> fs). rewrite set_fields_lookup, length_fmap by done.
  destruct (l !! j) as [x|] eqn:Hj.
  - assert (j < length fs)%nat as Hlt by (rewrite <- Hlen; by eapply lookup_lt_Some).
    destruct (lookup_lt_is_Some_2 fs j Hlt) as [f Hf].
    destruct (list_find (λ p, p.1.1 = j) ps) as [[k [[i f'] y]]|] eqn:E.
    + apply list_find_Some in E as (E & Hi & _). cbn [fst] in Hi. subst i. rewrite decide_True by done. cbn [snd].
      apply list_elem_of_lookup_2 in E. rewrite Hps, present_elem in E. destruct E as (j' & -> & _ & Hy & _). rewrite Nat.add_0_l in Hj. congruence.
    + rewrite list_lookup_fmap, Hf. cbn. f_equal. symmetry. apply (Hz j f x Hf Hj). destruct (OmitEmpty f.1 && isEmptyValue x) eqn:Ho; [done|].
      exfalso. apply list_find_None in E. rewrite Hps in E. rewrite Forall_forall in E. apply (E (j, f, x)); [|done].
      apply present_elem. by exists j.
  - apply lookup_ge_None in Hj. destruct (list_find _ _) as [[k p]|]; [by rewrite decide_False by lia|].
    apply lookup_ge_None. rewrite length_fmap. lia.
Qed.

Lemma insert_sorted_map {A B} (f : A → B) (less : B → B → bool) x l :
  insert_sorted less (f x) (map f l) = map f (insert_sorted (λ x y, less (f x) (f y)) x l).
Proof. induction l as [|y l IH]; [done|]. cbn [map insert_sorted]. case_if; [|done]. cbn [map]. by rewrite IH. Qed.

Lemma sort_map {A B} (f : A → B) (less : B → B → bool) l :
  sort_stable less (map f l) = map f (sort_stable (λ x y, less (f x) (f y)) l).
Proof. induction l as [|y l IH]; [done|]. cbn [map sort_stable foldr]. unfold sort_stable in IH. by rewrite IH, insert_sorted_map. Qed.

Lemma Forall_choice {A B} (R : A → B → Prop) l : Forall (λ x, ∃ y, R x y) l → ∃ k, Forall2 R l k.
Proof. induction 1 as [|x l (y & Hy) _ (k & Hk)]; [by exists []|]. exists (y :: k). by constructor. Qed.

Lemma join_texts {A} (f : A → error + string) l ss :
  Forall2 (λ x s, f x = inr s) l ss → join (map f l) = inr (concat_text ss).
Proof. induction 1 as [|x s l ss Hx _ IH]; [done|]. cbn [map join concat_text]. by rewrite Hx, IH. Qed.

(** What the encoder writes for the value [x] decodes to it. *)
Definition survives (t : gotype) (x : gov) : Prop :=
  ∃ s, encode isEmptyValue t x = inr s ∧ decodable t x s.

(** The fields as [encode] lists them. *)
Lemma encode_struct fs l :
  encode isEmptyValue (TStruct fs) (GStruct l) =
    wrap "d" (join (map (λ p, keyed (Key p.1.2.1) (encode isEmptyValue p.1.2.2 p.2))
      (sort_stable (λ p q, by_tag p.1.2 q.1.2) (present fs l 0)))).
Proof.
  cbn [encode]. match goal with |- context [sort_stable by_tag ?L] => assert (L = map (λ p, (p.1.2.1, encode isEmptyValue p.1.2.2 p.2)) (present fs l 0)) as -> end.
  { generalize 0%nat. revert l. induction fs as [|f fs IH]; intros l k; [done|]. destruct l as [|x l]; [done|]. cbn [present].
    destruct (OmitEmpty f.1 && isEmptyValue x); [apply IH|]. cbn [map fst snd]. f_equal. apply IH. }
  rewrite sort_map, map_map. done.
Qed.

(** The conditions on the fields, position by position. *)
Lemma canon_struct fs l :
  canon (TStruct fs) (GStruct l) → NoDup (map (λ f, Key f.1) fs) ∧ length l = length fs ∧
  ∀ j f x, fs !! j = Some f → l !! j = Some x →
    slen (Key f.1) ≤ mx ∧ (if OmitEmpty f.1 && isEmptyValue x then x = zero f.2 else canon f.2 x).
Proof.
  cbn [canon]. intros [Hd Hf]. split; [done|]. clear Hd. revert l Hf. induction fs as [|g fs IH]; intros [|y l]; try done.
  intros (Hk & Hc & Hf). destruct (IH l Hf) as [Hlen Hall]. split; [simpl; by rewrite Hlen|].
  intros [|j] f x; simpl; [by intros [= <-] [= <-]|apply Hall].
Qed.

Lemma struct_survives fs l :
  Forall (λ f, ∀ x, canon f.2 x → survives f.2 x) fs → canon (TStruct fs) (GStruct l) → survives (TStruct fs) (GStruct l).
Proof using Hmx.
  intros IH Hc. destruct (canon_struct fs l Hc) as (Hd & Hlen & Hall). unfold survives. rewrite encode_struct.
  set (ps := sort_stable (λ p q, by_tag p.1.2 q.1.2) (present fs l 0)).
  assert (ps ≡ₚ present fs l 0) as Hps by apply sort_stable_perm.
  assert (Forall (λ p, ∃ e : entry, keyed (Key p.1.2.1) (encode isEmptyValue p.1.2.2 p.2) = inr (entry_text e) ∧
    entry_ok (TStruct fs) e ∧ e.2 = set_field p.1.1 p.2) ps) as Hch.
  { rewrite Hps. apply Forall_forall. intros [[i f] x] (j & Hi & Hf & Hx & Ho)%present_elem. cbn [fst snd]. simpl in Hi. subst i.
    destruct (Hall j f x Hf Hx) as [Hk Hcx]. rewrite Ho in Hcx. rewrite Forall_forall in IH.
    destruct (IH f (list_elem_of_lookup_2 _ _ _ Hf) x Hcx) as (s & Es & Hs).
    exists (Key f.1, s, set_field j x). rewrite Es. split_and!; [done| |done].
    apply (entry_decodes (TStruct fs) (Key f.1) s (DField j f.2 (IgnoreUnmarshalTypeError f.1)) f.2 x Hk); [|done..].
    cbn [getDictField]. by rewrite (field_for_key fs j f 0). }
  apply Forall_choice in Hch as [es Hes]. exists ("d" +:+ concat_text (map entry_text es) +:+ "e"). split.
  - rewrite (join_texts _ _ (map entry_text es)); [done|]. clear -Hes. induction Hes as [|p e ps es (Hp & _) _ IH]; constructor; done.
  - apply decodable_dict; [done|done| |].
    + clear -Hes. induction Hes as [|p e ps es (_ & He & _) _ IH]; by constructor.
    + trans (foldl (λ v p, set_field p.1.1 p.2 v) (zero (TStruct fs)) ps).
      * clear -Hes. generalize (zero (TStruct fs)). induction Hes as [|p e ps es (_ & _ & He) _ IH]; intros v; [done|].
        cbn [foldl]. by rewrite He, IH.
      * cbn [zero]. rewrite foldl_set_field. f_equal. apply set_present; [done..|].
        intros j f x Hf Hx Ho. destruct (Hall j f x Hf Hx) as [_ H]. by rewrite Ho in H.
Qed.

Lemma foldr_Forall {A} (P : A → Prop) l : foldr (λ x Q, P x ∧ Q) True l → Forall P l.
Proof. induction l as [|x l IH]; [constructor|]. intros [? ?]. constructor; auto. Qed.

Lemma map_survives te m :
  (∀ x, canon te x → survives te x) → canon (TMap te) (GMap m) → survives (TMap te) (GMap m).
Proof using Hmx.
  intros IH (Hne & Hasc & Hm). unfold survives. cbn [encode]. rewrite sort_ascending by by rewrite map_map. rewrite map_map. cbn [fst snd].
  assert (Forall (λ kv, ∃ e : entry, keyed kv.1 (encode isEmptyValue te kv.2) = inr (entry_text e) ∧
    entry_ok (TMap te) e ∧ e.2 = set_map kv.1 kv.2) m) as Hch.
  { clear Hne Hasc. induction m as [|[k x] m IHm]; [constructor|]. destruct Hm as (Hk & Hx & Hm). constructor; [|by apply IHm].
    destruct (IH x Hx) as (s & Es & Hs). exists (k, s, set_map k x). cbn [fst snd] in *. rewrite Es. split_and!; [done| |done].
    by apply (entry_decodes (TMap te) k s (DMap te) te x). }
  apply Forall_choice in Hch as [es Hes]. exists ("d" +:+ concat_text (map entry_text es) +:+ "e"). split.
  - rewrite (join_texts _ _ (map entry_text es)); [done|]. clear -Hes. induction Hes as [|p e ps es (Hp & _) _ IH]; constructor; done.
  - apply decodable_dict; [done|done| |].
    + clear -Hes. induction Hes as [|p e ps es (_ & He & _) _ IH]; by constructor.
    + cbn [zero]. assert (∀ acc v, (acc = [] → v = GNil) → (acc ≠ [] → v = GMap acc) → ascending (map fst (acc ++ m))%list = true →
        acc ≠ [] ∨ m ≠ [] → foldl (λ v e, e.2 v) v es = GMap (acc ++ m)%list) as H.
      { clear Hne Hasc Hm. induction Hes as [|[k x] e m es (_ & _ & He) _ IHm]; intros acc v H0 H1 Ha Hnn.
        - rewrite app_nil_r. destruct Hnn as [Hnn|]; [by apply H1|done].
        - cbn [foldl]. rewrite map_app in Ha. cbn [map fst] in Ha. destruct (next_key acc m k x Ha) as (_ & Hset & _).
          rewrite (IHm (acc ++ [(k, x)])%list); [by rewrite <- app_assoc|by destruct acc| | |left; by destruct acc].
          + intros _. rewrite He. unfold set_map. cbn [fst snd]. rewrite <- Hset. f_equal.
            destruct acc; [by rewrite H0|]. by rewrite H1.
          + rewrite <- app_assoc, map_app. done. }
      apply (H [] GNil); [done|done|done|by right].
Qed.

Lemma slice_survives te l :
  (∀ x, canon te x → survives te x) → is_uint8 te = false → canon (TSlice te) (GSlice l) → survives (TSlice te) (GSlice l).
Proof.
  intros IH Hu. cbn [canon]. rewrite Hu. intros [Hse Hl%foldr_Forall].
  assert (Forall (λ x, ∃ s, encode isEmptyValue te x = inr s ∧ decodable te x s) l) as Hch.
  { eapply Forall_impl; [exact Hl|]. exact IH. }
  apply Forall_choice in Hch as [ss Hss]. unfold survives. cbn [encode]. rewrite Hu. exists ("l" +:+ concat_text ss +:+ "e").
  rewrite (join_texts _ _ ss); [|eapply Forall2_impl; [exact Hss|]; by intros x s [? _]]. split; [done|].
  change ("l" +:+ ?s) with (String char_l s). split.
  { cbn [String.length]. rewrite length_app_string. simpl. lia. }
  intros m r o b fuel Hm Hb Hf. cbn [String.length] in Hf. rewrite length_app_string in Hf. simpl in Hf.
  cbn [needs_clean] in *. rewrite Hu in *. cbn [negb andb] in *.
  destruct fuel as [|[|fuel]]; [lia..|]. rewrite string_cons_app, <- string_assoc, parse_byte_l by done.
  change ("e" +:+ r) with (String char_e r). cbn [parseList elem_type items zero].
  destruct (parse_items_ok te l ss m r (o + 1) b fuel []) as (b' & E & Hb'); [|done|done|done|lia|].
  { eapply Forall2_impl; [exact Hss|]. by intros x s [_ ?]. }
  cbn [length] in E. unfold mbind, M_bind. rewrite E. exists b'. split; [|done].
  rewrite slen_cons, slen_app. change (slen "e") with 1. cbn. do 2 f_equal. lia.
Qed.

Lemma string_survives t x s :
  string_as t s = Some x → slen s ≤ mx → needs_clean t = false → encode isEmptyValue t x = inr (reflectString s) → survives t x.
Proof using Hmx.
  intros Hx Hs Hn He. exists (reflectString s). split; [done|]. split.
  { destruct (reflectString_head s) as (c & ds & _ & _ & ->). cbn [String.length]. rewrite length_app_string. simpl. lia. }
  intros m r o b fuel Hm _ Hf. destruct fuel as [|fuel]; [lia|]. exists "". split; [by apply parse_string_value|done].
Qed.

Lemma of_to_bytes s : of_bytes (to_bytes s) = s.
Proof.
  induction s as [|c s IH]; [done|]. cbn [to_bytes of_bytes]. rewrite IH. f_equal. unfold ord. rewrite Nat2Z.id.
  apply Ascii.ascii_nat_embedding.
Qed.

Lemma int_survives t x (z : Z) :
  plain t → encode isEmptyValue t x = inr ("i" +:+ pretty z +:+ "e") → needs_clean t = true →
  (∀ m s o, parseInt t (zero t) (Build_Decoder m (pretty z +:+ String char_e s) o "") =
     (inr (x, None), Build_Decoder m s (o + slen (pretty z) + 1) "")) → survives t x.
Proof.
  intros Ht He Hn Hp. eexists. split; [exact He|]. split.
  { rewrite !length_app_string. simpl. lia. }
  intros m r o b fuel Hm Hb Hf. destruct fuel as [|fuel]; [lia|]. rewrite Hb by done. exists "". split; [|done]. by apply parse_int_ok.
Qed.

Lemma user_survives u v : canon (TUser u) v → survives (TUser u) v.
Proof using Hmx.
  intros (x & Hw & Hmar & Hun). exists (reflectValue x). cbn [encode]. rewrite Hmar. split; [done|]. split.
  { apply reflectValue_length. }
  intros m r o b fuel Hm _ Hf. destruct fuel as [|fuel]; [lia|]. exists (reflectValue x). split; [|done].
  cbn [parseValue deref parseUnmarshaler]. run. rewrite (readOneValue_copies mx x Hmx) by (done || rewrite length_app_string; lia).
  run. rewrite string_nil_app, Hun. done.
Qed.

(** A pointer is filled like what it points to. *)
Lemma parseValue_ptr fuel te d x ok err d' :
  match te with TPtr _ => False | _ => True end →
  parseValue fuel te (zero te) d = (inr (x, ok, err), d') →
  parseValue fuel (TPtr te) GNil d = (inr (GPtr x, ok, err), d').
Proof.
  intros Hte. destruct fuel as [|fuel]; [done|]. cbn [parseValue]. assert (deref te (zero te) = (te, zero te, false)) as -> by by destruct te.
  cbn [deref]. unfold mbind, M_bind. destruct (parseUnmarshaler te d) as [[e|[y|]] d1]; [done|by intros [= <- <- <- <-]|].
  destruct te; try done;
    try (destruct (ReadByte d1) as [[e|[c|]] d2]; [done| |by intros [= <- <- <- <-]];
         destruct (add_offset 1 d2) as [[e|[]] d3]; [done|];
         destruct (bool_decide (c = char_e)); [by intros [= <- <- <- <-]|];
         destruct (bool_decide (c = char_d)); [by destruct (parseDict _ _ _ _) as [[e|[y er]] d4]; [|intros [= <- <- <- <-]]|];
         destruct (bool_decide (c = char_l)); [by destruct (parseList _ _ _ _) as [[e|[y er]] d4]; [|intros [= <- <- <- <-]]|];
         destruct (bool_decide (c = char_i)); [by destruct (parseInt _ _ _) as [[e|[y er]] d4]; [|intros [= <- <- <- <-]]|];
         destruct (is_digit c); [|done];
         destruct (Reset d3) as [[e|[]] d4]; [done|]; destruct (WriteByte c d4) as [[e|[]] d5]; [done|];
         by destruct (parseString _ _ _) as [[e|[y er]] d6]; [|intros [= <- <- <- <-]]).
  by destruct (parse_iface d1) as [[e|[y|]] d2]; [|intros [= <- <- <- <-]|].
Qed.

Lemma ptr_survives te x : survives te x → match te with TPtr _ => False | _ => True end → survives (TPtr te) (GPtr x).
Proof.
  intros (s & He & Hs & Hd) Hte. exists s. cbn [encode]. split; [done|]. split; [done|].
  intros m r o b fuel Hm Hb Hf. destruct (Hd m r o b fuel Hm Hb Hf) as (b' & E & Hb'). exists b'. split; [|done].
  by apply parseValue_ptr.
Qed.

Lemma encode_survives t x : canon t x → survives t x.
Proof using Hmx.
  revert x. induction t as [| | |bits|bits|u|te IH|te IH|n te IH|te IH|fs IH] using gotype_ind'; intros x Hc.
  - destruct x as [|v| | | | | | | |]; try done. cbn [canon] in Hc. exists (reflectValue v). split; [done|]. split; [apply reflectValue_length|].
    intros m r o b fuel Hm Hb Hf. rewrite Hb by done. destruct fuel as [|fuel]; [lia|]. exists "". split; [|done].
    cbn [parseValue deref parseUnmarshaler]. unfold parse_iface. run.
    rewrite parse_ok by (rewrite ?Hm; done || rewrite length_app_string; lia). done.
  - destruct x as [| |b| | | | | | |]; try done. apply (int_survives TBool (GBool b) (if b then 1 else 0)); [done|by destruct b|done|].
    intros. apply parseInt_bool.
  - destruct x as [| | |s| | | | | |]; try done. by apply (string_survives TString (GStr s) s).
  - destruct x as [| | | |z| | | | |]; try done. destruct Hc. apply (int_survives (TInt bits) (GInt z) z); [done..|].
    intros. by apply parseInt_int.
  - destruct x as [| | | |z| | | | |]; try done. destruct Hc. apply (int_survives (TUint bits) (GInt z) z); [done..|].
    intros. by apply parseInt_uint.
  - by apply user_survives.
  - destruct x as [| | | | |y| | | |]; try done. destruct Hc as [Hc Hp]. by apply ptr_survives; [apply IH|].
  - destruct x as [| | | | | |l| | |]; try done. destruct (is_uint8 te) eqn:Hu; [|by apply slice_survives].
    cbn [canon] in Hc. rewrite Hu in Hc. destruct Hc as (s & -> & Hs). apply (string_survives _ _ s); [cbn; by rewrite Hu|done|cbn; by rewrite Hu|].
    cbn [encode items]. by rewrite Hu, of_to_bytes.
  - destruct x as [| | | | | | |l| |]; try done. destruct Hc as (Hu & s & -> & Hl & Hs).
    apply (string_survives _ _ s); [cbn; rewrite Hu; by rewrite (proj2 (Nat.eqb_eq _ _))|done|done|].
    cbn [encode items]. by rewrite Hu, of_to_bytes.
  - destruct x as [| | | | | | | |m|]; try done; [|by apply map_survives].
    exists ("d" +:+ concat_text (map entry_text []) +:+ "e"). split; [done|]. by apply decodable_dict.
  - destruct x as [| | | | | | | | |l]; try done. by apply struct_survives.
Qed.
End roundtrip.


(** A list cannot be decoded into a slice of [interface{}]: an
    [interface{}] element takes the end marker for a value that is not there
    ([parseValue] reports it as one, and storing nil fails), so the list has no
    end and every input fails. *)
Theorem slice_of_interfaces_fails (v : gov) (data : string) :
  ∃ e, UnmarshalInto (TSlice TIface) v (String char_l data) = inl e.
Proof.
  assert (∀ fuel i l d, (i ≤ length l)%nat → ∃ e d', parseItems fuel (TSlice TIface) TIface i l d = (inl e, d')) as Hi.
  { intros fuel. induction fuel as [|fuel IH]; intros i l d Hil; [by eexists _, _|]. cbn [parseItems is_slice andb].
    set (l1 := if (length l <=? i)%nat then _ else _).
    assert (i < length l1)%nat as Hl1 by (unfold l1; destruct (Nat.leb_spec (length l) i); [rewrite length_app; simpl|]; lia).
    destruct (lookup_lt_is_Some_2 l1 i Hl1) as [x ->]. unfold mbind, M_bind.
    destruct fuel as [|fuel]; [by eexists _, _|]. cbn [parseValue deref parseUnmarshaler].
    unfold mbind, M_bind, mret, M_ret. destruct (parse_iface d) as [[e|[y|]] d1]; [by eexists _, _| |by eexists _, _].
    cbn [reref]. apply IH. by rewrite length_insert. }
  unfold UnmarshalInto, Decode, new_decoder, decode_fuel. cbn [input].
  rewrite parse_byte_l by done. cbn [String.length Nat.mul Nat.add]. unfold mbind, M_bind. cbn [parseList elem_type].
  match goal with |- context [parseItems ?f ?t ?te ?i ?l ?d] => destruct (Hi f i l d ltac:(lia)) as (e & d' & ->) end.
  by eexists.
Qed.

(** [parseInt] leaves the digits in the buffer when the number does not fit: the
    next value of the stream, if it is an integer, is read behind them (a string
    resets the buffer first). *)
Theorem stale_digits_join :
  let (r, d) := Decode (TUint 8) (GInt 0) (new_decoder "i300ei5e") in
  (∃ e, r = inl e ∧ as_type_error e = true) ∧ input d = "i5e" ∧ (Decode (TInt 64) (GInt 0) d).1 = inr (GInt 3005).
Proof. vm_compute. split; [eexists; split; reflexivity|split; reflexivity]. Qed.

(** A field with a name and no options. *)
Definition no_tag (k : string) : tag := {| Key := k; OmitEmpty := false; IgnoreUnmarshalTypeError := false |}.

(** A struct with a signed field, bytes, a map of lists and a pointer. *)
Definition sample_type : gotype :=
  TStruct [(no_tag "zz", TInt 64); (no_tag "b", TSlice (TUint 8)); (no_tag "c", TMap (TSlice TString)); (no_tag "p", TPtr TBool)].

Definition sample : gov :=
  GStruct [GInt (-4); GSlice (to_bytes "hi"); GMap [("a", GSlice [GStr "x"; GStr "y"]); ("b", GSlice [])]; GPtr (GBool true)].

