(* ===== verification/PeerProtocol.v ===== *)
(** * The peer protocol (internal/anacrolix-torrent-v1.55/peer_protocol)

    The messages between peers: their encoding ([Message.MarshalBinary]), the
    decoder of the incoming stream ([Decoder.Decode]), the bit fields, and the
    handshake that opens a connection with its extension bits.

    Bytes are the characters of a string, a uint32 ([Integer]) an integer with
    its wrap-around. The stream is what has not been read yet; the slices the
    decoder asks for ([make]) are recorded, since their size comes from the peer.
    Writers do not fail. *)

From S2P Require Import Prelude InodeMap Bencode.

Local Open Scope string_scope.
Local Open Scope Z_scope.

Definition byte_char (z : Z) : Ascii.ascii := Ascii.ascii_of_nat (Z.to_nat (z mod 256)).

(** ** Integers ([Integer], binary.BigEndian) *)

Definition IntegerMax : Z := 2 ^ 32 - 1.

Definition sub32 (a b : Z) : Z := wrap_u 32 (a - b).

Definition put16 (z : Z) : string := String (byte_char (z / 256)) (String (byte_char z) "").

Definition put32 (z : Z) : string :=
  String (byte_char (z / 2 ^ 24)) (String (byte_char (z / 2 ^ 16)) (put16 z)).

Fixpoint be_value (s : string) (acc : Z) : Z :=
  match s with EmptyString => acc | String c s' => be_value s' (acc * 256 + ord c) end.

Inductive perr :=
  | PEOF
  | PUnexpectedEOF
  | ReadingLength (e : perr)
  | TooLong
  | UnknownType (c : Z)
  | UnusedBytes (n : Z)
  | PieceTooLong                (** piece data longer than expected *)
  | TrailingBytes (n : Z)
  | BadProtocol                 (** unexpected protocol string *)
  | WhileReading (e : perr).

(** [io.ReadFull] of [n] bytes. *)
Definition ReadFull (n : Z) (r : string) : (perr + string) * string :=
  let got := str_take (Z.to_nat n) r in
  let r' := str_drop (Z.to_nat n) r in
  if slen got =? n then (inr got, r')
  else (inl (if slen got =? 0 then PEOF else PUnexpectedEOF), r').

(** [Integer.Read]. *)
Definition read_int (r : string) : (perr + Z) * string :=
  match ReadFull 4 r with
  | (inr b, r') => (inr (be_value b 0), r')
  | (inl e, r') => (inl e, r')
  end.

Definition read_byte (r : string) : (perr + Z) * string :=
  match r with EmptyString => (inl PEOF, r) | String c r' => (inr (ord c), r') end.

(** ** Messages *)

Record Message := {
  Keepalive : bool;
  Type_ : Z;
  Index : Z;
  Begin : Z;
  Length : Z;
  Piece : string;
  Bitfield : list bool;
  ExtendedID : Z;
  ExtendedPayload : string;
  Port : Z;
}.

Definition zero_message : Message :=
  {| Keepalive := false; Type_ := 0; Index := 0; Begin := 0; Length := 0; Piece := ""; Bitfield := [];
     ExtendedID := 0; ExtendedPayload := ""; Port := 0 |}.

(** The groups of message types that are coded alike. *)
Inductive shape := SBare | SIndex | SRequest | SBitfield | SPiece | SExtended | SPort | SUnknown.

Definition shape_of (t : Z) : shape :=
  if bool_decide (t ∈ [0; 1; 2; 3; 14; 15]) then SBare
  else if bool_decide (t ∈ [4; 17; 13]) then SIndex
  else if bool_decide (t ∈ [6; 8; 16]) then SRequest
  else if t =? 5 then SBitfield
  else if t =? 7 then SPiece
  else if t =? 20 then SExtended
  else if t =? 9 then SPort
  else SUnknown.

Definition FastExtension (t : Z) : bool := (13 <=? t) && (t <=? 17).

(** ** Bit fields *)

Definition bit_of (c : Ascii.ascii) (i : Z) : bool := Z.testbit (ord c) i.

Fixpoint unmarshalBitfield (b : string) : list bool :=
  match b with
  | EmptyString => []
  | String c b' => map (bit_of c) [7; 6; 5; 4; 3; 2; 1; 0] ++ unmarshalBitfield b'
  end.

(** One turn of the loop of [marshalBitfield], for the bit [have] at [i]. *)
Definition put_bit (b : list Z) (i : nat) (have : bool) : list Z :=
  if have then alter (λ c, Z.lor c (Z.shiftl 1 (7 - Z.of_nat (i mod 8)))) (i / 8)%nat b else b.

Fixpoint put_bits (b : list Z) (i : nat) (bf : list bool) : list Z :=
  match bf with [] => b | have :: bf' => put_bits (put_bit b i have) (S i) bf' end.

Fixpoint bytes_string (l : list Z) : string :=
  match l with [] => "" | z :: l' => String (byte_char z) (bytes_string l') end.

Definition marshalBitfield (bf : list bool) : string :=
  bytes_string (put_bits (replicate ((length bf + 7) / 8) 0) 0 bf).

(** ** Encoding *)

Definition MarshalTo (msg : Message) : perr + string :=
  if Keepalive msg then inr ""
  else
    let t := String (byte_char (Type_ msg)) "" in
    match shape_of (Type_ msg) with
    | SBare => inr t
    | SIndex => inr (t +:+ put32 (Index msg))
    | SRequest => inr (t +:+ put32 (Index msg) +:+ put32 (Begin msg) +:+ put32 (Length msg))
    | SBitfield => inr (t +:+ marshalBitfield (Bitfield msg))
    | SPiece => inr (t +:+ put32 (Index msg) +:+ put32 (Begin msg) +:+ Piece msg)
    | SExtended => inr (t +:+ String (byte_char (ExtendedID msg)) (ExtendedPayload msg))
    | SPort => inr (t +:+ put16 (Port msg))
    | SUnknown => inl (UnknownType (Type_ msg))
    end.

Definition MarshalBinary (msg : Message) : perr + string :=
  match MarshalTo msg with
  | inl e => inl e
  | inr body => inr (put32 (wrap_u 32 (slen body)) +:+ body)
  end.

(** ** Decoding *)

Record Decoder := {
  Pool : option Z;        (** the capacity of its slices, if there is a pool *)
  MaxLength : Z;
}.

(** What a call of [Decode] leaves: its error, the message as far as it was
    filled, the stream, and the sizes of the slices it made. *)
Record decoded := MkDecoded { d_err : option perr; d_msg : Message; d_rest : string; d_made : list Z }.

Definition unexpected (e : perr) : perr := match e with PEOF => PUnexpectedEOF | _ => e end.

Definition fail (e : perr) (msg : Message) (r : string) (made : list Z) : decoded :=
  MkDecoded (Some (unexpected e)) msg r made.

(** The check at the end: what the length announced must have been used. *)
Definition finish (length : Z) (msg : Message) (r : string) : decoded :=
  MkDecoded (if length =? 0 then None else Some (UnusedBytes length)) msg r [].

Definition set_type (t : Z) (m : Message) : Message :=
  {| Keepalive := Keepalive m; Type_ := t; Index := Index m; Begin := Begin m; Length := Length m; Piece := Piece m;
     Bitfield := Bitfield m; ExtendedID := ExtendedID m; ExtendedPayload := ExtendedPayload m; Port := Port m |}.
Definition set_keepalive (m : Message) : Message :=
  {| Keepalive := true; Type_ := Type_ m; Index := Index m; Begin := Begin m; Length := Length m; Piece := Piece m;
     Bitfield := Bitfield m; ExtendedID := ExtendedID m; ExtendedPayload := ExtendedPayload m; Port := Port m |}.
Definition set_index (z : Z) (m : Message) : Message :=
  {| Keepalive := Keepalive m; Type_ := Type_ m; Index := z; Begin := Begin m; Length := Length m; Piece := Piece m;
     Bitfield := Bitfield m; ExtendedID := ExtendedID m; ExtendedPayload := ExtendedPayload m; Port := Port m |}.
Definition set_begin (z : Z) (m : Message) : Message :=
  {| Keepalive := Keepalive m; Type_ := Type_ m; Index := Index m; Begin := z; Length := Length m; Piece := Piece m;
     Bitfield := Bitfield m; ExtendedID := ExtendedID m; ExtendedPayload := ExtendedPayload m; Port := Port m |}.
Definition set_length (z : Z) (m : Message) : Message :=
  {| Keepalive := Keepalive m; Type_ := Type_ m; Index := Index m; Begin := Begin m; Length := z; Piece := Piece m;
     Bitfield := Bitfield m; ExtendedID := ExtendedID m; ExtendedPayload := ExtendedPayload m; Port := Port m |}.
Definition set_piece (s : string) (m : Message) : Message :=
  {| Keepalive := Keepalive m; Type_ := Type_ m; Index := Index m; Begin := Begin m; Length := Length m; Piece := s;
     Bitfield := Bitfield m; ExtendedID := ExtendedID m; ExtendedPayload := ExtendedPayload m; Port := Port m |}.
Definition set_bitfield (l : list bool) (m : Message) : Message :=
  {| Keepalive := Keepalive m; Type_ := Type_ m; Index := Index m; Begin := Begin m; Length := Length m; Piece := Piece m;
     Bitfield := l; ExtendedID := ExtendedID m; ExtendedPayload := ExtendedPayload m; Port := Port m |}.
Definition set_extended (z : Z) (s : string) (m : Message) : Message :=
  {| Keepalive := Keepalive m; Type_ := Type_ m; Index := Index m; Begin := Begin m; Length := Length m; Piece := Piece m;
     Bitfield := Bitfield m; ExtendedID := z; ExtendedPayload := s; Port := Port m |}.
Definition set_port (z : Z) (m : Message) : Message :=
  {| Keepalive := Keepalive m; Type_ := Type_ m; Index := Index m; Begin := Begin m; Length := Length m; Piece := Piece m;
     Bitfield := Bitfield m; ExtendedID := ExtendedID m; ExtendedPayload := ExtendedPayload m; Port := z |}.

(** The bytes of [msg.Piece] when the stream ends early are not modelled: the
    slice is as long as it was asked for, and the call fails. *)
Definition Decode_piece (d : Decoder) (length : Z) (msg : Message) (r : string) : decoded :=
  match read_int r with
  | (inl e, r) => fail e msg r []
  | (inr index, r) =>
      let msg := set_index index msg in
      match read_int r with
      | (inl e, r) => fail e msg r []
      | (inr begin, r) =>
          let msg := set_begin begin msg in
          let dataLen := sub32 length 8 in
          let read made :=
            match ReadFull dataLen r with
            | (inl e, r) => fail e msg r made
            | (inr b, r) => MkDecoded None (set_piece b msg) r made
            end in
          match Pool d with
          | None => read [dataLen]
          | Some cap => if cap <? dataLen then MkDecoded (Some PieceTooLong) msg r [] else read []
          end
      end
  end.

(** The switch on the type of the message. *)
Definition Decode_body (d : Decoder) (length c : Z) (msg : Message) (r : string) : decoded :=
  match shape_of c with
  | SBare => finish length msg r
  | SIndex =>
      let length := sub32 length 4 in
      match read_int r with
      | (inl e, r) => fail e msg r []
      | (inr index, r) => finish length (set_index index msg) r
      end
  | SRequest =>
      match read_int r with
      | (inl e, r) => fail e msg r []
      | (inr index, r) =>
          match read_int r with
          | (inl e, r) => fail e (set_index index msg) r []
          | (inr begin, r) =>
              match read_int r with
              | (inl e, r) => fail e (set_begin begin (set_index index msg)) r []
              | (inr len, r) =>
                  finish (sub32 length 12) (set_length len (set_begin begin (set_index index msg))) r
              end
          end
      end
  | SBitfield =>
      match ReadFull length r with
      | (inl e, r) => fail e msg r [length]
      | (inr b, r) => MkDecoded None (set_bitfield (unmarshalBitfield b) msg) r [length]
      end
  | SPiece => Decode_piece d length msg r
  | SExtended =>
      let length := sub32 length 1 in
      match read_byte r with
      | (inl e, r) => fail e msg r []
      | (inr b, r) =>
          match ReadFull length r with
          | (inl e, r) => fail e (set_extended b "" msg) r [length]
          | (inr p, r) => MkDecoded None (set_extended b p msg) r [length]
          end
      end
  | SPort =>
      match ReadFull 2 r with
      | (inl e, r) => fail e msg r []
      | (inr b, r) => finish (sub32 length 2) (set_port (be_value b 0) msg) r
      end
  | SUnknown => MkDecoded (Some (UnknownType c)) msg r []
  end.

Definition Decode (d : Decoder) (msg : Message) (r : string) : decoded :=
  match read_int r with
  | (inl e, r) => MkDecoded (Some (ReadingLength e)) msg r []
  | (inr length, r) =>
      if MaxLength d <? length then MkDecoded (Some TooLong) msg r []
      else if length =? 0 then MkDecoded None (set_keepalive msg) r []
      else
        let length := sub32 length 1 in
        match read_byte r with
        | (inl e, r) => fail e msg r []
        | (inr c, r) => Decode_body d length c (set_type c msg) r
        end
  end.

(** [Message.UnmarshalBinary]: a decoder without a pool and with the zero
    [MaxLength]. *)
Definition UnmarshalBinary (msg : Message) (b : string) : option perr * Message :=
  let res := Decode {| Pool := None; MaxLength := 0 |} msg b in
  match d_err res with
  | Some e => (Some e, d_msg res)
  | None => (if bool_decide (d_rest res = "") then None else Some (TrailingBytes (slen (d_rest res))), d_msg res)
  end.

(** The messages of a stream, until it ends on a boundary or a message fails. *)
Fixpoint decode_stream (fuel : nat) (d : Decoder) (r : string) : list Message * option perr :=
  match fuel with
  | O => ([], None)
  | S fuel' =>
      let res := Decode d zero_message r in
      match d_err res with
      | Some e => ([], Some e)
      | None => let '(l, e) := decode_stream fuel' d (d_rest res) in (d_msg res :: l, e)
      end
  end.

(** ** Reading what was written *)

Lemma ord_byte_char z : ord (byte_char z) = z mod 256.
Proof.
  unfold ord, byte_char. rewrite Ascii.nat_ascii_embedding; [|pose proof (Z.mod_pos_bound z 256); lia].
  pose proof (Z.mod_pos_bound z 256). lia.
Qed.

Lemma ord_bounds c : 0 ≤ ord c < 256.
Proof. unfold ord. pose proof (Ascii.nat_ascii_bounded c). lia. Qed.

Lemma ReadFull_app b r : ReadFull (slen b) (b +:+ r) = (inr b, r).
Proof. unfold ReadFull, slen. by rewrite Nat2Z.id, str_take_app, str_drop_app, Z.eqb_refl. Qed.

Lemma read_int_put32 z r : 0 ≤ z < 2 ^ 32 → read_int (put32 z +:+ r) = (inr z, r).
Proof.
  intros Hz. unfold read_int. change 4 with (slen (put32 z)). rewrite ReadFull_app.
  unfold put32, put16. cbn [be_value]. rewrite !ord_byte_char. do 2 f_equal.
  pose proof (Z.div_mod z 256 ltac:(lia)). pose proof (Z.div_mod (z / 256) 256 ltac:(lia)).
  pose proof (Z.div_mod (z / 256 / 256) 256 ltac:(lia)).
  change (2 ^ 24) with (256 * 256 * 256). change (2 ^ 16) with (256 * 256). rewrite <- !Z.div_div by lia.
  rewrite (Z.mod_small (z / 256 / 256 / 256) 256); [lia|].
  split; [repeat apply Z.div_pos; lia|]. repeat apply Z.div_lt_upper_bound; lia.
Qed.

Lemma read_port z r : 0 ≤ z < 2 ^ 16 → ReadFull 2 (put16 z +:+ r) = (inr (put16 z), r) ∧ be_value (put16 z) 0 = z.
Proof.
  intros Hz. split; [by change 2 with (slen (put16 z)); apply ReadFull_app|].
  unfold put16. cbn [be_value]. rewrite !ord_byte_char. pose proof (Z.div_mod z 256 ltac:(lia)).
  rewrite (Z.mod_small (z / 256) 256); [lia|]. split; [apply Z.div_pos; lia|]. apply Z.div_lt_upper_bound; lia.
Qed.

Lemma read_byte_char z r : 0 ≤ z < 256 → read_byte (String (byte_char z) r) = (inr z, r).
Proof. intros Hz. cbn [read_byte]. rewrite ord_byte_char. by rewrite Z.mod_small. Qed.

(** *** Bit fields *)

Lemma put_bits_length b i bf : length (put_bits b i bf) = length b.
Proof. revert b i. induction bf as [|h bf IH]; intros b i; [done|]. cbn [put_bits]. rewrite IH. unfold put_bit. destruct h; [apply length_alter|done]. Qed.

(** The bit of position [p] in a row of bytes. *)
Definition bit_at (b : list Z) (p : nat) : option bool := (λ c, Z.testbit c (7 - Z.of_nat (p mod 8))) <$> b !! (p / 8)%nat.

Lemma put_bit_at b i h p :
  (i < 8 * length b)%nat →
  bit_at (put_bit b i h) p = if decide (p = i) then (λ x, x || h) <$> bit_at b p else bit_at b p.
Proof.
  intros Hi. unfold put_bit, bit_at. destruct h; cycle 1.
  { case_decide; [|done]. destruct (b !! _); simpl; [by rewrite orb_false_r|done]. }
  pose proof (Nat.div_mod_eq p 8). pose proof (Nat.div_mod_eq i 8).
  pose proof (Nat.mod_upper_bound p 8 ltac:(lia)). pose proof (Nat.mod_upper_bound i 8 ltac:(lia)).
  destruct (decide (p / 8 = i / 8)%nat) as [Hd|Hd].
  - rewrite Hd, list_lookup_alter_eq. destruct (b !! (i / 8)%nat) as [c|]; [|by case_decide]. cbn [fmap option_fmap option_map].
    rewrite Z.lor_spec, Z.shiftl_spec by lia. case_decide as Hp.
    + subst p. by rewrite Z.sub_diag.
    + f_equal. destruct (Z.testbit 1 _) eqn:E; [|by rewrite orb_false_r].
      change 1 with (2 ^ 0) in E. rewrite Z.pow2_bits_eqb in E by lia. apply Z.eqb_eq in E. lia.
  - rewrite list_lookup_alter_ne by congruence. by case_decide; [subst|].
Qed.

Lemma put_bits_at b i bf p :
  (i + length bf ≤ 8 * length b)%nat →
  bit_at (put_bits b i bf) p =
    (λ x, x || default false (if decide (i ≤ p)%nat then bf !! (p - i)%nat else None)) <$> bit_at b p.
Proof.
  revert b i. induction bf as [|h bf IH]; intros b i Hlen.
  - cbn. destruct (bit_at b p); [|done]. cbn. destruct (decide _); by rewrite orb_false_r.
  - cbn [put_bits length] in *. assert (length (put_bit b i h) = length b) as Hl by (unfold put_bit; destruct h; [apply length_alter|done]).
    rewrite IH by (rewrite Hl; lia). rewrite put_bit_at by lia.
    destruct (decide (p = i)) as [->|Hp].
    + rewrite decide_False, (decide_True (P := (i ≤ i)%nat)), Nat.sub_diag by lia. destruct (bit_at b i); [|done]. cbn. by rewrite orb_false_r.
    + destruct (decide (S i ≤ p)%nat), (decide (i ≤ p)%nat); try lia; [|done].
      replace (p - i)%nat with (S (p - S i)) by lia. done.
Qed.

Lemma unmarshal_length l : length (unmarshalBitfield (bytes_string l)) = (8 * length l)%nat.
Proof. induction l as [|c l IH]; [done|]. cbn [bytes_string unmarshalBitfield length]. rewrite length_app, IH. cbn [map length]. lia. Qed.

Lemma bit_of_byte c j : 0 ≤ j < 8 → bit_of (byte_char c) j = Z.testbit c j.
Proof. intros Hj. unfold bit_of. rewrite ord_byte_char. change 256 with (2 ^ 8). apply Z.mod_pow2_bits_low. lia. Qed.

Lemma unmarshal_at l p : unmarshalBitfield (bytes_string l) !! p = bit_at l p.
Proof.
  revert p. induction l as [|c l IH]; intros p.
  - unfold bit_at. by rewrite lookup_nil.
  - cbn [bytes_string unmarshalBitfield]. destruct (decide (p < 8)%nat) as [Hp|Hp].
    + rewrite lookup_app_l by done. unfold bit_at. rewrite (Nat.div_small p 8), (Nat.mod_small p 8) by done. cbn [lookup list_lookup fmap option_fmap option_map].
      rewrite <- bit_of_byte by lia. do 8 (destruct p as [|p]; [done|]). lia.
    + rewrite lookup_app_r by (cbn [map length]; lia). cbn [map length]. rewrite IH. unfold bit_at.
      assert (p / 8 = S ((p - 8) / 8) ∧ p mod 8 = (p - 8) mod 8)%nat as [-> ->]; [|done].
      split; [|rewrite <- (Nat.Div0.mod_add (p - 8) 1 8); f_equal; lia].
      pose proof (Nat.div_add (p - 8) 1 8 ltac:(lia)) as E. replace (p - 8 + 1 * 8)%nat with p in E by lia. lia.
Qed.

(** A bit field of whole bytes comes back. *)
Lemma unmarshal_marshal bf : (length bf mod 8 = 0)%nat → unmarshalBitfield (marshalBitfield bf) = bf.
Proof.
  intros Hm. unfold marshalBitfield. pose proof (Nat.div_mod_eq (length bf) 8) as Hd. rewrite Hm, Nat.add_0_r in Hd.
  set (n := (length bf / 8)%nat) in *. assert ((length bf + 7) / 8 = n)%nat as ->.
  { rewrite Hd. replace (8 * n + 7)%nat with (7 + n * 8)%nat by lia. by rewrite Nat.div_add. }
  apply list_eq. intros p. rewrite unmarshal_at, put_bits_at by (rewrite length_replicate; lia).
  rewrite decide_True, Nat.sub_0_r by lia. unfold bit_at. pose proof (Nat.div_mod_eq p 8). pose proof (Nat.mod_upper_bound p 8 ltac:(lia)).
  destruct (decide (p < length bf)%nat) as [Hp|Hp].
  - rewrite lookup_replicate_2 by lia. cbn [fmap option_fmap option_map]. rewrite Z.testbit_0_l. cbn [orb].
    by destruct (lookup_lt_is_Some_2 bf p Hp) as [x ->].
  - rewrite (lookup_ge_None_2 bf) by lia. rewrite lookup_ge_None_2; [done|]. rewrite length_replicate. lia.
Qed.

(** *** Messages *)

(** The messages a peer can send: the fields of the type in range, the others
    zero. *)
Definition small (z : Z) : Prop := 0 ≤ z < 2 ^ 32.

Definition wf_message (m : Message) : Prop :=
  if Keepalive m then m = set_keepalive zero_message
  else
    match shape_of (Type_ m) with
    | SBare => m = set_type (Type_ m) zero_message
    | SIndex => m = set_index (Index m) (set_type (Type_ m) zero_message) ∧ small (Index m)
    | SRequest =>
        m = set_length (Length m) (set_begin (Begin m) (set_index (Index m) (set_type (Type_ m) zero_message))) ∧
        small (Index m) ∧ small (Begin m) ∧ small (Length m)
    | SBitfield => m = set_bitfield (Bitfield m) (set_type (Type_ m) zero_message) ∧ (length (Bitfield m) mod 8 = 0)%nat
    | SPiece =>
        m = set_piece (Piece m) (set_begin (Begin m) (set_index (Index m) (set_type (Type_ m) zero_message))) ∧
        small (Index m) ∧ small (Begin m)
    | SExtended =>
        m = set_extended (ExtendedID m) (ExtendedPayload m) (set_type (Type_ m) zero_message) ∧ 0 ≤ ExtendedID m < 256
    | SPort => m = set_port (Port m) (set_type (Type_ m) zero_message) ∧ 0 ≤ Port m < 2 ^ 16
    | SUnknown => False
    end.

(** What a decoder accepts of it: the length limit, and the slices of its pool. *)
Definition fits_decoder (d : Decoder) (m : Message) : Prop :=
  ∃ body, MarshalTo m = inr body ∧ slen body ≤ MaxLength d ∧ MaxLength d < 2 ^ 32 ∧
    match Pool d with Some cap => slen (Piece m) ≤ cap | None => True end.

Lemma shape_known t : shape_of t ≠ SUnknown → 0 ≤ t < 256.
Proof.
  unfold shape_of. repeat case_if; intros Hs; try done; zbool; repeat match goal with H : _ ∈ _ |- _ => rewrite !elem_of_cons in H; rewrite elem_of_nil in H end; lia.
Qed.

Lemma sub32_small a b : small a → small b → b ≤ a → sub32 a b = a - b.
Proof. unfold small, sub32. intros. apply wrap_u_id. unfold fits_u. lia. Qed.

(** After the length and the type were read. *)
Lemma Decode_typed d t body r :
  0 ≤ t < 256 → 1 + slen body ≤ MaxLength d → MaxLength d < 2 ^ 32 →
  Decode d zero_message (put32 (1 + slen body) +:+ String (byte_char t) (body +:+ r)) =
    Decode_body d (slen body) t (set_type t zero_message) (body +:+ r).
Proof.
  intros Ht Hlen Hmax. pose proof (slen_nonneg body). unfold Decode. rewrite read_int_put32 by lia.
  destruct (Z.ltb_spec (MaxLength d) (1 + slen body)); [lia|]. destruct (Z.eqb_spec (1 + slen body) 0); [lia|].
  rewrite read_byte_char by done. rewrite sub32_small by (unfold small; lia).
  replace (1 + slen body - 1) with (slen body) by lia. done.
Qed.

Lemma slen_put32 z : slen (put32 z) = 4.
Proof. done. Qed.

Definition body_of (m : Message) : string :=
  match shape_of (Type_ m) with
  | SBare | SUnknown => ""
  | SIndex => put32 (Index m)
  | SRequest => put32 (Index m) +:+ put32 (Begin m) +:+ put32 (Length m)
  | SBitfield => marshalBitfield (Bitfield m)
  | SPiece => put32 (Index m) +:+ put32 (Begin m) +:+ Piece m
  | SExtended => String (byte_char (ExtendedID m)) (ExtendedPayload m)
  | SPort => put16 (Port m)
  end.

Lemma MarshalTo_body m body :
  Keepalive m = false → MarshalTo m = inr body →
  body = String (byte_char (Type_ m)) (body_of m) ∧ shape_of (Type_ m) ≠ SUnknown.
Proof. unfold MarshalTo, body_of. intros ->. by destruct (shape_of _); intros [= <-]. Qed.

(** A message is decoded from its encoding, whatever follows. *)
Lemma Decode_MarshalBinary d m r :
  wf_message m → fits_decoder d m →
  ∃ s made, MarshalBinary m = inr s ∧ (4 ≤ String.length s)%nat ∧
    Decode d zero_message (s +:+ r) = MkDecoded None m r made.
Proof.
  intros Hwf (body & Hb & Hlen & Hmax & Hpool). unfold MarshalBinary. rewrite Hb.
  pose proof (slen_nonneg body). rewrite wrap_u_id by (unfold fits_u; lia).
  exists (put32 (slen body) +:+ body).
  assert (∃ made, Decode d zero_message (put32 (slen body) +:+ body +:+ r) = MkDecoded None m r made) as [made Hd];
    [|by exists made; rewrite length_app_string, <- string_assoc; split_and!; [done|simpl; lia|done]].
  unfold wf_message in Hwf. destruct (Keepalive m) eqn:Hk.
  { unfold MarshalTo in Hb. rewrite Hk in Hb. injection Hb as <-. unfold Decode. rewrite read_int_put32 by lia.
    destruct (Z.ltb_spec (MaxLength d) (slen "")); [lia|]. rewrite string_nil_app. cbn [slen String.length Z.of_nat Z.eqb]. rewrite Hwf. eauto. }
  apply MarshalTo_body in Hb as [-> Hs]; [|done]. rewrite slen_cons, string_cons_app in *.
  rewrite Decode_typed by (done || by apply shape_known). unfold Decode_body. cbv zeta.
  pose proof (slen_nonneg (body_of m)). unfold body_of in *. destruct (shape_of (Type_ m)); try done.
  - rewrite string_nil_app. cbn. rewrite <- Hwf. eauto.
  - destruct Hwf as [-> ?]. cbn [Index set_index]. rewrite read_int_put32 by done. eauto.
  - destruct Hwf as (-> & ? & ? & ?). cbn [Index Begin Length set_length set_begin set_index].
    rewrite <- !string_assoc, !read_int_put32 by done. eauto.
  - destruct Hwf as [E ?]. rewrite ReadFull_app, unmarshal_marshal by done. rewrite <- E. eauto.
  - destruct Hwf as (E & ? & ?). unfold Decode_piece. rewrite <- !string_assoc, !read_int_put32 by done.
    pose proof (slen_nonneg (Piece m)). rewrite !slen_app, !slen_put32 in *. rewrite sub32_small by (unfold small; lia). replace (4 + (4 + slen (Piece m)) - 8) with (slen (Piece m)) by lia.
    rewrite ReadFull_app, <- E. destruct (Pool d) as [cap|]; [|eauto]. destruct (Z.ltb_spec cap (slen (Piece m))); [lia|eauto].
  - destruct Hwf as (E & ?). rewrite slen_cons, string_cons_app in *. pose proof (slen_nonneg (ExtendedPayload m)).
    rewrite read_byte_char, sub32_small by (unfold small; lia || done).
    replace (1 + slen (ExtendedPayload m) - 1) with (slen (ExtendedPayload m)) by lia. rewrite ReadFull_app, <- E. eauto.
  - destruct Hwf as (E & Hp). destruct (read_port (Port m) r Hp) as [-> ->]. rewrite <- E. eauto.
Qed.


(** ** Framing *)

Lemma ReadFull_ok n r b r' : 0 ≤ n → ReadFull n r = (inr b, r') → r = b +:+ r' ∧ slen b = n.
Proof.
  unfold ReadFull. intros Hn. destruct (Z.eqb_spec (slen (str_take (Z.to_nat n) r)) n) as [E|]; [|done]. intros [= <- <-].
  by rewrite str_take_drop.
Qed.

Lemma ReadFull_short n r : slen r < n → ∃ e r', ReadFull n r = (inl e, r').
Proof.
  intros Hn. pose proof (slen_nonneg r). unfold ReadFull. destruct (Z.eqb_spec (slen (str_take (Z.to_nat n) r)) n) as [E|]; [|eauto].
  pose proof (f_equal slen (str_take_drop (Z.to_nat n) r)) as H'. rewrite slen_app in H'. pose proof (slen_nonneg (str_drop (Z.to_nat n) r)). lia.
Qed.

Lemma be_value_bounds s acc : 0 ≤ acc → acc * 256 ^ slen s ≤ be_value s acc < (acc + 1) * 256 ^ slen s.
Proof.
  revert acc. induction s as [|c s IH]; intros acc Ha; cbn [be_value]; [change (slen "") with 0; lia|].
  pose proof (ord_bounds c). pose proof (slen_nonneg s). rewrite slen_cons, Z.pow_add_r by lia.
  specialize (IH (acc * 256 + ord c) ltac:(lia)). change (256 ^ 1) with 256. nia.
Qed.

Lemma read_int_ok r z r' : read_int r = (inr z, r') → ∃ b, r = b +:+ r' ∧ slen b = 4 ∧ small z ∧ z = be_value b 0.
Proof.
  unfold read_int. destruct (ReadFull 4 r) as [[e|b] r1] eqn:E; [done|]. intros [= <- <-].
  apply ReadFull_ok in E as [-> Hb]; [|lia]. exists b. split_and!; [done|done| |done].
  pose proof (be_value_bounds b 0 ltac:(lia)) as H. rewrite Hb in H. unfold small. change (2 ^ 32) with (256 ^ 4). lia.
Qed.

Lemma read_byte_ok r z r' : read_byte r = (inr z, r') → ∃ c, r = String c r' ∧ z = ord c.
Proof. destruct r as [|c r]; [done|]. intros [= <- <-]. eauto. Qed.

(** How many bytes a decoded message took. *)
Definition took (n : Z) (r : string) (res : decoded) : Prop :=
  d_err res = None → ∃ b, r = b +:+ d_rest res ∧ slen b = n.

Lemma took_finish k n length msg r r0 b :
  r0 = b +:+ r → slen b = k → (length = 0 → k = n) → took n r0 (finish length msg r).
Proof.
  intros -> Hb Hk H. unfold finish in H. cbn [d_err] in H. destruct (Z.eqb_spec length 0) as [E|]; [|done].
  exists b. cbn [d_rest finish]. rewrite Hb. auto.
Qed.

Lemma took_fail n r e msg r' made : took n r (fail e msg r' made).
Proof. done. Qed.

Lemma sub32_zero a b : small a → small b → sub32 a b = 0 → a = b.
Proof.
  unfold small, sub32, wrap_u. intros Ha Hb H. destruct (decide (a < b)); [|rewrite Z.mod_small in H; lia].
  rewrite <- (Z.mod_add _ 1), Z.mod_small in H; lia.
Qed.

Lemma sub32_cases a b : small a → small b → (b ≤ a ∧ sub32 a b = a - b) ∨ (a < b ∧ sub32 a b = a - b + 2 ^ 32).
Proof.
  unfold small. intros Ha Hb. destruct (decide (b ≤ a)); [left; split; [done|by apply sub32_small]|right]. split; [lia|].
  unfold sub32, wrap_u. rewrite <- (Z.mod_add _ 1), Z.mod_small; lia.
Qed.

Lemma took_piece d length msg r :
  small length → slen r < 2 ^ 32 - 8 → took length r (Decode_piece d length msg r).
Proof.
  intros Hl Hr. unfold Decode_piece. destruct (read_int r) as [[e|i] r1] eqn:E1; [done|].
  apply read_int_ok in E1 as (b1 & -> & Hb1 & _). destruct (read_int r1) as [[e|bg] r2] eqn:E2; [done|].
  apply read_int_ok in E2 as (b2 & -> & Hb2 & _). rewrite !slen_app in Hr. cbv zeta.
  assert (∀ made, took length (b1 +:+ b2 +:+ r2) (match ReadFull (sub32 length 8) r2 with
    | (inl e, r) => fail e (set_begin bg (set_index i msg)) r made
    | (inr b, r) => MkDecoded None (set_piece b (set_begin bg (set_index i msg))) r made end)) as Hread.
  { intros made. destruct (sub32_cases length 8 Hl ltac:(unfold small; lia)) as [[Hge ->]|[Hlt ->]].
    - destruct (ReadFull (length - 8) r2) as [[e|p] r3] eqn:E3; [done|]. apply ReadFull_ok in E3 as [-> Hp]; [|lia].
      intros _. exists (b1 +:+ b2 +:+ p). cbn [d_rest]. rewrite <- !string_assoc, !slen_app. split; [done|lia].
    - unfold small in Hl. destruct (ReadFull_short (length - 8 + 2 ^ 32) r2) as (e & r3 & ->); [|done]. lia. }
  destruct (Pool d) as [cap|]; [|apply Hread]. destruct (cap <? sub32 length 8); [done|apply Hread].
Qed.

Lemma took_body d length c msg r :
  small length → slen r < 2 ^ 32 - 8 → took length r (Decode_body d length c msg r).
Proof.
  intros Hl Hr. pose proof Hl as Hl'. unfold small in Hl'. unfold Decode_body. destruct (shape_of c).
  - apply (took_finish 0 _ _ _ _ _ ""); [done..|]. by intros ->.
  - cbv zeta. destruct (read_int r) as [[e|i] r1] eqn:E; [done|]. apply read_int_ok in E as (b & -> & Hb & _).
    apply (took_finish 4 _ _ _ _ _ b); [done..|]. intros H. symmetry. apply (sub32_zero _ 4); [done|unfold small; lia|done].
  - destruct (read_int r) as [[e|i] r1] eqn:E; [done|]. apply read_int_ok in E as (b1 & -> & Hb1 & _).
    destruct (read_int r1) as [[e|bg] r2] eqn:E; [done|]. apply read_int_ok in E as (b2 & -> & Hb2 & _).
    destruct (read_int r2) as [[e|ln] r3] eqn:E; [done|]. apply read_int_ok in E as (b3 & -> & Hb3 & _).
    apply (took_finish 12 _ _ _ _ _ (b1 +:+ b2 +:+ b3)); [by rewrite !string_assoc|rewrite !slen_app; lia|].
    intros H. symmetry. apply (sub32_zero _ 12); [done|unfold small; lia|done].
  - destruct (ReadFull length r) as [[e|b] r1] eqn:E; [done|]. apply ReadFull_ok in E as [-> Hb]; [|lia]. intros _. by exists b.
  - by apply took_piece.
  - cbv zeta. destruct (read_byte r) as [[e|x] r1] eqn:E; [done|]. apply read_byte_ok in E as (ch & -> & ->). rewrite slen_cons in Hr.
    destruct (sub32_cases length 1 Hl ltac:(unfold small; lia)) as [[Hge ->]|[Hlt ->]].
    + destruct (ReadFull (length - 1) r1) as [[e|p] r2] eqn:E; [done|]. apply ReadFull_ok in E as [-> Hp]; [|lia].
      intros _. exists (String ch p). cbn [d_rest]. rewrite slen_cons. split; [done|lia].
    + destruct (ReadFull_short (length - 1 + 2 ^ 32) r1) as (e & r2 & ->); [|done]. lia.
  - destruct (ReadFull 2 r) as [[e|b] r1] eqn:E; [done|]. apply ReadFull_ok in E as [-> Hb]; [|lia].
    apply (took_finish 2 _ _ _ _ _ b); [done..|]. intros H. symmetry. apply (sub32_zero _ 2); [done|unfold small; lia|done].
  - done.
Qed.


(** ** Lengths from the peer *)

(** An extended message whose length covers the type and not the identifier
    makes the decoder ask for a slice of 4 GiB - 1, whatever the length limit. *)
Theorem short_extended_allocates (d : Decoder) (msg : Message) (b : Ascii.ascii) (r : string) :
  1 ≤ MaxLength d → slen r < 2 ^ 32 - 1 →
  d_made (Decode d msg (put32 1 +:+ String (byte_char 20) (String b r))) = [IntegerMax].
Proof.
  intros Hm Hr. unfold Decode. rewrite read_int_put32 by lia. destruct (Z.ltb_spec (MaxLength d) 1); [lia|]. cbn [Z.eqb].
  rewrite read_byte_char by lia. unfold Decode_body. change (shape_of 20) with SExtended. cbv zeta. cbn [read_byte].
  change (sub32 (sub32 1 1) 1) with IntegerMax. destruct (ReadFull_short IntegerMax r) as (e & r' & ->); [unfold IntegerMax; lia|done].
Qed.

(** [Message.UnmarshalBinary] takes nothing but a keep-alive: its decoder has no
    length limit set, and the limit zero is below the length of every other
    message. *)
Theorem UnmarshalBinary_rejects_messages (msg m : Message) (s r : string) :
  MarshalBinary m = inr s → Keepalive m = false → (∃ body, MarshalTo m = inr body ∧ slen body < 2 ^ 32) →
  (UnmarshalBinary msg (s +:+ r)).1 = Some TooLong.
Proof.
  intros Hs Hk (body & Hb & Hlen). unfold MarshalBinary in Hs. rewrite Hb in Hs. injection Hs as <-.
  apply MarshalTo_body in Hb as [-> _]; [|done]. rewrite slen_cons in *. pose proof (slen_nonneg (body_of m)).
  rewrite wrap_u_id by (unfold fits_u; lia). unfold UnmarshalBinary, Decode. rewrite <- string_assoc, read_int_put32 by lia.
  cbn [MaxLength]. destruct (Z.ltb_spec 0 (1 + slen (body_of m))); [done|lia].
Qed.

(** ** Extension bits *)

(** The eight bytes; the bit 0 is the lowest of the last one. A bit beyond 63 is
    an index out of range. *)
Definition SetBit (bit : nat) (on : bool) (pex : list Z) : option (list Z) :=
  if (7 <? bit / 8)%nat then None
  else
    let i := (7 - bit / 8)%nat in
    let mask := Z.shiftl 1 (Z.of_nat (bit mod 8)) in
    c ← pex !! i;
    Some (<[i := if on then Z.lor c mask else Z.ldiff c mask]> pex).

Definition GetBit (bit : nat) (pex : list Z) : option bool :=
  if (7 <? bit / 8)%nat then None
  else
    c ← pex !! (7 - bit / 8)%nat;
    Some (negb (Z.land c (Z.shiftl 1 (Z.of_nat (bit mod 8))) =? 0)).

Definition NewPeerExtensionBytes (bits : list nat) : option (list Z) :=
  foldl (λ acc b, pex ← acc; SetBit b true pex) (Some (replicate 8 0)) bits.

Definition ExtensionBitDht : nat := 0.
Definition ExtensionBitFast : nat := 2.
Definition ExtensionBitLtep : nat := 20.

Definition SupportsExtended : list Z → option bool := GetBit ExtensionBitLtep.
Definition SupportsDHT : list Z → option bool := GetBit ExtensionBitDht.
Definition SupportsFast : list Z → option bool := GetBit ExtensionBitFast.

Lemma land_bit c k : 0 ≤ k → negb (Z.land c (Z.shiftl 1 k) =? 0) = Z.testbit c k.
Proof.
  intros Hk. rewrite Z.shiftl_1_l. destruct (Z.testbit c k) eqn:E.
  - destruct (Z.eqb_spec (Z.land c (2 ^ k)) 0) as [H|]; [|done]. exfalso.
    apply (f_equal (λ x, Z.testbit x k)) in H. rewrite Z.land_spec, E, Z.pow2_bits_true, Z.testbit_0_l in H by done. done.
  - destruct (Z.eqb_spec (Z.land c (2 ^ k)) 0) as [|H]; [done|]. exfalso. apply H. apply Z.bits_inj'. intros n Hn.
    rewrite Z.land_spec, Z.testbit_0_l, Z.pow2_bits_eqb by done. destruct (Z.eqb_spec k n) as [->|]; [by rewrite E|apply andb_false_r].
Qed.

Lemma GetBit_testbit b pex :
  (b < 64)%nat → GetBit b pex = (λ c, Z.testbit c (Z.of_nat (b mod 8))) <$> pex !! (7 - b / 8)%nat.
Proof.
  intros Hb. unfold GetBit. assert (b / 8 < 8)%nat by (apply Nat.Div0.div_lt_upper_bound; lia).
  destruct (Nat.ltb_spec 7 (b / 8)); [lia|]. destruct (pex !! _); [|done]. cbn [mbind option_bind fmap option_fmap option_map].
  by rewrite land_bit by lia.
Qed.

(** Setting a bit changes that bit and no other. *)
Theorem GetBit_SetBit (b b' : nat) (on : bool) (pex : list Z) :
  length pex = 8%nat → (b < 64)%nat → (b' < 64)%nat →
  ∃ pex', SetBit b on pex = Some pex' ∧ length pex' = 8%nat ∧
    GetBit b' pex' = if decide (b' = b) then Some on else GetBit b' pex.
Proof.
  intros Hl Hb Hb'. unfold SetBit. assert (b / 8 < 8)%nat by (apply Nat.Div0.div_lt_upper_bound; lia).
  assert (b' / 8 < 8)%nat by (apply Nat.Div0.div_lt_upper_bound; lia).
  destruct (Nat.ltb_spec 7 (b / 8)); [lia|]. destruct (lookup_lt_is_Some_2 pex (7 - b / 8)%nat) as [c Hc]; [lia|].
  rewrite Hc. cbn [mbind option_bind]. eexists. split; [done|]. rewrite length_insert. split; [done|].
  rewrite !GetBit_testbit by done. pose proof (Nat.div_mod_eq b 8). pose proof (Nat.div_mod_eq b' 8).
  pose proof (Nat.mod_upper_bound b 8 ltac:(lia)). pose proof (Nat.mod_upper_bound b' 8 ltac:(lia)).
  destruct (decide (b' / 8 = b / 8)%nat) as [Hd|Hd].
  - rewrite Hd, list_lookup_insert_eq by lia. rewrite Hc. cbn [fmap option_fmap option_map]. rewrite Z.shiftl_1_l.
    case_decide as He.
    + subst b'. f_equal. destruct on; [rewrite Z.lor_spec|rewrite Z.ldiff_spec]; rewrite Z.pow2_bits_true by lia;
        [apply orb_true_r|apply andb_false_r].
    + f_equal. destruct on; [rewrite Z.lor_spec|rewrite Z.ldiff_spec]; rewrite Z.pow2_bits_false by lia;
        [apply orb_false_r|apply andb_true_r].
  - rewrite list_lookup_insert_ne by lia. case_decide; [congruence|done].
Qed.

(** ** The handshake *)

Definition Protocol : string := String (byte_char 19) "BitTorrent protocol".

Record HandshakeResult := { PeerExtensionBits : string; PeerID : string; Hash : string }.

(** What the peer is sent, and what is made of the 68 bytes it sends. *)
Definition Handshake (ih : option string) (peerID extensions : string) (sock : string) :
    string * (perr + HandshakeResult) :=
  let posted := Protocol +:+ extensions +:+ match ih with Some h => h +:+ peerID | None => "" end in
  match ReadFull 68 sock with
  | (inl e, _) => (posted, inl (WhileReading e))
  | (inr b, _) =>
      if bool_decide (str_take 20 b = Protocol) then
        let res := {| PeerExtensionBits := str_take 8 (str_drop 20 b); Hash := str_take 20 (str_drop 28 b);
                      PeerID := str_take 20 (str_drop 48 b) |} in
        (match ih with Some _ => posted | None => posted +:+ Hash res +:+ peerID end, inr res)
      else (posted, inl BadProtocol)
  end.

Lemma Handshake_reads ih id ext e h i r :
  slen e = 8 → slen h = 20 → slen i = 20 →
  Handshake ih id ext ((Protocol +:+ e +:+ h +:+ i) +:+ r) =
    (Protocol +:+ ext +:+ match ih with Some x => x +:+ id | None => h +:+ id end,
     inr {| PeerExtensionBits := e; Hash := h; PeerID := i |}).
Proof.
  unfold slen. intros He Hh Hi. unfold Handshake.
  assert (slen (Protocol +:+ e +:+ h +:+ i) = 68) as H68 by (rewrite !slen_app; change (slen Protocol) with 20; unfold slen; lia).
  rewrite <- H68, ReadFull_app. rewrite bool_decide_true by exact (str_take_app Protocol (e +:+ h +:+ i)).
  assert (∀ p q s, str_drop (String.length p + q) (p +:+ s) = str_drop q s) as Hdrop.
  { intros p q s. induction p as [|c p IH]; [done|]. rewrite string_cons_app. cbn [String.length Nat.add str_drop]. exact IH. }
  pose proof (str_drop_app Protocol (e +:+ h +:+ i)) as D20. change (String.length Protocol) with 20%nat in D20.
  assert (str_drop 28 (Protocol +:+ e +:+ h +:+ i) = h +:+ i) as D28.
  { change 28%nat with (String.length Protocol + 8)%nat. rewrite Hdrop. replace 8%nat with (String.length e) by lia. apply str_drop_app. }
  assert (str_drop 48 (Protocol +:+ e +:+ h +:+ i) = i) as D48.
  { change 48%nat with (String.length Protocol + 28)%nat. rewrite Hdrop. replace 28%nat with (String.length e + 20)%nat by lia.
    rewrite Hdrop. replace 20%nat with (String.length h) by lia. apply str_drop_app. }
  rewrite D20, D28, D48.
  assert (str_take 8 (e +:+ h +:+ i) = e) as -> by (replace 8%nat with (String.length e) by lia; apply str_take_app).
  assert (str_take 20 (h +:+ i) = h) as -> by (replace 20%nat with (String.length h) by lia; apply str_take_app).
  assert (str_take 20 i = i) as ->.
  { replace 20%nat with (String.length i) by lia. rewrite <- (string_nil_r i) at 2. apply str_take_app. }
  cbn [Hash]. destruct ih; [done|]. by rewrite string_nil_r, <- string_assoc.
Qed.

(** The handshake of two peers, one that opens the connection for the
    torrent [ih] and one that waits to be told, gives each of them the identity
    and the extensions of the other and both the torrent: each reads the 68 bytes
    the other has sent, and the one that waits can answer since the other sends
    all of its own before it reads. *)
Theorem Handshake_agrees (ih id1 ext1 id2 ext2 r1 r2 sock : string) :
  slen ih = 20 → slen id1 = 20 → slen ext1 = 8 → slen id2 = 20 → slen ext2 = 8 →
  let sent1 := (Handshake (Some ih) id1 ext1 sock).1 in
  let '(sent2, res2) := Handshake None id2 ext2 (sent1 +:+ r2) in
  res2 = inr {| PeerExtensionBits := ext1; PeerID := id1; Hash := ih |} ∧
  Handshake (Some ih) id1 ext1 (sent2 +:+ r1) = (sent1, inr {| PeerExtensionBits := ext2; PeerID := id2; Hash := ih |}).
Proof.
  intros Hih Hid1 Hext1 Hid2 Hext2 sent1.
  assert (sent1 = Protocol +:+ ext1 +:+ ih +:+ id1) as -> by (unfold sent1, Handshake; by destruct (ReadFull 68 sock) as [[?|?] ?]; [|destruct (bool_decide _)]).
  rewrite Handshake_reads by done. split; [done|]. by rewrite Handshake_reads.
Qed.

(** ** Witnesses *)

Definition sample_decoder : Decoder := {| Pool := Some 16384; MaxLength := 65536 |}.

Definition sample_piece : Message := set_piece "data" (set_begin 5 (set_index 7 (set_type 7 zero_message))).
Definition sample_bitfield : Message := set_bitfield [true; false; false; true; false; false; false; true] (set_type 5 zero_message).



Lemma Handshake_agrees_witness :
  let ih := "aaaaaaaaaaaaaaaaaaaa" in let id1 := "bbbbbbbbbbbbbbbbbbbb" in let id2 := "cccccccccccccccccccc" in
  let sent1 := (Handshake (Some ih) id1 "dddddddd" "").1 in
  let '(sent2, res2) := Handshake None id2 "eeeeeeee" (sent1 +:+ "more") in
  res2 = inr {| PeerExtensionBits := "dddddddd"; PeerID := id1; Hash := ih |} ∧
  Handshake (Some ih) id1 "dddddddd" (sent2 +:+ "") = (sent1, inr {| PeerExtensionBits := "eeeeeeee"; PeerID := id2; Hash := ih |}).
Proof.
  exact (Handshake_agrees "aaaaaaaaaaaaaaaaaaaa" "bbbbbbbbbbbbbbbbbbbb" "dddddddd" "cccccccccccccccccccc" "eeeeeeee" "" "more" ""
    eq_refl eq_refl eq_refl eq_refl eq_refl).
Defined.
