(* ===== verification/MetaInfo.v ===== *)
(** * Metainfo: torrent files, pieces and segments
      (internal/anacrolix-torrent-v1.55/metainfo, segments, misc.go)

    The torrent file ([MetaInfo]) with its types for the bencode codec, the info
    dictionary with its files and pieces, the choice of a piece length, the
    hashing of the pieces, the check of an info dictionary, the location of an
    extent in a row of segments, and the requests for chunks.

    An int64 keeps its wrap-around where sums of lengths from a torrent file meet
    it. SHA-1 is a parameter with digests of 20 bytes. The type [FileTree], which
    contains itself, is unrolled to a given depth. *)

From S2P Require Import Prelude InodeMap Bencode BencodeTyped.

Local Open Scope string_scope.
Local Open Scope Z_scope.

(** ** Types of a torrent file *)

Definition tagged (k : string) : tag := {| Key := k; OmitEmpty := false; IgnoreUnmarshalTypeError := false |}.
Definition omitted (k : string) : tag := {| Key := k; OmitEmpty := true; IgnoreUnmarshalTypeError := false |}.
Definition lenient (k : string) : tag := {| Key := k; OmitEmpty := true; IgnoreUnmarshalTypeError := true |}.

(** [bencode.Bytes]: the text of a value, kept as it is. *)
Definition Bytes : UserType := {|
  uzero := GNil;
  UnmarshalBencode := λ b, inr (GSlice (to_bytes b));
  MarshalBencode := λ v, match items v with [] => inl EmptyBytes | l => inr (of_bytes l) end;
|}.

(** [UrlList]: a list of strings, or one string. It has no [MarshalBencode]: it
    is written as the slice it is. *)
Definition UrlList_UnmarshalBencode (b : string) : error + gov :=
  match b with
  | EmptyString => inr GNil
  | String c _ =>
      if bool_decide (c = char_l) then UnmarshalInto (TSlice TString) GNil b
      else match UnmarshalInto TString (GStr "") b with
           | inl e => inl e
           | inr s => inr (GSlice [s])
           end
  end.

Definition UrlList (isEmptyValue : gov → bool) : UserType := {|
  uzero := GNil;
  UnmarshalBencode := UrlList_UnmarshalBencode;
  MarshalBencode := encode isEmptyValue (TSlice TString);
|}.

(** [net.JoinHostPort]. *)
Definition JoinHostPort (host port : string) : string :=
  if has_char colon host then "[" +:+ host +:+ "]:" +:+ port else host +:+ ":" +:+ port.

(** [Node]: a string, or a host and a port; the panics of the index and of the
    type assertions are caught. *)
Definition Node_UnmarshalBencode (b : string) : error + gov :=
  match Unmarshal b with
  | inl e => inl e
  | inr (VStr s) => inr (GStr s)
  | inr (VList (VStr host :: VInt port :: _)) => inr (GStr (JoinHostPort host (AppendInt port)))
  | inr (VList _) => inl ReflectPanic
  | inr _ => inl (Unsupported "node")
  end.

Definition Node : UserType := {|
  uzero := GStr "";
  UnmarshalBencode := Node_UnmarshalBencode;
  MarshalBencode := λ v, match v with GStr s => inr (reflectString s) | _ => inl (Unsupported "node") end;
|}.

Definition FileInfo_type : gotype :=
  TStruct [(tagged "length", TInt 64); (tagged "path", TSlice TString); (omitted "path.utf-8", TSlice TString)].

Fixpoint FileTree_type (depth : nat) : gotype :=
  TStruct [(tagged "File", TStruct [(tagged "length", TInt 64); (tagged "pieces root", TString)]);
           (tagged "Dir", TMap (match depth with O => TStruct [] | S n => FileTree_type n end))].

Definition Info_type (depth : nat) : gotype :=
  TStruct [(tagged "piece length", TInt 64); (tagged "pieces", TSlice (TUint 8)); (tagged "name", TString);
           (omitted "name.utf-8", TString); (omitted "length", TInt 64); (omitted "private", TPtr TBool);
           (omitted "source", TString); (omitted "files", TSlice FileInfo_type);
           (omitted "meta version", TInt 64); (omitted "file tree", FileTree_type depth)].

Definition MetaInfo_type (isEmptyValue : gov → bool) : gotype :=
  TStruct [(omitted "info", TUser Bytes); (omitted "announce", TString); (omitted "announce-list", TSlice (TSlice TString));
           (lenient "nodes", TSlice (TUser Node)); (lenient "creation date", TInt 64); (omitted "comment", TString);
           (omitted "created by", TString); (omitted "encoding", TString); (omitted "url-list", TUser (UrlList isEmptyValue));
           (omitted "piece layers", TMap TString)].

(** [Load], from the bytes of a torrent file, and [MetaInfo.Write]. *)
Definition Load (isEmptyValue : gov → bool) (data : string) : error + gov :=
  (Decode (MetaInfo_type isEmptyValue) (zero (MetaInfo_type isEmptyValue)) (new_decoder data)).1.

Definition MetaInfo_Write (isEmptyValue : gov → bool) (mi : gov) : error + string :=
  encode isEmptyValue (MetaInfo_type isEmptyValue) mi.

(** ** The announce list *)

Definition AnnounceList : Type := list (list string).

(** The loops stop at the first URL that decides. *)
Definition OverridesAnnounce (al : AnnounceList) (announce : string) : bool :=
  existsb (existsb (λ url, negb (bool_decide (url = "")) || bool_decide (announce = ""))) al.

(** The values in the order they are first met: [seen] and the result grow
    together. *)
Definition distinct_step (ret : list string) (v : string) : list string :=
  if bool_decide (v ∈ ret) then ret else (ret ++ [v])%list.

Definition DistinctValues (al : AnnounceList) : list string := foldl (foldl distinct_step) [] al.

Definition UpvertedAnnounceList (al : AnnounceList) (announce : string) : AnnounceList :=
  if OverridesAnnounce al announce then al
  else if bool_decide (announce = "") then [] else [[announce]].

(** ** The info dictionary *)

Record FileInfo := { fLength : Z; fPath : list string; fPathUtf8 : list string }.

Record Info := {
  PieceLength : Z;
  Pieces : string;
  Name : string;
  NameUtf8 : string;
  Length : Z;
  Files : list FileInfo;
}.

Definition IsDir (info : Info) : bool := negb (bool_decide (Files info = [])).

Definition add64 (a b : Z) : Z := wrap_s 64 (a + b).
Definition mul64 (a b : Z) : Z := wrap_s 64 (a * b).

Definition TotalLength (info : Info) : Z :=
  if IsDir info then foldl (λ ret fi, add64 ret (fLength fi)) 0 (Files info) else Length info.

Definition NumPieces (info : Info) : Z := slen (Pieces info) / 20.

Definition UpvertedFiles (info : Info) : list FileInfo :=
  match Files info with
  | [] => [{| fLength := Length info; fPath := []; fPathUtf8 := [] |}]
  | l => l
  end.

Definition BestName (info : Info) : string := if bool_decide (NameUtf8 info = "") then Name info else NameUtf8 info.

Definition BestPath (fi : FileInfo) : list string := match fPathUtf8 fi with [] => fPath fi | l => l end.

Definition DisplayPath (fi : FileInfo) (info : Info) : string :=
  if IsDir info then String.concat "/" (BestPath fi) else BestName info.

(** [FileInfo.Offset]: [None] is the panic. *)
Fixpoint offset_loop (path : string) (info : Info) (l : list FileInfo) (ret : Z) : option Z :=
  match l with
  | [] => None
  | fi :: l' => if bool_decide (path = DisplayPath fi info) then Some ret else offset_loop path info l' (add64 ret (fLength fi))
  end.

Definition FileInfo_Offset (fi : FileInfo) (info : Info) : option Z :=
  offset_loop (DisplayPath fi info) info (UpvertedFiles info) 0.

(** ** Pieces *)

Definition Piece_Length (info : Info) (i : Z) : Z :=
  if i =? NumPieces info - 1 then wrap_s 64 (TotalLength info - mul64 i (PieceLength info)) else PieceLength info.

Definition Piece_Offset (info : Info) (i : Z) : Z := mul64 i (PieceLength info).

(** [Piece.Hash]: [None] is a slice out of range. *)
Definition Piece_Hash (info : Info) (i : Z) : option string :=
  if (0 <=? i) && ((i + 1) * 20 <=? slen (Pieces info))
  then Some (str_take 20 (str_drop (Z.to_nat (i * 20)) (Pieces info))) else None.

Inductive info_error := BadPiecesLength | ZeroPieceLength | PieceCount.

Definition validateInfo (info : Info) : option info_error :=
  if negb (slen (Pieces info) mod 20 =? 0) then Some BadPiecesLength
  else if PieceLength info =? 0 then if negb (TotalLength info =? 0) then Some ZeroPieceLength else None
  else if negb (Z.quot (wrap_s 64 (add64 (TotalLength info) (PieceLength info) - 1)) (PieceLength info) =? NumPieces info)
       then Some PieceCount else None.

(** ** The piece length *)

Definition minimumPieceLength : Z := 16 * 1024.
Definition targetPieceCountMax : Z := Z.shiftl (Z.shiftl 1 10) 1.

Fixpoint choose_loop (fuel : nat) (pieceLength pieces : Z) : option Z :=
  match fuel with
  | O => None
  | S fuel' =>
      if targetPieceCountMax <=? pieces then choose_loop fuel' (wrap_s 64 (Z.shiftl pieceLength 1)) (Z.shiftr pieces 1)
      else Some pieceLength
  end.

(** An int64 is halved at most 63 times. *)
Definition ChoosePieceLength (totalLength : Z) : option Z :=
  choose_loop 64 minimumPieceLength (Z.quot totalLength minimumPieceLength).

(** ** Hashing *)

(** SHA-1 (crypto/sha1), with digests of 20 bytes. *)
Class Sha1 := { sha1 : string → string; sha1_size : ∀ s, slen (sha1 s) = 20 }.

Section hashing.
Context `{!Sha1}.

(** [metainfo.GeneratePieces] on the reader that delivers [r] and then ends, with
    the error [end_err] or cleanly. *)
Fixpoint generate_loop (fuel : nat) (end_err : option string) (pieceLength : Z) (r b : string) : option (string * option string) :=
  match fuel with
  | O => None
  | S fuel' =>
      let chunk := str_take (Z.to_nat pieceLength) r in
      let r' := str_drop (Z.to_nat pieceLength) r in
      let b' := if 0 <? slen chunk then b +:+ sha1 chunk else b in
      if pieceLength <=? slen chunk then generate_loop fuel' end_err pieceLength r' b'
      else Some (b', end_err)
  end.

Definition GeneratePieces (end_err : option string) (pieceLength : Z) (r : string) : option (string * option string) :=
  generate_loop (S (String.length r)) end_err pieceLength r "".

(** [writeFiles]: the first [Length] bytes of every file, in a row, until one
    cannot be opened or is too short. *)
Fixpoint writeFiles (open : FileInfo → option string) (l : list FileInfo) : string * option string :=
  match l with
  | [] => ("", None)
  | fi :: l' =>
      match open fi with
      | None => ("", Some "error opening")
      | Some content =>
          let got := str_take (Z.to_nat (fLength fi)) content in
          if slen got =? fLength fi then
            let '(rest, err) := writeFiles open l' in (got +:+ rest, err)
          else (got, Some "error copying")
      end
  end.

Definition set_pieces (p : string) (info : Info) : Info :=
  {| PieceLength := PieceLength info; Pieces := p; Name := Name info; NameUtf8 := NameUtf8 info;
     Length := Length info; Files := Files info |}.
Definition set_piece_length (n : Z) (info : Info) : Info :=
  {| PieceLength := n; Pieces := Pieces info; Name := Name info; NameUtf8 := NameUtf8 info;
     Length := Length info; Files := Files info |}.

(** [Info.GeneratePieces]; [None] is the model's bound. *)
Definition Info_GeneratePieces (open : FileInfo → option string) (info : Info) : option (Info * option string) :=
  if PieceLength info =? 0 then Some (info, Some "piece length must be non-zero")
  else
    let '(data, err) := writeFiles open (UpvertedFiles info) in
    r ← GeneratePieces err (PieceLength info) data;
    Some (set_pieces r.1 info, r.2).

(** The end of [BuildFromFilePath]: the piece length, if it is not given, and
    the pieces. *)
Definition build_pieces (open : FileInfo → option string) (info : Info) : option (Info * option string) :=
  info ← (if PieceLength info =? 0 then n ← ChoosePieceLength (TotalLength info); Some (set_piece_length n info) else Some info);
  Info_GeneratePieces open info.
End hashing.

(** ** Segments (segments/segments.go, segments/index.go) *)

Record Extent := { Start : Z; eLength : Z }.

Definition End_ (e : Extent) : Z := Start e + eLength e.

(** [Scan] over the lengths [l] from the position [i]: the extents the callback
    is given, until it returns false, and the result. *)
Fixpoint Scan (callback : nat → Extent → bool) (l : list Z) (needle : Extent) (i : nat) : list (nat * Extent) * bool :=
  if eLength needle =? 0 then ([], true)
  else
    match l with
    | [] => ([], false)
    | len :: l' =>
        if (Start needle <? len) || ((Start needle =? len) && (len =? 0)) then
          let e1 := {| Start := Start needle; eLength := Z.min len (End_ needle) - Start needle |} in
          if 0 <=? eLength e1 then
            if callback i e1 then
              let '(out, ok) := Scan callback l' {| Start := 0; eLength := eLength needle - eLength e1 |} (S i) in
              ((i, e1) :: out, ok)
            else ([(i, e1)], true)
          else Scan callback l' needle (S i)
        else Scan callback l' {| Start := Start needle - len; eLength := eLength needle |} (S i)
    end.

(** [NewIndex]. *)
Fixpoint index_from (start : Z) (l : list Z) : list Extent :=
  match l with [] => [] | len :: l' => {| Start := start; eLength := len |} :: index_from (start + len) l' end.

Definition NewIndex (l : list Z) : list Extent := index_from 0 l.

(** [Index.Locate]. *)
Definition Locate (callback : nat → Extent → bool) (segs : list Extent) (e : Extent) : list (nat * Extent) * bool :=
  let first := sort_search (length segs) (λ i, match segs !! i with Some s => Start e <? End_ s | None => true end) in
  match segs !! first with
  | None => ([], false)
  | Some s =>
      let '(out, ok) := Scan (λ i, callback (i + first)%nat) (map eLength (drop first segs))
                          {| Start := Start e - Start s; eLength := eLength e |} 0 in
      (map (λ o, ((o.1 + first)%nat, o.2)) out, ok)
  end.

(** ** Requests for chunks (misc.go) *)

Record Request := { rIndex : Z; rBegin : Z; rLength : Z }.

Definition to_u32 (z : Z) : Z := wrap_u 32 z.

Definition torrentOffsetRequest (torrentLength pieceSize chunkSize offset : Z) : option Request :=
  if (offset <? 0) || (torrentLength <=? offset) then None
  else
    let index := to_u32 (offset /t pieceSize) in
    let begin := to_u32 ((Z.rem offset pieceSize) /t chunkSize * chunkSize) in
    let length := to_u32 chunkSize in
    let pieceLeft := to_u32 (pieceSize - begin) in
    let length := if pieceLeft <? length then pieceLeft else length in
    let torrentLeft := torrentLength - index * pieceSize - begin in
    let length := if torrentLeft <? length then to_u32 torrentLeft else length in
    Some {| rIndex := index; rBegin := begin; rLength := length |}.

(** [None] is the panic. *)
Definition torrentRequestOffset (torrentLength pieceSize : Z) (r : Request) : option Z :=
  let off := rIndex r * pieceSize + rBegin r in
  if (off <? 0) || (torrentLength <=? off) then None else Some off.

(** [chunkIndexSpec]: begin and length of a chunk of a piece. *)
Definition chunkIndexSpec (index pieceLength chunkSize : Z) : Z * Z :=
  let begin := to_u32 (index * chunkSize) in
  if pieceLength <? to_u32 (begin + chunkSize) then (begin, to_u32 (pieceLength - begin)) else (begin, chunkSize).

Definition metadataPieceSize (totalSize piece : Z) : Z :=
  let ret := totalSize - piece * Z.shiftl 1 14 in
  if Z.shiftl 1 14 <? ret then Z.shiftl 1 14 else ret.

(** ** Lengths of strings *)

Lemma slen_take n s : slen (str_take n s) = Z.min (Z.of_nat n) (slen s).
Proof.
  revert s. induction n as [|n IH]; intros [|c s]; cbn [str_take]; [done|rewrite slen_cons; pose proof (slen_nonneg s); change (slen "") with 0; lia|done|].
  rewrite !slen_cons, IH. lia.
Qed.

Lemma slen_drop n s : slen (str_drop n s) = Z.max 0 (slen s - Z.of_nat n).
Proof.
  pose proof (f_equal slen (str_take_drop n s)) as H. rewrite slen_app, slen_take in H. pose proof (slen_nonneg (str_drop n s)).
  pose proof (slen_nonneg s). lia.
Qed.

Lemma str_drop_drop a b s : str_drop a (str_drop b s) = str_drop (a + b) s.
Proof.
  revert s. induction b as [|b IH]; intros s; [by rewrite Nat.add_0_r; destruct s|]. rewrite Nat.add_succ_r.
  destruct s as [|c s]; cbn [str_drop]; [by destruct a|apply IH].
Qed.

Lemma str_take_all n s : slen s ≤ Z.of_nat n → str_take n s = s.
Proof.
  revert s. induction n as [|n IH]; intros [|c s] Hn; [done| |done|]; rewrite slen_cons in Hn; pose proof (slen_nonneg s); [lia|].
  cbn [str_take]. rewrite IH by lia. done.
Qed.

Lemma str_take_take a b s : (a ≤ b)%nat → str_take a (str_take b s) = str_take a s.
Proof.
  revert b s. induction a as [|a IH]; intros b s Hab; [by destruct (str_take b s), s|]. destruct b as [|b]; [lia|].
  destruct s as [|c s]; [done|]. cbn [str_take]. rewrite IH by lia. done.
Qed.

Lemma str_take_0 s : str_take 0 s = "".
Proof. by destruct s. Qed.

Lemma str_drop_0 s : str_drop 0 s = s.
Proof. by destruct s. Qed.

Lemma str_take_app_l n a b : Z.of_nat n ≤ slen a → str_take n (a +:+ b) = str_take n a.
Proof.
  revert a. induction n as [|n IH]; intros a Hn; [by rewrite !str_take_0|]. destruct a as [|c a]; [change (slen "") with 0 in Hn; lia|].
  rewrite slen_cons in Hn. rewrite string_cons_app. cbn [str_take]. rewrite IH by lia. done.
Qed.

Lemma str_drop_app_r n a b : slen a ≤ Z.of_nat n → str_drop n (a +:+ b) = str_drop (n - String.length a) b.
Proof.
  revert n. induction a as [|c a IH]; intros n Hn; [by rewrite string_nil_app, Nat.sub_0_r|]. rewrite slen_cons in Hn. pose proof (slen_nonneg a).
  destruct n as [|n]; [lia|]. rewrite string_cons_app. cbn [str_drop String.length Nat.sub]. apply IH. lia.
Qed.

Lemma str_drop_app_l n a b : Z.of_nat n ≤ slen a → str_drop n (a +:+ b) = str_drop n a +:+ b.
Proof.
  revert a. induction n as [|n IH]; intros a Hn; [by rewrite !str_drop_0|]. destruct a as [|c a]; [change (slen "") with 0 in Hn; lia|].
  rewrite slen_cons in Hn. rewrite string_cons_app. cbn [str_drop]. apply IH. lia.
Qed.

(** ** Total length and pieces of a valid torrent *)

(** The sum of the lengths of the files, without the wrap-around. *)
Definition total (info : Info) : Z := Zsum (fLength <$> UpvertedFiles info).

(** Lengths that are not negative and stay within an int64. *)
Record lengths_ok (info : Info) : Prop := {
  lo_files : Forall (λ fi, 0 ≤ fLength fi) (UpvertedFiles info);
  lo_piece : 0 < PieceLength info;
  lo_total : total info + PieceLength info < 2 ^ 63;
}.

Lemma foldl_add64 l acc :
  0 ≤ acc → Forall (λ fi, 0 ≤ fLength fi) l → acc + Zsum (fLength <$> l) < 2 ^ 63 →
  foldl (λ ret fi, add64 ret (fLength fi)) acc l = acc + Zsum (fLength <$> l).
Proof.
  intros Ha Hl. revert acc Ha. induction Hl as [|fi l Hf Hl IH]; intros acc Ha Hs; [cbn; lia|].
  rewrite fmap_cons, Zsum_cons in *. cbn [foldl]. pose proof (Zsum_nonneg (fLength <$> l)) as Hn.
  rewrite Forall_fmap in Hn. specialize (Hn Hl). unfold add64 at 2. rewrite wrap_s_id by (unfold fits_s; change (64 - 1) with 63; lia).
  rewrite IH by lia. lia.
Qed.

Lemma TotalLength_total info : lengths_ok info → TotalLength info = total info ∧ 0 ≤ total info.
Proof.
  intros [Hf Hp Ht]. assert (0 ≤ total info) as Hn by (apply Zsum_nonneg, Forall_fmap, Hf). split; [|done].
  unfold TotalLength, total, IsDir, UpvertedFiles in *. destruct (Files info) as [|fi l].
  - rewrite bool_decide_true by done. cbn. lia.
  - rewrite bool_decide_false by done. cbn [negb]. rewrite foldl_add64 by (done || lia). lia.
Qed.

(** The number of pieces of [t] bytes. *)
Definition piece_count (t p : Z) : Z := (t + p - 1) / p.

Lemma validateInfo_count info :
  lengths_ok info →
  validateInfo info = None ↔ slen (Pieces info) mod 20 = 0 ∧ NumPieces info = piece_count (total info) (PieceLength info).
Proof.
  intros Hok. destruct (TotalLength_total info Hok) as [HT Hn]. destruct Hok as [_ Hp Ht]. unfold validateInfo, add64, piece_count.
  rewrite HT. rewrite (wrap_s_id 64 (total info + PieceLength info)) by (unfold fits_s; change (64 - 1) with 63; lia).
  rewrite wrap_s_id by (unfold fits_s; change (64 - 1) with 63; lia). rewrite Z.quot_div_nonneg by lia.
  destruct (Z.eqb_spec (slen (Pieces info) mod 20) 0) as [E|E]; cbn [negb]; [|split; [done|by intros [? _]]].
  destruct (Z.eqb_spec (PieceLength info) 0); [lia|].
  destruct (Z.eqb_spec ((total info + PieceLength info - 1) / PieceLength info) (NumPieces info)) as [E'|E']; cbn [negb]; split; try done.
  by intros [_ ?].
Qed.

(** Where the pieces of a count lie. *)
Lemma piece_count_bounds t p i :
  0 ≤ t → 0 < p → 0 ≤ i < piece_count t p → i * p < t ∧ (i + 1 < piece_count t p → (i + 1) * p ≤ t) ∧
  (i + 1 = piece_count t p → t ≤ (i + 1) * p).
Proof.
  intros Ht Hp Hi. unfold piece_count in *. pose proof (Z.div_mod (t + p - 1) p ltac:(lia)) as Hd.
  pose proof (Z.mod_pos_bound (t + p - 1) p Hp). set (n := (t + p - 1) / p) in *. split_and!; nia.
Qed.

(** The pieces of a torrent tile its data: in an info dictionary that passes
    [validateInfo], with lengths that are not negative and fit an int64, every
    piece begins where the one before it ends, is not empty and not longer than the
    piece length, the last one ends at the total length, and each has its hash. *)
Theorem valid_info_pieces_tile (info : Info) :
  lengths_ok info → validateInfo info = None →
  NumPieces info = piece_count (total info) (PieceLength info) ∧
  ∀ i, 0 ≤ i < NumPieces info →
    Piece_Offset info i = i * PieceLength info ∧ 0 < Piece_Length info i ≤ PieceLength info ∧
    Piece_Offset info i + Piece_Length info i = (if i =? NumPieces info - 1 then total info else Piece_Offset info (i + 1)) ∧
    is_Some (Piece_Hash info i).
Proof.
  intros Hok Hv. destruct (TotalLength_total info Hok) as [HT Hn]. apply validateInfo_count in Hv as [Hmod HN]; [|done]. split; [done|].
  destruct Hok as [_ Hp Ht]. intros i Hi. rewrite HN in Hi.
  destruct (piece_count_bounds (total info) (PieceLength info) i Hn Hp Hi) as (H1 & H2 & H3). rewrite <- HN in *.
  assert (∀ k, 0 ≤ k → k * PieceLength info ≤ total info → mul64 k (PieceLength info) = k * PieceLength info) as Hmul.
  { intros k Hk Hkt. unfold mul64. apply wrap_s_id; [lia|]. unfold fits_s. change (64 - 1) with 63. nia. }
  assert (is_Some (Piece_Hash info i)) as Hh.
  { unfold Piece_Hash. unfold NumPieces in *. pose proof (Z.div_mod (slen (Pieces info)) 20 ltac:(lia)).
    destruct (Z.leb_spec 0 i); [|lia]. destruct (Z.leb_spec ((i + 1) * 20) (slen (Pieces info))); [by eexists|lia]. }
  unfold Piece_Offset, Piece_Length. rewrite (Hmul i) by lia. rewrite HT.
  destruct (Z.eqb_spec i (NumPieces info - 1)) as [E|E].
  - rewrite wrap_s_id by (unfold fits_s; change (64 - 1) with 63; nia). specialize (H3 ltac:(lia)). split_and!; [done|nia|nia|lia|done].
  - specialize (H2 ltac:(lia)). rewrite (Hmul (i + 1)) by lia. split_and!; [done|lia|lia|lia|done].
Qed.


(** ** Hashing gives a valid torrent *)

Section hashing_proofs.
Context `{!Sha1}.

Lemma piece_count_step t p : 0 < p → p ≤ t → piece_count t p = 1 + piece_count (t - p) p.
Proof. intros Hp Ht. unfold piece_count. replace (t + p - 1) with (t - p + p - 1 + 1 * p) by lia. rewrite Z.div_add by lia. lia. Qed.

Lemma piece_count_small t p : 0 < t → t < p → piece_count t p = 1.
Proof. intros Ht Hp. unfold piece_count. symmetry. apply Z.div_unique with (t - 1); lia. Qed.

Lemma piece_count_0 p : 0 < p → piece_count 0 p = 0.
Proof. intros Hp. unfold piece_count. apply Z.div_small. lia. Qed.

Lemma piece_count_nonneg t p : 0 ≤ t → 0 < p → 0 ≤ piece_count t p.
Proof. intros. apply Z.div_pos; lia. Qed.

(** The loop appends a hash for every piece of the data, in order. *)
Lemma generate_loop_spec fuel err p r b :
  0 < p → (String.length r < fuel)%nat →
  ∃ hs, generate_loop fuel err p r b = Some (b +:+ hs, err) ∧ slen hs = 20 * piece_count (slen r) p ∧
    ∀ i, 0 ≤ i < piece_count (slen r) p →
      str_take 20 (str_drop (Z.to_nat (i * 20)) hs) = sha1 (str_take (Z.to_nat p) (str_drop (Z.to_nat (i * p)) r)).
Proof.
  intros Hp. revert r b. induction fuel as [|fuel IH]; intros r b Hf; [lia|]. cbn [generate_loop].
  rewrite slen_take, Z2Nat.id by lia. pose proof (slen_nonneg r). destruct (Z.leb_spec p (Z.min p (slen r))) as [Hle|Hlt].
  - destruct (Z.ltb_spec 0 (Z.min p (slen r))); [|lia].
    destruct (IH (str_drop (Z.to_nat p) r) (b +:+ sha1 (str_take (Z.to_nat p) r))) as (hs & E & Hl & Hh).
    { pose proof (slen_drop (Z.to_nat p) r). unfold slen in *. lia. }
    rewrite slen_drop, Z2Nat.id in Hl, Hh by lia. rewrite Z.max_r in Hl, Hh by lia.
    exists (sha1 (str_take (Z.to_nat p) r) +:+ hs). rewrite E, string_assoc. split; [done|].
    rewrite slen_app, sha1_size, (piece_count_step (slen r)) by lia. split; [lia|]. intros i Hi.
    destruct (decide (i = 0)) as [->|Hi0].
    + rewrite !Z.mul_0_l. rewrite !str_drop_0. rewrite str_take_app_l by (rewrite sha1_size; lia).
      apply str_take_all. rewrite sha1_size. lia.
    + rewrite str_drop_app_r by (rewrite sha1_size; lia).
      pose proof (sha1_size (str_take (Z.to_nat p) r)) as Hs. unfold slen in Hs.
      replace (Z.to_nat (i * 20) - String.length (sha1 (str_take (Z.to_nat p) r)))%nat with (Z.to_nat ((i - 1) * 20)) by lia.
      rewrite Hh by lia. rewrite str_drop_drop. do 3 f_equal. nia.
  - destruct (Z.ltb_spec 0 (Z.min p (slen r))) as [Hmn|Hmn].
    + exists (sha1 (str_take (Z.to_nat p) r)). split; [done|]. rewrite sha1_size, piece_count_small by lia. split; [done|].
      intros i Hi. replace i with 0 by lia. rewrite !Z.mul_0_l, !str_drop_0. apply str_take_all. rewrite sha1_size. lia.
    + assert (slen r = 0) as -> by lia. exists "". rewrite string_nil_r, piece_count_0 by done. split_and!; [done|done|]. intros; lia.
Qed.

Lemma writeFiles_ok open l :
  Forall (λ fi, 0 ≤ fLength fi ∧ ∃ content, open fi = Some content ∧ fLength fi ≤ slen content) l →
  ∃ data, writeFiles open l = (data, None) ∧ slen data = Zsum (fLength <$> l).
Proof.
  induction 1 as [|fi l [Hn (content & Ho & Hl)] _ (data & E & Hd)]; [by exists ""|]. cbn [writeFiles]. rewrite Ho.
  rewrite slen_take, Z2Nat.id, Z.min_l, Z.eqb_refl by lia. rewrite E. eexists. split; [done|].
  rewrite slen_app, slen_take, fmap_cons, Zsum_cons. lia.
Qed.

(** C35: hashing the files of a torrent gives a valid info dictionary: for a
    positive piece length and files that can be read to their length, it succeeds,
    the result passes [validateInfo], and the hash of every piece is the hash of
    the bytes of the files, in a row, that the piece covers. *)
Theorem generated_pieces_valid (open : FileInfo → option string) (info : Info) :
  lengths_ok info →
  Forall (λ fi, ∃ content, open fi = Some content ∧ fLength fi ≤ slen content) (UpvertedFiles info) →
  ∃ info' data, Info_GeneratePieces open info = Some (info', None) ∧ writeFiles open (UpvertedFiles info) = (data, None) ∧
    slen data = total info ∧ validateInfo info' = None ∧
    ∀ i, 0 ≤ i < NumPieces info' →
      Piece_Hash info' i = Some (sha1 (str_take (Z.to_nat (PieceLength info)) (str_drop (Z.to_nat (i * PieceLength info)) data))).
Proof.
  intros Hok Ho. pose proof Hok as [Hf Hp Ht]. unfold Info_GeneratePieces, GeneratePieces. destruct (Z.eqb_spec (PieceLength info) 0); [lia|].
  destruct (writeFiles_ok open (UpvertedFiles info)) as (data & E & Hd); [by apply Forall_and|]. rewrite E.
  destruct (generate_loop_spec (S (String.length data)) None (PieceLength info) data "" Hp ltac:(lia)) as (hs & Eg & Hl & Hh).
  rewrite Eg. rewrite string_nil_app. cbn [mbind option_bind fst snd]. exists (set_pieces hs info), data.
  assert (lengths_ok (set_pieces hs info)) as Hok' by by destruct Hok.
  pose proof (piece_count_nonneg (slen data) (PieceLength info) (slen_nonneg _) Hp).
  assert (NumPieces (set_pieces hs info) = piece_count (slen data) (PieceLength info)) as HN.
  { unfold NumPieces. cbn [Pieces set_pieces]. rewrite Hl, Z.mul_comm. apply Z.div_mul. lia. }
  split_and!; [done|done|done| |].
  - apply validateInfo_count; [done|]. cbn [Pieces set_pieces PieceLength]. rewrite Hl, HN, Hd. split; [|done].
    rewrite Z.mul_comm. apply Z.mod_mul. lia.
  - intros i Hi. rewrite HN in Hi. unfold Piece_Hash. cbn [Pieces set_pieces]. rewrite Hl.
    destruct (Z.leb_spec 0 i); [|lia]. destruct (Z.leb_spec ((i + 1) * 20) (20 * piece_count (slen data) (PieceLength info))); [|lia].
    cbn [andb]. by rewrite Hh.
Qed.
End hashing_proofs.

(** ** The piece length *)

Lemma choose_loop_spec fuel k t :
  0 ≤ t < 2 ^ 63 → 0 ≤ k → (64 - k ≤ Z.of_nat fuel)%Z → (k = 0 ∨ 1024 ≤ t / (minimumPieceLength * 2 ^ k)) →
  ∃ j, choose_loop fuel (minimumPieceLength * 2 ^ k) (t / (minimumPieceLength * 2 ^ k)) = Some (minimumPieceLength * 2 ^ j) ∧ k ≤ j ∧
    t / (minimumPieceLength * 2 ^ j) < targetPieceCountMax ∧ (j = 0 ∨ 1024 ≤ t / (minimumPieceLength * 2 ^ j)).
Proof.
  revert k. induction fuel as [|fuel IH]; intros k Ht Hk Hf Hinv.
  - exfalso. destruct Hinv as [->|Hinv]; [lia|]. assert (2 ^ 64 ≤ 2 ^ k) by (apply Z.pow_le_mono_r; lia).
    unfold minimumPieceLength in Hinv. rewrite Z.div_small in Hinv; lia.
  - cbn [choose_loop]. change targetPieceCountMax with 2048. destruct (Z.leb_spec 2048 (t / (minimumPieceLength * 2 ^ k))) as [Hge|Hlt].
    + assert (0 < 2 ^ k) by (apply Z.pow_pos_nonneg; lia). unfold minimumPieceLength in *.
      assert (2048 * (16 * 1024 * 2 ^ k) ≤ t) as Hb by (pose proof (Z.mul_div_le t (16 * 1024 * 2 ^ k)); nia).
      rewrite Z.shiftl_mul_pow2, wrap_s_id by (lia || unfold fits_s; change (64 - 1) with 63; nia).
      rewrite Z.shiftr_div_pow2, Z.div_div by nia.
      replace (16 * 1024 * 2 ^ k * 2 ^ 1) with (16 * 1024 * 2 ^ (k + 1)) by (rewrite Z.pow_add_r by lia; lia).
      destruct (IH (k + 1)) as (j & E & Hj & Hr); [done|lia|lia| |by exists j; split_and!; [done|lia|apply Hr..]].
      right. replace (16 * 1024 * 2 ^ (k + 1)) with (16 * 1024 * 2 ^ k * 2) by (rewrite Z.pow_add_r by lia; lia).
      rewrite <- Z.div_div by nia. apply Z.div_le_lower_bound; lia.
    + exists k. by split_and!.
Qed.

(** The chosen piece length is a power of two times 16 KiB, gives fewer than
    2048 whole pieces, and is the smallest such: at least 1024 unless it is the
    minimum. *)
Theorem ChoosePieceLength_spec (t : Z) :
  0 ≤ t < 2 ^ 63 →
  ∃ j, 0 ≤ j ∧ ChoosePieceLength t = Some (minimumPieceLength * 2 ^ j) ∧
    t / (minimumPieceLength * 2 ^ j) < targetPieceCountMax ∧ (j = 0 ∨ 1024 ≤ t / (minimumPieceLength * 2 ^ j)).
Proof.
  intros Ht. destruct (choose_loop_spec 64 0 t Ht) as (j & E & Hj & Hr); [lia|lia|by left|].
  exists j. split; [done|]. unfold ChoosePieceLength. rewrite Z.quot_div_nonneg by (done || lia).
  change (minimumPieceLength * 2 ^ 0) with minimumPieceLength in E. by rewrite E.
Qed.

(** ** Segments cover the extent *)

(** The positions of the parts [out] of segments that begin at [off]. *)
Definition positions (off : nat → Z) (out : list (nat * Extent)) : list Z :=
  concat (map (λ o, seqZ (off o.1 + Start o.2) (eLength o.2)) out).

(** A part lies within its segment. *)
Definition within (len : nat → option Z) (o : nat * Extent) : Prop :=
  0 ≤ Start o.2 ∧ 0 ≤ eLength o.2 ∧ ∃ n, len o.1 = Some n ∧ End_ o.2 ≤ n.

Definition keep_going (i : nat) (e : Extent) : bool := true.

Lemma Scan_covers l needle i b off len :
  Forall (λ n, 0 ≤ n) l → 0 ≤ Start needle → 0 ≤ eLength needle →
  (∀ j, (j < length l)%nat → off (i + j)%nat = b + Zsum (take j l) ∧ len (i + j)%nat = l !! j) →
  let '(out, ok) := Scan keep_going l needle i in
  positions off out = seqZ (b + Start needle) (Z.max 0 (Z.min (End_ needle) (Zsum l) - Start needle)) ∧
  Forall (within len) out ∧ ok = ((eLength needle =? 0) || (0 <? eLength needle) && (End_ needle <=? Zsum l)).
Proof.
  intros Hl. revert needle i b. induction Hl as [|n l Hn Hl IH]; intros [st ln] i b Hs Hlen Hoff; cbn [Start eLength] in *.
  - cbn [Scan eLength]. unfold End_. cbn [Start eLength Zsum foldr]. destruct (Z.eqb_spec ln 0) as [->|Hne].
    + cbn. rewrite Z.max_l by lia. done.
    + rewrite Z.max_l by lia. split_and!; [done|constructor|]. destruct (Z.leb_spec (st + ln) 0); [lia|]. by rewrite andb_false_r.
  - pose proof (Zsum_nonneg l Hl) as Hsum. destruct (Hoff 0%nat) as [Ho Hln]; [simpl; lia|]. rewrite Nat.add_0_r in *. cbn in Ho, Hln. rewrite Z.add_0_r in Ho.
    assert (∀ j, (j < length l)%nat → off (S i + j)%nat = b + n + Zsum (take j l) ∧ len (S i + j)%nat = l !! j) as Hoff'.
    { intros j Hj. destruct (Hoff (S j)) as [H1 H2]; [simpl; lia|]. rewrite Nat.add_succ_r in H1, H2. cbn [take lookup list_lookup] in H1, H2.
      rewrite Zsum_cons in H1. split; [|done]. rewrite Nat.add_succ_l, H1. lia. }
    unfold End_. cbn [Scan eLength Start End_]. rewrite Zsum_cons. destruct (Z.eqb_spec ln 0) as [->|Hne].
    { rewrite Z.max_l by lia. split_and!; [done|constructor|done]. }
    destruct ((st <? n) || ((st =? n) && (n =? 0))) eqn:Hc.
    + assert (st ≤ n) by lia. unfold End_. cbn [Start eLength]. destruct (Z.leb_spec 0 (Z.min n (st + ln) - st)); [|lia]. cbn [keep_going].
      specialize (IH {| Start := 0; eLength := ln - (Z.min n (st + ln) - st) |} (S i) (b + n)). cbn [Start eLength] in IH.
      specialize (IH ltac:(lia) ltac:(lia) Hoff'). destruct (Scan keep_going l _ (S i)) as [out ok]. destruct IH as (Hpos & Hwi & ->).
      unfold End_ in *. cbn [Start eLength] in *. split_and!.
      * unfold positions in *. cbn [map concat fst snd Start eLength]. rewrite Hpos, Ho.
        destruct (decide (st + ln ≤ n)) as [Hin|Hout].
        -- replace (Z.min n (st + ln) - st) with ln by lia. replace (Z.max 0 (Z.min (0 + (ln - ln)) (Zsum l) - 0)) with 0 by lia.
           replace (Z.max 0 (Z.min (st + ln) (n + Zsum l) - st)) with ln by lia. by rewrite (seqZ_nil (b + n + 0)), app_nil_r by lia.
        -- rewrite (Z.min_l n (st + ln)) by lia. rewrite (Z.max_r 0 (Z.min (st + ln) (n + Zsum l) - st)) by lia.
           replace (Z.min (st + ln) (n + Zsum l) - st) with ((n - st) + Z.max 0 (Z.min (0 + (ln - (n - st))) (Zsum l) - 0)) by lia.
           rewrite seqZ_app by lia. replace (b + st + (n - st)) with (b + n + 0) by lia. done.
      * constructor; [|done]. unfold within, End_. cbn [fst snd Start eLength]. split_and!; [done|done|]. exists n. split; [done|lia].
      * destruct (Z.eqb_spec (ln - (Z.min n (st + ln) - st)) 0), (Z.ltb_spec 0 (ln - (Z.min n (st + ln) - st))), (Z.ltb_spec 0 ln),
          (Z.leb_spec (0 + (ln - (Z.min n (st + ln) - st))) (Zsum l)), (Z.leb_spec (st + ln) (n + Zsum l)); cbn [orb andb]; (done || lia).
    + assert (n ≤ st) by lia. specialize (IH {| Start := st - n; eLength := ln |} (S i) (b + n)). cbn [Start eLength] in IH.
      specialize (IH ltac:(lia) ltac:(lia) Hoff'). destruct (Scan keep_going l _ (S i)) as [out ok]. destruct IH as (Hpos & Hwi & ->).
      unfold End_ in *. cbn [Start eLength] in *. split_and!; [|done|].
      * rewrite Hpos. replace (b + n + (st - n)) with (b + st) by lia. f_equal. lia.
      * destruct (Z.eqb_spec ln 0), (Z.ltb_spec 0 ln), (Z.leb_spec (st - n + ln) (Zsum l)), (Z.leb_spec (st + ln) (n + Zsum l));
          cbn [orb andb]; (done || lia).
Qed.

(** The binary search finds the first index where a monotone test holds. *)
Lemma index_lookup l b i : index_from b l !! i = (λ n, {| Start := b + Zsum (take i l); eLength := n |}) <$> l !! i.
Proof.
  revert b i. induction l as [|n l IH]; intros b i; [done|]. cbn [index_from]. destruct i as [|i].
  - cbn. by rewrite Z.add_0_r.
  - cbn [lookup list_lookup take]. rewrite Zsum_cons, Z.add_assoc. apply IH.
Qed.

Lemma index_length l b : length (index_from b l) = length l.
Proof. revert b. induction l as [|n l IH]; intros b; [done|]. cbn. by rewrite IH. Qed.

Lemma index_lengths l b : map eLength (index_from b l) = l.
Proof. revert b. induction l as [|n l IH]; intros b; [done|]. cbn. by rewrite IH. Qed.

Lemma map_drop_length l b k : map eLength (drop k (index_from b l)) = drop k l.
Proof. revert b k. induction l as [|n l IH]; intros b [|k]; try done; [by cbn; rewrite index_lengths|]. cbn. apply IH. Qed.

Lemma Zsum_take_S l i n : l !! i = Some n → Zsum (take (S i) l) = Zsum (take i l) + n.
Proof. intros H. rewrite (take_S_r _ _ _ H), Zsum_app. cbn. lia. Qed.

Lemma Zsum_take_mono l i j : Forall (λ n, 0 ≤ n) l → (i ≤ j)%nat → Zsum (take i l) ≤ Zsum (take j l).
Proof.
  intros Hl Hij. replace j with (i + (j - i))%nat by lia.
  rewrite <- (take_drop i (take (i + (j - i)) l)), Zsum_app, take_take, Nat.min_l by lia.
  pose proof (Zsum_nonneg (drop i (take (i + (j - i)) l))) as H. enough (0 ≤ Zsum (drop i (take (i + (j - i)) l))) by lia.
  apply H. by apply Forall_drop, Forall_take.
Qed.


(** ** Requests cover the offset *)

(** The request for an offset of the torrent is one for a chunk that holds
    it: it begins on a chunk boundary of the piece of the offset, ends within that
    piece and within the torrent, [torrentRequestOffset] accepts it, and the offset
    asked for lies within the bytes it asks for. *)
Theorem offset_request_holds_offset (torrentLength pieceSize chunkSize offset : Z) :
  0 < pieceSize < 2 ^ 32 → 0 < chunkSize < 2 ^ 32 → torrentLength ≤ pieceSize * 2 ^ 32 → 0 ≤ offset < torrentLength →
  ∃ r off, torrentOffsetRequest torrentLength pieceSize chunkSize offset = Some r ∧
    torrentRequestOffset torrentLength pieceSize r = Some off ∧
    rIndex r = offset / pieceSize ∧ (∃ k, rBegin r = k * chunkSize) ∧ rBegin r + rLength r ≤ pieceSize ∧
    off ≤ offset < off + rLength r ∧ off + rLength r ≤ torrentLength ∧ 0 < rLength r ≤ chunkSize.
Proof.
  intros Hp Hc Ht Ho. unfold torrentOffsetRequest, torrentRequestOffset, to_u32.
  destruct (Z.ltb_spec offset 0); [lia|]. destruct (Z.leb_spec torrentLength offset); [lia|]. cbn [orb].
  rewrite Z.quot_div_nonneg, Z.rem_mod_nonneg by lia.
  pose proof (Z.mod_pos_bound offset pieceSize ltac:(lia)) as Hm. pose proof (Z.div_mod offset pieceSize ltac:(lia)) as Hd.
  rewrite Z.quot_div_nonneg by lia. set (q := offset mod pieceSize / chunkSize).
  pose proof (Z.div_mod (offset mod pieceSize) chunkSize ltac:(lia)) as Hq. fold q in Hq.
  pose proof (Z.mod_pos_bound (offset mod pieceSize) chunkSize ltac:(lia)) as Hmc.
  assert (0 ≤ q) by (apply Z.div_pos; lia). assert (0 ≤ offset / pieceSize) by (apply Z.div_pos; lia).
  assert (offset / pieceSize < 2 ^ 32) by (apply Z.div_lt_upper_bound; lia).
  assert (q * chunkSize ≤ offset mod pieceSize) by lia.
  rewrite (wrap_u_id 32 (offset / pieceSize)) by (unfold fits_u; lia). rewrite (wrap_u_id 32 (q * chunkSize)) by (unfold fits_u; lia).
  rewrite (wrap_u_id 32 chunkSize) by (unfold fits_u; lia). rewrite (wrap_u_id 32 (pieceSize - q * chunkSize)) by (unfold fits_u; lia).
  set (len := if pieceSize - q * chunkSize <? chunkSize then pieceSize - q * chunkSize else chunkSize).
  assert (len = Z.min (pieceSize - q * chunkSize) chunkSize) as -> by (unfold len; destruct (Z.ltb_spec (pieceSize - q * chunkSize) chunkSize); lia).
  assert (0 < torrentLength - offset / pieceSize * pieceSize - q * chunkSize) by lia.
  set (left := torrentLength - offset / pieceSize * pieceSize - q * chunkSize) in *.
  destruct (Z.ltb_spec left (Z.min (pieceSize - q * chunkSize) chunkSize)).
  - rewrite (wrap_u_id 32 left) by (unfold fits_u; lia). eexists {| rIndex := _; rBegin := _; rLength := _ |}, (offset / pieceSize * pieceSize + q * chunkSize).
    split; [reflexivity|]. cbn [rIndex rBegin rLength]. destruct (Z.ltb_spec (offset / pieceSize * pieceSize + q * chunkSize) 0); [lia|].
    destruct (Z.leb_spec torrentLength (offset / pieceSize * pieceSize + q * chunkSize)); [lia|]. cbn [orb].
    split_and!; [done|done|by exists q|lia..].
  - eexists {| rIndex := _; rBegin := _; rLength := _ |}, (offset / pieceSize * pieceSize + q * chunkSize).
    split; [reflexivity|]. cbn [rIndex rBegin rLength]. destruct (Z.ltb_spec (offset / pieceSize * pieceSize + q * chunkSize) 0); [lia|].
    destruct (Z.leb_spec torrentLength (offset / pieceSize * pieceSize + q * chunkSize)); [lia|]. cbn [orb].
    split_and!; [done|done|by exists q|lia..].
Qed.

(** ** Announce lists *)

Lemma distinct_step_spec ret v : NoDup ret → NoDup (distinct_step ret v) ∧ (∀ x, x ∈ distinct_step ret v ↔ x ∈ ret ∨ x = v).
Proof.
  intros Hd. unfold distinct_step. case_bool_decide as Hv; split; [done| | |].
  - intros x. split; [by left|]. by intros [? | ->].
  - apply NoDup_app. split_and!; [done| |apply NoDup_singleton]. intros x Hx ->%list_elem_of_singleton. done.
  - intros x. rewrite elem_of_app, list_elem_of_singleton. done.
Qed.

Lemma foldl_distinct l ret :
  NoDup ret → NoDup (foldl distinct_step ret l) ∧ (∀ x, x ∈ foldl distinct_step ret l ↔ x ∈ ret ∨ x ∈ l).
Proof.
  revert ret. induction l as [|v l IH]; intros ret Hd; cbn [foldl].
  - split; [done|]. intros x. rewrite elem_of_nil. tauto.
  - destruct (distinct_step_spec ret v Hd) as [Hd' He]. destruct (IH _ Hd') as [Hd'' He']. split; [done|].
    intros x. rewrite He', He, elem_of_cons. tauto.
Qed.

(** The trackers of an announce list are listed once each, and all of them. *)
Theorem DistinctValues_spec (al : AnnounceList) :
  NoDup (DistinctValues al) ∧ ∀ x, x ∈ DistinctValues al ↔ ∃ tier, tier ∈ al ∧ x ∈ tier.
Proof.
  unfold DistinctValues. assert (∀ ret, NoDup ret → NoDup (foldl (foldl distinct_step) ret al) ∧
    ∀ x, x ∈ foldl (foldl distinct_step) ret al ↔ x ∈ ret ∨ ∃ tier, tier ∈ al ∧ x ∈ tier) as H.
  { induction al as [|t al IH]; intros ret Hd; cbn [foldl].
    - split; [done|]. intros x. split; [by left|]. intros [?|(t & Ht & _)]; [done|]. by apply not_elem_of_nil in Ht.
    - destruct (foldl_distinct t ret Hd) as [Hd' He]. destruct (IH _ Hd') as [Hd'' He']. split; [done|].
      intros x. rewrite He', He. split.
      + intros [[?|?]|(t' & ? & ?)]; [by left|right; exists t; split; [left|done]|right; exists t'; split; [by right|done]].
      + intros [?|(t' & [->|?]%elem_of_cons & ?)]; eauto. }
  destruct (H [] (NoDup_nil_2)) as [H1 H2]. split; [done|]. intros x. rewrite H2, elem_of_nil. tauto.
Qed.

(** ** Torrent files come back *)

(** A torrent file that is written and loaded comes back, with its info
    dictionary byte for byte (so its info hash does not change), its announce
    lists, nodes, web seeds and piece layers, for values in the decoder's form. *)
Theorem Load_Write (isEmptyValue : gov → bool) (mi : gov) :
  canon isEmptyValue DefaultDecodeMaxStrLen (MetaInfo_type isEmptyValue) mi →
  ∃ s, MetaInfo_Write isEmptyValue mi = inr s ∧ Load isEmptyValue s = inr mi.
Proof.
  intros Hc. destruct (encode_survives isEmptyValue DefaultDecodeMaxStrLen ltac:(done) _ mi Hc) as (s & Hs & _ & Hd).
  exists s. split; [done|]. destruct (Hd 0 "" 0 "" (decode_fuel s)) as (b' & E & _); [done|done|unfold decode_fuel; lia|].
  unfold Load, Decode, new_decoder. cbn [input]. rewrite string_nil_r in E. by rewrite E.
Qed.

(** ** Witnesses *)

(** [validateInfo] does not look at single files: a negative length passes when
    the sum is right, so the tiling of the pieces needs the lengths checked. *)
Example negative_length_passes :
  validateInfo {| PieceLength := 16; Pieces := "aaaaaaaaaaaaaaaaaaaa"; Name := "n"; NameUtf8 := ""; Length := 0;
                  Files := [{| fLength := 20; fPath := ["a"]; fPathUtf8 := [] |}; {| fLength := -8; fPath := ["b"]; fPathUtf8 := [] |}] |} = None.
Proof. vm_compute. reflexivity. Qed.

Definition sample_info : Info :=
  {| PieceLength := 4; Pieces := "aaaaaaaaaaaaaaaaaaaabbbbbbbbbbbbbbbbbbbb"; Name := "n"; NameUtf8 := ""; Length := 0;
     Files := [{| fLength := 5; fPath := ["a"]; fPathUtf8 := [] |}; {| fLength := 2; fPath := ["b"]; fPathUtf8 := [] |}] |}.

Lemma sample_info_ok : lengths_ok sample_info.
Proof. split; [repeat constructor; done|done|done]. Qed.

Lemma valid_info_pieces_tile_witness :
  lengths_ok sample_info ∧ validateInfo sample_info = None ∧ NumPieces sample_info = 2 ∧
  (Piece_Offset sample_info 1 = 1 * 4 ∧ 0 < Piece_Length sample_info 1 ≤ 4 ∧
   Piece_Offset sample_info 1 + Piece_Length sample_info 1 = 7 ∧ is_Some (Piece_Hash sample_info 1)).
Proof.
  split; [exact sample_info_ok|]. split; [reflexivity|]. split; [reflexivity|].
  exact (proj2 (valid_info_pieces_tile sample_info sample_info_ok eq_refl) 1 ltac:(by vm_compute)).
Defined.

#[local] Instance toy_sha1 : Sha1.
Proof. refine {| sha1 := λ s, str_take 20 (s +:+ "01234567890123456789") |}. intros s. rewrite slen_take, slen_app. pose proof (slen_nonneg s). change (slen "01234567890123456789") with 20. lia. Defined.

Definition sample_open (fi : FileInfo) : option string := Some "abcdefgh".

Lemma generated_pieces_valid_witness :
  ∃ info' data, Info_GeneratePieces sample_open sample_info = Some (info', None) ∧
    writeFiles sample_open (UpvertedFiles sample_info) = (data, None) ∧ slen data = 7 ∧ validateInfo info' = None ∧
    ∀ i, 0 ≤ i < NumPieces info' →
      Piece_Hash info' i = Some (sha1 (str_take 4 (str_drop (Z.to_nat (i * 4)) data))).
Proof.
  apply (generated_pieces_valid sample_open sample_info sample_info_ok).
  repeat constructor; eexists; split; (reflexivity || by vm_compute).
Defined.

Lemma ChoosePieceLength_witness :
  ∃ j, 0 ≤ j ∧ ChoosePieceLength 100000000 = Some (minimumPieceLength * 2 ^ j) ∧
    100000000 / (minimumPieceLength * 2 ^ j) < targetPieceCountMax ∧ (j = 0 ∨ 1024 ≤ 100000000 / (minimumPieceLength * 2 ^ j)).
Proof. apply (ChoosePieceLength_spec 100000000). split; [apply Z.leb_le|apply Z.ltb_lt]; vm_compute; reflexivity. Defined.


Lemma offset_request_witness :
  ∃ r off, torrentOffsetRequest 1000 300 64 650 = Some r ∧ torrentRequestOffset 1000 300 r = Some off ∧
    rIndex r = 650 / 300 ∧ (∃ k, rBegin r = k * 64) ∧ rBegin r + rLength r ≤ 300 ∧
    off ≤ 650 < off + rLength r ∧ off + rLength r ≤ 1000 ∧ 0 < rLength r ≤ 64.
Proof. apply (offset_request_holds_offset 1000 300 64 650); done. Defined.

Definition never_empty (v : gov) : bool := false.

Definition sample_metainfo : gov :=
  GStruct [GSlice (to_bytes "d1:ai3ee"); GStr "abc"; GSlice [GSlice [GStr "t1"; GStr "t2"]]; GSlice [GStr "xxx"];
           GInt 7; GStr ""; GStr ""; GStr ""; GSlice [GStr "u1"; GStr "u2"]; GMap [("k", GStr "v")]].

Lemma Load_Write_witness :
  canon never_empty DefaultDecodeMaxStrLen (MetaInfo_type never_empty) sample_metainfo ∧
  ∃ s, MetaInfo_Write never_empty sample_metainfo = inr s ∧ Load never_empty s = inr sample_metainfo.
Proof.
  assert (canon never_empty DefaultDecodeMaxStrLen (MetaInfo_type never_empty) sample_metainfo) as Hc.
  { split; [by apply (bool_decide_unpack _); vm_compute|]. cbn -[slen Z.pow DefaultDecodeMaxStrLen reflectValue wf UrlList_UnmarshalBencode Node_UnmarshalBencode to_bytes of_bytes encode].
    split_and!; match goal with
      | |- True => exact I
      | |- fits_s _ _ => split; [apply Z.leb_le|apply Z.ltb_lt]; vm_compute; reflexivity
      | |- _ ≤ _ => apply Z.leb_le; vm_compute; reflexivity
      | |- _ < _ => apply Z.ltb_lt; vm_compute; reflexivity
      | |- _ ≠ _ => discriminate
      | |- _ = _ => vm_compute; reflexivity
      | |- ex _ => idtac
      end.
    - exists (VDict [("a", VInt 3)]). split_and!; vm_compute; reflexivity.
    - exists (VStr "xxx"). split_and!; vm_compute; reflexivity.
    - exists (VList [VStr "u1"; VStr "u2"]). split_and!; vm_compute; reflexivity. }
  split; [exact Hc|]. apply (Load_Write never_empty sample_metainfo Hc).
Defined.
