(* ===== verification/EngineSettings.v ===== *)
(** * The settings of the engine and their migration (internal/gostorm/settings)

    The settings ([BTSets], btsets.go) are kept as one JSON object under
    "Settings"/"BitTorr", in the store the router gives for "Settings": the JSON
    files or bbolt. Where they are kept is itself a setting. At the start
    ([InitSets], settings.go) the program looks for settings in both stores, takes
    from them where they belong, copies them there from the other store
    ([safeMigrate], migrate.go) and sets up the routing; [SwitchSettingsStorage]
    changes the place while it runs.

    The state [Engine] has the stack of Settings.v, which holds both stores, and
    the package variable [BTsets]. What a store promises for the settings is the
    class [SettingsStore]: it keeps a text of the settings that were written, not
    necessarily the same text (the JSON files decode the object and encode it
    again, with its keys in another order). JSON files and every [KVStore]
    discharge it. The abstract state [Abs] has the settings each store holds, the
    routing and the settings in use; the operations are shown to simulate those on
    [Abs].

    The encoding of settings is a parameter ([SetsJson]). A record of settings is
    decoded from a text other than null. The environment variables and the old
    database are arguments. Nothing runs between the steps of a start; saves hold a
    lock. *)

From S2P Require Import Prelude Settings.

Local Open Scope string_scope.
Local Open Scope Z_scope.

(** ** The settings *)

Record BTSets := {
  CacheSize : Z; ReaderReadAHead : Z; PreloadCache : Z; UseDisk : bool; TorrentsSavePath : string;
  RemoveCacheOnDrop : bool; ForceEncrypt : bool; RetrackersMode : Z; TorrentDisconnectTimeout : Z;
  EnableDebug : bool; EnableIPv6 : bool; DisableTCP : bool; DisableUTP : bool; DisableUPNP : bool;
  DisableDHT : bool; DisablePEX : bool; DisableUpload : bool; DownloadRateLimit : Z; UploadRateLimit : Z;
  ConnectionsLimit : Z; PeersListenPort : Z; BlockListURL : string; SslPort : Z; SslCert : string;
  SslKey : string; ResponsiveMode : bool; AdaptiveShield : bool; ShowFSActiveTorr : bool;
  StoreSettingsInJson : bool;
}.

#[export] Instance BTSets_eq_dec : EqDecision BTSets.
Proof. solve_decision. Defined.

Definition set_store (b : bool) (s : BTSets) : BTSets :=
  {| CacheSize := CacheSize s; ReaderReadAHead := ReaderReadAHead s; PreloadCache := PreloadCache s;
     UseDisk := UseDisk s; TorrentsSavePath := TorrentsSavePath s; RemoveCacheOnDrop := RemoveCacheOnDrop s;
     ForceEncrypt := ForceEncrypt s; RetrackersMode := RetrackersMode s;
     TorrentDisconnectTimeout := TorrentDisconnectTimeout s; EnableDebug := EnableDebug s;
     EnableIPv6 := EnableIPv6 s; DisableTCP := DisableTCP s; DisableUTP := DisableUTP s;
     DisableUPNP := DisableUPNP s; DisableDHT := DisableDHT s; DisablePEX := DisablePEX s;
     DisableUpload := DisableUpload s; DownloadRateLimit := DownloadRateLimit s;
     UploadRateLimit := UploadRateLimit s; ConnectionsLimit := ConnectionsLimit s;
     PeersListenPort := PeersListenPort s; BlockListURL := BlockListURL s; SslPort := SslPort s;
     SslCert := SslCert s; SslKey := SslKey s; ResponsiveMode := ResponsiveMode s;
     AdaptiveShield := AdaptiveShield s; ShowFSActiveTorr := ShowFSActiveTorr s; StoreSettingsInJson := b |}.

Definition set_path (p : string) (s : BTSets) : BTSets :=
  {| CacheSize := CacheSize s; ReaderReadAHead := ReaderReadAHead s; PreloadCache := PreloadCache s;
     UseDisk := UseDisk s; TorrentsSavePath := p; RemoveCacheOnDrop := RemoveCacheOnDrop s;
     ForceEncrypt := ForceEncrypt s; RetrackersMode := RetrackersMode s;
     TorrentDisconnectTimeout := TorrentDisconnectTimeout s; EnableDebug := EnableDebug s;
     EnableIPv6 := EnableIPv6 s; DisableTCP := DisableTCP s; DisableUTP := DisableUTP s;
     DisableUPNP := DisableUPNP s; DisableDHT := DisableDHT s; DisablePEX := DisablePEX s;
     DisableUpload := DisableUpload s; DownloadRateLimit := DownloadRateLimit s;
     UploadRateLimit := UploadRateLimit s; ConnectionsLimit := ConnectionsLimit s;
     PeersListenPort := PeersListenPort s; BlockListURL := BlockListURL s; SslPort := SslPort s;
     SslCert := SslCert s; SslKey := SslKey s; ResponsiveMode := ResponsiveMode s;
     AdaptiveShield := AdaptiveShield s; ShowFSActiveTorr := ShowFSActiveTorr s;
     StoreSettingsInJson := StoreSettingsInJson s |}.

Definition set_readahead (z : Z) (s : BTSets) : BTSets :=
  {| CacheSize := CacheSize s; ReaderReadAHead := z; PreloadCache := PreloadCache s; UseDisk := UseDisk s;
     TorrentsSavePath := TorrentsSavePath s; RemoveCacheOnDrop := RemoveCacheOnDrop s;
     ForceEncrypt := ForceEncrypt s; RetrackersMode := RetrackersMode s;
     TorrentDisconnectTimeout := TorrentDisconnectTimeout s; EnableDebug := EnableDebug s;
     EnableIPv6 := EnableIPv6 s; DisableTCP := DisableTCP s; DisableUTP := DisableUTP s;
     DisableUPNP := DisableUPNP s; DisableDHT := DisableDHT s; DisablePEX := DisablePEX s;
     DisableUpload := DisableUpload s; DownloadRateLimit := DownloadRateLimit s;
     UploadRateLimit := UploadRateLimit s; ConnectionsLimit := ConnectionsLimit s;
     PeersListenPort := PeersListenPort s; BlockListURL := BlockListURL s; SslPort := SslPort s;
     SslCert := SslCert s; SslKey := SslKey s; ResponsiveMode := ResponsiveMode s;
     AdaptiveShield := AdaptiveShield s; ShowFSActiveTorr := ShowFSActiveTorr s;
     StoreSettingsInJson := StoreSettingsInJson s |}.

(** The checks at the start of [SetBTSets]; they write into the record the caller
    passes. *)
Definition checked (s : BTSets) : BTSets :=
  {| CacheSize := if CacheSize s <=? 0 then 128 * MiB else CacheSize s;
     ReaderReadAHead := let z := (if ReaderReadAHead s <? 5 then 5 else ReaderReadAHead s) in if 100 <? z then 100 else z;
     PreloadCache := let z := (if PreloadCache s <? 0 then 0 else PreloadCache s) in if 100 <? z then 100 else z;
     UseDisk := if bool_decide (TorrentsSavePath s = "") then false else UseDisk s;
     TorrentsSavePath := TorrentsSavePath s; RemoveCacheOnDrop := RemoveCacheOnDrop s;
     ForceEncrypt := ForceEncrypt s; RetrackersMode := RetrackersMode s;
     TorrentDisconnectTimeout := if TorrentDisconnectTimeout s <=? 0 then 30 else TorrentDisconnectTimeout s;
     EnableDebug := EnableDebug s; EnableIPv6 := EnableIPv6 s; DisableTCP := DisableTCP s;
     DisableUTP := DisableUTP s; DisableUPNP := DisableUPNP s; DisableDHT := DisableDHT s;
     DisablePEX := DisablePEX s; DisableUpload := DisableUpload s; DownloadRateLimit := DownloadRateLimit s;
     UploadRateLimit := UploadRateLimit s;
     ConnectionsLimit := if ConnectionsLimit s <=? 0 then 25 else ConnectionsLimit s;
     PeersListenPort := PeersListenPort s; BlockListURL := BlockListURL s; SslPort := SslPort s;
     SslCert := SslCert s; SslKey := SslKey s; ResponsiveMode := ResponsiveMode s;
     AdaptiveShield := AdaptiveShield s; ShowFSActiveTorr := ShowFSActiveTorr s;
     StoreSettingsInJson := StoreSettingsInJson s |}.

Definition default_sets : BTSets :=
  {| CacheSize := 128 * MiB; ReaderReadAHead := 75; PreloadCache := 0; UseDisk := false; TorrentsSavePath := "";
     RemoveCacheOnDrop := false; ForceEncrypt := false; RetrackersMode := 1; TorrentDisconnectTimeout := 30;
     EnableDebug := false; EnableIPv6 := false; DisableTCP := false; DisableUTP := false; DisableUPNP := false;
     DisableDHT := false; DisablePEX := false; DisableUpload := false; DownloadRateLimit := 0;
     UploadRateLimit := 0; ConnectionsLimit := 25; PeersListenPort := 0; BlockListURL := ""; SslPort := 0;
     SslCert := ""; SslKey := ""; ResponsiveMode := true; AdaptiveShield := false; ShowFSActiveTorr := true;
     StoreSettingsInJson := true |}.

(** The numbers a JSON object keeps exactly, as a float64. *)
Definition numbers (s : BTSets) : list Z :=
  [CacheSize s; ReaderReadAHead s; PreloadCache s; RetrackersMode s; TorrentDisconnectTimeout s; DownloadRateLimit s; UploadRateLimit s; ConnectionsLimit s; PeersListenPort s; SslPort s].

Definition texts (s : BTSets) : list string := [TorrentsSavePath s; BlockListURL s; SslCert s; SslKey s].

Definition exact_number (z : Z) : Prop := - 2 ^ 53 ≤ z ≤ 2 ^ 53.

(** The limits a record of settings that was saved keeps. *)
Record within_limits (s : BTSets) : Prop := {
  wl_cache : 0 < CacheSize s;
  wl_connections : 0 < ConnectionsLimit s;
  wl_timeout : 0 < TorrentDisconnectTimeout s;
  wl_readahead : 5 ≤ ReaderReadAHead s ≤ 100;
  wl_preload : 0 ≤ PreloadCache s ≤ 100;
  wl_disk : UseDisk s = true → TorrentsSavePath s ≠ "";
}.

(** *** The search for a cache directory

    [SetBTSets] starts a walk of the save path for a directory named .tsc. A
    directory whose contents cannot be read ends the walk. *)
Inductive entry :=
  | File (name : string)
  | Folder (name : string) (children : option (list entry)).

(** What the walk does next. *)
Inductive walk := Continue | Stop | Found (path : string).

(** [filepath.Join] of a cleaned path and names. *)
Definition join_path (root : string) (rel : list string) : string :=
  match rel with
  | [] => root
  | _ => if bool_decide (root = "/") then "/" +:+ String.concat "/" rel
         else if bool_decide (root = ".") then String.concat "/" rel
         else String.concat "/" (root :: rel)
  end.

Definition hidden (name : string) : bool := String.prefix "." name.

(** [rel] is the path from the root: a directory two levels down is looked at and
    not entered, nor is a hidden one. *)
Fixpoint walk_entry (root : string) (rel : list string) (e : entry) : walk :=
  match e with
  | File _ => Continue
  | Folder name children =>
      if bool_decide (ToLower name = ".tsc") then Found (join_path root rel)
      else if (1 <? length rel)%nat then Continue
      else if hidden name then Continue
      else match children with
           | None => Stop
           | Some l =>
               (fix walk_list (l : list entry) : walk :=
                  match l with
                  | [] => Continue
                  | e :: l' =>
                      match walk_entry root (rel ++ [match e with File n | Folder n _ => n end])%list e with
                      | Continue => walk_list l'
                      | r => r
                      end
                  end) l
           end
  end.

(** [root] is the cleaned save path; [None]: it does not exist. *)
Definition find_tsc (root : string) (e : option entry) : option string :=
  match e with
  | Some e => match walk_entry root [] e with Found p => Some p | Continue | Stop => None end
  | None => None
  end.

(** ** Encoding *)

(** [any] is what an [interface{}] is decoded to, [object] the object of a record
    of settings as the JSON files keep it. [text_ok]: valid UTF-8, which the encoder
    keeps. *)
Class SetsJson `{HJ : !Json} := {
  any : Type;
  any_eq : EqDecision any;
  to_any : jval → any;
  to_any_inj o o' : to_any o = to_any o' → o = o';
  Unmarshal_any : bytes → option any;
  Unmarshal_any_object v o : Unmarshal v = Some o → Unmarshal_any v = Some (to_any o);
  encode_sets : BTSets → bytes;
  decode_sets : bytes → option BTSets;
  object : BTSets → jval;
  text_ok : string → Prop;
  text_ok_empty : text_ok "";
  representable s := Forall exact_number (numbers s) ∧ Forall text_ok (texts s);
  encode_nonempty s : representable s → encode_sets s ≠ [];
  decode_encode s : representable s → decode_sets (encode_sets s) = Some s;
  Unmarshal_encode s : representable s → Unmarshal (encode_sets s) = Some (object s);
  decode_Marshal s : representable s → decode_sets (Marshal (object s)) = Some s;
  length_Marshal s : representable s → length (Marshal (object s)) = length (encode_sets s);
}.
#[export] Existing Instance any_eq.

#[local] Instance byte_EqDecision : EqDecision byte := Byte.byte_eq_dec.

Definition xpath : string := "Settings".
Definition bittorr : string := "BitTorr".

(** ** Migration between two stores *)

Inductive merror := NoDataAfter | VerifyError | DataMismatch.

Section migration.
Context `{HSJ : SetsJson}.

Definition is_nil (b : bytes) : bool := match b with [] => true | _ => false end.

(** [None] is the error of decoding. *)
Definition isByteArraysEqualJson (a b : bytes) : option bool :=
  if is_nil a && is_nil b then Some true
  else if is_nil a || is_nil b then Some false
  else if bool_decide (a = b) then Some true
  else oa ← Unmarshal_any a; ob ← Unmarshal_any b; Some (bool_decide (oa = ob)).

(** [None] among the arguments is a nil slice. *)
Definition isByteArraysEqualJsonOptimized (a b : option bytes) : option bool :=
  if bool_decide (a = None) && bool_decide (b = None) then Some true
  else
    let a := default [] a in
    let b := default [] b in
    if negb (length a =? length b)%nat then Some false
    else if is_nil a then Some true
    else if bool_decide (a = b) then Some true
    else isByteArraysEqualJson a b.

Context {S1 S2 : Type} `{HD1 : !GoStormDB S1} `{HD2 : !GoStormDB S2}.

Definition verifyMigration (x n : string) (originalData : bytes) (target : S2) : option merror * S2 :=
  let '(migratedData, target) := Get x n target in
  (match migratedData with
   | None => Some NoDataAfter
   | Some _ =>
       match isByteArraysEqualJsonOptimized (Some originalData) migratedData with
       | None => Some VerifyError
       | Some false => Some DataMismatch
       | Some true => None
       end
   end, target).

(** Whether the target has the data already. *)
Definition identical (sourceData : bytes) (targetData : option bytes) : bool :=
  match targetData with
  | Some t => bool_decide (isByteArraysEqualJson sourceData t = Some true)
  | None => false
  end.

Definition MigrateSingle (x n : string) (source : S1) (target : S2) : (bool * option merror) * (S1 * S2) :=
  let '(sourceData, source) := Get x n source in
  match sourceData with
  | None => ((false, None), (source, target))
  | Some sourceData =>
      let '(targetData, target) := Get x n target in
      if identical sourceData targetData then ((false, None), (source, target))
      else
        let target := Set_ x n sourceData target in
        let '(err, target) := verifyMigration x n sourceData target in
        ((bool_decide (err = None), err), (source, target))
  end.

(** The loop of [MigrateAll]: the counts of entries migrated and skipped and the
    first error. *)
Fixpoint migrate_names (x : string) (names : list string) (migrated skipped : Z) (firstError : option merror)
    (source : S1) (target : S2) : (Z * Z * option merror) * (S1 * S2) :=
  match names with
  | [] => ((migrated, skipped, firstError), (source, target))
  | n :: names' =>
      let '(sourceData, source) := Get x n source in
      match sourceData with
      | None => migrate_names x names' migrated (skipped + 1) firstError source target
      | Some sourceData =>
          let '(targetData, target) := Get x n target in
          if identical sourceData targetData then migrate_names x names' migrated (skipped + 1) firstError source target
          else
            let target := Set_ x n sourceData target in
            let '(err, target) := verifyMigration x n sourceData target in
            match err with
            | Some _ =>
                migrate_names x names' migrated skipped (match firstError with None => err | Some _ => firstError end)
                  source target
            | None => migrate_names x names' (migrated + 1) skipped firstError source target
            end
      end
  end.

Definition MigrateAll (x : string) (source : S1) (target : S2) : (Z * Z * option merror) * (S1 * S2) :=
  let '(names, source) := List x source in migrate_names x names 0 0 None source target.

Definition safeMigrate (x n : string) (clearSource : bool) (source : S1) (target : S2) : S1 * S2 :=
  let '((migrated, err), (source, target)) := MigrateSingle x n source target in
  match err with
  | Some _ => (source, target)
  | None => (if migrated && clearSource then Rem x n source else source, target)
  end.

Definition migrateMissing (x n : string) (db1 : S1) (db2 : S2) : S1 * S2 :=
  let '(d2, db2) := Get x n db2 in
  let '(db1, db2) := match d2 with
    | Some _ => (db1, db2)
    | None => let '(d1, db1) := Get x n db1 in
              (db1, match d1 with Some data => Set_ x n data db2 | None => db2 end)
    end in
  let '(d1, db1) := Get x n db1 in
  match d1 with
  | Some _ => (db1, db2)
  | None => let '(d2, db2) := Get x n db2 in
            (match d2 with Some data => Set_ x n data db1 | None => db1 end, db2)
  end.
End migration.

(** ** The engine *)

Section engine.
Context `{HSJ : SetsJson} `{HM : !MapRange} `{HS : !SliceSort}.

(** The store over bbolt. *)
Context {TDB : Type} `{HT : !GoStormDB TDB}.

(** The package variable. *)
Context (ReadOnly : bool).

Record Engine := MkEngine {
  tdb : DBReadCache (S := XPathDBRouter (JsonDB + TDB));
  BTsets : option BTSets;
}.

Definition tdb_Set (x n : string) (v : bytes) (e : Engine) : Engine := MkEngine (Cache_Set ReadOnly x n v (tdb e)) (BTsets e).

(** [SetBTSets]; with [UseDisk] it starts the search above as well. *)
Definition SetBTSets (sets : BTSets) (e : Engine) : Engine :=
  if ReadOnly then e
  else tdb_Set xpath bittorr (encode_sets (checked sets)) (MkEngine (tdb e) (Some (checked sets))).

(** The end of the search: the record in use is changed, and not saved. *)
Definition tsc_found (path : string) (e : Engine) : Engine := MkEngine (tdb e) (set_path path <$> BTsets e).

Definition SetDefaultConfig (e : Engine) : Engine :=
  let e := MkEngine (tdb e) (Some default_sets) in
  if ReadOnly then e else tdb_Set xpath bittorr (encode_sets default_sets) e.

Definition loadBTSets (e : Engine) : Engine :=
  let '(buf, c) := Cache_Get xpath bittorr (tdb e) in
  let e := MkEngine c (BTsets e) in
  match (if is_nil (default [] buf) then None else decode_sets (default [] buf)) with
  | Some s => MkEngine (tdb e) (Some (if ReaderReadAHead s <? 5 then set_readahead 5 s else s))
  | None => SetDefaultConfig e
  end.

Definition MigrateSettingsToJson (bboltDB : TDB) (jsonDB : JsonDB) : option merror * (JsonDB * TDB) :=
  let '((_, err), (bboltDB, jsonDB)) := MigrateSingle xpath bittorr bboltDB jsonDB in (err, (jsonDB, bboltDB)).

Definition MigrateSettingsFromJson (jsonDB : JsonDB) (bboltDB : TDB) : option merror * (JsonDB * TDB) :=
  let '((_, err), st) := MigrateSingle xpath bittorr jsonDB bboltDB in (err, st).

(** The error of an unknown direction is only logged. *)
Definition SmartMigrate (forceDirection : string) (jsonDB : JsonDB) (bboltDB : TDB) : JsonDB * TDB :=
  if bool_decide (forceDirection = "settings_to_json") then (MigrateSettingsToJson bboltDB jsonDB).2
  else if bool_decide (forceDirection = "settings_to_bbolt") then (MigrateSettingsFromJson jsonDB bboltDB).2
  else if bool_decide (forceDirection = "sync_both") then
    let '(bboltDB, jsonDB) := migrateMissing xpath bittorr bboltDB jsonDB in (jsonDB, bboltDB)
  else (jsonDB, bboltDB).

(** JSON first. *)
Definition loadExistingSettings (jsonDB : JsonDB) (bboltDB : TDB) : option BTSets * (JsonDB * TDB) :=
  let '(buf, jsonDB) := Get xpath bittorr jsonDB in
  match buf ≫= decode_sets with
  | Some s => (Some s, (jsonDB, bboltDB))
  | None => let '(buf, bboltDB) := Get xpath bittorr bboltDB in (buf ≫= decode_sets, (jsonDB, bboltDB))
  end.

(** [storage] is TS_SETTINGS_STORAGE. *)
Definition determineStoragePreferences (storage : string) (jsonDB : JsonDB) (bboltDB : TDB) : bool * (JsonDB * TDB) :=
  let '(existing, st) := loadExistingSettings jsonDB bboltDB in
  (match existing with
   | Some s => StoreSettingsInJson s
   | None => bool_decide (storage = "") || bool_decide (storage = "json")
   end, st).

Definition applyCleanMigrations (settingsInJson : bool) (jsonDB : JsonDB) (bboltDB : TDB) : JsonDB * TDB :=
  if settingsInJson then
    let '(bboltDB, jsonDB) := safeMigrate xpath bittorr true bboltDB jsonDB in (jsonDB, bboltDB)
  else safeMigrate xpath bittorr true jsonDB bboltDB.

(** [mode] is TS_MIGRATION_MODE. The call of [MigrateTorrents] at the end, which
    only writes under Torrents, is modelled below. *)
Definition InitSets (mode storage : string) (jsonDB : JsonDB) (bboltDB : TDB) : Engine :=
  let '(jsonDB, bboltDB) := if bool_decide (mode = "") then (jsonDB, bboltDB) else SmartMigrate mode jsonDB bboltDB in
  let '(pref, (jsonDB, bboltDB)) := determineStoragePreferences storage jsonDB bboltDB in
  let '(jsonDB, bboltDB) := applyCleanMigrations pref jsonDB bboltDB in
  let e := loadBTSets (MkEngine (setupDatabaseRouting pref jsonDB bboltDB) None) in
  match BTsets e with
  | Some s =>
      if bool_decide (StoreSettingsInJson s = pref) then e
      else SetBTSets (set_store pref s) (MkEngine (tdb e) (Some (set_store pref s)))
  | None => e
  end.

(** The stores behind [tdb], which [NewTDB] and [NewJsonDB] give again. *)
Definition stores (e : Engine) : option (JsonDB * TDB) :=
  r ← c_db (tdb e);
  match heap r !! jsonDB_id, heap r !! bboltDB_id with
  | Some (inl j), Some (inr b) => Some (j, b)
  | _, _ => None
  end.

Definition put_stores (j : JsonDB) (b : TDB) (e : Engine) : Engine :=
  MkEngine (MkCache ((λ r, MkRouter (dbs r) (routes r) (route2db r)
                        (<[jsonDB_id := inl j]> (<[bboltDB_id := inr b]> (heap r)))) <$> c_db (tdb e))
              (listCache (tdb e)) (dataCache (tdb e))) (BTsets e).

Inductive serror := SReadOnly | SNoStore | SMigration (e : merror).

(** The read cache is not told of the copy. *)
Definition SwitchSettingsStorage (useJson : bool) (e : Engine) : option serror * Engine :=
  if ReadOnly then (Some SReadOnly, e)
  else match stores e with
       | None => (Some SNoStore, e)
       | Some _ =>
           let e := match BTsets e with
             | Some s => SetBTSets (set_store useJson s) (MkEngine (tdb e) (Some (set_store useJson s)))
             | None => e
             end in
           match stores e with
           | None => (Some SNoStore, e)
           | Some (j, b) =>
               let '(err, (j, b)) := if useJson then MigrateSettingsToJson b j else MigrateSettingsFromJson j b in
               (SMigration <$> err, put_stores j b e)
           end
       end.

Definition GetStoragePreferences (e : Engine) : string :=
  match BTsets e with
  | Some s => if StoreSettingsInJson s then "json" else "bbolt"
  | None => "json"
  end.

(** [pref] is the string under "settings", if there is one. *)
Definition SetStoragePreferences (pref : option string) (e : Engine) : option serror * Engine :=
  match BTsets e with
  | Some s =>
      if ReadOnly then (Some SReadOnly, e)
      else match pref with
           | Some p =>
               if bool_decide (p ≠ "") && negb (eqb (StoreSettingsInJson s) (bool_decide (p = "json")))
               then SwitchSettingsStorage (bool_decide (p = "json")) e
               else (None, e)
           | None => (None, e)
           end
  | None => (Some SReadOnly, e)
  end.
End engine.

(** *** Torrents of the old database *)

(** torrserver.db: its buckets by hash, each with its fields; a key that is not a
    bucket is [None]. *)
Inductive old_db := NoFile | CannotOpen | OldFile (buckets : list (string * option (gmap string bytes))).

Record torrentBackupDB := { bName : string; bMagnet : string; bHash : string; bSize : Z; bTimestamp : Z }.

(** A field that is missing, and [binary.BigEndian.Uint64] of less than 8 bytes. *)
Inductive read_error := LoadError | ReadPanic.

Fixpoint be_bytes (v : bytes) (acc : Z) : Z :=
  match v with [] => acc | b :: v' => be_bytes v' (256 * acc + Z.of_N (Byte.to_N b)) end.

Definition b2i (v : bytes) : read_error + Z :=
  if (length v <? 8)%nat then inl ReadPanic else inr (wrap_s 64 (be_bytes (take 8 v) 0)).

Definition field (hdb : gmap string bytes) (k : string) : read_error + bytes :=
  match hdb !! k with Some v => inr v | None => inl LoadError end.

Definition sum_bind {A B} (r : read_error + A) (f : A → read_error + B) : read_error + B :=
  match r with inl e => inl e | inr x => f x end.

Definition read_backup (h : string) (hdb : gmap string bytes) : read_error + torrentBackupDB :=
  sum_bind (field hdb "Name") (λ name,
  sum_bind (field hdb "Link") (λ link,
  sum_bind (field hdb "Size") (λ size, sum_bind (b2i size) (λ size,
  sum_bind (field hdb "Timestamp") (λ ts, sum_bind (b2i ts) (λ ts,
  inr {| bName := String.string_of_list_byte name; bMagnet := String.string_of_list_byte link; bHash := h;
         bSize := size; bTimestamp := ts |})))))).

Fixpoint read_backups (l : list (string * option (gmap string bytes))) : read_error + list torrentBackupDB :=
  match l with
  | [] => inr []
  | (h, None) :: l' => read_backups l'
  | (h, Some hdb) :: l' => sum_bind (read_backup h hdb) (λ t, sum_bind (read_backups l') (λ ts, inr (t :: ts)))
  end.

Section old_torrents.
Context `{HTJ : !TorrentJson} {S : Type} `{HD : !GoStormDB S}.

(** [utils.ParseLink] and the display name of what it returns. *)
Context (ParseLink : string → option Spec) (DisplayName : Spec → string).

Definition torrent_of (torr : torrentBackupDB) : option (TorrentDB Spec) :=
  spec ← ParseLink (bMagnet torr);
  let title := if (String.length (bName torr) <? String.length (DisplayName spec))%nat then DisplayName spec else bName torr in
  Some (MkTorrent Spec spec title "" "" "" (bTimestamp torr) (bSize torr)).

Definition migrate_torrents (torrs : list torrentBackupDB) (s : S) : S :=
  foldl (λ s torr, match torrent_of torr with Some t => AddTorrent t s | None => s end) s torrs.

(** The file afterwards; [None] is a panic. *)
Definition MigrateTorrents (old : old_db) (s : S) : option (S * old_db) :=
  match old with
  | NoFile | CannotOpen => Some (s, old)
  | OldFile l =>
      match read_backups l with
      | inl ReadPanic => None
      | inl LoadError => Some (s, NoFile)
      | inr torrs => Some (migrate_torrents torrs s, NoFile)
      end
  end.
End old_torrents.

(** ** What the stores promise for the settings *)

Section promises.
Context `{HSJ : SetsJson}.

(** The texts of a record of settings: as encoded, and as the JSON files give it. *)
Definition text_of (s : BTSets) (v : bytes) : Prop :=
  representable s ∧ (v = encode_sets s ∨ v = Marshal (object s)).

Class SettingsStore (S : Type) `{HD : !GoStormDB S} := {
  ss_inv : S → Prop;
  ss_view : S → option bytes;
  ss_Get st : ss_inv st →
    (Get xpath bittorr st).1 = ss_view st ∧ ss_inv (Get xpath bittorr st).2 ∧ ss_view (Get xpath bittorr st).2 = ss_view st;
  ss_Set st s v : ss_inv st → text_of s v →
    ss_inv (Set_ xpath bittorr v st) ∧ ∃ v', text_of s v' ∧ ss_view (Set_ xpath bittorr v st) = Some v';
  ss_Rem st : ss_inv st → ss_inv (Rem xpath bittorr st) ∧ ss_view (Rem xpath bittorr st) = None;
}.

Lemma text_Unmarshal s v : text_of s v → Unmarshal v = Some (object s).
Proof. intros [Hr [-> | ->]]; [by apply Unmarshal_encode|apply Unmarshal_Marshal]. Qed.

Lemma text_decode s v : text_of s v → decode_sets v = Some s.
Proof. intros [Hr [-> | ->]]; [by apply decode_encode|by apply decode_Marshal]. Qed.

Lemma text_length s v : text_of s v → length v = length (encode_sets s).
Proof. intros [Hr [-> | ->]]; [done|by apply length_Marshal]. Qed.

Lemma text_nonempty s v : text_of s v → is_nil v = false.
Proof.
  intros Ht. pose proof (text_length s v Ht) as Hl. destruct Ht as [Hr _].
  destruct v; [|done]. by destruct (encode_nonempty s Hr), (encode_sets s).
Qed.

Lemma text_encode s : representable s → text_of s (encode_sets s).
Proof. by split; [|left]. Qed.

(** Two texts compare as the settings do. *)
Lemma texts_equal s s' v v' :
  text_of s v → text_of s' v' → isByteArraysEqualJson v v' = Some (bool_decide (s = s')).
Proof.
  intros Hv Hv'. unfold isByteArraysEqualJson. rewrite (text_nonempty s v), (text_nonempty s' v') by done. cbn [andb orb].
  pose proof (text_decode s v Hv) as Hd. pose proof (text_decode s' v' Hv') as Hd'.
  destruct (decide (v = v')) as [->|Hne].
  - rewrite bool_decide_eq_true_2 by done. assert (s = s') as -> by congruence. by rewrite bool_decide_eq_true_2.
  - rewrite bool_decide_eq_false_2 by done.
    rewrite (Unmarshal_any_object v (object s)), (Unmarshal_any_object v' (object s')) by (by apply text_Unmarshal).
    cbn [mbind option_bind]. f_equal. apply bool_decide_ext. split; [|by intros ->].
    intros Ho%to_any_inj. assert (Some s = Some s') as [= ->]; [|done].
    rewrite <- (decode_Marshal s), <- (decode_Marshal s'), Ho by (apply Hv || apply Hv'). done.
Qed.

Lemma text_verified s v v' :
  text_of s v → text_of s v' → isByteArraysEqualJsonOptimized (Some v) (Some v') = Some true.
Proof.
  intros Hv Hv'. unfold isByteArraysEqualJsonOptimized. cbn [default andb bool_decide].
  rewrite !bool_decide_eq_false_2 by done. cbn [andb from_option id].
  rewrite (text_length s v), (text_length s v'), Nat.eqb_refl by done. cbn [negb].
  rewrite (text_nonempty s v Hv). case_bool_decide; [done|].
  by rewrite (texts_equal s s v v'), bool_decide_eq_true_2.
Qed.

Program Instance JsonDB_SettingsStore `{!MapRange} : SettingsStore JsonDB := {|
  ss_inv := λ _, True;
  ss_view := JsonDB_Get xpath bittorr;
|}.
Next Obligation. done. Qed.
Next Obligation.
  intros ? d s v _ Ht. split; [done|]. exists (Marshal (object s)). split; [split; [apply Ht|by right]|].
  cbn [Set_ JsonDB_GoStormDB]. unfold JsonDB_Get, JsonDB_Set. rewrite (text_Unmarshal s v Ht), readJson_write, decide_True by done.
  by rewrite lookup_insert_eq.
Qed.
Next Obligation.
  intros ? d _. split; [done|]. cbn [Rem JsonDB_GoStormDB]. unfold JsonDB_Get, JsonDB_Rem.
  by rewrite readJson_write, decide_True, lookup_delete_eq.
Qed.

Program Definition KVStore_SettingsStore {S : Type} `{!GoStormDB S} (okv : string → bytes → Prop) `{!KVStore S used okv}
    (Hok : ∀ s v, text_of s v → okv xpath v) : SettingsStore S := {|
  ss_inv := kv_inv;
  ss_view := λ st, kv_view st xpath bittorr;
|}.
Next Obligation.
  intros S ? okv ? Hok st Hi. destruct (kv_Get st xpath bittorr Hi) as (H1 & H2 & H3); [by left|].
  split_and!; [done..|]. apply H3. by left.
Qed.
Next Obligation.
  intros S ? okv ? Hok st s v Hi Ht. destruct (kv_Set st xpath bittorr v Hi) as (H1 & H2); [by left|by eapply Hok|].
  split; [done|]. exists v. split; [done|]. rewrite H2 by (by left). by rewrite decide_True.
Qed.
Next Obligation.
  intros S ? okv ? Hok st Hi. destruct (kv_Rem st xpath bittorr Hi) as (H1 & H2); [by left|].
  split; [done|]. rewrite H2 by (by left). by rewrite decide_True.
Qed.

(** The store has the settings [o]. *)
Definition holds {S} `{HD : !GoStormDB S} `{HSS : !SettingsStore S} (st : S) (o : option BTSets) : Prop :=
  ss_inv st ∧ match o with
              | Some s => ∃ v, text_of s v ∧ ss_view st = Some v
              | None => ss_view st = None
              end.
End promises.
#[export] Existing Instance JsonDB_SettingsStore.

(** ** Migrations *)

(** Whether settings are copied from a store that has [src] to one that has [tgt]. *)
Definition migrates (src tgt : option BTSets) : bool := bool_decide (src ≠ None ∧ src ≠ tgt).

Section two_stores.
Context `{HSJ : SetsJson} {S1 S2 : Type} `{HD1 : !GoStormDB S1} `{HD2 : !GoStormDB S2}
  `{HS1 : !SettingsStore S1} `{HS2 : !SettingsStore S2}.

Lemma holds_Get (st : S1) o :
  holds st o → ∃ buf st', Get xpath bittorr st = (buf, st') ∧ holds st' o ∧
    match o with Some s => ∃ v, text_of s v ∧ buf = Some v | None => buf = None end.
Proof.
  intros [Hi Ho]. destruct (ss_Get st Hi) as (H1 & H2 & H3). destruct (Get xpath bittorr st) as [buf st']. cbn in *.
  exists buf, st'. split_and!; [done| |]; subst buf; [split; [done|]; destruct o; rewrite H3; done|by destruct o].
Qed.

Lemma holds_Set (st : S1) o s v : holds st o → text_of s v → holds (Set_ xpath bittorr v st) (Some s).
Proof. intros [Hi _] Ht. by apply (ss_Set st s v). Qed.

Lemma holds_Rem (st : S1) o : holds st o → holds (Rem xpath bittorr st) None.
Proof. intros [Hi _]. by apply ss_Rem. Qed.
End two_stores.

Section migration_proofs.
Context `{HSJ : SetsJson} {S1 S2 : Type} `{HD1 : !GoStormDB S1} `{HD2 : !GoStormDB S2}
  `{HS1 : !SettingsStore S1} `{HS2 : !SettingsStore S2}.

Lemma identical_holds s v (o : option BTSets) buf :
  text_of s v → match o with Some s => ∃ v, text_of s v ∧ buf = Some v | None => buf = None end →
  identical v buf = bool_decide (Some s = o).
Proof.
  intros Hv Hb. destruct o as [s'|]; [|subst; cbn; by rewrite bool_decide_eq_false_2].
  destruct Hb as (v' & Hv' & ->). cbn. rewrite (texts_equal s s' v v') by done.
  apply bool_decide_ext. split; [intros [= ?%bool_decide_eq_true]; by subst|].
  intros [= ->]. by rewrite bool_decide_eq_true_2.
Qed.

Lemma verify_holds s v (t : S2) :
  text_of s v → holds t (Some s) →
  ∃ t', verifyMigration xpath bittorr v t = (None, t') ∧ holds t' (Some s).
Proof.
  intros Hv Ht. destruct (holds_Get t _ Ht) as (buf & t' & Hg & Ht' & v' & Hv' & ->).
  exists t'. split; [|done]. unfold verifyMigration. rewrite Hg. by rewrite (text_verified s v v').
Qed.

Lemma MigrateSingle_holds (st : S1) (tt : S2) o1 o2 :
  holds st o1 → holds tt o2 →
  ∃ st' tt', MigrateSingle xpath bittorr st tt = ((migrates o1 o2, None), (st', tt')) ∧
    holds st' o1 ∧ holds tt' (if migrates o1 o2 then o1 else o2).
Proof.
  intros H1 H2. unfold MigrateSingle. destruct (holds_Get st _ H1) as (buf & st' & -> & H1' & Hb).
  destruct o1 as [s|]; [|subst buf; by exists st', tt]. destruct Hb as (v & Hv & ->).
  destruct (holds_Get tt _ H2) as (buf & tt' & -> & H2' & Hb). rewrite (identical_holds s v o2) by done.
  unfold migrates. case_bool_decide as He.
  - rewrite bool_decide_eq_false_2 by (subst; naive_solver). by exists st', tt'.
  - rewrite bool_decide_eq_true_2 by done.
    destruct (verify_holds s v (Set_ xpath bittorr v tt')) as (tt2 & -> & H2''); [done|by eapply holds_Set|].
    by exists st', tt2.
Qed.

Lemma safeMigrate_holds (st : S1) (tt : S2) o1 o2 :
  holds st o1 → holds tt o2 →
  ∃ st' tt', safeMigrate xpath bittorr true st tt = (st', tt') ∧
    holds st' (if migrates o1 o2 then None else o1) ∧ holds tt' (if migrates o1 o2 then o1 else o2).
Proof.
  intros H1 H2. unfold safeMigrate. destruct (MigrateSingle_holds st tt o1 o2 H1 H2) as (st' & tt' & -> & H1' & H2').
  destruct (migrates o1 o2); cbn [andb]; [|by exists st', tt']. exists (Rem xpath bittorr st'), tt'.
  split_and!; [done| |done]. by eapply holds_Rem.
Qed.
End migration_proofs.

(** ** The specification *)

Record Abs := MkAbs { a_json : option BTSets; a_bbolt : option BTSets; a_route : bool; a_cur : BTSets }.

(** The settings in the place [b] and in the other one. *)
Definition place (b : bool) (a : Abs) : option BTSets := if b then a_json a else a_bbolt a.

Definition put (b : bool) (o : option BTSets) (a : Abs) : Abs :=
  if b then MkAbs o (a_bbolt a) (a_route a) (a_cur a) else MkAbs (a_json a) o (a_route a) (a_cur a).

Definition use (s : BTSets) (a : Abs) : Abs := MkAbs (a_json a) (a_bbolt a) (a_route a) s.

Definition a_save (s : BTSets) (a : Abs) : Abs := use (checked s) (put (a_route a) (Some (checked s)) a).

Definition raised (s : BTSets) : BTSets := if ReaderReadAHead s <? 5 then set_readahead 5 s else s.

Definition preference (storage : string) (oj ob : option BTSets) : bool :=
  match oj, ob with
  | Some s, _ | None, Some s => StoreSettingsInJson s
  | None, None => bool_decide (storage = "") || bool_decide (storage = "json")
  end.

(** A copy to the place [b], with or without clearing the other one. *)
Definition a_migrate (b clear : bool) (a : Abs) : Abs :=
  if migrates (place (negb b) a) (place b a) then
    let moved := put b (place (negb b) a) a in if clear then put (negb b) None moved else moved
  else a.

Definition a_load (a : Abs) : Abs :=
  match place (a_route a) a with
  | Some s => use (raised s) a
  | None => use default_sets (put (a_route a) (Some default_sets) a)
  end.

Definition a_start (storage : string) (oj ob : option BTSets) : Abs :=
  let b := preference storage oj ob in
  let a := a_load (a_migrate b true (MkAbs oj ob b default_sets)) in
  if bool_decide (StoreSettingsInJson (a_cur a) = b) then a else a_save (set_store b (a_cur a)) a.

Definition a_prefer (pref : option string) (a : Abs) : Abs :=
  match pref with
  | Some p =>
      let b := bool_decide (p = "json") in
      if bool_decide (p ≠ "") && negb (eqb (StoreSettingsInJson (a_cur a)) b)
      then a_migrate b false (a_save (set_store b (a_cur a)) a)
      else a
  | None => a
  end.

(** What is done with the engine: settings are saved, a search ends, the place is
    changed, the program is started again on the same stores. *)
Inductive action := Save (s : BTSets) | Searched (path : string) | Prefer (pref : option string) | Start (storage : string).

Definition a_act (x : action) (a : Abs) : Abs :=
  match x with
  | Save s => a_save s a
  | Searched p => use (set_path p (a_cur a)) a
  | Prefer p => a_prefer p a
  | Start storage => a_start storage (a_json a) (a_bbolt a)
  end.

(** ** The engine simulates the specification *)

Section simulation.
Context `{HSJ : SetsJson} `{HM : !MapRange} `{HS : !SliceSort}.
Context {TDB : Type} `{HT : !GoStormDB TDB} `{HSS : !SettingsStore TDB}.

Definition act (x : action) (e : Engine (TDB := TDB)) : Engine :=
  match x with
  | Save s => SetBTSets false s e
  | Searched p => tsc_found p e
  | Prefer p => (SetStoragePreferences false p e).2
  | Start storage => match stores e with Some (j, b) => InitSets false "" storage j b | None => e end
  end.

Definition action_ok (x : action) : Prop :=
  match x with
  | Save s => representable s
  | Searched p => text_ok p ∧ p ≠ ""
  | Prefer _ | Start _ => True
  end.

Record sim (e : Engine) (a : Abs) : Prop := {
  sim_cur : BTsets e = Some (a_cur a);
  sim_ok : representable (a_cur a);
  sim_db : ∃ r lc dc j b,
    tdb e = MkCache (Some r) (Some lc) (Some dc) ∧
    getDBForXPath xpath r = Some (if a_route a then jsonDB_id else bboltDB_id) ∧
    heap r !! jsonDB_id = Some (inl j) ∧ heap r !! bboltDB_id = Some (inr b) ∧
    holds j (a_json a) ∧ holds b (a_bbolt a);
}.

(** *** The settings stay representable *)

Ltac by_fields :=
  intros [Hn Ht]; unfold numbers, texts in *; split;
  [repeat (apply Forall_cons in Hn as [? Hn])|repeat (apply Forall_cons in Ht as [? Ht])];
  repeat (apply Forall_cons; split); try apply Forall_nil; cbn; repeat case_match; try done;
  unfold exact_number in *; try lia.

Lemma representable_checked s : representable s → representable (checked s).
Proof. by_fields. Qed.

Lemma representable_store b s : representable s → representable (set_store b s).
Proof. by_fields. Qed.

Lemma representable_path p s : text_ok p → representable s → representable (set_path p s).
Proof. intros Hp. by_fields. Qed.

Lemma representable_raised s : representable s → representable (raised s).
Proof. unfold raised. destruct (_ <? _); [|done]. by_fields. Qed.

Lemma representable_default : representable default_sets.
Proof.
  split; repeat (apply Forall_cons; split); try apply Forall_nil; cbn; try apply text_ok_empty; unfold exact_number; lia.
Qed.

(** *** Each step *)

Lemma router_Set (r : XPathDBRouter (JsonDB + TDB)) id v :
  getDBForXPath xpath r = Some id →
  Set_ xpath bittorr v r = MkRouter (dbs r) (routes r) (route2db r) (alter (Set_ xpath bittorr v) id (heap r)).
Proof. intros Hr. cbn [Set_ Router_GoStormDB]. unfold Router_Set, on_db. by rewrite Hr. Qed.

(** Writing a text of the settings through the stack. *)
Lemma sim_Set e a s :
  sim e a → representable s →
  sim (tdb_Set false xpath bittorr (encode_sets s) (MkEngine (tdb e) (Some s))) (use s (put (a_route a) (Some s) a)).
Proof.
  intros [_ _ (r & lc & dc & j & b & He & Hr & Hj & Hb & Hhj & Hhb)] Hs. split; [by destruct a as [? ? []]|done|].
  pose proof (text_encode s Hs) as Ht. cbn [tdb_Set tdb BTsets]. rewrite He. cbn [Cache_Set dataCache c_db listCache].
  rewrite (router_Set r _ _ Hr).
  destruct (a_route a) eqn:Hra; eexists _, _, _;
    [exists (Set_ xpath bittorr (encode_sets s) j), b|exists j, (Set_ xpath bittorr (encode_sets s) b)];
    (split; [reflexivity|]); cbn [heap]; destruct a as [oj ob rt c]; cbn in Hra; subst rt;
    (split_and!; [done| | |first [done|by eapply holds_Set]..]).
  - by rewrite lookup_alter_eq, Hj.
  - by rewrite lookup_alter_ne.
  - by rewrite lookup_alter_ne.
  - by rewrite lookup_alter_eq, Hb.
Qed.

Lemma SetBTSets_sim e a s : sim e a → representable s → sim (SetBTSets false s e) (a_save s a).
Proof. intros Hs Hr. apply sim_Set; [done|by apply representable_checked]. Qed.

Lemma stores_sim e a : sim e a → ∃ j b, stores e = Some (j, b) ∧ holds j (a_json a) ∧ holds b (a_bbolt a).
Proof.
  intros [_ _ (r & lc & dc & j & b & He & Hr & Hj & Hb & Hhj & Hhb)]. exists j, b.
  unfold stores. rewrite He. cbn [c_db mbind option_bind]. by rewrite Hj, Hb.
Qed.

Lemma put_stores_sim e a a' j b :
  sim e a → a_route a' = a_route a → a_cur a' = a_cur a → holds j (a_json a') → holds b (a_bbolt a') →
  sim (put_stores j b e) a'.
Proof.
  intros [Hc Hk (r & lc & dc & j0 & b0 & He & Hr & Hj & Hb & _ & _)] Ha1 Ha2 Hhj Hhb.
  split; [by rewrite Ha2|by rewrite Ha2|]. unfold put_stores. rewrite He. cbn [tdb c_db listCache dataCache fmap option_fmap option_map].
  eexists _, lc, dc, j, b. split; [done|]. rewrite Ha1. cbn [heap].
  split_and!; [by rewrite <- Hr|by rewrite lookup_insert_eq|by rewrite lookup_insert_ne, lookup_insert_eq|done|done].
Qed.

(** What a copy leaves in the two stores. *)
Lemma MigrateSettings_sim (b : bool) j t a :
  holds j (a_json a) → holds t (a_bbolt a) →
  ∃ j' t', (if b then MigrateSettingsToJson t j else MigrateSettingsFromJson j t) = (None, (j', t')) ∧
    holds j' (a_json (a_migrate b false a)) ∧ holds t' (a_bbolt (a_migrate b false a)).
Proof.
  intros Hj Ht. destruct a as [oj ob rt c]. cbn in *. unfold a_migrate, place. destruct b; cbn [negb a_json a_bbolt].
  - unfold MigrateSettingsToJson. destruct (MigrateSingle_holds t j ob oj Ht Hj) as (t' & j' & -> & H1 & H2).
    exists j', t'. by destruct (migrates ob oj).
  - unfold MigrateSettingsFromJson. destruct (MigrateSingle_holds j t oj ob Hj Ht) as (j' & t' & -> & H1 & H2).
    exists j', t'. by destruct (migrates oj ob).
Qed.

Lemma applyCleanMigrations_sim (b : bool) j t a :
  holds j (a_json a) → holds t (a_bbolt a) →
  ∃ j' t', applyCleanMigrations b j t = (j', t') ∧
    holds j' (a_json (a_migrate b true a)) ∧ holds t' (a_bbolt (a_migrate b true a)).
Proof.
  intros Hj Ht. destruct a as [oj ob rt c]. cbn in *. unfold a_migrate, place, applyCleanMigrations.
  destruct b; cbn [negb a_json a_bbolt].
  - destruct (safeMigrate_holds t j ob oj Ht Hj) as (t' & j' & -> & H1 & H2). exists j', t'. by destruct (migrates ob oj).
  - destruct (safeMigrate_holds j t oj ob Hj Ht) as (j' & t' & -> & H1 & H2). exists j', t'. by destruct (migrates oj ob).
Qed.

Lemma a_migrate_keeps b c a : a_route (a_migrate b c a) = a_route a ∧ a_cur (a_migrate b c a) = a_cur a.
Proof. unfold a_migrate, put. repeat case_match; done. Qed.

Lemma Prefer_sim e a p : sim e a → sim (SetStoragePreferences false p e).2 (a_prefer p a).
Proof.
  intros Hs. pose proof Hs as [Hc Hk _]. unfold SetStoragePreferences, a_prefer. rewrite Hc.
  destruct p as [p|]; [|done]. destruct (_ && _); [|done]. set (b := bool_decide (p = "json")).
  unfold SwitchSettingsStorage. destruct (stores_sim e a Hs) as (j0 & b0 & -> & _ & _). rewrite Hc.
  assert (sim (SetBTSets false (set_store b (a_cur a)) (MkEngine (tdb e) (Some (set_store b (a_cur a)))))
              (a_save (set_store b (a_cur a)) a)) as Hs'.
  { apply (SetBTSets_sim e a (set_store b (a_cur a)) Hs). by apply representable_store. }
  destruct (stores_sim _ _ Hs') as (j & t & -> & Hj & Ht).
  destruct (MigrateSettings_sim b j t _ Hj Ht) as (j' & t' & -> & Hj' & Ht'). cbn [snd].
  destruct (a_migrate_keeps b false (a_save (set_store b (a_cur a)) a)). by eapply put_stores_sim.
Qed.

(** *** The start *)

Lemma determine_sim storage (j : JsonDB) (t : TDB) oj ob :
  holds j oj → holds t ob →
  ∃ j' t', determineStoragePreferences storage j t = (preference storage oj ob, (j', t')) ∧ holds j' oj ∧ holds t' ob.
Proof.
  intros Hj Ht. unfold determineStoragePreferences, loadExistingSettings.
  destruct (holds_Get j _ Hj) as (buf & j' & -> & Hj' & Hb).
  destruct oj as [s|].
  { destruct Hb as (v & Hv & ->). cbn [mbind option_bind]. rewrite (text_decode s v Hv). by exists j', t. }
  subst buf. cbn [mbind option_bind]. destruct (holds_Get t _ Ht) as (buf & t' & -> & Ht' & Hb). exists j', t'.
  destruct ob as [s|]; [|by subst buf]. destruct Hb as (v & Hv & ->). cbn [mbind option_bind]. by rewrite (text_decode s v Hv).
Qed.

(** Reading through the router: the answer of the store, which may change by it. *)
Lemma router_Get (r : XPathDBRouter (JsonDB + TDB)) rt j t oj ob :
  getDBForXPath xpath r = Some (if rt : bool then jsonDB_id else bboltDB_id) →
  heap r !! jsonDB_id = Some (inl j) → heap r !! bboltDB_id = Some (inr t) → holds j oj → holds t ob →
  ∃ buf r' j' t', Get xpath bittorr r = (buf, r') ∧
    getDBForXPath xpath r' = Some (if rt then jsonDB_id else bboltDB_id) ∧
    heap r' !! jsonDB_id = Some (inl j') ∧ heap r' !! bboltDB_id = Some (inr t') ∧ holds j' oj ∧ holds t' ob ∧
    match (if rt then oj else ob) with Some s => ∃ v, text_of s v ∧ buf = Some v | None => buf = None end.
Proof.
  intros Hr Hj Ht Hhj Hht. cbn [Get Router_GoStormDB]. unfold Router_Get, db_of, on_db. rewrite Hr. cbn [mbind option_bind].
  destruct rt.
  - rewrite Hj. cbn [mbind option_bind]. destruct (holds_Get j _ Hhj) as (buf & j' & Hg & Hhj' & Hb).
    assert (Get xpath bittorr (inl j : JsonDB + TDB) = (buf, inl j')) as Hg' by (injection Hg as <- <-; done).
    eexists buf, _, j', t. rewrite Hg'. split_and!; [reflexivity|by rewrite <- Hr| | |done..]; cbn [heap].
    + rewrite lookup_alter_eq, Hj. cbn [fmap option_fmap option_map]. by rewrite Hg'.
    + by rewrite lookup_alter_ne.
  - rewrite Ht. cbn [mbind option_bind]. destruct (holds_Get t _ Hht) as (buf & t' & Hg & Hht' & Hb).
    assert (Get xpath bittorr (inr t : JsonDB + TDB) = (buf, inr t')) as Hg' by (cbn; by rewrite Hg).
    eexists buf, _, j, t'. rewrite Hg'. split_and!; [reflexivity|by rewrite <- Hr| | |done..]; cbn [heap].
    + by rewrite lookup_alter_ne.
    + rewrite lookup_alter_eq, Ht. cbn [fmap option_fmap option_map]. by rewrite Hg'.
Qed.

Lemma holds_representable {S} `{!GoStormDB S} `{!SettingsStore S} (st : S) s : holds st (Some s) → representable s.
Proof. intros [_ (v & [Hr _] & _)]. done. Qed.

Lemma loadBTSets_sim rt j t oj ob :
  holds j oj → holds t ob →
  sim (loadBTSets false (MkEngine (setupDatabaseRouting rt j t) None)) (a_load (MkAbs oj ob rt default_sets)).
Proof.
  intros Hj Ht. unfold loadBTSets, setupDatabaseRouting, NewDBReadCache. cbn [tdb Cache_Get dataCache c_db].
  set (r := register_all _ _). rewrite lookup_empty.
  assert (getDBForXPath xpath r = Some (if rt then jsonDB_id else bboltDB_id)) as Hr.
  { unfold r. rewrite setup_target by (by left). by destruct rt. }
  assert (heap r !! jsonDB_id = Some (inl j) ∧ heap r !! bboltDB_id = Some (inr t)) as [Hj0 Ht0].
  { unfold r. rewrite register_all_heap. done. }
  destruct (router_Get r rt j t oj ob Hr Hj0 Ht0 Hj Ht) as (buf & r' & j' & t' & -> & Hr' & Hj' & Ht' & Hhj & Hht & Hb).
  cbn [cache_put c_db listCache dataCache fmap option_fmap option_map BTsets tdb].
  assert (∀ s, representable s → sim (MkEngine (MkCache (Some r') (Some ∅) (Some (<[(xpath, bittorr) := buf]> ∅))) (Some s))
                                    (MkAbs oj ob rt s)) as Hsim.
  { intros s Hs. split; [done|done|]. eexists _, _, _, j', t'. split; [reflexivity|done]. }
  unfold a_load, place. cbn [a_route a_json a_bbolt].
  destruct (if rt then oj else ob) as [s|] eqn:Ho.
  - destruct Hb as (v & Hv & ->). cbn [default from_option id].
    rewrite (text_nonempty s v Hv), (text_decode s v Hv). apply Hsim, representable_raised, Hv.
  - subst buf. cbn [default from_option is_nil].
    apply (sim_Set (MkEngine _ (Some default_sets)) (MkAbs oj ob rt default_sets) default_sets), representable_default.
    apply Hsim, representable_default.
Qed.

Lemma InitSets_sim storage j t oj ob :
  holds j oj → holds t ob → sim (InitSets false "" storage j t) (a_start storage oj ob).
Proof.
  intros Hj Ht. unfold InitSets. rewrite bool_decide_eq_true_2 by done.
  destruct (determine_sim storage j t oj ob Hj Ht) as (j1 & t1 & -> & Hj1 & Ht1).
  unfold a_start. set (b := preference storage oj ob).
  destruct (applyCleanMigrations_sim b j1 t1 (MkAbs oj ob b default_sets) Hj1 Ht1) as (j2 & t2 & -> & Hj2 & Ht2).
  pose proof (loadBTSets_sim b j2 t2 _ _ Hj2 Ht2) as Hs.
  destruct (a_migrate_keeps b true (MkAbs oj ob b default_sets)) as [Hk1 Hk2].
  replace (MkAbs (a_json _) (a_bbolt _) b default_sets) with (a_migrate b true (MkAbs oj ob b default_sets)) in Hs
    by (destruct (a_migrate _ _ _); cbn in *; congruence).
  rewrite (sim_cur _ _ Hs). destruct (bool_decide _); [done|].
  apply (SetBTSets_sim _ _ _ Hs). by apply representable_store, (sim_ok _ _ Hs).
Qed.

(** Every action keeps the simulation. *)
Lemma act_sim x e a : action_ok x → sim e a → sim (act x e) (a_act x a).
Proof.
  intros Hx Hs. destruct x as [s|p|p|storage]; cbn [act a_act].
  - by apply SetBTSets_sim.
  - destruct Hx as [Hp _]. destruct Hs as [Hc Hk Hd]. split; [unfold tsc_found; cbn; by rewrite Hc|by apply representable_path|done].
  - by apply Prefer_sim.
  - destruct (stores_sim e a Hs) as (j & t & -> & Hj & Ht). by apply InitSets_sim.
Qed.

Definition run (l : list action) (e : Engine) : Engine := foldl (λ e x, act x e) e l.

Lemma run_sim l e a : Forall action_ok l → sim e a → sim (run l e) (foldl (λ a x, a_act x a) a l).
Proof. intros Hl. revert e a. induction Hl as [|x l Hx Hl IH]; intros e a Hs; [done|]. by apply IH, act_sim. Qed.
End simulation.

(** ** Limits *)

Ltac zcases :=
  repeat match goal with
  | |- context [?x <? ?y] => destruct (Z.ltb_spec x y)
  | _ : context [?x <? ?y] |- _ => destruct (Z.ltb_spec x y)
  | |- context [?x <=? ?y] => destruct (Z.leb_spec x y)
  end.

Lemma checked_limits s : within_limits (checked s).
Proof. split; cbn -[bool_decide]; zcases; try lia. by case_bool_decide. Qed.

Lemma checked_id s : within_limits s → checked s = s.
Proof.
  intros [H1 H2 H3 H4 H5 H6]. destruct s; unfold checked; cbn -[bool_decide] in *.
  f_equal; zcases; try lia; []. case_bool_decide; [|done]. destruct UseDisk0; [by destruct H6|done].
Qed.

Lemma default_limits : within_limits default_sets.
Proof. by split; cbn; try lia. Qed.

Lemma set_store_limits b s : within_limits s → within_limits (set_store b s).
Proof. intros []. by split. Qed.

Lemma set_path_limits p s : p ≠ "" → within_limits s → within_limits (set_path p s).
Proof. intros Hp []. by split. Qed.

Lemma raised_id s : within_limits s → raised s = s.
Proof. intros [_ _ _ H _ _]. unfold raised. destruct (Z.ltb_spec (ReaderReadAHead s) 5); [lia|done]. Qed.

(** ** Settings in one place *)

Lemma migrates_none tgt : migrates None tgt = false.
Proof. apply bool_decide_eq_false_2. naive_solver. Qed.

Lemma migrates_missing s : migrates (Some s) None = true.
Proof. by apply bool_decide_eq_true_2. Qed.

Lemma migrates_same s : migrates (Some s) (Some s) = false.
Proof. apply bool_decide_eq_false_2. naive_solver. Qed.

(** [last] is in the store in use and nowhere else. *)
Record settled (a : Abs) (last : BTSets) : Prop := {
  st_here : place (a_route a) a = Some last;
  st_there : place (negb (a_route a)) a = None;
  st_last : within_limits last;
  st_cur : within_limits (a_cur a);
}.

(** The settings saved last, from the ones of the first start. *)
Definition first_saved (storage : string) : BTSets := set_store (preference storage None None) default_sets.

Definition last_saved (storage : string) (l : list action) : BTSets :=
  foldl (λ last x, match x with Save s => checked s | _ => last end) (first_saved storage) l.

Definition prefers (x : action) : bool := match x with Prefer _ => true | _ => false end.

Lemma settled_start storage a last :
  settled a last →
  let a' := a_start storage (a_json a) (a_bbolt a) in
  settled a' last ∧ a_cur a' = last ∧ a_route a' = StoreSettingsInJson last.
Proof.
  intros [H1 H2 H3 H4]. destruct a as [oj ob rt c]. cbn [a_json a_bbolt a_route a_cur place] in *.
  assert (preference storage oj ob = StoreSettingsInJson last) as Hp by (destruct rt; cbn in *; subst; done).
  unfold a_start. rewrite Hp. unfold a_migrate, a_load.
  destruct rt; cbn [negb place a_json a_bbolt] in *; subst oj ob;
    destruct (StoreSettingsInJson last) eqn:Hst; cbn [negb place a_json a_bbolt];
    rewrite ?migrates_none, ?migrates_missing;
    cbn [place put negb a_json a_bbolt a_route use a_cur]; rewrite raised_id, Hst by done;
    rewrite bool_decide_eq_true_2 by done; (split; [by split|done]).
Qed.

Lemma settled_act x a last :
  prefers x = false → (∀ p, x = Searched p → p ≠ "") → settled a last →
  settled (a_act x a) (match x with Save s => checked s | _ => last end).
Proof.
  intros Hx Hp Hs. destruct x as [s|p|p|storage]; [| |done|by apply settled_start].
  - destruct Hs as [H1 H2 _ _], a as [oj ob rt c]. destruct rt; cbn in *; split; try done; apply checked_limits.
  - destruct Hs as [H1 H2 H3 H4]. split; try done. by apply set_path_limits; [apply Hp|].
Qed.

Lemma settled_first storage : settled (a_start storage None None) (first_saved storage).
Proof.
  assert (∀ b, within_limits (set_store b default_sets)) as Hl by (intros b; apply set_store_limits, default_limits).
  unfold a_start, first_saved, preference. set (b := (_ || _)). destruct b.
  - split; try done; apply default_limits.
  - split; cbn; rewrite ?(checked_id (set_store false default_sets)) by done; try done; apply Hl.
Qed.

(** Moving the settings leaves them in both places; *)
Lemma prefer_leaves_both a last :
  settled a last → a_cur a = last → a_route a = StoreSettingsInJson last →
  let b := negb (StoreSettingsInJson last) in
  a_prefer (Some (if b then "json" else "bbolt")) a =
    MkAbs (Some (set_store b last)) (Some (set_store b last)) (negb b) (set_store b last).
Proof.
  intros [H1 H2 H3 _] Hc Hr b. pose proof (checked_id _ (set_store_limits b last H3)) as Hid.
  destruct a as [oj ob rt c]. cbn [a_cur a_route] in *. subst c rt. unfold a_prefer, a_save. cbn [a_cur a_route]. unfold b in *.
  destruct (StoreSettingsInJson last) eqn:Hst; cbn [negb place a_json a_bbolt] in *; subst oj ob;
    rewrite bool_decide_eq_true_2 by done; cbn [andb eqb negb];
    [change (bool_decide ("bbolt" = "json")) with false|change (bool_decide ("json" = "json")) with true]; cbn [negb eqb];
    rewrite Hid; unfold a_migrate; cbn [use put place negb a_json a_bbolt a_route a_cur]; by rewrite migrates_missing.
Qed.

(** the start leaves them there; *)
Lemma start_leaves_both storage s :
  within_limits s → a_start storage (Some s) (Some s) = MkAbs (Some s) (Some s) (StoreSettingsInJson s) s.
Proof.
  intros Hs. unfold a_start, a_migrate, a_load, preference.
  destruct (StoreSettingsInJson s) eqn:Hst; cbn [place negb a_json a_bbolt a_route];
    rewrite migrates_same; cbn [place negb a_json a_bbolt a_route use a_cur];
    rewrite raised_id, Hst by done; by rewrite bool_decide_eq_true_2.
Qed.

(** and the next one, after a change in one place, takes the other one. *)
Lemma stale_copy_wins storage b s s' :
  within_limits s → StoreSettingsInJson s = b → StoreSettingsInJson s' = b →
  a_cur (a_start storage (Some (if b then s' else s)) (Some (if b then s else s'))) = s.
Proof.
  intros Hs Hb Hb'. unfold a_start, a_migrate, a_load, preference.
  destruct (decide (s = s')) as [<-|Hne].
  { destruct b; rewrite Hb; cbn [place negb a_json a_bbolt a_route]; rewrite migrates_same;
      cbn [place put negb a_json a_bbolt a_route use a_cur]; rewrite raised_id, Hb by done; by rewrite bool_decide_eq_true_2. }
  assert (migrates (Some s) (Some s') = true) as Hm by (apply bool_decide_eq_true_2; naive_solver).
  destruct b; rewrite ?Hb, ?Hb'; cbn [place negb a_json a_bbolt a_route]; rewrite Hm;
    cbn [place put negb a_json a_bbolt a_route use a_cur]; rewrite raised_id, Hb by done; by rewrite bool_decide_eq_true_2.
Qed.

Section histories.
Context `{HSJ : SetsJson} `{HM : !MapRange} `{HS : !SliceSort}.
Context {TDB : Type} `{HT : !GoStormDB TDB} `{HSS : !SettingsStore TDB}.
Context (j : JsonDB) (t : TDB) (fresh_json : holds j None) (fresh_bbolt : holds t None).

Lemma settled_run storage l :
  Forall action_ok l → forallb (negb ∘ prefers) l = true →
  ∃ a, sim (run l (InitSets false "" storage j t)) a ∧ settled a (last_saved storage l).
Proof using fresh_json fresh_bbolt.
  intros Hl Hn. pose proof (InitSets_sim storage j t None None fresh_json fresh_bbolt) as Hs.
  pose proof (settled_first storage) as Hst. exists (foldl (λ a x, a_act x a) (a_start storage None None) l).
  split; [by apply run_sim|]. unfold last_saved.
  set (e := InitSets _ _ _ _ _) in *. clearbody e. revert Hst. generalize (a_start storage None None), (first_saved storage). clear Hs.
  induction Hl as [|x l Hx Hl IH]; intros a last Hst; [done|]. cbn [foldl forallb] in *.
  apply andb_true_iff in Hn as [Hp%negb_true_iff Hn]. apply IH; [done|].
  apply settled_act; [done| |done]. intros p ->. apply Hx.
Qed.
End histories.

(** C37: settings survive restarts: on a fresh installation, after any saves,
    searches for a cache directory and restarts, the settings in use are within
    their limits, and the program started again on the same stores uses exactly the
    settings that were saved last (checked), wherever they asked to be kept; before
    the first save, the defaults. *)
Theorem saved_settings_survive_restarts `{SetsJson} `{!MapRange} `{!SliceSort} {TDB : Type} `{!GoStormDB TDB} `{!SettingsStore TDB}
    (j : JsonDB) (t : TDB) (storage storage' : string) (l : list action) :
  holds j None → holds t None → Forall action_ok l → forallb (negb ∘ prefers) l = true →
  let e := run l (InitSets false "" storage j t) in
  (∃ s, BTsets e = Some s ∧ within_limits s) ∧
  BTsets (act (Start storage') e) = Some (last_saved storage l).
Proof.
  intros Hj Ht Hl Hn e. destruct (settled_run j t Hj Ht storage l Hl Hn) as (a & Hs & Hst). fold e in Hs. split.
  - exists (a_cur a). split; [apply Hs|apply Hst].
  - pose proof (act_sim (Start storage') e a I Hs) as [Hc _ _]. rewrite Hc. cbn [a_act].
    destruct (settled_start storage' a _ Hst) as (_ & -> & _). done.
Qed.

(** C38: moving the settings to the other store undoes a later change: the copy
    in the store they were moved from stays, the restart finds the two alike and
    leaves it, and once settings have been saved the next restart takes the old copy
    for settings to be migrated and writes it over the new ones. *)
Theorem switched_storage_reverts `{SetsJson} `{!MapRange} `{!SliceSort} {TDB : Type} `{!GoStormDB TDB} `{!SettingsStore TDB}
    (j : JsonDB) (t : TDB) (storage : string) (l : list action) (s : BTSets) :
  holds j None → holds t None → Forall action_ok l → forallb (negb ∘ prefers) l = true →
  let old := last_saved storage l in
  let b := negb (StoreSettingsInJson old) in
  representable s → StoreSettingsInJson s = b →
  let moved := [Start storage; Prefer (Some (if b then "json" else "bbolt")); Start storage; Save s] in
  let e := run (l ++ moved)%list (InitSets false "" storage j t) in
  BTsets e = Some (checked s) ∧ BTsets (act (Start storage) e) = Some (set_store b old).
Proof.
  intros Hj Ht Hl Hn old b Hs Hb moved e. destruct (settled_run j t Hj Ht storage l Hl Hn) as (a & Hsim & Hst).
  assert (sim e (foldl (λ a x, a_act x a) a moved)) as He.
  { unfold e, run. rewrite foldl_app. apply run_sim; [|done]. repeat (apply Forall_cons; split); by try apply Forall_nil. }
  pose proof (act_sim (Start storage) e _ I He) as [Hc _ _]. rewrite Hc, (sim_cur _ _ He). clear He Hc Hsim e.
  destruct (settled_start storage a old Hst) as (Hst' & Hcur & Hrt). unfold moved. cbn [foldl a_act].
  pose proof (prefer_leaves_both _ old Hst' Hcur Hrt) as Hpl. cbn zeta in Hpl. fold b in Hpl. rewrite Hpl. cbn [a_json a_bbolt].
  pose proof (set_store_limits b old (st_last _ _ Hst)) as Hlim. rewrite start_leaves_both by done. split; [done|]. f_equal.
  etransitivity; [|exact (stale_copy_wins storage b (set_store b old) (checked s) Hlim eq_refl Hb)].
  clear -b. clearbody b. by destruct b.
Qed.

(** ** Starts of a program that may not write *)

Section read_only.
Context `{HSJ : SetsJson} `{HM : !MapRange} `{HS : !SliceSort}.
Context {TDB : Type} `{HT : !GoStormDB TDB} `{HSS : !SettingsStore TDB}.

Lemma load_same rt (j : JsonDB) (t : TDB) oj ob s :
  holds j oj → holds t ob → (if rt : bool then oj else ob) = Some s →
  let e := MkEngine (setupDatabaseRouting rt j t) None in loadBTSets true e = loadBTSets false e.
Proof.
  intros Hj Ht Ho. cbn zeta. unfold loadBTSets, setupDatabaseRouting, NewDBReadCache. cbn [tdb Cache_Get dataCache c_db].
  set (r := register_all _ _). rewrite lookup_empty.
  assert (getDBForXPath xpath r = Some (if rt then jsonDB_id else bboltDB_id)) as Hr.
  { unfold r. rewrite setup_target by (by left). by destruct rt. }
  assert (heap r !! jsonDB_id = Some (inl j) ∧ heap r !! bboltDB_id = Some (inr t)) as [Hj0 Ht0].
  { unfold r. rewrite register_all_heap. done. }
  destruct (router_Get r rt j t oj ob Hr Hj0 Ht0 Hj Ht) as (buf & r' & j' & t' & -> & _ & _ & _ & _ & _ & Hb).
  rewrite Ho in Hb. destruct Hb as (v & Hv & ->). cbn [default from_option id].
  by rewrite (text_nonempty s v Hv), (text_decode s v Hv).
Qed.
End read_only.

(** A start in read-only mode still migrates: settings in bbolt that ask to be
    kept in JSON files are moved there and removed from bbolt. *)
Theorem read_only_start_moves `{SetsJson} `{!MapRange} `{!SliceSort} {TDB : Type} `{!GoStormDB TDB} `{!SettingsStore TDB}
    (j : JsonDB) (t : TDB) (storage : string) (s : BTSets) :
  holds j None → holds t (Some s) → StoreSettingsInJson s = true →
  ∃ j' t', stores (InitSets true "" storage j t) = Some (j', t') ∧ holds j' (Some s) ∧ holds t' None.
Proof.
  intros Hj Ht Hs. unfold InitSets. rewrite bool_decide_eq_true_2 by done.
  destruct (determine_sim storage j t _ _ Hj Ht) as (j1 & t1 & -> & Hj1 & Ht1). cbn [preference]. rewrite Hs.
  destruct (applyCleanMigrations_sim true j1 t1 (MkAbs None (Some s) true s) Hj1 Ht1) as (j2 & t2 & -> & Hj2 & Ht2).
  unfold a_migrate in Hj2, Ht2. cbn [place negb a_json a_bbolt] in Hj2, Ht2. rewrite migrates_missing in Hj2, Ht2.
  cbn [place put negb a_json a_bbolt] in Hj2, Ht2.
  rewrite (load_same true j2 t2 (Some s) None s Hj2 Ht2) by done.
  pose proof (loadBTSets_sim true j2 t2 _ _ Hj2 Ht2) as Hsim. unfold a_load in Hsim. cbn [place a_route a_json] in Hsim.
  rewrite (sim_cur _ _ Hsim). cbn [use a_cur]. rewrite bool_decide_eq_true_2 by (unfold raised; by case_match).
  by apply (stores_sim _ _ Hsim).
Qed.

(** ** Torrents of the old database *)

Section old_torrent_proofs.
Context `{HTJ : !TorrentJson} {S : Type} `{HD : !GoStormDB S} (okp : string → Prop) (okv : string → bytes → Prop) `{HK : !KVStore S okp okv}.
Context (torrents_path : okp "Torrents") (torrents_ok : ∀ t, okv "Torrents" (encode t)).

Lemma AddTorrent_view t s k :
  kv_inv s → kv_inv (AddTorrent t s) ∧
  kv_view (AddTorrent t s) "Torrents" k = if decide (k = torrent_key t) then Some (encode t) else kv_view s "Torrents" k.
Proof using torrents_path torrents_ok.
  intros Hi. destruct (kv_Set s "Torrents" (torrent_key t) (encode t) Hi torrents_path (torrents_ok t)) as [H1 H2].
  split; [done|]. unfold AddTorrent. rewrite H2 by done. repeat case_decide; naive_solver.
Qed.

Context (ParseLink : string → option Spec) (DisplayName : Spec → string).

(** The last torrent with a key is the one that is stored. *)
Lemma migrate_torrents_view torrs s k :
  kv_inv s → kv_inv (migrate_torrents ParseLink DisplayName torrs s) ∧
  kv_view (migrate_torrents ParseLink DisplayName torrs s) "Torrents" k =
    match last (filter (λ t, torrent_key t = k) (omap (torrent_of ParseLink DisplayName) torrs)) with
    | Some t => Some (encode t)
    | None => kv_view s "Torrents" k
    end.
Proof using torrents_path torrents_ok.
  unfold migrate_torrents. induction torrs as [|torr torrs IH] using rev_ind; intros Hi; [done|].
  destruct (IH Hi) as [Hi' Hv]. rewrite foldl_app, omap_app. cbn [foldl omap list_omap].
  destruct (torrent_of ParseLink DisplayName torr) as [t|]; [|by rewrite app_nil_r].
  destruct (AddTorrent_view t _ k Hi') as [Hi'' Hv']. split; [done|]. rewrite Hv', Hv, filter_app, filter_cons, filter_nil.
  repeat case_decide; subst; try done; [by rewrite last_snoc|by rewrite app_nil_r].
Qed.
End old_torrent_proofs.

(** Torrents of the old database are found again: if every record can be read,
    each torrent whose link parses is in the store afterwards, unless a later one
    has its hash, and the old file is gone. *)
Theorem old_torrents_migrated `{!TorrentJson} {S : Type} `{!GoStormDB S}
    (okp : string → Prop) (okv : string → bytes → Prop) `{!KVStore S okp okv}
    (ParseLink : string → option Spec) (DisplayName : Spec → string) l torrs before torr after t (s : S) :
  okp "Torrents" → (∀ t, okv "Torrents" (encode t)) → kv_inv s →
  read_backups l = inr torrs → torrs = (before ++ torr :: after)%list → torrent_of ParseLink DisplayName torr = Some t →
  (∀ torr' t', torr' ∈ after → torrent_of ParseLink DisplayName torr' = Some t' →
     InfoHash (TorrentSpec t') ≠ InfoHash (TorrentSpec t)) →
  ∃ s', MigrateTorrents ParseLink DisplayName (OldFile l) s = Some (s', NoFile) ∧
    (GetTorrent (InfoHash (TorrentSpec t)) s').1 = Some t.
Proof.
  intros Hp Hok Hi Hl -> Ht Hafter. cbn [MigrateTorrents]. rewrite Hl.
  eexists. split; [done|]. destruct (migrate_torrents_view okp okv Hp Hok ParseLink DisplayName (before ++ torr :: after)%list s
    (torrent_key t) Hi) as [Hi' Hv].
  rewrite (GetTorrent_stored okp okv) by done. unfold stored.
  change (HexString (InfoHash (TorrentSpec t))) with (torrent_key t). rewrite Hv, omap_app.
  cbn [omap list_omap]. rewrite Ht, filter_app, filter_cons_True by done.
  change (list_omap _ _ (torrent_of ParseLink DisplayName) after) with (omap (torrent_of ParseLink DisplayName) after).
  destruct (filter (λ t0, torrent_key t0 = torrent_key t) (omap (torrent_of ParseLink DisplayName) after)) as [|t' rest] eqn:Hf; [rewrite last_snoc; apply decode_torrent_encode|].
  assert (t' ∈ t' :: rest) as Hin by left. rewrite <- Hf in Hin.
  apply list_elem_of_filter in Hin as [Hkey (torr' & Hin & Ht')%list_elem_of_omap].
  by destruct (Hafter torr' t' Hin Ht'), (HexString_inj _ _ Hkey).
Qed.

(** One record without a field loses them all: nothing is taken over, and the old
    file is removed. *)
Theorem incomplete_record_loses_all `{!TorrentJson} {S : Type} `{!GoStormDB S}
    (ParseLink : string → option Spec) (DisplayName : Spec → string) l (s : S) :
  read_backups l = inl LoadError → MigrateTorrents ParseLink DisplayName (OldFile l) s = Some (s, NoFile).
Proof. intros Hl. cbn [MigrateTorrents]. by rewrite Hl. Qed.

(** ** Examples and witnesses *)

Example finds_second_level :
  find_tsc "/srv" (Some (Folder "srv" (Some [File "a"; Folder "b" (Some [Folder ".TSC" None])]))) = Some "/srv/b/.TSC".
Proof. reflexivity. Qed.

Example misses_third_level :
  find_tsc "/srv" (Some (Folder "srv" (Some [Folder "b" (Some [Folder "c" (Some [Folder ".tsc" None])])]))) = None.
Proof. reflexivity. Qed.

(** An encoding of settings: their fields, numbers, strings and booleans apart. *)
Definition flags (s : BTSets) : list bool :=
  [UseDisk s; RemoveCacheOnDrop s; ForceEncrypt s; EnableDebug s; EnableIPv6 s; DisableTCP s; DisableUTP s;
   DisableUPNP s; DisableDHT s; DisablePEX s; DisableUpload s; ResponsiveMode s; AdaptiveShield s;
   ShowFSActiveTorr s; StoreSettingsInJson s].

Definition sets_lists (s : BTSets) : list Z * list string * list bool := (numbers s, texts s, flags s).

Definition lists_sets (x : list Z * list string * list bool) : option BTSets :=
  match x with
  | ([z0; z1; z2; z3; z4; z5; z6; z7; z8; z9],
     [s0; s1; s2; s3],
     [b0; b1; b2; b3; b4; b5; b6; b7; b8; b9; b10; b11; b12; b13; b14]) =>
      Some
          {| CacheSize := z0; ReaderReadAHead := z1; PreloadCache := z2; UseDisk := b0; TorrentsSavePath := s0;
             RemoveCacheOnDrop := b1; ForceEncrypt := b2; RetrackersMode := z3; TorrentDisconnectTimeout := z4;
             EnableDebug := b3; EnableIPv6 := b4; DisableTCP := b5; DisableUTP := b6; DisableUPNP := b7; DisableDHT := b8;
             DisablePEX := b9; DisableUpload := b10; DownloadRateLimit := z5; UploadRateLimit := z6;
             ConnectionsLimit := z7; PeersListenPort := z8; BlockListURL := s1; SslPort := z9; SslCert := s2; SslKey := s3;
             ResponsiveMode := b11; AdaptiveShield := b12; ShowFSActiveTorr := b13; StoreSettingsInJson := b14 |}
  | _ => None
  end.

#[local] Instance BTSets_Countable : Countable BTSets.
Proof. apply (inj_countable sets_lists lists_sets). by intros []. Defined.

(** The two texts of a record differ in their first byte. *)
Definition sets_text (b : byte) (s : BTSets) : bytes := b :: pos_bytes (countable.encode s).

Definition text_sets (v : bytes) : option BTSets :=
  match v with
  | (Byte.x7b | Byte.x5b) :: l => bytes_pos l ≫= countable.decode
  | _ => None
  end.

Lemma text_sets_text b s : b = Byte.x7b ∨ b = Byte.x5b → text_sets (sets_text b s) = Some s.
Proof.
  intros [-> | ->]; unfold text_sets, sets_text; rewrite bytes_pos_bytes; cbn [mbind option_bind]; apply countable.decode_encode.
Qed.

#[local] Instance sets_Json : Json := {|
  jval := BTSets;
  Unmarshal := text_sets;
  Marshal := sets_text Byte.x5b;
  Unmarshal_Marshal := λ o, text_sets_text Byte.x5b o (or_intror eq_refl);
|}.

#[local] Program Instance sets_SetsJson : SetsJson := {|
  any := BTSets;
  any_eq := BTSets_eq_dec;
  to_any := id;
  Unmarshal_any := text_sets;
  encode_sets := sets_text Byte.x7b;
  decode_sets := text_sets;
  object := id;
  text_ok := λ _, True;
|}.
Next Obligation. done. Qed.
Next Obligation. done. Qed.
Next Obligation. done. Qed.
Next Obligation. done. Qed.
Next Obligation. intros s _. by apply text_sets_text; left. Qed.
Next Obligation. intros s _. by apply text_sets_text; left. Qed.
Next Obligation. intros s _. by apply text_sets_text; right. Qed.
Next Obligation. done. Qed.

(** JSON files in the place of bbolt. *)
Lemma empty_holds : holds (MkJsonDB ∅) None.
Proof. done. Qed.

Definition sample_sets (b : bool) : BTSets := set_store b (set_readahead 50 default_sets).

Lemma sample_representable b : representable (sample_sets b).
Proof.
  split; repeat (apply Forall_cons; split); try apply Forall_nil; try exact I; cbn; unfold exact_number; lia.
Qed.

Lemma survive_restarts_witness :
  BTsets (act (TDB := JsonDB) (Start "") (run [Save (sample_sets false); Start ""] (InitSets false "" "" (MkJsonDB ∅) (MkJsonDB ∅)))) =
    Some (last_saved "" [Save (sample_sets false); Start ""]).
Proof.
  refine (proj2 (saved_settings_survive_restarts (MkJsonDB ∅) (MkJsonDB ∅) "" "" [Save (sample_sets false); Start ""] _ _ _ _)).
  - exact empty_holds.
  - exact empty_holds.
  - apply Forall_cons; split; [apply sample_representable|by repeat constructor].
  - reflexivity.
Defined.

Lemma storage_reverts_witness :
  BTsets (act (TDB := JsonDB) (Start "") (run [Start ""; Prefer (Some "bbolt"); Start ""; Save (sample_sets false)]
    (InitSets false "" "" (MkJsonDB ∅) (MkJsonDB ∅)))) = Some (set_store false default_sets).
Proof.
  refine (proj2 (switched_storage_reverts (MkJsonDB ∅) (MkJsonDB ∅) "" [] (sample_sets false) _ _ _ _ _ _)).
  - exact empty_holds.
  - exact empty_holds.
  - apply Forall_nil. exact I.
  - reflexivity.
  - apply sample_representable.
  - reflexivity.
Defined.
