(* ===== verification/IPList.v ===== *)
(** * Lists of blocked addresses (package iplist, internal/gostorm/web/blocker)

    Two components refuse addresses by lists of ranges: the torrent client, with a
    list read from a file in the P2P format ([ParseBlocklistP2PLine] and
    [IPList.Lookup] of iplist.go, [parseBlockList] of torr/utils/blockedIP.go) and
    searched by halving, and the web server, with a black and a white list
    ([Blocker], [parseLine], [scanBuf] and a search from front to back, blocker.go
    and its iplist.go). The first also has a packed form, searched in place
    (packed.go), and ranges from CIDR prefixes (cidr.go).

    A [net.IP] is its string of bytes, 4 or 16 of them; the nil slice has none.
    [net.ParseIP] is modelled for dotted addresses; the parser of the other form is
    a parameter, which no text the code passes reaches. An index out of range is
    [None]. *)

From S2P Require Import Prelude InodeMap Bencode MetaInfo.

Local Open Scope string_scope.
Local Open Scope Z_scope.

(** ** Addresses (package net) *)

Definition dot : Ascii.ascii := Ascii.ascii_of_nat 46.
Definition colon : Ascii.ascii := Ascii.ascii_of_nat 58.
Definition hyphen : Ascii.ascii := Ascii.ascii_of_nat 45.
Definition newline : Ascii.ascii := Ascii.ascii_of_nat 10.

Definition char_of (z : Z) : Ascii.ascii := Ascii.ascii_of_nat (Z.to_nat (z mod 256)).

Fixpoint zeros (n : nat) : string := match n with O => "" | S n' => String (char_of 0) (zeros n') end.

Definition v4InV6Prefix : string := zeros 10 +:+ String (char_of 255) (String (char_of 255) "").

Definition To4 (ip : string) : option string :=
  if (String.length ip =? 4)%nat then Some ip
  else if (String.length ip =? 16)%nat && bool_decide (str_take 12 ip = v4InV6Prefix) then Some (str_drop 12 ip)
  else None.

Definition To16 (ip : string) : option string :=
  if (String.length ip =? 4)%nat then Some (v4InV6Prefix +:+ ip)
  else if (String.length ip =? 16)%nat then Some ip
  else None.

(** A field of a dotted address: no leading zero, at most 255. *)
Definition octet (s : string) : option Z :=
  match s with
  | EmptyString => None
  | String c s' =>
      if (ord c =? 48) && negb (bool_decide (s' = "")) then None
      else match ParseUint s with NumOk n => if n <=? 255 then Some n else None | _ => None end
  end.

Definition parseIPv4 (s : string) : option string :=
  match split_on dot s with
  | [a; b; c; d] =>
      x ← octet a; y ← octet b; z ← octet c; w ← octet d;
      Some (String (char_of x) (String (char_of y) (String (char_of z) (String (char_of w) ""))))
  | _ => None
  end.

(** The first dot or colon decides. *)
Fixpoint kind_of (s : string) : option bool :=
  match s with
  | EmptyString => None
  | String c s' => if ord c =? 46 then Some true else if ord c =? 58 then Some false else kind_of s'
  end.

Section parsing.
Context (parseIPv6 : string → option string).

(** An IPv4 address comes in 16 bytes. *)
Definition ParseIP (s : string) : option string :=
  match kind_of s with
  | Some true => (λ v4, v4InV6Prefix +:+ v4) <$> parseIPv4 s
  | Some false => parseIPv6 s
  | None => None
  end.

Definition minifyIP (ip : string) : string := default ip (To4 ip).

(** ** Ranges and lines *)

Record Range := MkRange { First : string; Last : string; Description : string }.

Definition zero_range : Range := MkRange "" "" "".

Definition Compare : string → string → comparison := String.compare.

Definition leb (a b : string) : bool := match Compare a b with Gt => false | _ => true end.

Definition inside (r : Range) (ip : string) : bool := leb (First r) ip && leb ip (Last r).

Fixpoint IndexByte (c : Ascii.ascii) (s : string) : option nat :=
  match s with
  | EmptyString => None
  | String d s' => if bool_decide (d = c) then Some O else S <$> IndexByte c s'
  end.

Fixpoint LastIndexByte (c : Ascii.ascii) (s : string) : option nat :=
  match s with
  | EmptyString => None
  | String d s' =>
      match LastIndexByte c s' with
      | Some i => Some (S i)
      | None => if bool_decide (d = c) then Some O else None
      end
  end.

Inductive line_error := MissingColon | MissingHyphen | BadRange.

Definition blank_line (l : string) : bool := bool_decide (l = "") || String.prefix "#" l.

(** The two ends, of the same length. *)
Definition make_range (desc first last : string) : line_error + Range :=
  let parsed s := minifyIP <$> ParseIP s in
  match parsed first, parsed last with
  | Some f, Some t => if (String.length f =? String.length t)%nat then inr (MkRange f t desc) else inl BadRange
  | _, _ => inl BadRange
  end.

(** [inr None] is a line without a range. *)
Definition ParseBlocklistP2PLine (l : string) : line_error + option Range :=
  let l := TrimSpace l in
  if blank_line l then inr None
  else match LastIndexByte colon l with
       | None => inl MissingColon
       | Some i =>
           let rest := str_drop (S i) l in
           match IndexByte hyphen rest with
           | None => inl MissingHyphen
           | Some k =>
               match make_range (str_take i l) (str_take k rest) (str_drop (S k) rest) with
               | inl e => inl e
               | inr r => inr (Some r)
               end
           end
       end.

(** [parseLine] of the blocker: the description and the second end may be missing. *)
Definition parseLine (l : string) : line_error + option Range :=
  let l := TrimSpace l in
  if blank_line l then inr None
  else
    let '(desc, rest) := match LastIndexByte colon l with
      | Some i => (str_take i l, str_drop (S i) l)
      | None => ("", l)
      end in
    let '(first, last) := match IndexByte hyphen rest with
      | Some k => (str_take k rest, str_drop (S k) rest)
      | None => (rest, rest)
      end in
    match make_range desc first last with
    | inl e => inl e
    | inr r => inr (Some r)
    end.

(** [bufio.Scanner]: lines without their end; a line that does not fit the buffer
    ends the scan with an error. *)
Definition MaxScanTokenSize : nat := 65536.

Fixpoint drop_cr (s : string) : string :=
  match s with
  | EmptyString => ""
  | String c EmptyString => if ord c =? 13 then "" else s
  | String c s' => String c (drop_cr s')
  end.

Fixpoint scan_pieces (l : list string) : list string * bool :=
  match l with
  | [] | [""] => ([], true)
  | s :: l' =>
      if (MaxScanTokenSize <=? String.length s)%nat then ([], false)
      else let '(lines, ok) := scan_pieces l' in (drop_cr s :: lines, ok)
  end.

Definition scan_lines (buf : string) : list string * bool := scan_pieces (split_on newline buf).

(** [NewFromReader]: the first bad line is the error, with its number; [inl None] is
    the error of the scanner. *)
Fixpoint reader_loop (lineNum : Z) (lines : list string) : option (Z * line_error) + list Range :=
  match lines with
  | [] => inr []
  | l :: lines' =>
      match ParseBlocklistP2PLine l with
      | inl e => inl (Some (lineNum, e))
      | inr o =>
          match reader_loop (lineNum + 1) lines' with
          | inl e => inl e
          | inr rs => inr (match o with Some r => r :: rs | None => rs end)
          end
      end
  end.

Definition NewFromReader (buf : string) : option (Z * line_error) + list Range :=
  let '(lines, ok) := scan_lines buf in
  match reader_loop 1 lines with
  | inl e => inl e
  | inr rs => if ok : bool then inr rs else inl None
  end.

(** [parseBlockList] skips bad lines; [None] is the nil list. *)
Definition ok_ranges (lines : list string) : list Range :=
  omap (λ l, match ParseBlocklistP2PLine l with inr (Some r) => Some r | _ => None end) lines.

Definition parseBlockList (buf : string) : option (list Range) :=
  match ok_ranges (scan_lines buf).1 with [] => None | rs => Some rs end.

(** [ReadBlockedIP]: the file next to the program, then the one of the settings;
    [None] is the error when neither can be read. *)
Definition ReadBlockedIP (exeFile settingsFile : option string) : option (option (list Range)) :=
  match exeFile with
  | Some buf => Some (parseBlockList buf)
  | None => parseBlockList <$> settingsFile
  end.

(** [scanBuf]: a bad line empties the list. *)
Fixpoint scan_loop (lines : list string) : option (list Range) :=
  match lines with
  | [] => Some []
  | l :: lines' =>
      match parseLine l with
      | inl _ => None
      | inr o => (λ rs, match o with Some r => r :: rs | None => rs end) <$> scan_loop lines'
      end
  end.

Definition scanBuf (buf : string) : list Range := default [] (scan_loop (scan_lines buf).1).

(** ** Looking up *)

(** [lookup] by halving, over accessors that may fail. *)
Fixpoint search_opt (fuel : nat) (f : nat → option bool) (lo hi : nat) : option nat :=
  match fuel with
  | O => Some lo
  | S fuel' =>
      if (lo <? hi)%nat then
        let h := ((lo + hi) / 2)%nat in
        match f h with
        | None => None
        | Some true => search_opt fuel' f lo h
        | Some false => search_opt fuel' f (S h) hi
        end
      else Some lo
  end.

Definition lookup (first : nat → option string) (full : nat → option Range) (n : Z) (ip : string) : option (Range * bool) :=
  let exceeds i := if n <=? Z.of_nat i + 1 then Some true
                   else f ← first (S i); Some (match Compare ip f with Lt => true | _ => false end) in
  i ← search_opt (S (Z.to_nat n)) exceeds 0 (Z.to_nat n);
  if Z.of_nat i =? n then Some (zero_range, false)
  else r ← full i; Some (r, inside r ip).

Definition IPList_lookup (ranges : list Range) (ip : string) : option (Range * bool) :=
  lookup (λ i, First <$> ranges !! i) (λ i, ranges !! i) (Z.of_nat (length ranges)) ip.

(** The blocker's: the first range that contains the address. *)
Fixpoint blocker_lookup (ranges : list Range) (ip : string) : Range * bool :=
  match ranges with
  | [] => (zero_range, false)
  | r :: ranges' => if inside r ip then (r, true) else blocker_lookup ranges' ip
  end.

Definition bad_ip : Range := MkRange "" "" "bad IP".

(** [Lookup] with either search: as an IPv4 address, then in 16 bytes. *)
Definition Lookup_with (search : string → option (Range * bool)) (ip : string) : option (Range * bool) :=
  let v6 := match To16 ip with
    | Some v6 => search v6
    | None => match To4 ip with None => Some (bad_ip, true) | Some _ => Some (zero_range, false) end
    end in
  match To4 ip with
  | Some v4 =>
      '(r, ok) ← search v4;
      if ok : bool then Some (r, true) else v6
  | None => v6
  end.

Definition IPList_Lookup (ranges : list Range) : string → option (Range * bool) := Lookup_with (IPList_lookup ranges).

Definition blocker_Lookup (ranges : list Range) (ip : string) : option (Range * bool) :=
  Lookup_with (λ ip, Some (blocker_lookup ranges ip)) ip.

(** Whether a list refuses an address. *)
Definition listed (r : option (Range * bool)) : bool := match r with Some (_, ok) => ok | None => false end.

(** [Blocker]: whether a request from the address passes; the two files. *)
Definition Blocker (bip wip RemoteAddr : string) : bool :=
  let black := scanBuf bip in
  let white := scanBuf wip in
  if bool_decide (black = []) && bool_decide (white = []) then true
  else
    let ip := match ParseIP (hd "" (split_on colon RemoteAddr)) with Some ip => minifyIP ip | None => "" end in
    if negb (bool_decide (white = [])) && negb (listed (blocker_Lookup white ip)) then false
    else if negb (bool_decide (black = [])) && listed (blocker_Lookup black ip) then false
    else true.
End parsing.

(** ** The packed form *)

(** [binary.LittleEndian]. *)
Fixpoint put_le (n : nat) (z : Z) : string :=
  match n with O => "" | S n' => String (char_of z) (put_le n' (z / 256)) end.

Fixpoint le_value (s : string) : Z :=
  match s with EmptyString => 0 | String c s' => ord c + 256 * le_value s' end.

Definition packedRangesOffset : Z := 8.
Definition packedRangeLen : Z := 44.

Definition int64 (z : Z) : Z := wrap_s 64 z.

(** The loop of [WritePacked] over the ranges: what is written for them, and the
    descriptions in the order they are met; an address of another length panics. *)
Fixpoint pack_ranges (l : list Range) (descOffsets : gmap string Z) (nextOffset : Z) : option (string * list string) :=
  match l with
  | [] => Some ("", [])
  | r :: l' =>
      f ← To16 (First r);
      t ← To16 (Last r);
      let d := Description r in
      match descOffsets !! d with
      | Some descOff =>
          '(txt, descs) ← pack_ranges l' descOffsets nextOffset;
          Some (f +:+ (t +:+ (put_le 8 descOff +:+ (put_le 4 (slen d) +:+ txt))), descs)
      | None =>
          '(txt, descs) ← pack_ranges l' (<[d := nextOffset]> descOffsets) (int64 (nextOffset + slen d));
          Some (f +:+ (t +:+ (put_le 8 nextOffset +:+ (put_le 4 (slen d) +:+ txt))), d :: descs)
      end
  end.

Definition join_all (l : list string) : string := foldr (λ d s, d +:+ s) "" l.

Definition WritePacked (l : list Range) : option string :=
  '(txt, descs) ← pack_ranges l ∅ 0;
  Some (put_le 8 (Z.of_nat (length l)) +:+ (txt +:+ join_all descs)).

(** [b[lo:hi]] of a string of bytes. *)
Definition sslice (lo hi : Z) (s : string) : option string :=
  if (0 <=? lo) && (lo <=? hi) && (hi <=? slen s) then Some (str_take (Z.to_nat (hi - lo)) (str_drop (Z.to_nat lo) s)) else None.

Definition packed_len (pil : string) : option Z := b ← sslice 0 8 pil; Some (int64 (le_value b)).

Definition NewFromPacked (b : string) : option string :=
  n ← packed_len b;
  if slen b <? int64 (packedRangesOffset + int64 (n * packedRangeLen)) then None else Some b.

Definition getFirst (pil : string) (i : nat) : option string :=
  let off := int64 (packedRangesOffset + int64 (packedRangeLen * Z.of_nat i)) in
  sslice off (int64 (off + 16)) pil.

(** [binary.LittleEndian.Uint64(pil[off:])] and [Uint32]. *)
Definition uint_at (n off : Z) (pil : string) : option Z := b ← sslice off (int64 (off + n)) pil; Some (le_value b).

Definition getRange (pil : string) (i : nat) : option Range :=
  let rOff := int64 (packedRangesOffset + int64 (packedRangeLen * Z.of_nat i)) in
  last ← sslice (int64 (rOff + 16)) (int64 (rOff + 32)) pil;
  descOff ← uint_at 8 (int64 (rOff + 32)) pil;
  descLen ← uint_at 4 (int64 (rOff + 40)) pil;
  n ← packed_len pil;
  let descOff := int64 (int64 descOff + int64 (packedRangesOffset + int64 (packedRangeLen * n))) in
  first ← getFirst pil i;
  desc ← sslice descOff (int64 (descOff + descLen)) pil;
  Some (MkRange first last desc).

Definition Packed_Lookup (pil ip : string) : option (Range * bool) :=
  ip16 ← To16 ip;
  n ← packed_len pil;
  lookup (getFirst pil) (getRange pil) n ip16.

(** ** Prefixes (cidr.go) *)

Definition slash : Ascii.ascii := Ascii.ascii_of_nat 47.

(** [net.CIDRMask], a byte of it and all of it, from the number of leading ones. *)
Definition mask_byte (n : Z) : Z := if 8 <=? n then 255 else Z.lxor 255 (Z.shiftr 255 n).

Fixpoint CIDRMask (len : nat) (n : Z) : string :=
  match len with O => "" | S len' => String (char_of (mask_byte n)) (CIDRMask len' (Z.max 0 (n - 8))) end.

Fixpoint zip_bytes (f : Z → Z → Z) (a b : string) : string :=
  match a, b with
  | String c a', String d b' => String (char_of (f (ord c) (ord d))) (zip_bytes f a' b')
  | _, _ => ""
  end.

(** [IP.Mask] with a mask of the length of the address. *)
Definition Mask (ip mask : string) : string := zip_bytes Z.land ip mask.

(** A mask of another length panics. *)
Definition IPNetLast (ip mask : string) : option string :=
  if (String.length ip =? String.length mask)%nat
  then Some (zip_bytes (λ c m, Z.lor c (Z.lxor 255 m)) ip mask) else None.

Section cidr.
Context (parseIPv6 : string → option string).

(** [netip.ParseAddr]: 4 or 16 bytes. *)
Definition ParseAddr (s : string) : option string :=
  match kind_of s with Some true => parseIPv4 s | Some false => parseIPv6 s | None => None end.

(** [net.ParseCIDR]: the masked address and the mask. *)
Definition ParseCIDR (s : string) : option (string * string) :=
  i ← IndexByte slash s;
  addr ← ParseAddr (str_take i s);
  match ParseUint (str_drop (S i) s) with
  | NumOk n =>
      if n <=? 8 * slen addr then
        let m := CIDRMask (String.length addr) n in Some (Mask addr m, m)
      else None
  | _ => None
  end.

(** The ranges so far and whether all lines could be read; the error of the scanner
    is not asked for. *)
Fixpoint cidr_loop (lines : list string) : option (list Range * bool) :=
  match lines with
  | [] => Some ([], true)
  | l :: lines' =>
      match ParseCIDR l with
      | None => Some ([], false)
      | Some (ip, mask) =>
          last ← IPNetLast ip mask;
          '(rs, ok) ← cidr_loop lines';
          Some (MkRange ip last "" :: rs, ok)
      end
  end.

Definition ParseCIDRListReader (buf : string) : option (list Range * bool) := cidr_loop (scan_lines buf).1.
End cidr.

(** ** The order of addresses *)

Lemma leb_lt a b : leb a b = negb (cmp_lt String.compare b a).
Proof. unfold leb, Compare, cmp_lt. rewrite (cmp_opp (cmp := String.compare) b a). by destruct (String.compare b a). Qed.

Lemma compare_refl a : Compare a a = Eq.
Proof. unfold Compare. pose proof (cmp_opp (cmp := String.compare) a a). by destruct (String.compare a a). Qed.

Lemma leb_refl a : leb a a = true.
Proof. unfold leb. by rewrite compare_refl. Qed.

Lemma leb_lt_trans a b c : leb a b = true → Compare b c = Lt → Compare a c = Lt.
Proof.
  unfold leb. destruct (Compare a b) eqn:H; try done; intros _ Hc; unfold Compare in *.
  - apply String.compare_eq_iff in H as ->. done.
  - by apply (cmp_trans (cmp := String.compare) a b c).
Qed.

Lemma lt_leb_trans a b c : Compare a b = Lt → leb b c = true → Compare a c = Lt.
Proof.
  unfold leb. destruct (Compare b c) eqn:H; try done; intros Ha _; unfold Compare in *.
  - apply String.compare_eq_iff in H as <-. done.
  - by apply (cmp_trans (cmp := String.compare) a b c).
Qed.

Lemma lt_not_leb a b : Compare a b = Lt → leb b a = false.
Proof. unfold leb, Compare. intros H. by rewrite (cmp_opp (cmp := String.compare) a b), H. Qed.

Lemma not_lt_leb a b : Compare a b ≠ Lt → leb b a = true.
Proof. unfold leb, Compare. intros H. rewrite (cmp_opp (cmp := String.compare) a b). by destruct (String.compare a b). Qed.

Lemma lt_leb a b : Compare a b = Lt → leb a b = true.
Proof. unfold leb. by intros ->. Qed.

(** What the list must be: ranges in order, none overlapping another. *)
Record ordered (l : list Range) : Prop := {
  o_range r : r ∈ l → leb (First r) (Last r) = true;
  o_next i r r' : l !! i = Some r → l !! S i = Some r' → Compare (Last r) (First r') = Lt;
}.

Lemma ordered_apart l i j r r' :
  ordered l → (i < j)%nat → l !! i = Some r → l !! j = Some r' → Compare (Last r) (First r') = Lt.
Proof.
  intros Ho Hij Hi. revert r'. induction Hij as [|j Hij IH]; intros r' Hj; [exact (o_next l Ho i r r' Hi Hj)|].
  destruct (l !! j) as [m|] eqn:Hm; [|apply lookup_ge_None in Hm; apply lookup_lt_Some in Hj; lia].
  eapply leb_lt_trans; [apply lt_leb, (IH m eq_refl)|].
  eapply leb_lt_trans; [|exact (o_next l Ho j m r' Hm Hj)]. eapply o_range; [done|]. by eapply list_elem_of_lookup_2.
Qed.

(** ** The two searches agree *)

Lemma search_opt_loop fuel f g lo hi :
  (∀ i, (i < hi)%nat → f i = Some (g i)) → search_opt fuel f lo hi = Some (search_loop fuel g lo hi).
Proof.
  revert lo hi. induction fuel as [|fuel IH]; intros lo hi Hf; [done|]. cbn [search_opt search_loop].
  destruct (Nat.ltb_spec lo hi) as [Hlt|]; [|done].
  assert ((lo + hi) / 2 < hi)%nat as Hh by (apply Nat.Div0.div_lt_upper_bound; lia).
  rewrite Hf by done. destruct (g _); apply IH; [intros i Hi; apply Hf; lia|done].
Qed.

Lemma blocker_lookup_none l ip : (∀ r, r ∈ l → inside r ip = false) → blocker_lookup l ip = (zero_range, false).
Proof.
  induction l as [|r l IH]; intros H; [done|]. cbn. rewrite H by left. apply IH. intros r' Hr. apply H. by right.
Qed.

Lemma blocker_lookup_found l ip :
  (∃ r, r ∈ l ∧ blocker_lookup l ip = (r, true) ∧ inside r ip = true) ∨
  (blocker_lookup l ip = (zero_range, false) ∧ ∀ r, r ∈ l → inside r ip = false).
Proof.
  induction l as [|r l IH]; [right; split; [done|by intros r ?%elem_of_nil]|]. cbn.
  destruct (inside r ip) eqn:Hr; [left; exists r; split; [left|done]|].
  destruct IH as [(r' & Hin & H1 & H2)|[H1 H2]]; [left; exists r'; split; [by right|done]|].
  right. split; [done|]. intros r' [-> | Hin]%elem_of_cons; [done|by apply H2].
Qed.

(** The place the halving search ends at. *)
Lemma IPList_lookup_at l ip :
  ordered l →
  (l = [] ∧ IPList_lookup l ip = Some (zero_range, false)) ∨
  ∃ i r, l !! i = Some r ∧ IPList_lookup l ip = Some (r, inside r ip) ∧
    (∀ j r', (j < i)%nat → l !! j = Some r' → inside r' ip = false) ∧
    (∀ j r', (i < j)%nat → l !! j = Some r' → inside r' ip = false).
Proof.
  intros Ho. destruct l as [|r0 l0] eqn:Hl; [by left|]. right. rewrite <- Hl in *. set (n := length l).
  assert (0 < n)%nat as Hn by (unfold n; rewrite Hl; cbn; lia).
  set (g := λ i, if (n <=? S i)%nat then true else match First <$> l !! S i with Some f => cmp_lt String.compare ip f | None => true end).
  assert (∀ i j, (i ≤ j < n)%nat → g i = true → g j = true) as Hmono.
  { intros i j [Hij Hj]. unfold g. destruct (Nat.leb_spec n (S j)) as [|Hj']; [done|]. destruct (Nat.leb_spec n (S i)); [lia|].
    destruct (lookup_lt_is_Some_2 l (S i)) as [ri Hi]; [fold n; lia|]. destruct (lookup_lt_is_Some_2 l (S j)) as [rj Hj2]; [fold n; lia|].
    rewrite Hi, Hj2. cbn. destruct (decide (i = j)) as [->|Hne]; [congruence|]. unfold cmp_lt.
    destruct (String.compare ip (First ri)) eqn:Hc; [done| |done]. intros _.
    assert (Compare ip (First rj) = Lt) as Hlt; [|unfold Compare in Hlt; by rewrite Hlt].
    eapply lt_leb_trans; [exact Hc|]. apply lt_leb. eapply leb_lt_trans; [|eapply (ordered_apart l (S i) (S j)); [done|lia|done|done]].
    eapply o_range; [done|]. by eapply list_elem_of_lookup_2. }
  destruct (search_loop_spec (S n) g 0 n n) as (Hr & Hbefore & Hat); [lia|lia|lia|lia|done|].
  set (i := search_loop (S n) g 0 n) in *.
  assert (i < n)%nat as Hi.
  { destruct (decide (i = n)) as [He|]; [|lia]. specialize (Hbefore (n - 1)%nat ltac:(lia)). unfold g in Hbefore.
    destruct (Nat.leb_spec n (S (n - 1))); [done|lia]. }
  specialize (Hat Hi). destruct (lookup_lt_is_Some_2 l i Hi) as [r Hri]. exists i, r. split_and!; [done| | |].
  - unfold IPList_lookup, lookup. fold n. rewrite Nat2Z.id, (search_opt_loop _ _ g).
    + fold i. cbn [mbind option_bind]. destruct (Z.eqb_spec (Z.of_nat i) (Z.of_nat n)); [lia|]. by rewrite Hri.
    + intros k Hk. unfold g. destruct (Z.leb_spec (Z.of_nat n) (Z.of_nat k + 1)), (Nat.leb_spec n (S k)); [done|lia|lia|].
      destruct (lookup_lt_is_Some_2 l (S k)) as [rk Hk']; [fold n; lia|]. rewrite Hk'. done.
  - intros j r' Hj Hr'. specialize (Hbefore j Hj). unfold g in Hbefore. destruct (Nat.leb_spec n (S j)); [done|].
    destruct (lookup_lt_is_Some_2 l (S j)) as [rj Hj']; [fold n; lia|]. rewrite Hj' in Hbefore. cbn in Hbefore.
    assert (leb (First rj) ip = true) as Hle.
    { apply not_lt_leb. unfold cmp_lt in Hbefore. unfold Compare. by destruct (String.compare ip (First rj)). }
    unfold inside. rewrite (lt_not_leb (Last r') ip); [by rewrite andb_false_r|].
    eapply lt_leb_trans; [|exact Hle]. exact (o_next l Ho j r' rj Hr' Hj').
  - intros j r' Hj Hr'. pose proof (lookup_lt_Some _ _ _ Hr') as Hjn. fold n in Hjn.
    assert (g (j - 1)%nat = true) as Hg by (apply (Hmono i (j - 1)%nat); [lia|done]). unfold g in Hg.
    destruct (Nat.leb_spec n (S (j - 1))); [lia|]. replace (S (j - 1)) with j in Hg by lia. rewrite Hr' in Hg. cbn in Hg.
    unfold inside. rewrite (lt_not_leb ip (First r')); [done|]. unfold cmp_lt in Hg. unfold Compare.
    by destruct (String.compare ip (First r')).
Qed.

(** The search by halving and the search from front to back are one: on
    ranges that are in order and do not overlap, [lookup] of the torrent client
    never leaves the list, reports an address exactly when the blocker's loop does,
    and names the same range. *)
Theorem halving_search_is_scan (l : list Range) (ip : string) :
  ordered l →
  ∃ r ok, IPList_lookup l ip = Some (r, ok) ∧ ok = (blocker_lookup l ip).2 ∧
    (ok = true → r = (blocker_lookup l ip).1) ∧ (ok = true ↔ ∃ r, r ∈ l ∧ inside r ip = true).
Proof.
  intros Ho. destruct (IPList_lookup_at l ip Ho) as [[-> ->]|(i & r & Hi & -> & Hbefore & Hafter)].
  - exists zero_range, false. split_and!; [done..|]. split; [done|]. by intros (r & ?%elem_of_nil & _).
  - exists r, (inside r ip). split; [done|].
    assert (∀ r', r' ∈ l → inside r' ip = true → r' = r) as Huniq.
    { intros r' (j & Hj)%list_elem_of_lookup Hin. destruct (lt_eq_lt_dec j i) as [[Hlt| ->]|Hlt]; [|congruence|].
      - by rewrite (Hbefore j r' Hlt Hj) in Hin.
      - by rewrite (Hafter j r' Hlt Hj) in Hin. }
    assert (r ∈ l) as Hrin by (by eapply list_elem_of_lookup_2).
    destruct (blocker_lookup_found l ip) as [(r' & Hr' & -> & Hin)|[-> Hnone]].
    + pose proof (Huniq r' Hr' Hin) as ->. cbn. rewrite Hin. split_and!; [done..|]. split; [by exists r|done].
    + rewrite (Hnone r Hrin). split_and!; [done..|]. split; [done|]. intros (r' & Hr' & Hin). by rewrite (Hnone r' Hr') in Hin.
Qed.

(** ** Addresses as numbers *)

Fixpoint ip_value (s : string) (acc : Z) : Z :=
  match s with EmptyString => acc | String c s' => ip_value s' (256 * acc + ord c) end.

Lemma ord_range c : 0 ≤ ord c < 256.
Proof. unfold ord. pose proof (Ascii.nat_ascii_bounded c). lia. Qed.

Lemma ord_char_of z : ord (char_of z) = z mod 256.
Proof.
  unfold ord, char_of. rewrite Ascii.nat_ascii_embedding; [|pose proof (Z.mod_pos_bound z 256); lia].
  rewrite Z2Nat.id; [done|]. pose proof (Z.mod_pos_bound z 256). lia.
Qed.

Lemma ip_value_bounds s acc : 0 ≤ acc → acc * 256 ^ slen s ≤ ip_value s acc < (acc + 1) * 256 ^ slen s.
Proof.
  revert acc. induction s as [|c s IH]; intros acc Ha; [change (slen "") with 0; rewrite Z.pow_0_r; cbn [ip_value]; lia|]. cbn [ip_value]. pose proof (ord_range c).
  specialize (IH (256 * acc + ord c) ltac:(lia)). rewrite slen_cons, Z.pow_add_r by (pose proof (slen_nonneg s); lia). nia.
Qed.

Lemma Compare_cons c d a b :
  Compare (String c a) (String d b) = match Z.compare (ord c) (ord d) with Eq => Compare a b | r => r end.
Proof.
  unfold Compare. cbn [String.compare]. unfold Ascii.compare, ord.
  unfold Ascii.nat_of_ascii. rewrite !N_nat_Z. by rewrite N2Z.inj_compare.
Qed.

(** On addresses of one length the order is that of the numbers. *)
Lemma Compare_value a b :
  String.length a = String.length b → ∀ x y, 0 ≤ x → 0 ≤ y → (x = y → Compare a b = Z.compare (ip_value a x) (ip_value b y)) ∧
    (x < y → ip_value a x < ip_value b y).
Proof.
  revert b. induction a as [|c a IH]; intros [|d b] Hl; try done; intros x y Hx Hy; cbn [ip_value].
  { split; [intros ->; by rewrite Z.compare_refl|done]. }
  pose proof (ord_range c). pose proof (ord_range d). specialize (IH b ltac:(cbn in Hl; lia)).
  split; intros Hxy.
  - subst y. rewrite Compare_cons. destruct (Z.compare_spec (ord c) (ord d)) as [He|Hlt|Hgt].
    + rewrite He. by apply IH; lia.
    + symmetry. apply Z.compare_lt_iff, (IH (256 * x + ord c) (256 * x + ord d)); lia.
    + symmetry. apply Z.compare_gt_iff. clear IH.
      pose proof (ip_value_bounds a (256 * x + ord c) ltac:(lia)). pose proof (ip_value_bounds b (256 * x + ord d) ltac:(lia)).
      assert (slen a = slen b) as Hs by (unfold slen; cbn in Hl; lia). rewrite Hs in *. nia.
  - apply IH; lia.
Qed.

Definition value (ip : string) : Z := ip_value ip 0.

Lemma leb_value a b : String.length a = String.length b → leb a b = (value a <=? value b).
Proof.
  intros Hl. destruct (Compare_value a b Hl 0 0) as [Hc _]; [lia|lia|]. unfold leb. rewrite (Hc eq_refl).
  fold (value a). fold (value b). unfold Z.leb. by destruct (value a ?= value b).
Qed.

Definition v4_range (r : Range) : Prop := String.length (First r) = 4%nat ∧ String.length (Last r) = 4%nat.

(** Above 0.255.255.255. *)
Definition above_zero (r : Range) : Prop := 2 ^ 24 ≤ value (First r).

Definition covers (r : Range) (v4 : string) : Prop := value (First r) ≤ value v4 ≤ value (Last r).

Lemma inside_value r v4 : v4_range r → String.length v4 = 4%nat → inside r v4 = true ↔ covers r v4.
Proof.
  intros [H1 H2] H. unfold inside, covers. rewrite !leb_value by congruence.
  rewrite andb_true_iff, !Z.leb_le. done.
Qed.

Lemma To4_length ip v4 : To4 ip = Some v4 → String.length v4 = 4%nat.
Proof.
  unfold To4. destruct (Nat.eqb_spec (String.length ip) 4); [by intros [= <-]|].
  destruct (Nat.eqb_spec (String.length ip) 16) as [H16|]; [|done]. cbn [andb]. case_bool_decide as Hp; [|done]. intros Hv. apply (inj Some) in Hv as <-.
  pose proof (f_equal String.length (str_take_drop 12 ip)) as Hl. rewrite length_app_string, Hp in Hl. change (String.length v4InV6Prefix) with 12%nat in Hl. lia.
Qed.

Lemma To16_To4 ip v4 : To4 ip = Some v4 → To16 ip = Some (v4InV6Prefix +:+ v4).
Proof.
  unfold To4, To16. destruct (Nat.eqb_spec (String.length ip) 4); [by intros [= <-]|].
  destruct (Nat.eqb_spec (String.length ip) 16); [|done]. cbn [andb]. case_bool_decide as H; [|done]. intros Hv. apply (inj Some) in Hv as <-.
  by rewrite <- H, str_take_drop.
Qed.

(** The 16 bytes of an IPv4 address are in no range above 0.255.255.255. *)
Lemma mapped_outside r v4 : v4_range r → above_zero r → inside r (v4InV6Prefix +:+ v4) = false.
Proof.
  intros [H1 _] Ha. unfold inside. rewrite (lt_not_leb _ (First r)); [done|].
  destruct (First r) as [|c [|c2 [|c3 [|c4 [|]]]]] eqn:Hf; try done. unfold above_zero, value in Ha. rewrite Hf in Ha. cbn [ip_value] in Ha.
  pose proof (ord_range c2). pose proof (ord_range c3). pose proof (ord_range c4).
  change (v4InV6Prefix +:+ v4) with (String (char_of 0) (str_drop 1 v4InV6Prefix +:+ v4)). rewrite Compare_cons, ord_char_of.
  change (0 mod 256) with 0. rewrite (proj2 (Z.compare_lt_iff 0 (ord c))); [done|]. lia.
Qed.

(** C39: the block list refuses exactly the addresses it names: for a list of IPv4
    ranges in order, none reaching into 0.0.0.0/8, and an address that is an IPv4
    one in 4 or 16 bytes, [Lookup] returns, and it reports the address if and only if
    the number of the address lies between the ends of a range. *)
Theorem blocklist_exact (l : list Range) (ip v4 : string) :
  ordered l → (∀ r, r ∈ l → v4_range r ∧ above_zero r) → To4 ip = Some v4 →
  ∃ r ok, IPList_Lookup l ip = Some (r, ok) ∧ (ok = true ↔ ∃ r, r ∈ l ∧ covers r v4) ∧ (ok = true → r ∈ l ∧ covers r v4).
Proof.
  intros Ho Hv Ht. pose proof (To4_length _ _ Ht) as Hlen. unfold IPList_Lookup, Lookup_with. rewrite Ht, (To16_To4 _ _ Ht).
  assert (∀ r, r ∈ l → inside r v4 = true ↔ covers r v4) as Hc by (intros r Hr; apply inside_value; [by apply Hv|done]).
  destruct (IPList_lookup_at l v4 Ho) as [[-> Hl]|(i & r & Hi & Hl & Hbefore & Hafter)].
  { exists zero_range, false. split; [by cbn|]. split; [|done]. split; [done|]. by intros (r & ?%elem_of_nil & _). }
  assert (r ∈ l) as Hr by (by eapply list_elem_of_lookup_2). rewrite Hl. cbn [mbind option_bind].
  destruct (inside r v4) eqn:Hin.
  { exists r, true. split; [done|]. split; [|intros _; split; [done|by apply Hc]]. split; [|done]. intros _. exists r. by rewrite <- Hc. }
  assert (¬ ∃ r, r ∈ l ∧ covers r v4) as Hnone.
  { intros (r' & Hr' & Hcov). rewrite <- Hc in Hcov by done. destruct (proj1 (list_elem_of_lookup _ _) Hr') as [j Hj].
    destruct (lt_eq_lt_dec j i) as [[Hlt| ->]|Hlt]; [by rewrite (Hbefore j r') in Hcov|congruence|by rewrite (Hafter j r') in Hcov]. }
  destruct (IPList_lookup_at l (v4InV6Prefix +:+ v4) Ho) as [[-> Hl6]|(i6 & r6 & Hi6 & Hl6 & _ & _)]; rewrite Hl6.
  - exists zero_range, false. naive_solver.
  - assert (r6 ∈ l) as Hr6 by (by eapply list_elem_of_lookup_2). destruct (Hv r6 Hr6) as [Hv6 Ha6].
    exists r6, false. rewrite (mapped_outside r6 v4 Hv6 Ha6). naive_solver.
Qed.

Definition ip4 (a b c d : Z) : string :=
  String (char_of a) (String (char_of b) (String (char_of c) (String (char_of d) ""))).

(** A list that begins with 0.0.0.0-0.255.255.255 refuses every IPv4 address:
    its 16 bytes begin with zeros, which lie between the four bytes of the ends. *)
Theorem zero_range_refuses_all (desc : string) (l : list Range) (ip v4 : string) :
  ordered (MkRange (ip4 0 0 0 0) (ip4 0 255 255 255) desc :: l) → To4 ip = Some v4 →
  ∃ r, IPList_Lookup (MkRange (ip4 0 0 0 0) (ip4 0 255 255 255) desc :: l) ip = Some (r, true).
Proof.
  set (z := MkRange _ _ _). intros Ho Ht. unfold IPList_Lookup, Lookup_with. rewrite Ht, (To16_To4 _ _ Ht).
  assert (inside z (v4InV6Prefix +:+ v4) = true) as Hin by reflexivity.
  destruct (IPList_lookup_at (z :: l) v4 Ho) as [[? _]|(i & r & _ & -> & _)]; [done|]. cbn [mbind option_bind].
  destruct (inside r v4); [by exists r|].
  destruct (IPList_lookup_at (z :: l) (v4InV6Prefix +:+ v4) Ho) as [[? _]|(i6 & r6 & Hi6 & -> & Hb & _)]; [done|].
  destruct i6 as [|i6]; [injection Hi6 as <-; rewrite Hin; by exists z|].
  rewrite (Hb 0%nat z) in Hin; [done|lia|done].
Qed.

(** ** The packed form is the list *)

Lemma slen_put_le n z : slen (put_le n z) = Z.of_nat n.
Proof. revert z. induction n as [|n IH]; intros z; [done|]. cbn [put_le]. rewrite slen_cons, IH. lia. Qed.

Lemma le_value_put n z : 0 ≤ z < 256 ^ Z.of_nat n → le_value (put_le n z) = z.
Proof.
  revert z. induction n as [|n IH]; intros z Hz; [cbn in *; lia|]. cbn [put_le le_value]. rewrite ord_char_of.
  rewrite Nat2Z.inj_succ, Z.pow_succ_r in Hz by lia. rewrite IH; [|split; [apply Z.div_pos; lia|apply Z.div_lt_upper_bound; lia]].
  pose proof (Z.div_mod z 256). lia.
Qed.

Lemma sslice_mid a b c lo hi : lo = slen a → hi = slen a + slen b → sslice lo hi (a +:+ (b +:+ c)) = Some b.
Proof.
  intros -> ->. unfold sslice. pose proof (slen_nonneg a). pose proof (slen_nonneg b). pose proof (slen_nonneg c). rewrite !slen_app.
  rewrite (proj2 (Z.leb_le 0 (slen a))), (proj2 (Z.leb_le (slen a) _)), (proj2 (Z.leb_le (slen a + slen b) _)) by lia. cbn [andb].
  replace (slen a + slen b - slen a) with (slen b) by lia. unfold slen. rewrite !Nat2Z.id. by rewrite str_drop_app, str_take_app.
Qed.

Definition range16 (r : Range) : Range := MkRange (default "" (To16 (First r))) (default "" (To16 (Last r))) (Description r).

Lemma To16_length ip v6 : To16 ip = Some v6 → slen v6 = 16.
Proof.
  unfold To16. destruct (Nat.eqb_spec (String.length ip) 4) as [H|].
  - intros Hv. apply (inj Some) in Hv as <-. rewrite slen_app. unfold slen. rewrite H. done.
  - destruct (Nat.eqb_spec (String.length ip) 16) as [H|]; [|done]. intros Hv. apply (inj Some) in Hv as <-. unfold slen. by rewrite H.
Qed.

(** The record of a range. *)
Definition record (r : Range) (off : Z) : string :=
  First (range16 r) +:+ (Last (range16 r) +:+ (put_le 8 off +:+ put_le 4 (slen (Description r)))).

Lemma str_eq4 a b c d e : a +:+ (b +:+ (c +:+ (d +:+ e))) = (a +:+ (b +:+ (c +:+ d))) +:+ e.
Proof. by rewrite <- !string_assoc. Qed.

(** Each range has its record at its place, and its description where the record
    says. [base] is what the descriptions met before make up. *)
Lemma pack_ranges_spec l offs base txt descs :
  pack_ranges l offs (slen base) = Some (txt, descs) → slen base + slen (join_all descs) < 2 ^ 63 →
  (∀ d o, offs !! d = Some o → ∃ x y, base = x +:+ (d +:+ y) ∧ slen x = o) →
  slen txt = 44 * Z.of_nat (length l) ∧
  ∀ i r, l !! i = Some r →
    To16 (First r) = Some (First (range16 r)) ∧ To16 (Last r) = Some (Last (range16 r)) ∧
    ∃ pre post x y, txt = pre +:+ (record r (slen x) +:+ post) ∧ slen pre = 44 * Z.of_nat i ∧
      base +:+ join_all descs = x +:+ (Description r +:+ y).
Proof.
  revert offs base txt descs. induction l as [|r l IH]; intros offs base txt descs Hp Hb Hoffs; cbn [pack_ranges] in Hp.
  { injection Hp as <- <-. split; [done|]. by intros i r. }
  destruct (To16 (First r)) as [f|] eqn:Hf; [|done]. destruct (To16 (Last r)) as [t|] eqn:Ht; [|done].
  cbn [mbind option_bind] in Hp. pose proof (To16_length _ _ Hf) as Hlf. pose proof (To16_length _ _ Ht) as Hlt.
  assert (range16 r = MkRange f t (Description r)) as H16 by (unfold range16; by rewrite Hf, Ht).
  assert (∃ off txt' offs' base' descs', pack_ranges l offs' (slen base') = Some (txt', descs') ∧
            base' +:+ join_all descs' = base +:+ join_all descs ∧
            (∀ d o, offs' !! d = Some o → ∃ x y, base' = x +:+ (d +:+ y) ∧ slen x = o) ∧
            txt = record r off +:+ txt' ∧ ∃ x y, base +:+ join_all descs = x +:+ (Description r +:+ y) ∧ slen x = off) as Hstep.
  { unfold record. rewrite H16. cbn [First Last Description]. set (d := Description r) in *.
    destruct (offs !! d) as [o|] eqn:Ho.
    - destruct (pack_ranges l offs (slen base)) as [[txt' descs']|] eqn:Hp'; [|done]. injection Hp as <- <-.
      exists o, txt', offs, base, descs'. split_and!; [done|done|done|by rewrite str_eq4|].
      destruct (Hoffs d o Ho) as (x & y & Hx & Hsx). exists x, (y +:+ join_all descs'). split; [|done]. rewrite Hx. by rewrite <- !string_assoc.
    - destruct (pack_ranges l _ _) as [[txt' descs']|] eqn:Hp'; [|done]. injection Hp as <- <-.
      cbn [join_all foldr] in *. fold (join_all descs') in *. rewrite slen_app in Hb.
      pose proof (slen_nonneg base). pose proof (slen_nonneg d). pose proof (slen_nonneg (join_all descs')).
      unfold int64 in Hp'. rewrite wrap_s_id in Hp' by (unfold fits_s; lia).
      exists (slen base), txt', (<[d := slen base]> offs), (base +:+ d), descs'. split_and!.
      + by rewrite slen_app.
      + by rewrite <- string_assoc.
      + intros d' o' [[<- <-]|[_ Hd]]%lookup_insert_Some.
        * exists base, "". by rewrite string_nil_r.
        * destruct (Hoffs d' o' Hd) as (x & y & -> & Hsx). exists x, (y +:+ d). split; [|done]. by rewrite <- !string_assoc.
      + by rewrite str_eq4.
      + by exists base, (join_all descs'). }
  destruct Hstep as (off & txt' & offs' & base' & descs' & Hp' & Hbase & Hoffs' & -> & x & y & Hx & Hsx).
  assert (slen (record r off) = 44) as Hrec by (unfold record; rewrite H16; cbn [First Last]; rewrite !slen_app, !slen_put_le; lia).
  destruct (IH offs' base' txt' descs' Hp') as [Hlen Hall]; [|done|].
  { pose proof (f_equal slen Hbase) as Hs. rewrite !slen_app in Hs. lia. }
  split; [rewrite slen_app, Hrec, Hlen; cbn [length]; lia|]. intros [|i] r' Hi; cbn in Hi.
  - injection Hi as <-. rewrite H16. cbn [First Last]. split_and!; [done|done|]. exists "", txt', x, y. rewrite Hsx. by split_and!.
  - destruct (Hall i r' Hi) as (H1 & H2 & pre & post & x' & y' & -> & Hpre & Hxy). split_and!; [done|done|].
    exists (record r off +:+ pre), post, x', y'. rewrite slen_app, Hrec, Hpre, <- Hbase. split_and!; [by rewrite <- string_assoc|lia|done].
Qed.

(** The parts of a record. *)
Lemma record_slices p f t o8 l4 rest b :
  b = p +:+ (f +:+ (t +:+ (o8 +:+ (l4 +:+ rest)))) → slen f = 16 → slen t = 16 → slen o8 = 8 → slen l4 = 4 →
  (∀ lo hi, lo = slen p → hi = slen p + 16 → sslice lo hi b = Some f) ∧
  (∀ lo hi, lo = slen p + 16 → hi = slen p + 32 → sslice lo hi b = Some t) ∧
  (∀ lo hi, lo = slen p + 32 → hi = slen p + 40 → sslice lo hi b = Some o8) ∧
  (∀ lo hi, lo = slen p + 40 → hi = slen p + 44 → sslice lo hi b = Some l4).
Proof.
  intros Hb Hf Ht Ho8 Hl4. split_and!; intros lo hi -> ->; rewrite Hb.
  - by apply sslice_mid; rewrite ?Hf.
  - rewrite (string_assoc p f). apply sslice_mid; rewrite slen_app; lia.
  - rewrite (string_assoc p f), (string_assoc (p +:+ f) t). apply sslice_mid; rewrite !slen_app; lia.
  - rewrite (string_assoc p f), (string_assoc (p +:+ f) t), (string_assoc ((p +:+ f) +:+ t) o8). apply sslice_mid; rewrite !slen_app; lia.
Qed.

Section packed.
Context (l : list Range) (b : string) (packed : WritePacked l = Some b) (size : slen b < 2 ^ 63)
  (descriptions : ∀ r, r ∈ l → slen (Description r) < 2 ^ 32).

(** The text in its parts. *)
Lemma packed_parts : ∃ txt D, b = put_le 8 (Z.of_nat (length l)) +:+ (txt +:+ D) ∧ slen txt = 44 * Z.of_nat (length l) ∧
  ∀ i r, l !! i = Some r → ∃ pre post x y, txt = pre +:+ (record r (slen x) +:+ post) ∧ slen pre = 44 * Z.of_nat i ∧
    D = x +:+ (Description r +:+ y) ∧ slen (First (range16 r)) = 16 ∧ slen (Last (range16 r)) = 16.
Proof using packed size.
  unfold WritePacked in packed. destruct (pack_ranges l ∅ 0) as [[txt descs]|] eqn:Hp; [|done].
  cbn [mbind option_bind] in packed. pose proof packed as Hb. apply (inj Some) in Hb. exists txt, (join_all descs). split; [done|].
  assert (slen (join_all descs) < 2 ^ 63) as Hd.
  { rewrite <- Hb, !slen_app in size. pose proof (slen_nonneg txt). pose proof (slen_nonneg (put_le 8 (Z.of_nat (length l)))). lia. }
  destruct (pack_ranges_spec l ∅ "" txt descs Hp) as [Hlen Hall]; [change (slen "") with 0; lia|by intros d o; rewrite lookup_empty|].
  split; [done|]. intros i r Hi. destruct (Hall i r Hi) as (H1 & H2 & pre & post & x & y & H3 & H4 & H5).
  exists pre, post, x, y. split_and!; [done|done|done|by eapply To16_length|by eapply To16_length].
Qed.

Lemma in_int64 z : 0 ≤ z < 2 ^ 63 → int64 z = z.
Proof using. intros Hz. unfold int64. apply wrap_s_id; [lia|]. unfold fits_s. lia. Qed.

Lemma packed_count : 44 * Z.of_nat (length l) + 8 ≤ slen b ∧ packed_len b = Some (Z.of_nat (length l)).
Proof using packed size.
  destruct packed_parts as (txt & D & Hb & Hlen & _). pose proof (f_equal slen Hb) as Hs. rewrite !slen_app, slen_put_le in Hs.
  pose proof (slen_nonneg D). split; [lia|]. unfold packed_len. rewrite Hb.
  change (put_le 8 (Z.of_nat (length l)) +:+ (txt +:+ D)) with ("" +:+ (put_le 8 (Z.of_nat (length l)) +:+ (txt +:+ D))).
  rewrite (sslice_mid "" (put_le 8 (Z.of_nat (length l))) (txt +:+ D)) by (rewrite ?slen_put_le; done). cbn [mbind option_bind].
  rewrite le_value_put by (change (256 ^ Z.of_nat 8) with (2 ^ 64); lia). by rewrite in_int64 by lia.
Qed.

Lemma NewFromPacked_accepts : NewFromPacked b = Some b.
Proof using packed size.
  destruct packed_count as [Hc Hn]. unfold NewFromPacked. rewrite Hn. cbn [mbind option_bind].
  unfold packedRangesOffset, packedRangeLen. rewrite (in_int64 (Z.of_nat (length l) * 44)), in_int64 by lia. destruct (Z.ltb_spec (slen b) (8 + Z.of_nat (length l) * 44)); [lia|done].
Qed.

Lemma packed_range i r : l !! i = Some r → getFirst b i = Some (First (range16 r)) ∧ getRange b i = Some (range16 r).
Proof using packed size descriptions.
  intros Hi. destruct packed_count as [Hc Hn]. destruct packed_parts as (txt & D & Hb & Hlen & Hall).
  destruct (Hall i r Hi) as (pre & post & x & y & Htxt & Hpre & HD & Hf & Ht). pose proof (lookup_lt_Some _ _ _ Hi) as Hil.
  assert (slen (Description r) < 2 ^ 32) as Hdl by (apply descriptions; by eapply list_elem_of_lookup_2).
  set (head := put_le 8 (Z.of_nat (length l))) in *. assert (slen head = 8) as Hh by (unfold head; apply slen_put_le).
  pose proof (f_equal slen Hb) as Hs. rewrite HD, !slen_app, Hh, Hlen in Hs.
  pose proof (slen_nonneg x). pose proof (slen_nonneg y). pose proof (slen_nonneg (Description r)).
  set (f := First (range16 r)) in *. set (t := Last (range16 r)) in *. set (d := Description r) in *.
  set (o8 := put_le 8 (slen x)). set (l4 := put_le 4 (slen d)).
  assert (slen o8 = 8 ∧ slen l4 = 4) as [Ho8 Hl4] by (split; apply slen_put_le).
  assert (b = (head +:+ pre) +:+ (f +:+ (t +:+ (o8 +:+ (l4 +:+ (post +:+ D)))))) as Hb'.
  { rewrite Hb, Htxt. unfold record. fold f t d o8 l4. by rewrite <- !string_assoc. }
  assert (b = (head +:+ txt +:+ x) +:+ (d +:+ y)) as HbD by (rewrite Hb, HD; by rewrite <- !string_assoc).
  assert (slen (head +:+ pre) = 8 + 44 * Z.of_nat i) as Hhp by (rewrite slen_app; lia).
  set (p := head +:+ pre) in *.
  destruct (record_slices p f t o8 l4 (post +:+ D) b Hb' Hf Ht Ho8 Hl4) as (Sf & St & So & Sl).
  assert (getFirst b i = Some f) as Hgf.
  { unfold getFirst, packedRangesOffset, packedRangeLen. rewrite (in_int64 (44 * Z.of_nat i)), (in_int64 (8 + 44 * Z.of_nat i)), in_int64 by lia.
    by apply Sf; lia. }
  split; [done|]. unfold getRange, uint_at, packedRangesOffset, packedRangeLen. rewrite Hn, Hgf.
  rewrite (in_int64 (44 * Z.of_nat i)) by lia. rewrite (in_int64 (8 + 44 * Z.of_nat i)) by lia.
  rewrite (in_int64 (8 + 44 * Z.of_nat i + 16)), (in_int64 (8 + 44 * Z.of_nat i + 32)), (in_int64 (8 + 44 * Z.of_nat i + 40)) by lia.
  rewrite (in_int64 (8 + 44 * Z.of_nat i + 32 + 8)), (in_int64 (8 + 44 * Z.of_nat i + 40 + 4)) by lia.
  rewrite (St (8 + 44 * Z.of_nat i + 16) (8 + 44 * Z.of_nat i + 32)), (So (8 + 44 * Z.of_nat i + 32) (8 + 44 * Z.of_nat i + 32 + 8)),
    (Sl (8 + 44 * Z.of_nat i + 40) (8 + 44 * Z.of_nat i + 40 + 4)) by lia. cbn [mbind option_bind].
  assert (le_value o8 = slen x) as -> by (apply le_value_put; change (256 ^ Z.of_nat 8) with (2 ^ 64); lia).
  assert (le_value l4 = slen d) as -> by (apply le_value_put; change (256 ^ Z.of_nat 4) with (2 ^ 32); lia).
  rewrite (in_int64 (slen x)), (in_int64 (44 * Z.of_nat (length l))), (in_int64 (8 + 44 * Z.of_nat (length l))) by lia.
  rewrite (in_int64 (slen x + _)), in_int64 by lia.
  rewrite HbD, (sslice_mid (head +:+ txt +:+ x) d y) by (rewrite !slen_app; lia). done.
Qed.
End packed.

(** Only the entries of the list are looked at. *)
Lemma lookup_ext first first' full full' (n : nat) ip :
  (∀ i, (i < n)%nat → first i = first' i) → (∀ i, (i < n)%nat → full i = full' i) →
  lookup first full (Z.of_nat n) ip = lookup first' full' (Z.of_nat n) ip.
Proof.
  intros Hf Hr. unfold lookup. rewrite Nat2Z.id.
  set (e := λ i, if Z.of_nat n <=? Z.of_nat i + 1 then _ else _). set (e' := λ i, if Z.of_nat n <=? Z.of_nat i + 1 then _ else _).
  assert (∀ fuel lo hi, search_opt fuel e lo hi = search_opt fuel e' lo hi ∧ ∀ r, (hi ≤ n)%nat → (lo ≤ hi)%nat → search_opt fuel e lo hi = Some r → (r ≤ n)%nat) as Hs.
  { assert (∀ i, e i = e' i) as He.
    { intros i. unfold e, e'. destruct (Z.leb_spec (Z.of_nat n) (Z.of_nat i + 1)); [done|]. by rewrite Hf by lia. }
    induction fuel as [|fuel IH]; intros lo hi; cbn [search_opt]; [split; [done|]; intros r ? ? [= <-]; lia|].
    destruct (Nat.ltb_spec lo hi); [|split; [done|]; intros r ? ? [= <-]; lia].
    assert ((lo + hi) / 2 < hi)%nat as Hh by (apply Nat.Div0.div_lt_upper_bound; lia).
    assert (lo ≤ (lo + hi) / 2)%nat as Hh' by (apply Nat.div_le_lower_bound; lia).
    rewrite He. destruct (e' ((lo + hi) / 2)%nat) as [[]|]; [| |done].
    - split; [apply IH|]. intros r ? ?. apply IH; lia.
    - split; [apply IH|]. intros r ? ?. apply IH; lia. }
  destruct (Hs (S n) 0%nat n) as [Heq Hle]. rewrite <- Heq. destruct (search_opt (S n) e 0 n) as [i|] eqn:Hi; [|done]. cbn [mbind option_bind].
  destruct (Z.eqb_spec (Z.of_nat i) (Z.of_nat n)); [done|]. rewrite Hr; [done|]. specialize (Hle i ltac:(lia) ltac:(lia) eq_refl). lia.
Qed.

(** C40: the packed form of a block list is searched in place with the same answer:
    what [WritePacked] writes for a list is accepted, and looking an address up in it
    returns without leaving the data, with the range, description included, that the
    list itself with its addresses in 16 bytes gives. *)
Theorem packed_list_same_answers (l : list Range) (b ip ip16 : string) :
  WritePacked l = Some b → slen b < 2 ^ 63 → (∀ r, r ∈ l → slen (Description r) < 2 ^ 32) → To16 ip = Some ip16 →
  NewFromPacked b = Some b ∧ Packed_Lookup b ip = IPList_lookup (range16 <$> l) ip16.
Proof.
  intros Hb Hs Hd Hip. split; [by eapply NewFromPacked_accepts|]. unfold Packed_Lookup, IPList_lookup. rewrite Hip.
  destruct (packed_count l b Hb Hs) as [_ ->]. cbn [mbind option_bind]. rewrite length_fmap. apply lookup_ext; intros i Hi;
    destruct (lookup_lt_is_Some_2 l i Hi) as [r Hr]; rewrite list_lookup_fmap, Hr; cbn [fmap option_fmap option_map];
    by apply (packed_range l b Hb Hs Hd).
Qed.

(** ** Lines *)

Fixpoint absent (c : Ascii.ascii) (s : string) : bool :=
  match s with EmptyString => true | String d s' => negb (bool_decide (d = c)) && absent c s' end.

Lemma absent_app c a b : absent c (a +:+ b) = absent c a && absent c b.
Proof. induction a as [|d a IH]; [done|]. rewrite string_cons_app. cbn [absent]. by rewrite IH, andb_assoc. Qed.

Lemma absent_take c n s : absent c s = true → absent c (str_take n s) = true.
Proof. intros H. rewrite <- (str_take_drop n s), absent_app in H. by apply andb_true_iff in H as [-> _]. Qed.

Lemma absent_drop c n s : absent c s = true → absent c (str_drop n s) = true.
Proof. intros H. rewrite <- (str_take_drop n s), absent_app in H. by apply andb_true_iff in H as [_ ->]. Qed.

Lemma LastIndexByte_none c s : LastIndexByte c s = None ↔ absent c s = true.
Proof.
  induction s as [|d s IH]; [done|]. cbn [LastIndexByte absent]. rewrite andb_true_iff, negb_true_iff, <- IH.
  destruct (LastIndexByte c s); [naive_solver|]. case_bool_decide; naive_solver.
Qed.

Lemma LastIndexByte_absent c s i : LastIndexByte c s = Some i → absent c (str_drop (S i) s) = true.
Proof.
  revert i. induction s as [|d s IH]; intros i; [done|]. cbn [LastIndexByte].
  destruct (LastIndexByte c s) as [j|] eqn:Hj; [intros [= <-]; cbn [str_drop]; by apply IH|].
  case_bool_decide; [|done]. intros [= <-]. cbn [str_drop]. replace (str_drop 0 s) with s by (by destruct s). by apply LastIndexByte_none.
Qed.

Lemma kind_of_absent s : absent colon s = true → kind_of s ≠ Some false.
Proof.
  induction s as [|d s IH]; [done|]. cbn [absent kind_of]. intros [Hd Hs]%andb_true_iff.
  destruct (ord d =? 46); [done|]. destruct (Z.eqb_spec (ord d) 58) as [He|]; [|by apply IH].
  apply negb_true_iff, bool_decide_eq_false in Hd. destruct Hd. unfold colon, ord in *.
  rewrite <- (Ascii.ascii_nat_embedding d). f_equal. lia.
Qed.

Lemma parseIPv4_length s v : parseIPv4 s = Some v → String.length v = 4%nat.
Proof.
  unfold parseIPv4. destruct (split_on dot s) as [|a [|b [|c [|d [|]]]]]; try done.
  destruct (octet a); [|done]. destruct (octet b); [|done]. destruct (octet c); [|done]. destruct (octet d); [|done].
  cbn [mbind option_bind]. by intros [= <-].
Qed.

Lemma To4_mapped v : String.length v = 4%nat → To4 (v4InV6Prefix +:+ v) = Some v.
Proof.
  intros Hv. unfold To4. rewrite length_app_string, Hv. change (String.length v4InV6Prefix + 4 =? 4)%nat with false.
  change (String.length v4InV6Prefix + 4 =? 16)%nat with true. cbn [andb].
  rewrite bool_decide_eq_true_2 by exact (str_take_app v4InV6Prefix v). reflexivity.
Qed.

Section lines.
Context (parseIPv6 : string → option string).

Lemma ParseIP_v4 s ip :
  absent colon s = true → ParseIP parseIPv6 s = Some ip → ∃ v4, parseIPv4 s = Some v4 ∧ minifyIP ip = v4 ∧ String.length v4 = 4%nat.
Proof.
  intros Hs. unfold ParseIP. pose proof (kind_of_absent s Hs). destruct (kind_of s) as [[]|]; [|done|done].
  destruct (parseIPv4 s) as [v|] eqn:Hv; [|done]. cbn [fmap option_fmap option_map]. intros Hi. apply (inj Some) in Hi as <-.
  exists v. pose proof (parseIPv4_length s v Hv) as Hl. split_and!; [done| |done]. unfold minifyIP. by rewrite To4_mapped.
Qed.

Lemma make_range_v4 desc first last r :
  absent colon first = true → absent colon last = true → make_range parseIPv6 desc first last = inr r → v4_range r.
Proof.
  intros Hf Hl. unfold make_range. destruct (ParseIP parseIPv6 first) as [f|] eqn:Ef; [|done].
  destruct (ParseIP parseIPv6 last) as [t|] eqn:Et; [|done]. cbn [fmap option_fmap option_map].
  destruct (ParseIP_v4 _ _ Hf Ef) as (v & _ & Hv & Hv4). destruct (ParseIP_v4 _ _ Hl Et) as (w & _ & Hw & Hw4).
  destruct (_ =? _)%nat; [|done]. intros [= <-]. unfold v4_range. cbn [First Last]. by rewrite Hv, Hw.
Qed.

(** What is read from a line is a range of IPv4 addresses: nothing else can stand
    after the last colon. *)
Lemma p2p_line_v4 l r : ParseBlocklistP2PLine parseIPv6 l = inr (Some r) → v4_range r.
Proof.
  unfold ParseBlocklistP2PLine. destruct (blank_line _); [done|].
  destruct (LastIndexByte colon (TrimSpace l)) as [i|] eqn:Hi; [|done]. pose proof (LastIndexByte_absent _ _ _ Hi) as Ha.
  set (rest := str_drop (S i) (TrimSpace l)) in *. destruct (IndexByte hyphen rest) as [k|]; [|done].
  destruct (make_range _ _ _ _) as [|r'] eqn:Hm; [done|]. intros Hr. assert (r' = r) as -> by congruence.
  eapply make_range_v4; [| |exact Hm]; auto using absent_take, absent_drop.
Qed.

Lemma parseLine_v4 l r : parseLine parseIPv6 l = inr (Some r) → v4_range r.
Proof.
  unfold parseLine. destruct (blank_line _); [done|].
  assert (∃ desc rest, (match LastIndexByte colon (TrimSpace l) with
            | Some i => (str_take i (TrimSpace l), str_drop (S i) (TrimSpace l)) | None => ("", TrimSpace l) end) = (desc, rest) ∧
          absent colon rest = true) as (desc & rest & -> & Ha).
  { destruct (LastIndexByte colon (TrimSpace l)) as [i|] eqn:Hi; eexists _, _; (split; [done|]);
      [by apply LastIndexByte_absent|by apply LastIndexByte_none]. }
  destruct (IndexByte hyphen rest) as [k|]; destruct (make_range _ _ _ _) as [|r'] eqn:Hm; try done;
    intros Hr; assert (r' = r) as -> by congruence; (eapply make_range_v4; [| |exact Hm]); auto using absent_take, absent_drop.
Qed.

Lemma scan_loop_v4 lines rs : scan_loop parseIPv6 lines = Some rs → ∀ r, r ∈ rs → v4_range r.
Proof.
  revert rs. induction lines as [|l lines IH]; cbn [scan_loop]; intros rs; [intros [= <-] r ?%elem_of_nil; done|].
  destruct (parseLine parseIPv6 l) as [|o] eqn:Hl; [done|]. destruct (scan_loop parseIPv6 lines) as [rs'|]; [|done].
  cbn [fmap option_fmap option_map]. intros Hr. apply (inj Some) in Hr as <-. intros r. specialize (IH rs' eq_refl).
  destruct o as [r'|]; [|apply IH]. intros [-> | Hin]%elem_of_cons; [by eapply parseLine_v4|by apply IH].
Qed.

Lemma scanBuf_v4 buf r : r ∈ scanBuf parseIPv6 buf → v4_range r.
Proof.
  unfold scanBuf. destruct (scan_loop parseIPv6 (scan_lines buf).1) as [rs|] eqn:H; cbn [default from_option id].
  - by eapply scan_loop_v4.
  - by intros ?%elem_of_nil.
Qed.

(** A line that cannot be read turns the list off: no address is on it. *)
Lemma bad_line_empties buf l e :
  l ∈ (scan_lines buf).1 → parseLine parseIPv6 l = inl e → scanBuf parseIPv6 buf = [].
Proof.
  intros Hin He. unfold scanBuf. assert (scan_loop parseIPv6 (scan_lines buf).1 = None) as ->; [|done].
  induction Hin as [x lines|x y lines Hin IH]; cbn [scan_loop]; [by rewrite He|]. rewrite IH by done. by destruct (parseLine parseIPv6 y).
Qed.
End lines.

(** ** Dotted addresses *)

Definition dotted (a b c d : Z) : string :=
  AppendInt a +:+ String dot (AppendInt b +:+ String dot (AppendInt c +:+ String dot (AppendInt d))).

Definition byte_range (z : Z) : Prop := 0 ≤ z < 256.

(** Facts on the 256 texts of a byte, by evaluation. *)
Definition octet_ok (z : Z) : bool :=
  bool_decide (octet (AppendInt z) = Some z) && absent dot (AppendInt z) && absent colon (AppendInt z) && absent hyphen (AppendInt z) &&
  match AppendInt z with String c _ => is_digit c | EmptyString => false end.

Lemma octets_ok z : byte_range z → octet_ok z = true.
Proof.
  intros Hz. assert (forallb octet_ok (seqZ 0 256) = true) as Hall by (vm_compute; reflexivity).
  rewrite forallb_forall in Hall. apply Hall, list_elem_of_In, elem_of_seqZ. unfold byte_range in Hz. lia.
Qed.

Lemma octet_facts z : byte_range z →
  octet (AppendInt z) = Some z ∧ absent dot (AppendInt z) = true ∧ absent colon (AppendInt z) = true ∧ absent hyphen (AppendInt z) = true.
Proof.
  intros Hz%octets_ok. unfold octet_ok in Hz. rewrite !andb_true_iff in Hz. destruct Hz as [[[[H1%bool_decide_eq_true H2] H3] H4] _]. done.
Qed.

Lemma split_on_absent c s : absent c s = true → split_on c s = [s].
Proof.
  induction s as [|d s IH]; [done|]. cbn [absent split_on]. intros [Hd%negb_true_iff Hs]%andb_true_iff. by rewrite Hd, IH.
Qed.

Lemma split_on_app c a b : absent c a = true → split_on c (a +:+ String c b) = a :: split_on c b.
Proof.
  induction a as [|d a IH]; [rewrite string_nil_app; cbn [split_on]; by rewrite bool_decide_eq_true_2|].
  rewrite string_cons_app. cbn [absent split_on]. intros [Hd%negb_true_iff Hs]%andb_true_iff. by rewrite Hd, IH.
Qed.

Lemma kind_of_dot a s : absent dot a = true → absent colon a = true → kind_of (a +:+ String dot s) = Some true.
Proof.
  induction a as [|d a IH]; [done|]. rewrite string_cons_app. cbn [absent kind_of].
  intros [Hd%negb_true_iff Hs]%andb_true_iff [Hd'%negb_true_iff Hs']%andb_true_iff.
  apply bool_decide_eq_false in Hd, Hd'.
  assert (∀ n : nat, d ≠ Ascii.ascii_of_nat n → (ord d =? Z.of_nat n) = false) as Hne.
  { intros n Hn. apply Z.eqb_neq. intros He. apply Hn. rewrite <- (Ascii.ascii_nat_embedding d). f_equal. unfold ord in He. lia. }
  pose proof (Hne 46%nat Hd) as H1. pose proof (Hne 58%nat Hd') as H2. change (Z.of_nat 46) with 46 in H1. change (Z.of_nat 58) with 58 in H2.
  by rewrite H1, H2, IH.
Qed.

Lemma dotted_absent x a b c d :
  byte_range a → byte_range b → byte_range c → byte_range d →
  (∀ z, byte_range z → absent x (AppendInt z) = true) → x ≠ dot → absent x (dotted a b c d) = true.
Proof.
  intros Ha Hb Hc Hd Hx Hne. unfold dotted.
  assert (∀ s, absent x (String dot s) = absent x s) as Hcons by (intros s; cbn [absent]; by rewrite bool_decide_eq_false_2).
  rewrite !absent_app, Hcons, absent_app, Hcons, absent_app, Hcons, !Hx by done. done.
Qed.

Lemma parseIPv4_dotted a b c d :
  byte_range a → byte_range b → byte_range c → byte_range d → parseIPv4 (dotted a b c d) = Some (ip4 a b c d).
Proof.
  intros (Ha & Hda & _)%octet_facts (Hb & Hdb & _)%octet_facts (Hc & Hdc & _)%octet_facts (Hd & Hdd & _)%octet_facts.
  unfold parseIPv4, dotted. rewrite !split_on_app, split_on_absent by done. by rewrite Ha, Hb, Hc, Hd.
Qed.

Section blocking.
Context (parseIPv6 : string → option string).

Lemma ParseIP_dotted a b c d :
  byte_range a → byte_range b → byte_range c → byte_range d →
  ParseIP parseIPv6 (dotted a b c d) = Some (v4InV6Prefix +:+ ip4 a b c d).
Proof.
  intros Ha Hb Hc Hd. unfold ParseIP. destruct (octet_facts a Ha) as (_ & Hda & Hca & _).
  assert (kind_of (dotted a b c d) = Some true) as -> by (by apply kind_of_dot). by rewrite parseIPv4_dotted.
Qed.

Lemma blocker_Lookup_v4 l ip v4 :
  (∀ r, r ∈ l → v4_range r ∧ above_zero r) → To4 ip = Some v4 →
  listed (blocker_Lookup l ip) = true ↔ ∃ r, r ∈ l ∧ covers r v4.
Proof using.
  intros Hv Ht. pose proof (To4_length _ _ Ht) as Hlen. unfold blocker_Lookup, Lookup_with. rewrite Ht, (To16_To4 _ _ Ht).
  rewrite (blocker_lookup_none l (v4InV6Prefix +:+ v4)) by (intros r Hr; by apply mapped_outside; apply Hv).
  cbn [mbind option_bind]. destruct (blocker_lookup_found l v4) as [(r & Hr & -> & Hin)|[-> Hnone]]; cbn [listed].
  - split; [|done]. intros _. exists r. split; [done|]. apply inside_value; [by apply Hv|done|done].
  - split; [done|]. intros (r & Hr & Hcov). apply inside_value in Hcov; [|by apply Hv|done]. by rewrite Hnone in Hcov.
Qed.

(** The address of a client that is not dotted is not one. *)
Lemma bracket_not_ip s : ParseIP parseIPv6 (hd "" (split_on colon (String (char_of 91) s))) = None.
Proof.
  assert (∃ x, hd "" (split_on colon (String (char_of 91) s)) = String (char_of 91) x ∧ absent colon x = true) as (x & -> & Hx).
  { cbn [split_on]. rewrite bool_decide_eq_false_2 by done. clear parseIPv6.
    assert (∀ t, ∃ y l, split_on colon t = y :: l ∧ absent colon y = true) as Hs.
    { induction t as [|c t (y & l & IH & Hy)]; [by exists "", []|]. cbn [split_on]. case_bool_decide as Hc; [by eexists "", _|].
      rewrite IH. exists (String c y), l. split; [done|]. cbn [absent]. by rewrite bool_decide_eq_false_2. }
    destruct (Hs s) as (y & l & -> & Hy). by exists y. }
  unfold ParseIP. pose proof (kind_of_absent (String (char_of 91) x)) as Hk. cbn [absent] in Hk.
  rewrite bool_decide_eq_false_2 in Hk by done. specialize (Hk Hx). destruct (kind_of _) as [[]|]; [|done|done].
  assert (parseIPv4 (String (char_of 91) x) = None) as ->; [|done]. unfold parseIPv4. cbn [split_on].
  rewrite bool_decide_eq_false_2 by done. destruct (split_on dot x) as [|y l]; [done|].
  by destruct l as [|? [|? [|? [|]]]].
Qed.
End blocking.

(** The web server's lists decide as they say: for lists whose ranges lie above
    0.255.255.255 and a client with an IPv4 address, the request passes if and only
    if the white list is empty or has the address, and the black list does not have
    it; every range either list can have is one of IPv4 addresses. *)
Theorem Blocker_decides (parseIPv6 : string → option string) (bip wip port : string) (a b c d : Z) :
  byte_range a → byte_range b → byte_range c → byte_range d →
  (∀ r, r ∈ scanBuf parseIPv6 bip ∨ r ∈ scanBuf parseIPv6 wip → above_zero r) →
  Blocker parseIPv6 bip wip (dotted a b c d +:+ String colon port) = true ↔
    (scanBuf parseIPv6 wip = [] ∨ ∃ r, r ∈ scanBuf parseIPv6 wip ∧ covers r (ip4 a b c d)) ∧
    (∀ r, r ∈ scanBuf parseIPv6 bip → ¬ covers r (ip4 a b c d)).
Proof.
  intros Ha Hb Hc Hd Hz. unfold Blocker. set (black := scanBuf parseIPv6 bip) in *. set (white := scanBuf parseIPv6 wip) in *.
  assert (absent colon (dotted a b c d) = true) as Hcol by (apply dotted_absent; try done; apply octet_facts).
  rewrite split_on_app by done. cbn [hd]. rewrite ParseIP_dotted by done. unfold minifyIP.
  assert (To4 (ip4 a b c d) = Some (ip4 a b c d)) as H4 by done. rewrite (To4_mapped (ip4 a b c d)) by done. cbn [default from_option id].
  pose proof (blocker_Lookup_v4 white (ip4 a b c d) (ip4 a b c d)) as Hw.
  pose proof (blocker_Lookup_v4 black (ip4 a b c d) (ip4 a b c d)) as Hbl.
  specialize (Hw (λ r Hr, conj (scanBuf_v4 _ _ _ Hr) (Hz r (or_intror Hr))) H4).
  specialize (Hbl (λ r Hr, conj (scanBuf_v4 _ _ _ Hr) (Hz r (or_introl Hr))) H4).
  destruct (decide (white = [])) as [Ew|Ew]; destruct (decide (black = [])) as [Eb|Eb].
  - rewrite !bool_decide_eq_true_2 by done. cbn [andb]. rewrite Eb. split; [|done]. intros _. split; [by left|]. by intros r ?%elem_of_nil.
  - rewrite (bool_decide_eq_true_2 (white = [])), (bool_decide_eq_false_2 (black = [])) by done. cbn [andb negb].
    destruct (listed (blocker_Lookup black _)); naive_solver.
  - rewrite (bool_decide_eq_false_2 (white = [])), (bool_decide_eq_true_2 (black = [])) by done. cbn [andb negb].
    assert (∀ r, r ∈ black → ¬ covers r (ip4 a b c d)) as Hnb by (rewrite Eb; by intros r ?%elem_of_nil).
    destruct (listed (blocker_Lookup white _)); cbn [negb]; naive_solver.
  - rewrite !bool_decide_eq_false_2 by done. cbn [andb negb].
    destruct (listed (blocker_Lookup white _)), (listed (blocker_Lookup black _)); cbn [negb]; naive_solver.
Qed.

(** A client with an IPv6 address, which Go writes in brackets, is on every list:
    with a white list alone it passes whatever the list says, with a black list it
    is refused. *)
Theorem bracketed_client_on_every_list (parseIPv6 : string → option string) (bip wip s : string) :
  Blocker parseIPv6 bip wip (String (char_of 91) s) = bool_decide (scanBuf parseIPv6 bip = []).
Proof.
  unfold Blocker. rewrite bracket_not_ip. assert (∀ l, listed (blocker_Lookup l "") = true) as Hl by done. rewrite !Hl.
  cbn [negb]. rewrite andb_false_r. repeat case_bool_decide; done.
Qed.

(** ** A line that was written is read back *)

Lemma trim_right_app a b : trim_right b = b → b ≠ "" → trim_right (a +:+ b) = a +:+ b.
Proof.
  intros Hb Hne. induction a as [|c a IH]; [done|]. rewrite string_cons_app. cbn [trim_right]. rewrite IH.
  destruct (a +:+ b) eqn:He; [|done]. pose proof (f_equal String.length He) as Hl. rewrite length_app_string in Hl. cbn [String.length] in Hl.
  destruct b; [done|]. cbn [String.length] in Hl. lia.
Qed.

Lemma octet_trim z : byte_range z → trim_right (AppendInt z) = AppendInt z ∧ AppendInt z ≠ "".
Proof.
  intros Hz. assert (forallb (λ z, bool_decide (trim_right (AppendInt z) = AppendInt z) && negb (bool_decide (AppendInt z = ""))) (seqZ 0 256) = true)
    as Hall by (vm_compute; reflexivity).
  rewrite forallb_forall in Hall. specialize (Hall z). rewrite andb_true_iff, negb_true_iff, bool_decide_eq_true, bool_decide_eq_false in Hall.
  apply Hall, list_elem_of_In, elem_of_seqZ. unfold byte_range in Hz. lia.
Qed.

Lemma LastIndexByte_app c a b : absent c b = true → LastIndexByte c (a +:+ String c b) = Some (String.length a).
Proof.
  intros Hb. induction a as [|d a IH].
  - rewrite string_nil_app. cbn [LastIndexByte]. rewrite (proj2 (LastIndexByte_none c b)) by done. by rewrite bool_decide_eq_true_2.
  - rewrite string_cons_app. cbn [LastIndexByte]. by rewrite IH.
Qed.

Lemma IndexByte_app c a b : absent c a = true → IndexByte c (a +:+ String c b) = Some (String.length a).
Proof.
  induction a as [|d a IH]; [rewrite string_nil_app; cbn [IndexByte]; by rewrite bool_decide_eq_true_2|].
  rewrite string_cons_app. cbn [absent IndexByte]. intros [Hd%negb_true_iff Ha]%andb_true_iff. by rewrite Hd, IH.
Qed.

Lemma str_drop_succ a c b : str_drop (S (String.length a)) (a +:+ String c b) = b.
Proof. induction a as [|d a IH]; [by destruct b|]. rewrite string_cons_app. cbn [String.length str_drop]. exact IH. Qed.

(** The description does not look like the start of another line. *)
Definition plain_start (desc : string) : bool :=
  match desc with String c _ => negb (is_space c) && negb (ord c =? 35) | EmptyString => true end.

Lemma not_comment x s : (ord x =? 35) = false → String.prefix "#" (String x s) = false.
Proof. intros H. cbn [String.prefix]. by destruct (Ascii.ascii_dec _ x) as [<-|]. Qed.

(** A line of the P2P format with two IPv4 addresses is read as the range it
    shows, whatever stands in the description, colons and hyphens included. *)
Theorem p2p_line_roundtrip (parseIPv6 : string → option string) (desc : string) (a b c d e f g h : Z) :
  plain_start desc = true → Forall byte_range [a; b; c; d; e; f; g; h] →
  ParseBlocklistP2PLine parseIPv6 (desc +:+ String colon (dotted a b c d +:+ String hyphen (dotted e f g h))) =
    inr (Some (MkRange (ip4 a b c d) (ip4 e f g h) desc)).
Proof.
  intros Hp Hall. repeat (apply Forall_cons in Hall as [? Hall]).
  set (rest := dotted a b c d +:+ String hyphen (dotted e f g h)).
  assert (absent colon rest = true) as Hcol.
  { unfold rest. rewrite absent_app, (dotted_absent colon), andb_true_l by (done || apply octet_facts). cbn [absent].
    rewrite bool_decide_eq_false_2 by done. apply dotted_absent; try done; apply octet_facts. }
  assert (TrimSpace (desc +:+ String colon rest) = desc +:+ String colon rest) as Ht.
  { unfold TrimSpace. destruct (octet_trim h) as [Hth Hne]; [done|].
    assert (∃ pre, desc +:+ String colon rest = pre +:+ AppendInt h) as [pre Hpre].
    { unfold rest, dotted. exists (desc +:+ String colon (dotted a b c d +:+ String hyphen (AppendInt e +:+ String dot (AppendInt f +:+ String dot (AppendInt g +:+ String dot ""))))).
      unfold dotted. by repeat (rewrite <- string_assoc || rewrite string_cons_app || rewrite string_nil_app). }
    replace (trim_left (desc +:+ String colon rest)) with (desc +:+ String colon rest).
    - rewrite Hpre. by apply trim_right_app.
    - destruct desc as [|x desc]; [done|]. cbn in Hp. apply andb_true_iff in Hp as [Hs%negb_true_iff _].
      rewrite string_cons_app. cbn [trim_left]. by rewrite Hs. }
  unfold ParseBlocklistP2PLine. rewrite Ht.
  assert (blank_line (desc +:+ String colon rest) = false) as ->.
  { destruct desc as [|x desc]; [done|]. cbn in Hp. apply andb_true_iff in Hp as [_ Hh%negb_true_iff].
    rewrite string_cons_app. unfold blank_line. rewrite bool_decide_eq_false_2 by done. cbn [orb].
    by apply not_comment. }
  rewrite LastIndexByte_app by done. cbn zeta. rewrite str_drop_succ, str_take_app. unfold rest.
  rewrite IndexByte_app by (apply dotted_absent; try done; apply octet_facts). rewrite str_drop_succ, str_take_app.
  unfold make_range. rewrite !ParseIP_dotted by done. cbn [fmap option_fmap option_map]. unfold minifyIP. rewrite !To4_mapped by done. done.
Qed.

(** ** Prefixes *)

Definition byte_pairs : list (Z * Z) := n ← seqZ 0 8; (λ c, (n, c)) <$> seqZ 0 256.

Lemma mask_byte_spec n c :
  0 ≤ n < 8 → 0 ≤ c < 256 →
  let m := mask_byte n in
  Z.land c m mod 256 = c / 2 ^ (8 - n) * 2 ^ (8 - n) ∧
  Z.lor (Z.land c m) (Z.lxor 255 m) mod 256 = c / 2 ^ (8 - n) * 2 ^ (8 - n) + 2 ^ (8 - n) - 1 ∧ 0 ≤ m < 256 ∧
  Z.land c m mod 256 = Z.land c m.
Proof.
  intros Hn Hc. assert (forallb (λ p, let m := mask_byte p.1 in
      (Z.land p.2 m mod 256 =? p.2 / 2 ^ (8 - p.1) * 2 ^ (8 - p.1)) &&
      (Z.lor (Z.land p.2 m) (Z.lxor 255 m) mod 256 =? p.2 / 2 ^ (8 - p.1) * 2 ^ (8 - p.1) + 2 ^ (8 - p.1) - 1) &&
      (0 <=? m) && (m <? 256) && (Z.land p.2 m mod 256 =? Z.land p.2 m)) byte_pairs = true) as Hall by (vm_compute; reflexivity).
  rewrite forallb_forall in Hall. specialize (Hall (n, c)). cbn zeta in Hall. cbn [fst snd] in Hall.
  rewrite !andb_true_iff, !Z.eqb_eq, Z.leb_le, Z.ltb_lt in Hall.
  destruct Hall as [[[[? ?] ?] ?] ?]; [|done]. apply list_elem_of_In, list_elem_of_bind. exists n.
  split; [|apply elem_of_seqZ; lia]. apply list_elem_of_fmap. exists c. split; [done|]. apply elem_of_seqZ. lia.
Qed.

Lemma ip_value_div s acc : 0 ≤ acc → ip_value s acc / 256 ^ slen s = acc.
Proof.
  intros Ha. pose proof (ip_value_bounds s acc Ha). pose proof (Z.pow_pos_nonneg 256 (slen s) ltac:(lia) (slen_nonneg s)).
  symmetry. apply (Z.div_unique_pos _ _ _ (ip_value s acc - acc * 256 ^ slen s)); lia.
Qed.

Lemma pow256 n : 0 ≤ n → 256 ^ n = 2 ^ (8 * n).
Proof. intros Hn. change 256 with (2 ^ 8). by rewrite <- Z.pow_mul_r by lia. Qed.

(** The masked address and the last one, as numbers: the low bits cleared and set. *)
Lemma cidr_values ip n acc :
  0 ≤ acc → 0 ≤ n ≤ 8 * slen ip →
  let k := 8 * slen ip - n in
  let m := CIDRMask (String.length ip) n in
  ip_value (Mask ip m) acc = ip_value ip acc / 2 ^ k * 2 ^ k ∧
  ip_value (zip_bytes (λ c m, Z.lor c (Z.lxor 255 m)) (Mask ip m) m) acc = ip_value ip acc / 2 ^ k * 2 ^ k + 2 ^ k - 1.
Proof.
  revert n acc. induction ip as [|c s IH]; intros n acc Ha Hn; cbn zeta.
  { change (slen "") with 0 in *. replace n with 0 by lia. cbn -[Z.div]. rewrite Z.div_1_r. lia. }
  rewrite slen_cons in *. pose proof (slen_nonneg s). pose proof (ord_range c) as Hc. cbn [String.length CIDRMask]. unfold Mask.
  cbn [zip_bytes ip_value]. rewrite !ord_char_of. fold (Mask s (CIDRMask (String.length s) (Z.max 0 (n - 8)))).
  destruct (Z.le_gt_cases 8 n) as [H8|H8].
  - assert (mask_byte n = 255) as -> by (unfold mask_byte; by destruct (Z.leb_spec 8 n); [|lia]).
    rewrite Z.max_r by lia. change (255 mod 256) with 255. change (Z.lxor 255 255) with 0. rewrite Z.lor_0_r, Z.mod_mod by lia.
    assert (Z.land (ord c) 255 mod 256 = ord c) as ->.
    { change 255 with (Z.ones 8). rewrite Z.land_ones by lia. change (2 ^ 8) with 256. rewrite Z.mod_mod, Z.mod_small; lia. }
    destruct (IH (n - 8) (256 * acc + ord c) ltac:(lia) ltac:(lia)) as [H1 H2].
    replace (8 * (1 + slen s) - n) with (8 * slen s - (n - 8)) by lia. done.
  - rewrite Z.max_l by lia. destruct (mask_byte_spec n (ord c) ltac:(lia) Hc) as (M1 & M2 & M3 & M4). cbn zeta in *.
    rewrite (Z.mod_small (mask_byte n)) by lia. rewrite <- M4 in M2. rewrite M2, M1. set (j := 2 ^ (8 - n)) in *. assert (0 < j) as Hj by (apply Z.pow_pos_nonneg; lia).
    pose proof (Z.mul_div_le (ord c) j Hj). pose proof (Z.div_pos (ord c) j ltac:(lia) Hj).
    destruct (IH 0 (256 * acc + ord c / j * j) ltac:(nia) ltac:(lia)) as [F _].
    destruct (IH 0 (256 * acc + (ord c / j * j + j - 1)) ltac:(nia) ltac:(lia)) as [_ L].
    rewrite Z.sub_0_r in F, L. rewrite <- pow256, ip_value_div in F, L by nia.
    replace (8 * (1 + slen s) - n) with (8 * slen s + (8 - n)) by lia. rewrite Z.pow_add_r by lia. fold j. rewrite <- (pow256 (slen s)) by lia.
    rewrite <- Z.div_div, ip_value_div by (lia || apply Z.pow_pos_nonneg; lia).
    assert ((256 * acc + ord c) / j = 256 * acc / j + ord c / j) as Hd.
    { assert (256 * acc = (acc * 2 ^ n) * j) as ->; [|by rewrite Z.div_add_l, Z.div_mul by lia].
      rewrite <- Z.mul_assoc. unfold j. rewrite <- Z.pow_add_r by lia. replace (n + (8 - n)) with 8 by lia. lia. }
    assert (256 * acc / j * j = 256 * acc) as Hm.
    { assert (256 * acc = (acc * 2 ^ n) * j) as ->; [|by rewrite Z.div_mul by lia].
      rewrite <- Z.mul_assoc. unfold j. rewrite <- Z.pow_add_r by lia. replace (n + (8 - n)) with 8 by lia. lia. }
    rewrite Hd. split; [rewrite F; nia|rewrite L; nia].
Qed.

Lemma zip_length f a b : String.length a = String.length b → String.length (zip_bytes f a b) = String.length a.
Proof. revert b. induction a as [|c a IH]; intros [|d b] H; try done. cbn in *. rewrite IH; lia. Qed.

Lemma CIDRMask_length len n : String.length (CIDRMask len n) = len.
Proof. revert n. induction len as [|len IH]; intros n; [done|]. cbn. by rewrite IH. Qed.

(** A prefix stands for the addresses that share its leading bits: the range made
    of it covers an address of its length if and only if the two agree but for the
    bits after the prefix. *)
Theorem cidr_range_exact (ip v desc : string) (n : Z) :
  0 ≤ n ≤ 8 * slen ip → String.length v = String.length ip →
  let m := CIDRMask (String.length ip) n in
  ∃ last, IPNetLast (Mask ip m) m = Some last ∧
    let k := 8 * slen ip - n in
    (inside (MkRange (Mask ip m) last desc) v = true ↔ value v / 2 ^ k = value ip / 2 ^ k).
Proof.
  intros Hn Hv m. assert (String.length (Mask ip m) = String.length ip) as Hl by (apply zip_length; unfold m; by rewrite CIDRMask_length).
  unfold IPNetLast. rewrite Hl. assert (String.length m = String.length ip) as Hm by apply CIDRMask_length.
  rewrite Hm, Nat.eqb_refl. eexists. split; [done|]. cbn zeta.
  destruct (cidr_values ip n 0 ltac:(lia) Hn) as [HF HL]. cbn zeta in HF, HL. fold m in HF, HL.
  unfold inside. cbn [First Last]. rewrite !leb_value by (rewrite ?zip_length; congruence). unfold value. rewrite HF, HL.
  set (k := 8 * slen ip - n) in *. assert (0 < 2 ^ k) as Hk by (apply Z.pow_pos_nonneg; unfold k; lia).
  set (x := ip_value v 0). set (y := ip_value ip 0). rewrite andb_true_iff, !Z.leb_le.
  pose proof (Z.div_mod x (2 ^ k) ltac:(lia)). pose proof (Z.mod_pos_bound x (2 ^ k) Hk). split.
  - intros [H1 H2]. symmetry. apply (Z.div_unique_pos x (2 ^ k) _ (x - y / 2 ^ k * 2 ^ k)); lia.
  - intros He. rewrite <- He. split; nia.
Qed.

(** ** Examples and witnesses *)

(** Nothing sorts the lines of a block list: where they are not in order, the
    search by halving misses a range that is there. *)
Theorem unsorted_list_misses :
  ∃ l r, parseBlockList (λ _, None) ("a:20.0.0.0-20.0.0.9" +:+ String newline "b:10.0.0.0-10.0.0.9") = Some l ∧
    r ∈ l ∧ covers r (ip4 20 0 0 5) ∧ listed (IPList_Lookup l (ip4 20 0 0 5)) = false.
Proof.
  exists [MkRange (ip4 20 0 0 0) (ip4 20 0 0 9) "a"; MkRange (ip4 10 0 0 0) (ip4 10 0 0 9) "b"], (MkRange (ip4 20 0 0 0) (ip4 20 0 0 9) "a").
  split; [vm_compute; reflexivity|]. split; [by left|]. split; [|vm_compute; reflexivity].
  split; apply Z.leb_le; vm_compute; reflexivity.
Qed.

(** An IPv6 address is compared with the ranges of IPv4 addresses by its first
    bytes: 2001:db8::1 is taken for one of 32.0.0.0/8. *)
Example ipv6_in_ipv4_range :
  listed (IPList_Lookup [MkRange (ip4 32 0 0 0) (ip4 32 255 255 255) ""]
    (String (char_of 32) (String (char_of 1) (String (char_of 13) (String (char_of 184) (zeros 11 +:+ String (char_of 1) "")))))) = true.
Proof. vm_compute. reflexivity. Qed.

Definition sample_list : list Range :=
  [MkRange (ip4 10 0 0 0) (ip4 10 0 0 9) "lab"; MkRange (ip4 20 0 0 0) (ip4 20 0 0 9) "lab"].

Lemma sample_ordered : ordered sample_list.
Proof.
  split.
  - intros r [-> | [-> | ?%elem_of_nil]%elem_of_cons]%elem_of_cons; [vm_compute; reflexivity..|done].
  - intros [|[|i]] r r' Hr Hr'; [|done|done]. injection Hr as <-. injection Hr' as <-. vm_compute. reflexivity.
Qed.

Lemma sample_v4 r : r ∈ sample_list → v4_range r ∧ above_zero r.
Proof.
  intros [-> | [-> | ?%elem_of_nil]%elem_of_cons]%elem_of_cons; [| |done]; (split; [done|]); apply Z.leb_le; vm_compute; reflexivity.
Qed.

Lemma blocklist_exact_witness :
  ∃ r ok, IPList_Lookup sample_list (ip4 20 0 0 5) = Some (r, ok) ∧
    (ok = true ↔ ∃ r, r ∈ sample_list ∧ covers r (ip4 20 0 0 5)) ∧ (ok = true → r ∈ sample_list ∧ covers r (ip4 20 0 0 5)).
Proof. exact (blocklist_exact sample_list (ip4 20 0 0 5) (ip4 20 0 0 5) sample_ordered sample_v4 eq_refl). Defined.

Lemma packed_list_witness :
  ∃ b, WritePacked sample_list = Some b ∧
    NewFromPacked b = Some b ∧ Packed_Lookup b (ip4 20 0 0 5) = IPList_lookup (range16 <$> sample_list) (v4InV6Prefix +:+ ip4 20 0 0 5).
Proof.
  eexists. split; [reflexivity|]. apply (packed_list_same_answers sample_list _ (ip4 20 0 0 5)).
  - reflexivity.
  - apply Z.ltb_lt. vm_compute. reflexivity.
  - intros r [-> | [-> | ?%elem_of_nil]%elem_of_cons]%elem_of_cons; [apply Z.ltb_lt; vm_compute; reflexivity..|done].
  - reflexivity.
Defined.
