(* ===== verification/AllocLimiter.v ===== *)
(** * The limiter of allocations (internal/alloclim)

    Requests of a peer for data reserve the memory for them from a limit that the
    connection shares. A [Reservation] is granted at once where there is room and
    waits in a queue otherwise; releasing a granted one and cancelling a waiting one
    wake the queue, the second in a goroutine of its own.

    A step is what happens under the mutex of the limiter without another goroutine
    taking it, except that the loop [doWakesLocked] is cut at each turn: the mutex is
    held through it ([waking]), but [Cancel] and [Drop] of a waiting reservation only
    take the reservation's own mutex and may fall between. [wakes] counts the
    goroutines that were started and have not run. Reservations are pointers: an
    index into [rs]. *)

From S2P Require Import Prelude.

Local Open Scope Z_scope.

Record Reservation := MkRes { n : Z; granted : bool; cancelled : bool; released : bool }.

Record Limiter := MkLimiter {
  Max : Z;
  value : Z;
  waiting : list nat;
  waking : bool;
  wakes : nat;
  rs : list Reservation;
}.

Definition new_limiter (max : Z) : Limiter := MkLimiter max max [] false 0 [].

Definition set_value (v : Z) (l : Limiter) : Limiter := MkLimiter (Max l) v (waiting l) (waking l) (wakes l) (rs l).
Definition set_waiting (w : list nat) (l : Limiter) : Limiter := MkLimiter (Max l) (value l) w (waking l) (wakes l) (rs l).
Definition set_waking (b : bool) (l : Limiter) : Limiter := MkLimiter (Max l) (value l) (waiting l) b (wakes l) (rs l).
Definition set_wakes (k : nat) (l : Limiter) : Limiter := MkLimiter (Max l) (value l) (waiting l) (waking l) k (rs l).
Definition set_res (i : nat) (r : Reservation) (l : Limiter) : Limiter :=
  MkLimiter (Max l) (value l) (waiting l) (waking l) (wakes l) (<[i := r]> (rs l)).

(** [None]: the mutex is held. *)
Definition Reserve (k : Z) (l : Limiter) : option Limiter :=
  if waking l then None
  else
    let i := length (rs l) in
    Some (if k <=? value l
          then MkLimiter (Max l) (value l - k) (waiting l) false (wakes l) (rs l ++ [MkRes k true false false])
          else MkLimiter (Max l) (value l) (waiting l ++ [i]) false (wakes l) (rs l ++ [MkRes k false false false])).

(** [releaseOnce] with [addValue], up to the start of the loop. *)
Definition release_once (i : nat) (r : Reservation) (l : Limiter) : option Limiter :=
  if released r then Some l
  else if waking l then None
  else Some (set_waking true (set_value (value l + n r) (set_res i (MkRes (n r) (granted r) (cancelled r) true) l))).

(** [cancelled.Set()] and the goroutine, unless it was set. *)
Definition set_cancelled (i : nat) (r : Reservation) (l : Limiter) : Limiter :=
  if cancelled r then l else set_wakes (S (wakes l)) (set_res i (MkRes (n r) (granted r) true (released r)) l).

(** Whether [Release] would panic: neither cancelled nor granted. *)
Definition Release_panics (i : nat) (l : Limiter) : bool :=
  match rs l !! i with Some r => negb (cancelled r) && negb (granted r) | None => false end.

Definition Release (i : nat) (l : Limiter) : option Limiter :=
  r ← rs l !! i;
  if cancelled r then Some l else if granted r then release_once i r l else None.

Definition Cancel (i : nat) (l : Limiter) : option (bool * Limiter) :=
  r ← rs l !! i;
  Some (if granted r then (false, l) else (true, set_cancelled i r l)).

Definition Drop (i : nat) (l : Limiter) : option Limiter :=
  r ← rs l !! i;
  if granted r then release_once i r l else Some (set_cancelled i r l).

(** [doWakes]: a goroutine takes the mutex. *)
Definition doWakes (l : Limiter) : option Limiter :=
  match wakes l with
  | S k => if waking l then None else Some (set_waking true (set_wakes k l))
  | O => None
  end.

(** [wake]: whether the reservation was granted by it. *)
Definition wake (i : nat) (r : Reservation) (l : Limiter) : bool * Limiter :=
  if cancelled r then (false, l)
  else (negb (granted r), set_res i (MkRes (n r) true (cancelled r) (released r)) l).

(** A turn of the loop of [doWakesLocked]; a reservation that is cancelled between
    the two tests is passed over as one that was before them. *)
Definition doWakesLocked (l : Limiter) : option Limiter :=
  if negb (waking l) then None
  else match waiting l with
       | [] => Some (set_waking false l)
       | i :: w =>
           r ← rs l !! i;
           if cancelled r then Some (set_waiting w l)
           else if n r <=? value l then
             let '(ok, l) := wake i r l in
             Some (set_waiting w (if ok : bool then set_value (value l - n r) l else l))
           else Some (set_waking false l)
       end.

Inductive wait_result := WTooLarge | WGranted | WCancelled | WContext.

(** [Wait]: [None] while it blocks; [done] is whether the context has ended. *)
Definition Wait (i : nat) (done : bool) (l : Limiter) : option wait_result :=
  r ← rs l !! i;
  if Max l <? n r then Some WTooLarge
  else if granted r then Some WGranted
  else if cancelled r then Some WCancelled
  else if done then Some WContext
  else None.

(** ** Runs *)

Inductive action := AReserve (k : Z) | ARelease (i : nat) | ACancel (i : nat) | ADrop (i : nat) | AWakes | ATurn.

Definition step (a : action) (l : Limiter) : option Limiter :=
  match a with
  | AReserve k => Reserve k l
  | ARelease i => Release i l
  | ACancel i => snd <$> Cancel i l
  | ADrop i => Drop i l
  | AWakes => doWakes l
  | ATurn => doWakesLocked l
  end.

(** Sizes are not negative. *)
Definition action_ok (a : action) : Prop := match a with AReserve k => 0 ≤ k | _ => True end.

Inductive reachable (max : Z) : Limiter → Prop :=
  | reach_new : reachable max (new_limiter max)
  | reach_step a l l' : reachable max l → action_ok a → step a l = Some l' → reachable max l'.

(** ** The invariant *)

(** What a reservation holds of the limit. *)
Definition held (r : Reservation) : Z := if granted r && negb (released r) then n r else 0.

Definition blocked (l : Limiter) : Prop :=
  match waiting l with
  | [] => True
  | i :: _ => ∃ r, rs l !! i = Some r ∧ cancelled r = false ∧ value l < n r
  end.

Record limiter_ok (max : Z) (l : Limiter) : Prop := {
  l_max : Max l = max;
  l_value : 0 ≤ value l;
  l_sum : value l + Zsum (held <$> rs l) = max;
  l_size i r : rs l !! i = Some r → 0 ≤ n r;
  l_flags i r : rs l !! i = Some r → (granted r = true → cancelled r = false) ∧ (released r = true → granted r = true);
  l_nodup : NoDup (waiting l);
  l_waiting i : i ∈ waiting l → ∃ r, rs l !! i = Some r ∧ granted r = false;
  l_queued i r : rs l !! i = Some r → granted r = false → cancelled r = false → i ∈ waiting l;
  l_blocked : waking l = false → wakes l = 0%nat → blocked l;
}.

Lemma limiter_new max : 0 ≤ max → limiter_ok max (new_limiter max).
Proof. intros Hm. split; cbn; try done; [lia|constructor|by intros i ?%elem_of_nil]. Qed.

Lemma Reserve_ok max k l l' : limiter_ok max l → 0 ≤ k → Reserve k l = Some l' → limiter_ok max l'.
Proof.
  intros [H1 H2 H3 H4 H5 H6 H7 H8 H9] Hk. unfold Reserve. destruct (waking l) eqn:Hw; [done|]. intros Hs. apply (inj Some) in Hs as <-.
  assert (∀ g r' i, (rs l ++ [MkRes k g false false]) !! i = Some r' → rs l !! i = Some r' ∨ (i = length (rs l) ∧ r' = MkRes k g false false)) as Hl.
  { intros g r' i [H|[Hi H]]%lookup_app_Some; [by left|right]. destruct (i - length (rs l))%nat as [|j] eqn:Hj; [|by destruct j].
    injection H as <-. split; [lia|done]. }
  assert (∀ i r x, rs l !! i = Some r → (rs l ++ [x]) !! i = Some r) as Hold by (intros i r x Hi; by apply lookup_app_l_Some).
  destruct (Z.leb_spec k (value l)) as [Hle|Hgt].
  - split; cbn [Max value waiting waking wakes rs]; [done|lia| | | |done| | |].
    + rewrite fmap_app, Zsum_app. cbn. lia.
    + intros i r [H|[_ ->]]%Hl; [by eapply H4|done].
    + intros i r [H|[_ ->]]%Hl; [by eapply H5|done].
    + intros i (r & Hr & Hg)%H7. exists r. split; [by apply Hold|done].
    + intros i r [H|[_ ->]]%Hl; [by eapply H8|done].
    + intros _ Hk0. specialize (H9 eq_refl Hk0). unfold blocked in *. cbn [waiting rs value].
      destruct (waiting l); [done|]. destruct H9 as (r & Hr & Hc & Hv). exists r. split; [by apply Hold|]. split; [done|lia].
  - split; cbn [Max value waiting waking wakes rs]; [done|lia| | | | | | |].
    + rewrite fmap_app, Zsum_app. cbn. lia.
    + intros i r [H|[_ ->]]%Hl; [by eapply H4|done].
    + intros i r [H|[_ ->]]%Hl; [by eapply H5|done].
    + apply NoDup_app. split_and!; [done| |apply NoDup_singleton].
      intros i (r & Hr%lookup_lt_Some & _)%H7 ->%list_elem_of_singleton. lia.
    + intros i [(r & Hr & Hg)%H7| ->%list_elem_of_singleton]%elem_of_app; [exists r; split; [by apply Hold|done]|].
      exists (MkRes k false false false). split; [|done]. by rewrite lookup_app_r, Nat.sub_diag by lia.
    + intros i r [H|[-> ->]]%Hl; intros ? ?; apply elem_of_app; [left; by eapply H8|right; by left].
    + intros _ Hk0. specialize (H9 eq_refl Hk0). unfold blocked in *. cbn [waiting rs value].
      destruct (waiting l) as [|j w]; cbn [app].
      * exists (MkRes k false false false). split; [by rewrite lookup_app_r, Nat.sub_diag by lia|done].
      * destruct H9 as (r & Hr & Hc & Hv). exists r. split; [by apply Hold|done].
Qed.

(** A look-up after a change of the reservation [i]. *)
Lemma lookup_change (l : list Reservation) i j r r' x :
  l !! i = Some r → <[i := r']> l !! j = Some x → (j = i ∧ x = r') ∨ (j ≠ i ∧ l !! j = Some x).
Proof.
  intros Hi Hj. destruct (decide (j = i)) as [->|Hne].
  - rewrite list_lookup_insert_eq in Hj by (by eapply lookup_lt_Some). left. by split; [|congruence].
  - rewrite list_lookup_insert_ne in Hj by done. by right.
Qed.

Lemma lookup_changed (l : list Reservation) i r r' : l !! i = Some r → <[i := r']> l !! i = Some r'.
Proof. intros Hi. apply list_lookup_insert_eq. by eapply lookup_lt_Some. Qed.

Lemma release_ok max i r l l' :
  limiter_ok max l → rs l !! i = Some r → granted r = true → release_once i r l = Some l' → limiter_ok max l'.
Proof.
  intros Hok Hi Hg. pose proof Hok as [H1 H2 H3 H4 H5 H6 H7 H8 H9]. unfold release_once.
  destruct (released r) eqn:Hr; [intros Hs; by apply (inj Some) in Hs as <-|]. destruct (waking l) eqn:Hw; [done|].
  intros Hs. apply (inj Some) in Hs as <-. pose proof (H4 i r Hi). destruct (H5 i r Hi) as [Hc _]. specialize (Hc Hg).
  set (r' := MkRes _ _ _ _). split; cbn [Max value waiting waking wakes rs set_res set_value set_waking]; [done|lia| | | |done| | |done].
  - rewrite (Zsum_fmap_insert held (rs l) i r r' Hi). assert (held r = n r ∧ held r' = 0) as [-> ->]; [|lia].
    unfold held, r'. cbn. by rewrite Hg, Hr.
  - intros j x [[-> ->]|[_ Hj]]%(lookup_change _ _ _ _ _ _ Hi); [done|by eapply H4].
  - intros j x [[-> ->]|[_ Hj]]%(lookup_change _ _ _ _ _ _ Hi); [done|by eapply H5].
  - intros j Hj. destruct (H7 j Hj) as (x & Hx & Hxg). exists x. split; [|done].
    destruct (decide (j = i)) as [->|Hne]; [congruence|by rewrite list_lookup_insert_ne].
  - intros j x [[-> ->]|[_ Hj]]%(lookup_change _ _ _ _ _ _ Hi); [cbn; congruence|by eapply H8].
Qed.

Lemma cancel_ok max i r l : limiter_ok max l → rs l !! i = Some r → granted r = false → limiter_ok max (set_cancelled i r l).
Proof.
  intros Hok Hi Hg. pose proof Hok as [H1 H2 H3 H4 H5 H6 H7 H8 H9]. unfold set_cancelled. destruct (cancelled r) eqn:Hc; [done|].
  set (r' := MkRes _ _ _ _). destruct (H5 i r Hi) as [_ Hrel].
  split; cbn [Max value waiting waking wakes rs set_res set_wakes]; [done|done| | | |done| | |done].
  - rewrite (Zsum_fmap_insert held (rs l) i r r' Hi). assert (held r = 0 ∧ held r' = 0) as [-> ->]; [|lia].
    unfold held, r'. cbn. by rewrite Hg.
  - intros j x [[-> ->]|[_ Hj]]%(lookup_change _ _ _ _ _ _ Hi); [exact (H4 i r Hi)|by eapply H4].
  - intros j x [[-> ->]|[_ Hj]]%(lookup_change _ _ _ _ _ _ Hi); [|by eapply H5]. unfold r'. cbn. split; [congruence|done].
  - intros j Hj. destruct (H7 j Hj) as (x & Hx & Hxg). destruct (decide (j = i)) as [->|Hne].
    + exists r'. split; [by apply (lookup_changed _ _ r)|done].
    + exists x. by rewrite list_lookup_insert_ne.
  - intros j x [[-> ->]|[_ Hj]]%(lookup_change _ _ _ _ _ _ Hi); [done|by eapply H8].
Qed.

Lemma turn_ok max l l' : limiter_ok max l → doWakesLocked l = Some l' → limiter_ok max l'.
Proof.
  intros Hok. pose proof Hok as [H1 H2 H3 H4 H5 H6 H7 H8 H9]. unfold doWakesLocked. destruct (waking l) eqn:Hw; [|done]. cbn [negb].
  destruct (waiting l) as [|i w] eqn:Hq.
  { intros Hs. apply (inj Some) in Hs as <-. split; cbn; rewrite ?Hq; try done. intros _ _. unfold blocked. cbn. by rewrite Hq. }
  destruct (H7 i ltac:(left)) as (r & Hi & Hg). rewrite Hi. cbn [mbind option_bind]. apply NoDup_cons in H6 as [Hni Hnd].
  destruct (cancelled r) eqn:Hc.
  { intros Hs. apply (inj Some) in Hs as <-. split; cbn; try done; [intros j Hj; apply H7; by right| |by rewrite Hw].
    intros j x Hj Hxg Hxc. destruct (proj1 (elem_of_cons _ _ _) (H8 j x Hj Hxg Hxc)) as [->|]; [congruence|done]. }
  destruct (Z.leb_spec (n r) (value l)) as [Hle|Hgt].
  2: { intros Hs. apply (inj Some) in Hs as <-. split; cbn; rewrite ?Hq; try done; [by constructor|].
       intros _ _. unfold blocked. cbn. rewrite Hq. by exists r. }
  unfold wake. rewrite Hc, Hg. cbn [negb]. intros Hs. apply (inj Some) in Hs as <-. pose proof (H4 i r Hi).
  set (r' := MkRes _ _ _ _). split; cbn [Max value waiting waking wakes rs set_res set_value set_waiting]; [done|lia| | | |done| | |by rewrite Hw].
  - rewrite (Zsum_fmap_insert held (rs l) i r r' Hi). destruct (H5 i r Hi) as [_ Hrel].
    assert (released r = false) as Hr by (destruct (released r); [naive_solver|done]).
    assert (held r = 0 ∧ held r' = n r) as [-> ->]; [|lia]. unfold held, r'. cbn. by rewrite Hg, Hr.
  - intros j x [[-> ->]|[_ Hj]]%(lookup_change _ _ _ _ _ _ Hi); [done|by eapply H4].
  - intros j x [[-> ->]|[_ Hj]]%(lookup_change _ _ _ _ _ _ Hi); [done|by eapply H5].
  - intros j Hj. destruct (H7 j ltac:(by right)) as (x & Hx & Hxg). exists x. split; [|done].
    rewrite list_lookup_insert_ne; [done|]. by intros ->.
  - intros j x [[-> ->]|[Hne Hj]]%(lookup_change _ _ _ _ _ _ Hi); [done|]. intros Hxg Hxc.
    by destruct (proj1 (elem_of_cons _ _ _) (H8 j x Hj Hxg Hxc)).
Qed.

Lemma step_ok max a l l' : limiter_ok max l → action_ok a → step a l = Some l' → limiter_ok max l'.
Proof.
  intros Hok Ha. destruct a as [k|i|i|i| |]; cbn [step]; [by apply Reserve_ok| | | | |by apply turn_ok].
  - unfold Release. destruct (rs l !! i) as [r|] eqn:Hi; [|done]. cbn [mbind option_bind].
    destruct (cancelled r); [intros Hs; by apply (inj Some) in Hs as <-|]. destruct (granted r) eqn:Hg; [|done]. by apply release_ok.
  - unfold Cancel. destruct (rs l !! i) as [r|] eqn:Hi; [|done]. cbn [mbind option_bind fmap option_fmap option_map].
    destruct (granted r) eqn:Hg; intros Hs; apply (inj Some) in Hs as <-; [done|by apply cancel_ok].
  - unfold Drop. destruct (rs l !! i) as [r|] eqn:Hi; [|done]. cbn [mbind option_bind].
    destruct (granted r) eqn:Hg; [by apply release_ok|]. intros Hs. apply (inj Some) in Hs as <-. by apply cancel_ok.
  - unfold doWakes. destruct (wakes l); [done|]. destruct (waking l); [done|]. intros Hs. apply (inj Some) in Hs as <-.
    destruct Hok. by split.
Qed.

Lemma reachable_ok max l : 0 ≤ max → reachable max l → limiter_ok max l.
Proof. intros Hm. induction 1; [by apply limiter_new|by eapply step_ok]. Qed.

(** ** What the limiter promises *)

Lemma allocations_bound max l : limiter_ok max l → value l ≤ max.
Proof.
  intros [_ _ H3 H4 _ _ _ _ _]. assert (0 ≤ Zsum (held <$> rs l)); [|lia]. apply Zsum_nonneg, Forall_fmap, Forall_lookup.
  intros i r Hi. unfold compose, held. pose proof (H4 i r Hi). by destruct (granted r && negb (released r)).
Qed.

(** In every state that can be reached, by any interleaving, the granted
    reservations that were not released fit the limit, and the free space is the
    rest; a reservation is never both granted and cancelled; one that is neither is
    in the queue; and no wake-up is lost: when no goroutine is about to wake the
    queue or doing so, the reservation in front is live and does not fit. *)
Theorem allocations_within_limit (max : Z) (l : Limiter) :
  0 ≤ max → reachable max l →
  0 ≤ Zsum (held <$> rs l) ≤ max ∧ value l = max - Zsum (held <$> rs l) ∧
  (∀ i r, rs l !! i = Some r → ¬ (granted r = true ∧ cancelled r = true)) ∧
  (∀ i r, rs l !! i = Some r → granted r = false → cancelled r = false → i ∈ waiting l) ∧
  (waking l = false → wakes l = 0%nat → blocked l).
Proof.
  intros Hm Hr. pose proof (allocations_bound max l (reachable_ok max l Hm Hr)) as Hb.
  destruct (reachable_ok max l Hm Hr) as [H1 H2 H3 H4 H5 H6 H7 H8 H9].
  split_and!; [lia|lia|lia| |done|done]. intros i r Hi [Hg Hc]. destruct (H5 i r Hi) as [Hx _]. rewrite (Hx Hg) in Hc. done.
Qed.

(** The loop ends: every turn takes a reservation from the queue or is the last. *)
Theorem wakes_end (max : Z) (l : Limiter) :
  0 ≤ max → reachable max l → waking l = true →
  ∃ l', doWakesLocked l = Some l' ∧ (waking l' = false ∨ S (length (waiting l')) = length (waiting l)).
Proof.
  intros Hm Hr Hw. destruct (reachable_ok max l Hm Hr) as [_ _ _ _ _ _ H7 _ _]. unfold doWakesLocked. rewrite Hw. cbn [negb].
  destruct (waiting l) as [|i w] eqn:Hq; [by eexists; split; [done|left]|].
  destruct (H7 i ltac:(left)) as (r & -> & Hg). cbn [mbind option_bind]. unfold wake. rewrite Hg.
  destruct (cancelled r); [by eexists; split; [done|right]|]. destruct (n r <=? value l); [by eexists; split; [done|right]|].
  by eexists; split; [done|left].
Qed.

(** The queue of [l] stands still in [l']: [i] is in front, and nothing that waited
    is granted. *)
Definition stands (i : nat) (r : Reservation) (l l' : Limiter) : Prop :=
  head (waiting l') = Some i ∧ rs l' !! i = Some r ∧ ∀ j r', j ∈ waiting l → rs l' !! j = Some r' → granted r' = false.

Section standing.
Context (max : Z) (l : Limiter) (i : nat) (w : list nat) (r : Reservation).
Context (ok : limiter_ok max l) (front : waiting l = i :: w) (res : rs l !! i = Some r).

Lemma waiting_not_granted j r' : j ∈ waiting l → rs l !! j = Some r' → granted r' = false.
Proof using ok. intros Hj Hr'. destruct (l_waiting max l ok j Hj) as (x & Hx & ?). congruence. Qed.

Lemma stands_same : stands i r l l.
Proof using ok front res. split_and!; [by rewrite front|done|apply waiting_not_granted]. Qed.

Lemma release_stands k x l' : rs l !! k = Some x → granted x = true → release_once k x l = Some l' → stands i r l l'.
Proof using ok front res.
  intros Hk Hx. unfold release_once. destruct (released x); [intros Hs; apply (inj Some) in Hs as <-; apply stands_same|].
  destruct (waking l); [done|]. intros Hs. apply (inj Some) in Hs as <-. unfold stands. cbn [waiting rs set_waking set_value set_res].
  assert (∀ j, j ∈ waiting l → j ≠ k) as Hne by (intros j Hj ->; rewrite (waiting_not_granted k x Hj Hk) in Hx; done).
  split_and!; [by rewrite front| |].
  - rewrite list_lookup_insert_ne; [done|]. intros <-. apply (Hne k); [rewrite front; left|done].
  - intros j r' Hj. rewrite list_lookup_insert_ne by (intros <-; by apply (Hne k)). by apply waiting_not_granted.
Qed.

Lemma cancel_stands k x : k ≠ i → rs l !! k = Some x → granted x = false → stands i r l (set_cancelled k x l).
Proof using ok front res.
  intros Hki Hk Hx. unfold set_cancelled. destruct (cancelled x); [apply stands_same|].
  unfold stands. cbn [waiting rs set_wakes set_res]. rewrite list_lookup_insert_ne by done. split_and!; [by rewrite front|done|].
  intros j r' Hj [[-> ->]|[_ Hj2]]%(lookup_change _ _ _ _ _ _ Hk); [done|by eapply waiting_not_granted].
Qed.

Lemma reserve_stands k l' : Reserve k l = Some l' → stands i r l l'.
Proof using ok front res.
  unfold Reserve. destruct (waking l); [done|]. intros Hs. apply (inj Some) in Hs as <-.
  assert (∀ x j r', j ∈ waiting l → (rs l ++ [x]) !! j = Some r' → granted r' = false) as Happ.
  { intros x j r' Hj Hr'. destruct (l_waiting max l ok j Hj) as (y & Hy & Hyg). rewrite (lookup_app_l_Some _ _ _ _ Hy) in Hr'. congruence. }
  unfold stands. destruct (k <=? value l); cbn [waiting rs]; (split_and!; [by rewrite front|by apply lookup_app_l_Some|apply Happ]).
Qed.
End standing.

(** A reservation larger than the limit stays in front of the queue until it is
    cancelled or dropped ([Wait] reports it and leaves it there), and no reservation
    behind it is granted meanwhile. *)
Theorem oversized_blocks_queue (max : Z) (l l' : Limiter) (i : nat) (w : list nat) (r : Reservation) (a : action) :
  0 ≤ max → reachable max l → waiting l = i :: w → rs l !! i = Some r → max < n r → cancelled r = false →
  a ≠ ACancel i → a ≠ ADrop i → step a l = Some l' → stands i r l l'.
Proof.
  intros Hm Hr Hq Hi Hbig Hc Hn1 Hn2. pose proof (reachable_ok max l Hm Hr) as Hok. pose proof (allocations_bound max l Hok) as Hv.
  pose proof (stands_same max l i w r Hok Hq Hi) as Hsame. destruct a as [k|k|k|k| |]; cbn [step].
  - by eapply reserve_stands.
  - unfold Release. destruct (rs l !! k) as [x|] eqn:Hk; [|done]. cbn [mbind option_bind].
    destruct (cancelled x); [intros Hs; by apply (inj Some) in Hs as <-|]. destruct (granted x) eqn:Hx; [|done]. by eapply release_stands.
  - unfold Cancel. destruct (rs l !! k) as [x|] eqn:Hk; [|done]. cbn [mbind option_bind fmap option_fmap option_map].
    destruct (granted x) eqn:Hx; intros Hs; apply (inj Some) in Hs as <-; [done|]. eapply cancel_stands; [done..|congruence|done|done].
  - unfold Drop. destruct (rs l !! k) as [x|] eqn:Hk; [|done]. cbn [mbind option_bind].
    destruct (granted x) eqn:Hx; [by eapply release_stands|]. intros Hs. apply (inj Some) in Hs as <-.
    eapply cancel_stands; [done..|congruence|done|done].
  - unfold doWakes. destruct (wakes l); [done|]. destruct (waking l); [done|]. intros Hs. by apply (inj Some) in Hs as <-.
  - unfold doWakesLocked. destruct (waking l); [|done]. cbn [negb]. rewrite Hq, Hi. cbn [mbind option_bind]. rewrite Hc.
    destruct (Z.leb_spec (n r) (value l)); [lia|]. intros Hs. by apply (inj Some) in Hs as <-.
Qed.

(** *** An example *)

(** Two reservations of 3 from 4: the second waits until the first is released. *)
Example second_waits :
  ∃ l, foldl (λ o a, o ≫= step a) (Some (new_limiter 4)) [AReserve 3; AReserve 3; ARelease 0; ATurn; ATurn] = Some l ∧
    value l = 1 ∧ waiting l = [] ∧ granted <$> rs l !! 1%nat = Some true.
Proof. eexists. split; [reflexivity|]. done. Qed.
